(* ===== verification/_CoqProject ===== *)
-Q . S2P
Prelude.v
Traces.v
GoText.v
Slog.v
Compute.v
Config.v
Gob.v
WalLog.v
OS.v
FileSystem.v
Concurrency.v
LogRecords.v
HashTable.v
Wal.v
Unreadable.v
Torn.v
WalRuntime.v
Rounds.v
FlusherLog.v
Engine.v
Push.v
Storage.v
Network.v
Database.v
Logging.v
AuditTrail.v
Secrecy.v
Requests.v
Store.v
Server.v
Wire.v
Liveness.v
Durable.v
Killed.v
Initialization.v
Process.v
ServiceLog.v
Cli.v
