(* ===== verification/Prelude.v ===== *)
(** * Verification of an in-memory key-value database with a write-ahead log

    The program is a TCP server for the commands SET, GET and DEL over a hash
    table, made durable by a write-ahead log, and an interactive client. This
    library models its Go sources (under [src/]) as executable definitions and
    proves the properties that make each part, and their composition, correct.

    ** The program and the files of this library

    A request travels down these layers and its reply back up:

    - [Network.v] ([internal/network]): options, [NewTCPServer], the accept
      loop with its semaphore and shutdown ([serve_step]), the loop of one
      connection ([HandleConnections]), and the client;
    - [Database.v] ([internal/database/database.go]): [DatabaseHandler] parses
      the text and dispatches it;
    - [Compute.v] ([internal/database/compute]): tokens, validation; it uses
      [GoText.v], the functions of [strings], [strconv], [unicode/utf8] that
      the sources call, on byte strings;
    - [Storage.v] ([internal/database/storage/storage.go]): the facade;
    - [Engine.v] ([in_memory/engine.go]): sequence numbers for writes, reads
      from the hash table; and [Push.v] ([Wal.push], [Wal.Set] and [Wal.Del] of
      [wal.go]): the log as one client uses it, beside a flusher that makes
      the moves of any schedule;
    - [Wal.v] ([in_memory/wal]: [wal.go], [wal_writer.go], [write_request.go]):
      the active batch, sealing, flushing, notification, recovery;
    - [Torn.v]: what failed and interrupted writes leave in a segment, and what
      a restart makes of it; [Unreadable.v]: logs that do not decode, and what a
      flush does with any size limit;
    - [WalRuntime.v]: the same log with its concurrency: the clients inside
      [push] and the flusher goroutine of [Start] as a step relation; and
      [Rounds.v]: the order in which it serves batches, and its drain;
    - [WalLog.v] ([in_memory/wal/wal_log.go]) and [Gob.v]: records and their
      encoding, byte by byte, as [encoding/gob] writes and reads it;
    - [FileSystem.v] ([in_memory/filesystem]): segments, rotation, listing;
    - [OS.v]: files, directories, handles, system calls that may fail, paths;
    - [HashTable.v] ([in_memory/hash_table.go], [id_generator.go],
      [internal/lib/context_util]): the table, the generator, context values;
    - [Concurrency.v] ([internal/concurrency]): promises, futures, semaphore.

    Around them:

    - [Config.v] ([internal/config]), [Initialization.v]
      ([internal/initialization]): configuration and the composition root;
    - [Process.v] ([cmd/server/main.go]): the life of the server process;
    - [Cli.v] ([internal/application_cli], [cmd/cli]): the interactive client;
    - [Slog.v] ([internal/lib/logger]): the two log handlers;
    - [LogRecords.v] (the [errors.go] files and the other sentinels): texts of
      errors, log records, their rendering, and a writer that collects them;
    - [FlusherLog.v]: the flusher, from its loop down to the segment, with every
      record it logs; [Logging.v]: the same for the dispatcher, storage, engine
      and recovery; [AuditTrail.v] and [Secrecy.v]: what these logs show, and what
      they do not; [ServiceLog.v]: the loop of a connection, the composition
      root and [main] with their records. The goroutine of a connection and the
      flusher have a log each, and nothing is said about how they interleave.

    The server as a whole is a transition system whose steps are the accesses
    to shared state of all its goroutines:

    - [Requests.v] cuts the handler into these accesses, and checks the cut
      against [DatabaseHandler] ([handler_is_its_pieces]);
    - [Server.v]: the connections ([conn_step]), the accept loop, the
      generator and the log with its flusher, interleaved ([server_step]);
    - [Traces.v]: executions, the events they show, and simulation;
    - [Store.v]: the specification, a map behind a queue of committed writes
      ([store_step]), which [Server.v] refines;
    - [Wire.v] and [Liveness.v]: what clients see, and that they are answered;
    - [Durable.v]: what the directory holds while the server runs, and
      [Killed.v]: what is left when it dies in the middle of a write.

    ** How the code is represented

    A Go function that changes state takes and returns it. Errors are values
    of [gerr]; a pair (T, error) is [res T], a bare error is [option gerr].
    Statements that can block or panic (channel operations, nil dereferences,
    slice indexing) return an [outcome]. Strings are lists of bytes. Machine
    integers are [Z] with [int64] written where the code can overflow. Channels
    and promises live in a heap and are shared by address, so a copied promise
    is a copied reference, as in the code. The log writer and reader share one
    segment; the log and the engine share one hash table. [sort.Slice] is any
    function with its documented contract (class [SortSlice]), so nothing
    depends on the order of equal keys. The operating system is the class
    [Env]: which system call fails (and how much a failing write leaves
    behind), the clock and the working directory. The type ids of the gob
    runtime, Unicode upper-casing outside ASCII, the colours of the terminal,
    the number parsers of [flag], cleanenv, validator and the network are
    parameters too. Interfaces of the source are classes
    ([CommandHashTable], [CommandEngine], [QueryEngine], [CommandStorage],
    [QueryStorage], [ComputeLayer], [StorageLayer]); what one layer promises
    the next is the record [kv_laws] of [Engine.v], by which the dispatcher is
    correct over any storage; the log keeps its weaker form [lagging_laws]
    (reads may lag behind the last write), which engine and storage transport.

    ** What is proved

    - The server binary. [process_refines_store]: over any number of lives of
      the process, with any number of concurrent clients, signals, exits and
      kills at any moment, in the middle of a write too, and with any valid
      size limit, requests and replies are those of the abstract store, on which
      a restart makes every committed write visible; any system call may fail, at
      start-up too, and a start-up that fails loses nothing; after a failure of
      [Sync] a restart may also find writes that were reported as failed
      ([next_map]); only a directory with a segment that does not decode cannot
      be started on again ([unreadable_log_is_final]), and the theorem lists
      what can make one ([may_spoil]). [server_refines_store]: one life, in every
      environment, faults included. [session_types]: requests and replies
      alternate and are well typed, and so is the table. [ok_reply_durable]: a
      reply that reports success has its record on disk.
      [request_answerable]: no reachable state is a deadlock or has lost a
      request; [writes_answered_in_order]: a write waits for the batches that
      were sent before its own, five at most.
    - One client beside the flusher. [session_lags_one_write]: under every
      schedule of the flusher and in every environment any sequence of raw
      requests is answered from a map, failed writes have no effect, and a read
      lags at most the last write behind. [handler_correct]: the dispatcher over
      any storage. [crash_restart_refinement]: any sequence of flushes and
      crash-restarts implements a map on which a restart has no effect.
    - Concurrency of the log, for every interleaving: [ack_implies_durable],
      [write_ahead], [runtime_progress]; [batches_served_in_order]: how many
      batches a request waits for; [shutdown_drains]: the flusher's end after a
      cancellation while clients go on, with a bound on its steps and what it
      has answered before it returns.
    - The log of the server: [connection_audit_trail] (at Info the goroutine of a
      connection logs the acknowledged SETs and the failed writes, and the
      flusher the failed batches, and nothing else), [start_up_reported],
      [values_not_logged] (two sessions with different values log the same).
    - Interrupted writes: [restart_after_torn_write], for every prefix of a
      batch that a failed write can leave behind.
    - The log, one operation at a time: [flush_outcome], [recovery_replays],
      [push_thresholds].
    - The format and the files: [gob_roundtrip], [gob_torn_stream],
      [decode_terminates], [segment_append_only], [segment_write_bounds],
      [segment_listing_chronological], [make_directory_ok].
    - Parsing: [parse_outcome], [parse_canonical], [parse_print].
    - Primitives and the outer parts: [promise_set_once], [semaphore_bound],
      [semaphore_no_lost_wakeup], [connections_bounded],
      [generate_concurrent_unique], [engine_forwards_lsn], [config_defaults],
      [new_server_outcome], [client_reply_cut], [client_closed],
      [repl_forwards], [cli_total], [flags_read_back], [pretty_record].
    - Where the code does not do what its comments or documents say:
      [restart_after_two_flushes_fails] and [gob_second_stream_refused] (two
      batches in one segment make it unreadable), [failed_write_bricks_restart]
      and [failed_write_swallows_batch] (a failed write whose bytes stay in the
      file spoils the batch after it), [unreadable_log_is_final] (recovery does
      not tolerate a last record that was cut off), [no_stat_unreadable]
      (nor a failing [Stat]), [failed_write_reappears] (a write whose [Sync]
      failed is reported as failed and there after the next start), [write_error_blank] (the error of a
      failed write is logged as an empty object), [server_stale_read] and
      [ack_before_apply] (success is reported before the write is visible),
      [exited_clients_wait_forever] (requests left behind when the flusher
      returns), [shutdown_loses_request] (the process waits five seconds and
      exits with status zero while a request that it read is neither answered
      nor logged), [segment_failed_rotation_sticks],
      [shutdown_abandons_connections], [requests_not_framed],
      [generate_race_negative], [pretty_time_drops_minute],
      [derived_handlers].

    ** Assumptions, bounds and fuel

    The durability theorems across restarts assume a clock that advances
    between the first [horizon] readings at instants whose nanosecond count has
    19 digits (2001 to 2262). Faults are given by kind and number of the system
    call ([env_fault]). [process_refines_store] allows all of them, but a
    failing [Write] after which the process goes on leaves nothing behind
    ([clean_writes]); [Torn.v] treats those that do: after them a restart may
    find values that nobody wrote, so no store of this kind is implemented. [crash_restart_refinement], by which every restart succeeds,
    assumes that every batch gets a segment of its own (a size limit no larger
    than the type descriptors of a stream); [process_refines_store] holds for
    every limit, with start-ups that fail as one of its outcomes. What [Write]
    has put into a file survives the end of the process. The sequential theorems on
    restarts assume no faults ([fault_free]), or none from some point on
    ([quiet]). A failing [Create] has no effect, and a failing [Close] still closes.
    [process_refines_store] also assumes a valid configuration with a buffer of
    at most 2^31 bytes and a volume threshold of at most 2^60, and covers
    executions within the horizon and with fewer than 2^63 sequence numbers per
    life. The theorems on a running system assume none of these. Records are
    transportable ([wf_log]) where bytes are compared: messages below gob's limit of 2^33
    bytes. The decoder loops take the length of their input as fuel, which is
    enough because every message takes at least one byte ([decode_terminates],
    for any input); the loop of the interactive client likewise
    ([repl_forwards], [cli_total]), and the scan of a time layout. Fields of a
    record are decoded with fuel four, one round per field and one for the
    terminator. A client that blocks in [push] lets the flusher go on for
    [patience] moves after those of its schedule, which is enough to flush all
    there is: [push_spec] shows that the only client is never left blocked. The
    theorems on one client let the other goroutines make the moves [AFlusher]
    and [ATick] ([own_move]), as many as they like at each point; with more
    clients, or a cancellation, they would be those of [Server.v] and
    [WalRuntime.v]. A step of a connection is one access to shared state; the
    semaphore's two operations on its counter are one step each, and the time
    between steps is arbitrary, so a deadline is a read or a write that fails
    at any moment and a tick of the flusher's clock may come at any moment.

    ** Not modelled

    The log records of the accept loop, of the shutdown and of the network
    client; what a handler logs before it panics (the handler of the service
    does not); permission bits; generated mocks. The adapters
    [WalWriter] and [WalReader] only store the shared segment and have no state
    of their own in the model.

    ** Plan

    Left: the log records of the accept loop and of the shutdown as labels of
    the process steps; [values_not_logged] for many clients.

    This file holds what the others share: bytes and strings, machine integers,
    errors and results, sorting, and the tactics and hint databases. *)

From stdpp Require Export prelude gmap list sorting strings countable relations.
From Stdlib Require Export ZArith Lia.
From Stdlib Require Export Strings.Byte.

#[export] Set Warnings "-clear-no-such-hyp".

#[global] Open Scope Z_scope.

(** ** Bytes and strings

    A Go [string] and a Go [[]byte] are both sequences of bytes; they are
    modelled by the same type [bytes]. *)

Abbreviation bytes := (list byte).

#[global] Instance byte_eq_dec : EqDecision byte := Byte.byte_eq_dec.

(** The numeric value of a byte, and Go's conversion [byte(z)], which keeps
    the low eight bits. *)
Definition bZ (b : byte) : Z := Z.of_N (Byte.to_N b).

Definition Zb (z : Z) : byte :=
  match Byte.of_N (Z.to_N (z mod 256)) with
  | Some b => b
  | None => x00
  end.

(** A string literal of the source. *)
Definition str (s : string) : bytes := String.list_byte_of_string s.

(** ** Fixed-width integers *)

(** [int64] wraps an integer into Go's [int64] (also Go's [int] on the
    64-bit platforms the service targets). *)
Definition int64 (z : Z) : Z := (z + 2 ^ 63) mod 2 ^ 64 - 2 ^ 63.

Definition MaxInt64 : Z := 2 ^ 63 - 1.

Definition in_int64 (z : Z) : Prop := - 2 ^ 63 ≤ z < 2 ^ 63.

#[global] Instance in_int64_dec z : Decision (in_int64 z).
Proof. unfold in_int64. apply _. Defined.

(** [len], as the [int] Go's builtin returns. *)
Definition zlen {A} (l : list A) : Z := Z.of_nat (length l).

(** ** Errors

    The sentinel errors of every package, the operating-system errors and
    the errors of [encoding/gob] the code can observe, and the errors built
    on the spot with [fmt.Errorf] or [errors.New] ([EText]). Sentinels are
    compared by identity, so [errors.Is] is equality. *)

Inductive os_error :=
  | ENOENT | EEXIST | EIO | EClosed | ENOTDIR | EISDIR.

Inductive gob_error :=
  | GobEOF | GobUnexpectedEOF | GobBadUint | GobBadCount | GobDuplicateType
  | GobExtraData | GobUnknownType | GobBadData | GobTooBig.

Inductive gerr :=
  (* internal/database/compute/errors.go *)
  | ErrInvalidCommand | ErrInvalidArgument | ErrEmptyCommand
  (* internal/database/storage/errors.go *)
  | ErrStorageInvalidLogger | ErrKeyNotFound
  (* internal/database/storage/engine/in_memory *)
  | ErrEngineInvalidLogger | ErrFailedGenerateLSN | ErrCreateWal
  (* .../in_memory/wal *)
  | ErrFailedToReadDirectory | ErrFailedOpenLastSegment | ErrWalInvalidLogger
  | ErrFailedDecode | ErrApplyRecord
  (* .../in_memory/filesystem *)
  | ErrFailedSaveFile | ErrFailedFileCreate | ErrFailedResolveSegmentPath
  | ErrInvalidWorkingFolder | ErrFailedToCreateDirectory
  (* internal/network/errors.go, internal/initialization *)
  | ErrNetInvalidLogger | ErrInvalidConfig | ErrInvalidMaxConn
  | ErrInvalidBufferSize | ErrInitInvalidLogger
  | EOS (e : os_error)
  | EGob (e : gob_error)
  | EText (msg : bytes).

#[global] Instance os_error_eq_dec : EqDecision os_error.
Proof. solve_decision. Defined.

#[global] Instance gob_error_eq_dec : EqDecision gob_error.
Proof. solve_decision. Defined.

#[global] Instance gerr_eq_dec : EqDecision gerr.
Proof. solve_decision. Defined.

(** A Go value of type [error]: [None] is [nil]. *)
Abbreviation error := (option gerr).

(** A Go result pair [(T, error)] of which exactly one part is meaningful. *)
Inductive res (A : Type) :=
  | Ok (a : A)
  | Err (e : gerr).
Arguments Ok {A} _.
Arguments Err {A} _.

#[global] Instance res_eq_dec `{EqDecision A} : EqDecision (res A).
Proof. solve_decision. Defined.

Definition res_bind {A B} (m : res A) (f : A → res B) : res B :=
  match m with Ok a => f a | Err e => Err e end.

Declare Scope go_scope.
Delimit Scope go_scope with go.
Notation "'let?' x := m 'in' k" := (res_bind m (λ x, k))
  (at level 10, x pattern, m at level 100, k at level 200) : go_scope.
#[global] Open Scope go_scope.

(** ** Loggers

    A logger only matters to the code through being [nil] or not and through
    the handler it was built with ([slogpretty] with a minimum level, or
    [slogdiscard]), modelled in [Slog.v]. A [*slog.Logger] is an [option
    Logger]. *)

Inductive Level := LevelDebug | LevelInfo.

Inductive Logger := PrettyLogger (min : Level) | DiscardLogger.

(** ** Sorting

    [sort.Slice] returns a permutation sorted by the given order and, as its
    documentation says, is not stable: the order of elements with equal keys
    is not determined. The models take any function with that contract; the
    instance below is the insertion sort Go itself uses on short slices. *)

Class SortSlice := {
  sort_slice : ∀ {A : Type} (key : A → Z), list A → list A;
  sort_slice_perm : ∀ {A} (key : A → Z) (l : list A), sort_slice key l ≡ₚ l;
  sort_slice_sorted : ∀ {A} (key : A → Z) (l : list A),
    StronglySorted (λ x y, key x ≤ key y) (sort_slice key l)
}.

Fixpoint insert_by {A} (key : A → Z) (x : A) (l : list A) : list A :=
  match l with
  | [] => [x]
  | y :: l' => if key x <? key y then x :: l else y :: insert_by key x l'
  end.

(** Elements are inserted from the left, each after its equals. *)
Definition insertion_sort {A} (key : A → Z) (l : list A) : list A :=
  foldl (λ acc x, insert_by key x acc) [] l.

(** Byte-wise lexicographic comparison, the order of [sort.Strings]. *)
Fixpoint bytes_cmp (a b : bytes) : comparison :=
  match a, b with
  | [], [] => Eq
  | [], _ :: _ => Lt
  | _ :: _, [] => Gt
  | x :: a', y :: b' =>
      match bZ x ?= bZ y with
      | Eq => bytes_cmp a' b'
      | c => c
      end
  end.

Definition bytes_le (a b : bytes) : Prop := bytes_cmp a b ≠ Gt.

#[global] Instance bytes_le_dec a b : Decision (bytes_le a b).
Proof. unfold bytes_le. apply _. Defined.

(** [sort.Strings]; the order is total and antisymmetric, so the result does
    not depend on the algorithm. *)
Definition sort_strings (l : list bytes) : list bytes := merge_sort bytes_le l.

(** ** Tactics and hint databases *)

Create HintDb go.
Create Rewrite HintDb zlen.

(** Case analysis on every match of the goal and hypotheses, as stdpp's
    [case_match], closing the contradictory cases. *)
Ltac go_cases := repeat (case_match; simplify_eq/=); try done.

(** Boolean comparisons of [Z] to propositions. *)
Ltac zbool :=
  repeat match goal with
  | H : (_ <? _) = true |- _ => apply Z.ltb_lt in H
  | H : (_ <? _) = false |- _ => apply Z.ltb_ge in H
  | H : (_ <=? _) = true |- _ => apply Z.leb_le in H
  | H : (_ <=? _) = false |- _ => apply Z.leb_gt in H
  | H : (_ =? _) = true |- _ => apply Z.eqb_eq in H
  | H : (_ =? _) = false |- _ => apply Z.eqb_neq in H
  | H : (_ && _)%bool = true |- _ => apply andb_true_iff in H as [??]
  | H : (_ || _)%bool = false |- _ => apply orb_false_iff in H as [??]
  end.

(** ** Lemmas on bytes *)

Lemma bZ_range b : 0 ≤ bZ b < 256.
Proof.
  unfold bZ. pose proof (Byte.to_N_bounded b). lia.
Qed.

Lemma bZ_inj a b : bZ a = bZ b → a = b.
Proof.
  unfold bZ. intros H%N2Z.inj.
  pose proof (Byte.of_to_N a) as Ha. pose proof (Byte.of_to_N b) as Hb.
  rewrite H in Ha. congruence.
Qed.

#[global] Instance bZ_inj' : Inj (=) (=) bZ.
Proof. exact bZ_inj. Qed.

Lemma bZ_Zb z : bZ (Zb z) = z mod 256.
Proof.
  unfold bZ, Zb. pose proof (Z.mod_pos_bound z 256 eq_refl) as Hz.
  destruct (Byte.of_N (Z.to_N (z mod 256))) as [b|] eqn:E.
  - apply Byte.to_of_N in E. rewrite E. lia.
  - apply Byte.of_N_None_iff in E. lia.
Qed.

Lemma bZ_Zb_small z : 0 ≤ z < 256 → bZ (Zb z) = z.
Proof. intros. rewrite bZ_Zb. apply Z.mod_small. lia. Qed.

Lemma Zb_bZ b : Zb (bZ b) = b.
Proof. apply bZ_inj. apply bZ_Zb_small, bZ_range. Qed.

Lemma byte_of_to_N b : default x00 (Byte.of_N (Byte.to_N b)) = b.
Proof. by rewrite Byte.of_to_N. Qed.

#[global] Instance byte_countable : Countable byte :=
  inj_countable' Byte.to_N (λ n, default x00 (Byte.of_N n)) byte_of_to_N.

(** ** Lemmas on integers and lengths *)

Lemma int64_id z : in_int64 z → int64 z = z.
Proof. unfold in_int64, int64. intros. rewrite Z.mod_small; lia. Qed.

Lemma int64_range z : in_int64 (int64 z).
Proof.
  unfold in_int64, int64. pose proof (Z.mod_pos_bound (z + 2 ^ 63) (2 ^ 64)). lia.
Qed.

Lemma zlen_nonneg {A} (l : list A) : 0 ≤ zlen l.
Proof. unfold zlen. lia. Qed.

Lemma zlen_app {A} (l k : list A) : zlen (l ++ k) = zlen l + zlen k.
Proof. unfold zlen. rewrite length_app. lia. Qed.

Lemma zlen_cons {A} (x : A) l : zlen (x :: l) = 1 + zlen l.
Proof. unfold zlen. simpl. lia. Qed.

Lemma zlen_nil {A} : zlen (@nil A) = 0.
Proof. done. Qed.

Lemma zlen_0_inv {A} (l : list A) : zlen l = 0 → l = [].
Proof. destruct l; unfold zlen; simpl; [done|lia]. Qed.

#[export] Hint Rewrite @zlen_app @zlen_cons @zlen_nil : zlen.
#[export] Hint Resolve zlen_nonneg bZ_range int64_range : go.

(** ** Lemmas on sorting *)

Lemma insert_by_perm {A} (key : A → Z) x l : insert_by key x l ≡ₚ x :: l.
Proof.
  induction l as [|y l IH]; simpl; [done|].
  destruct (key x <? key y); [done|].
  rewrite IH. apply Permutation_swap.
Qed.

Lemma insert_by_sorted {A} (key : A → Z) x l :
  StronglySorted (λ a b, key a ≤ key b) l →
  StronglySorted (λ a b, key a ≤ key b) (insert_by key x l).
Proof.
  induction 1 as [|y l Hl IH Hy]; simpl; [repeat constructor|].
  destruct (key x <? key y) eqn:E; zbool.
  - constructor; [by constructor|]. constructor; [lia|].
    eapply Forall_impl; [exact Hy|]. simpl. lia.
  - constructor; [done|].
    rewrite insert_by_perm. constructor; done.
Qed.

Lemma insertion_sort_spec {A} (key : A → Z) l acc :
  StronglySorted (λ a b, key a ≤ key b) acc →
  foldl (λ acc x, insert_by key x acc) acc l ≡ₚ acc ++ l ∧
  StronglySorted (λ a b, key a ≤ key b)
    (foldl (λ acc x, insert_by key x acc) acc l).
Proof.
  revert acc. induction l as [|x l IH]; intros acc Hacc; simpl.
  - by rewrite app_nil_r.
  - destruct (IH (insert_by key x acc)) as [Hp Hs]; [by apply insert_by_sorted|].
    split; [|done]. rewrite Hp, insert_by_perm. simpl. by rewrite Permutation_middle.
Qed.

#[global] Program Instance insertion_sort_slice : SortSlice :=
  {| sort_slice := @insertion_sort |}.
Next Obligation.
  intros A key l. by apply (insertion_sort_spec key l []); constructor.
Qed.
Next Obligation.
  intros A key l. by apply (insertion_sort_spec key l []); constructor.
Qed.

(** With pairwise distinct keys every sort gives the same list. *)
Lemma sorted_by_key_unique {A} (key : A → Z) (l k : list A) :
  NoDup (key <$> l) → l ≡ₚ k →
  StronglySorted (λ a b, key a ≤ key b) l →
  StronglySorted (λ a b, key a ≤ key b) k → l = k.
Proof.
  intros Hnd Hp Hl Hk.
  apply (StronglySorted_unique_strong (λ a b, key a ≤ key b)); try done.
  intros x y Hx Hy Hxy Hyx. rewrite <- Hp in Hy.
  apply list_elem_of_lookup in Hx as [i Hi].
  apply list_elem_of_lookup in Hy as [j Hj].
  assert (i = j) as ->; [|congruence].
  eapply NoDup_lookup; [exact Hnd| |]; rewrite list_lookup_fmap.
  - by rewrite Hi.
  - rewrite Hj. simpl. f_equal. lia.
Qed.

Lemma bytes_cmp_refl a : bytes_cmp a a = Eq.
Proof. induction a; simpl; [done|]. by rewrite Z.compare_refl. Qed.

Lemma bytes_cmp_eq a b : bytes_cmp a b = Eq → a = b.
Proof.
  revert b. induction a as [|x a IH]; intros [|y b]; simpl; try done.
  destruct (Z.compare_spec (bZ x) (bZ y)) as [E| |]; try done.
  apply bZ_inj in E as ->. by intros ->%IH.
Qed.

Lemma bytes_cmp_antisym a b : bytes_cmp b a = CompOpp (bytes_cmp a b).
Proof.
  revert b. induction a as [|x a IH]; intros [|y b]; simpl; try done.
  rewrite (Z.compare_antisym (bZ x)). destruct (bZ x ?= bZ y); simpl; auto.
Qed.

Lemma bytes_cmp_trans a b c : bytes_le a b → bytes_le b c → bytes_le a c.
Proof.
  unfold bytes_le. revert b c.
  induction a as [|x a IH]; intros [|y b] [|z c]; simpl; try done.
  destruct (Z.compare_spec (bZ x) (bZ y)), (Z.compare_spec (bZ y) (bZ z)),
    (Z.compare_spec (bZ x) (bZ z)); try done; try lia.
  eauto.
Qed.

#[global] Instance bytes_le_total : Total bytes_le.
Proof.
  intros a b. unfold bytes_le. rewrite (bytes_cmp_antisym a b).
  destruct (bytes_cmp a b); simpl; auto.
Qed.

#[global] Instance bytes_le_trans : Transitive bytes_le.
Proof. intros a b c. apply bytes_cmp_trans. Qed.

#[global] Instance bytes_le_antisymm : AntiSymm (=) bytes_le.
Proof.
  intros a b. unfold bytes_le. rewrite (bytes_cmp_antisym a b).
  destruct (bytes_cmp a b) eqn:E; simpl; try done.
  intros _ _. by apply bytes_cmp_eq.
Qed.

(** [sort_strings] is the sorted permutation of its input. *)
Lemma sort_strings_unique l k :
  l ≡ₚ k → StronglySorted bytes_le k → sort_strings l = k.
Proof.
  intros Hp Hs. unfold sort_strings.
  apply (StronglySorted_unique bytes_le).
  - apply StronglySorted_merge_sort; apply _.
  - done.
  - by rewrite merge_sort_Permutation.
Qed.

Lemma and3_intro (P Q R : Prop) : P ∧ Q → R → P ∧ Q ∧ R.
Proof. tauto. Qed.

(** Splitting an equation on the result of an operation, so that its parts can
    be evaluated separately. *)
Lemma pair_eta {A B} (r : A * B) a : r.1 = a → r = (a, r.2).
Proof. by intros <-; destruct r. Qed.

Lemma triple_eta {A B C} (r : A * B * C) a b : r.1.1 = a → r.1.2 = b → r = (a, b, r.2).
Proof. by intros <- <-; destruct r as [[??]?]. Qed.

(** Cutting a concatenation: the cut falls strictly inside the first part, or
    after it. *)
Lemma app_cut {A} (a b p q : list A) : a ++ b = p ++ q →
  (∃ k, k ≠ [] ∧ a = p ++ k) ∨ (∃ p', p = a ++ p' ∧ b = p' ++ q).
Proof.
  intros H. apply app_eq_inv in H as [(k & E1 & E2)|(k & E1 & E2)]; [|right; by exists k].
  destruct k as [|x k]; [|left; by exists (x :: k)]. right. exists [].
  rewrite app_nil_r in E1. simpl in E2. subst. by rewrite app_nil_r.
Qed.

(** Witnesses for every element of a list. *)
Lemma Forall_choice {A B} (P : A → B → Prop) (l : list A) :
  Forall (λ x, ∃ y, P x y) l → ∃ k, Forall2 P l k.
Proof.
  induction 1 as [|x l [y Hy] _ [k Hk]]; [by exists []|]. exists (y :: k). by constructor.
Qed.

(** Related lists: a key of the right one determines the element of the left. *)
Lemma Forall2_snoc {A B} (P : A → B → Prop) l k x y :
  Forall2 P (l ++ [x]) (k ++ [y]) ↔ Forall2 P l k ∧ P x y.
Proof.
  split; [|intros [HF Hxy]; apply Forall2_app; [done|by constructor]].
  intros HF. apply Forall2_app_inv in HF as [HF Hxy]; [split; [done|by inversion Hxy]|].
  apply Forall2_length in HF. rewrite !length_app in HF. simpl in HF. lia.
Qed.

Lemma Forall2_NoDup_fst {A B C} (P : A → B * C → Prop) l k :
  Forall2 P l k → NoDup l → (∀ x y c b1 b2, P x (c, b1) → P y (c, b2) → x = y) → NoDup k.*1.
Proof.
  intros HF Hnd Hinj. induction HF as [|x [c b] l k Hx HF IH]; [constructor|].
  apply NoDup_cons in Hnd as [Hxl Hnd]. apply NoDup_cons. split; [|by apply IH].
  intros ([c' b'] & E & Hin)%list_elem_of_fmap_1. simpl in E. subst c'.
  apply list_elem_of_lookup in Hin as [i Hi]. destruct (Forall2_lookup_r _ _ _ _ _ HF Hi) as (y & Hy & Hp).
  apply Hxl. rewrite (Hinj _ _ _ _ _ Hx Hp). by eapply list_elem_of_lookup_2.
Qed.
