(* ===== verification/Traces.v ===== *)
(** * Executions with observable events

    Step relations whose steps are silent or carry one event, their executions
    with the list of events observed, and the refinement of one such system by
    another: every execution of the first has an execution of the second with
    the same events. *)

From S2P Require Import Prelude.

Section traces.
Context {E : Type}.

Section exec.
Context {S : Type} (step : S → option E → S → Prop).

(** Executions and the events seen on the way. *)
Inductive exec : S → list E → S → Prop :=
  | exec_nil s : exec s [] s
  | exec_step s1 l s2 tr s3 :
      step s1 l s2 → exec s2 tr s3 → exec s1 (option_list l ++ tr) s3.

Lemma exec_one s l s' : step s l s' → exec s (option_list l) s'.
Proof. intros H. rewrite <- (app_nil_r (option_list l)). eapply exec_step; [exact H|constructor]. Qed.

Lemma exec_app s1 tr1 s2 tr2 s3 : exec s1 tr1 s2 → exec s2 tr2 s3 → exec s1 (tr1 ++ tr2) s3.
Proof.
  intros H1 H2. induction H1 as [s|s1 l s1' tr s2 Hs _ IH]; [done|].
  rewrite <- (assoc_L (++)). eapply exec_step; [exact Hs|auto].
Qed.

(** Silent steps in front of an execution. *)
Lemma exec_silent s1 s2 tr s3 : step s1 None s2 → exec s2 tr s3 → exec s1 tr s3.
Proof. intros H. apply (exec_step s1 None s2 tr s3 H). Qed.

Lemma exec_event s1 e s2 tr s3 : step s1 (Some e) s2 → exec s2 tr s3 → exec s1 (e :: tr) s3.
Proof. intros H. apply (exec_step s1 (Some e) s2 tr s3 H). Qed.

(** A property of states and of the events so far that every step keeps. *)
Lemma exec_invariant (I : list E → S → Prop) s0 tr s :
  (∀ tr s l s', I tr s → step s l s' → I (tr ++ option_list l) s') →
  I [] s0 → exec s0 tr s → I tr s.
Proof.
  intros Hstep H0 Hex. change tr with ([] ++ tr). revert H0. generalize (@nil E).
  induction Hex as [s|s1 l s2 tr s3 Hs _ IH]; intros pre H0; [by rewrite app_nil_r|].
  rewrite (assoc_L (++)). apply IH. by eapply Hstep.
Qed.

End exec.

(** More steps, more executions. *)
Lemma exec_mono {S : Type} (step step' : S → option E → S → Prop) s1 tr s2 :
  (∀ s l s', step s l s' → step' s l s') → exec step s1 tr s2 → exec step' s1 tr s2.
Proof. intros Hsub. induction 1; econstructor; eauto. Qed.

(** ** Refinement *)

Section refinement.
Context {S A : Type} (cstep : S → option E → S → Prop) (astep : A → option E → A → Prop).

(** Every step of the first system is matched by steps of the second with the
    same events. *)
Definition simulation (R : S → A → Prop) : Prop :=
  ∀ s l s' a, R s a → cstep s l s' → ∃ a', exec astep a (option_list l) a' ∧ R s' a'.

Lemma simulation_exec R s tr s' a : simulation R → R s a → exec cstep s tr s' →
  ∃ a', exec astep a tr a' ∧ R s' a'.
Proof.
  intros Hsim HR Hex. revert a HR. induction Hex as [s|s1 l s2 tr s3 Hs _ IH]; intros a HR.
  - exists a. split; [constructor|done].
  - destruct (Hsim _ _ _ _ HR Hs) as (a1 & H1 & HR1). destruct (IH a1 HR1) as (a2 & H2 & HR2).
    exists a2. split; [by eapply exec_app|done].
Qed.

End refinement.
End traces.
