(* ===== verification/GoText.v ===== *)
(** * Text functions of Go's standard library

    The parts of [unicode/utf8], [unicode], [strings] and [strconv] the
    service uses: decoding of a string into runes (as [for range] does),
    [strings.TrimSpace], [strings.Fields], [strings.ToUpper],
    [strconv.FormatInt] and [strconv.ParseInt] in base 10. *)

From S2P Require Import Prelude.

(** ** UTF-8 *)

(** [utf8.RuneError], the rune a malformed byte decodes to. *)
Definition RuneError : Z := 65533.

Definition in_range (lo hi : Z) (b : byte) : bool := (lo <=? bZ b) && (bZ b <=? hi).

Definition cont (b : byte) : Z := Z.land (bZ b) 63.

(** One iteration of [for range] over a non-empty string whose first byte is
    [b0]: the rune and the number of bytes after [b0] that belong to it. A
    malformed or truncated sequence gives [RuneError] of width one. The
    accepted ranges of the second byte are those of the table [acceptRanges]
    of [unicode/utf8]. *)
Definition decode_rune (b0 : byte) (rest : bytes) : Z * nat :=
  let x := bZ b0 in
  if x <? 128 then (x, 0%nat)
  else if in_range 194 223 b0 then
    match rest with
    | b1 :: _ =>
        if in_range 128 191 b1
        then (Z.lor (Z.shiftl (Z.land x 31) 6) (cont b1), 1%nat)
        else (RuneError, 0%nat)
    | _ => (RuneError, 0%nat)
    end
  else if in_range 224 239 b0 then
    let lo := if x =? 224 then 160 else 128 in
    let hi := if x =? 237 then 159 else 191 in
    match rest with
    | b1 :: b2 :: _ =>
        if in_range lo hi b1 && in_range 128 191 b2
        then (Z.lor (Z.shiftl (Z.land x 15) 12)
                (Z.lor (Z.shiftl (cont b1) 6) (cont b2)), 2%nat)
        else (RuneError, 0%nat)
    | _ => (RuneError, 0%nat)
    end
  else if in_range 240 244 b0 then
    let lo := if x =? 240 then 144 else 128 in
    let hi := if x =? 244 then 143 else 191 in
    match rest with
    | b1 :: b2 :: b3 :: _ =>
        if in_range lo hi b1 && in_range 128 191 b2 && in_range 128 191 b3
        then (Z.lor (Z.shiftl (Z.land x 7) 18)
                (Z.lor (Z.shiftl (cont b1) 12)
                   (Z.lor (Z.shiftl (cont b2) 6) (cont b3))), 3%nat)
        else (RuneError, 0%nat)
    | _ => (RuneError, 0%nat)
    end
  else (RuneError, 0%nat).

(** A string as the runes [for range] visits, each with its bytes. The
    counter skips the bytes that belong to the current rune. *)
Fixpoint chunks_from (cur : Z * bytes) (skip : nat) (s : bytes) : list (Z * bytes) :=
  match s with
  | [] => [cur]
  | b :: s' =>
      match skip with
      | S k => chunks_from (cur.1, cur.2 ++ [b]) k s'
      | O => let '(r, k) := decode_rune b s' in cur :: chunks_from (r, [b]) k s'
      end
  end.

Definition chunks (s : bytes) : list (Z * bytes) :=
  match s with
  | [] => []
  | b :: s' => let '(r, k) := decode_rune b s' in chunks_from (r, [b]) k s'
  end.

(** [[]rune(s)]: the runes of a string. *)
Definition runes (s : bytes) : list Z := (chunks s).*1.

(** [utf8.AppendRune]: the encoding of a rune; surrogates and out-of-range
    values are encoded as [RuneError]. *)
Definition encode_rune (r : Z) : bytes :=
  if (0 <=? r) && (r <? 128) then [Zb r]
  else if (0 <=? r) && (r <? 2048) then
    [Zb (192 + Z.shiftr r 6); Zb (128 + Z.land r 63)]
  else if (r <? 0) || (1114111 <? r) || ((55296 <=? r) && (r <=? 57343)) then
    [Zb 239; Zb 191; Zb 189]
  else if r <? 65536 then
    [Zb (224 + Z.shiftr r 12); Zb (128 + Z.land (Z.shiftr r 6) 63);
     Zb (128 + Z.land r 63)]
  else
    [Zb (240 + Z.shiftr r 18); Zb (128 + Z.land (Z.shiftr r 12) 63);
     Zb (128 + Z.land (Z.shiftr r 6) 63); Zb (128 + Z.land r 63)].

(** ** [unicode] *)

(** [unicode.IsSpace]. *)
Definition IsSpace (r : Z) : bool :=
  ((9 <=? r) && (r <=? 13)) || (r =? 32) || (r =? 133) || (r =? 160) ||
  (r =? 5760) || ((8192 <=? r) && (r <=? 8202)) || (r =? 8232) || (r =? 8233) ||
  (r =? 8239) || (r =? 8287) || (r =? 12288).

Definition ascii_upper (r : Z) : Z :=
  if (97 <=? r) && (r <=? 122) then r - 32 else r.

(** [unicode.ToUpper]. Only the part of the Unicode case table that can
    produce an ASCII rune matters to the service: besides the ASCII letters,
    U+0131 maps to [I] and U+017F maps to [S], and every other rune above
    the ASCII range stays above it. The rest of the table is a parameter. *)
Class UnicodeUpper := {
  unicode_ToUpper : Z → Z;
  unicode_ToUpper_ascii : ∀ r, 0 ≤ r < 128 → unicode_ToUpper r = ascii_upper r;
  unicode_ToUpper_0131 : unicode_ToUpper 305 = 73;
  unicode_ToUpper_017F : unicode_ToUpper 383 = 83;
  unicode_ToUpper_high : ∀ r, 128 ≤ r → r ≠ 305 → r ≠ 383 → 128 ≤ unicode_ToUpper r
}.

(** A table that changes no rune it does not have to. *)
Definition minimal_upper (r : Z) : Z :=
  if r =? 305 then 73 else if r =? 383 then 83 else ascii_upper r.

(** ** [strings] *)

Definition is_ascii (s : bytes) : bool := forallb (λ b, bZ b <? 128) s.

(** [strings.TrimSpace]. *)
Fixpoint trim_left (cs : list (Z * bytes)) : list (Z * bytes) :=
  match cs with
  | (r, _) :: cs' => if IsSpace r then trim_left cs' else cs
  | [] => []
  end.

Definition trim_right (cs : list (Z * bytes)) : list (Z * bytes) :=
  reverse (trim_left (reverse cs)).

Definition TrimSpace (s : bytes) : bytes :=
  mjoin ((trim_right (trim_left (chunks s))).*2).

(** [strings.Fields]: the maximal runs of non-space runes. *)
Fixpoint fields_go (cur : bytes) (cs : list (Z * bytes)) : list bytes :=
  match cs with
  | [] => if bool_decide (cur = []) then [] else [cur]
  | (r, bs) :: cs' =>
      if IsSpace r
      then (if bool_decide (cur = []) then [] else [cur]) ++ fields_go [] cs'
      else fields_go (cur ++ bs) cs'
  end.

Definition Fields (s : bytes) : list bytes := fields_go [] (chunks s).

(** [strings.ToUpper]: byte-wise on ASCII strings, otherwise
    [strings.Map(unicode.ToUpper, s)], which re-encodes every rune. *)
Definition ToUpper `{!UnicodeUpper} (s : bytes) : bytes :=
  if is_ascii s then (λ b, Zb (ascii_upper (bZ b))) <$> s
  else mjoin ((λ r, encode_rune (unicode_ToUpper r)) <$> runes s).

(** ** [strconv] *)

Definition digit (d : Z) : byte := Zb (48 + d).

Fixpoint format_uint (fuel : nat) (n : Z) (acc : bytes) : bytes :=
  match fuel with
  | O => acc
  | S fuel' =>
      let acc' := digit (n mod 10) :: acc in
      if n / 10 =? 0 then acc' else format_uint fuel' (n / 10) acc'
  end.

(** [strconv.FormatInt(z, 10)] for an [int64]: at most 19 digits and a sign,
    so 20 rounds of the digit loop are enough. *)
Definition FormatInt (z : Z) : bytes :=
  if z <? 0 then str "-" ++ format_uint 20 (- z) []
  else format_uint 20 z [].

Definition digit_val (b : byte) : option Z :=
  if (48 <=? bZ b) && (bZ b <=? 57) then Some (bZ b - 48) else None.

Fixpoint parse_uint (acc : Z) (s : bytes) : option Z :=
  match s with
  | [] => Some acc
  | b :: s' =>
      match digit_val b with
      | Some d => parse_uint (10 * acc + d) s'
      | None => None
      end
  end.

Definition parse_signed (neg : bool) (ds : bytes) : option Z :=
  if bool_decide (ds = []) then None
  else match parse_uint 0 ds with
       | Some n => let z := if neg then - n else n in
                   if bool_decide (in_int64 z) then Some z else None
       | None => None
       end.

(** [strconv.ParseInt(s, 10, 64)], [None] on a syntax or range error. *)
Definition ParseInt (s : bytes) : option Z :=
  match s with
  | [] => None
  | b :: s' =>
      if bZ b =? 45 then parse_signed true s'
      else if bZ b =? 43 then parse_signed false s'
      else parse_signed false s
  end.

(** ** Lemmas on decoding *)

Lemma Zlor_ge_l a b : 0 ≤ b → a ≤ Z.lor a b.
Proof.
  intros Hb.
  assert (Z.lor a b = a + Z.ldiff b a) as ->.
  { rewrite Z.add_nocarry_lxor; [rewrite Z.lxor_lor|]; apply Z.bits_inj'; intros n _;
      rewrite ?Z.lor_spec, ?Z.land_spec, ?Z.ldiff_spec, ?Z.bits_0;
      by destruct (Z.testbit a n), (Z.testbit b n). }
  pose proof (proj2 (Z.ldiff_nonneg b a)). lia.
Qed.

Lemma Zlor_ge_r a b : 0 ≤ a → b ≤ Z.lor a b.
Proof. rewrite Z.lor_comm. apply Zlor_ge_l. Qed.

Lemma shiftl_land_nonneg a b n : 0 ≤ b → 0 ≤ Z.shiftl (Z.land a b) n.
Proof. intros. apply Z.shiftl_nonneg, Z.land_nonneg. auto. Qed.

Lemma cont_nonneg b : 0 ≤ cont b.
Proof. apply Z.land_nonneg. lia. Qed.

Lemma shiftl_cont_nonneg b n : 0 ≤ Z.shiftl (cont b) n.
Proof. apply shiftl_land_nonneg. lia. Qed.

#[export] Hint Resolve shiftl_land_nonneg cont_nonneg shiftl_cont_nonneg
  Zlor_ge_l Zlor_ge_r : go.

Lemma in_range_spec lo hi b : in_range lo hi b = true ↔ lo ≤ bZ b ≤ hi.
Proof. unfold in_range. rewrite andb_true_iff, !Z.leb_le. lia. Qed.

(** Bounds on the leading bits of a multi-byte sequence. *)
Lemma lead2_ge b : in_range 194 223 b = true → 128 ≤ Z.shiftl (Z.land (bZ b) 31) 6.
Proof. destruct b; by vm_compute. Qed.

Lemma lead3_ge b : in_range 225 239 b = true → 128 ≤ Z.shiftl (Z.land (bZ b) 15) 12.
Proof. destruct b; by vm_compute. Qed.

Lemma lead4_ge b : in_range 241 244 b = true → 128 ≤ Z.shiftl (Z.land (bZ b) 7) 18.
Proof. destruct b; by vm_compute. Qed.

Lemma second3_ge b : in_range 160 191 b = true → 128 ≤ Z.shiftl (cont b) 6.
Proof. destruct b; by vm_compute. Qed.

Lemma second4_ge b : in_range 144 191 b = true → 128 ≤ Z.shiftl (cont b) 12.
Proof. destruct b; by vm_compute. Qed.

Lemma lor3_ge a b c : 0 ≤ a → 0 ≤ b → 0 ≤ c →
  a ≤ Z.lor a (Z.lor b c) ∧ b ≤ Z.lor a (Z.lor b c).
Proof.
  intros. assert (0 ≤ Z.lor b c) by (apply Z.lor_nonneg; auto).
  pose proof (Zlor_ge_l b c). pose proof (Zlor_ge_r a (Z.lor b c)).
  pose proof (Zlor_ge_l a (Z.lor b c)). lia.
Qed.

(** A rune below 128 comes from a single ASCII byte; every other rune comes
    from bytes above the ASCII range. *)
Lemma decode_rune_ascii b0 rest :
  let '(r, k) := decode_rune b0 rest in
  (bZ b0 < 128 ∧ r = bZ b0 ∧ k = 0%nat) ∨ (128 ≤ bZ b0 ∧ 128 ≤ r).
Proof.
  unfold decode_rune. destruct (bZ b0 <? 128) eqn:E0; zbool; [by left|].
  destruct (in_range 194 223 b0) eqn:E1.
  { destruct rest as [|b1 rest]; [right; by vm_compute|].
    destruct (in_range 128 191 b1); right; (split; [done|]); [|by vm_compute].
    pose proof (lead2_ge b0 E1).
    pose proof (Zlor_ge_l (Z.shiftl (Z.land (bZ b0) 31) 6) (cont b1) (cont_nonneg b1)). lia. }
  destruct (in_range 224 239 b0) eqn:E2.
  { destruct rest as [|b1 [|b2 rest]]; try (right; by vm_compute).
    destruct (in_range _ _ b1 && in_range 128 191 b2) eqn:E3; right; (split; [done|]);
      [|by vm_compute].
    apply andb_true_iff in E3 as [E3 _].
    destruct (lor3_ge (Z.shiftl (Z.land (bZ b0) 15) 12) (Z.shiftl (cont b1) 6) (cont b2));
      auto with go; [by apply shiftl_land_nonneg|].
    destruct (bZ b0 =? 224) eqn:E4; zbool.
    - pose proof (second3_ge b1). apply in_range_spec in E3.
      rewrite in_range_spec in *. destruct (bZ b0 =? 237); lia.
    - pose proof (lead3_ge b0) as H3. rewrite in_range_spec in *. lia. }
  destruct (in_range 240 244 b0) eqn:E3; [|right; by vm_compute].
  destruct rest as [|b1 [|b2 [|b3 rest]]]; try (right; by vm_compute).
  destruct (in_range _ _ b1 && in_range 128 191 b2 && in_range 128 191 b3) eqn:E4;
    right; (split; [done|]); [|by vm_compute].
  apply andb_true_iff in E4 as [[E4 _]%andb_true_iff _].
  destruct (lor3_ge (Z.shiftl (Z.land (bZ b0) 7) 18) (Z.shiftl (cont b1) 12)
              (Z.lor (Z.shiftl (cont b2) 6) (cont b3))); auto with go.
  { by apply shiftl_land_nonneg. }
  { apply Z.lor_nonneg; auto with go. }
  destruct (bZ b0 =? 240) eqn:E5; zbool.
  - pose proof (second4_ge b1). rewrite !in_range_spec in *. destruct (bZ b0 =? 244); lia.
  - pose proof (lead4_ge b0) as H4. rewrite !in_range_spec in *. lia.
Qed.

Lemma chunks_from_eq s : ∀ r acc k,
  chunks_from (r, acc) k s = (r, acc ++ take k s) :: chunks (drop k s).
Proof.
  induction s as [|b s IH]; intros r acc k; simpl.
  - by rewrite take_nil, drop_nil, app_nil_r.
  - destruct k as [|k]; simpl.
    + rewrite app_nil_r. by destruct (decode_rune b s).
    + rewrite IH. by rewrite <- app_assoc.
Qed.

Lemma chunks_cons b s r k : decode_rune b s = (r, k) →
  chunks (b :: s) = (r, b :: take k s) :: chunks (drop k s).
Proof. intros E. simpl. rewrite E. apply chunks_from_eq. Qed.

(** Induction over the runes of a string. *)
Lemma chunks_ind (P : bytes → Prop) :
  P [] → (∀ b s r k, decode_rune b s = (r, k) → P (drop k s) → P (b :: s)) →
  ∀ s, P s.
Proof.
  intros Hnil Hcons s. induction (Nat.lt_wf_0_projected (@length byte) s) as [s _ IH].
  destruct s as [|b s]; [done|]. destruct (decode_rune b s) as [r k] eqn:E.
  eapply Hcons; [exact E|]. apply IH. rewrite length_drop. simpl. lia.
Qed.

Lemma chunks_join s : mjoin (chunks s).*2 = s.
Proof.
  induction s as [|b s r k E IH] using chunks_ind; [done|].
  rewrite (chunks_cons _ _ _ _ E), fmap_cons.
  simpl. f_equal. etrans; [|apply (take_drop k)]. f_equal. exact IH.
Qed.

Lemma chunks_ascii s : is_ascii s = true → chunks s = (λ b, (bZ b, [b])) <$> s.
Proof.
  induction s as [|b s IH]; [done|]. intros [Hb Hs]%andb_true_iff.
  pose proof (decode_rune_ascii b s) as Hd.
  destruct (decode_rune b s) as [r k] eqn:E. rewrite (chunks_cons _ _ _ _ E).
  zbool. destruct Hd as [(_ & -> & ->)|]; [|lia].
  simpl. by rewrite take_0, drop_0, IH.
Qed.

Lemma runes_ascii s : is_ascii s = true → runes s = bZ <$> s.
Proof. intros H. unfold runes. rewrite (chunks_ascii _ H), <- list_fmap_compose. done. Qed.

(** A string all of whose runes are below 128 is an ASCII string. *)
Lemma runes_low_ascii s : Forall (λ r, r < 128) (runes s) → is_ascii s = true.
Proof.
  unfold runes. induction s as [|b s r k E IH] using chunks_ind; [done|].
  rewrite (chunks_cons _ _ _ _ E), fmap_cons. simpl.
  intros [Hr Hs]%Forall_cons. pose proof (decode_rune_ascii b s) as Hd.
  rewrite E in Hd. destruct Hd as [(Hb & _ & ->)|]; [|lia].
  rewrite drop_0 in *. rewrite IH by done. by apply Z.ltb_lt in Hb as ->.
Qed.

(** Cutting a string at a rune boundary keeps the runes before the cut. *)
Lemma decode_rune_prefix b p q :
  ((decode_rune b (p ++ q)).2 ≤ length p)%nat → decode_rune b (p ++ q) = decode_rune b p.
Proof.
  unfold decode_rune.
  destruct p as [|b1 [|b2 [|b3 p]]], q as [|c1 [|c2 [|c3 q]]]; simpl;
    repeat (case_match; simpl; try done; try lia).
Qed.

Lemma chunks_prefix cs1 : ∀ s cs2,
  chunks s = cs1 ++ cs2 → chunks (mjoin cs1.*2) = cs1.
Proof.
  induction cs1 as [|[r bs] cs1 IH]; intros s cs2 Hs; [done|].
  destruct s as [|b s]; [done|]. destruct (decode_rune b s) as [r' k] eqn:E.
  rewrite (chunks_cons _ _ _ _ E) in Hs. simpl in Hs.
  injection Hs as <- <- Hs. pose proof (chunks_join (drop k s)) as Hj.
  pose proof (IH _ _ Hs) as IHs.
  rewrite Hs, fmap_app, join_app in Hj.
  change (mjoin ((r', b :: take k s) :: cs1).*2) with
    (b :: take k s ++ mjoin cs1.*2).
  set (p := take k s ++ mjoin cs1.*2).
  assert (s = p ++ mjoin cs2.*2) as Hsp.
  { unfold p. rewrite <- app_assoc, Hj. by rewrite take_drop. }
  assert (k ≤ length s)%nat as Hk.
  { clear -E. unfold decode_rune in E. repeat case_match; simplify_eq/=; lia. }
  assert (decode_rune b p = (r', k)) as E'.
  { rewrite <- E, Hsp. symmetry. apply decode_rune_prefix. rewrite <- Hsp, E. simpl.
    unfold p. rewrite length_app, length_take. lia. }
  rewrite (chunks_cons _ _ _ _ E'). unfold p.
  rewrite take_app_length', drop_app_length' by (rewrite length_take; lia).
  by rewrite IHs.
Qed.

Lemma chunks_suffix cs1 : ∀ s cs2,
  chunks s = cs1 ++ cs2 → chunks (mjoin cs2.*2) = cs2.
Proof.
  induction cs1 as [|[r bs] cs1 IH]; intros s cs2 Hs.
  - simpl in Hs. by rewrite <- Hs, chunks_join.
  - destruct s as [|b s]; [done|]. destruct (decode_rune b s) as [r' k] eqn:E.
    rewrite (chunks_cons _ _ _ _ E) in Hs. injection Hs as _ _ Hs. eauto.
Qed.

(** ** Lemmas on [strings] *)

Abbreviation spaces cs := (Forall (λ c : Z * bytes, IsSpace c.1 = true) cs).

Lemma trim_left_split cs : ∃ pre, cs = pre ++ trim_left cs ∧ spaces pre.
Proof.
  induction cs as [|[r bs] cs (pre & E & Hpre)]; simpl; [by exists []|].
  destruct (IsSpace r) eqn:Hr.
  - exists ((r, bs) :: pre). simpl. rewrite <- E. auto.
  - by exists [].
Qed.

Lemma trim_right_split cs : ∃ post, cs = trim_right cs ++ post ∧ spaces post.
Proof.
  unfold trim_right. destruct (trim_left_split (reverse cs)) as (pre & E & Hpre).
  exists (reverse pre). split; [|by rewrite Forall_reverse].
  rewrite <- reverse_app, <- E. by rewrite reverse_involutive.
Qed.

Lemma chunks_TrimSpace s : chunks (TrimSpace s) = trim_right (trim_left (chunks s)).
Proof.
  unfold TrimSpace.
  destruct (trim_left_split (chunks s)) as (pre & E1 & _).
  destruct (trim_right_split (trim_left (chunks s))) as (post & E2 & _).
  apply chunks_suffix in E1. rewrite E2 in E1 at 2.
  by apply chunks_prefix in E1.
Qed.

Lemma fields_go_spaces cs : spaces cs →
  ∀ cur, fields_go cur cs = if bool_decide (cur = []) then [] else [cur].
Proof.
  induction 1 as [|[r bs] cs Hr Hcs IH]; intros cur; simpl in *; [done|].
  rewrite Hr, IH. by rewrite app_nil_r.
Qed.

Lemma fields_go_pre pre cs : spaces pre → fields_go [] (pre ++ cs) = fields_go [] cs.
Proof. induction 1 as [|[r bs] l Hr Hl IH]; simpl in *; [done|]. by rewrite Hr, IH. Qed.

Lemma fields_go_post post cs : spaces post →
  ∀ cur, fields_go cur (cs ++ post) = fields_go cur cs.
Proof.
  intros Hp. induction cs as [|[r bs] cs IH]; intros cur; simpl.
  - by apply fields_go_spaces.
  - by rewrite !IH.
Qed.

(** Trimming before splitting changes nothing. *)
Lemma Fields_TrimSpace s : Fields (TrimSpace s) = Fields s.
Proof.
  unfold Fields. rewrite chunks_TrimSpace.
  destruct (trim_left_split (chunks s)) as (pre & E1 & Hpre).
  destruct (trim_right_split (trim_left (chunks s))) as (post & E2 & Hpost).
  rewrite <- (fields_go_post post), <- E2 by done.
  by rewrite <- (fields_go_pre pre), <- E1 by done.
Qed.

Lemma fields_go_nonempty cs : ∀ cur, Forall (λ t, t ≠ []) (fields_go cur cs).
Proof.
  induction cs as [|[r bs] cs IH]; intros cur; simpl.
  - case_bool_decide; auto.
  - destruct (IsSpace r); [|done]. apply Forall_app. split; [|done].
    case_bool_decide; auto.
Qed.

(** The fields of a string are no longer than the string. *)
Lemma fields_go_length cs : ∀ cur, zlen (mjoin (fields_go cur cs)) ≤ zlen cur + zlen (mjoin cs.*2).
Proof.
  assert (∀ cur : bytes, zlen (mjoin (if bool_decide (cur = []) then [] else [cur])) ≤ zlen cur) as Hlast.
  { intros cur. case_bool_decide; simpl; rewrite ?app_nil_r; [apply zlen_nonneg|done]. }
  induction cs as [|[r bs] cs IH]; intros cur; cbn [fields_go].
  - change (zlen (mjoin (@nil (Z * bytes)).*2)) with 0. pose proof (Hlast cur). lia.
  - rewrite fmap_cons. change (mjoin ((r, bs).2 :: cs.*2)) with (bs ++ mjoin cs.*2). rewrite zlen_app.
    pose proof (zlen_nonneg bs). destruct (IsSpace r).
    + rewrite join_app, zlen_app. pose proof (Hlast cur). pose proof (IH []) as Hi. rewrite (zlen_nil (A:=byte)) in Hi. lia.
    + pose proof (IH (cur ++ bs)) as Hi. rewrite zlen_app in Hi. lia.
Qed.

Lemma Fields_length s : zlen (mjoin (Fields s)) ≤ zlen s.
Proof. pose proof (fields_go_length (chunks s) []) as H. by rewrite (zlen_nil (A:=byte)), chunks_join in H. Qed.

Lemma Fields_nonempty s : Forall (λ t, t ≠ []) (Fields s).
Proof. apply fields_go_nonempty. Qed.

(** [strings.Join(tokens, " ")]. *)
Fixpoint join_sp (ts : list bytes) : bytes :=
  match ts with
  | [] => []
  | [t] => t
  | t :: ts' => t ++ str " " ++ join_sp ts'
  end.

(** A token: non-empty, ASCII, without white space. *)
Definition token (t : bytes) : Prop :=
  t ≠ [] ∧ Forall (λ b, bZ b < 128 ∧ IsSpace (bZ b) = false) t.

Lemma token_ascii t : token t → is_ascii t = true.
Proof.
  intros [_ H]. unfold is_ascii. apply Is_true_true, forallb_True. eapply Forall_impl; [exact H|].
  simpl. intros b [Hb _]. by apply Is_true_true, Z.ltb_lt.
Qed.

Lemma is_ascii_app s t : is_ascii (s ++ t) = is_ascii s && is_ascii t.
Proof. apply forallb_app. Qed.

Lemma join_sp_ascii ts : Forall token ts → is_ascii (join_sp ts) = true.
Proof.
  induction 1 as [|t ts Ht Hts IH]; [done|]. pose proof (token_ascii t Ht) as Ha.
  destruct ts as [|t' ts]; [done|].
  change (join_sp (t :: t' :: ts)) with (t ++ str " " ++ join_sp (t' :: ts)).
  by rewrite !is_ascii_app, Ha, IH.
Qed.

Lemma fields_go_token t cs cur :
  Forall (λ b, bZ b < 128 ∧ IsSpace (bZ b) = false) t →
  fields_go cur (((λ b, (bZ b, [b])) <$> t) ++ cs) = fields_go (cur ++ t) cs.
Proof.
  intros H. revert cur. induction H as [|b t [_ Hb] Ht IH]; intros cur; simpl.
  - by rewrite app_nil_r.
  - rewrite Hb, IH. by rewrite <- app_assoc.
Qed.

(** Splitting a line of tokens separated by single blanks gives them back. *)
Lemma Fields_join_sp ts : Forall token ts → Fields (join_sp ts) = ts.
Proof.
  intros H. unfold Fields. rewrite chunks_ascii by by apply join_sp_ascii.
  induction H as [|t ts [Hne Ht] Hts IH]; [done|]. destruct ts as [|t' ts].
  - simpl join_sp. rewrite <- (app_nil_r (_ <$> t)), fields_go_token by done.
    simpl. by rewrite bool_decide_eq_false_2.
  - change (join_sp (t :: t' :: ts)) with (t ++ str " " ++ join_sp (t' :: ts)).
    rewrite !fmap_app, fields_go_token by done.
    change (fields_go ([] ++ t) (((λ b, (bZ b, [b])) <$> str " ") ++
      ((λ b, (bZ b, [b])) <$> join_sp (t' :: ts)))) with
      ((if bool_decide (t = []) then [] else [t]) ++
       fields_go [] ((λ b, (bZ b, [b])) <$> join_sp (t' :: ts))).
    rewrite IH. by rewrite bool_decide_eq_false_2.
Qed.

(** ** Lemmas on [strings.ToUpper] *)

#[global] Program Instance minimal_unicode_upper : UnicodeUpper :=
  {| unicode_ToUpper := minimal_upper |}.
Next Obligation.
  intros r Hr. unfold minimal_upper.
  destruct (r =? 305) eqn:E; zbool; [lia|].
  destruct (r =? 383) eqn:E'; zbool; [lia|done].
Qed.
Next Obligation. done. Qed.
Next Obligation. done. Qed.
Next Obligation.
  intros r Hr H1 H2. unfold minimal_upper, ascii_upper. go_cases; zbool; lia.
Qed.

Lemma runes_nonneg s : Forall (λ r, 0 ≤ r) (runes s).
Proof.
  unfold runes. induction s as [|b s r k E IH] using chunks_ind; [constructor|].
  rewrite (chunks_cons _ _ _ _ E), fmap_cons. constructor; [|done].
  pose proof (decode_rune_ascii b s) as Hd. rewrite E in Hd.
  pose proof (bZ_range b). simpl. lia.
Qed.

Lemma encode_rune_low r : 0 ≤ r < 128 → encode_rune r = [Zb r].
Proof.
  intros [H1 H2]. unfold encode_rune.
  by apply Z.leb_le in H1 as ->; apply Z.ltb_lt in H2 as ->.
Qed.

Lemma encode_rune_high r : 128 ≤ r → is_ascii (encode_rune r) = false.
Proof.
  intros H. unfold encode_rune. destruct (r <? 128) eqn:E; zbool; [lia|].
  rewrite andb_false_r.
  assert (∀ z l, 128 ≤ z < 256 → is_ascii (Zb z :: l) = false) as Hb.
  { intros z l Hz. simpl. rewrite bZ_Zb_small by lia.
    destruct (z <? 128) eqn:E'; zbool; [lia|done]. }
  repeat case_match; zbool; apply Hb; rewrite ?Z.shiftr_div_pow2 by lia.
  - pose proof (Z.div_pos r (2 ^ 6)). pose proof (Z.div_lt_upper_bound r (2 ^ 6) 32). lia.
  - lia.
  - pose proof (Z.div_pos r (2 ^ 12)). pose proof (Z.div_lt_upper_bound r (2 ^ 12) 16). lia.
  - pose proof (Z.div_pos r (2 ^ 18)). pose proof (Z.div_lt_upper_bound r (2 ^ 18) 5). lia.
Qed.

Lemma ascii_upper_range r : 0 ≤ r < 128 → 0 ≤ ascii_upper r < 128.
Proof. unfold ascii_upper. intros. go_cases; zbool; lia. Qed.

Lemma is_ascii_Forall s : is_ascii s = true ↔ Forall (λ b, bZ b < 128) s.
Proof.
  unfold is_ascii. rewrite <- Is_true_true, forallb_True.
  split; intros H; (eapply Forall_impl; [exact H|]); simpl; intros b;
    by rewrite Is_true_true, Z.ltb_lt.
Qed.

(** When upper-casing gives an ASCII string, it worked rune by rune and every
    rune was mapped below 128. *)
Lemma ToUpper_ascii_inv `{!UnicodeUpper} s : is_ascii (ToUpper s) = true →
  ToUpper s = (λ r, Zb (unicode_ToUpper r)) <$> runes s ∧
  Forall (λ r, 0 ≤ unicode_ToUpper r < 128) (runes s).
Proof.
  unfold ToUpper. destruct (is_ascii s) eqn:Hs.
  - intros _. pose proof (proj1 (is_ascii_Forall s) Hs) as Hf.
    rewrite (runes_ascii s Hs), Forall_fmap, <- list_fmap_compose.
    assert (∀ b, bZ b < 128 → unicode_ToUpper (bZ b) = ascii_upper (bZ b)) as Hup.
    { intros b Hb. apply unicode_ToUpper_ascii. pose proof (bZ_range b). lia. }
    split.
    + apply list_fmap_ext. intros i b Hi.
      rewrite Forall_lookup in Hf. simpl. by rewrite Hup by eauto.
    + eapply Forall_impl; [exact Hf|]. simpl. intros b Hb.
      rewrite Hup by done. apply ascii_upper_range. pose proof (bZ_range b). lia.
  - generalize (runes_nonneg s). generalize (runes s).
    induction 1 as [|r rs Hr Hrs IH]; [done|].
    rewrite fmap_cons. change (mjoin (?x :: ?l)) with (x ++ mjoin l).
    rewrite is_ascii_app. intros [H1 H2]%andb_true_iff.
    destruct (IH H2) as [E Hf].
    assert (0 ≤ unicode_ToUpper r < 128) as Hlow.
    { destruct (decide (128 ≤ unicode_ToUpper r)) as [Hh|Hh].
      { by rewrite encode_rune_high in H1. }
      split; [|lia]. destruct (decide (r < 128)).
      - rewrite unicode_ToUpper_ascii by lia. apply ascii_upper_range. lia.
      - destruct (decide (r = 305)) as [->|]; [rewrite unicode_ToUpper_0131; lia|].
        destruct (decide (r = 383)) as [->|]; [rewrite unicode_ToUpper_017F; lia|].
        pose proof (unicode_ToUpper_high r). lia. }
    rewrite encode_rune_low, E by done. auto.
Qed.

(** ** Lemmas on [strconv] *)

Fixpoint fixdigits (k : nat) (n : Z) : bytes :=
  match k with
  | O => []
  | S k' => fixdigits k' (n / 10) ++ [digit (n mod 10)]
  end.

Lemma length_fixdigits k n : length (fixdigits k n) = k.
Proof. revert n. induction k; intros n; simpl; [done|]. rewrite length_app, IHk. simpl. lia. Qed.

Lemma format_uint_fixdigits fuel : ∀ n acc, 0 ≤ n < 10 ^ Z.of_nat fuel →
  (0 < fuel)%nat →
  ∃ k, (0 < k ≤ fuel)%nat ∧ n < 10 ^ Z.of_nat k ∧ (k = 1%nat ∨ 10 ^ Z.of_nat (pred k) ≤ n) ∧
    format_uint fuel n acc = fixdigits k n ++ acc.
Proof.
  induction fuel as [|fuel IH]; intros n acc Hn Hf; [lia|].
  rewrite Nat2Z.inj_succ, Z.pow_succ_r in Hn by lia. cbn [format_uint].
  pose proof (Z.div_mod n 10 ltac:(lia)) as Hdm.
  pose proof (Z.mod_pos_bound n 10 ltac:(lia)) as Hm.
  destruct (n / 10 =? 0) eqn:E; zbool.
  - exists 1%nat. simpl. repeat split; try lia; auto.
  - destruct (IH (n / 10) (digit (n mod 10) :: acc)) as (k & Hk & Hlt & Hge & ->).
    { split; [lia|]. apply Z.div_lt_upper_bound; lia. }
    { destruct fuel; [|lia]. simpl in Hn. exfalso. apply E, Z.div_small. lia. }
    exists (S k). rewrite Nat2Z.inj_succ, Z.pow_succ_r by lia. simpl.
    rewrite <- app_assoc. split; [lia|]. split; [lia|]. split; [right|done].
    destruct Hge as [->|Hge]; [lia|].
    replace (Z.of_nat k) with (Z.succ (Z.of_nat (pred k))) by lia.
    rewrite Z.pow_succ_r by lia. lia.
Qed.

Lemma digit_val_digit d : 0 ≤ d < 10 → digit_val (digit d) = Some d.
Proof.
  intros Hd. unfold digit_val, digit. rewrite bZ_Zb_small by lia.
  destruct (48 <=? 48 + d) eqn:E1, (48 + d <=? 57) eqn:E2; zbool; try lia.
  simpl. f_equal. lia.
Qed.

Lemma parse_uint_fixdigits k : ∀ n acc s, 0 ≤ n < 10 ^ Z.of_nat k →
  parse_uint acc (fixdigits k n ++ s) = parse_uint (acc * 10 ^ Z.of_nat k + n) s.
Proof.
  induction k as [|k IH]; intros n acc s Hn.
  - simpl in *. f_equal. lia.
  - rewrite Nat2Z.inj_succ, Z.pow_succ_r in * by lia. simpl fixdigits.
    pose proof (Z.mod_pos_bound n 10 ltac:(lia)) as Hm.
    pose proof (Z.div_mod n 10 ltac:(lia)) as Hdm.
    rewrite <- app_assoc, IH; [|split; [apply Z.div_pos; lia|]; apply Z.div_lt_upper_bound; lia].
    simpl. rewrite digit_val_digit by done. f_equal. lia.
Qed.

Lemma FormatInt_nonneg z : 0 ≤ z < 2 ^ 64 →
  ∃ k, (0 < k)%nat ∧ z < 10 ^ Z.of_nat k ∧ FormatInt z = fixdigits k z.
Proof.
  intros Hz. unfold FormatInt. destruct (z <? 0) eqn:E; zbool; [lia|].
  destruct (format_uint_fixdigits 20 z []) as (k & ? & ? & _ & ->); [lia|lia|].
  exists k. rewrite app_nil_r. repeat split; try done; lia.
Qed.

Lemma fixdigits_head k n : (0 < k)%nat →
  ∃ b l, fixdigits k n = b :: l ∧ 48 ≤ bZ b < 58.
Proof.
  revert n. induction k as [|k IH]; intros n Hk; [lia|]. simpl.
  pose proof (Z.mod_pos_bound n 10 ltac:(lia)) as Hm.
  destruct k as [|k].
  - eexists _, []. simpl. split; [done|]. unfold digit. rewrite bZ_Zb_small; lia.
  - destruct (IH (n / 10)) as (b & l & -> & Hb); [lia|]. eauto.
Qed.

Lemma parse_signed_fixdigits neg k n : (0 < k)%nat → 0 ≤ n < 10 ^ Z.of_nat k →
  in_int64 (if neg : bool then - n else n) →
  parse_signed neg (fixdigits k n) = Some (if neg then - n else n).
Proof.
  intros Hk Hn Hin. destruct (fixdigits_head k n Hk) as (b & l & Ebl & _).
  unfold parse_signed. rewrite bool_decide_eq_false_2 by (rewrite Ebl; done).
  rewrite <- (app_nil_r (fixdigits _ _)), parse_uint_fixdigits by lia. simpl.
  by rewrite bool_decide_eq_true_2.
Qed.

(** [ParseInt] inverts [FormatInt] on every [int64]. *)
Lemma ParseInt_FormatInt z : in_int64 z → ParseInt (FormatInt z) = Some z.
Proof.
  intros Hz. destruct (decide (z < 0)) as [Hneg|Hpos].
  - unfold FormatInt. destruct (z <? 0) eqn:E; zbool; [|lia].
    destruct (format_uint_fixdigits 20 (- z) []) as (k & Hk & Hlt & _ & ->);
      [unfold in_int64 in Hz; lia|lia|].
    rewrite app_nil_r.
    change (ParseInt (str "-" ++ ?x)) with (parse_signed true x).
    rewrite parse_signed_fixdigits; rewrite ?Z.opp_involutive; try done; lia.
  - destruct (FormatInt_nonneg z) as (k & Hk & Hlt & ->); [unfold in_int64 in Hz; lia|].
    destruct (fixdigits_head k z Hk) as (b & l & Ebl & Hb).
    rewrite <- (parse_signed_fixdigits false k z) by (done || lia). rewrite Ebl.
    unfold ParseInt.
    destruct (bZ b =? 45) eqn:E1; zbool; [lia|].
    destruct (bZ b =? 43) eqn:E2; zbool; [lia|done].
Qed.

(** Decimal numerals of the same length are ordered like their values. *)
Lemma bytes_cmp_snoc s : ∀ t a b, length s = length t →
  bytes_cmp (s ++ [a]) (t ++ [b]) =
    match bytes_cmp s t with Eq => bZ a ?= bZ b | c => c end.
Proof.
  induction s as [|x s IH]; intros [|y t] a b Hlen; simplify_eq/=.
  - by destruct (bZ a ?= bZ b).
  - rewrite IH by done. by destruct (bZ x ?= bZ y).
Qed.

Lemma fixdigits_cmp k : ∀ m n, 0 ≤ m < 10 ^ Z.of_nat k → 0 ≤ n < 10 ^ Z.of_nat k →
  bytes_cmp (fixdigits k m) (fixdigits k n) = (m ?= n).
Proof.
  induction k as [|k IH]; intros m n Hm Hn; simpl.
  - simpl in *. assert (m = n) as -> by lia. by rewrite Z.compare_refl.
  - rewrite Nat2Z.inj_succ, Z.pow_succ_r in * by lia.
    pose proof (Z.mod_pos_bound m 10 ltac:(lia)). pose proof (Z.div_mod m 10 ltac:(lia)).
    pose proof (Z.mod_pos_bound n 10 ltac:(lia)). pose proof (Z.div_mod n 10 ltac:(lia)).
    rewrite bytes_cmp_snoc by (rewrite !length_fixdigits; done).
    rewrite IH by (split; [apply Z.div_pos; lia|apply Z.div_lt_upper_bound; lia]).
    unfold digit. rewrite !bZ_Zb_small by lia.
    destruct (Z.compare_spec (m / 10) (n / 10)), (Z.compare_spec m n),
      (Z.compare_spec (48 + m mod 10) (48 + n mod 10)); try done; exfalso; lia.
Qed.

(** Every instant between September 2001 and April 2262 has a 19-digit
    nanosecond count. *)
Lemma FormatInt_19 z : 10 ^ 18 ≤ z < 2 ^ 63 → FormatInt z = fixdigits 19 z.
Proof.
  intros Hz. unfold FormatInt. destruct (z <? 0) eqn:E; zbool; [lia|].
  destruct (format_uint_fixdigits 20 z []) as (k & Hk & Hlt & Hge & ->); [lia|lia|].
  rewrite app_nil_r. replace k with 19%nat; [done|].
  destruct (decide (k ≤ 18)%nat) as [H18|H18].
  - assert (10 ^ Z.of_nat k ≤ 10 ^ 18) by (apply Z.pow_le_mono_r; lia). lia.
  - destruct Hge as [->|Hge]; [lia|]. destruct (decide (k = 20%nat)) as [->|]; [|lia].
    simpl in Hge. lia.
Qed.
