(* ===== verification/Slog.v ===== *)
(** * The log handlers

    Models [internal/lib/logger]: [slogpretty], which writes a record as a
    coloured line with its attributes as indented JSON, and [slogdiscard],
    which drops everything, behind the front end of [log/slog]. What the
    handlers use of [encoding/json], [time] and [log] is defined here; the
    colours of [github.com/fatih/color] are a parameter. The records that the
    other components give to them are in [LogRecords.v]. *)

From S2P Require Import Prelude GoText.

#[local] Set Warnings "-register-all".

(** ** Records *)

(** What [encoding/json] sees of a value: objects list their members in the
    order in which they are encoded. *)
Inductive json :=
  | JNull
  | JBool (b : bool)
  | JNumber (z : Z)
  | JString (s : bytes)
  | JArray (l : list json)
  | JObject (l : list (bytes * json)).

(** The values of attributes: [slog.String], [slog.Int64] and [slog.Any], whose
    dynamic value may have no JSON encoding (a channel, a function). *)
Inductive Value :=
  | StringValue (s : bytes)
  | Int64Value (z : Z)
  | AnyValue (j : option json).

Record Attr := { attr_key : bytes; attr_value : Value }.

(** The wall clock of a [time.Time]. *)
Record Time := { hour : Z; minute : Z; second : Z; nanosecond : Z }.

Record LogRecord := {
  rec_time : Time;
  rec_level : Z;
  rec_message : bytes;
  rec_attrs : list Attr
}.

Definition level_debug : Z := -4.
Definition level_info : Z := 0.
Definition level_warn : Z := 4.
Definition level_error : Z := 8.

Definition level_value (l : Level) : Z :=
  match l with LevelDebug => level_debug | LevelInfo => level_info end.

(** [Level.String]. *)
Definition level_string (l : Z) : bytes :=
  let name base val :=
    if val =? 0 then base else base ++ (if 0 <? val then str "+" else []) ++ FormatInt val in
  if l <? level_info then name (str "DEBUG") (l - level_debug)
  else if l <? level_warn then name (str "INFO") (l - level_info)
  else if l <? level_error then name (str "WARN") (l - level_warn)
  else name (str "ERROR") (l - level_error).

(** ** [encoding/json] *)

Definition quote_byte : byte := x22.
Definition backslash : byte := x5c.
Definition line_feed : byte := x0a.

Definition hex_digit (d : Z) : byte := if d <? 10 then Zb (48 + d) else Zb (87 + d).

(** ASCII characters that stand for themselves in a string: not the controls,
    the quote, the backslash, and the characters special in HTML. *)
Definition html_safe (b : byte) : bool :=
  (32 <=? bZ b) && (bZ b <? 128) && negb (bool_decide (b = quote_byte)) && negb (bool_decide (b = backslash)) &&
  negb (bool_decide (b = x3c)) && negb (bool_decide (b = x3e)) && negb (bool_decide (b = x26)).

Definition escape_ascii (b : byte) : bytes :=
  if html_safe b then [b]
  else if bool_decide (b = backslash) || bool_decide (b = quote_byte) then [backslash; b]
  else if bool_decide (b = x08) then str "\b"
  else if bool_decide (b = x0c) then str "\f"
  else if bool_decide (b = x0a) then str "\n"
  else if bool_decide (b = x0d) then str "\r"
  else if bool_decide (b = x09) then str "\t"
  else str "\u00" ++ [hex_digit (bZ b / 16); hex_digit (bZ b mod 16)].

(** One rune with its bytes. *)
Definition escape_chunk (c : Z * bytes) : bytes :=
  match c.2 with
  | [b] => if bZ b <? 128 then escape_ascii b else str "\ufffd"
  | _ => if (c.1 =? 8232) || (c.1 =? 8233) then str "\u202" ++ [hex_digit (Z.land c.1 15)] else c.2
  end.

(** A string literal. *)
Definition json_string (s : bytes) : bytes :=
  quote_byte :: mjoin (escape_chunk <$> chunks s) ++ [quote_byte].

Definition indentation (d : nat) : bytes := line_feed :: mjoin (replicate d (str "  ")).

Fixpoint separated (l : list bytes) : bytes :=
  match l with
  | [] => []
  | [x] => x
  | x :: l' => x ++ str "," ++ separated l'
  end.

(** A bracketed sequence at depth [d], each item on a line of its own. *)
Definition bracketed (opening closing : byte) (d : nat) (items : list bytes) : bytes :=
  match items with
  | [] => [opening; closing]
  | _ => opening :: separated ((λ x, indentation (S d) ++ x) <$> items) ++ indentation d ++ [closing]
  end.

(** [json.MarshalIndent] with no prefix and two spaces, at depth [d]. *)
Fixpoint marshal_indent (d : nat) (j : json) : bytes :=
  match j with
  | JNull => str "null"
  | JBool b => if b then str "true" else str "false"
  | JNumber z => FormatInt z
  | JString s => json_string s
  | JArray l => bracketed x5b x5d d (marshal_indent (S d) <$> l)
  | JObject l =>
      bracketed x7b x7d d ((λ '(k, v), json_string k ++ str ": " ++ marshal_indent (S d) v) <$> l)
  end.

Definition value_json (v : Value) : option json :=
  match v with
  | StringValue s => Some (JString s)
  | Int64Value z => Some (JNumber z)
  | AnyValue j => j
  end.

(** The members of a [map[string]any], sorted by key, or nothing when one of
    them has no encoding. *)
Definition map_json (fields : gmap bytes Value) : option json :=
  JObject <$> mapM (λ k, v ← fields !! k ≫= value_json; Some (k, v)) (sort_strings (map_to_list fields).*1).

(** ** [time.Time.Format] *)

(** The elements of layouts that occur in the source. *)
Inductive layout_item :=
  | StdHour              (** 15 *)
  | StdZeroMinute        (** 04 *)
  | StdZeroSecond        (** 05 *)
  | StdFracSecond0 (n : nat)   (** a point and [n] zeros *)
  | Verbatim (b : byte).

Fixpoint zeros (s : bytes) : nat * bytes :=
  match s with
  | x30 :: s' => let '(n, rest) := zeros s' in (S n, rest)
  | _ => (O, s)
  end.

Definition starts_with_digit (s : bytes) : bool :=
  match s with b :: _ => bool_decide (is_Some (digit_val b)) | [] => false end.

(** The items of a layout; every round takes at least one byte. *)
Fixpoint layout_items (fuel : nat) (s : bytes) : list layout_item :=
  match fuel with
  | O => []
  | S fuel' =>
      match s with
      | [] => []
      | x31 :: x35 :: s' => StdHour :: layout_items fuel' s'
      | x30 :: x34 :: s' => StdZeroMinute :: layout_items fuel' s'
      | x30 :: x35 :: s' => StdZeroSecond :: layout_items fuel' s'
      | x2e :: s' =>
          let '(n, rest) := zeros s' in
          if bool_decide (n ≠ O) && negb (starts_with_digit rest)
          then StdFracSecond0 n :: layout_items fuel' rest
          else Verbatim x2e :: layout_items fuel' s'
      | b :: s' => Verbatim b :: layout_items fuel' s'
      end
  end.

Definition format_item (t : Time) (i : layout_item) : bytes :=
  match i with
  | StdHour => fixdigits 2 (hour t)
  | StdZeroMinute => fixdigits 2 (minute t)
  | StdZeroSecond => fixdigits 2 (second t)
  | StdFracSecond0 n => str "." ++ take n (fixdigits 9 (nanosecond t))
  | Verbatim b => [b]
  end.

Definition Format (layout : bytes) (t : Time) : bytes :=
  mjoin (format_item t <$> layout_items (length layout) layout).

(** ** Handlers *)

Class Colors := {
  MagentaString : bytes → bytes;
  BlueString : bytes → bytes;
  YellowString : bytes → bytes;
  RedString : bytes → bytes;
  CyanString : bytes → bytes;
  WhiteString : bytes → bytes
}.

(** The embedded JSON handler is used for its minimum level only; its groups
    have no effect on what is written. *)
Record PrettyHandler := {
  ph_min : Z;
  ph_groups : list bytes;
  ph_attrs : list Attr
}.

(** [PrettyHandlerOptions]; without a level the JSON handler takes Info. *)
Definition NewPrettyHandler (opts : option Z) : PrettyHandler :=
  {| ph_min := default level_info opts; ph_groups := []; ph_attrs := [] |}.

Definition set_fields (attrs : list Attr) (fields : gmap bytes Value) : gmap bytes Value :=
  foldl (λ m a, <[attr_key a := attr_value a]> m) fields attrs.

Definition time_layout : bytes := str "[15:05:05.000]".

Section handlers.
Context {colors : Colors}.

Definition level_text (l : Z) : bytes :=
  let level := level_string l ++ str ":" in
  if l =? level_debug then MagentaString level
  else if l =? level_info then BlueString level
  else if l =? level_warn then YellowString level
  else if l =? level_error then RedString level
  else level.

(** [Handle]: what is written to the output; [log.Logger.Println] separates
    its operands by spaces. *)
Definition Pretty_Handle (h : PrettyHandler) (r : LogRecord) : res bytes :=
  let level := level_text (rec_level r) in
  let fields := set_fields (ph_attrs h) (set_fields (rec_attrs r) ∅) in
  let? b :=
    if bool_decide (fields = ∅) then Ok []
    else match map_json fields with
         | Some j => Ok (marshal_indent 0 j)
         | None => Err (EText (str "slogpretty: marshal fields"))
         end in
  let timeStr := Format time_layout (rec_time r) in
  let msg := CyanString (rec_message r) in
  Ok (timeStr ++ str " " ++ level ++ str " " ++ msg ++ str " " ++ WhiteString b ++ [line_feed]).

Definition Pretty_WithAttrs (attrs : list Attr) (h : PrettyHandler) : PrettyHandler :=
  {| ph_min := ph_min h; ph_groups := ph_groups h; ph_attrs := attrs |}.

Definition Pretty_WithGroup (name : bytes) (h : PrettyHandler) : PrettyHandler :=
  {| ph_min := ph_min h; ph_groups := ph_groups h ++ [name]; ph_attrs := [] |}.

Definition Pretty_Enabled (h : PrettyHandler) (level : Z) : bool := ph_min h <=? level.

(** [DiscardHandler] has no state. *)
Definition Discard_Handle (r : LogRecord) : res bytes := Ok [].
Definition Discard_Enabled (level : Z) : bool := false.

(** The interface [slog.Handler]. *)
Inductive Handler := Pretty (h : PrettyHandler) | Discard.

Definition Handle (h : Handler) (r : LogRecord) : res bytes :=
  match h with Pretty p => Pretty_Handle p r | Discard => Discard_Handle r end.

Definition Enabled (h : Handler) (level : Z) : bool :=
  match h with Pretty p => Pretty_Enabled p level | Discard => Discard_Enabled level end.

Definition WithAttrs (attrs : list Attr) (h : Handler) : Handler :=
  match h with Pretty p => Pretty (Pretty_WithAttrs attrs p) | Discard => Discard end.

Definition WithGroup (name : bytes) (h : Handler) : Handler :=
  match h with Pretty p => Pretty (Pretty_WithGroup name p) | Discard => Discard end.

(** The handler behind a logger of the service. *)
Definition handler_of (l : Logger) : Handler :=
  match l with
  | PrettyLogger min => Pretty (NewPrettyHandler (Some (level_value min)))
  | DiscardLogger => Discard
  end.

(** [Logger.log]: the output of one call; the handler's error is dropped. *)
Definition log_call (h : Handler) (now : Time) (level : Z) (msg : bytes) (attrs : list Attr) : bytes :=
  if Enabled h level then
    match Handle h {| rec_time := now; rec_level := level; rec_message := msg; rec_attrs := attrs |} with
    | Ok b => b
    | Err _ => []
    end
  else [].

End handlers.

(** ** Specification *)

(** The value an attribute list gives to a key: the last one wins. *)
Definition last_value (attrs : list Attr) (k : bytes) : option Value :=
  attr_value <$> last (filter (λ a, attr_key a = k) attrs).

(** ** Lemmas *)

Lemma set_fields_lookup attrs k : ∀ m, set_fields attrs m !! k = last_value attrs k ∪ m !! k.
Proof.
  induction attrs as [|a attrs IH] using rev_ind; intros m; [simpl; by destruct (m !! k)|].
  unfold set_fields, last_value in *. rewrite foldl_app, filter_app. simpl.
  destruct (decide (attr_key a = k)) as [<-|Hne].
  - rewrite lookup_insert_eq, filter_cons_True, filter_nil, last_snoc by done. simpl. by destruct (m !! attr_key a).
  - by rewrite lookup_insert_ne, filter_cons_False, filter_nil, app_nil_r by done.
Qed.

(** The bytes of a rune above the ASCII range are above it too. *)
Lemma decode_rune_high b s r k : decode_rune b s = (r, k) → 128 ≤ bZ b →
  Forall (λ b, 128 ≤ bZ b) (b :: take k s).
Proof.
  unfold decode_rune. intros E Hb. constructor; [done|]. revert E.
  repeat (case_match; intros; simplify_eq/=; try constructor);
    repeat match goal with H : _ && _ = true |- _ => apply andb_true_iff in H as [? ?] end;
    rewrite ?in_range_spec in *; repeat constructor.
  all: first [lia|repeat case_match; lia].
Qed.

(** *** Strings have no control characters *)

Definition printable (s : bytes) : Prop := Forall (λ c, 32 ≤ bZ c) s.

Lemma hex_digit_printable d : 0 ≤ d < 16 → 32 ≤ bZ (hex_digit d).
Proof. intros H. unfold hex_digit. destruct (d <? 10) eqn:E; zbool; rewrite bZ_Zb_small; lia. Qed.

Lemma escape_ascii_printable b : printable (escape_ascii b).
Proof.
  unfold escape_ascii. pose proof (bZ_range b).
  destruct (html_safe b) eqn:Hs.
  { constructor; [|done]. unfold html_safe in Hs. repeat (apply andb_true_iff in Hs as [Hs ?]). zbool. lia. }
  destruct (bool_decide (b = backslash) || bool_decide (b = quote_byte)) eqn:E.
  { apply orb_true_iff in E as [E%bool_decide_eq_true|E%bool_decide_eq_true]; subst; by apply (bool_decide_unpack _). }
  repeat (case_bool_decide; [by apply (bool_decide_unpack _)|]).
  apply Forall_app. split; [by apply (bool_decide_unpack _)|].
  repeat constructor; apply hex_digit_printable; Z.to_euclidean_division_equations; lia.
Qed.

Lemma escape_chunk_printable r bs : (∃ b, bs = [b]) ∨ Forall (λ b, 128 ≤ bZ b) bs → printable (escape_chunk (r, bs)).
Proof.
  intros H. unfold escape_chunk. cbn [fst snd].
  assert (printable (if (r =? 8232) || (r =? 8233) then str "\u202" ++ [hex_digit (Z.land r 15)] else bs) ∨ ∃ b, bs = [b]) as Hw.
  { destruct H as [H|H]; [by right|]. left. destruct (_ || _) eqn:E.
    - apply orb_true_iff in E as [E|E]; zbool; subst; by apply (bool_decide_unpack _).
    - eapply Forall_impl; [exact H|]. intros b Hb. simpl in Hb. lia. }
  destruct bs as [|b [|b' bs]]; [by destruct Hw as [?|[? [=]]]| |by destruct Hw as [?|[? [=]]]].
  destruct (bZ b <? 128); [apply escape_ascii_printable|by apply (bool_decide_unpack _)].
Qed.

Lemma chunks_bytes s : Forall (λ c, (∃ b, c.2 = [b]) ∨ Forall (λ b, 128 ≤ bZ b) c.2) (chunks s).
Proof.
  induction s as [|b s r k E IH] using chunks_ind; [constructor|].
  rewrite (chunks_cons _ _ _ _ E). constructor; [|done]. simpl.
  pose proof (decode_rune_ascii b s) as Hd. rewrite E in Hd. destruct Hd as [(_ & _ & ->)|[Hb _]].
  - left. exists b. by rewrite take_0.
  - right. by eapply decode_rune_high.
Qed.

Lemma json_string_printable s : printable (json_string s).
Proof.
  constructor; [by vm_compute|]. apply Forall_app. split; [|by apply (bool_decide_unpack _)].
  pose proof (chunks_bytes s) as H. induction H as [|[r bs] cs Hc H IH]; [constructor|]. simpl.
  apply Forall_app. split; [by apply escape_chunk_printable|done].
Qed.

(** *** The lines of the attributes are recognizable *)

(** Every line after the first starts with a space or a closing brace. *)
Fixpoint continued (s : bytes) : bool :=
  match s with
  | [] => true
  | b :: s' =>
      (if bool_decide (b = line_feed)
       then match s' with [] => false | c :: _ => bool_decide (c = x20) || bool_decide (c = x7d) end
       else true) && continued s'
  end.

Lemma continued_app a b : continued a = true → continued b = true → continued (a ++ b) = true.
Proof.
  intros Ha Hb. induction a as [|x a IH]; [done|]. cbn [continued app] in *.
  apply andb_true_iff in Ha as [Hx Ha]. rewrite (IH Ha), andb_true_r. case_bool_decide; [|done].
  by destruct a.
Qed.

Lemma printable_continued s : printable s → continued s = true.
Proof.
  induction 1 as [|b s Hb Hs IH]; [done|]. cbn [continued]. rewrite IH, andb_true_r.
  rewrite bool_decide_eq_false_2; [done|]. intros ->. by vm_compute in Hb.
Qed.

Lemma continued_indentation d : continued (indentation (S d)) = true.
Proof.
  unfold indentation. induction d as [|d IH]; [by vm_compute|].
  replace (replicate (S (S d)) (str "  ")) with (replicate (S d) (str "  ") ++ [str "  "])
    by (by rewrite <- replicate_S_end).
  rewrite join_app. apply (continued_app (line_feed :: mjoin (replicate (S d) (str "  ")))); [done|by vm_compute].
Qed.

Lemma continued_separated l : Forall (λ x, continued x = true) l → continued (separated l) = true.
Proof.
  induction 1 as [|x l Hx Hl IH]; [done|]. destruct l as [|y l]; [done|].
  apply continued_app; [done|]. by apply continued_app.
Qed.

(** The end of a bracketed sequence; at depth zero it must be a brace. *)
Lemma continued_bracketed o c d items : bZ o ≠ 10 → bZ c ≠ 10 → (c = x7d ∨ d ≠ O) →
  Forall (λ x, continued x = true) items → continued (bracketed o c d items) = true.
Proof.
  intros Ho Hc Hd HF. unfold bracketed.
  assert (∀ b, bZ b ≠ 10 → printable [b] ∨ continued [b] = true) as Hone.
  { intros b Hb. right. simpl. rewrite bool_decide_eq_false_2; [done|]. intros ->. by vm_compute in Hb. }
  assert (∀ b, bZ b ≠ 10 → continued [b] = true) as H1.
  { intros b Hb. destruct (Hone b Hb) as [H|H]; [by apply printable_continued|done]. }
  destruct items as [|x items]; [apply (continued_app [o] [c]); auto|].
  apply (continued_app [o]); [auto|]. apply continued_app.
  - apply continued_separated, Forall_fmap. eapply Forall_impl; [exact HF|]. intros y Hy.
    simpl. apply (continued_app (indentation (S d))); [apply continued_indentation|done].
  - destruct d as [|d]; [|apply continued_app; [apply continued_indentation|auto]].
    destruct Hd as [->|]; [by vm_compute|done].
Qed.

(** Induction on trees. *)
Lemma json_nested_ind (P : json → Prop) :
  P JNull → (∀ b, P (JBool b)) → (∀ z, P (JNumber z)) → (∀ s, P (JString s)) →
  (∀ l, Forall P l → P (JArray l)) → (∀ l, Forall (λ m, P m.2) l → P (JObject l)) → ∀ j, P j.
Proof.
  intros H1 H2 H3 H4 H5 H6. fix IH 1. intros [| | | |l|l]; [auto..| |].
  - apply H5. induction l; constructor; auto.
  - apply H6. induction l as [|[k j] l IHl]; constructor; [apply IH|apply IHl].
Qed.

Lemma FormatInt_printable z : printable (FormatInt z).
Proof.
  assert (∀ fuel n acc, printable acc → printable (format_uint fuel n acc)) as H.
  { induction fuel as [|fuel IH]; intros n acc Ha; [done|]. simpl.
    assert (printable (digit (n mod 10) :: acc)) as Hd.
    { constructor; [|done]. unfold digit. pose proof (Z.mod_pos_bound n 10). rewrite bZ_Zb_small; lia. }
    case_match; [done|by apply IH]. }
  unfold FormatInt. case_match; [constructor; [by vm_compute|]|]; apply H; constructor.
Qed.

Lemma marshal_continued j : ∀ d, (d ≠ O ∨ ∃ l, j = JObject l) → continued (marshal_indent d j) = true.
Proof.
  induction j as [|b|z|s|l IH|l IH] using json_nested_ind; intros d Hd; cbn [marshal_indent].
  - done.
  - by destruct b.
  - apply printable_continued, FormatInt_printable.
  - apply printable_continued, json_string_printable.
  - apply continued_bracketed; [by vm_compute..| |].
    + right. by destruct Hd as [|[? [=]]].
    + apply Forall_fmap. eapply Forall_impl; [exact IH|]. intros x Hx. apply Hx. by left.
  - apply continued_bracketed; [by vm_compute..|by left|].
    apply Forall_fmap. eapply Forall_impl; [exact IH|]. intros [k x] Hx.
    apply (continued_app (json_string k)); [apply printable_continued, json_string_printable|].
    apply continued_app; [by vm_compute|]. apply Hx. by left.
Qed.

(** *** The members of the attribute object *)

Lemma map_json_members (m : gmap bytes Value) :
  match map_json m with
  | Some j => ∃ ms, j = JObject ms ∧ StronglySorted bytes_le ms.*1 ∧ NoDup ms.*1 ∧
      ∀ k, is_Some (m !! k) ↔ ∃ v, m !! k ≫= value_json = Some v ∧ (k, v) ∈ ms
  | None => ∃ k, m !! k = Some (AnyValue None)
  end.
Proof.
  unfold map_json. set (ks := sort_strings _).
  assert (ks ≡ₚ (map_to_list m).*1) as Hks by apply merge_sort_Permutation.
  assert (∀ k, k ∈ ks ↔ is_Some (m !! k)) as Hin.
  { intros k. rewrite Hks, list_elem_of_fmap. split.
    - intros ([k' v] & -> & Hv%elem_of_map_to_list). by exists v.
    - intros [v Hv]. exists (k, v). split; [done|]. by apply elem_of_map_to_list. }
  destruct (mapM _ ks) as [ms|] eqn:E; simpl.
  - apply mapM_Some in E. exists ms.
    assert (ms.*1 = ks) as Hfst.
    { clear -E. induction E as [|k [k' v] ks ms Hk E IH]; [done|]. rewrite fmap_cons, IH.
      apply bind_Some in Hk as (v' & _ & Hk). by simplify_eq. }
    split; [done|]. rewrite Hfst. split; [apply StronglySorted_merge_sort; apply _|]. split.
    { rewrite Hks. apply NoDup_fst_map_to_list. }
    intros k. rewrite <- Hin. split.
    + intros [i Hi]%list_elem_of_lookup. destruct (Forall2_lookup_l _ _ _ _ _ E Hi) as ([k' v] & Hv & Hk).
      apply bind_Some in Hk as (v' & Hk & [= <- <-]). exists v'. split; [done|]. by eapply list_elem_of_lookup_2.
    + intros (v & _ & Hv). rewrite <- Hfst. apply list_elem_of_fmap. by exists (k, v).
  - apply mapM_None in E as (k & Hk & E)%Exists_exists. exists k.
    apply Hin in Hk as [v Hv]. rewrite Hv in E |- *. simpl in E. by destruct v as [| |[]].
Qed.

(** ** Properties *)

(** C31: what a record looks like: one line with time, coloured level and
    message, then the attributes as an object whose keys are sorted and
    distinct, with exactly the keys of the record and of the handler, each
    with its last value, those of the handler taking precedence; however keys
    and values are chosen, every further line starts with a space or a closing
    brace, so attributes cannot pass for another record. Nothing is written
    exactly when a value has no encoding. *)
Theorem pretty_record {colors : Colors} (h : PrettyHandler) (r : LogRecord) :
  let value k := last_value (ph_attrs h) k ∪ last_value (rec_attrs r) k in
  match Pretty_Handle h r with
  | Err _ => ∃ k, value k = Some (AnyValue None)
  | Ok out => ∃ ms body,
      out = Format time_layout (rec_time r) ++ str " " ++ level_text (rec_level r) ++ str " " ++
              CyanString (rec_message r) ++ str " " ++ WhiteString body ++ [line_feed] ∧
      body = (if bool_decide (ms = []) then [] else marshal_indent 0 (JObject ms)) ∧
      continued body = true ∧ StronglySorted bytes_le ms.*1 ∧ NoDup ms.*1 ∧
      ∀ k, is_Some (value k) ↔ ∃ v, value k ≫= value_json = Some v ∧ (k, v) ∈ ms
  end.
Proof.
  intros value. unfold Pretty_Handle. set (fields := set_fields _ _).
  assert (∀ k, fields !! k = value k) as Hf.
  { intros k. unfold fields, value. rewrite !set_fields_lookup, lookup_empty.
    by destruct (last_value (ph_attrs h) k), (last_value (rec_attrs r) k). }
  case_bool_decide as He; simpl.
  - exists [], []. do 3 (split; [done|]). split; [constructor|]. split; [constructor|].
    intros k. rewrite <- Hf, He, lookup_empty. split; [by intros []|intros (v & [=] & _)].
  - pose proof (map_json_members fields) as Hm. destruct (map_json fields) as [j|]; simpl.
    + destruct Hm as (ms & -> & Hs & Hn & Hk). exists ms, (marshal_indent 0 (JObject ms)).
      split; [done|]. split.
      { rewrite bool_decide_eq_false_2; [done|]. intros ->. apply He, map_empty. intros k.
        destruct (fields !! k) as [x|] eqn:E; [|done]. destruct (Hk k) as [Hk' _].
        destruct Hk' as (v & _ & Hv); [by rewrite E|]. by apply not_elem_of_nil in Hv. }
      split; [apply marshal_continued; by eauto|]. do 2 (split; [done|]).
      intros k. by rewrite <- Hf.
    + destruct Hm as [k Hk]. exists k. by rewrite <- Hf.
Qed.

(** The time of a record does not show the minute: the layout of the
    handler names the second twice, so a record looks as if it had been
    written at its hour with the second in place of the minute. *)
Theorem pretty_time_drops_minute (t : Time) (m : Z) :
  Format time_layout {| hour := hour t; minute := m; second := second t; nanosecond := nanosecond t |} =
    Format time_layout t ∧
  Format time_layout t =
    Format (str "[15:04:05.000]") {| hour := hour t; minute := second t; second := second t; nanosecond := nanosecond t |}.
Proof. done. Qed.

(** Handlers derived from another: [WithAttrs] forgets the attributes
    given before, [WithGroup] forgets all attributes and its name shows
    nowhere, and both keep the minimum level, below which nothing is written;
    the discard handler never writes. *)
Theorem derived_handlers {colors : Colors} (h : PrettyHandler) (a b : list Attr) (name : bytes) (r : LogRecord)
  (now : Time) (level : Z) (msg : bytes) :
  WithAttrs b (WithAttrs a (Pretty h)) = WithAttrs b (Pretty h) ∧
  Handle (WithGroup name (WithAttrs a (Pretty h))) r = Handle (Pretty (NewPrettyHandler None)) r ∧
  Enabled (WithAttrs a (Pretty h)) level = Enabled (Pretty h) level ∧
  Enabled (WithGroup name (Pretty h)) level = Enabled (Pretty h) level ∧
  (level < ph_min h → log_call (Pretty h) now level msg a = []) ∧
  log_call (WithAttrs a (WithGroup name Discard)) now level msg b = [].
Proof.
  repeat split. intros Hl. unfold log_call, Enabled, Pretty_Enabled. by rewrite (proj2 (Z.leb_gt _ _) Hl).
Qed.
