(* ===== verification/Compute.v ===== *)
(** * The compute layer: parsing and validation of commands

    Models [internal/database/compute]: the character classes of
    [validation.go], the constants of [command.go] and [Compute.ParseAndValidate]
    of [compute.go]. *)

From S2P Require Import Prelude GoText.

(** ** Constants of [command.go] *)

Definition CommandSet : bytes := str "SET".
Definition CommandGet : bytes := str "GET".
Definition CommandDel : bytes := str "DEL".

Definition CommandSetID : Z := 1.
Definition CommandDelID : Z := 2.

Definition Punctuation : list Z := [42; 47; 95; 46].
Definition LetterRangeLower : Z * Z := (97, 122).
Definition LetterRangeUpper : Z * Z := (65, 90).
Definition DigitRange : Z * Z := (48, 57).

Definition CommandSetQ : Z := 2.
Definition CommandGetQ : Z := 1.
Definition CommandDelQ : Z := 1.

(** ** [validation.go] *)

Definition IsAnyLetter (symbol : Z) : bool :=
  ((LetterRangeLower.1 <=? symbol) && (symbol <=? LetterRangeLower.2)) ||
  ((LetterRangeUpper.1 <=? symbol) && (symbol <=? LetterRangeUpper.2)).

Definition IsUpperLetter (symbol : Z) : bool :=
  (LetterRangeUpper.1 <=? symbol) && (symbol <=? LetterRangeUpper.2).

Definition IsDigit (symbol : Z) : bool :=
  (DigitRange.1 <=? symbol) && (symbol <=? DigitRange.2).

Fixpoint IsPunctuation_loop (pcts : list Z) (symbol : Z) : bool :=
  match pcts with
  | [] => false
  | pct :: pcts' => if symbol =? pct then true else IsPunctuation_loop pcts' symbol
  end.

Definition IsPunctuation (symbol : Z) : bool := IsPunctuation_loop Punctuation symbol.

(** [for _, symbol := range raw] with an early [return false]. *)
Definition ValidateCommand (raw : bytes) : bool := forallb IsUpperLetter (runes raw).

Definition argument_symbol (symbol : Z) : bool :=
  IsAnyLetter symbol || IsDigit symbol || IsPunctuation symbol.

Definition ValidateArgument (raw : bytes) : bool := forallb argument_symbol (runes raw).

(** ** [compute.go] *)

Record Compute := { compute_log : Logger }.

Definition NewCompute (log : option Logger) : res Compute :=
  match log with
  | None => Err (EText (str "compute.NewCompute: logger is invalid"))
  | Some l => Ok {| compute_log := l |}
  end.

(** The loop over [tokens], which stops at the first invalid one. *)
Fixpoint validate_tokens (tokens : list bytes) : error :=
  match tokens with
  | [] => None
  | token :: rest =>
      if ValidateArgument token then validate_tokens rest else Some ErrInvalidArgument
  end.

Definition ParseAndValidate `{!UnicodeUpper} (raw : bytes) : res (list bytes) :=
  match Fields (TrimSpace raw) with
  | [] => Err ErrEmptyCommand
  | t0 :: rest =>
      let tokens := ToUpper t0 :: rest in
      if ValidateCommand (ToUpper t0) then
        match validate_tokens tokens with
        | None => Ok tokens
        | Some e => Err e
        end
      else Err ErrInvalidCommand
  end.

(** ** Specification

    What a request line is, without reference to the algorithm. *)

(** The runes whose upper case is an ASCII capital letter. *)
Definition command_rune (r : Z) : bool := IsAnyLetter r || (r =? 305) || (r =? 383).

(** A canonical command line: a non-empty word of capital letters followed by
    non-empty words over the argument alphabet. *)
Definition command_word (t : bytes) : Prop := t ≠ [] ∧ Forall (λ b, IsUpperLetter (bZ b) = true) t.
Definition argument_word (t : bytes) : Prop := t ≠ [] ∧ Forall (λ b, argument_symbol (bZ b) = true) t.

Definition canonical (ts : list bytes) : Prop :=
  match ts with
  | [] => False
  | t :: rest => command_word t ∧ Forall argument_word rest
  end.

(** ** Lemmas *)

Lemma upper_letter_range r : IsUpperLetter r = true ↔ 65 ≤ r ≤ 90.
Proof. unfold IsUpperLetter. simpl. rewrite andb_true_iff, !Z.leb_le. done. Qed.

Lemma any_letter_range r : IsAnyLetter r = true ↔ 97 ≤ r ≤ 122 ∨ 65 ≤ r ≤ 90.
Proof.
  unfold IsAnyLetter. simpl. rewrite orb_true_iff, !andb_true_iff, !Z.leb_le. done.
Qed.

Lemma punctuation_in r : IsPunctuation r = true ↔ r ∈ Punctuation.
Proof.
  unfold IsPunctuation. generalize Punctuation as ps. intros ps. induction ps as [|p ps IH]; simpl.
  - split; [done|]. by intros ?%not_elem_of_nil.
  - rewrite elem_of_cons. destruct (r =? p) eqn:E; zbool; rewrite ?IH; naive_solver.
Qed.

Lemma argument_symbol_spec r : argument_symbol r = true ↔
  97 ≤ r ≤ 122 ∨ 65 ≤ r ≤ 90 ∨ 48 ≤ r ≤ 57 ∨ r ∈ Punctuation.
Proof.
  unfold argument_symbol, IsDigit.
  rewrite !orb_true_iff, any_letter_range, punctuation_in, andb_true_iff, !Z.leb_le.
  simpl. tauto.
Qed.

Lemma argument_symbol_low r : argument_symbol r = true → r < 128 ∧ IsSpace r = false.
Proof.
  rewrite argument_symbol_spec. intros H.
  assert (42 ≤ r < 128) as Hr.
  { unfold Punctuation in H. rewrite !elem_of_cons, elem_of_nil in H. lia. }
  split; [lia|]. unfold IsSpace. apply not_true_iff_false.
  rewrite !orb_true_iff, !andb_true_iff, !Z.leb_le, !Z.eqb_eq. lia.
Qed.

Lemma upper_letter_argument r : IsUpperLetter r = true → argument_symbol r = true.
Proof. rewrite upper_letter_range, argument_symbol_spec. lia. Qed.

(** A predicate on runes that only ASCII satisfies can be read byte-wise. *)
Lemma forallb_runes_bytes (P : Z → bool) s : (∀ r, P r = true → r < 128) →
  forallb P (runes s) = true ↔ Forall (λ b, P (bZ b) = true) s.
Proof.
  intros HP. rewrite <- Is_true_true, forallb_True. split.
  - intros H. assert (is_ascii s = true) as Ha.
    { apply runes_low_ascii. eapply Forall_impl; [exact H|]. simpl.
      intros r Hr%Is_true_true. auto. }
    rewrite (runes_ascii s Ha), Forall_fmap in H. eapply Forall_impl; [exact H|].
    simpl. intros b. by rewrite Is_true_true.
  - intros H. rewrite runes_ascii.
    + rewrite Forall_fmap. eapply Forall_impl; [exact H|]. simpl. intros b.
      by rewrite Is_true_true.
    + apply is_ascii_Forall. eapply Forall_impl; [exact H|]. simpl. auto.
Qed.

Lemma ValidateArgument_bytes s :
  ValidateArgument s = true ↔ Forall (λ b, argument_symbol (bZ b) = true) s.
Proof. apply forallb_runes_bytes. intros r. by intros []%argument_symbol_low. Qed.

Lemma ValidateCommand_bytes s :
  ValidateCommand s = true ↔ Forall (λ b, IsUpperLetter (bZ b) = true) s.
Proof. apply forallb_runes_bytes. intros r. rewrite upper_letter_range. lia. Qed.

Lemma command_word_argument t : command_word t → argument_word t.
Proof.
  intros [Hne H]. split; [done|]. eapply Forall_impl; [exact H|]. simpl.
  intros b. apply upper_letter_argument.
Qed.

Lemma argument_word_token t : argument_word t → token t.
Proof.
  intros [Hne H]. split; [done|]. eapply Forall_impl; [exact H|]. simpl.
  intros b. apply argument_symbol_low.
Qed.

Lemma argument_word_valid t : argument_word t → ValidateArgument t = true.
Proof. intros [_ H]. by apply ValidateArgument_bytes. Qed.

#[export] Hint Resolve command_word_argument argument_word_token argument_word_valid : go.

Lemma validate_tokens_None ts : validate_tokens ts = None ↔ Forall (λ t, ValidateArgument t = true) ts.
Proof.
  induction ts as [|t ts IH]; simpl; [by split|].
  rewrite Forall_cons, <- IH. destruct (ValidateArgument t); naive_solver.
Qed.

Lemma validate_tokens_Some ts e : validate_tokens ts = Some e → e = ErrInvalidArgument.
Proof. induction ts; simpl; [done|]. destruct (ValidateArgument a); naive_solver. Qed.

Section upper.
Context {UU : UnicodeUpper}.

Lemma upper_command_rune r : 0 ≤ r →
  IsUpperLetter (unicode_ToUpper r) = true ↔ command_rune r = true.
Proof.
  intros Hr. unfold command_rune.
  rewrite !orb_true_iff, upper_letter_range, any_letter_range, !Z.eqb_eq.
  destruct (decide (r < 128)).
  - rewrite unicode_ToUpper_ascii by lia. unfold ascii_upper.
    destruct (97 <=? r) eqn:E1, (r <=? 122) eqn:E2; zbool; simpl; lia.
  - destruct (decide (r = 305)) as [->|]; [rewrite unicode_ToUpper_0131; lia|].
    destruct (decide (r = 383)) as [->|]; [rewrite unicode_ToUpper_017F; lia|].
    pose proof (unicode_ToUpper_high r). lia.
Qed.

(** The command name survives upper-casing and validation exactly when all
    its runes are command runes. *)
Lemma ValidateCommand_ToUpper t :
  ValidateCommand (ToUpper t) = forallb command_rune (runes t).
Proof.
  apply eq_true_iff_eq. rewrite ValidateCommand_bytes, <- Is_true_true, forallb_True.
  pose proof (runes_nonneg t) as Hnn. split.
  - intros H. destruct (ToUpper_ascii_inv t) as [E Hlow].
    { apply is_ascii_Forall. eapply Forall_impl; [exact H|]. simpl.
      intros b. rewrite upper_letter_range. lia. }
    rewrite E, Forall_fmap in H. rewrite !Forall_lookup in *.
    intros i r Hi. apply Is_true_true, upper_command_rune; [eauto|].
    specialize (H i r Hi). simpl in H. rewrite bZ_Zb_small in H; [done|].
    specialize (Hlow i r Hi). simpl in Hlow. lia.
  - intros H. unfold ToUpper. destruct (is_ascii t) eqn:Ha.
    + rewrite (runes_ascii t Ha), Forall_fmap in H. apply is_ascii_Forall in Ha.
      rewrite Forall_fmap. clear Hnn. rewrite !Forall_lookup in *. intros i b Hi. simpl.
      pose proof (bZ_range b) as Hb. specialize (H i b Hi). specialize (Ha i b Hi).
      simpl in *. rewrite bZ_Zb_small by (pose proof (ascii_upper_range (bZ b)); lia).
      rewrite <- unicode_ToUpper_ascii by lia.
      by apply upper_command_rune, Is_true_true; [lia|].
    + clear Ha. revert Hnn H. generalize (runes t) as rs. induction rs as [|r rs IH]; [constructor|].
      intros [Hr Hnn]%Forall_cons [H1 H]%Forall_cons.
      apply Is_true_true, upper_command_rune in H1; [|done].
      apply upper_letter_range in H1 as Hr'.
      change (Forall (λ b, IsUpperLetter (bZ b) = true)
        (encode_rune (unicode_ToUpper r) ++ mjoin ((λ r, encode_rune (unicode_ToUpper r)) <$> rs))).
      rewrite encode_rune_low by lia. constructor; [|by apply IH].
      by rewrite bZ_Zb_small by lia.
Qed.

Lemma ToUpper_nonempty t : t ≠ [] → ValidateCommand (ToUpper t) = true → ToUpper t ≠ [].
Proof.
  intros Hne H E. destruct (ToUpper_ascii_inv t) as [E' _]; [by rewrite E|].
  rewrite E in E'. symmetry in E'. apply fmap_nil_inv in E'.
  unfold runes in E'. apply fmap_nil_inv in E'. apply Hne.
  by rewrite <- (chunks_join t), E'.
Qed.

Lemma ToUpper_command_word t : command_word t → ToUpper t = t.
Proof.
  intros [_ H]. unfold ToUpper. 
  assert (is_ascii t = true) as ->.
  { apply is_ascii_Forall. eapply Forall_impl; [exact H|]. simpl. intros b.
    rewrite upper_letter_range. lia. }
  induction H as [|b t Hb Ht IH]; [done|]. rewrite fmap_cons, IH. f_equal.
  apply upper_letter_range in Hb. unfold ascii_upper.
  destruct (97 <=? bZ b) eqn:E; zbool; [lia|]. simpl. apply Zb_bZ.
Qed.

End upper.

(** The tokens are the fields, with the first one upper-cased. *)
Lemma ParseAndValidate_canonical {UU : UnicodeUpper} raw ts : ParseAndValidate raw = Ok ts →
  canonical ts ∧ ∃ cmd args, Fields raw = cmd :: args ∧ ts = ToUpper cmd :: args.
Proof.
  intros Hok. unfold ParseAndValidate in Hok. rewrite Fields_TrimSpace in Hok.
  pose proof (Fields_nonempty raw) as Hne.
  destruct (Fields raw) as [|cmd args]; [done|].
  apply Forall_cons in Hne as [Hcmd Hargs].
  destruct (ValidateCommand (ToUpper cmd)) eqn:Hc; [|done].
  destruct (validate_tokens _) eqn:Hv; [done|]. injection Hok as <-.
  apply validate_tokens_None in Hv. apply Forall_cons in Hv as [_ Hv].
  split; [|by exists cmd, args].
  split; [split; [by apply ToUpper_nonempty|by apply ValidateCommand_bytes]|].
  rewrite Forall_lookup in *. intros i t Hi. split; [by eapply Hargs|].
  apply ValidateArgument_bytes. eauto.
Qed.

(** ** Properties *)

(** C25: [ParseAndValidate] on every branch, stated on the white-space separated
    words of the input: no word gives [ErrEmptyCommand]; a first word with a
    rune whose upper case is not a capital ASCII letter gives
    [ErrInvalidCommand]; otherwise a further word with a rune outside letters,
    digits and punctuation gives [ErrInvalidArgument]; otherwise the words are
    returned with the first one upper-cased. *)
Theorem parse_outcome {UU : UnicodeUpper} (raw : bytes) :
  ParseAndValidate raw =
    match Fields raw with
    | [] => Err ErrEmptyCommand
    | cmd :: args =>
        if forallb command_rune (runes cmd) then
          if forallb ValidateArgument args then Ok (ToUpper cmd :: args)
          else Err ErrInvalidArgument
        else Err ErrInvalidCommand
    end.
Proof.
  unfold ParseAndValidate. rewrite Fields_TrimSpace.
  destruct (Fields raw) as [|cmd args]; [done|].
  rewrite <- ValidateCommand_ToUpper. destruct (ValidateCommand (ToUpper cmd)) eqn:Hc; [|done].
  assert (ValidateArgument (ToUpper cmd) = true) as Ha.
  { apply ValidateArgument_bytes. apply ValidateCommand_bytes in Hc.
    eapply Forall_impl; [exact Hc|]. intros b. apply upper_letter_argument. }
  simpl. rewrite Ha. destruct (forallb ValidateArgument args) eqn:Hf.
  - rewrite (proj2 (validate_tokens_None args)); [done|].
    apply Is_true_true, forallb_True in Hf. eapply Forall_impl; [exact Hf|].
    intros t. apply Is_true_true.
  - destruct (validate_tokens args) as [e|] eqn:E.
    + by apply validate_tokens_Some in E as ->.
    + apply validate_tokens_None in E. exfalso.
      apply not_true_iff_false in Hf. apply Hf, Is_true_true, forallb_True.
      eapply Forall_impl; [exact E|]. intros t. apply Is_true_true.
Qed.

(** Whatever the input bytes, the tokens handed to the database are in
    canonical form: a non-empty command name of capital ASCII letters, then
    non-empty arguments over letters, digits and [* / _ .]; in particular no
    token contains white space or a non-ASCII byte. *)
Theorem parse_canonical {UU : UnicodeUpper} (raw : bytes) (ts : list bytes)
  (Hok : ParseAndValidate raw = Ok ts) : canonical ts.
Proof. by apply ParseAndValidate_canonical in Hok as [Hcan _]. Qed.

Lemma parse_canonical_witness :
  ParseAndValidate (str "  set user/1	alice ") = Ok [str "SET"; str "user/1"; str "alice"] ∧
  canonical [str "SET"; str "user/1"; str "alice"].
Proof.
  assert (ParseAndValidate (str "  set user/1	alice ") =
    Ok [str "SET"; str "user/1"; str "alice"]) as H by (vm_compute; reflexivity).
  split; [exact H|]. exact (parse_canonical _ _ H).
Defined.

(** C26: print/parse round trip: a canonical command line written with single
    blanks between its words parses back to exactly those words. *)
Theorem parse_print {UU : UnicodeUpper} (ts : list bytes) (Hts : canonical ts) :
  ParseAndValidate (join_sp ts) = Ok ts.
Proof.
  destruct ts as [|cmd args]; [done|]. destruct Hts as [Hcmd Hargs].
  unfold ParseAndValidate. rewrite Fields_TrimSpace, Fields_join_sp.
  2:{ constructor; [by auto with go|]. eapply Forall_impl; [exact Hargs|]. auto with go. }
  rewrite ToUpper_command_word by done.
  rewrite (proj2 (ValidateCommand_bytes cmd)) by apply Hcmd.
  rewrite (proj2 (validate_tokens_None (cmd :: args))); [done|].
  constructor; [by auto with go|]. eapply Forall_impl; [exact Hargs|]. auto with go.
Qed.

Lemma parse_print_witness :
  ParseAndValidate (join_sp [str "DEL"; str "a.b_c"]) = Ok [str "DEL"; str "a.b_c"].
Proof.
  apply parse_print. split; [|constructor; [|constructor]];
    (split; [discriminate|repeat constructor]).
Defined.

(** The command name is not limited to ASCII letters: U+017F (long s) is
    upper-cased to [S] before validation, so a line whose first word starts
    with it is accepted as [SET], although its characters are not all ASCII
    letters. *)
Theorem parse_accepts_non_ascii_command {UU : UnicodeUpper} :
  ParseAndValidate (encode_rune 383 ++ str "et k v") = Ok [str "SET"; str "k"; str "v"] ∧
  forallb IsAnyLetter (runes (encode_rune 383 ++ str "et")) = false.
Proof.
  split; [|by vm_compute]. rewrite parse_outcome.
  assert (Fields (encode_rune 383 ++ str "et k v") = [encode_rune 383 ++ str "et"; str "k"; str "v"])
    as -> by (by vm_compute).
  assert (forallb command_rune (runes (encode_rune 383 ++ str "et")) = true) as ->
    by (by vm_compute).
  assert (forallb ValidateArgument [str "k"; str "v"] = true) as -> by (by vm_compute).
  unfold ToUpper. assert (is_ascii (encode_rune 383 ++ str "et") = false) as -> by (by vm_compute).
  assert (runes (encode_rune 383 ++ str "et") = [383; 101; 116]) as -> by (by vm_compute).
  rewrite !fmap_cons, unicode_ToUpper_017F, !unicode_ToUpper_ascii by lia. by vm_compute.
Qed.
