(* ===== verification/Config.v ===== *)
(** * Configuration

    Models [internal/config/config.go]: the configuration structures and
    [NewConfig]. The libraries [cleanenv] and [validator] and the environment
    variable are parameters. Pointers to nested structures are options. *)

From S2P Require Import Prelude.

(** ** Data *)

Record NetworkConfig := {
  Address : bytes;
  MaxConnections : Z;
  MaxMessageSize : Z;
  IdleTimeout : Z;
  BufferSize : Z;
  TypeConn : bytes
}.

Record LoggingConfig := { LoggingLevel : bytes }.

Record WalConfig := {
  FlushingBatchTimeout : Z;
  FlushingBatchCount : Z;
  FlushingBatchVolume : Z;
  MaxSegmentSize : Z;
  SegmentStoragePath : bytes;
  MaskName : bytes
}.

Record Config := {
  Network : option NetworkConfig;
  CfgLogger : option LoggingConfig;
  CfgWal : option WalConfig;
  EngineType : bytes
}.

(** [time.Duration] counts nanoseconds. *)
Definition Millisecond : Z := 1000000.
Definition Minute : Z := 60 * 1000 * Millisecond.

(** The literal [NewConfig] starts from. *)
Definition initial_config : Config :=
  {| Network := Some {| Address := str "127.0.0.1:3323"; MaxConnections := 100;
       MaxMessageSize := 4096; IdleTimeout := 5 * Minute; BufferSize := 4096;
       TypeConn := str "tcp" |};
     EngineType := str "in_memory";
     CfgLogger := Some {| LoggingLevel := str "info" |};
     CfgWal := Some {| FlushingBatchTimeout := 10 * Millisecond; FlushingBatchCount := 2;
       FlushingBatchVolume := 10485760; MaxSegmentSize := 1073741824;
       SegmentStoragePath := str "./storage/wal"; MaskName := str "segment_" |} |}.

Section config.
Context
  (Getenv : bytes → bytes)                    (** [os.Getenv] *)
  (Stat : bytes → error)                      (** [os.Stat], the error only *)
  (ReadConfig : bytes → Config → res Config)  (** [cleanenv.ReadConfig] *)
  (ReadEnv : Config → res Config)             (** [cleanenv.ReadEnv] *)
  (Struct : Config → error).                  (** [validator.New().Struct] *)

Definition NewConfig : res Config :=
  let configPath := Getenv (str "CONFIG_PATH") in
  let? cfg :=
    if bool_decide (configPath ≠ []) then
      match Stat configPath with
      | Some _ => Err (EText (str "config.NewConfig: wrong path: error accessing config file"))
      | None =>
          match ReadConfig configPath initial_config with
          | Err _ => Err (EText (str "config.NewConfig: error reading config file"))
          | Ok cfg => Ok cfg
          end
      end
    else
      match ReadEnv initial_config with
      | Err _ => Err (EText (str "config.NewConfig: error reading config from env variables"))
      | Ok cfg => Ok cfg
      end in
  match Struct cfg with
  | Some _ => Err (EText (str "config.NewConfig: config validation error"))
  | None => Ok cfg
  end.

End config.

(** ** Validation tags *)

(** What the [validate] tags of the structures demand: [gt=0] and [required].
    The validator does not descend into a nil pointer. *)
Definition network_valid (n : NetworkConfig) : Prop :=
  0 < MaxConnections n ∧ 0 < MaxMessageSize n ∧ 0 < IdleTimeout n ∧ 0 < BufferSize n.

Definition wal_valid (c : WalConfig) : Prop :=
  0 < FlushingBatchTimeout c ∧ 0 < FlushingBatchCount c ∧ 0 < FlushingBatchVolume c ∧
  0 < MaxSegmentSize c ∧ SegmentStoragePath c ≠ [] ∧ MaskName c ≠ [].

Definition config_valid (c : Config) : Prop :=
  (∀ n, Network c = Some n → network_valid n) ∧ (∀ wc, CfgWal c = Some wc → wal_valid wc).

#[global] Instance network_valid_dec n : Decision (network_valid n).
Proof. unfold network_valid. apply _. Defined.

#[global] Instance wal_valid_dec c : Decision (wal_valid c).
Proof. unfold wal_valid. apply _. Defined.

Definition config_validb (c : Config) : bool :=
  match Network c with None => true | Some n => bool_decide (network_valid n) end &&
  match CfgWal c with None => true | Some wc => bool_decide (wal_valid wc) end.

(** A reader that fills in only zero fields: what [cleanenv] documents for
    [env-default] on fields that have no [env] tag (no field here has one). *)

Definition fills_zero_fields (c c' : Config) : Prop :=
  (∀ n, Network c = Some n → ∃ n', Network c' = Some n' ∧
     (Address n ≠ [] → Address n' = Address n) ∧
     (MaxConnections n ≠ 0 → MaxConnections n' = MaxConnections n) ∧
     (MaxMessageSize n ≠ 0 → MaxMessageSize n' = MaxMessageSize n) ∧
     (IdleTimeout n ≠ 0 → IdleTimeout n' = IdleTimeout n) ∧
     (BufferSize n ≠ 0 → BufferSize n' = BufferSize n) ∧
     (TypeConn n ≠ [] → TypeConn n' = TypeConn n)) ∧
  (∀ l, CfgLogger c = Some l → ∃ l', CfgLogger c' = Some l' ∧
     (LoggingLevel l ≠ [] → LoggingLevel l' = LoggingLevel l)) ∧
  (∀ wc, CfgWal c = Some wc → ∃ wc', CfgWal c' = Some wc' ∧
     (FlushingBatchTimeout wc ≠ 0 → FlushingBatchTimeout wc' = FlushingBatchTimeout wc) ∧
     (FlushingBatchCount wc ≠ 0 → FlushingBatchCount wc' = FlushingBatchCount wc) ∧
     (FlushingBatchVolume wc ≠ 0 → FlushingBatchVolume wc' = FlushingBatchVolume wc) ∧
     (MaxSegmentSize wc ≠ 0 → MaxSegmentSize wc' = MaxSegmentSize wc) ∧
     (SegmentStoragePath wc ≠ [] → SegmentStoragePath wc' = SegmentStoragePath wc) ∧
     (MaskName wc ≠ [] → MaskName wc' = MaskName wc)) ∧
  (EngineType c ≠ [] → EngineType c' = EngineType c).

Lemma config_validb_spec c : config_validb c = true ↔ config_valid c.
Proof.
  unfold config_validb, config_valid. rewrite andb_true_iff.
  split; intros [H1 H2]; split.
  - intros n E. rewrite E in H1. by apply bool_decide_eq_true in H1.
  - intros wc E. rewrite E in H2. by apply bool_decide_eq_true in H2.
  - destruct (Network c) as [n|]; [|done]. apply bool_decide_eq_true. by apply H1.
  - destruct (CfgWal c) as [wc|]; [|done]. apply bool_decide_eq_true. by apply H2.
Qed.

(** A validator for the tags, and a reader that changes nothing. *)
Definition tag_validator (c : Config) : error :=
  if config_validb c then None else Some (EText (str "validation failed")).

Lemma tag_validator_spec c : tag_validator c = None ↔ config_valid c.
Proof.
  unfold tag_validator. rewrite <- config_validb_spec. by destruct (config_validb c).
Qed.

Lemma fills_zero_fields_initial c : fills_zero_fields initial_config c → c = initial_config.
Proof.
  destruct c as [n l wc e]. intros (Hn & Hl & Hw & He).
  destruct (Hn _ eq_refl) as ([a mc mm it bs tc] & En & Ha & Hmc & Hmm & Hit & Hbs & Htc).
  destruct (Hl _ eq_refl) as ([lv] & El & Hlv).
  destruct (Hw _ eq_refl) as ([ft fc fv ms sp mn] & Ew & Hft & Hfc & Hfv & Hms & Hsp & Hmn).
  cbn -[str Z.mul] in *. subst. unfold initial_config.
  rewrite Ha, Hmc, Hmm, Hit, Hbs, Htc, Hlv, Hft, Hfc, Hfv, Hms, Hsp, Hmn, He; done.
Qed.

(** ** Properties *)

(** With [CONFIG_PATH] unset the server runs with exactly the literal of
    [NewConfig]: if [cleanenv.ReadEnv] only fills in zero fields (no field has
    an [env] tag) and the validator checks the tags, the result is the literal,
    which satisfies every validation tag; the [env-default] tags never apply,
    so a batch is sealed at 2 records and segments are named [segment_...],
    not at 100 records and [wal_...] as the tags say. *)
Theorem config_defaults
  (Getenv : bytes → bytes) (Stat : bytes → error)
  (ReadConfig : bytes → Config → res Config) (ReadEnv : Config → res Config)
  (Struct : Config → error)
  (Hunset : Getenv (str "CONFIG_PATH") = [])
  (Hread : ∀ c, ∃ c', ReadEnv c = Ok c' ∧ fills_zero_fields c c')
  (Hvalid : ∀ c, Struct c = None ↔ config_valid c) :
  NewConfig Getenv Stat ReadConfig ReadEnv Struct = Ok initial_config ∧
  config_valid initial_config.
Proof.
  assert (config_valid initial_config) as Hv by (by apply config_validb_spec).
  split; [|done]. unfold NewConfig. rewrite Hunset.
  destruct (Hread initial_config) as (c' & Hr & Hc). apply fills_zero_fields_initial in Hc as ->.
  rewrite bool_decide_eq_false_2 by (by intros []). rewrite Hr. cbn [res_bind].
  by apply Hvalid in Hv as ->.
Qed.

Lemma config_defaults_witness :
  NewConfig (λ _, []) (λ _, None) (λ _ c, Ok c) (λ c, Ok c) tag_validator = Ok initial_config ∧
  config_valid initial_config.
Proof.
  apply config_defaults; [reflexivity| |exact tag_validator_spec].
  intros c. exists c. split; [reflexivity|]. unfold fills_zero_fields.
  split; [intros n E; exists n; auto 10|]. split; [intros l E; exists l; auto|].
  split; [intros wc E; exists wc; auto 10|auto].
Defined.
