(* ===== verification/Gob.v ===== *)
(** * The wire format of [encoding/gob]

    The part of Go's [encoding/gob] that the write-ahead log uses, at the
    level of bytes: unsigned and signed integers, strings, slices of strings
    and length-prefixed messages. The record-specific part (type descriptors,
    encoder and decoder state) is in [WalLog]. *)

From S2P Require Import Prelude.

(** Messages of this many bytes or more are refused by encoder and decoder on
    64-bit platforms. *)
Definition tooBig : Z := 2 ^ 33.

(** ** Encoding *)

Fixpoint be_bytes (n : nat) (x : Z) : bytes :=
  match n with
  | O => []
  | S n' => be_bytes n' (x / 256) ++ [Zb x]
  end.

(** The number of bytes of the minimal big-endian form of a [uint64]. *)
Fixpoint uint_width (fuel : nat) (x : Z) : nat :=
  match fuel with
  | O => 0
  | S fuel' => if x <? 256 then 1 else S (uint_width fuel' (x / 256))
  end.

(** An unsigned integer: one byte below 128, otherwise the negated byte count
    followed by the minimal big-endian bytes. *)
Definition encodeUint (x : Z) : bytes :=
  if x <? 128 then [Zb x]
  else let n := uint_width 8 x in Zb (256 - Z.of_nat n) :: be_bytes n x.

(** A signed integer is sent as an unsigned one with the sign in the low bit. *)
Definition encodeInt (i : Z) : bytes :=
  encodeUint (if i <? 0 then 2 * (- i - 1) + 1 else 2 * i).

Definition encodeString (s : bytes) : bytes := encodeUint (zlen s) ++ s.

Definition encodeStrings (ss : list bytes) : bytes :=
  encodeUint (zlen ss) ++ mjoin (encodeString <$> ss).

(** [Encoder.writeMessage]: a message preceded by its length. *)
Definition frame (m : bytes) : bytes := encodeUint (zlen m) ++ m.

(** ** Decoding *)

Fixpoint be_value (acc : Z) (s : bytes) : Z :=
  match s with
  | [] => acc
  | b :: s' => be_value (256 * acc + bZ b) s'
  end.

(** [decodeUint], parameterised by the error for an empty input (reading at
    the end of the stream and inside a message report it differently) and by
    the error for a truncated number. *)
Definition decodeUint (empty short : gob_error) (s : bytes) : res (Z * bytes) :=
  match s with
  | [] => Err (EGob empty)
  | b :: s' =>
      if bZ b <? 128 then Ok (bZ b, s')
      else
        let n := Z.to_nat (256 - bZ b) in
        if (8 <? n)%nat then Err (EGob GobBadUint)
        else if (length s' <? n)%nat then Err (EGob short)
        else Ok (be_value 0 (take n s'), drop n s')
  end.

(** The count in front of a message: [io.EOF] only before its first byte. *)
Definition readCount : bytes → res (Z * bytes) := decodeUint GobEOF GobUnexpectedEOF.

(** A number inside a message buffer. *)
Definition nextUint : bytes → res (Z * bytes) := decodeUint GobEOF GobBadData.

Definition toInt (u : Z) : Z :=
  if Z.odd u then - (u / 2) - 1 else u / 2.

Definition nextInt (s : bytes) : res (Z * bytes) :=
  let? (u, s') := nextUint s in Ok (toInt u, s').

Definition nextString (s : bytes) : res (bytes * bytes) :=
  let? (n, s') := nextUint s in
  if zlen s' <? n then Err (EGob GobBadData)
  else Ok (take (Z.to_nat n) s', drop (Z.to_nat n) s').

(** The elements of a slice. Where the buffer is at its end before an element the
    length of the slice is wrong, which is bad data and not an end of file. *)
Fixpoint nextStrings_loop (n : nat) (s : bytes) : res (list bytes * bytes) :=
  match n with
  | O => Ok ([], s)
  | S n' =>
      if bool_decide (s = []) then Err (EGob GobBadData)
      else
        let? (x, s') := nextString s in
        let? (xs, s'') := nextStrings_loop n' s' in
        Ok (x :: xs, s'')
  end.

(** [decodeSlice]: a slice whose elements (16 bytes each in memory) would
    exceed [tooBig] is refused. *)
Definition nextStrings (s : bytes) : res (list bytes * bytes) :=
  let? (n, s') := nextUint s in
  if tooBig <? 16 * n then Err (EGob GobBadData)
  else nextStrings_loop (Z.to_nat n) s'.

(** [Decoder.recvMessage]: the next message and the rest of the stream. *)
Definition recvMessage (s : bytes) : res (bytes * bytes) :=
  let? (n, s') := readCount s in
  if tooBig <=? n then Err (EGob GobBadCount)
  else if zlen s' <? n then Err (EGob GobUnexpectedEOF)
  else Ok (take (Z.to_nat n) s', drop (Z.to_nat n) s').

(** ** Lemmas *)

Definition in_uint64 (x : Z) : Prop := 0 ≤ x < 2 ^ 64.

Lemma length_be_bytes n x : length (be_bytes n x) = n.
Proof. revert x. induction n; intros; simpl; [done|]. rewrite length_app, IHn. simpl. lia. Qed.

Lemma be_value_app s t acc : be_value acc (s ++ t) = be_value (be_value acc s) t.
Proof. revert acc. induction s; simpl; auto. Qed.

Lemma be_value_be_bytes n : ∀ x acc, 0 ≤ x < 256 ^ Z.of_nat n →
  be_value acc (be_bytes n x) = acc * 256 ^ Z.of_nat n + x.
Proof.
  induction n as [|n IH]; intros x acc Hx.
  - simpl in *. lia.
  - rewrite Nat2Z.inj_succ, Z.pow_succ_r in * by lia. simpl.
    pose proof (Z.div_mod x 256 ltac:(lia)). pose proof (Z.mod_pos_bound x 256 ltac:(lia)).
    rewrite be_value_app, IH.
    + simpl. rewrite bZ_Zb. lia.
    + split; [apply Z.div_pos; lia|]. apply Z.div_lt_upper_bound; lia.
Qed.

Lemma uint_width_spec fuel : ∀ x, (0 < fuel)%nat → 0 ≤ x < 256 ^ Z.of_nat fuel →
  (0 < uint_width fuel x ≤ fuel)%nat ∧ x < 256 ^ Z.of_nat (uint_width fuel x).
Proof.
  induction fuel as [|fuel IH]; intros x Hf Hx; [lia|].
  rewrite Nat2Z.inj_succ, Z.pow_succ_r in Hx by lia. cbn [uint_width].
  destruct (x <? 256) eqn:E; zbool; [simpl; lia|].
  pose proof (Z.div_mod x 256 ltac:(lia)). pose proof (Z.mod_pos_bound x 256 ltac:(lia)).
  destruct fuel as [|fuel]; [simpl in Hx; lia|].
  destruct (IH (x / 256)) as [H1 H2]; [lia| |].
  { split; [apply Z.div_pos; lia|]. apply Z.div_lt_upper_bound; lia. }
  split; [lia|]. rewrite Nat2Z.inj_succ, Z.pow_succ_r by lia. lia.
Qed.

(** Decoding inverts encoding for every [uint64], whatever follows. *)
Lemma decodeUint_encodeUint e1 e2 x s : in_uint64 x →
  decodeUint e1 e2 (encodeUint x ++ s) = Ok (x, s).
Proof.
  intros Hx. unfold in_uint64 in Hx. unfold encodeUint. destruct (x <? 128) eqn:E; zbool.
  - simpl. rewrite bZ_Zb_small by lia. by apply Z.ltb_lt in E as ->.
  - destruct (uint_width_spec 8 x) as [Hw1 Hw2]; [lia|simpl; lia|].
    set (n := uint_width 8 x) in *. simpl. rewrite bZ_Zb_small by lia.
    destruct (256 - Z.of_nat n <? 128) eqn:E1; zbool; [lia|].
    replace (Z.to_nat (256 - (256 - Z.of_nat n))) with n by lia.
    destruct (8 <? n)%nat eqn:E2; [apply Nat.ltb_lt in E2; lia|].
    destruct (length (be_bytes n x ++ s) <? n)%nat eqn:E3.
    { apply Nat.ltb_lt in E3. rewrite length_app, length_be_bytes in E3. lia. }
    rewrite take_app_length', drop_app_length' by (by rewrite length_be_bytes).
    by rewrite be_value_be_bytes by lia.
Qed.

Lemma encodeUint_nonempty x : ∃ b l, encodeUint x = b :: l.
Proof. unfold encodeUint. case_match; eauto. Qed.

Lemma length_encodeUint x : (0 < length (encodeUint x))%nat.
Proof. destruct (encodeUint_nonempty x) as (b & l & ->). simpl. lia. Qed.

Lemma toInt_fromInt i : toInt (if i <? 0 then 2 * (- i - 1) + 1 else 2 * i) = i.
Proof.
  unfold toInt. destruct (i <? 0) eqn:E; zbool.
  - rewrite Z.add_comm, Z.odd_add_mul_2. simpl.
    rewrite (Z.mul_comm 2), Z.div_add by lia. rewrite Z.div_small by lia. lia.
  - rewrite Z.odd_mul. change (Z.odd 2) with false. simpl.
    rewrite (Z.mul_comm 2), Z.div_mul; lia.
Qed.

Lemma nextInt_encodeInt i s : in_int64 i → nextInt (encodeInt i ++ s) = Ok (i, s).
Proof.
  unfold in_int64, nextInt, encodeInt, nextUint. intros Hi.
  rewrite decodeUint_encodeUint.
  - simpl. by rewrite toInt_fromInt.
  - unfold in_uint64. destruct (i <? 0) eqn:E; zbool; lia.
Qed.

(** A byte count that fits in memory fits in a [uint64]. *)
Lemma nextString_encodeString x s : zlen x < 2 ^ 64 →
  nextString (encodeString x ++ s) = Ok (x, s).
Proof.
  intros Hx. unfold nextString, encodeString, nextUint. rewrite <- app_assoc.
  rewrite decodeUint_encodeUint by (pose proof (zlen_nonneg x); unfold in_uint64; lia).
  simpl. rewrite zlen_app. pose proof (zlen_nonneg s).
  destruct (zlen x + zlen s <? zlen x) eqn:E; zbool; [lia|].
  unfold zlen at 1 2. rewrite Nat2Z.id.
  by rewrite take_app_length, drop_app_length.
Qed.

Lemma nextStrings_loop_app xs s : Forall (λ x : bytes, zlen x < 2 ^ 64) xs →
  nextStrings_loop (length xs) (mjoin (encodeString <$> xs) ++ s) = Ok (xs, s).
Proof.
  induction 1 as [|x xs Hx Hxs IH]; [done|].
  rewrite fmap_cons. change (mjoin (?a :: ?l)) with (a ++ mjoin l). rewrite <- app_assoc.
  cbn [nextStrings_loop length]. pose proof (nextString_encodeString x (mjoin (encodeString <$> xs) ++ s) Hx) as Hn.
  rewrite bool_decide_false by (intros E; rewrite E in Hn; done).
  rewrite Hn. simpl. by rewrite IH.
Qed.

Lemma nextStrings_encodeStrings xs s :
  16 * zlen xs ≤ tooBig → Forall (λ x : bytes, zlen x < 2 ^ 64) xs →
  nextStrings (encodeStrings xs ++ s) = Ok (xs, s).
Proof.
  intros Hn Hxs. unfold nextStrings, encodeStrings, nextUint. rewrite <- app_assoc.
  pose proof (zlen_nonneg xs). unfold tooBig in *.
  rewrite decodeUint_encodeUint by (unfold in_uint64; lia). simpl.
  destruct (_ <? 16 * zlen xs) eqn:E; zbool; [lia|].
  unfold zlen. rewrite Nat2Z.id. by apply nextStrings_loop_app.
Qed.

Lemma recvMessage_frame m s : zlen m < tooBig → recvMessage (frame m ++ s) = Ok (m, s).
Proof.
  intros Hm. unfold recvMessage, readCount, frame. rewrite <- app_assoc.
  pose proof (zlen_nonneg m). pose proof (zlen_nonneg s). unfold tooBig in *.
  rewrite decodeUint_encodeUint by (unfold in_uint64; lia). simpl.
  destruct (_ <=? zlen m) eqn:E1; zbool; [lia|]. rewrite zlen_app.
  destruct (_ <? zlen m) eqn:E2; zbool; [lia|].
  unfold zlen. rewrite Nat2Z.id. by rewrite take_app_length, drop_app_length.
Qed.

(** A truncated frame is never mistaken for a message: at its very start the
    reader sees the end of the stream, anywhere else an unexpected end. *)
Lemma readCount_prefix x p q : in_uint64 x → encodeUint x = p ++ q → q ≠ [] →
  readCount p = Err (EGob (if bool_decide (p = []) then GobEOF else GobUnexpectedEOF)).
Proof.
  intros Hx He Hq. destruct p as [|b p]; [done|].
  rewrite bool_decide_eq_false_2 by done. unfold in_uint64 in Hx.
  unfold encodeUint in He. destruct (x <? 128) eqn:E; zbool.
  { destruct p; [|done]. destruct q; done. }
  destruct (uint_width_spec 8 x) as [Hw1 Hw2]; [lia|simpl; lia|].
  set (n := uint_width 8 x) in *. simpl in He. injection He as <- He.
  apply (f_equal length) in He. rewrite length_be_bytes, length_app in He.
  assert (0 < length q)%nat by (destruct q; [done|simpl; lia]).
  unfold readCount, decodeUint. rewrite bZ_Zb_small by lia.
  destruct (256 - Z.of_nat n <? 128) eqn:E1; zbool; [lia|].
  replace (Z.to_nat (256 - (256 - Z.of_nat n))) with n by lia.
  destruct (8 <? n)%nat eqn:E2; [apply Nat.ltb_lt in E2; lia|].
  destruct (length p <? n)%nat eqn:E3; [done|]. apply Nat.ltb_ge in E3. lia.
Qed.

Lemma recvMessage_prefix m p q : zlen m < tooBig → frame m = p ++ q → q ≠ [] →
  recvMessage p = Err (EGob (if bool_decide (p = []) then GobEOF else GobUnexpectedEOF)).
Proof.
  intros Hm He Hq. unfold frame in He. pose proof (zlen_nonneg m).
  assert (in_uint64 (zlen m)) as Hu by (unfold in_uint64, tooBig in *; lia).
  unfold recvMessage. apply app_eq_inv in He as [(k & E1 & E2)|(k & E1 & E2)].
  - destruct k as [|b k].
    + rewrite app_nil_r in E1. subst p.
      rewrite <- (app_nil_r (encodeUint _)). unfold readCount.
      rewrite decodeUint_encodeUint by done. simpl. simpl in E2. subst q.
      destruct (tooBig <=? zlen m) eqn:Et; zbool; [lia|].
      destruct (encodeUint_nonempty (zlen m)) as (b & l & ->). simpl.
      destruct (zlen [] <? zlen m) eqn:E3; zbool; [done|].
      rewrite zlen_nil in E3. exfalso. apply Hq, zlen_0_inv. lia.
    + by erewrite readCount_prefix.
  - subst p. unfold readCount. rewrite decodeUint_encodeUint by done. simpl.
    destruct (tooBig <=? zlen m) eqn:Et; zbool; [lia|]. subst m. rewrite zlen_app.
    destruct (encodeUint_nonempty (zlen k + zlen q)) as (b & l & ->). simpl.
    destruct (zlen k <? zlen k + zlen q) eqn:E3; zbool; [done|].
    pose proof (zlen_nonneg q). exfalso. apply Hq, zlen_0_inv. lia.
Qed.

Lemma length_frame m : (0 < length (frame m))%nat.
Proof. unfold frame. rewrite length_app. pose proof (length_encodeUint (zlen m)). lia. Qed.
