(* ===== verification/WalLog.v ===== *)
(** * Records of the write-ahead log and their gob streams

    Models [wal/wal_log.go]: the record type [Log] and its [Encode], [EncodeTo],
    [Decode] and [DecodeFrom], together with the state [encoding/gob] keeps for
    them. An encoder sends the descriptors of the types [Log] and [[]string] once,
    before its first value; a decoder remembers the descriptors it has received
    and refuses a second one for the same type id ("gob: duplicate type
    received"). *)

From S2P Require Import Prelude Gob.

(** ** Data *)

Record Log := { LSN : Z; CommandID : Z; Arguments : list bytes }.

#[global] Instance Log_eq_dec : EqDecision Log.
Proof. solve_decision. Defined.

(** The zero value [Log{}]. *)
Definition zero_log : Log := {| LSN := 0; CommandID := 0; Arguments := [] |}.

(** Type ids are allocated by the gob runtime of the process; ids below 64 are
    reserved. They are the same for every encoder and decoder. *)
Class GobTypeIds := {
  log_id : Z;
  slice_id : Z;
  log_id_range : 64 ≤ log_id < 2 ^ 31;
  slice_id_range : 64 ≤ slice_id < 2 ^ 31;
  type_ids_distinct : log_id ≠ slice_id
}.

(** Ids of the predefined types [int] and [string]. *)
Definition tInt : Z := 2.
Definition tString : Z := 6.

Record Encoder := { sent : bool; out : bytes }.

Definition NewEncoder : Encoder := {| sent := false; out := [] |}.

Record Decoder := { seen : list Z; input : bytes }.

Definition NewDecoder (data : bytes) : Decoder := {| seen := []; input := data |}.

(** ** Encoding *)

Section codec.
Context {ids : GobTypeIds}.

Definition commonType (name : bytes) (id : Z) : bytes :=
  [x01] ++ encodeString name ++ [x01] ++ encodeInt id ++ [x00].

Definition fieldType (name : bytes) (id : Z) : bytes :=
  [x01] ++ encodeString name ++ [x01] ++ encodeInt id ++ [x00].

(** The [wireType] values describing [Log] (field 2 of [wireType], a struct
    with three fields) and [[]string] (field 1, a slice). *)
Definition log_descriptor : bytes :=
  [x03; x01] ++ commonType (str "Log") log_id ++ [x01] ++ encodeUint 3 ++
  fieldType (str "LSN") tInt ++ fieldType (str "CommandID") tInt ++
  fieldType (str "Arguments") slice_id ++ [x00; x00].

Definition slice_descriptor : bytes :=
  [x02; x01] ++ commonType (str "[]string") slice_id ++ [x01] ++ encodeInt tString ++ [x00; x00].

(** [sendTypeDescriptor]: one message per type, tagged with the negated id. *)
Definition descriptors : bytes :=
  frame (encodeInt (- log_id) ++ log_descriptor) ++
  frame (encodeInt (- slice_id) ++ slice_descriptor).

(** The fields of a struct, as deltas of field numbers; zero values are
    omitted, a zero delta ends the struct. *)
Definition encodeFields (l : Log) : bytes :=
  let f0 := bool_decide (LSN l ≠ 0) in
  let f1 := bool_decide (CommandID l ≠ 0) in
  let f2 := bool_decide (Arguments l ≠ []) in
  (if f0 then encodeUint 1 ++ encodeInt (LSN l) else []) ++
  (if f1 then encodeUint (if f0 then 1 else 2) ++ encodeInt (CommandID l) else []) ++
  (if f2 then encodeUint (if f1 then 1 else if f0 then 2 else 3) ++ encodeStrings (Arguments l)
   else []) ++
  [x00].

Definition value_message (l : Log) : bytes := encodeInt log_id ++ encodeFields l.

(** [Log.EncodeTo]: [encoder.Encode( *log )]. *)
Definition EncodeTo (l : Log) (enc : Encoder) : Encoder * error :=
  let header := if sent enc then [] else descriptors in
  if tooBig <? zlen (value_message l)
  then ({| sent := true; out := out enc ++ header |}, Some (EGob GobTooBig))
  else ({| sent := true; out := out enc ++ header ++ frame (value_message l) |}, None).

(** [Log.Encode]: a fresh encoder on the buffer; the result is the new
    contents of the buffer. *)
Definition Encode (l : Log) (buffer : bytes) : bytes * error :=
  let '(enc, err) := EncodeTo l NewEncoder in (buffer ++ out enc, err).

(** ** Decoding *)

(** [decodeStruct]: field numbers start at -1 and increase, so a struct of
    three fields takes at most four rounds (the fourth reads the terminator);
    running out of bytes between fields also ends it. *)
Fixpoint decodeFields (fuel : nat) (fieldnum : Z) (s : bytes) (l : Log) : res (Log * bytes) :=
  match fuel with
  | O => Ok (l, s)
  | S fuel' =>
      if bool_decide (s = []) then Ok (l, s)
      else
        let? (delta, s1) := nextUint s in
        if delta =? 0 then Ok (l, s1)
        else
          let n := fieldnum + delta in
          if 3 <=? n then Err (EGob GobBadData)
          else if n =? 0 then
            let? (v, s2) := nextInt s1 in
            decodeFields fuel' n s2
              {| LSN := v; CommandID := CommandID l; Arguments := Arguments l |}
          else if n =? 1 then
            let? (v, s2) := nextInt s1 in
            decodeFields fuel' n s2
              {| LSN := LSN l; CommandID := v; Arguments := Arguments l |}
          else
            let? (v, s2) := nextStrings s1 in
            decodeFields fuel' n s2
              {| LSN := LSN l; CommandID := CommandID l; Arguments := v |}
  end.

(** [recvType]: a descriptor for a reserved or already described id is
    refused. Only the two descriptors above are understood; any other one is
    reported as an error. *)
Definition recvType (id : Z) (descr : bytes) (known : list Z) : res (list Z) :=
  if (id <? 64) || bool_decide (id ∈ known) then Err (EGob GobDuplicateType)
  else if bool_decide (id = log_id ∧ descr = log_descriptor) then Ok (id :: known)
  else if bool_decide (id = slice_id ∧ descr = slice_descriptor) then Ok (id :: known)
  else Err (EGob GobUnknownType).

(** [decodeTypeSequence] and the decoding of the value that follows: messages
    with a negative id are descriptors. The end of the input is [io.EOF] only
    before the first message of the sequence. Every message takes at least one
    byte, so as many rounds as there are bytes are enough. *)
Fixpoint decode_value (fuel : nat) (first : bool) (known : list Z) (s : bytes) (l : Log)
  : res (Log * Decoder) :=
  match fuel with
  | O => Err (EGob GobEOF)
  | S fuel' =>
      match recvMessage s with
      | Err (EGob GobEOF) => Err (EGob (if first then GobEOF else GobUnexpectedEOF))
      | Err e => Err e
      | Ok (m, s') =>
          let? (id, body) := nextInt m in
          if id <? 0 then
            let? known' := recvType (- id) body known in
            decode_value fuel' false known' s' l
          else if bool_decide (id = log_id ∧ log_id ∈ known ∧ slice_id ∈ known) then
            let? (l', _) := decodeFields 4 (-1) body l in
            Ok (l', {| seen := known; input := s' |})
          else Err (EGob GobUnknownType)
      end
  end.

(** [Log.DecodeFrom]: [decoder.Decode(log)]; fields absent from the stream keep
    the value they have in [l]. *)
Definition DecodeFrom (l : Log) (dec : Decoder) : res (Log * Decoder) :=
  decode_value (S (length (input dec))) true (seen dec) (input dec) l.

(** [Log.Decode]: a fresh decoder on the buffer. *)
Definition Decode (l : Log) (buffer : bytes) : res Log :=
  let? (l', _) := DecodeFrom l (NewDecoder buffer) in Ok l'.

(** The decoding loop of [Wal.Recovery]: decode records into a zero [Log] until
    [io.EOF]; any other error stops the loop. The records read so far are
    returned with the error. *)
Fixpoint decode_loop (fuel : nat) (dec : Decoder) (logs : list Log) : list Log * error :=
  match fuel with
  | O => (logs, None)
  | S fuel' =>
      match DecodeFrom zero_log dec with
      | Err (EGob GobEOF) => (logs, None)
      | Err e => (logs, Some e)
      | Ok (record, dec') => decode_loop fuel' dec' (logs ++ [record])
      end
  end.

Definition decode_all (data : bytes) : list Log * error :=
  decode_loop (S (length data)) (NewDecoder data) [].

(** ** Specification: the stream of one encoder *)

(** The bytes one encoder produces for a list of records. *)
Definition values (ls : list Log) : bytes := mjoin ((λ l, frame (value_message l)) <$> ls).

Definition stream (ls : list Log) : bytes :=
  match ls with [] => [] | _ => descriptors ++ values ls end.

(** A record that gob can transport: integers of 64 bits, a message below the
    size limit and an argument slice below the decoder's limit. *)
Definition wf_log (l : Log) : Prop :=
  in_int64 (LSN l) ∧ in_int64 (CommandID l) ∧
  zlen (value_message l) < tooBig ∧ 16 * zlen (Arguments l) ≤ tooBig.

(** A sequence of [EncodeTo] calls on one encoder, stopping at an error. *)
Fixpoint encode_logs (ls : list Log) (enc : Encoder) : Encoder * error :=
  match ls with
  | [] => (enc, None)
  | l :: ls' =>
      let '(enc', err) := EncodeTo l enc in
      match err with
      | Some e => (enc', Some e)
      | None => encode_logs ls' enc'
      end
  end.

(** Decoding into a record keeps the fields the stream omits. *)
Definition merge_log (l0 l : Log) : Log :=
  {| LSN := if bool_decide (LSN l ≠ 0) then LSN l else LSN l0;
     CommandID := if bool_decide (CommandID l ≠ 0) then CommandID l else CommandID l0;
     Arguments := if bool_decide (Arguments l ≠ []) then Arguments l else Arguments l0 |}.

(** ** Lemmas *)

Lemma encodeUint_length x : in_uint64 x → zlen (encodeUint x) ≤ 9.
Proof.
  intros Hx. unfold in_uint64 in Hx. unfold encodeUint.
  destruct (x <? 128) eqn:E; zbool; [by vm_compute|].
  destruct (uint_width_spec 8 x) as [Hw _]; [lia|simpl; lia|].
  rewrite zlen_cons. unfold zlen. rewrite length_be_bytes. lia.
Qed.

Lemma encodeInt_length i : in_int64 i → zlen (encodeInt i) ≤ 9.
Proof.
  unfold in_int64. intros Hi. apply encodeUint_length. unfold in_uint64.
  destruct (i <? 0) eqn:E; zbool; lia.
Qed.

Lemma type_id_int64 : in_int64 log_id ∧ in_int64 slice_id ∧
  in_int64 (- log_id) ∧ in_int64 (- slice_id).
Proof. unfold in_int64. pose proof log_id_range. pose proof slice_id_range. lia. Qed.

Lemma descriptor_sizes :
  zlen (encodeInt (- log_id) ++ log_descriptor) < tooBig ∧
  zlen (encodeInt (- slice_id) ++ slice_descriptor) < tooBig.
Proof.
  destruct type_id_int64 as (H1%encodeInt_length & H2%encodeInt_length &
    H3%encodeInt_length & H4%encodeInt_length).
  unfold log_descriptor, slice_descriptor, commonType, fieldType, tooBig.
  autorewrite with zlen.
  assert (zlen (encodeInt tInt) = 1) as -> by done.
  assert (zlen (encodeInt tString) = 1) as -> by done.
  assert (zlen (encodeString (str "Log")) = 4) as -> by done.
  assert (zlen (encodeString (str "[]string")) = 9) as -> by done.
  assert (zlen (encodeString (str "LSN")) = 4) as -> by done.
  assert (zlen (encodeString (str "CommandID")) = 10) as -> by done.
  assert (zlen (encodeString (str "Arguments")) = 10) as -> by done.
  assert (zlen (encodeUint 3) = 1) as -> by done. lia.
Qed.

Lemma decodeFields_step fuel fieldnum delta s l0 :
  in_uint64 delta →
  decodeFields (S fuel) fieldnum (encodeUint delta ++ s) l0 =
    if delta =? 0 then Ok (l0, s)
    else
      let n := fieldnum + delta in
      if 3 <=? n then Err (EGob GobBadData)
      else if n =? 0 then
        let? (v, s2) := nextInt s in
        decodeFields fuel n s2
          {| LSN := v; CommandID := CommandID l0; Arguments := Arguments l0 |}
      else if n =? 1 then
        let? (v, s2) := nextInt s in
        decodeFields fuel n s2
          {| LSN := LSN l0; CommandID := v; Arguments := Arguments l0 |}
      else
        let? (v, s2) := nextStrings s in
        decodeFields fuel n s2
          {| LSN := LSN l0; CommandID := CommandID l0; Arguments := v |}.
Proof.
  intros Hd. cbn [decodeFields]. rewrite bool_decide_eq_false_2.
  - unfold nextUint. by rewrite decodeUint_encodeUint by done.
  - destruct (encodeUint_nonempty delta) as (b & t & ->). done.
Qed.

Lemma args_small l : wf_log l → Forall (λ x : bytes, zlen x < 2 ^ 64) (Arguments l).
Proof.
  intros (_ & _ & Hm & _). apply Forall_forall. intros x Hx%list_elem_of_In.
  apply list_elem_of_In in Hx.
  assert (zlen x ≤ zlen (value_message l)).
  { unfold value_message, encodeFields. rewrite bool_decide_eq_true_2 with (P := Arguments l ≠ []);
      [|intros E; rewrite E in Hx; by apply not_elem_of_nil in Hx].
    autorewrite with zlen. unfold encodeStrings. rewrite zlen_app.
    assert (zlen x ≤ zlen (mjoin (encodeString <$> Arguments l))).
    { induction (Arguments l) as [|y ys IH]; [by apply not_elem_of_nil in Hx|].
      rewrite fmap_cons. change (mjoin (?a :: ?b)) with (a ++ mjoin b).
      rewrite zlen_app. unfold encodeString at 1. rewrite zlen_app.
      pose proof (zlen_nonneg (encodeUint (zlen y))). pose proof (zlen_nonneg y).
      pose proof (zlen_nonneg (mjoin (encodeString <$> ys))).
      apply elem_of_cons in Hx as [->|Hx]; [lia|]. specialize (IH Hx). lia. }
    repeat match goal with |- context [zlen ?t] =>
      lazymatch goal with H : 0 ≤ zlen t |- _ => fail | _ => pose proof (zlen_nonneg t) end end.
    lia. }
  unfold tooBig in Hm. lia.
Qed.

(** The fields of a record are decoded back, whatever the target held. *)
Lemma decodeFields_encodeFields l l0 : wf_log l →
  decodeFields 4 (-1) (encodeFields l) l0 = Ok (merge_log l0 l, []).
Proof.
  intros Hwf. pose proof (args_small l Hwf) as Hargs. destruct Hwf as (H1 & H2 & H3 & H4).
  assert (∀ z, 0 ≤ z ≤ 3 → in_uint64 z) as Hu by (unfold in_uint64; lia).
  unfold encodeFields, merge_log.
  repeat case_bool_decide; rewrite <- ?app_assoc, ?app_nil_l, ?decodeFields_step by (apply Hu; lia);
    simpl; rewrite ?nextInt_encodeInt by done; simpl;
    rewrite <- ?app_assoc, ?app_nil_l, ?decodeFields_step by (apply Hu; lia);
    simpl; rewrite ?nextInt_encodeInt, ?nextStrings_encodeStrings by done; simpl;
    rewrite <- ?app_assoc, ?app_nil_l, ?decodeFields_step by (apply Hu; lia);
    simpl; rewrite ?nextStrings_encodeStrings by done; destruct l0; done.
Qed.

Lemma merge_zero l : merge_log zero_log l = l.
Proof.
  destruct l as [a b c]. unfold merge_log. simpl.
  repeat case_bool_decide; f_equal; try done;
    match goal with H : ¬ _ |- _ => apply dec_stable in H; done end.
Qed.

(** A decoder that has received both descriptors. *)
Definition ready (s : bytes) : Decoder := {| seen := [slice_id; log_id]; input := s |}.

Lemma decode_value_descriptors fuel s l0 :
  decode_value (S (S fuel)) true [] (descriptors ++ s) l0 =
  decode_value fuel false [slice_id; log_id] s l0.
Proof.
  destruct descriptor_sizes as [Hs1 Hs2]. destruct type_id_int64 as (_ & _ & H3 & H4).
  pose proof log_id_range as R1. pose proof slice_id_range as R2.
  unfold descriptors. rewrite <- app_assoc.
  cbn [decode_value]. rewrite recvMessage_frame, nextInt_encodeInt by done. simpl.
  destruct (- log_id <? 0) eqn:E1; zbool; [|lia]. unfold recvType at 1.
  rewrite Z.opp_involutive. destruct (log_id <? 64) eqn:E2; zbool; [lia|].
  rewrite bool_decide_eq_false_2 by (by apply not_elem_of_nil). simpl.
  rewrite bool_decide_eq_true_2 by done. simpl.
  rewrite recvMessage_frame, nextInt_encodeInt by done. simpl.
  destruct (- slice_id <? 0) eqn:E3; zbool; [|lia]. unfold recvType at 1.
  rewrite Z.opp_involutive. destruct (slice_id <? 64) eqn:E4; zbool; [lia|].
  pose proof type_ids_distinct.
  rewrite bool_decide_eq_false_2 by (rewrite list_elem_of_singleton; congruence). simpl.
  rewrite bool_decide_eq_false_2 by naive_solver.
  by rewrite bool_decide_eq_true_2.
Qed.

Lemma decode_value_value fuel first s l l0 : wf_log l →
  decode_value (S fuel) first [slice_id; log_id] (frame (value_message l) ++ s) l0 =
  Ok (merge_log l0 l, ready s).
Proof.
  intros Hwf. cbn [decode_value]. rewrite recvMessage_frame by apply Hwf.
  unfold value_message. rewrite nextInt_encodeInt by apply type_id_int64. simpl.
  pose proof log_id_range. destruct (log_id <? 0) eqn:E; zbool; [lia|].
  rewrite bool_decide_eq_true_2 by (split; [done|]; set_solver).
  change (res_bind (decodeFields 4 (-1) (encodeFields l) l0)
    (λ '(l', _), Ok (l', ready s)) = Ok (merge_log l0 l, ready s)).
  by rewrite decodeFields_encodeFields.
Qed.

(** A second descriptor of [Log] in the same stream is refused. *)
Lemma decode_value_duplicate fuel first s l0 :
  decode_value (S fuel) first [slice_id; log_id] (frame (encodeInt (- log_id) ++ log_descriptor) ++ s) l0 =
  Err (EGob GobDuplicateType).
Proof.
  destruct descriptor_sizes as [Hs1 _]. destruct type_id_int64 as (_ & _ & H3 & _).
  pose proof log_id_range as R1.
  cbn [decode_value]. rewrite recvMessage_frame, nextInt_encodeInt by done. simpl.
  destruct (- log_id <? 0) eqn:E1; zbool; [|lia]. unfold recvType.
  rewrite Z.opp_involutive, (bool_decide_eq_true_2 (log_id ∈ _)) by set_solver.
  by rewrite orb_true_r.
Qed.

Lemma DecodeFrom_ready s l l0 : wf_log l →
  DecodeFrom l0 (ready (frame (value_message l) ++ s)) = Ok (merge_log l0 l, ready s).
Proof. intros. by apply decode_value_value. Qed.

Lemma length_descriptors : (2 ≤ length descriptors)%nat.
Proof.
  unfold descriptors. rewrite length_app.
  pose proof (length_frame (encodeInt (- log_id) ++ log_descriptor)).
  pose proof (length_frame (encodeInt (- slice_id) ++ slice_descriptor)). lia.
Qed.

Lemma DecodeFrom_new s l l0 : wf_log l →
  DecodeFrom l0 (NewDecoder (descriptors ++ frame (value_message l) ++ s)) =
  Ok (merge_log l0 l, ready s).
Proof.
  intros Hwf. unfold DecodeFrom. cbn [input seen NewDecoder]. rewrite length_app.
  pose proof length_descriptors as Hd.
  destruct (length descriptors) as [|[|n]]; [lia|lia|].
  rewrite !Nat.add_succ_l, decode_value_descriptors.
  by apply decode_value_value.
Qed.

Lemma decode_loop_values ls : ∀ fuel s acc, Forall wf_log ls →
  decode_loop (length ls + fuel) (ready (values ls ++ s)) acc =
  decode_loop fuel (ready s) (acc ++ ls).
Proof.
  induction ls as [|l ls IH]; intros fuel s acc Hwf; simpl.
  - by rewrite app_nil_r.
  - apply Forall_cons in Hwf as [Hl Hls].
    change (values (l :: ls)) with (frame (value_message l) ++ values ls).
    rewrite <- app_assoc, DecodeFrom_ready by done. rewrite merge_zero, IH by done.
    by rewrite <- app_assoc.
Qed.

Lemma decode_loop_stream ls fuel s : ls ≠ [] → Forall wf_log ls →
  decode_loop (length ls + fuel) (NewDecoder (stream ls ++ s)) [] =
  decode_loop fuel (ready s) ls.
Proof.
  intros Hne Hwf. destruct ls as [|l ls]; [done|]. apply Forall_cons in Hwf as [Hl Hls].
  simpl length. cbn [Nat.add decode_loop].
  change (stream (l :: ls)) with (descriptors ++ frame (value_message l) ++ values ls).
  rewrite <- !app_assoc, DecodeFrom_new by done. rewrite merge_zero.
  by rewrite decode_loop_values.
Qed.

Lemma length_values ls : (length ls ≤ length (values ls))%nat.
Proof.
  induction ls as [|l ls IH]; [done|].
  change (values (l :: ls)) with (frame (value_message l) ++ values ls).
  rewrite length_app. pose proof (length_frame (value_message l)). simpl. lia.
Qed.

Lemma length_stream ls : (length ls ≤ length (stream ls))%nat.
Proof.
  destruct ls as [|l ls]; [done|]. unfold stream. rewrite length_app.
  pose proof (length_values (l :: ls)). lia.
Qed.

(** Enough rounds to read a stream and one more outcome. *)
Lemma decode_all_stream ls s : ls ≠ [] → Forall wf_log ls →
  ∃ fuel, (length s < fuel)%nat ∧
    decode_all (stream ls ++ s) = decode_loop fuel (ready s) ls.
Proof.
  intros Hne Hwf. unfold decode_all.
  pose proof (length_stream ls). exists (S (length (stream ls ++ s)) - length ls)%nat.
  rewrite length_app. split; [lia|].
  rewrite <- decode_loop_stream by done. f_equal. lia.
Qed.

Lemma decode_loop_end fuel ls : (0 < fuel)%nat → decode_loop fuel (ready []) ls = (ls, None).
Proof. intros. destruct fuel; [lia|done]. Qed.

(** A record is not much longer than its arguments. *)
Lemma encodeStrings_length ss : zlen ss < 2 ^ 32 → zlen (mjoin ss) < 2 ^ 32 →
  zlen (encodeStrings ss) ≤ 9 + 9 * zlen ss + zlen (mjoin ss).
Proof.
  intros Hn Hj. unfold encodeStrings. rewrite zlen_app. pose proof (zlen_nonneg ss).
  pose proof (encodeUint_length (zlen ss)) as Hu. unfold in_uint64 in Hu.
  assert (zlen (mjoin (encodeString <$> ss)) ≤ 9 * zlen ss + zlen (mjoin ss)) as Hs; [|lia].
  clear Hn Hu. induction ss as [|s ss IH]; [done|].
  rewrite fmap_cons. change (mjoin (encodeString s :: (encodeString <$> ss)))
    with (encodeString s ++ mjoin (encodeString <$> ss)).
  change (mjoin (s :: ss)) with (s ++ mjoin ss) in *. unfold encodeString at 1.
  rewrite !zlen_app, zlen_cons in *. pose proof (zlen_nonneg s). pose proof (zlen_nonneg (mjoin ss)).
  pose proof (zlen_nonneg ss).
  pose proof (encodeUint_length (zlen s)) as Hu. unfold in_uint64 in Hu. lia.
Qed.

Lemma value_message_length l : in_int64 (LSN l) → in_int64 (CommandID l) →
  zlen (Arguments l) < 2 ^ 32 → zlen (mjoin (Arguments l)) < 2 ^ 32 →
  zlen (value_message l) ≤ 64 + 9 * zlen (Arguments l) + zlen (mjoin (Arguments l)).
Proof.
  intros Hl Hc Hn Hj. unfold value_message, encodeFields. rewrite !zlen_app.
  pose proof (encodeInt_length log_id) as H0. pose proof (encodeInt_length _ Hl) as H1.
  pose proof (encodeInt_length _ Hc) as H2. pose proof (encodeStrings_length _ Hn Hj) as H3.
  pose proof log_id_range. unfold in_int64 in H0.
  pose proof (zlen_nonneg (Arguments l)). pose proof (zlen_nonneg (mjoin (Arguments l))).
  assert (∀ x, 1 ≤ x ≤ 3 → zlen (encodeUint x) = 1) as Hu.
  { intros x Hx. unfold encodeUint. destruct (x <? 128) eqn:E; zbool; [by rewrite zlen_cons, zlen_nil|lia]. }
  change (zlen [x00]) with 1.
  repeat case_bool_decide; rewrite ?zlen_app, ?zlen_nil, ?Hu by lia; lia.
Qed.

Lemma EncodeTo_wf l enc : zlen (value_message l) < tooBig →
  EncodeTo l enc = ({| sent := true;
    out := out enc ++ (if sent enc then [] else descriptors) ++ frame (value_message l) |}, None).
Proof. intros H. unfold EncodeTo. destruct (tooBig <? _) eqn:E; zbool; [lia|done]. Qed.

Lemma encode_logs_sent ls : ∀ o, Forall wf_log ls →
  encode_logs ls {| sent := true; out := o |} = ({| sent := true; out := o ++ values ls |}, None).
Proof.
  induction ls as [|l ls IH]; intros o Hwf; simpl.
  - by rewrite app_nil_r.
  - apply Forall_cons in Hwf as [Hl Hls]. rewrite EncodeTo_wf by apply Hl. simpl.
    rewrite IH by done. by rewrite <- app_assoc.
Qed.

(** An encoder's output is the stream of the records it was given. *)
Lemma encode_logs_stream ls : Forall wf_log ls →
  ∃ enc, encode_logs ls NewEncoder = (enc, None) ∧ out enc = stream ls.
Proof.
  intros Hwf. destruct ls as [|l ls]; [by eexists|]. apply Forall_cons in Hwf as [Hl Hls].
  simpl. rewrite EncodeTo_wf by apply Hl. simpl. rewrite encode_logs_sent by done.
  eexists. split; [done|]. simpl. by rewrite <- app_assoc.
Qed.

(** Truncated streams. *)

Lemma decode_value_truncated fuel first known p q m l0 :
  zlen m < tooBig → frame m = p ++ q → q ≠ [] →
  decode_value (S fuel) first known p l0 =
    Err (EGob (if first && bool_decide (p = []) then GobEOF else GobUnexpectedEOF)).
Proof.
  intros Hm Hf Hq. cbn [decode_value]. rewrite (recvMessage_prefix _ _ _ Hm Hf Hq).
  case_bool_decide; by destruct first.
Qed.

Lemma decode_loop_values_prefix ls : ∀ p q fuel acc,
  Forall wf_log ls → values ls = p ++ q → (length p < fuel)%nat →
  ∃ k e, decode_loop fuel (ready p) acc = (acc ++ take k ls, e) ∧
    ((e = None ∧ p = values (take k ls)) ∨ e = Some (EGob GobUnexpectedEOF)).
Proof.
  induction ls as [|l ls IH]; intros p q fuel acc Hwf Hv Hfuel.
  - symmetry in Hv. apply app_eq_nil in Hv as [-> ->]. exists 0%nat, None.
    rewrite decode_loop_end, app_nil_r by (simpl in *; lia). auto.
  - apply Forall_cons in Hwf as [Hl Hls]. destruct fuel as [|fuel]; [lia|].
    change (values (l :: ls)) with (frame (value_message l) ++ values ls) in Hv.
    apply app_cut in Hv as [(k & Hk & Hf)|(p' & -> & Hp')].
    + exists 0%nat. cbn [decode_loop]. unfold DecodeFrom. cbn [ready input seen].
      rewrite (decode_value_truncated _ _ _ _ _ _ _ (proj1 (proj2 (proj2 Hl))) Hf Hk).
      rewrite app_nil_r. simpl. case_bool_decide; eauto.
    + cbn [decode_loop]. rewrite DecodeFrom_ready, merge_zero by done.
      rewrite length_app in Hfuel. pose proof (length_frame (value_message l)).
      destruct (IH p' q fuel (acc ++ [l]) Hls Hp') as (k & e & Hd & He); [lia|].
      exists (S k), e. rewrite Hd, <- app_assoc. split; [done|].
      destruct He as [[-> ->]| ->]; [|by right]. by left.
Qed.

Lemma decode_value_descriptors_prefix fuel p q l0 :
  descriptors = p ++ q → q ≠ [] → p ≠ [] →
  decode_value (S (S fuel)) true [] p l0 = Err (EGob GobUnexpectedEOF).
Proof.
  intros Hd Hq Hp. destruct descriptor_sizes as [Hs1 Hs2].
  destruct type_id_int64 as (_ & _ & H3 & _). pose proof log_id_range as R1.
  unfold descriptors in Hd.
  apply app_cut in Hd as [(k & Hk & Hf)|(p' & -> & Hp')].
  - rewrite (decode_value_truncated _ _ _ _ _ _ _ Hs1 Hf Hk).
    by rewrite bool_decide_eq_false_2.
  - cbn [decode_value]. rewrite recvMessage_frame, nextInt_encodeInt by done. simpl.
    destruct (- log_id <? 0) eqn:E1; zbool; [|lia]. unfold recvType.
    rewrite Z.opp_involutive. destruct (log_id <? 64) eqn:E2; zbool; [lia|].
    rewrite bool_decide_eq_false_2 by (by apply not_elem_of_nil). simpl.
    rewrite bool_decide_eq_true_2 by done. simpl.
    rewrite (recvMessage_prefix _ _ _ Hs2 Hp' Hq). by case_bool_decide.
Qed.

Lemma DecodeFrom_truncated p q : p ≠ [] → q ≠ [] → ∀ l ls,
  wf_log l → stream (l :: ls) = p ++ q →
  DecodeFrom zero_log (NewDecoder p) = Err (EGob GobUnexpectedEOF) ∨
  ∃ p', p = descriptors ++ frame (value_message l) ++ p' ∧ values ls = p' ++ q.
Proof.
  intros Hp Hq l ls Hl Hs. unfold DecodeFrom. cbn [NewDecoder input seen].
  destruct (length p) as [|n] eqn:En; [by destruct p|].
  change (stream (l :: ls)) with (descriptors ++ frame (value_message l) ++ values ls) in Hs.
  apply app_cut in Hs as [(k & Hk & Hf)|(p1 & -> & Hs)].
  - left. by eapply decode_value_descriptors_prefix.
  - apply app_cut in Hs as [(k & Hk & Hf)|(p' & -> & Hp')].
    + left. rewrite decode_value_descriptors.
      rewrite length_app in En. pose proof length_descriptors. destruct n as [|n]; [lia|].
      by rewrite (decode_value_truncated _ _ _ _ _ _ _ (proj1 (proj2 (proj2 Hl))) Hf Hk).
    + right. eauto.
Qed.

(** Fuel: every message takes at least one byte. *)

Lemma recvMessage_shorter s m s' : recvMessage s = Ok (m, s') → (length s' < length s)%nat.
Proof.
  unfold recvMessage, readCount, decodeUint. intros H.
  destruct s as [|b s]; [done|]. simpl in H.
  destruct (bZ b <? 128); simpl in H.
  - repeat case_match; simplify_eq. rewrite length_drop. simpl. lia.
  - destruct (8 <? _)%nat; [done|]. destruct (length s <? _)%nat; [done|]. simpl in H.
    repeat case_match; simplify_eq. rewrite !length_drop. simpl. lia.
Qed.

Lemma decode_value_fuel f1 : ∀ f2 first known s l, (length s < f1)%nat → (length s < f2)%nat →
  decode_value f1 first known s l = decode_value f2 first known s l.
Proof.
  induction f1 as [|f1 IH]; intros [|f2] first known s l H1 H2; try lia. cbn [decode_value].
  destruct (recvMessage s) as [[m s']|e] eqn:E; [|done]. apply recvMessage_shorter in E.
  destruct (nextInt m) as [[id body]|e]; [|done]. cbn [res_bind].
  destruct (id <? 0); [|done]. destruct (recvType (- id) body known) as [known'|e]; [|done].
  cbn [res_bind]. apply IH; lia.
Qed.

Lemma decode_value_shorter f : ∀ first known s l l' dec,
  decode_value f first known s l = Ok (l', dec) → (length (input dec) < length s)%nat.
Proof.
  induction f as [|f IH]; intros first known s l l' dec H; [done|]. cbn [decode_value] in H.
  destruct (recvMessage s) as [[m s']|e] eqn:E; [|by repeat case_match].
  apply recvMessage_shorter in E.
  destruct (nextInt m) as [[id body]|e]; [|done]. cbn [res_bind] in H.
  destruct (id <? 0).
  - destruct (recvType (- id) body known) as [known'|e]; [|done]. cbn [res_bind] in H.
    apply IH in H. lia.
  - case_bool_decide; [|done]. destruct (decodeFields _ _ _ _) as [[l1 s1]|e]; [|done].
    cbn [res_bind] in H. by simplify_eq.
Qed.

Lemma decode_loop_fuel f1 : ∀ f2 dec logs, (length (input dec) < f1)%nat → (length (input dec) < f2)%nat →
  decode_loop f1 dec logs = decode_loop f2 dec logs.
Proof.
  induction f1 as [|f1 IH]; intros [|f2] dec logs H1 H2; try lia. cbn [decode_loop].
  destruct (DecodeFrom zero_log dec) as [[record dec']|e] eqn:E; [|done].
  unfold DecodeFrom in E. apply decode_value_shorter in E. apply IH; lia.
Qed.

End codec.

(** ** Properties *)

(** C18: gob round trip: encoding any list of transportable records with one
    encoder succeeds, and decoding the resulting bytes the way recovery does
    returns exactly those records, in order, and reaches the end of the
    stream. *)
Theorem gob_roundtrip {ids : GobTypeIds} (ls : list Log) (Hwf : Forall wf_log ls) :
  ∃ enc, encode_logs ls NewEncoder = (enc, None) ∧ decode_all (out enc) = (ls, None).
Proof.
  destruct (encode_logs_stream ls Hwf) as (enc & He & Hout). exists enc. split; [done|].
  rewrite Hout. destruct (decide (ls = [])) as [->|Hne]; [done|].
  destruct (decode_all_stream ls [] Hne Hwf) as (fuel & Hf & Hd).
  rewrite app_nil_r in Hd. rewrite Hd. apply decode_loop_end. lia.
Qed.

(** C19: the decoding loops of recovery terminate on every input, corrupt data
    included: with any number of rounds above the number of bytes, for the loop
    over records and for the loop over messages alike, the result is the one
    the definitions compute, so none of it is due to running out of fuel. *)
Theorem decode_terminates {ids : GobTypeIds} (data : bytes)
  (known : list Z) (l : Log) (fuel : nat) (Hfuel : (length data < fuel)%nat) :
  decode_loop fuel (NewDecoder data) [] = decode_all data ∧
  decode_value fuel true known data l = DecodeFrom l {| seen := known; input := data |}.
Proof.
  split; [by apply decode_loop_fuel; simpl; lia|]. unfold DecodeFrom. by apply decode_value_fuel; simpl; lia.
Qed.

(** A choice of type ids: the first two the runtime hands out. *)
Program Definition default_ids : GobTypeIds := {| log_id := 64; slice_id := 65 |}.
Solve Obligations with done.

Definition sample_set : Log :=
  {| LSN := 1; CommandID := 1; Arguments := [str "user/1"; str "alice"] |}.
Definition sample_del : Log :=
  {| LSN := 2; CommandID := 2; Arguments := [str "user/1"] |}.

Lemma sample_wf : Forall (@wf_log default_ids) [sample_set; sample_del].
Proof.
  repeat constructor; try (by vm_compute); try (intros H; by vm_compute in H).
Qed.

Lemma gob_roundtrip_witness :
  ∃ enc, @encode_logs default_ids [sample_set; sample_del] NewEncoder = (enc, None) ∧
    @decode_all default_ids (out enc) = ([sample_set; sample_del], None).
Proof. exact (@gob_roundtrip default_ids _ sample_wf). Defined.

Lemma decode_terminates_witness :
  @decode_loop default_ids 50 (NewDecoder [xff; x00; x07]) [] = @decode_all default_ids [xff; x00; x07].
Proof.
  apply (@decode_terminates default_ids [xff; x00; x07] [] zero_log 50).
  apply (bool_decide_unpack _). vm_compute. reflexivity.
Defined.

(** A stream and whatever follows it, up to the first descriptor of a second
    stream or a part of it: the records of the first stream and an error. *)
Lemma decode_all_second {ids : GobTypeIds} (ls : list Log) (s : bytes) (e : gob_error) :
  ls ≠ [] → Forall wf_log ls → e ≠ GobEOF →
  (∀ fuel, decode_value (S fuel) true [slice_id; log_id] s zero_log = Err (EGob e)) →
  decode_all (stream ls ++ s) = (ls, Some (EGob e)).
Proof.
  intros Hne Hwf He Hs. destruct (decode_all_stream ls s Hne Hwf) as (fuel & Hf & ->).
  destruct fuel as [|fuel]; [lia|]. cbn [decode_loop]. unfold DecodeFrom. cbn [ready input seen].
  rewrite Hs. by destruct e.
Qed.

(** Two encoders writing to the same file: a single decoder reads the
    records of the first stream and then fails with "duplicate type received",
    however much data follows. No record of the second or a later stream is
    ever decoded. *)
Theorem gob_second_stream_refused {ids : GobTypeIds} (ls1 ls2 : list Log) (rest : bytes)
  (Hne1 : ls1 ≠ []) (Hne2 : ls2 ≠ []) (Hwf : Forall wf_log ls1) :
  decode_all (stream ls1 ++ stream ls2 ++ rest) = (ls1, Some (EGob GobDuplicateType)).
Proof.
  apply decode_all_second; [done..|]. intros fuel. destruct ls2 as [|l ls2]; [done|].
  unfold stream, descriptors. rewrite <- !app_assoc. apply decode_value_duplicate.
Qed.

(** The same when only the first bytes of the second stream are there. *)
Lemma gob_second_stream_cut {ids : GobTypeIds} (ls1 ls2 : list Log) (p q : bytes) :
  ls1 ≠ [] → Forall wf_log ls1 → stream ls2 = p ++ q → p ≠ [] →
  ∃ e, decode_all (stream ls1 ++ p) = (ls1, Some e).
Proof.
  intros Hne Hwf Hcut Hp. destruct ls2 as [|l ls2]; [by destruct p|].
  unfold stream in Hcut. unfold descriptors in Hcut. rewrite <- !app_assoc in Hcut.
  apply app_cut in Hcut as [(k & Hk & Hf)|(p' & -> & _)]; eexists; (apply decode_all_second; [done..| |]).
  2: { intros fuel. destruct descriptor_sizes as [Hs1 _].
       rewrite (decode_value_truncated _ _ _ _ _ _ _ Hs1 Hf Hk). by rewrite bool_decide_eq_false_2. }
  3: { intros fuel. apply decode_value_duplicate. }
  all: done.
Qed.

Lemma gob_second_stream_refused_witness :
  @decode_all default_ids (@stream default_ids [sample_set] ++ @stream default_ids [sample_del] ++ []) =
    ([sample_set], Some (EGob GobDuplicateType)).
Proof.
  refine (@gob_second_stream_refused default_ids [sample_set] [sample_del] [] _ _ _);
    [discriminate|discriminate|].
  constructor; [exact (Forall_inv sample_wf)|constructor].
Defined.

(** Decoding any truncation of the stream of an encoder. *)
Lemma decode_all_truncated {ids : GobTypeIds} (ls : list Log) (p q : bytes)
  (Hwf : Forall wf_log ls) (Hcut : stream ls = p ++ q) :
  ∃ k e, decode_all p = (take k ls, e) ∧
    ((e = None ∧ p = stream (take k ls)) ∨ e = Some (EGob GobUnexpectedEOF)).
Proof.
  destruct (decide (p = [])) as [->|Hp]; [by exists 0%nat, None; auto|].
  destruct (decide (q = [])) as [->|Hq].
  { rewrite app_nil_r in Hcut. subst p. exists (length ls), None. rewrite firstn_all.
    destruct (decide (ls = [])) as [->|Hne]; [done|].
    destruct (decode_all_stream ls [] Hne Hwf) as (fuel & Hf & Hd).
    rewrite app_nil_r in Hd. rewrite Hd, decode_loop_end by lia. auto. }
  destruct ls as [|l ls]; [by destruct p|]. apply Forall_cons in Hwf as [Hl Hls].
  destruct (DecodeFrom_truncated p q Hp Hq l ls Hl Hcut) as [Hd|(p' & -> & Hp')].
  - exists 0%nat. eexists. unfold decode_all. cbn [decode_loop]. rewrite Hd. eauto.
  - unfold decode_all. cbn [decode_loop].
    rewrite DecodeFrom_new, merge_zero by done. change ([] ++ [l]) with [l].
    destruct (decode_loop_values_prefix ls p' q
      (length (descriptors ++ frame (value_message l) ++ p')) [l] Hls Hp') as (k & e & Hd & He).
    { rewrite !length_app. pose proof length_descriptors. lia. }
    exists (S k), e. rewrite Hd. split; [done|].
    destruct He as [[-> ->]| ->]; [left|by right]. done.
Qed.

(** C20: a torn write is never misread: decoding any truncation of the stream of
    an encoder yields a prefix of the records that were written, and the end
    of the stream is reported as clean only when the cut falls exactly on a
    record boundary; every other cut is an unexpected end of file. *)
Theorem gob_torn_stream {ids : GobTypeIds} (ls : list Log) (p q : bytes)
  (Hwf : Forall wf_log ls) (Hcut : stream ls = p ++ q) :
  ∃ k e, decode_all p = (take k ls, e) ∧
    ((e = None ∧ p = stream (take k ls)) ∨ e = Some (EGob GobUnexpectedEOF)).
Proof. by eapply decode_all_truncated. Qed.

Lemma gob_torn_stream_witness :
  ∃ k e, @decode_all default_ids (take 100 (@stream default_ids [sample_set; sample_del])) =
      (take k [sample_set; sample_del], e) ∧
    ((e = None ∧ take 100 (@stream default_ids [sample_set; sample_del]) =
        @stream default_ids (take k [sample_set; sample_del])) ∨
      e = Some (EGob GobUnexpectedEOF)).
Proof.
  exact (@gob_torn_stream default_ids [sample_set; sample_del]
    (take 100 (@stream default_ids [sample_set; sample_del]))
    (drop 100 (@stream default_ids [sample_set; sample_del]))
    sample_wf (eq_sym (take_drop 100 _))).
Defined.

(** [Log.Decode] after [Log.Encode] restores the record field by field, but
    decodes into the target in place: a field that is zero in the encoded
    record (and so absent from the stream) keeps the value the target had. *)
Theorem log_encode_decode {ids : GobTypeIds} (l target : Log) (Hwf : wf_log l) :
  ∃ data, Encode l [] = (data, None) ∧ Decode target data = Ok (merge_log target l).
Proof.
  unfold Encode. rewrite EncodeTo_wf by apply Hwf. eexists. split; [done|].
  unfold Decode. simpl. rewrite <- (app_nil_r (frame _)), DecodeFrom_new by done. done.
Qed.

Lemma log_encode_decode_example :
  ∃ data, @Encode default_ids {| LSN := 0; CommandID := 2; Arguments := [str "k"] |} [] = (data, None) ∧
    @Decode default_ids sample_set data =
      Ok {| LSN := 1; CommandID := 2; Arguments := [str "k"] |}.
Proof.
  apply (@log_encode_decode default_ids {| LSN := 0; CommandID := 2; Arguments := [str "k"] |} sample_set).
  repeat constructor; try (by vm_compute); intros H; by vm_compute in H.
Defined.
