(* ===== verification/OS.v ===== *)
(** * The operating system: paths, files and faults

    What the service uses of [os] and [path/filepath]: lexical path handling
    on Unix, and a file tree with append-only file handles. Every system call
    consults the environment, which may make it fail (a failing [Write] may
    leave any prefix of the data behind); the wall clock is also a reading of
    the environment. Nothing is assumed of the environment here: theorems that
    need a fault-free run or a monotone clock say so. *)

From S2P Require Import Prelude GoText.

(** ** Paths *)

Definition slash : byte := x2f.

(** [strings.Split(s, "/")], with the component being read in [cur]. *)
Fixpoint split_slash (cur : bytes) (s : bytes) : list bytes :=
  match s with
  | [] => [cur]
  | b :: s' =>
      if bool_decide (b = slash) then cur :: split_slash [] s'
      else split_slash (cur ++ [b]) s'
  end.

Fixpoint join_slash (cs : list bytes) : bytes :=
  match cs with
  | [] => []
  | [c] => c
  | c :: cs' => c ++ slash :: join_slash cs'
  end.

(** [filepath.IsAbs]. *)
Definition IsAbs (p : bytes) : bool :=
  match p with b :: _ => bool_decide (b = slash) | [] => false end.

(** One component of a path, applied to the components so far: an empty
    component and [.] are dropped, [..] removes the previous component. *)
Definition path_step (rooted : bool) (acc : list bytes) (c : bytes) : list bytes :=
  if bool_decide (c = [] ∨ c = str ".") then acc
  else if bool_decide (c = str "..") then
    match last acc with
    | Some x => if bool_decide (x = str "..") then acc ++ [c] else removelast acc
    | None => if rooted then [] else [c]
    end
  else acc ++ [c].

(** [filepath.Clean]. *)
Definition Clean (p : bytes) : bytes :=
  if bool_decide (p = []) then str "."
  else
    let cs := foldl (path_step (IsAbs p)) [] (split_slash [] p) in
    if IsAbs p then slash :: join_slash cs
    else if bool_decide (cs = []) then str "." else join_slash cs.

(** [filepath.Join] of two elements. *)
Definition Join (a b : bytes) : bytes :=
  if bool_decide (a = []) then if bool_decide (b = []) then [] else Clean b
  else Clean (a ++ slash :: b).

(** ** The file tree *)

(** A resolved absolute path is the list of its components from the root. *)
Abbreviation path := (list bytes).

Inductive node := NFile (data : bytes) | NDir.

#[global] Instance node_eq_dec : EqDecision node.
Proof. solve_decision. Defined.

(** An [*os.File]; the service only writes through handles opened for
    appending. *)
Record handle := { h_path : path; h_open : bool }.

Record world := {
  fs : gmap path node;
  handles : list handle;
  calls : nat;   (** system calls made so far *)
  ticks : nat    (** clock readings taken so far *)
}.

Inductive fault := NoFault | Fault (written : nat).

(** The system calls the service makes. *)
Inductive sys_call :=
  | SysCreate | SysOpenAppend | SysWrite | SysSync | SysClose | SysStat
  | SysOpen | SysRead | SysReadDir | SysMkdirAll | SysGetwd.

Class Env := {
  env_fault : sys_call → nat → fault;   (** what happens to the n-th system call *)
  env_clock : nat → Z;       (** the n-th reading of the clock, in nanoseconds *)
  env_wd : bytes             (** the working directory *)
}.

Section os.
Context {env : Env}.

Definition with_fs (w : world) (f : gmap path node) : world :=
  {| fs := f; handles := handles w; calls := calls w; ticks := ticks w |}.

Definition with_handles (w : world) (hs : list handle) : world :=
  {| fs := fs w; handles := hs; calls := calls w; ticks := ticks w |}.

(** Entering the kernel: the fault of this call and the world after it. *)
Definition syscall (c : sys_call) (w : world) : fault * world :=
  (env_fault c (calls w),
   {| fs := fs w; handles := handles w; calls := S (calls w); ticks := ticks w |}).

(** [time.Now().UnixNano()]. *)
Definition UnixNano (w : world) : Z * world :=
  (env_clock (ticks w),
   {| fs := fs w; handles := handles w; calls := calls w; ticks := S (ticks w) |}).

(** Lexical resolution of a path; there are no symbolic links. *)
Definition resolve (p : bytes) : path :=
  if IsAbs p then foldl (path_step true) [] (split_slash [] p)
  else foldl (path_step true) (foldl (path_step true) [] (split_slash [] env_wd))
         (split_slash [] p).

(** The root directory always exists. *)
Definition is_dir (w : world) (p : path) : bool :=
  bool_decide (p = []) ||
  match fs w !! p with Some NDir => true | _ => false end.

Definition new_handle (p : path) (w : world) : res nat * world :=
  (Ok (length (handles w)),
   with_handles w (handles w ++ [{| h_path := p; h_open := true |}])).

(** [os.OpenFile(p, O_CREATE|O_EXCL|O_WRONLY|O_APPEND, 0o600)]. *)
Definition os_create (p : bytes) (w : world) : res nat * world :=
  let '(flt, w1) := syscall SysCreate w in
  let k := resolve p in
  match flt with
  | Fault _ => (Err (EOS EIO), w1)
  | NoFault =>
      if negb (is_dir w1 (removelast k)) then (Err (EOS ENOENT), w1)
      else match fs w1 !! k with
           | Some _ => (Err (EOS EEXIST), w1)
           | None => if bool_decide (k = []) then (Err (EOS EEXIST), w1)
                     else new_handle k (with_fs w1 (<[k := NFile []]> (fs w1)))
           end
  end.

(** [os.OpenFile(p, O_WRONLY|O_APPEND, 0)]. *)
Definition os_open_append (p : bytes) (w : world) : res nat * world :=
  let '(flt, w1) := syscall SysOpenAppend w in
  match flt, fs w1 !! resolve p with
  | Fault _, _ => (Err (EOS EIO), w1)
  | NoFault, Some (NFile _) => new_handle (resolve p) w1
  | NoFault, Some NDir => (Err (EOS EISDIR), w1)
  | NoFault, None => (Err (EOS ENOENT), w1)
  end.

(** [file.Write(data)]: appends; a failing write may leave a prefix. *)
Definition append_file (p : path) (data : bytes) (f : gmap path node) : gmap path node :=
  match f !! p with
  | Some (NFile d) => <[p := NFile (d ++ data)]> f
  | _ => f
  end.

Definition os_write (h : nat) (data : bytes) (w : world) : res Z * world :=
  match handles w !! h with
  | Some {| h_path := p; h_open := true |} =>
      let '(flt, w1) := syscall SysWrite w in
      match flt with
      | NoFault => (Ok (zlen data), with_fs w1 (append_file p data (fs w1)))
      | Fault n => (Err (EOS EIO), with_fs w1 (append_file p (take n data) (fs w1)))
      end
  | _ => (Err (EOS EClosed), w)
  end.

(** [file.Sync()]. *)
Definition os_sync (h : nat) (w : world) : error * world :=
  match handles w !! h with
  | Some {| h_open := true |} =>
      let '(flt, w1) := syscall SysSync w in
      (match flt with NoFault => None | Fault _ => Some (EOS EIO) end, w1)
  | _ => (Some (EOS EClosed), w)
  end.

(** [file.Close()]: the handle is unusable afterwards, also when the call
    reports an error. *)
Definition os_close (h : nat) (w : world) : error * world :=
  match handles w !! h with
  | Some {| h_path := p; h_open := true |} =>
      let '(flt, w1) := syscall SysClose w in
      (match flt with NoFault => None | Fault _ => Some (EOS EIO) end,
       with_handles w1 (<[h := {| h_path := p; h_open := false |}]> (handles w1)))
  | _ => (Some (EOS EClosed), w)
  end.

Definition file_size (w : world) (p : path) : Z :=
  match fs w !! p with Some (NFile d) => zlen d | _ => 0 end.

(** [file.Stat()], of which only the size is used. *)
Definition os_stat (h : nat) (w : world) : res Z * world :=
  match handles w !! h with
  | Some {| h_path := p; h_open := true |} =>
      let '(flt, w1) := syscall SysStat w in
      (match flt with NoFault => Ok (file_size w1 p) | Fault _ => Err (EOS EIO) end, w1)
  | _ => (Err (EOS EClosed), w)
  end.

(** Opening a path for reading ([os.Open]); the descriptor itself is not
    used by the service. *)
Definition os_open (p : bytes) (w : world) : error * world :=
  let '(flt, w1) := syscall SysOpen w in
  match flt, fs w1 !! resolve p with
  | Fault _, _ => (Some (EOS EIO), w1)
  | NoFault, Some _ => (None, w1)
  | NoFault, None => (if bool_decide (resolve p = []) then None else Some (EOS ENOENT), w1)
  end.

(** [os.ReadFile]. *)
Definition os_read_file (p : bytes) (w : world) : res bytes * world :=
  let '(flt, w1) := syscall SysRead w in
  match flt, fs w1 !! resolve p with
  | Fault _, _ => (Err (EOS EIO), w1)
  | NoFault, Some (NFile d) => (Ok d, w1)
  | NoFault, Some NDir => (Err (EOS EISDIR), w1)
  | NoFault, None => (Err (EOS ENOENT), w1)
  end.

(** The entries of a directory: name and whether it is a directory. *)
Definition dir_entry (d : path) (e : path * node) : option (bytes * bool) :=
  if bool_decide (e.1 ≠ [] ∧ removelast e.1 = d)
  then Some (List.last e.1 [], match e.2 with NDir => true | NFile _ => false end)
  else None.

Definition dir_entries (d : path) (f : gmap path node) : list (bytes * bool) :=
  omap (dir_entry d) (map_to_list f).

Definition entry_le (a b : bytes * bool) : Prop := bytes_le a.1 b.1.

#[global] Instance entry_le_dec a b : Decision (entry_le a b).
Proof. unfold entry_le. apply _. Defined.

(** [os.ReadDir]: the entries sorted by name. *)
Definition os_read_dir (p : bytes) (w : world) : res (list (bytes * bool)) * world :=
  let '(flt, w1) := syscall SysReadDir w in
  match flt with
  | Fault _ => (Err (EOS EIO), w1)
  | NoFault =>
      if is_dir w1 (resolve p)
      then (Ok (merge_sort entry_le (dir_entries (resolve p) (fs w1))), w1)
      else (Err (EOS ENOENT), w1)
  end.

(** [os.MkdirAll]: creates the missing directories from the root down. *)
Fixpoint mkdirs (pre : path) (cs : list bytes) (f : gmap path node) : option (gmap path node) :=
  match cs with
  | [] => Some f
  | c :: cs' =>
      let k := pre ++ [c] in
      match f !! k with
      | Some NDir => mkdirs k cs' f
      | Some (NFile _) => None
      | None => mkdirs k cs' (<[k := NDir]> f)
      end
  end.

Definition os_mkdir_all (p : bytes) (w : world) : error * world :=
  let '(flt, w1) := syscall SysMkdirAll w in
  match flt with
  | Fault _ => (Some (EOS EIO), w1)
  | NoFault =>
      match mkdirs [] (resolve p) (fs w1) with
      | Some f => (None, with_fs w1 f)
      | None => (Some (EOS ENOTDIR), w1)
      end
  end.

(** [os.Getwd]. *)
Definition os_getwd (w : world) : res bytes * world :=
  let '(flt, w1) := syscall SysGetwd w in
  (match flt with NoFault => Ok env_wd | Fault _ => Err (EOS EIO) end, w1).

End os.

(** ** Lemmas on paths *)

Definition no_slash (c : bytes) : Prop := Forall (λ b, b ≠ slash) c.

(** A file name proper. *)
Definition plain (c : bytes) : Prop := no_slash c ∧ c ≠ [] ∧ c ≠ str "." ∧ c ≠ str "..".

Lemma split_slash_no_slash c : no_slash c → ∀ cur s,
  split_slash cur (c ++ s) = split_slash (cur ++ c) s.
Proof.
  induction 1 as [|b c Hb Hc IH]; intros cur s; simpl.
  - by rewrite app_nil_r.
  - rewrite bool_decide_eq_false_2, IH by done. by rewrite <- app_assoc.
Qed.

Lemma split_slash_plain c cur : no_slash c → split_slash cur c = [cur ++ c].
Proof. intros H. rewrite <- (app_nil_r c) at 1. by rewrite split_slash_no_slash. Qed.

Lemma split_slash_slash s cur : split_slash cur (slash :: s) = cur :: split_slash [] s.
Proof. done. Qed.

Lemma split_slash_app p c : ∀ cur, no_slash c →
  split_slash cur (p ++ slash :: c) = split_slash cur p ++ [c].
Proof.
  induction p as [|b p IH]; intros cur Hc.
  - rewrite app_nil_l, split_slash_slash. by rewrite split_slash_plain.
  - simpl. case_bool_decide; by rewrite IH.
Qed.

Lemma split_slash_join cs : cs ≠ [] → Forall no_slash cs → split_slash [] (join_slash cs) = cs.
Proof.
  intros Hne Hcs. induction Hcs as [|c cs Hc Hcs IH]; [done|].
  destruct cs as [|c' cs].
  - simpl. by rewrite split_slash_plain.
  - change (join_slash (c :: c' :: cs)) with (c ++ slash :: join_slash (c' :: cs)).
    rewrite split_slash_no_slash, split_slash_slash by done. simpl app. by rewrite IH.
Qed.

Lemma split_slash_all_no_slash s : ∀ cur, no_slash cur → Forall no_slash (split_slash cur s).
Proof.
  induction s as [|b s IH]; intros cur Hc; simpl; [by constructor|].
  case_bool_decide.
  - constructor; [done|]. apply IH. constructor.
  - apply IH. apply Forall_app. split; [done|]. by constructor.
Qed.

Lemma path_step_plain acc c : plain c → path_step true acc c = acc ++ [c].
Proof.
  intros (_ & H1 & H2 & H3). unfold path_step.
  rewrite bool_decide_eq_false_2 by naive_solver. by rewrite bool_decide_eq_false_2.
Qed.

Lemma path_fold_plain cs : Forall plain cs → ∀ acc, foldl (path_step true) acc cs = acc ++ cs.
Proof.
  induction 1 as [|c cs Hc Hcs IH]; intros acc; simpl; [by rewrite app_nil_r|].
  rewrite path_step_plain, IH by done. by rewrite <- app_assoc.
Qed.

Lemma path_step_all_plain acc c : Forall plain acc → no_slash c → Forall plain (path_step true acc c).
Proof.
  intros Hacc Hc. unfold path_step. case_bool_decide as H1; [done|].
  case_bool_decide as H2.
  - destruct acc as [|x acc _] using rev_ind; [done|]. rewrite last_snoc.
    apply Forall_app in Hacc as [Hacc [Hx _]%Forall_cons].
    rewrite bool_decide_eq_false_2 by apply Hx. by rewrite removelast_last.
  - apply Forall_app. split; [done|]. constructor; [|done]. unfold plain. naive_solver.
Qed.

Lemma path_fold_all_plain cs : Forall no_slash cs → ∀ acc, Forall plain acc →
  Forall plain (foldl (path_step true) acc cs).
Proof.
  induction 1 as [|c cs Hc Hcs IH]; intros acc Hacc; simpl; [done|].
  apply IH. by apply path_step_all_plain.
Qed.

Section paths.
Context {env : Env}.

Lemma resolve_abs p : IsAbs p = true → resolve p = foldl (path_step true) [] (split_slash [] p).
Proof. intros H. unfold resolve. by rewrite H. Qed.

Lemma resolve_plain p : IsAbs p = true → Forall plain (resolve p).
Proof.
  intros H. rewrite resolve_abs by done.
  apply path_fold_all_plain; [|done]. apply split_slash_all_no_slash. constructor.
Qed.

(** The string form of an absolute path with the given components. *)
Definition render (p : path) : bytes := slash :: join_slash p.

Lemma IsAbs_render p : IsAbs (render p) = true.
Proof. done. Qed.

Lemma resolve_render p : Forall plain p → resolve (render p) = p.
Proof.
  intros Hp. rewrite resolve_abs by apply IsAbs_render. unfold render.
  rewrite split_slash_slash. simpl.
  destruct (decide (p = [])) as [->|Hne]; [by vm_compute|].
  rewrite split_slash_join, path_fold_plain; try done.
  eapply Forall_impl; [exact Hp|]. by intros c [? _].
Qed.

Lemma Clean_abs p : IsAbs p = true → Clean p = render (resolve p).
Proof.
  intros H. rewrite resolve_abs by done. unfold Clean. rewrite H.
  rewrite bool_decide_eq_false_2; [done|]. by intros ->.
Qed.

(** Joining a file name to an absolute directory. *)
Lemma Join_abs dir name : IsAbs dir = true → plain name →
  Join dir name = render (resolve dir ++ [name]).
Proof.
  intros Hd Hn. unfold Join. rewrite bool_decide_eq_false_2 by (by intros ->).
  assert (IsAbs (dir ++ slash :: name) = true) as Ha by (by destruct dir).
  rewrite Clean_abs, !resolve_abs by done.
  rewrite split_slash_app, foldl_app by apply Hn. simpl. by rewrite path_step_plain.
Qed.

Lemma resolve_Join dir name : IsAbs dir = true → plain name →
  resolve (Join dir name) = resolve dir ++ [name].
Proof.
  intros Hd Hn. rewrite Join_abs, resolve_render; try done.
  apply Forall_app. split; [by apply resolve_plain|by constructor].
Qed.

End paths.

(** ** Order of paths in one directory *)

Lemma bytes_cmp_app p a b : bytes_cmp (p ++ a) (p ++ b) = bytes_cmp a b.
Proof. induction p; simpl; [done|]. by rewrite Z.compare_refl. Qed.

Lemma bytes_cmp_lt_app a : ∀ b x y, bytes_cmp a b = Lt → length a = length b →
  bytes_cmp (a ++ x) (b ++ y) = Lt.
Proof.
  induction a as [|c a IH]; intros [|d b] x y H Hl; simplify_eq/=.
  destruct (bZ c ?= bZ d); try done. by apply IH.
Qed.

Lemma join_slash_snoc d : ∃ pre, ∀ n, join_slash (d ++ [n]) = pre ++ n.
Proof.
  induction d as [|c d [pre IH]]; [by exists []|].
  exists (c ++ slash :: pre). intros n. specialize (IH n). simpl.
  destruct (d ++ [n]) as [|x l] eqn:Ed; [by destruct d|].
  rewrite IH. by rewrite <- app_assoc.
Qed.

Lemma render_cmp d a b : bytes_cmp (render (d ++ [a])) (render (d ++ [b])) = bytes_cmp a b.
Proof.
  destruct (join_slash_snoc d) as [pre H].
  unfold render. simpl bytes_cmp. rewrite !H. apply bytes_cmp_app.
Qed.

(** ** Lemmas on the file tree *)

(** Files only grow and directories stay: [f'] is a later state of [f]. *)
Definition fs_extends (f f' : gmap path node) : Prop :=
  (∀ p d, f !! p = Some (NFile d) → ∃ d', f' !! p = Some (NFile (d ++ d'))) ∧
  (∀ p, f !! p = Some NDir → f' !! p = Some NDir).

#[global] Instance fs_extends_preorder : PreOrder fs_extends.
Proof.
  split.
  - intros f. split; [|done]. intros p d H. exists []. by rewrite app_nil_r.
  - intros f g h [Hf1 Hf2] [Hg1 Hg2]. split; [|auto]. intros p d H.
    destruct (Hf1 p d H) as [d1 H1]. destruct (Hg1 p _ H1) as [d2 H2].
    exists (d1 ++ d2). by rewrite app_assoc.
Qed.

Lemma fs_extends_append p data f : fs_extends f (append_file p data f).
Proof.
  unfold append_file. destruct (f !! p) as [[d|]|] eqn:E; [|reflexivity..].
  split.
  - intros p' d' H. destruct (decide (p = p')) as [<-|Hne].
    + rewrite E in H. simplify_eq. rewrite lookup_insert_eq. eauto.
    + rewrite lookup_insert_ne by done. exists []. by rewrite app_nil_r.
  - intros p' H. rewrite lookup_insert_ne by congruence. done.
Qed.

Lemma fs_extends_fresh p n f : f !! p = None → fs_extends f (<[p := n]> f).
Proof.
  intros Hp. split; intros p'.
  - intros d H. rewrite lookup_insert_ne by congruence. exists []. by rewrite app_nil_r.
  - intros H. by rewrite lookup_insert_ne by congruence.
Qed.

(** Every open handle refers to a file that exists. *)
Definition handles_ok (w : world) : Prop :=
  ∀ h p, handles w !! h = Some {| h_path := p; h_open := true |} →
    ∃ d, fs w !! p = Some (NFile d).

(** ** Which system calls fail *)

Section faults.
Context {env : Env}.

(** From this state on every system call works. *)
Definition quiet (w : world) : Prop := ∀ c n, (calls w ≤ n)%nat → env_fault c n = NoFault.

Definition fault_free : Prop := ∀ c n, env_fault c n = NoFault.

(** Any call may fail, but a [Write] that fails has written nothing. *)
Definition clean_writes : Prop := ∀ n k, env_fault SysWrite n = Fault k → k = 0%nat.

(** [Stat] and [Sync] never fail. *)
Definition stat_reliable : Prop := ∀ n, env_fault SysStat n = NoFault.
Definition sync_reliable : Prop := ∀ n, env_fault SysSync n = NoFault.

(** Failures of a flush leave no traces. *)
Definition clean_faults : Prop := sync_reliable ∧ clean_writes.

Lemma fault_free_quiet w : fault_free → quiet w.
Proof. intros Hff c n _. apply Hff. Qed.

Lemma fault_free_clean : fault_free → clean_faults.
Proof. intros Hff. split; [intros n; apply Hff|]. intros n k. by rewrite Hff. Qed.

Lemma quiet_mono w w' : (calls w ≤ calls w')%nat → quiet w → quiet w'.
Proof. intros Hle Hq c n Hn. apply Hq. lia. Qed.

(** Operations that only read leave the files, the handles and the clock. *)
Definition same_disk (w w' : world) : Prop :=
  fs w' = fs w ∧ handles w' = handles w ∧ ticks w' = ticks w ∧ (calls w ≤ calls w')%nat.

#[global] Instance same_disk_preorder : PreOrder same_disk.
Proof.
  split; [done|]. intros w1 w2 w3 (? & ? & ? & ?) (? & ? & ? & ?).
  repeat split; congruence || lia.
Qed.

Lemma same_disk_quiet w w' : same_disk w w' → quiet w → quiet w'.
Proof. intros (_ & _ & _ & Hc). by apply quiet_mono. Qed.

End faults.
