(* ===== verification/FileSystem.v ===== *)
(** * Segments on disk

    Models [in_memory/filesystem]: the file helpers of [segment_utils.go], the
    active segment and its rotation ([segment.go]) and the resolution and
    creation of the storage directory ([segments_directory.go]). *)

From S2P Require Import Prelude GoText OS.

(** ** Data *)

(** [filesystem.Segment]; [file] indexes the handle table of the world. *)
Record Segment := {
  file : option nat;
  directory : bytes;
  maskName : bytes;
  segmentSize : Z;
  maxSegmentSize : Z
}.

Definition set_file (seg : Segment) (f : option nat) (size : Z) : Segment :=
  {| file := f; directory := directory seg; maskName := maskName seg;
     segmentSize := size; maxSegmentSize := maxSegmentSize seg |}.

(** [NewSegment]. *)
Definition NewSegment (dir mask : bytes) (max : Z) : Segment :=
  {| file := None; directory := dir; maskName := mask; segmentSize := 0;
     maxSegmentSize := max |}.

Section filesystem.
Context {env : Env}.

(** ** [segment_utils.go] *)

(** The name of a segment created at a given instant:
    [fmt.Sprintf("%s%d.log", maskName, now)]. *)
Definition segment_name (mask : bytes) (now : Z) : bytes :=
  mask ++ FormatInt now ++ str ".log".

Definition CreateFile (dir mask : bytes) (w : world) : res nat * world :=
  let '(now, w1) := UnixNano w in
  os_create (Join dir (segment_name mask now)) w1.

Definition WriteFile (h : nat) (data : bytes) (w : world) : res Z * world :=
  let '(r, w1) := os_write h data w in
  match r with
  | Err e => (Err e, w1)
  | Ok n =>
      let '(err, w2) := os_sync h w1 in
      match err with
      | Some e => (Err e, w2)
      | None => (Ok n, w2)
      end
  end.

Definition ReadFile (p : bytes) (w : world) : res bytes * world :=
  let '(err, w1) := os_open p w in
  match err with
  | Some e => (Err e, w1)
  | None => os_read_file p w1
  end.

(** The paths of the regular files among directory entries. *)
Definition file_paths (dir : bytes) (es : list (bytes * bool)) : list bytes :=
  omap (λ e, if e.2 : bool then None else Some (Join dir e.1)) es.

Definition GetFileList (dir : bytes) (w : world) : res (list bytes) * world :=
  let '(r, w1) := os_read_dir dir w in
  match r with
  | Err e => (Err e, w1)
  | Ok es => (Ok (sort_strings (file_paths dir es)), w1)
  end.

(** ** [segment.go] *)

Definition Segment_CreateFile (seg : Segment) (w : world) : res nat * Segment * world :=
  let '(r, w1) := CreateFile (directory seg) (maskName seg) w in
  match r with
  | Err _ => (Err ErrFailedFileCreate, seg, w1)
  | Ok h => (Ok h, set_file seg (Some h) 0, w1)
  end.

Definition Segment_Read (p : bytes) (w : world) : res bytes * world := ReadFile p w.

Definition Segment_GetList (seg : Segment) (w : world) : res (list bytes) * world :=
  GetFileList (directory seg) w.

(** [getNextSegment]: an error of [Close] is only logged. *)
Definition getNextSegment (seg : Segment) (w : world) : error * Segment * world :=
  let w1 := match file seg with
            | Some h => (os_close h w).2
            | None => w
            end in
  let '(r, w2) := CreateFile (directory seg) (maskName seg) w1 in
  match r with
  | Err e => (Some e, seg, w2)
  | Ok h => (None, set_file seg (Some h) 0, w2)
  end.

(** The condition under which [Write] rotates. *)
Definition must_rotate (seg : Segment) (data : bytes) : bool :=
  (0 <? maxSegmentSize seg) && (0 <? segmentSize seg) &&
  (maxSegmentSize seg <? int64 (segmentSize seg + zlen data)).

(** The last part of [Write]: append to the file that is now current. [Write] has
    created the first file before this point, so there always is one; a nil file
    is refused by [os.File.Write] like a closed one. *)
Definition write_current (seg : Segment) (data : bytes) (w : world) : error * Segment * world :=
  match file seg with
  | None => (Some ErrFailedSaveFile, seg, w)
  | Some h =>
      let '(r, w1) := WriteFile h data w in
      match r with
      | Err _ => (Some ErrFailedSaveFile, seg, w1)
      | Ok n => (None, set_file seg (Some h) (int64 (segmentSize seg + n)), w1)
      end
  end.

Definition rotate_and_write (seg : Segment) (data : bytes) (w : world) : error * Segment * world :=
  if must_rotate seg data then
    let '(err, seg1, w1) := getNextSegment seg w in
    match err with
    | Some e => (Some e, seg1, w1)
    | None => write_current seg1 data w1
    end
  else write_current seg data w.

Definition Segment_Write (seg : Segment) (data : bytes) (w : world) : error * Segment * world :=
  match file seg with
  | None =>
      let '(r, seg1, w1) := Segment_CreateFile seg w in
      match r with
      | Err e => (Some e, seg1, w1)
      | Ok _ => rotate_and_write seg1 data w1
      end
  | Some _ => rotate_and_write seg data w
  end.

Definition SetFile (seg : Segment) (f : option nat) (w : world) : Segment * world :=
  match f with
  | None => (set_file seg None 0, w)
  | Some h =>
      let '(r, w1) := os_stat h w in
      match r with
      | Err _ => (set_file seg (Some h) 0, w1)
      | Ok size => (set_file seg (Some h) size, w1)
      end
  end.

(** ** [segments_directory.go] *)

Definition resolveWalPath (dir : bytes) (w : world) : res bytes * world :=
  let dir' := if bool_decide (dir = []) then Join (str "storage") (str "wal") else dir in
  if IsAbs dir' then (Ok dir', w)
  else
    let '(r, w1) := os_getwd w in
    match r with
    | Err _ => (Err ErrInvalidWorkingFolder, w1)
    | Ok wd => (Ok (Join wd dir'), w1)
    end.

Definition MakeDirectory (dir : bytes) (w : world) : res bytes * world :=
  let '(r, w1) := resolveWalPath dir w in
  match r with
  | Err _ => (Err ErrFailedResolveSegmentPath, w1)
  | Ok p =>
      let '(err, w2) := os_mkdir_all p w1 in
      match err with
      | Some _ => (Err ErrFailedToCreateDirectory, w2)
      | None => (Ok p, w2)
      end
  end.

End filesystem.

(** ** Lemmas: what the helpers do to the world *)

(** The world after some file operations: files only grew, directories stayed,
    open handles still refer to files, and system calls were only added. *)
Definition evolves (w w' : world) : Prop :=
  fs_extends (fs w) (fs w') ∧ (handles_ok w → handles_ok w') ∧ (calls w ≤ calls w')%nat.

#[global] Instance evolves_preorder : PreOrder evolves.
Proof.
  split.
  - intros w. split; [reflexivity|done].
  - intros a b c (H1 & H2 & H3) (H4 & H5 & H6). split; [by etrans|]. split; [auto|lia].
Qed.

Lemma evolves_same w w' : fs w' = fs w → handles w' = handles w → (calls w ≤ calls w')%nat → evolves w w'.
Proof. intros E1 E2 E3. split; [by rewrite E1|]. split; [|done]. unfold handles_ok. by rewrite E1, E2. Qed.

Lemma evolves_append p data w w' :
  fs w' = append_file p data (fs w) → handles w' = handles w → (calls w ≤ calls w')%nat → evolves w w'.
Proof.
  intros E1 E2 E3. split; [rewrite E1; apply fs_extends_append|]. split; [|done].
  intros Hok h q Hq. rewrite E2 in Hq. destruct (Hok h q Hq) as [d Hd].
  rewrite E1. destruct (proj1 (fs_extends_append p data (fs w)) q d Hd) as [d' Hd']. eauto.
Qed.

Lemma evolves_create p w w' :
  fs w !! p = None → fs w' = <[p := NFile []]> (fs w) →
  handles w' = handles w ++ [{| h_path := p; h_open := true |}] → (calls w ≤ calls w')%nat → evolves w w'.
Proof.
  intros Hp E1 E2 E3. split; [rewrite E1; by apply fs_extends_fresh|]. split; [|done].
  intros Hok h q Hq. rewrite E2 in Hq. rewrite E1.
  apply lookup_app_Some in Hq as [Hq|[_ Hq]].
  - destruct (Hok h q Hq) as [d Hd]. exists d. rewrite lookup_insert_ne; [done|congruence].
  - apply list_lookup_singleton_Some in Hq as [_ ?]. simplify_eq.
    rewrite lookup_insert_eq. eauto.
Qed.

#[export] Hint Resolve evolves_same evolves_append : go.

Section facts.
Context {env : Env}.

(** The path of a segment created at the next clock reading. *)
Definition next_path (dir mask : bytes) (w : world) : path :=
  resolve (Join dir (segment_name mask (env_clock (ticks w)))).

Lemma CreateFile_spec dir mask w r w' : CreateFile dir mask w = (r, w') →
  match r with
  | Ok h => fs w !! next_path dir mask w = None ∧
      fs w' = <[next_path dir mask w := NFile []]> (fs w) ∧
      h = length (handles w) ∧
      handles w' = handles w ++ [{| h_path := next_path dir mask w; h_open := true |}]
  | Err _ => fs w' = fs w ∧ handles w' = handles w
  end ∧ ticks w' = S (ticks w) ∧ calls w' = S (calls w).
Proof.
  unfold CreateFile, os_create, new_handle, next_path. simpl. intros H.
  repeat case_match; simplify_eq/=; auto.
Qed.

Lemma CreateFile_evolves dir mask w : evolves w (CreateFile dir mask w).2.
Proof.
  destruct (CreateFile dir mask w) as [r w'] eqn:E. apply CreateFile_spec in E as (E & _ & Hc).
  destruct r as [h|e].
  - destruct E as (H1 & H2 & _ & H3). eapply evolves_create; [done..|simpl; lia].
  - destruct E. apply evolves_same; [done..|simpl; lia].
Qed.

Lemma WriteFile_evolves h data w :
  evolves w (WriteFile h data w).2 ∧ handles (WriteFile h data w).2 = handles w.
Proof.
  unfold WriteFile, os_write, os_sync. simpl.
  repeat case_match; simplify_eq/=; split; try done;
    first [reflexivity|apply evolves_same; [done|done|simpl; lia]
      |eapply evolves_append; [reflexivity|done|simpl; lia]].
Qed.

(** A write that reports success appended exactly the data. *)
Lemma WriteFile_Ok h data w n w' p d : WriteFile h data w = (Ok n, w') →
  handles w !! h = Some {| h_path := p; h_open := true |} →
  fs w !! p = Some (NFile d) →
  n = zlen data ∧ fs w' = <[p := NFile (d ++ data)]> (fs w) ∧ handles w' = handles w.
Proof.
  unfold WriteFile, os_write, os_sync. intros H Hh Hd. rewrite Hh in H. simpl in H.
  unfold append_file in H. rewrite Hd in H.
  repeat case_match; simplify_eq/=; auto.
Qed.

Lemma WriteFile_Ok_open h data w n w' : WriteFile h data w = (Ok n, w') →
  ∃ p, handles w !! h = Some {| h_path := p; h_open := true |}.
Proof.
  unfold WriteFile, os_write. intros H. destruct (handles w !! h) as [[p []]|]; [eauto|done..].
Qed.

Lemma os_close_evolves h w : evolves w (os_close h w).2 ∧ fs (os_close h w).2 = fs w ∧
  ticks (os_close h w).2 = ticks w ∧ length (handles (os_close h w).2) = length (handles w).
Proof.
  unfold os_close. destruct (handles w !! h) as [[p []]|] eqn:E; simpl; [|split; [reflexivity|done]..].
  rewrite length_insert. split; [|done]. split; [reflexivity|]. split; [|simpl; lia].
  intros Hok h' q Hq. simpl in *.
  destruct (decide (h = h')) as [<-|Hne].
  - rewrite list_lookup_insert_eq in Hq; [done|]. by eapply lookup_lt_Some.
  - rewrite list_lookup_insert_ne in Hq by done. by eapply Hok.
Qed.

Lemma getNextSegment_spec seg w err seg' w' : getNextSegment seg w = (err, seg', w') →
  evolves w w' ∧
  match err with
  | Some _ => seg' = seg ∧ fs w' = fs w
  | None => ∃ h, seg' = set_file seg (Some h) 0 ∧
      fs w !! next_path (directory seg) (maskName seg) w = None ∧
      fs w' = <[next_path (directory seg) (maskName seg) w := NFile []]> (fs w) ∧
      handles w' !! h =
        Some {| h_path := next_path (directory seg) (maskName seg) w; h_open := true |}
  end.
Proof.
  unfold getNextSegment. intros H.
  set (w1 := match file seg with Some h => (os_close h w).2 | None => w end) in *.
  assert (evolves w w1 ∧ fs w1 = fs w ∧ ticks w1 = ticks w) as (Hev & Hfs & Ht).
  { unfold w1. destruct (file seg) as [h|]; [|split; [reflexivity|done]].
    destruct (os_close_evolves h w) as (? & ? & ? & _). done. }
  destruct (CreateFile _ _ w1) as [r w2] eqn:E.
  pose proof (CreateFile_evolves (directory seg) (maskName seg) w1) as Hev2. rewrite E in Hev2.
  apply CreateFile_spec in E as (E & _). unfold next_path in *. rewrite Ht, Hfs in E.
  destruct r as [h|e]; simplify_eq/=; (split; [by etrans|]).
  - destruct E as (H1 & H2 & -> & H3). exists (length (handles w1)).
    repeat split; try done. rewrite H3. by rewrite lookup_app_r, Nat.sub_diag by done.
  - by destruct E.
Qed.

(** The outcomes of a successful [Segment.Write]: the data was appended to the
    current file, or it is the whole contents of a file created for it. *)
Inductive wrote (seg : Segment) (data : bytes) (w : world) (seg' : Segment) (w' : world) : Prop :=
  | wrote_append h p d :
      file seg = Some h → must_rotate seg data = false →
      handles w !! h = Some {| h_path := p; h_open := true |} →
      fs w !! p = Some (NFile d) →
      fs w' = <[p := NFile (d ++ data)]> (fs w) →
      handles w' !! h = Some {| h_path := p; h_open := true |} →
      seg' = set_file seg (Some h) (int64 (segmentSize seg + zlen data)) →
      wrote seg data w seg' w'
  | wrote_fresh h p :
      file seg = None ∨ must_rotate seg data = true →
      p = next_path (directory seg) (maskName seg) w →
      fs w !! p = None →
      fs w' = <[p := NFile data]> (fs w) →
      handles w' !! h = Some {| h_path := p; h_open := true |} →
      seg' = set_file seg (Some h) (int64 (zlen data)) →
      wrote seg data w seg' w'.

Lemma write_current_fresh seg data w w0 h p seg' w' :
  write_current (set_file seg (Some h) 0) data w = (None, seg', w') →
  handles w !! h = Some {| h_path := p; h_open := true |} →
  fs w = <[p := NFile []]> (fs w0) →
  fs w' = <[p := NFile data]> (fs w0) ∧
  handles w' !! h = Some {| h_path := p; h_open := true |} ∧
  seg' = set_file seg (Some h) (int64 (zlen data)).
Proof.
  unfold write_current. simpl. intros H Hh Hf.
  destruct (WriteFile h data w) as [[n|e] w2] eqn:E; simplify_eq.
  eapply WriteFile_Ok in E as (-> & Hfs & Hhs); [|exact Hh|rewrite Hf; apply lookup_insert_eq].
  rewrite Hfs, Hf, insert_insert_eq, Hhs. done.
Qed.

(** A fresh segment never rotates before its first write. *)
Lemma must_rotate_empty seg h data : must_rotate (set_file seg (Some h) 0) data = false.
Proof. unfold must_rotate. simpl. by rewrite andb_false_r. Qed.

Lemma Segment_Write_success seg data w seg' w' :
  handles_ok w → Segment_Write seg data w = (None, seg', w') → wrote seg data w seg' w'.
Proof.
  intros Hok H. unfold Segment_Write in H.
  destruct (file seg) as [h|] eqn:Ef.
  - unfold rotate_and_write in H. destruct (must_rotate seg data) eqn:Er.
    + destruct (getNextSegment seg w) as [[err seg1] w1] eqn:En.
      apply getNextSegment_spec in En as [_ En]. destruct err as [e|]; [done|].
      destruct En as (h' & -> & Hnone & Hfs & Hh').
      destruct (write_current_fresh _ _ _ _ _ _ _ _ H Hh' Hfs) as (? & ? & ?).
      eapply wrote_fresh; eauto.
    + unfold write_current in H. rewrite Ef in H.
      destruct (WriteFile h data w) as [[n|e] w1] eqn:E; simplify_eq.
      destruct (WriteFile_Ok_open _ _ _ _ _ E) as [p Hp].
      destruct (Hok h p Hp) as [d Hd].
      destruct (WriteFile_Ok _ _ _ _ _ _ _ E Hp Hd) as (-> & Hfs & Hhs).
      eapply wrote_append; eauto. by rewrite Hhs.
  - unfold Segment_CreateFile in H.
    destruct (CreateFile _ _ w) as [[h|e] w1] eqn:Ec; [|done].
    apply CreateFile_spec in Ec as ((Hnone & Hfs & -> & Hhs) & _).
    unfold rotate_and_write in H. rewrite must_rotate_empty in H.
    assert (handles w1 !! length (handles w) =
      Some {| h_path := next_path (directory seg) (maskName seg) w; h_open := true |}) as Hh.
    { rewrite Hhs. by rewrite lookup_app_r, Nat.sub_diag. }
    destruct (write_current_fresh _ _ _ _ _ _ _ _ H Hh Hfs) as (? & ? & ?).
    eapply wrote_fresh; eauto.
Qed.

Lemma write_current_evolves seg data w : evolves w (write_current seg data w).2.
Proof.
  unfold write_current. destruct (file seg) as [h|]; [|reflexivity].
  destruct (WriteFile_evolves h data w) as [Hev _].
  destruct (WriteFile h data w) as [[n|e] w1]; done.
Qed.

Lemma rotate_and_write_evolves seg data w : evolves w (rotate_and_write seg data w).2.
Proof.
  unfold rotate_and_write. destruct (must_rotate seg data); [|apply write_current_evolves].
  destruct (getNextSegment seg w) as [[err seg1] w1] eqn:En.
  apply getNextSegment_spec in En as [Hev _]. destruct err; [done|].
  etrans; [exact Hev|]. apply write_current_evolves.
Qed.

Lemma Segment_Write_evolves seg data w : evolves w (Segment_Write seg data w).2.
Proof.
  unfold Segment_Write. destruct (file seg); [apply rotate_and_write_evolves|].
  unfold Segment_CreateFile. pose proof (CreateFile_evolves (directory seg) (maskName seg) w) as Hev.
  destruct (CreateFile _ _ w) as [[h|e] w1]; [|done].
  etrans; [exact Hev|]. apply rotate_and_write_evolves.
Qed.

End facts.

(** ** Invariant of the active segment *)

(** The recorded size is the size on disk, and the handle is open. *)
Definition seg_ok (seg : Segment) (w : world) : Prop :=
  handles_ok w ∧
  match file seg with
  | None => segmentSize seg = 0
  | Some h => ∃ p d, handles w !! h = Some {| h_path := p; h_open := true |} ∧
      fs w !! p = Some (NFile d) ∧ segmentSize seg = zlen d ∧ zlen d < 2 ^ 62
  end.

(** ** Directory listings *)

(** The list [GetFileList] computes, as a function of the file tree. *)
Definition listing {env : Env} (dir : bytes) (f : gmap path node) : list bytes :=
  sort_strings (file_paths dir (dir_entries (resolve dir) f)).

#[global] Instance file_paths_perm dir : Proper (Permutation ==> Permutation) (file_paths dir).
Proof. intros es1 es2 H. unfold file_paths. by rewrite H. Qed.

Lemma sort_strings_perm l k : l ≡ₚ k → sort_strings l = sort_strings k.
Proof.
  intros H. apply sort_strings_unique.
  - rewrite H. symmetry. apply merge_sort_Permutation.
  - apply StronglySorted_merge_sort; apply _.
Qed.

Section listings.
Context {env : Env}.

Lemma GetFileList_spec dir w : env_fault SysReadDir (calls w) = NoFault → is_dir w (resolve dir) = true →
  (GetFileList dir w).1 = Ok (listing dir (fs w)).
Proof.
  intros Hf Hd. unfold GetFileList, os_read_dir. simpl. rewrite Hf.
  unfold is_dir in *. simpl. rewrite Hd. simpl. f_equal.
  apply sort_strings_perm. by rewrite merge_sort_Permutation.
Qed.

Lemma GetFileList_world dir w : fs (GetFileList dir w).2 = fs w ∧
  handles (GetFileList dir w).2 = handles w ∧ ticks (GetFileList dir w).2 = ticks w ∧
  calls (GetFileList dir w).2 = S (calls w).
Proof. unfold GetFileList, os_read_dir. simpl. by repeat case_match; simplify_eq/=. Qed.

(** Writing to an existing file does not change the listing. *)
Lemma listing_overwrite dir f p d d' : f !! p = Some (NFile d) →
  listing dir (<[p := NFile d']> f) = listing dir f.
Proof.
  intros Hp. unfold listing, dir_entries. apply sort_strings_perm.
  rewrite <- (insert_delete_id f p (NFile d) Hp), insert_insert_eq.
  rewrite !map_to_list_insert by apply lookup_delete_eq.

  done.
Qed.

(** A new file whose name sorts last is appended to the listing. *)
Lemma listing_fresh dir f name d :
  IsAbs dir = true → plain name → f !! (resolve dir ++ [name]) = None →
  Forall (λ x, bytes_le x (Join dir name)) (listing dir f) →
  listing dir (<[resolve dir ++ [name] := NFile d]> f) = listing dir f ++ [Join dir name].
Proof.
  intros Hd Hn Hnone Hle. unfold listing at 1. apply sort_strings_unique.
  - unfold dir_entries. rewrite map_to_list_insert by done. simpl.
    unfold dir_entry at 1. simpl. rewrite bool_decide_eq_true_2.
    + simpl. rewrite last_last. unfold listing, sort_strings. rewrite merge_sort_Permutation.
      by rewrite Permutation_app_comm.
    + split; [by destruct (resolve dir)|]. by rewrite removelast_last.
  - assert (StronglySorted bytes_le (listing dir f)) as Hs.
    { apply StronglySorted_merge_sort; apply _. }
    induction Hs as [|x l Hs IH Hx]; [repeat constructor|].
    apply Forall_cons in Hle as [Hx' Hle]. simpl. constructor; [by apply IH|].
    apply Forall_app. split; [done|by constructor].
Qed.

(** ** Names of segments *)

Lemma digit_no_slash n : digit (n mod 10) ≠ slash.
Proof.
  intros E%(f_equal bZ). unfold digit in E.
  pose proof (Z.mod_pos_bound n 10 ltac:(lia)). rewrite bZ_Zb_small in E by lia.
  change (bZ slash) with 47 in E. lia.
Qed.

Lemma fixdigits_no_slash k : ∀ n, no_slash (fixdigits k n).
Proof.
  induction k as [|k IH]; intros n; simpl; [constructor|].
  apply Forall_app. split; [apply IH|]. constructor; [apply digit_no_slash|done].
Qed.

(** An instant at which segment names have the usual length. *)
Definition instant (t : Z) : Prop := 10 ^ 18 ≤ t < 2 ^ 63.

Lemma segment_name_plain mask t : no_slash mask → instant t → plain (segment_name mask t).
Proof.
  intros Hm Ht. unfold segment_name. rewrite FormatInt_19 by done.
  assert (10 < length (mask ++ fixdigits 19 t ++ str ".log"))%nat as Hl.
  { rewrite !length_app, length_fixdigits. simpl. lia. }
  split; [|repeat split; intros E; rewrite E in Hl; simpl in Hl; lia].
  apply Forall_app. split; [done|]. apply Forall_app. split; [apply fixdigits_no_slash|].
  by repeat constructor.
Qed.

Lemma segment_name_cmp mask t1 t2 : instant t1 → instant t2 → t1 < t2 →
  bytes_cmp (segment_name mask t1) (segment_name mask t2) = Lt.
Proof.
  intros H1 H2 Hlt. unfold segment_name, instant in *. rewrite !FormatInt_19 by done.
  rewrite bytes_cmp_app. apply bytes_cmp_lt_app; [|by rewrite !length_fixdigits].
  rewrite fixdigits_cmp by (split; [lia|]; change (10 ^ Z.of_nat 19) with (10 * 10 ^ 18); lia).
  by apply Z.compare_lt_iff.
Qed.

Lemma segment_path_le dir mask t1 t2 : IsAbs dir = true → no_slash mask →
  instant t1 → instant t2 → t1 < t2 →
  bytes_le (Join dir (segment_name mask t1)) (Join dir (segment_name mask t2)).
Proof.
  intros Hd Hm H1 H2 Hlt. rewrite !Join_abs by (done || by apply segment_name_plain).
  unfold bytes_le. by rewrite render_cmp, segment_name_cmp.
Qed.

(** ** Success of a write when system calls work *)

Lemma write_current_total seg data w h p :
  quiet w → file seg = Some h → handles w !! h = Some {| h_path := p; h_open := true |} →
  ∃ seg' w', write_current seg data w = (None, seg', w').
Proof.
  intros Hq Hf Hh. unfold write_current, WriteFile, os_write, os_sync.
  rewrite Hf, Hh. simpl. rewrite Hq by done. simpl. rewrite Hh. simpl.
  rewrite Hq by (simpl; lia). eauto.
Qed.

Lemma CreateFile_total dir mask w :
  env_fault SysCreate (calls w) = NoFault → is_dir w (removelast (next_path dir mask w)) = true →
  next_path dir mask w ≠ [] → fs w !! next_path dir mask w = None →
  ∃ h w', CreateFile dir mask w = (Ok h, w').
Proof.
  intros Hff Hd Hne Hnone. unfold CreateFile, os_create. simpl. rewrite Hff.
  unfold is_dir, next_path in *. simpl in *. rewrite Hd, Hnone. simpl.
  rewrite bool_decide_eq_false_2 by done. unfold new_handle. simpl. eauto.
Qed.

(** A segment whose handle may have been closed by a failed rotation. *)
Lemma rotation_total seg w h :
  quiet w → file seg = Some h →
  is_dir w (removelast (next_path (directory seg) (maskName seg) w)) = true →
  next_path (directory seg) (maskName seg) w ≠ [] →
  fs w !! next_path (directory seg) (maskName seg) w = None →
  ∃ h' w', getNextSegment seg w = (None, set_file seg (Some h') 0, w').
Proof.
  intros Hq Hf Hd Hne Hnone. unfold getNextSegment. rewrite Hf.
  destruct (os_close_evolves h w) as ((_ & _ & Hc) & Hfs & Ht & _).
  destruct (CreateFile_total (directory seg) (maskName seg) (os_close h w).2) as (h' & w' & E).
  - by apply (quiet_mono _ _ Hc Hq).
  - unfold next_path, is_dir in *. by rewrite ?Ht, ?Hfs.
  - unfold next_path in *. by rewrite Ht.
  - unfold next_path in *. by rewrite Ht, Hfs.
  - rewrite E. by eexists _, _.
Qed.

Lemma Segment_Write_total seg data w h p o :
  quiet w → file seg = Some h → handles w !! h = Some {| h_path := p; h_open := o |} →
  o = true ∨ must_rotate seg data = true →
  is_dir w (removelast (next_path (directory seg) (maskName seg) w)) = true →
  next_path (directory seg) (maskName seg) w ≠ [] →
  fs w !! next_path (directory seg) (maskName seg) w = None →
  ∃ seg' w', Segment_Write seg data w = (None, seg', w').
Proof.
  intros Hq Hf Hh Ho Hd Hne Hnone. unfold Segment_Write, rotate_and_write. rewrite Hf.
  destruct (must_rotate seg data).
  - destruct (rotation_total seg w h Hq Hf Hd Hne Hnone) as (h' & w1 & E). rewrite E.
    apply getNextSegment_spec in E as [(_ & _ & Hc) (h2 & E2 & _ & _ & Hh')].
    injection E2 as <-. eapply write_current_total; [by eapply quiet_mono|done|exact Hh'].
  - destruct Ho as [->|]; [|done]. by eapply write_current_total.
Qed.

End listings.

(** ** Further lemmas *)

Section more.
Context {env : Env}.

Lemma wrote_seg_ok seg data w seg' w' :
  handles_ok w' → seg_ok seg w → zlen data < 2 ^ 61 → segmentSize seg < 2 ^ 61 →
  wrote seg data w seg' w' → seg_ok seg' w'.
Proof.
  intros Hok' [Hok Hseg] Hdata Hsize Hw. split; [done|].
  pose proof (zlen_nonneg data) as Hnn.
  destruct Hw as [h p d Hf Hr Hh Hd Hfs Hh' ->|h p _ _ _ Hfs Hh' ->]; simpl.
  - rewrite Hf in Hseg. destruct Hseg as (p' & d' & Hh2 & Hd2 & Hs & Hlt).
    assert (p' = p) as -> by congruence. assert (d' = d) as -> by congruence.
    exists p, (d ++ data). rewrite Hfs, lookup_insert_eq. pose proof (zlen_nonneg d).
    rewrite zlen_app. rewrite Hs in *. rewrite int64_id by (unfold in_int64; lia).
    repeat split; try done. lia.
  - exists p, data. rewrite Hfs, lookup_insert_eq, int64_id by (unfold in_int64; lia).
    repeat split; try done. lia.
Qed.

(** What the current file holds after a successful write, and the size limit. *)
Lemma wrote_contents seg data w seg' w' :
  seg_ok seg w → zlen data < 2 ^ 62 → wrote seg data w seg' w' →
  ∃ h p d, file seg' = Some h ∧
    handles w' !! h = Some {| h_path := p; h_open := true |} ∧
    fs w' !! p = Some (NFile (d ++ data)) ∧
    segmentSize seg' = zlen (d ++ data) ∧
    (fs w !! p = Some (NFile d) ∨ (d = [] ∧ fs w !! p = None)) ∧
    (0 < maxSegmentSize seg → d = [] ∨ zlen (d ++ data) ≤ maxSegmentSize seg).
Proof.
  intros [Hok Hseg] Hdata Hw. pose proof (zlen_nonneg data) as Hnn.
  destruct Hw as [h p d Hf Hr Hh Hd Hfs Hh' ->|h p _ _ Hnone Hfs Hh' ->].
  - rewrite Hf in Hseg. destruct Hseg as (p' & d' & Hh2 & Hd2 & Hs & Hlt).
    assert (p' = p) as -> by congruence. assert (d' = d) as -> by congruence.
    exists h, p, d. rewrite Hfs, lookup_insert_eq. pose proof (zlen_nonneg d) as Hnd.
    unfold must_rotate in Hr. simpl. rewrite Hs in *. rewrite zlen_app.
    rewrite int64_id in * by (unfold in_int64; lia).
    repeat split; try done; [by left|]. intros Hmax.
    apply andb_false_iff in Hr as [[Hr|Hr]%andb_false_iff|Hr]; zbool; [lia| |by right].
    left. apply zlen_0_inv. lia.
  - exists h, p, []. rewrite Hfs, lookup_insert_eq, int64_id by (unfold in_int64; lia).
    simpl. repeat split; auto.
Qed.

(** ** Writes that fail *)

Lemma append_file_nil p f : append_file p [] f = f.
Proof.
  unfold append_file. destruct (f !! p) as [[d|]|] eqn:E; [|done..].
  by rewrite app_nil_r, insert_id.
Qed.

(** How much a failed flush can leave behind when writes are clean: nothing, or
    everything if only [Sync] failed. *)
Definition left_over {env : Env} (n : nat) (data : bytes) : Prop :=
  clean_writes → n = 0%nat ∨ n = length data ∧ ¬ sync_reliable.

(** A failed write left the first [n] bytes of the data in the open file. *)
Lemma write_current_failed seg data w e seg' w' :
  write_current seg data w = (Some e, seg', w') →
  seg' = seg ∧ handles w' = handles w ∧
  ∃ n p, fs w' = append_file p (take n data) (fs w) ∧ left_over n data ∧
    (n = 0%nat ∨ ∃ h, file seg = Some h ∧ handles w !! h = Some {| h_path := p; h_open := true |}).
Proof.
  unfold write_current, WriteFile, os_write, os_sync, syscall.
  assert (∀ w2, w2 = w → seg' = seg → w' = w2 → seg' = seg ∧ handles w' = handles w ∧
    ∃ n p, fs w' = append_file p (take n data) (fs w) ∧ left_over n data ∧
      (n = 0%nat ∨ ∃ h, file seg = Some h ∧ handles w !! h = Some {| h_path := p; h_open := true |})) as Hsame.
  { intros w2 -> -> ->. split; [done|]. split; [done|]. exists 0%nat, []. simpl. rewrite append_file_nil. split; [done|]. split; [by left|by left]. }
  destruct (file seg) as [h|]; [|intros [= _ <- <-]; by eapply Hsame].
  destruct (handles w !! h) as [[p []]|] eqn:Eh; simpl; [|intros [= _ <- <-]; by eapply Hsame..]. clear Hsame.
  destruct (env_fault SysWrite (calls w)) as [|k] eqn:Ew; simpl.
  - rewrite Eh. destruct (env_fault SysSync (S (calls w))) as [|k] eqn:Es; simpl; [done|].
    intros [= _ <- <-]. split; [done|]. split; [done|]. exists (length data), p. simpl. rewrite firstn_all.
    split; [done|]. split; [|eauto]. intros _. right. split; [done|]. intros Hs. by rewrite Hs in Es.
  - intros [= _ <- <-]. split; [done|]. split; [done|]. exists k, p. split; [done|]. split; [|eauto].
    intros Hc. left. by apply (Hc (calls w)).
Qed.

(** The outcomes of a [Segment.Write] that failed after leaving [n] bytes: in
    the current file, which the recorded size does not count; the rotation
    failed and left its handle closed; or in the file the rotation made. *)
Inductive refused (n : nat) (seg : Segment) (data : bytes) (w : world) (seg' : Segment) (w' : world) : Prop :=
  | refused_write p :
      must_rotate seg data = false → seg' = seg → fs w' = append_file p (take n data) (fs w) →
      (n = 0%nat ∨ ∃ h, file seg = Some h ∧ handles w !! h = Some {| h_path := p; h_open := true |}) →
      handles w' = handles w →
      refused n seg data w seg' w'
  | refused_rotation h p o :
      must_rotate seg data = true → seg' = seg → fs w' = fs w → file seg = Some h →
      handles w !! h = Some {| h_path := p; h_open := o |} →
      handles w' !! h = Some {| h_path := p; h_open := false |} →
      refused n seg data w seg' w'
  | refused_rotated h p :
      must_rotate seg data = true → p = next_path (directory seg) (maskName seg) w → fs w !! p = None →
      fs w' = <[p := NFile (take n data)]> (fs w) → handles w' !! h = Some {| h_path := p; h_open := true |} →
      seg' = set_file seg (Some h) 0 →
      refused n seg data w seg' w'.

Lemma getNextSegment_handle seg w e seg' w' h p o : getNextSegment seg w = (Some e, seg', w') →
  file seg = Some h → handles w !! h = Some {| h_path := p; h_open := o |} →
  handles w' !! h = Some {| h_path := p; h_open := false |}.
Proof.
  unfold getNextSegment. intros H Hf Hh. rewrite Hf in H.
  destruct (CreateFile _ _ (os_close h w).2) as [[h'|e'] w2] eqn:Ec; [done|]. simplify_eq.
  apply CreateFile_spec in Ec as ([_ ->] & _). unfold os_close. rewrite Hh.
  destruct o; simpl; [|done]. apply list_lookup_insert_eq. by eapply lookup_lt_Some.
Qed.

Lemma Segment_Write_refused seg data w e seg' w' h p o :
  file seg = Some h → handles w !! h = Some {| h_path := p; h_open := o |} →
  Segment_Write seg data w = (Some e, seg', w') →
  ∃ n, refused n seg data w seg' w' ∧ left_over n data.
Proof.
  intros Hf Hh. unfold Segment_Write, rotate_and_write. rewrite Hf.
  destruct (must_rotate seg data) eqn:Hr.
  - destruct (getNextSegment seg w) as [[[e1|] seg1] w1] eqn:En.
    + intros [= _ <- <-]. pose proof (getNextSegment_handle _ _ _ _ _ _ _ _ En Hf Hh) as Hh'.
      apply getNextSegment_spec in En as [_ [-> Hfs]]. exists 0%nat. split; [by eapply refused_rotation|by left].
    + apply getNextSegment_spec in En as [_ (h' & -> & Hnone & Hfs & Hh')].
      intros (-> & Hhs & n & p1 & Hfs' & Hn & Hp1)%write_current_failed. exists n. split; [|done].
      eapply refused_rotated; [done|done|exact Hnone| |by rewrite Hhs|done]. rewrite Hfs'.
      destruct Hp1 as [->|(h2 & [= <-] & Hp1)]; [by rewrite append_file_nil|].
      rewrite Hh' in Hp1. injection Hp1 as <-. unfold append_file. by rewrite Hfs, lookup_insert_eq, insert_insert_eq.
  - intros (-> & Hhs & n & p1 & Hfs' & Hn & Hp1)%write_current_failed. exists n. split; [|done].
    by eapply refused_write.
Qed.

(** A new file at the next instant is listed last. *)
Lemma next_listing dir mask w w' ts d :
  IsAbs dir = true → no_slash mask →
  listing dir (fs w) = ((λ t, Join dir (segment_name mask t)) <$> ts) →
  Forall (λ t, instant t ∧ t < env_clock (ticks w)) ts → instant (env_clock (ticks w)) →
  fs w !! next_path dir mask w = None → fs w' = <[next_path dir mask w := NFile d]> (fs w) →
  listing dir (fs w') = listing dir (fs w) ++ [Join dir (segment_name mask (env_clock (ticks w)))].
Proof.
  intros Hd Hm Hl Hts Hnow Hnone Hfs. unfold next_path in *.
  pose proof (segment_name_plain _ _ Hm Hnow) as Hp.
  rewrite resolve_Join in Hnone, Hfs by done. rewrite Hfs. apply listing_fresh; try done.
  rewrite Hl, Forall_fmap. eapply Forall_impl; [exact Hts|]. simpl. intros t [Ht Hlt].
  by apply segment_path_le.
Qed.

(** The directory listing after a successful write. *)
Lemma wrote_listing seg data w seg' w' ts :
  IsAbs (directory seg) = true → no_slash (maskName seg) →
  listing (directory seg) (fs w) =
    ((λ t, Join (directory seg) (segment_name (maskName seg) t)) <$> ts) →
  Forall (λ t, instant t ∧ t < env_clock (ticks w)) ts → instant (env_clock (ticks w)) →
  wrote seg data w seg' w' →
  listing (directory seg) (fs w') =
    listing (directory seg) (fs w) ++
    (if bool_decide (file seg = None) || must_rotate seg data
     then [Join (directory seg) (segment_name (maskName seg) (env_clock (ticks w)))] else []).
Proof.
  intros Hd Hm Hl Hts Hnow Hw.
  destruct Hw as [h p d Hf Hr _ Hfile Hfs _ _|h p Hr -> Hnone Hfs _ _].
  - rewrite bool_decide_eq_false_2, Hr by congruence. simpl. rewrite app_nil_r.
    rewrite Hfs. by eapply listing_overwrite.
  - assert (bool_decide (file seg = None) || must_rotate seg data = true) as ->.
    { destruct Hr as [->| ->]; [done|apply orb_true_r]. }
    by eapply next_listing.
Qed.

(** The clock is read exactly when a file is created. *)
Lemma write_current_ticks seg data w : ticks (write_current seg data w).2 = ticks w.
Proof.
  unfold write_current, WriteFile, os_write, os_sync. simpl. by repeat case_match; simplify_eq/=.
Qed.

Lemma Segment_Write_ticks seg data w :
  ticks (Segment_Write seg data w).2 =
  if bool_decide (file seg = None) || must_rotate seg data then S (ticks w) else ticks w.
Proof.
  unfold Segment_Write, Segment_CreateFile, rotate_and_write, getNextSegment.
  destruct (file seg) as [h|] eqn:Ef; simpl.
  - destruct (must_rotate seg data); [|apply write_current_ticks].
    destruct (os_close_evolves h w) as (_ & _ & Ht & _).
    destruct (CreateFile _ _ (os_close h w).2) as [[h'|e] w2] eqn:E; simpl;
      apply CreateFile_spec in E as (_ & E & _); [rewrite write_current_ticks|]; congruence.
  - destruct (CreateFile _ _ w) as [[h'|e] w2] eqn:E; simpl; apply CreateFile_spec in E as (_ & E & _).
    + fold (set_file seg (Some h') 0). rewrite must_rotate_empty. by rewrite write_current_ticks.
    + done.
Qed.

Lemma mkdirs_is_dir cs : ∀ pre f f', mkdirs pre cs f = Some f' →
  fs_extends f f' ∧ (cs ≠ [] → f' !! (pre ++ cs) = Some NDir).
Proof.
  induction cs as [|c cs IH]; intros pre f f' H; simpl in H.
  - simplify_eq. split; [reflexivity|done].
  - assert (∀ g, mkdirs (pre ++ [c]) cs g = Some f' → g !! (pre ++ [c]) = Some NDir →
      fs_extends g f' ∧ f' !! (pre ++ c :: cs) = Some NDir) as Hgo.
    { intros g Hg Hc. destruct (IH _ _ _ Hg) as [Hext Hd]. split; [done|].
      rewrite cons_middle, app_assoc. destruct cs; [|by apply Hd].
      rewrite app_nil_r. by apply Hext. }
    destruct (f !! (pre ++ [c])) as [[|]|] eqn:E; [done|..].
    + destruct (Hgo f H E) as [Hext Hd]. auto.
    + destruct (Hgo _ H (lookup_insert_eq _ _ _)) as [Hext Hd]. split; [|done].
      etrans; [|exact Hext]. by apply fs_extends_fresh.
Qed.

(** Directories that exist are not made again. *)
Lemma mkdirs_again cs : ∀ pre f f' g, mkdirs pre cs f = Some f' → fs_extends f' g → mkdirs pre cs g = Some g.
Proof.
  induction cs as [|c cs IH]; intros pre f f' g H Hg; [done|]. simpl in *.
  assert (∀ f0, mkdirs (pre ++ [c]) cs f0 = Some f' → f0 !! (pre ++ [c]) = Some NDir → g !! (pre ++ [c]) = Some NDir) as Hd.
  { intros f0 H0 Hc. apply Hg. by apply (mkdirs_is_dir _ _ _ _ H0). }
  destruct (f !! (pre ++ [c])) as [[|]|] eqn:E; [done|..].
  - rewrite (Hd f H E). by eapply IH.
  - rewrite (Hd _ H (lookup_insert_eq _ _ _)). by eapply IH.
Qed.

(** The path that [resolveWalPath] computes when [Getwd] works. *)
Definition wal_path (dir : bytes) : bytes :=
  let dir' := if bool_decide (dir = []) then Join (str "storage") (str "wal") else dir in
  if IsAbs dir' then dir' else Join env_wd dir'.

Lemma resolveWalPath_spec dir w : ∃ r w1, resolveWalPath dir w = (r, w1) ∧ same_disk w w1 ∧
  match r with Ok p => p = wal_path dir | Err _ => ¬ quiet w end.
Proof.
  unfold resolveWalPath, os_getwd, syscall, wal_path. destruct (IsAbs _).
  { eexists _, _. split; [done|]. by split. }
  assert (quiet w → env_fault SysGetwd (calls w) = NoFault) as Hq by (intros Hq; by apply Hq).
  destruct (env_fault SysGetwd (calls w)) as [|k]; eexists _, _; (split; [reflexivity|]);
    (split; [repeat split; simpl; lia|]); [done|]. intros H. by specialize (Hq H).
Qed.

(** What [MakeDirectory] does in any environment. *)
Lemma MakeDirectory_spec dir w : ∃ r w1, MakeDirectory dir w = (r, w1) ∧
  handles w1 = handles w ∧ ticks w1 = ticks w ∧ (calls w ≤ calls w1)%nat ∧
  match r with
  | Ok p => p = wal_path dir ∧ mkdirs [] (resolve p) (fs w) = Some (fs w1)
  | Err _ => fs w1 = fs w ∧ (mkdirs [] (resolve (wal_path dir)) (fs w) = None ∨ ¬ quiet w)
  end.
Proof.
  destruct (resolveWalPath_spec dir w) as (r & w1 & E & Hsame & Hr). pose proof Hsame as (Hf & Hh & Ht & Hc).
  unfold MakeDirectory. rewrite E. destruct r as [p|e]; [|by eexists _, _; auto 10].
  subst p. assert (quiet w → env_fault SysMkdirAll (calls w1) = NoFault) as Hq.
  { intros Hq. by apply (same_disk_quiet _ _ Hsame Hq). }
  unfold os_mkdir_all, syscall. destruct (env_fault SysMkdirAll (calls w1)) as [|k]; simpl; rewrite Hf.
  - destruct (mkdirs [] _ (fs w)) as [f|] eqn:Em; eexists _, _; (split; [reflexivity|]); simpl;
      rewrite ?Hf, ?Hh, ?Ht; (split; [done|split; [done|split; [lia|]]]); auto.
  - eexists _, _. split; [reflexivity|]. simpl. rewrite ?Hf, ?Hh, ?Ht.
    split; [done|split; [done|split; [lia|]]]. split; [done|]. right. intros H. by specialize (Hq H).
Qed.

End more.

(** A run of the operating system for examples: given faults, and a clock that
    advances by one nanosecond per reading from November 2023. *)
Definition demo_env (faults : sys_call → nat → fault) : Env :=
  {| env_fault := faults; env_clock := λ n, 1700000000000000000 + Z.of_nat n; env_wd := str "/srv/kv" |}.

Definition steady_env : Env := demo_env (λ _ _, NoFault).

(** The system call with the given number fails. *)
Definition failing_env (k : nat) : Env :=
  demo_env (λ _ n, if bool_decide (n = k) then Fault 0 else NoFault).

Definition wal_dir : bytes := str "/srv/kv/wal".

Definition world0 : world :=
  {| fs := {[ [str "srv"] := NDir; [str "srv"; str "kv"] := NDir;
              [str "srv"; str "kv"; str "wal"] := NDir ]};
     handles := []; calls := 0; ticks := 0 |}.

(** ** Properties *)

(** C21: the log on disk is append-only under every environment: whatever faults
    occur and whether [Segment.Write] reports success or not, every file keeps
    its previous contents as a prefix and no directory disappears. *)
Theorem segment_append_only {env : Env} (seg : Segment) (data : bytes) (w : world) :
  fs_extends (fs w) (fs (Segment_Write seg data w).2).
Proof. apply Segment_Write_evolves. Qed.

(** C22: a successful [Segment.Write] put exactly [data] at the end of the current
    file, the recorded segment size is the size of that file on disk, and with
    a positive limit the file exceeds the limit only if it holds this batch
    alone. *)
Theorem segment_write_bounds {env : Env} (seg : Segment) (data : bytes) (w : world)
  (seg' : Segment) (w' : world)
  (Hseg : seg_ok seg w) (Hdata : zlen data < 2 ^ 62)
  (Hwrite : Segment_Write seg data w = (None, seg', w')) :
  ∃ h p d, file seg' = Some h ∧
    handles w' !! h = Some {| h_path := p; h_open := true |} ∧
    fs w' !! p = Some (NFile (d ++ data)) ∧
    segmentSize seg' = zlen (d ++ data) ∧
    (fs w !! p = Some (NFile d) ∨ (d = [] ∧ fs w !! p = None)) ∧
    (0 < maxSegmentSize seg → d = [] ∨ zlen (d ++ data) ≤ maxSegmentSize seg).
Proof.
  eapply wrote_contents; [done|done|]. apply Segment_Write_success; [apply Hseg|done].
Qed.

Lemma segment_write_bounds_witness :
  let r := @Segment_Write steady_env (NewSegment wal_dir (str "segment_") 10) (str "hello world") world0 in
  ∃ h p d, file r.1.2 = Some h ∧
    handles r.2 !! h = Some {| h_path := p; h_open := true |} ∧
    fs r.2 !! p = Some (NFile (d ++ str "hello world")) ∧
    segmentSize r.1.2 = zlen (d ++ str "hello world") ∧
    (fs world0 !! p = Some (NFile d) ∨ (d = [] ∧ fs world0 !! p = None)) ∧
    (0 < 10 → d = [] ∨ zlen (d ++ str "hello world") ≤ 10).
Proof.
  intros r.
  apply (@segment_write_bounds steady_env (NewSegment wal_dir (str "segment_") 10)
    (str "hello world") world0).
  - split; [intros h p Hp; discriminate|reflexivity].
  - vm_compute. reflexivity.
  - apply triple_eta; [vm_compute; reflexivity|reflexivity].
Defined.

(** C23: segments are listed in the order in which they were created: if the
    directory holds segments created at earlier instants, listed in that
    order, then after a successful write it lists the same segments, followed
    by the new one exactly when the write opened a new file. (Instants are
    between 2001 and 2262, when nanosecond counts have 19 digits.) *)
Theorem segment_listing_chronological {env : Env} (seg : Segment) (data : bytes) (w : world)
  (seg' : Segment) (w' : world) (ts : list Z)
  (Hdir : IsAbs (directory seg) = true) (Hmask : no_slash (maskName seg))
  (Hok : handles_ok w)
  (Hlist : listing (directory seg) (fs w) =
    ((λ t, Join (directory seg) (segment_name (maskName seg) t)) <$> ts))
  (Hts : Forall (λ t, instant t ∧ t < env_clock (ticks w)) ts)
  (Hnow : instant (env_clock (ticks w)))
  (Hwrite : Segment_Write seg data w = (None, seg', w')) :
  listing (directory seg) (fs w') =
    listing (directory seg) (fs w) ++
    (if bool_decide (file seg = None) || must_rotate seg data
     then [Join (directory seg) (segment_name (maskName seg) (env_clock (ticks w)))] else []).
Proof. eapply wrote_listing; try done. by apply Segment_Write_success. Qed.

Lemma segment_listing_chronological_witness :
  let seg := NewSegment wal_dir (str "segment_") 10 in
  @listing steady_env wal_dir (fs (@Segment_Write steady_env seg (str "hello") world0).2) =
    @listing steady_env wal_dir (fs world0) ++
      [Join wal_dir (segment_name (str "segment_") 1700000000000000000)].
Proof.
  intros seg.
  apply (@segment_listing_chronological steady_env seg (str "hello") world0
    (@Segment_Write steady_env seg (str "hello") world0).1.2
    (@Segment_Write steady_env seg (str "hello") world0).2 []).
  - reflexivity.
  - repeat (constructor; [discriminate|]). constructor.
  - intros h p Hp. discriminate.
  - vm_compute. reflexivity.
  - constructor.
  - split; vm_compute; [discriminate|reflexivity].
  - apply triple_eta; [vm_compute; reflexivity|reflexivity].
Defined.

(** After a rotation that closed the current file but could not create the
    next one, the segment keeps the closed handle: every following write that
    does not itself need a rotation fails with [ErrFailedSaveFile] without
    touching the disk, in every environment, a fault-free one included. *)
Theorem segment_failed_rotation_sticks {env : Env} (seg seg1 : Segment) (h : nat) (w w1 : world)
  (e : gerr) (small : bytes)
  (Hfile : file seg = Some h)
  (Hopen : is_Some (handles w !! h))
  (Hfail : getNextSegment seg w = (Some e, seg1, w1))
  (Hsmall : must_rotate seg small = false) :
  Segment_Write seg1 small w1 = (Some ErrFailedSaveFile, seg1, w1).
Proof.
  destruct Hopen as [[p o] Ho].
  pose proof (getNextSegment_handle _ _ _ _ _ _ _ _ Hfail Hfile Ho) as Hp.
  apply getNextSegment_spec in Hfail as [_ [-> _]].
  unfold Segment_Write, rotate_and_write, write_current, WriteFile, os_write.
  by rewrite Hfile, Hsmall, Hp.
Qed.

(** A segment of ten bytes after one write; the sixth system call (opening the
    next file) fails. *)
Definition sticky_seg : Segment * world :=
  let r := @Segment_Write (failing_env 4) (NewSegment wal_dir (str "segment_") 10) (str "12345678") world0 in
  (r.1.2, r.2).

Lemma segment_failed_rotation_sticks_witness :
  @Segment_Write (failing_env 4) sticky_seg.1 (str "x")
    (@getNextSegment (failing_env 4) sticky_seg.1 sticky_seg.2).2 =
  (Some ErrFailedSaveFile, sticky_seg.1, (@getNextSegment (failing_env 4) sticky_seg.1 sticky_seg.2).2).
Proof.
  apply (@segment_failed_rotation_sticks (failing_env 4) sticky_seg.1 sticky_seg.1 0%nat sticky_seg.2
    (@getNextSegment (failing_env 4) sticky_seg.1 sticky_seg.2).2 (EOS EIO) (str "x")).
  - vm_compute. reflexivity.
  - vm_compute. eexists. reflexivity.
  - apply triple_eta; vm_compute; reflexivity.
  - vm_compute. reflexivity.
Defined.

(** [MakeDirectory] returns an absolute path (relative and empty settings are
    resolved against the working directory) that names an existing directory
    afterwards, and removes nothing. *)
Theorem make_directory_ok {env : Env} (dir p : bytes) (w w' : world)
  (Hwd : IsAbs env_wd = true) (Hmk : MakeDirectory dir w = (Ok p, w')) :
  IsAbs p = true ∧ is_dir w' (resolve p) = true ∧ fs_extends (fs w) (fs w') ∧
  (dir = [] → p = render (resolve env_wd ++ [str "storage"; str "wal"])).
Proof.
  unfold MakeDirectory in Hmk.
  destruct (resolveWalPath dir w) as [[q|e] w1] eqn:Er; [|done].
  assert (IsAbs q = true ∧ fs w1 = fs w ∧
    (dir = [] → q = render (resolve env_wd ++ [str "storage"; str "wal"]))) as (Hq & Hfs & Hdef).
  { unfold resolveWalPath in Er. simpl in Er.
    destruct (IsAbs (if bool_decide (dir = []) then _ else dir)) eqn:Ea; simplify_eq.
    - split; [done|]. split; [done|]. intros ->. by vm_compute in Ea.
    - destruct (env_fault SysGetwd (calls w)); simplify_eq/=.
      assert (∀ d : bytes, IsAbs (env_wd ++ slash :: d) = true) as Habs
        by (intros d; revert Hwd; destruct env_wd; done).
      unfold Join at 1 3. rewrite (bool_decide_eq_false_2 (env_wd = [])) by (by intros E; rewrite E in Hwd).
      rewrite !Clean_abs by done. split; [apply IsAbs_render|]. split; [done|].
      intros ->. rewrite bool_decide_eq_true_2 by done. f_equal.
      change (Join (str "storage") (str "wal")) with (str "storage" ++ slash :: str "wal").
      rewrite !resolve_abs by done.
      replace (env_wd ++ slash :: str "storage" ++ slash :: str "wal") with
        ((env_wd ++ slash :: str "storage") ++ slash :: str "wal") by (by rewrite <- app_assoc).
      assert (plain (str "storage") ∧ plain (str "wal")) as [H1 H2].
      { split; (split; [repeat (constructor; [discriminate|]); constructor|done]). }
      rewrite !split_slash_app, !foldl_app by (apply H1 || apply H2). simpl foldl at 1.
      rewrite !path_step_plain by done. by rewrite <- app_assoc. }
  unfold os_mkdir_all in Hmk. simpl in Hmk. destruct (env_fault SysMkdirAll (calls w1)); [|done].
  destruct (mkdirs [] (resolve q) (fs w1)) as [f|] eqn:Em; simplify_eq/=.
  apply mkdirs_is_dir in Em as [Hext Hd]. rewrite Hfs in Hext. repeat split; try done.
  - unfold is_dir. simpl. destruct (decide (resolve p = [])) as [->|Hne]; [done|].
    rewrite app_nil_l in Hd. rewrite (Hd Hne). apply orb_true_r.
  - apply Hext.
  - apply Hext.
Qed.

Lemma make_directory_ok_witness :
  IsAbs (str "/srv/kv/storage/wal") = true ∧
  @is_dir (@MakeDirectory steady_env [] world0).2 (@resolve steady_env (str "/srv/kv/storage/wal")) = true ∧
  fs_extends (fs world0) (fs (@MakeDirectory steady_env [] world0).2) ∧
  ([] = @nil byte → str "/srv/kv/storage/wal" =
     render (@resolve steady_env (str "/srv/kv") ++ [str "storage"; str "wal"])).
Proof.
  apply (@make_directory_ok steady_env [] (str "/srv/kv/storage/wal") world0).
  - reflexivity.
  - apply pair_eta. vm_compute. reflexivity.
Defined.
