(* ===== verification/Concurrency.v ===== *)
(** * Synchronisation primitives

    Models [internal/concurrency]: [Promise] and [Future] over a heap of Go
    channels, [Semaphore] as the transition system of the goroutines that use
    it, and [WithLock]. *)

From S2P Require Import Prelude.

(** ** Channels and promises *)

(** The outcome of a statement that may block or panic. *)
Inductive outcome (A : Type) :=
  | Done (a : A)
  | Blocked
  | Panicked.
Arguments Done {A} _.
Arguments Blocked {A}.
Arguments Panicked {A}.

Definition obind {A B} (m : outcome A) (f : A → outcome B) : outcome B :=
  match m with Done a => f a | Blocked => Blocked | Panicked => Panicked end.

Section promise.
Context {T : Type} (zero : T).

(** A channel of capacity one, as [NewPromise] allocates it. *)
Record Chan := { c_buf : list T; c_closed : bool }.

(** Channels are shared: a promise and its futures refer to one by its
    address in the heap. *)
Abbreviation chans := (list Chan).

Record Promise := { result : nat; promised : bool }.

#[global] Instance promise_eq_dec : EqDecision Promise.
Proof. solve_decision. Defined.

Record Future := { f_result : nat }.

Definition chan_send (c : nat) (v : T) (h : chans) : outcome chans :=
  match h !! c with
  | Some {| c_closed := true |} => Panicked
  | Some {| c_buf := []; c_closed := false |} => Done (<[c := {| c_buf := [v]; c_closed := false |}]> h)
  | Some {| c_buf := _ :: _; c_closed := false |} => Blocked
  | None => Blocked
  end.

Definition chan_close (c : nat) (h : chans) : outcome chans :=
  match h !! c with
  | Some {| c_buf := b; c_closed := false |} => Done (<[c := {| c_buf := b; c_closed := true |}]> h)
  | Some {| c_closed := true |} => Panicked
  | None => Panicked
  end.

(** Receiving: the buffered value, or the zero value of a drained closed
    channel, or blocking. *)
Definition chan_recv (c : nat) (h : chans) : outcome (T * chans) :=
  match h !! c with
  | Some {| c_buf := v :: b; c_closed := cl |} => Done (v, <[c := {| c_buf := b; c_closed := cl |}]> h)
  | Some {| c_buf := []; c_closed := true |} => Done (zero, h)
  | Some {| c_buf := []; c_closed := false |} => Blocked
  | None => Blocked
  end.

Definition NewPromise (h : chans) : Promise * chans :=
  ({| result := length h; promised := false |}, h ++ [{| c_buf := []; c_closed := false |}]).

Definition Promise_Set (v : T) (p : Promise) (h : chans) : outcome (Promise * chans) :=
  if promised p then Done (p, h)
  else
    obind (chan_send (result p) v h) (λ h1,
    obind (chan_close (result p) h1) (λ h2,
    Done ({| result := result p; promised := true |}, h2))).

Definition NewFuture (c : nat) : Future := {| f_result := c |}.

Definition GetFuture (p : Promise) : Future := NewFuture (result p).

Definition Future_Get (f : Future) (h : chans) : outcome (T * chans) := chan_recv (f_result f) h.

(** A promise that nobody has resolved. *)
Definition fresh_promise (p : Promise) (h : chans) : Prop :=
  promised p = false ∧ h !! result p = Some {| c_buf := []; c_closed := false |}.

Lemma NewPromise_fresh h : fresh_promise (NewPromise h).1 (NewPromise h).2.
Proof. split; [done|]. simpl. by rewrite lookup_app_r, Nat.sub_diag. Qed.

(** Resolving a fresh promise publishes the value and closes the channel. *)
Lemma Promise_Set_fresh v p h : fresh_promise p h →
  Promise_Set v p h = Done ({| result := result p; promised := true |},
    <[result p := {| c_buf := [v]; c_closed := true |}]> h).
Proof.
  intros [Hp Hc]. unfold Promise_Set, chan_send, chan_close. rewrite Hp, Hc. simpl.
  rewrite list_lookup_insert_eq by (by eapply lookup_lt_Some). simpl.
  by rewrite list_insert_insert_eq.
Qed.

End promise.

Arguments Chan : clear implicits.

(** ** Semaphore

    The goroutines that call [Acquire] and [Release]. Each critical section
    under the mutex of the condition variable is one step; [Wait] releases the
    mutex and joins the queue of the condition, [Signal] moves the goroutine
    at the head of the queue (Go's notification list is first-in first-out)
    to the set of woken ones, which re-test the loop condition when they get
    the mutex back. *)

Record Semaphore := {
  count : Z;
  max : Z;
  waiting : list nat;      (** blocked in [condition.Wait] *)
  woken : gset nat;        (** signalled, not yet re-tested *)
  holding : gset nat       (** returned from [Acquire], not yet released *)
}.

Definition NewSemaphore (limit : Z) : Semaphore :=
  {| count := 0; max := limit; waiting := []; woken := ∅; holding := ∅ |}.

(** One evaluation of the loop [for sem.count >= sem.max] by goroutine [t],
    which is either entering [Acquire] or has been woken. *)
Definition Acquire_step (t : nat) (s : Semaphore) : Semaphore :=
  if max s <=? count s
  then {| count := count s; max := max s; waiting := waiting s ++ [t];
          woken := woken s ∖ {[t]}; holding := holding s |}
  else {| count := count s + 1; max := max s; waiting := waiting s;
          woken := woken s ∖ {[t]}; holding := holding s ∪ {[t]} |}.

Definition Release_step (t : nat) (s : Semaphore) : Semaphore :=
  {| count := count s - 1; max := max s;
     waiting := tail (waiting s);
     woken := match waiting s with [] => woken s | u :: _ => woken s ∪ {[u]} end;
     holding := holding s ∖ {[t]} |}.

(** Goroutines outside the semaphore may call [Acquire]; the woken ones
    re-test; a holder may call [Release] (every [Acquire] is paired with one
    deferred [Release] in the server). *)
Inductive sem_step : Semaphore → Semaphore → Prop :=
  | sem_enter t s : t ∉ waiting s → t ∉ woken s → t ∉ holding s → sem_step s (Acquire_step t s)
  | sem_retry t s : t ∈ woken s → sem_step s (Acquire_step t s)
  | sem_release t s : t ∈ holding s → sem_step s (Release_step t s).

(** ** [WithLock]

    Running a closure under a mutex: an atomic transformation of the protected
    state; a [nil] closure does nothing. *)
Definition WithLock {S : Type} (action : option (S → S)) (s : S) : S :=
  match action with None => s | Some f => f s end.

(** ** Invariant of the semaphore *)

Record sem_inv (s : Semaphore) : Prop := {
  sem_count : count s = Z.of_nat (size (holding s));
  sem_bound : count s ≤ Z.max 0 (max s);
  sem_wait_nodup : NoDup (waiting s);
  sem_disj_ww : ∀ t, t ∈ waiting s → t ∉ woken s;
  sem_disj_wh : ∀ t, t ∈ waiting s → t ∉ holding s;
  sem_disj_kh : ∀ t, t ∈ woken s → t ∉ holding s;
  sem_no_lost_signal : waiting s ≠ [] → max s ≤ count s + Z.of_nat (size (woken s))
}.

Lemma sem_inv_new limit : sem_inv (NewSemaphore limit).
Proof. split; simpl; try done; try (by intros t ?%not_elem_of_nil); [lia|constructor]. Qed.

Lemma size_remove (t : nat) (X : gset nat) : t ∈ X → size X = S (size (X ∖ {[t]})).
Proof.
  intros H. rewrite size_difference by set_solver. rewrite size_singleton.
  assert (size X ≠ 0%nat) by (intros E%size_empty_inv; set_solver). lia.
Qed.

Lemma size_add (t : nat) (X : gset nat) : t ∉ X → size (X ∪ {[t]}) = S (size X).
Proof. intros H. rewrite size_union by set_solver. rewrite size_singleton. lia. Qed.

Lemma size_difference_le (t : nat) (X : gset nat) : (size X ≤ S (size (X ∖ {[t]})))%nat.
Proof.
  destruct (decide (t ∈ X)) as [H|H]; [by rewrite (size_remove t X H)|].
  replace (X ∖ {[t]}) with X by set_solver. lia.
Qed.

Lemma Acquire_step_inv t s : t ∉ waiting s → t ∉ holding s → sem_inv s → sem_inv (Acquire_step t s).
Proof.
  intros Hw Hh [Hc Hb Hnd Hww Hwh Hkh Hls]. unfold Acquire_step.
  pose proof (size_difference_le t (woken s)) as Hle.
  destruct (max s <=? count s) eqn:E; zbool; split; simpl; try done.
  - apply NoDup_app. split; [done|]. split; [|apply NoDup_singleton].
    intros x Hx ->%list_elem_of_singleton. done.
  - intros x [Hx|Hx]%elem_of_app; [specialize (Hww x Hx); set_solver|].
    apply list_elem_of_singleton in Hx as ->. set_solver.
  - intros x [Hx|Hx]%elem_of_app; [auto|]. by apply list_elem_of_singleton in Hx as ->.
  - intros x [Hx _]%elem_of_difference. auto.
  - intros _. lia.
  - rewrite size_add by done. lia.
  - lia.
  - intros x Hx. specialize (Hww x Hx). set_solver.
  - intros x Hx. apply not_elem_of_union. split; [auto|]. intros ->%elem_of_singleton. done.
  - intros x [Hx Hne]%elem_of_difference. apply not_elem_of_union. auto.
  - intros Hne. specialize (Hls Hne). lia.
Qed.

Lemma Release_step_inv t s : t ∈ holding s → sem_inv s → sem_inv (Release_step t s).
Proof.
  intros Hh [Hc Hb Hnd Hww Hwh Hkh Hls]. pose proof (size_remove t _ Hh) as Hs.
  unfold Release_step. destruct (waiting s) as [|u l] eqn:Ew; split; simpl; try lia; try done.
  - by intros x ?%not_elem_of_nil.
  - intros x Hx. specialize (Hkh x Hx). set_solver.
  - by apply NoDup_cons in Hnd as [_ ?].
  - apply NoDup_cons in Hnd as [Hu _]. intros x Hx. apply not_elem_of_union.
    split; [apply Hww; set_solver|]. intros ->%elem_of_singleton. done.
  - intros x Hx. specialize (Hwh x ltac:(set_solver)). set_solver.
  - intros x [Hx|Hx]%elem_of_union.
    + specialize (Hkh x Hx). set_solver.
    + apply elem_of_singleton in Hx as ->. specialize (Hwh u ltac:(set_solver)). set_solver.
  - intros _. rewrite size_add by (apply Hww; set_solver). specialize (Hls ltac:(done)). lia.
Qed.

Lemma sem_step_inv s s' : sem_step s s' → sem_inv s → sem_inv s' ∧ max s' = max s.
Proof.
  intros Hstep Hinv. destruct Hstep as [t s Hw Hk Hh|t s Hk|t s Hh].
  - split; [by apply Acquire_step_inv|]. unfold Acquire_step. by case_match.
  - split; [apply Acquire_step_inv; try done|unfold Acquire_step; by case_match].
    + intros Hw. by apply (sem_disj_ww _ Hinv t).
    + by apply (sem_disj_kh _ Hinv t).
  - split; [by apply Release_step_inv|done].
Qed.

Lemma sem_rtc_inv s0 s : rtc sem_step s0 s → sem_inv s0 → sem_inv s ∧ max s = max s0.
Proof.
  induction 1 as [s|s1 s2 s3 Hstep _ IH]; intros Hinv; [done|].
  destruct (sem_step_inv _ _ Hstep Hinv) as [Hinv2 <-]. by apply IH.
Qed.

(** ** Properties *)

(** A promise is resolved once: on a fresh promise the first [Set] publishes
    its value without blocking or panicking, a second [Set] of the resolved
    promise changes nothing, the first [Get] of a future returns the value and
    every later [Get] the zero value. *)
Theorem promise_set_once {T} (zero v v' : T) (h : list (Chan T)) :
  let '(p, h0) := NewPromise h in
  Future_Get zero (GetFuture p) h0 = Blocked ∧
  ∃ p1 h1, Promise_Set v p h0 = Done (p1, h1) ∧
    Promise_Set v' p1 h1 = Done (p1, h1) ∧
    ∃ h2, Future_Get zero (GetFuture p) h1 = Done (v, h2) ∧
      Future_Get zero (GetFuture p) h2 = Done (zero, h2).
Proof.
  pose proof (NewPromise_fresh h) as Hf. destruct (NewPromise h) as [p h0]. simpl in Hf.
  unfold Future_Get, chan_recv. simpl. split; [by rewrite (proj2 Hf)|].
  rewrite (Promise_Set_fresh v p h0 Hf). do 2 eexists. split; [done|]. split; [done|].
  destruct Hf as [_ Hc]. apply lookup_lt_Some in Hc.
  rewrite list_lookup_insert_eq by done. eexists. split; [done|].
  rewrite list_insert_insert_eq. by rewrite list_lookup_insert_eq.
Qed.

(** Idempotence of [Set] does not extend to copies: [Promise] carries its
    resolved flag by value, so after a promise was copied, resolving both
    copies panics on the closed channel. *)
Theorem promise_copy_panics {T} (v v' : T) (h : list (Chan T)) :
  let '(p, h0) := NewPromise h in
  ∃ p1 h1, Promise_Set v p h0 = Done (p1, h1) ∧ Promise_Set v' p h1 = Panicked.
Proof.
  pose proof (NewPromise_fresh h) as Hf. destruct (NewPromise h) as [p h0]. simpl in Hf.
  rewrite (Promise_Set_fresh v p h0 Hf). do 2 eexists. split; [done|].
  destruct Hf as [Hp Hc]. apply lookup_lt_Some in Hc.
  unfold Promise_Set, chan_send. by rewrite Hp, list_lookup_insert_eq.
Qed.

(** In every state reachable from a new semaphore, for any number of
    goroutines and any interleaving, the counter is the number of goroutines
    that hold a slot, and it is at most the limit. *)
Theorem semaphore_bound (limit : Z) (s : Semaphore)
  (Hreach : rtc sem_step (NewSemaphore limit) s) :
  count s = Z.of_nat (size (holding s)) ∧ Z.of_nat (size (holding s)) ≤ Z.max 0 limit.
Proof.
  destruct (sem_rtc_inv _ _ Hreach (sem_inv_new limit)) as [[Hc Hb _ _ _ _ _] Hm].
  simpl in Hm. rewrite Hm in Hb. split; [done|]. by rewrite <- Hc.
Qed.

(** Two goroutines on a semaphore of one slot; the second one waits. *)
Definition sem_two : Semaphore := Acquire_step 2 (Acquire_step 1 (NewSemaphore 1)).

Lemma sem_two_reachable : rtc sem_step (NewSemaphore 1) sem_two.
Proof.
  eapply rtc_l; [apply (sem_enter 1)|eapply rtc_l; [apply (sem_enter 2)|reflexivity]].
  all: vm_compute; set_solver.
Qed.

Lemma semaphore_bound_witness :
  count sem_two = Z.of_nat (size (holding sem_two)) ∧
  Z.of_nat (size (holding sem_two)) ≤ Z.max 0 1.
Proof. exact (semaphore_bound 1 sem_two sem_two_reachable). Defined.

(** C28: no wake-up is lost: in every reachable state, if some goroutine is
    waiting while a slot is free, then a signalled goroutine is on its way to
    re-test the condition; with no signalled goroutine, waiting implies that
    all slots are taken. *)
Theorem semaphore_no_lost_wakeup (limit : Z) (s : Semaphore)
  (Hreach : rtc sem_step (NewSemaphore limit) s) (Hwait : waiting s ≠ []) :
  limit ≤ count s + Z.of_nat (size (woken s)) ∧
  (count s < limit → ∃ t, t ∈ woken s ∧ sem_step s (Acquire_step t s) ∧
     t ∈ holding (Acquire_step t s)).
Proof.
  destruct (sem_rtc_inv _ _ Hreach (sem_inv_new limit)) as [Hinv Hm]. simpl in Hm.
  pose proof (sem_no_lost_signal _ Hinv Hwait) as Hls. rewrite Hm in Hls.
  split; [done|]. intros Hlt.
  destruct (decide (woken s = ∅)) as [E|[t Ht]%set_choose_L].
  { rewrite E, size_empty in Hls. lia. }
  exists t. split; [done|]. split; [by apply sem_retry|]. unfold Acquire_step.
  rewrite Hm. destruct (limit <=? count s) eqn:E; zbool; [lia|]. simpl. set_solver.
Qed.

Lemma semaphore_no_lost_wakeup_witness :
  1 ≤ count sem_two + Z.of_nat (size (woken sem_two)) ∧
  (count sem_two < 1 → ∃ t, t ∈ woken sem_two ∧ sem_step sem_two (Acquire_step t sem_two) ∧
     t ∈ holding (Acquire_step t sem_two)).
Proof.
  exact (semaphore_no_lost_wakeup 1 sem_two sem_two_reachable ltac:(vm_compute; discriminate)).
Defined.
