(* ===== verification/LogRecords.v ===== *)
(** * Log records

    The records the components give to their loggers: the texts of the errors
    (the [var] blocks of every package), the attributes as the code builds
    them, how [Slog.v] renders them, and a writer that collects them beside
    what a function does. *)

From S2P Require Import Prelude GoText Slog Gob WalLog Concurrency.

(** ** Texts of errors *)

(** The sentinels of [compute/errors.go], [storage/errors.go], the engine, the
    log, the segments and their directory, the network and the initialization. *)
Definition compute_errors : list (gerr * bytes) :=
  [(ErrInvalidCommand, str "invalid syntax of command"); (ErrInvalidArgument, str "invalid syntax of argument");
   (ErrEmptyCommand, str "empty command")].

Definition storage_errors : list (gerr * bytes) :=
  [(ErrStorageInvalidLogger, str "storage.NewStorage: logger is invalid"); (ErrKeyNotFound, str "key not found")].

Definition engine_logger_error : list (gerr * bytes) := [(ErrEngineInvalidLogger, str "invalid logger")].

Definition engine_errors : list (gerr * bytes) :=
  [(ErrFailedGenerateLSN, str "failed to generate LSN"); (ErrCreateWal, str "failed create wal")].

Definition wal_errors : list (gerr * bytes) :=
  [(ErrFailedToReadDirectory, str "failed to read directory");
   (ErrFailedOpenLastSegment, str "failed to open last segment"); (ErrWalInvalidLogger, str "invalid logger");
   (ErrFailedDecode, str "failed decode wal log"); (ErrApplyRecord, str "failed apply wal record")].

Definition segment_errors : list (gerr * bytes) :=
  [(ErrFailedSaveFile, str "failed to save file"); (ErrFailedFileCreate, str "failed to create file")].

Definition directory_errors : list (gerr * bytes) :=
  [(ErrFailedResolveSegmentPath, str "failed resolve segment path");
   (ErrInvalidWorkingFolder, str "invalid working folder");
   (ErrFailedToCreateDirectory, str "failed to create directory")].

Definition network_errors : list (gerr * bytes) :=
  [(ErrNetInvalidLogger, str "invalid logger"); (ErrInvalidConfig, str "invalid config");
   (ErrInvalidMaxConn, str "max connections is equal zero");
   (ErrInvalidBufferSize, str "buffer size is equal zero")].

Definition init_error : list (gerr * bytes) := [(ErrInitInvalidLogger, str "invalid logger")].

Definition sentinels : list (gerr * bytes) :=
  compute_errors ++ storage_errors ++ engine_logger_error ++ engine_errors ++ wal_errors ++ segment_errors ++
  directory_errors ++ network_errors ++ init_error.

(** What the operating system and [encoding/gob] say, and the name under which
    a file was opened. *)
Class LogTexts := {
  os_error_text : os_error → bytes;
  os_error_json : os_error → json;   (** the exported fields of the [*PathError] *)
  gob_error_text : gob_error → bytes;
  file_name : nat → bytes;           (** [file.Name()] *)
  panic_value : Value                (** [slog.Any] of what [recover] returns *)
}.

Section texts.
Context {texts : LogTexts}.

(** [err.Error()]. *)
Definition Error_text (e : gerr) : bytes :=
  match e with
  | EOS e => os_error_text e
  | EGob e => gob_error_text e
  | EText msg => msg
  | _ => from_option (λ '(_, (_, text)), text) [] (list_find (λ p, p.1 = e) sentinels)
  end.

(** What [encoding/json] makes of an error: those of [errors.New] and
    [fmt.Errorf] are structs without exported fields. *)
Definition error_json (e : gerr) : json :=
  match e with EOS e => os_error_json e | _ => JObject [] end.

End texts.

(** ** Records *)

(** [slog.String], [slog.Int64], [slog.String] of [err.Error()], [slog.Any] of
    an error, [slog.String] of a file's name, [slog.Any] of a [*Log] and of a
    recovered panic. *)
Inductive LogValue :=
  | LString (s : bytes)
  | LInt64 (z : Z)
  | LErrorText (e : gerr)
  | LError (e : gerr)
  | LFileName (h : nat)
  | LRecord (l : Log)
  | LPanic.

#[global] Instance LogValue_eq_dec : EqDecision LogValue.
Proof. solve_decision. Defined.

Record Entry := { e_level : Z; e_message : bytes; e_attrs : list (bytes * LogValue) }.

#[global] Instance Entry_eq_dec : EqDecision Entry.
Proof. solve_decision. Defined.

Section rendering.
Context {texts : LogTexts}.

(** A [*Log] has three exported fields; a missing list of arguments is [nil]. *)
Definition log_json (l : Log) : json :=
  JObject [(str "LSN", JNumber (LSN l)); (str "CommandID", JNumber (CommandID l));
           (str "Arguments", match Arguments l with [] => JNull | args => JArray (JString <$> args) end)].

Definition render_value (v : LogValue) : Value :=
  match v with
  | LString s => StringValue s
  | LInt64 z => Int64Value z
  | LErrorText e => StringValue (Error_text e)
  | LError e => AnyValue (Some (error_json e))
  | LFileName h => StringValue (file_name h)
  | LRecord l => AnyValue (Some (log_json l))
  | LPanic => panic_value
  end.

Definition render_attrs (attrs : list (bytes * LogValue)) : list Attr :=
  (λ '(k, v), {| attr_key := k; attr_value := render_value v |}) <$> attrs.

(** What a logger of the service writes for an entry. *)
Definition written {colors : Colors} (logger : Logger) (now : Time) (e : Entry) : bytes :=
  log_call (handler_of logger) now (e_level e) (e_message e) (render_attrs (e_attrs e)).

End rendering.

(** ** A writer of entries

    A function that may block or panic, with the entries it logs before it
    ends. *)

Definition logged (A : Type) : Type := outcome (A * list Entry).

#[export] Instance logged_ret : MRet logged := λ A a, Done (a, []).

#[export] Instance logged_bind : MBind logged := λ A B f m,
  obind m (λ '(a, es), obind (f a) (λ '(b, es'), Done (b, es ++ es'))).

(** Records that were written before. *)
Definition tell (es : list Entry) : logged () := Done ((), es).

(** A call that logs nothing. *)
Definition silently {A} (m : outcome A) : logged A := obind m (λ a, Done (a, [])).

Definition log_at (level : Z) (msg : bytes) (attrs : list (bytes * LogValue)) : logged () :=
  Done ((), [{| e_level := level; e_message := msg; e_attrs := attrs |}]).

Abbreviation log_debug := (log_at level_debug).
Abbreviation log_info := (log_at level_info).
Abbreviation log_error := (log_at level_error).

(** The function without its log. *)
Definition erase {A} (m : logged A) : outcome A := obind m (λ '(a, _), Done a).

(** ** Lemmas: the writer *)

Lemma erase_bind {A B} (f : A → logged B) (m : logged A) : erase (m ≫= f) = obind (erase m) (λ a, erase (f a)).
Proof. destruct m as [[a es]| |]; simpl; [|done..]. unfold mbind, logged_bind. simpl. by destruct (f a) as [[b es']| |]. Qed.

Lemma erase_silently {A} (m : outcome A) : erase (silently m) = m.
Proof. by destruct m. Qed.
