(* ===== verification/HashTable.v ===== *)
(** * The in-memory hash table and the identifier generator

    Models [in_memory/hash_table.go] and [in_memory/id_generator.go], and the
    context values of [internal/lib/context_util]. Every method of the hash
    table runs under its lock and is one atomic operation on the map. *)

From S2P Require Import Prelude GoText.

(** ** The hash table *)

Record HashTable := { data : gmap bytes bytes }.

Definition NewHashTable : HashTable := {| data := ∅ |}.

Definition HashTable_Set (key value : bytes) (h : HashTable) : HashTable :=
  {| data := <[key := value]> (data h) |}.

(** The value and whether the key was present; the zero string otherwise. *)
Definition HashTable_Get (key : bytes) (h : HashTable) : bytes * bool :=
  match data h !! key with
  | Some v => (v, true)
  | None => ([], false)
  end.

Definition HashTable_Del (key : bytes) (h : HashTable) : HashTable :=
  {| data := delete key (data h) |}.

(** The interface through which the write-ahead log changes the table
    ([wal.CommandHashTable]). *)
Class CommandHashTable (H : Type) := {
  cht_Set : bytes → bytes → H → H;
  cht_Del : bytes → H → H
}.

#[global] Instance hash_table_commands : CommandHashTable HashTable :=
  {| cht_Set := HashTable_Set; cht_Del := HashTable_Del |}.

(** ** The generator of log sequence numbers *)

Definition CompareAndSwap (old new c : Z) : Z := if c =? old then new else c.

(** [counter.Add(1)] on an [atomic.Int64], which wraps around. *)
Definition atomic_add (c : Z) : Z := int64 (c + 1).

Definition NewIDGenerator (previousID : Z) : Z := previousID.

(** The identifier returned and the new counter. *)
Definition Generate (counter : Z) : Z * Z :=
  let c := atomic_add (CompareAndSwap MaxInt64 0 counter) in (c, c).

(** Concurrent callers: [Generate] is two atomic operations, and other
    goroutines can run between them. *)
Record GenState := {
  counter : Z;
  swapped : gset nat;   (** goroutines between the two operations *)
  issued : list Z       (** identifiers returned, in order *)
}.

Definition gen_init (c : Z) : GenState := {| counter := c; swapped := ∅; issued := [] |}.

(** The two operations of [Generate], called by goroutine [t]. *)
Definition gen_swap (t : nat) (s : GenState) : GenState :=
  {| counter := CompareAndSwap MaxInt64 0 (counter s); swapped := swapped s ∪ {[t]}; issued := issued s |}.

Definition gen_next (t : nat) (s : GenState) : GenState :=
  {| counter := atomic_add (counter s); swapped := swapped s ∖ {[t]};
     issued := issued s ++ [atomic_add (counter s)] |}.

Inductive gen_step : GenState → GenState → Prop :=
  | gen_cas t s : t ∉ swapped s → gen_step s (gen_swap t s)
  | gen_add t s : t ∈ swapped s → gen_step s (gen_next t s).

(** ** Context values *)

Inductive ctx_value := CString (s : bytes) | COther.

(** A context is the list of its key/value pairs, innermost first. *)
Abbreviation Ctx := (list (bytes * ctx_value)).

Definition TxIDKey : bytes := str "TxID".

Definition WithValue (ctx : Ctx) (k : bytes) (v : ctx_value) : Ctx := (k, v) :: ctx.

Fixpoint Ctx_Value (ctx : Ctx) (k : bytes) : option ctx_value :=
  match ctx with
  | [] => None
  | (k', v) :: ctx' => if bool_decide (k = k') then Some v else Ctx_Value ctx' k
  end.

Definition GetTxIDFromContext (ctx : Ctx) : Z :=
  match Ctx_Value ctx TxIDKey with
  | Some (CString s) => match ParseInt s with Some id => id | None => 0 end
  | _ => 0
  end.

(** ** Properties *)

(** The hash table is a map: after [Set] the key reads the new value, after
    [Del] it is absent, and other keys are unaffected by either. *)
Theorem hash_table_map_laws (h : HashTable) (k k' v : bytes) :
  HashTable_Get k (HashTable_Set k v h) = (v, true) ∧
  HashTable_Get k (HashTable_Del k h) = ([], false) ∧
  (k' ≠ k → HashTable_Get k' (HashTable_Set k v h) = HashTable_Get k' h ∧
            HashTable_Get k' (HashTable_Del k h) = HashTable_Get k' h) ∧
  HashTable_Get k NewHashTable = ([], false).
Proof.
  unfold HashTable_Get. simpl. rewrite lookup_insert_eq, lookup_delete_eq, lookup_empty.
  split; [done|]. split; [done|]. split; [|done].
  intros Hne. by rewrite lookup_insert_ne, lookup_delete_ne.
Qed.

Lemma Generate_spec c : 0 ≤ c ≤ MaxInt64 →
  Generate c = if c =? MaxInt64 then (1, 1) else (c + 1, c + 1).
Proof.
  intros Hc. unfold Generate, CompareAndSwap, atomic_add.
  destruct (c =? MaxInt64) eqn:E; zbool; [done|].
  unfold MaxInt64 in *. rewrite int64_id by (unfold in_int64; lia). done.
Qed.

(** Called by one goroutine at a time, [Generate] returns the successor of
    the counter, and 1 after [math.MaxInt64]; so identifiers stay between 1 and
    [math.MaxInt64] and never equal the value 0 that the engine rejects. *)
Theorem generate_sequential (c : Z) (Hc : 0 ≤ c ≤ MaxInt64) :
  Generate c = (if c =? MaxInt64 then (1, 1) else (c + 1, c + 1)) ∧
  1 ≤ (Generate c).1 ≤ MaxInt64 ∧ 0 ≤ (Generate c).2 ≤ MaxInt64.
Proof.
  rewrite Generate_spec by done. split; [done|].
  destruct (c =? MaxInt64) eqn:E; zbool; unfold MaxInt64 in *; simpl; lia.
Qed.

Lemma generate_sequential_example :
  Generate MaxInt64 = (if MaxInt64 =? MaxInt64 then (1, 1) else (MaxInt64 + 1, MaxInt64 + 1)) ∧
  1 ≤ (Generate MaxInt64).1 ≤ MaxInt64 ∧ 0 ≤ (Generate MaxInt64).2 ≤ MaxInt64.
Proof. exact (generate_sequential MaxInt64 ltac:(unfold MaxInt64; lia)). Defined.

Definition gen_inv (c0 : Z) (s : GenState) : Prop :=
  c0 + zlen (issued s) ≤ MaxInt64 →
  issued s = seqZ (c0 + 1) (zlen (issued s)) ∧
  (counter s = c0 + zlen (issued s) ∨ c0 + zlen (issued s) = MaxInt64).

Lemma gen_inv_init c0 : gen_inv c0 (gen_init c0).
Proof. intros _. simpl. rewrite zlen_nil. split; [done|left; lia]. Qed.

Lemma gen_swap_inv c0 t s : 0 ≤ c0 → gen_inv c0 s → gen_inv c0 (gen_swap t s).
Proof.
  unfold gen_inv. intros Hc0 IH Hle. pose proof (zlen_nonneg (issued s)) as Hnn. simpl in *.
  destruct (IH Hle) as [Hi Hc]. split; [done|]. unfold CompareAndSwap.
  destruct (counter s =? MaxInt64) eqn:E; zbool; [|done]. right. lia.
Qed.

Lemma gen_next_inv c0 t s : 0 ≤ c0 → gen_inv c0 s → gen_inv c0 (gen_next t s).
Proof.
  unfold gen_inv. intros Hc0 IH Hle. pose proof (zlen_nonneg (issued s)) as Hnn. simpl in *.
  rewrite zlen_app in *. change (zlen [_]) with 1 in *.
  destruct IH as [Hi Hc]; [lia|]. destruct Hc as [Hc|Hc]; [|lia].
  unfold atomic_add. rewrite Hc, int64_id by (unfold in_int64, MaxInt64 in *; lia).
  split; [|left; lia]. rewrite Hi at 1. rewrite seqZ_app by lia.
  f_equal. rewrite seqZ_cons by lia. simpl. f_equal. lia.
Qed.

Lemma gen_step_inv c0 s s' : 0 ≤ c0 → gen_step s s' → gen_inv c0 s → gen_inv c0 s'.
Proof. intros Hc0 [t s0 _|t s0 _]; [by apply gen_swap_inv|by apply gen_next_inv]. Qed.

Lemma gen_inv_NoDup c0 s : gen_inv c0 s → c0 + zlen (issued s) ≤ MaxInt64 → NoDup (issued s).
Proof. intros Hi Hle. destruct (Hi Hle) as [-> _]. apply NoDup_seqZ. Qed.

(** C29: concurrent callers never get the same identifier, whatever the
    interleaving of the compare-and-swap and the addition, as long as the
    counter has not reached [math.MaxInt64]: the identifiers returned are
    consecutive from the initial counter and pairwise distinct. *)
Theorem generate_concurrent_unique (c0 : Z) (s : GenState)
  (Hc0 : 0 ≤ c0) (Hreach : rtc gen_step (gen_init c0) s)
  (Hsmall : c0 + zlen (issued s) ≤ MaxInt64) :
  issued s = seqZ (c0 + 1) (zlen (issued s)) ∧ NoDup (issued s).
Proof.
  assert (gen_inv c0 s) as Hinv.
  { pose proof (gen_inv_init c0) as H0. clear Hsmall.
    induction Hreach as [|s1 s2 s3 Hstep _ IH]; [done|]. apply IH. by eapply gen_step_inv. }
  destruct (Hinv Hsmall) as [Hi _]. split; [done|]. rewrite Hi. apply NoDup_seqZ.
Qed.

(** Two goroutines that both pass the test before either adds. *)
Definition gen_two (c0 : Z) : GenState :=
  let c1 := CompareAndSwap MaxInt64 0 c0 in
  let c2 := CompareAndSwap MaxInt64 0 c1 in
  {| counter := atomic_add (atomic_add c2);
     swapped := ((∅ ∪ {[1%nat]} ∪ {[2%nat]}) ∖ {[1%nat]}) ∖ {[2%nat]};
     issued := ([] ++ [atomic_add c2]) ++ [atomic_add (atomic_add c2)] |}.

Lemma gen_two_reachable c0 : rtc gen_step (gen_init c0) (gen_two c0).
Proof.
  eapply rtc_l; [apply (gen_cas 1); simpl; set_solver|].
  eapply rtc_l; [apply (gen_cas 2); simpl; set_solver|].
  eapply rtc_l; [apply (gen_add 1); simpl; set_solver|].
  eapply rtc_l; [apply (gen_add 2); simpl; set_solver|].
  reflexivity.
Qed.

Lemma generate_concurrent_unique_witness :
  issued (gen_two 0) = seqZ (0 + 1) (zlen (issued (gen_two 0))) ∧ NoDup (issued (gen_two 0)).
Proof.
  exact (generate_concurrent_unique 0 (gen_two 0) ltac:(lia) (gen_two_reachable 0)
    ltac:(vm_compute; discriminate)).
Defined.

(** The wrap-around is not atomic: two goroutines that both test the counter
    just below [math.MaxInt64] before either adds drive it past the maximum,
    and the second one receives the most negative [int64] as its identifier. *)
Theorem generate_race_negative :
  ∃ s, rtc gen_step (gen_init (MaxInt64 - 1)) s ∧ issued s = [MaxInt64; - 2 ^ 63].
Proof. exists (gen_two (MaxInt64 - 1)). split; [apply gen_two_reachable|by vm_compute]. Qed.

(** The identifier the engine stores in the context as decimal text is read
    back unchanged by the write-ahead log, for every [int64] and whatever else
    the context carries; a context without an identifier reads as 0. *)
Theorem txid_context_roundtrip (ctx : Ctx) (lsn : Z) (Hlsn : in_int64 lsn) :
  GetTxIDFromContext (WithValue ctx TxIDKey (CString (FormatInt lsn))) = lsn ∧
  GetTxIDFromContext [] = 0.
Proof.
  unfold GetTxIDFromContext. cbn [WithValue Ctx_Value].
  rewrite bool_decide_eq_true_2 by done. by rewrite ParseInt_FormatInt.
Qed.

Lemma txid_context_roundtrip_example :
  GetTxIDFromContext (WithValue [(TxIDKey, COther)] TxIDKey (CString (FormatInt (-7)))) = -7 ∧
  GetTxIDFromContext [] = 0.
Proof. exact (txid_context_roundtrip [(TxIDKey, COther)] (-7) ltac:(vm_compute; split; [discriminate|reflexivity])). Defined.
