(* ===== verification/Wal.v ===== *)
(** * The write-ahead log

    Models [in_memory/wal]: write requests ([write_request.go]), the batch
    writer and its notifications ([wal_writer.go]), and the log itself
    ([wal.go]): appending to the active batch, sealing, flushing, applying
    records to the hash table, and recovery. The flusher goroutine and the
    interleaving of clients are in the file on the runtime. *)

From S2P Require Import Prelude GoText Compute Config Gob WalLog OS FileSystem Concurrency HashTable.

(** ** Write requests *)

Record WriteRequest := { log : Log; promise : Promise }.

#[global] Instance write_request_eq_dec : EqDecision WriteRequest.
Proof. solve_decision. Defined.

Definition NewWriteRequest (lsn commandID : Z) (arguments : list bytes) (h : list (Chan error))
  : WriteRequest * list (Chan error) :=
  let '(p, h') := NewPromise h in
  ({| log := {| LSN := lsn; CommandID := commandID; Arguments := arguments |}; promise := p |}, h').

Definition SetResponse (err : error) (r : WriteRequest) (h : list (Chan error))
  : outcome (WriteRequest * list (Chan error)) :=
  obind (Promise_Set err (promise r) h) (λ '(p, h'), Done ({| log := log r; promise := p |}, h')).

Definition FutureResponse (r : WriteRequest) : Future := GetFuture (promise r).

(** ** State *)

(** The copy of the configuration a [Wal] keeps. *)
Record walConfig := {
  flushingBatchTimeout : Z;
  flushingBatchCount : Z;
  flushingBatchVolume : Z;
  walMaxSegmentSize : Z;
  segmentStoragePath : bytes;
  walMaskName : bytes
}.

(** [Wal]: the writer and the reader share one segment object, and the hash
    table is shared with the engine. [batches] is the content of the channel
    of sealed batches. *)
Record Wal (H : Type) := {
  cfg : walConfig;
  segment : Segment;
  batch : list WriteRequest;
  batches : list (list WriteRequest);
  activeBatchVolume : Z;
  commandHashTable : H
}.
Arguments cfg {H} _.
Arguments segment {H} _.
Arguments batch {H} _.
Arguments batches {H} _.
Arguments activeBatchVolume {H} _.
Arguments commandHashTable {H} _.

(** The capacity of the channel of sealed batches. *)
Definition batches_cap : nat := 5.

(** A running process: the log, its channels, and the operating system. *)
Record Sys (H : Type) := { wal : Wal H; heap : list (Chan error); os : world }.
Arguments wal {H} _.
Arguments heap {H} _.
Arguments os {H} _.
Arguments Build_Sys {H} _ _ _.

Section wal.
Context {env : Env} {ids : GobTypeIds} {sorter : SortSlice}.
Context {H : Type} {cht : CommandHashTable H}.

Definition set_segment (w : Wal H) (s : Segment) : Wal H :=
  {| cfg := cfg w; segment := s; batch := batch w; batches := batches w;
     activeBatchVolume := activeBatchVolume w; commandHashTable := commandHashTable w |}.

Definition set_table (w : Wal H) (t : H) : Wal H :=
  {| cfg := cfg w; segment := segment w; batch := batch w; batches := batches w;
     activeBatchVolume := activeBatchVolume w; commandHashTable := t |}.

Definition set_batch (w : Wal H) (b : list WriteRequest) (volume : Z) : Wal H :=
  {| cfg := cfg w; segment := segment w; batch := b; batches := batches w;
     activeBatchVolume := volume; commandHashTable := commandHashTable w |}.

Definition set_batches (w : Wal H) (q : list (list WriteRequest)) : Wal H :=
  {| cfg := cfg w; segment := segment w; batch := batch w; batches := q;
     activeBatchVolume := activeBatchVolume w; commandHashTable := commandHashTable w |}.

Definition NewWal (logger : option Logger) (c : WalConfig) (seg : Segment) (cmd : H) : res (Wal H) :=
  match logger with
  | None => Err ErrWalInvalidLogger
  | Some _ =>
      Ok {| cfg := {| flushingBatchTimeout := FlushingBatchTimeout c;
                      flushingBatchCount := FlushingBatchCount c;
                      flushingBatchVolume := FlushingBatchVolume c;
                      walMaxSegmentSize := MaxSegmentSize c;
                      segmentStoragePath := SegmentStoragePath c;
                      walMaskName := MaskName c |};
            segment := seg; batch := []; batches := []; activeBatchVolume := 0;
            commandHashTable := cmd |}
  end.

(** ** Applying a record *)

(** [Wal.apply]: command ids other than 1 and 2 are ignored. *)
Definition apply (record : Log) (t : H) : error * H :=
  if CommandID record =? 1 then
    match Arguments record with
    | k :: v :: _ => (None, cht_Set k v t)
    | _ => (Some ErrApplyRecord, t)
    end
  else if CommandID record =? 2 then
    match Arguments record with
    | k :: _ => (None, cht_Del k t)
    | _ => (Some ErrApplyRecord, t)
    end
  else (None, t).

(** ** The writer *)

(** [notification] resolves the promise of every request of the slice, in
    place. *)
Fixpoint notification (response : error) (requests : list WriteRequest) (h : list (Chan error))
  : outcome (list WriteRequest * list (Chan error)) :=
  match requests with
  | [] => Done ([], h)
  | r :: rs =>
      obind (Promise_Set response (promise r) h) (λ '(p, h1),
      obind (notification response rs h1) (λ '(rs', h2),
      Done ({| log := log r; promise := p |} :: rs', h2)))
  end.

(** [WalWriter.Write]: one encoder for the batch, one write to the segment,
    and then the notification of every request, whatever the outcome. *)
Definition WalWriter_Write (requests : list WriteRequest) (s : Sys H)
  : outcome (error * list WriteRequest * Sys H) :=
  let '(enc, err) := encode_logs (log <$> requests) NewEncoder in
  match err with
  | Some e =>
      obind (notification (Some e) requests (heap s)) (λ '(rs, h),
      Done (Some e, rs, {| wal := wal s; heap := h; os := os s |}))
  | None =>
      let '(err, seg, w) := Segment_Write (segment (wal s)) (out enc) (os s) in
      obind (notification err requests (heap s)) (λ '(rs, h),
      Done (err, rs, {| wal := set_segment (wal s) seg; heap := h; os := w |}))
  end.

(** ** Sealing and flushing *)

(** [SealBatch]: the closure run under the mutex assigns the local variable
    [sealedBatch] and resets the batch. *)
Definition SealBatch (w : Wal H) : list WriteRequest * Wal H :=
  WithLock (Some (λ '(_, w), (batch w, set_batch w [] 0))) ([], w).

(** Errors of [apply] are only logged here. *)
Definition apply_all (records : list Log) (t : H) : H :=
  foldl (λ t l, (apply l t).2) t records.

Definition flushBatch (b : list WriteRequest) (s : Sys H) : outcome (error * Sys H) :=
  if 0 <? zlen b then
    obind (WalWriter_Write b s) (λ '(err, b', s'),
    match err with
    | Some e => Done (Some e, s')
    | None =>
        let sorted := sort_slice (λ r, LSN (log r)) b' in
        Done (None, {| wal := set_table (wal s') (apply_all (log <$> sorted) (commandHashTable (wal s')));
                       heap := heap s'; os := os s' |})
    end)
  else Done (None, s).

(** ** Appending *)

(** The critical section of [push]: append the request, add the size of its
    encoding by a fresh encoder, and seal the batch at either threshold. *)
Definition push_locked (record : WriteRequest) (w : Wal H) : list WriteRequest * Wal H :=
  let b := batch w ++ [record] in
  let buf := (Encode (log record) []).1 in
  let volume := int64 (activeBatchVolume w + zlen buf) in
  if (flushingBatchCount (cfg w) <=? zlen b) || (flushingBatchVolume (cfg w) <=? volume)
  then (b, set_batch w [] 0)
  else ([], set_batch w b volume).

(** The part of [push] before the channel operations. *)
Definition push_start (ctx : Ctx) (commandID : Z) (args : list bytes) (s : Sys H)
  : WriteRequest * list WriteRequest * Sys H :=
  let lsn := GetTxIDFromContext ctx in
  let '(record, h) := NewWriteRequest lsn commandID args (heap s) in
  let '(sealedBatch, w) := WithLock (Some (λ '(_, w), push_locked record w)) ([], wal s) in
  (record, sealedBatch, {| wal := w; heap := h; os := os s |}).

(** ** Recovery *)

(** The records of one segment, in order; the first error stops. *)
Fixpoint apply_until (records : list Log) (t : H) : error * H :=
  match records with
  | [] => (None, t)
  | l :: ls =>
      let '(err, t') := apply l t in
      match err with
      | Some e => (Some e, t')
      | None => apply_until ls t'
      end
  end.

(** One iteration of the loop over the segment files. *)
Definition recover_file (p : bytes) (t : H) (w : world) : error * H * world :=
  let '(r, w1) := Segment_Read p w in
  match r with
  | Err e => (Some e, t, w1)
  | Ok data =>
      let '(logs, err) := decode_all data in
      match err with
      | Some _ => (Some ErrFailedDecode, t, w1)
      | None =>
          let '(err, t') := apply_until (sort_slice LSN logs) t in
          (err, t', w1)
      end
  end.

Fixpoint recover_files (ps : list bytes) (t : H) (w : world) : error * H * world :=
  match ps with
  | [] => (None, t, w)
  | p :: ps' =>
      let '(err, t1, w1) := recover_file p t w in
      match err with
      | Some e => (Some e, t1, w1)
      | None => recover_files ps' t1 w1
      end
  end.

(** The file that following flushes append to: a new one in an empty
    directory, the last one otherwise. *)
Definition open_last (ps : list bytes) (seg : Segment) (w : world) : res nat * Segment * world :=
  match last ps with
  | None => Segment_CreateFile seg w
  | Some p =>
      let '(r, w1) := os_open_append p w in
      match r with
      | Err _ => (Err ErrFailedOpenLastSegment, seg, w1)
      | Ok h => (Ok h, seg, w1)
      end
  end.

Definition Recovery (s : Sys H) : error * Sys H :=
  let w := wal s in
  let '(r, o1) := Segment_GetList (segment w) (os s) in
  match r with
  | Err _ => (Some ErrFailedToReadDirectory, {| wal := w; heap := heap s; os := o1 |})
  | Ok filesList =>
      let '(err, t, o2) := recover_files filesList (commandHashTable w) o1 in
      match err with
      | Some e => (Some e, {| wal := set_table w t; heap := heap s; os := o2 |})
      | None =>
          let '(r, seg, o3) := open_last filesList (segment w) o2 in
          match r with
          | Err e => (Some e, {| wal := set_segment (set_table w t) seg; heap := heap s; os := o3 |})
          | Ok h =>
              let '(seg', o4) := SetFile seg (Some h) o3 in
              (None, {| wal := set_segment (set_table w t) seg'; heap := heap s; os := o4 |})
          end
      end
  end.

End wal.

(** ** Lemmas: notification *)

(** Requests whose promises are unresolved and pairwise distinct, as
    [NewWriteRequest] makes them. *)
Definition fresh_requests (rs : list WriteRequest) (h : list (Chan error)) : Prop :=
  NoDup ((λ r, result (promise r)) <$> rs) ∧ Forall (λ r, fresh_promise (promise r) h) rs.

(** The channel of a request holds the given response and is closed. *)
Definition answered (response : error) (h : list (Chan error)) (r : WriteRequest) : Prop :=
  h !! result (promise r) = Some {| c_buf := [response]; c_closed := true |}.

(** The caller blocked in [future.Get] receives the response. *)
Lemma answered_get response h r : answered response h r →
  ∃ h', Future_Get None (FutureResponse r) h = Done (response, h').
Proof. unfold answered, Future_Get, chan_recv. simpl. intros ->. eauto. Qed.

Lemma notification_fresh response rs : ∀ h, fresh_requests rs h →
  ∃ rs' h', notification response rs h = Done (rs', h') ∧
    log <$> rs' = log <$> rs ∧ length h' = length h ∧
    Forall (answered response h') rs ∧
    (∀ c, c ∉ ((λ r, result (promise r)) <$> rs) → h' !! c = h !! c).
Proof.
  induction rs as [|r rs IH]; intros h [Hnd Hf].
  { exists [], h. repeat split; try done. }
  apply NoDup_cons in Hnd as [Hr Hnd]. apply Forall_cons in Hf as [Hfr Hfs]. simpl.
  rewrite Promise_Set_fresh by done. simpl.
  set (h1 := <[_ := _]> h). pose proof (lookup_lt_Some _ _ _ (proj2 Hfr)) as Hlt.
  destruct (IH h1) as (rs' & h' & -> & Hlog & Hlen & Hans & Hsame).
  { split; [done|]. apply Forall_forall. intros r' Hin. rewrite Forall_forall in Hfs.
    destruct (Hfs r' Hin) as [Hp Hc]. split; [done|]. unfold h1.
    rewrite list_lookup_insert_ne; [done|]. intros E. apply Hr. rewrite E.
    by apply (list_elem_of_fmap_2 (λ r, result (promise r))). }
  eexists _, _. split; [done|]. rewrite !fmap_cons, Hlog. split; [done|].
  rewrite Hlen. unfold h1. rewrite length_insert. split; [done|]. split.
  - constructor; [|done]. unfold answered. rewrite Hsame by done. unfold h1.
    by apply list_lookup_insert_eq.
  - intros c [Hc1 Hc2]%not_elem_of_cons. rewrite Hsame by done. unfold h1.
    by rewrite list_lookup_insert_ne.
Qed.

(** ** Lemmas: flushing *)

Section flush.
Context {env : Env} {ids : GobTypeIds} {sorter : SortSlice}.
Context {H : Type} {cht : CommandHashTable H}.

Lemma WalWriter_Write_spec rs (s : Sys H) :
  fresh_requests rs (heap s) → Forall wf_log (log <$> rs) →
  ∃ rs' h', let r := Segment_Write (segment (wal s)) (stream (log <$> rs)) (os s) in
    WalWriter_Write rs s = Done (r.1.1, rs', {| wal := set_segment (wal s) r.1.2; heap := h'; os := r.2 |}) ∧
    log <$> rs' = log <$> rs ∧ length h' = length (heap s) ∧ Forall (answered r.1.1 h') rs.
Proof.
  intros Hf Hwf. unfold WalWriter_Write.
  destruct (encode_logs_stream _ Hwf) as (enc & -> & Hout). rewrite Hout.
  destruct (Segment_Write _ _ _) as [[err seg] w]. simpl.
  destruct (notification_fresh err rs (heap s) Hf) as (rs' & h' & -> & Hlog & Hlen & Hans & _).
  exists rs', h'. done.
Qed.

Lemma flushBatch_spec b (s : Sys H) :
  b ≠ [] → fresh_requests b (heap s) → Forall wf_log (log <$> b) →
  ∃ h' sorted, let r := Segment_Write (segment (wal s)) (stream (log <$> b)) (os s) in
    let w' := set_segment (wal s) r.1.2 in
    flushBatch b s = Done (r.1.1,
      {| wal := match r.1.1 with
                | None => set_table w' (apply_all sorted (commandHashTable (wal s)))
                | Some _ => w'
                end; heap := h'; os := r.2 |}) ∧
    sorted ≡ₚ log <$> b ∧ StronglySorted (λ x y, LSN x ≤ LSN y) sorted ∧
    length h' = length (heap s) ∧ Forall (answered r.1.1 h') b.
Proof.
  intros Hne Hf Hwf. unfold flushBatch.
  destruct (WalWriter_Write_spec b s Hf Hwf) as (rs' & h' & E & Hlog & Hlen & Hans).
  exists h', (log <$> sort_slice (λ r, LSN (log r)) rs'). cbn zeta in *. rewrite E.
  destruct (0 <? zlen b) eqn:Hz; zbool; [|by destruct b; simpl in *; [|unfold zlen in *; simpl in *; lia]].
  split; [by destruct (Segment_Write _ _ _) as [[[e|] seg] w]|].
  split; [by rewrite sort_slice_perm, Hlog|]. split; [|done].
  pose proof (sort_slice_sorted (λ r, LSN (log r)) rs') as Hs.
  induction Hs as [|x l _ IH Hx]; [constructor|]. simpl. constructor; [done|].
  by apply Forall_fmap.
Qed.

End flush.

(** ** Lemmas: the active batch *)

Section push.
Context {ids : GobTypeIds} {H : Type}.

(** The size of a record as [push] measures it, and of a batch. *)
Definition encoded_size (l : Log) : Z := zlen (Encode l []).1.

Definition batch_volume (b : list WriteRequest) : Z :=
  foldr (λ r v, encoded_size (log r) + v) 0 b.

(** The stream of a batch is no longer than what [push] counted for it. *)
Lemma batch_volume_stream b : Forall wf_log (log <$> b) → zlen (stream (log <$> b)) ≤ batch_volume b.
Proof.
  intros Hwf. assert (zlen (values (log <$> b)) ≤ batch_volume b ∧
    (b ≠ [] → zlen (descriptors ++ values (log <$> b)) ≤ batch_volume b)) as [_ Hne].
  { induction b as [|r b IH]; [by split|]. apply Forall_cons in Hwf as [Hr Hb].
    destruct (IH Hb) as [Hv _]. rewrite fmap_cons.
    change (values (log r :: (log <$> b))) with (frame (value_message (log r)) ++ values (log <$> b)).
    assert (encoded_size (log r) = zlen (descriptors ++ frame (value_message (log r)))) as E.
    { unfold encoded_size, Encode. rewrite EncodeTo_wf by apply Hr. done. }
    simpl batch_volume. rewrite E, !zlen_app. pose proof (zlen_nonneg descriptors). split; lia. }
  destruct b as [|r b]; [done|]. by apply Hne.
Qed.

Lemma batch_volume_snoc b r : batch_volume (b ++ [r]) = batch_volume b + encoded_size (log r).
Proof. induction b as [|r' b IH]; simpl; [lia|]. rewrite IH. lia. Qed.

Lemma encoded_size_bound l : 0 ≤ encoded_size l < 2 ^ 36.
Proof.
  unfold encoded_size, Encode. split; [apply zlen_nonneg|].
  unfold EncodeTo. destruct descriptor_sizes as [Hd1 Hd2].
  assert (∀ m, zlen m ≤ tooBig → zlen (frame m) ≤ tooBig + 9) as Hframe.
  { intros m Hm. unfold frame. rewrite zlen_app. pose proof (zlen_nonneg m).
    pose proof (encodeUint_length (zlen m)) as Hu. unfold in_uint64, tooBig in *. lia. }
  pose proof (Hframe _ (Z.lt_le_incl _ _ Hd1)). pose proof (Hframe _ (Z.lt_le_incl _ _ Hd2)).
  destruct (tooBig <? zlen (value_message l)) eqn:E; zbool; simpl;
    unfold descriptors; rewrite !zlen_app.
  - unfold tooBig in *. lia.
  - pose proof (Hframe _ E). unfold tooBig in *. lia.
Qed.

(** Between two critical sections the active batch is below both thresholds,
    and the recorded volume is the sum of the sizes of its records. *)
Record batch_inv (w : Wal H) : Prop := {
  bi_count : zlen (batch w) < flushingBatchCount (cfg w);
  bi_below : activeBatchVolume w < flushingBatchVolume (cfg w);
  bi_volume : activeBatchVolume w = batch_volume (batch w)
}.

End push.

(** The critical section of [push]. *)
Lemma push_locked_spec {ids : GobTypeIds} {H : Type} (r : WriteRequest) (w : Wal H)
  (Hinv : batch_inv w) (Hmax : flushingBatchVolume (cfg w) ≤ 2 ^ 62)
  (Hcount : 0 < flushingBatchCount (cfg w)) (Hvolume : 0 < flushingBatchVolume (cfg w)) :
  batch_inv (push_locked r w).2 ∧
  (push_locked r w).1 ++ batch (push_locked r w).2 = batch w ++ [r] ∧
  (if bool_decide (flushingBatchCount (cfg w) ≤ zlen (batch w) + 1 ∨
                   flushingBatchVolume (cfg w) ≤ batch_volume (batch w ++ [r]))
   then batch (push_locked r w).2 = [] else (push_locked r w).1 = []).
Proof.
  destruct Hinv as [Hc Hb Hv]. unfold push_locked. fold (encoded_size (log r)).
  pose proof (encoded_size_bound (log r)) as Hsz.
  assert (0 ≤ batch_volume (batch w)) as Hnn.
  { generalize (batch w). intros b. induction b as [|x b IH]; simpl; [lia|].
    pose proof (encoded_size_bound (log x)). lia. }
  rewrite int64_id by (unfold in_int64; lia).
  rewrite zlen_app, (zlen_cons r []), (zlen_nil (A:=WriteRequest)).
  rewrite batch_volume_snoc, Hv.
  destruct ((flushingBatchCount (cfg w) <=? zlen (batch w) + (1 + 0)) ||
    (flushingBatchVolume (cfg w) <=? batch_volume (batch w) + encoded_size (log r))) eqn:E; simpl.
  - rewrite bool_decide_eq_true_2 by (apply orb_true_iff in E as [E|E]; zbool; lia).
    split; [|by rewrite app_nil_r]. split; simpl; rewrite ?zlen_nil; done.
  - apply orb_false_iff in E as [E1 E2]. zbool. rewrite bool_decide_eq_false_2 by lia.
    split; [|done]. split; simpl; [rewrite zlen_app, zlen_cons, zlen_nil; lia|lia|].
    by rewrite batch_volume_snoc.
Qed.

Lemma push_locked_volume {ids : GobTypeIds} {H : Type} (r : WriteRequest) (w : Wal H) :
  batch_inv w → flushingBatchVolume (cfg w) ≤ 2 ^ 60 → batch_volume (push_locked r w).1 < 2 ^ 61.
Proof.
  intros [_ Hb Hv] Hmax. unfold push_locked. fold (encoded_size (log r)).
  pose proof (encoded_size_bound (log r)) as Hsz. case_match; simpl; [|lia].
  rewrite batch_volume_snoc. lia.
Qed.

(** ** Lemmas: applying records *)

(** The abstract effect of a record on a map of keys to values. *)
Inductive op := OSet (k v : bytes) | ODel (k : bytes) | ONop.

Definition log_op (l : Log) : op :=
  match CommandID l, Arguments l with
  | 1, k :: v :: _ => OSet k v
  | 2, k :: _ => ODel k
  | _, _ => ONop
  end.

Definition run_op (m : gmap bytes bytes) (o : op) : gmap bytes bytes :=
  match o with
  | OSet k v => <[k := v]> m
  | ODel k => delete k m
  | ONop => m
  end.

Definition replay (ls : list Log) (m : gmap bytes bytes) : gmap bytes bytes :=
  foldl run_op m (log_op <$> ls).

(** A record that [apply] accepts. *)
Definition applicable (l : Log) : Prop :=
  (CommandID l = 1 → (2 ≤ length (Arguments l))%nat) ∧
  (CommandID l = 2 → (1 ≤ length (Arguments l))%nat).

Lemma apply_hash_table l (t : HashTable) : data (apply l t).2 = run_op (data t) (log_op l).
Proof.
  unfold apply, log_op.
  destruct (CommandID l =? 1) eqn:E1; zbool; [rewrite E1; by destruct (Arguments l) as [|? [|??]]|].
  destruct (CommandID l =? 2) eqn:E2; zbool; [rewrite E2; by destruct (Arguments l)|].
  destruct (CommandID l) as [|p|p]; try done. by destruct p as [|[]|].
Qed.

Lemma apply_all_replay ls : ∀ t : HashTable, data (apply_all ls t) = replay ls (data t).
Proof.
  unfold apply_all, replay. induction ls as [|l ls IH]; intros t; [done|]. simpl.
  by rewrite IH, apply_hash_table.
Qed.

Section apply.
Context {H : Type} {cht : CommandHashTable H}.

Lemma apply_error l (t : H) : (apply l t).1 = None ↔ applicable l.
Proof.
  unfold apply, applicable.
  destruct (CommandID l =? 1) eqn:E1; zbool.
  { rewrite E1. destruct (Arguments l) as [|? [|??]]; simpl; split; try done; try lia;
      try (intros [Hx _]; specialize (Hx eq_refl); lia). }
  destruct (CommandID l =? 2) eqn:E2; zbool; [|by split].
  rewrite E2. destruct (Arguments l); simpl; split; try done; try lia;
    try (intros [_ Hx]; specialize (Hx eq_refl); lia).
Qed.

Lemma apply_all_app ls1 ls2 (t : H) : apply_all (ls1 ++ ls2) t = apply_all ls2 (apply_all ls1 t).
Proof. unfold apply_all. by rewrite foldl_app. Qed.

Lemma apply_until_ok ls : ∀ t : H, Forall applicable ls → apply_until ls t = (None, apply_all ls t).
Proof.
  induction ls as [|l ls IH]; intros t Hl; [done|]. apply Forall_cons in Hl as [Hl Hls]. simpl.
  apply (apply_error l t) in Hl. destruct (apply l t) as [err t'] eqn:E. simpl in *. subst.
  by rewrite IH.
Qed.

End apply.

(** ** Lemmas: recovery *)

(** A record that can be transported and applied. *)
Definition good_log {ids : GobTypeIds} (l : Log) : Prop := wf_log l ∧ applicable l.

(** The file at a path holds the stream of one batch of such records. *)
Definition holds_batch {env : Env} {ids : GobTypeIds} (f : gmap path node) (p : bytes) (ls : list Log) : Prop :=
  f !! resolve p = Some (NFile (stream ls)) ∧ Forall good_log ls.

Section recovery.
Context {env : Env} {ids : GobTypeIds} {sorter : SortSlice}.
Context {H : Type} {cht : CommandHashTable H}.

Lemma good_wf ls : Forall good_log ls → Forall wf_log ls.
Proof. intros Hg. eapply Forall_impl; [exact Hg|]. by intros l [??]. Qed.

Lemma good_applicable ls : Forall good_log ls → Forall applicable ls.
Proof. intros Hg. eapply Forall_impl; [exact Hg|]. by intros l [??]. Qed.

Lemma decode_all_good ls : Forall wf_log ls → decode_all (stream ls) = (ls, None).
Proof.
  intros Hwf. destruct (decide (ls = [])) as [->|Hne]; [done|].
  destruct (decode_all_stream ls [] Hne Hwf) as (fuel & Hf & Hd).
  rewrite app_nil_r in Hd. rewrite Hd. apply decode_loop_end. lia.
Qed.

Lemma Segment_Read_spec p d w : fs w !! resolve p = Some (NFile d) →
  ∃ r w', Segment_Read p w = (r, w') ∧ same_disk w w' ∧
    match r with Ok d' => d' = d | Err _ => ¬ quiet w end.
Proof.
  intros Hp. unfold Segment_Read, ReadFile, os_open, os_read_file, syscall. simpl.
  destruct (env_fault SysOpen (calls w)) as [|k] eqn:E1; simpl; rewrite ?Hp; simpl;
    [destruct (env_fault SysRead (S (calls w))) as [|k] eqn:E2; simpl; rewrite ?Hp|];
    eexists _, _; (split; [reflexivity|]); (split; [repeat split; simpl; lia|]); [done|..];
    intros Hq; rewrite Hq in * by lia; done.
Qed.

Lemma recover_file_batch p ls t w : holds_batch (fs w) p ls →
  ∃ err t' w', recover_file (H:=H) p t w = (err, t', w') ∧ same_disk w w' ∧
    match err with None => t' = apply_all (sort_slice LSN ls) t | Some _ => ¬ quiet w end.
Proof.
  intros [Hp Hg]. unfold recover_file.
  destruct (Segment_Read_spec p _ w Hp) as (r & w' & -> & Hsame & Hr).
  destruct r as [d|e]; [|by eexists _, _, _]. subst d.
  rewrite decode_all_good by (by apply good_wf). rewrite apply_until_ok; [by eexists _, _, w'|].
  rewrite sort_slice_perm. by apply good_applicable.
Qed.

Lemma recover_files_batches ps lss : ∀ t w, Forall2 (holds_batch (fs w)) ps lss →
  ∃ err t' w', recover_files (H:=H) ps t w = (err, t', w') ∧ same_disk w w' ∧
    match err with
    | None => t' = apply_all (mjoin (sort_slice LSN <$> lss)) t
    | Some _ => ¬ quiet w
    end.
Proof.
  revert lss. induction ps as [|p ps IH]; intros lss t w HF;
    inversion HF as [|? ls ? lss' Hp Hps]; subst; [by exists None, t, w|].
  simpl. destruct (recover_file_batch p ls t w Hp) as (err & t1 & w1 & -> & Hsame & Ht).
  destruct err as [e|]; [by eexists _, _, _|]. subst t1.
  destruct (IH lss' (apply_all (sort_slice LSN ls) t) w1) as (err & t2 & w2 & -> & Hsame' & Ht).
  { by rewrite (proj1 Hsame). }
  eexists _, _, w2. rewrite apply_all_app. split; [done|]. split; [by etrans|].
  destruct err; [|done]. intros Hq. by apply Ht, (same_disk_quiet _ _ Hsame).
Qed.

(** A segment that cannot be decoded, after segments that can. *)
Lemma recover_files_bad ps lss p data logs e ps' : ∀ t w, quiet w →
  Forall2 (holds_batch (fs w)) ps lss →
  fs w !! resolve p = Some (NFile data) → decode_all data = (logs, Some e) →
  ∃ w', recover_files (H:=H) (ps ++ p :: ps') t w =
    (Some ErrFailedDecode, apply_all (mjoin (sort_slice LSN <$> lss)) t, w') ∧ same_disk w w'.
Proof.
  revert lss. induction ps as [|q ps IH]; intros lss t w Hq HF Hp Hdec;
    inversion HF as [|? ls ? lss' Hh Hps]; subst; simpl.
  - unfold recover_file. destruct (Segment_Read_spec p _ w Hp) as (r & w' & -> & Hsame & Hr).
    destruct r as [d|e']; [|done]. subst d. rewrite Hdec. by exists w'.
  - destruct (recover_file_batch q ls t w Hh) as (err & t1 & w1 & -> & Hsame & Ht).
    destruct err as [e'|]; [done|]. subst t1.
    destruct (IH lss' (apply_all (sort_slice LSN ls) t) w1) as (w2 & -> & Hsame'); try done.
    { by apply (same_disk_quiet _ _ Hsame). }
    { by rewrite (proj1 Hsame). }
    { by rewrite (proj1 Hsame). }
    exists w2. rewrite apply_all_app. split; [done|]. by transitivity w1.
Qed.

Lemma Segment_GetList_spec seg w : is_dir w (resolve (directory seg)) = true →
  ∃ r w', Segment_GetList seg w = (r, w') ∧ same_disk w w' ∧
    match r with Ok ps => ps = listing (directory seg) (fs w) | Err _ => ¬ quiet w end.
Proof.
  intros Hd. unfold Segment_GetList.
  destruct (GetFileList_world (directory seg) w) as (? & ? & ? & ?).
  pose proof (GetFileList_spec (directory seg) w) as E.
  destruct (GetFileList (directory seg) w) as [r w'] eqn:Eg. simpl in *. eexists _, _. split; [done|].
  split; [repeat split; done || lia|]. unfold GetFileList, os_read_dir, syscall in Eg.
  destruct (env_fault SysReadDir (calls w)) as [|k] eqn:Ef.
  - rewrite E by done. done.
  - simplify_eq. intros Hq. by rewrite Hq in Ef.
Qed.

(** [Stat] works from this state on. *)
Definition stat_works (w : world) : Prop := ∀ n, (calls w ≤ n)%nat → env_fault SysStat n = NoFault.

Lemma quiet_stat w : quiet w → stat_works w.
Proof. intros Hq n Hn. by apply Hq. Qed.

Lemma reliable_stat w : stat_reliable → stat_works w.
Proof. intros Hs n _. apply Hs. Qed.

Lemma stat_works_mono w w' : (calls w ≤ calls w')%nat → stat_works w → stat_works w'.
Proof. intros Hle Hs n Hn. apply Hs. lia. Qed.

(** The size of a file as [SetFile] records it: a failure of [Stat] is only
    logged, and the file counts as empty. *)
Definition recorded_size (w : world) (d : bytes) (size : Z) : Prop :=
  size = zlen d ∨ size = 0 ∧ ¬ stat_works w.

(** The end of recovery in a directory with segments. *)
Lemma open_last_spec ps p d seg w : last ps = Some p →
  fs w !! resolve p = Some (NFile d) →
  ∃ r w1, open_last ps seg w = (r, seg, w1) ∧ fs w1 = fs w ∧ ticks w1 = ticks w ∧
    match r with
    | Ok h => ∃ size w2, SetFile seg (Some h) w1 = (set_file seg (Some h) size, w2) ∧ recorded_size w d size ∧
        fs w2 = fs w ∧ ticks w2 = ticks w ∧
        handles w2 = handles w ++ [{| h_path := resolve p; h_open := true |}] ∧ h = length (handles w)
    | Err _ => ¬ quiet w
    end.
Proof.
  intros Hl Hp. unfold open_last, os_open_append, syscall. rewrite Hl. simpl.
  destruct (env_fault SysOpenAppend (calls w)) as [|k] eqn:Ef; rewrite ?Hp.
  - unfold new_handle, SetFile, os_stat, syscall. eexists _, _. split; [done|]. split; [done|]. split; [done|].
    simpl. rewrite lookup_app_r, Nat.sub_diag by lia. simpl. unfold file_size. simpl. rewrite Hp.
    destruct (env_fault SysStat (S (calls w))) as [|k] eqn:Es; eexists _, _; (split; [reflexivity|]);
      (split; [|done]); [by left|right]. split; [done|]. intros Hs. rewrite Hs in Es by lia. done.
  - eexists _, _. split; [done|]. split; [done|]. split; [done|]. intros Hq. by rewrite Hq in Ef.
Qed.

(** Recovery does not touch the batches or the heap. *)
Lemma Recovery_frame (s : Sys H) :
  batch (wal (Recovery s).2) = batch (wal s) ∧ batches (wal (Recovery s).2) = batches (wal s) ∧
  heap (Recovery s).2 = heap s ∧ cfg (wal (Recovery s).2) = cfg (wal s) ∧
  activeBatchVolume (wal (Recovery s).2) = activeBatchVolume (wal s).
Proof. unfold Recovery. by repeat case_match; simplify_eq/=. Qed.

(** Recovery removes nothing. *)
Lemma recover_files_fs ps : ∀ t w, fs (recover_files ps t w).2 = fs w.
Proof.
  induction ps as [|p ps IH]; intros t w; [done|]. simpl.
  assert (fs (recover_file p t w).2 = fs w) as Hone.
  { unfold recover_file, Segment_Read, ReadFile, os_open, os_read_file, syscall. simpl.
    repeat case_match; simplify_eq/=; done. }
  destruct (recover_file p t w) as [[[e|] t1] w1]; simpl in *; [done|]. by rewrite IH.
Qed.

Lemma open_last_extends ps seg w : fs_extends (fs w) (fs (open_last ps seg w).2).
Proof.
  unfold open_last. destruct (last ps) as [p|].
  - unfold os_open_append, new_handle, syscall. repeat case_match; simplify_eq/=; reflexivity.
  - unfold Segment_CreateFile. pose proof (CreateFile_evolves (directory seg) (maskName seg) w) as [Hext _].
    by destruct (CreateFile _ _ w) as [[] ?].
Qed.

Lemma Recovery_extends (s : Sys H) : fs_extends (fs (os s)) (fs (os (Recovery s).2)).
Proof.
  unfold Recovery.
  assert (fs (Segment_GetList (segment (wal s)) (os s)).2 = fs (os s)) as Hl.
  { unfold Segment_GetList, GetFileList, os_read_dir, syscall. repeat case_match; by simplify_eq/=. }
  destruct (Segment_GetList _ _) as [[ps|e] o1]; simpl in *; [|by rewrite Hl].
  pose proof (recover_files_fs ps (commandHashTable (wal s)) o1) as Hr.
  destruct (recover_files ps _ o1) as [[[e|] t] o2]; simpl in *; [by rewrite Hr, Hl|].
  pose proof (open_last_extends ps (segment (wal s)) o2) as Ho. rewrite Hr, Hl in Ho.
  destruct (open_last ps _ o2) as [[[h|e] seg] o3]; simpl in *; [|done].
  unfold SetFile, os_stat, syscall. by repeat case_match; simplify_eq/=.
Qed.

(** Recovery of a directory whose segments hold one batch each. *)
Lemma Recovery_batches (s : Sys H) ps lss p :
  is_dir (os s) (resolve (directory (segment (wal s)))) = true →
  listing (directory (segment (wal s))) (fs (os s)) = ps → last ps = Some p →
  Forall2 (holds_batch (fs (os s))) ps lss →
  ∃ err s', Recovery s = (err, s') ∧ fs (os s') = fs (os s) ∧ ticks (os s') = ticks (os s) ∧
    match err with
    | None => ∃ d size, fs (os s) !! resolve p = Some (NFile d) ∧ recorded_size (os s) d size ∧
        wal s' = set_segment (set_table (wal s)
          (apply_all (mjoin (sort_slice LSN <$> lss)) (commandHashTable (wal s))))
          (set_file (segment (wal s)) (Some (length (handles (os s)))) size) ∧
        handles (os s') = handles (os s) ++ [{| h_path := resolve p; h_open := true |}]
    | Some _ => ¬ quiet (os s)
    end.
Proof.
  intros Hd Hl Hlast HF. unfold Recovery.
  destruct (Segment_GetList_spec (segment (wal s)) (os s) Hd) as (r & w1 & -> & H1 & Hr).
  destruct r as [ps1|e]; [|by eexists _, _; split; [done|]; destruct H1 as (? & ? & ? & _)].
  rewrite Hr, Hl. clear ps1 Hr.
  destruct (recover_files_batches ps lss (commandHashTable (wal s)) w1) as (err & t & w2 & -> & H2 & Ht).
  { by rewrite (proj1 H1). }
  assert (same_disk (os s) w2) as H12 by (by etrans). pose proof H12 as (Hf2 & Hh2 & Ht2 & Hc2).
  destruct err as [e|].
  { eexists _, _. split; [done|]. split; [done|]. split; [done|]. intros Hq.
    by apply Ht, (same_disk_quiet _ _ H1). }
  subst t. assert (∃ d, fs (os s) !! resolve p = Some (NFile d)) as [d Hp].
  { rewrite last_lookup in Hlast. set (i := pred (length ps)) in *. rename Hlast into Hi.
    destruct (Forall2_lookup_l _ _ _ _ _ HF Hi) as (ls & _ & [Hp _]). eauto. }
  destruct (open_last_spec ps p d (segment (wal s)) w2) as (r & w3 & -> & Hf3 & Ht3 & Hr);
    [done|congruence|].
  destruct r as [h|e]; [|eexists _, _; split; [done|]; simpl; split; [congruence|]; split; [congruence|];
    intros Hq; by apply Hr, (same_disk_quiet _ _ H12)].
  destruct Hr as (size & w4 & -> & Hsize & Hf4 & Ht4 & Hh4 & ->). eexists _, _. split; [done|]. simpl.
  split; [congruence|]. split; [congruence|]. exists d, size. rewrite Hh4, Hh2. split; [done|]. split; [|done].
  destruct Hsize as [->|[-> Hs]]; [by left|right]. split; [done|]. intros Hs'. by apply Hs, (stat_works_mono (os s)).
Qed.

(** Recovery of a directory with a segment that cannot be decoded: nothing
    changes on disk, so the next attempt ends in the same way. *)
Lemma Recovery_bad (s : Sys H) ps lss p data logs e ps' : quiet (os s) →
  is_dir (os s) (resolve (directory (segment (wal s)))) = true →
  listing (directory (segment (wal s))) (fs (os s)) = ps ++ p :: ps' →
  Forall2 (holds_batch (fs (os s))) ps lss →
  fs (os s) !! resolve p = Some (NFile data) → decode_all data = (logs, Some e) →
  ∃ s', Recovery s = (Some ErrFailedDecode, s') ∧ same_disk (os s) (os s') ∧
    commandHashTable (wal s') = apply_all (mjoin (sort_slice LSN <$> lss)) (commandHashTable (wal s)).
Proof.
  intros Hq Hd Hl HF Hp Hdec. unfold Recovery.
  destruct (Segment_GetList_spec (segment (wal s)) (os s) Hd) as (r & w1 & -> & H1 & Hr).
  destruct r as [ps1|e1]; [|done]. rewrite Hr, Hl. clear ps1 Hr.
  destruct (recover_files_bad ps lss p data logs e ps' (commandHashTable (wal s)) w1) as (w2 & -> & H2);
    [by apply (same_disk_quiet _ _ H1)|by rewrite (proj1 H1)|by rewrite (proj1 H1)|done|].
  eexists. split; [done|]. split; [by etrans|done].
Qed.

End recovery.

(** ** The disk under a sequence of flushes and restarts *)

Section disk.
Context {env : Env} {ids : GobTypeIds} {sorter : SortSlice}.
Context (dir mask : bytes) (horizon : nat) (lim : Z → Prop).

(** The path of the segment created at instant [t]. *)
Definition seg_path (t : Z) : bytes := Join dir (segment_name mask t).

(** The directory holds the segments created at the instants [ts], in that
    order, and the segment created at the n-th of them holds the n-th batch of
    [lss] and nothing else. *)
Record disk_inv (w : world) (ts : list Z) (lss : list (list Log)) : Prop := {
  di_handles : handles_ok w;
  di_dir : is_dir w (resolve dir) = true;
  di_list : listing dir (fs w) = seg_path <$> ts;
  di_hold : Forall2 (λ t ls, holds_batch (fs w) (seg_path t) ls) ts lss;
  di_nodup : NoDup ts;
  di_old : Forall (λ t, ∃ n, (n < ticks w)%nat ∧ (n < horizon)%nat ∧ t = env_clock n) ts;
  di_new : ∀ n, (ticks w ≤ n)%nat → (n < horizon)%nat → fs w !! resolve (seg_path (env_clock n)) = None;
  di_small : Forall (λ ls, zlen (stream ls) < 2 ^ 61) lss
}.

(** The active segment is the last one of the directory; its handle may have
    been closed by a failed rotation. [lim] constrains the size limit it was
    configured with. *)
Record active_inv (opened : bool) (seg : Segment) (w : world) (ts : list Z) (lss : list (list Log)) : Prop := {
  ai_dir : directory seg = dir;
  ai_mask : maskName seg = mask;
  ai_max : lim (maxSegmentSize seg);
  ai_last : ∃ h t ls, file seg = Some h ∧ last ts = Some t ∧ last lss = Some ls ∧
    handles w !! h = Some {| h_path := resolve (seg_path t); h_open := opened |} ∧
    segmentSize seg = zlen (stream ls) ∧ zlen (stream ls) < 2 ^ 61
}.

(** The same after [Stat] has failed in recovery: the segment holds a batch but
    counts as empty. *)
Record blind_inv (opened : bool) (seg : Segment) (w : world) (ts : list Z) (lss : list (list Log)) : Prop := {
  bi_dir : directory seg = dir;
  bi_mask : maskName seg = mask;
  bi_max : lim (maxSegmentSize seg);
  bi_last : ∃ h t ls, file seg = Some h ∧ last ts = Some t ∧ last lss = Some ls ∧
    handles w !! h = Some {| h_path := resolve (seg_path t); h_open := opened |} ∧
    segmentSize seg = 0 ∧ ls ≠ []
}.

(** What is assumed of the directory and the first [horizon] readings of the
    clock (a strictly increasing clock of 64 bits cannot be read for ever). *)
Record calm : Prop := {
  calm_dir : IsAbs dir = true;
  calm_mask : no_slash mask;
  calm_instant : ∀ n, (n < horizon)%nat → instant (env_clock n);
  calm_mono : ∀ n m, (n < m)%nat → (m < horizon)%nat → env_clock n < env_clock m
}.

Context (Hcalm : calm).

Lemma resolve_seg_path t : instant t → resolve (seg_path t) = resolve dir ++ [segment_name mask t].
Proof.
  intros Ht. destruct Hcalm. unfold seg_path.
  by rewrite resolve_Join by (done || by apply segment_name_plain).
Qed.

Lemma seg_path_inj t1 t2 : instant t1 → instant t2 →
  resolve (seg_path t1) = resolve (seg_path t2) → t1 = t2.
Proof.
  intros H1 H2. rewrite !resolve_seg_path by done. intros E0%app_inv_head.
  assert (segment_name mask t1 = segment_name mask t2) as E by congruence.
  destruct (Z.lt_total t1 t2) as [Hlt|[->|Hlt]]; [|done|];
    apply (segment_name_cmp mask) in Hlt; try done; rewrite E, bytes_cmp_refl in Hlt; done.
Qed.

Lemma stream_nonempty ls : ls ≠ [] → zlen descriptors ≤ zlen (stream ls).
Proof.
  intros Hne. destruct ls as [|l ls]; [done|]. unfold stream. rewrite zlen_app.
  pose proof (zlen_nonneg (values (l :: ls))). lia.
Qed.

Lemma zlen_descriptors : 0 < zlen descriptors.
Proof. pose proof length_descriptors. unfold zlen. lia. Qed.

(** With a size limit below the length of the type descriptors, a write
    rotates exactly when the active segment is not empty. *)
Lemma active_must_rotate opened seg w ts lss ls0 ls :
  (∀ m, lim m → 0 < m ≤ zlen descriptors) →
  active_inv opened seg w ts lss → last lss = Some ls0 → ls ≠ [] → zlen (stream ls) < 2 ^ 61 →
  must_rotate seg (stream ls) = negb (bool_decide (ls0 = [])).
Proof.
  intros Hlim [_ _ Hmax%Hlim (h & t & ls' & _ & _ & Hl & _ & Hsz & Hlt)] Hl0 Hne Hsmall.
  assert (ls' = ls0) as -> by congruence. unfold must_rotate. rewrite Hsz.
  pose proof (stream_nonempty ls Hne) as Hls. pose proof zlen_descriptors as Hd.
  pose proof (zlen_nonneg (stream ls0)) as Hnn.
  rewrite int64_id by (unfold in_int64; lia).
  destruct (decide (ls0 = [])) as [->|Hne0].
  - rewrite (bool_decide_eq_true_2 ([] = _)) by done. simpl. by rewrite andb_false_r.
  - rewrite (bool_decide_eq_false_2 (ls0 = [])) by done. simpl.
    pose proof (stream_nonempty ls0 Hne0).
    repeat (rewrite andb_true_iff; split); zbool; lia || (apply Z.ltb_lt; lia).
Qed.

Lemma disk_old w ts lss : disk_inv w ts lss → (ticks w < horizon)%nat →
  Forall (λ t, instant t ∧ t < env_clock (ticks w)) ts.
Proof.
  intros Hd Hk. eapply Forall_impl; [apply (di_old _ _ _ Hd)|]. simpl. intros t (n & Hn & Hn' & ->).
  split; by apply Hcalm.
Qed.

(** Writing one segment does not disturb the batches of the others. *)
Lemma holds_insert f p n ts lss :
  Forall2 (λ t ls, holds_batch f (seg_path t) ls) ts lss →
  Forall (λ t, resolve (seg_path t) ≠ p) ts →
  Forall2 (λ t ls, holds_batch (<[p := n]> f) (seg_path t) ls) ts lss.
Proof.
  induction 1 as [|t ls ts lss [Hf Hg] HF IH]; intros Hne; [constructor|].
  apply Forall_cons in Hne as [Ht Hne]. constructor; [|by apply IH].
  split; [|done]. by rewrite lookup_insert_ne.
Qed.

Lemma is_dir_insert w w' p d d' : is_dir w (resolve dir) = true →
  (fs w !! p = None ∨ fs w !! p = Some (NFile d')) → fs w' = <[p := NFile d]> (fs w) →
  is_dir w' (resolve dir) = true.
Proof.
  unfold is_dir. intros Hd Hp ->. destruct (decide (p = resolve dir)) as [->|Hne].
  - apply orb_true_iff in Hd as [Hd|Hd]; [by rewrite Hd|].
    destruct Hp as [Hp|Hp]; by rewrite Hp in Hd.
  - by rewrite lookup_insert_ne.
Qed.

Lemma disk_write_total opened seg w ts lss data : quiet w →
  disk_inv w ts lss → active_inv opened seg w ts lss → opened = true ∨ must_rotate seg data = true →
  (ticks w < horizon)%nat →
  ∃ seg' w', Segment_Write seg data w = (None, seg', w').
Proof.
  intros Hq Hd Ha Ho Hk. destruct (ai_last _ _ _ _ _ Ha) as (h & t & ls & Hf & _ & _ & Hh & _).
  assert (next_path (directory seg) (maskName seg) w =
    resolve dir ++ [segment_name mask (env_clock (ticks w))]) as Hn.
  { unfold next_path. rewrite (ai_dir _ _ _ _ _ Ha), (ai_mask _ _ _ _ _ Ha).
    apply resolve_seg_path. by apply Hcalm. }
  eapply Segment_Write_total; [done|done|exact Hh|done|..]; rewrite Hn.
  - rewrite removelast_last. apply Hd.
  - by destruct (resolve dir).
  - rewrite <- resolve_seg_path by (by apply Hcalm). by apply Hd.
Qed.

(** A batch in a segment of its own. *)
Lemma disk_write_fresh seg w ts lss ls seg' w' h :
  disk_inv w ts lss → directory seg = dir → maskName seg = mask →
  lim (maxSegmentSize seg) → Forall good_log ls → zlen (stream ls) < 2 ^ 61 →
  (ticks w < horizon)%nat → handles_ok w' → ticks w' = S (ticks w) →
  listing dir (fs w') = listing dir (fs w) ++ [seg_path (env_clock (ticks w))] →
  fs w' = <[resolve (seg_path (env_clock (ticks w))) := NFile (stream ls)]> (fs w) →
  handles w' !! h = Some {| h_path := resolve (seg_path (env_clock (ticks w))); h_open := true |} →
  seg' = set_file seg (Some h) (int64 (zlen (stream ls))) →
  disk_inv w' (ts ++ [env_clock (ticks w)]) (lss ++ [ls]) ∧
  active_inv true seg' w' (ts ++ [env_clock (ticks w)]) (lss ++ [ls]).
Proof.
  intros Hd Hdir Hmask Hmax Hg Hsz Hk Hok Ht Hlist Hfs Hh ->. set (now := env_clock (ticks w)) in *.
  pose proof (disk_old _ _ _ Hd Hk) as Hold.
  pose proof (di_new _ _ _ Hd (ticks w) ltac:(lia) Hk) as Hnone.
  pose proof (calm_instant Hcalm (ticks w) Hk) as Hnow.
  assert (Forall (λ t, resolve (seg_path t) ≠ resolve (seg_path now)) ts) as Hne.
  { eapply Forall_impl; [exact Hold|]. simpl. intros t [Hi Hlt] E%seg_path_inj; try done.
    fold now in Hlt. lia. }
  split; split; try done.
  - eapply (is_dir_insert _ _ _ _ []); [apply Hd|by left|exact Hfs].
  - rewrite Hlist, (di_list _ _ _ Hd), fmap_app. done.
  - rewrite Hfs. apply Forall2_app; [by apply holds_insert; [apply Hd|]|].
    constructor; [|constructor]. split; [apply lookup_insert_eq|done].
  - apply NoDup_app. split; [apply Hd|]. split; [|apply NoDup_singleton].
    intros t Hin ->%list_elem_of_singleton. rewrite Forall_forall in Hold.
    apply Hold in Hin as [_ Hlt]. fold now in Hlt. lia.
  - apply Forall_app. rewrite Ht. split.
    + eapply Forall_impl; [apply (di_old _ _ _ Hd)|]. simpl. intros t (n & Hn & Hn' & ->).
      exists n. split; [lia|done].
    + constructor; [|constructor]. exists (ticks w). split; [lia|done].
  - intros n Hn Hn'. rewrite Ht in Hn. rewrite Hfs, lookup_insert_ne; [apply Hd; lia|].
    intros E%seg_path_inj; [|done|by apply Hcalm].
    pose proof (calm_mono Hcalm (ticks w) n ltac:(lia) Hn') as Hlt. fold now in Hlt. lia.
  - apply Forall_app. split; [apply Hd|by constructor].
  - exists h, now, ls. rewrite !last_snoc. simpl. pose proof (zlen_nonneg (stream ls)).
    rewrite int64_id by (unfold in_int64; lia). done.
Qed.

(** A batch in the segment that recovery left empty. *)
Lemma disk_write_append opened seg w ts t lss ls seg' w' h :
  disk_inv w (ts ++ [t]) (lss ++ [[]]) → active_inv opened seg w (ts ++ [t]) (lss ++ [[]]) →
  Forall good_log ls → zlen (stream ls) < 2 ^ 61 →
  (ticks w < horizon)%nat → handles_ok w' → ticks w' = ticks w → listing dir (fs w') = listing dir (fs w) →
  fs w' = <[resolve (seg_path t) := NFile (stream ls)]> (fs w) →
  handles w' !! h = Some {| h_path := resolve (seg_path t); h_open := true |} →
  seg' = set_file seg (Some h) (int64 (zlen (stream ls))) →
  disk_inv w' (ts ++ [t]) (lss ++ [ls]) ∧ active_inv true seg' w' (ts ++ [t]) (lss ++ [ls]).
Proof.
  intros Hd Ha Hg Hsz Hk Hok Ht Hlist Hfs Hh ->.
  pose proof (disk_old _ _ _ Hd Hk) as Hold. pose proof (di_nodup _ _ _ Hd) as Hnd.
  apply NoDup_app in Hnd as (_ & Hnin & _).
  apply Forall_app in Hold as [Hold Holdt]. apply Forall_inv in Holdt as [Hit Hlt].
  pose proof (di_hold _ _ _ Hd) as HF.
  apply Forall2_app_inv in HF as [HF HFt]; [|by apply Forall2_length in HF;
    rewrite !length_app in HF; simpl in HF; lia].
  inversion HFt as [|? ? ? ? [Hft _] _]; subst.
  assert (Forall (λ t', resolve (seg_path t') ≠ resolve (seg_path t)) ts) as Hne.
  { rewrite Forall_forall in *. intros t' Hin E. apply seg_path_inj in E; [|by apply Hold|done].
    subst. apply (Hnin t Hin). by apply list_elem_of_singleton. }
  split; split; try done.
  - eapply is_dir_insert; [apply Hd|by right|exact Hfs].
  - by rewrite Hlist, (di_list _ _ _ Hd).
  - rewrite Hfs. apply Forall2_app; [by apply holds_insert|].
    constructor; [|constructor]. split; [apply lookup_insert_eq|done].
  - apply Hd.
  - rewrite Ht. apply Hd.
  - intros n Hn Hn'. rewrite Ht in Hn. rewrite Hfs, lookup_insert_ne; [by apply Hd|].
    intros E. rewrite E, (di_new _ _ _ Hd n Hn Hn') in Hft. done.
  - pose proof (di_small _ _ _ Hd) as Hs. apply Forall_app in Hs as [Hs _].
    apply Forall_app. split; [done|by constructor].
  - apply Ha.
  - apply Ha.
  - apply Ha.
  - exists h, t, ls. rewrite !last_snoc. simpl. pose proof (zlen_nonneg (stream ls)).
    rewrite int64_id by (unfold in_int64; lia). done.
Qed.

Lemma replayed_snoc lss ls :
  mjoin (sort_slice LSN <$> (lss ++ [ls])) = mjoin (sort_slice LSN <$> lss) ++ sort_slice LSN ls.
Proof. by rewrite fmap_app, join_app; simpl; rewrite app_nil_r. Qed.

Lemma sort_slice_nil {A} (key : A → Z) : sort_slice key [] = [].
Proof. apply Permutation_nil_r. apply sort_slice_perm. Qed.

(** A write that succeeds. *)
Lemma disk_wrote opened seg w ts lss ls seg' w' :
  disk_inv w ts lss → active_inv opened seg w ts lss →
  (∀ ls0, last lss = Some ls0 → must_rotate seg (stream ls) = negb (bool_decide (ls0 = []))) →
  Forall good_log ls → zlen (stream ls) < 2 ^ 61 → (ticks w < horizon)%nat →
  Segment_Write seg (stream ls) w = (None, seg', w') →
  ∃ ts' lss', (ticks w' ≤ S (ticks w))%nat ∧
    (∀ lss0, lss = lss0 ++ [[]] → ts' = ts ∧ lss' = lss0 ++ [ls]) ∧
    disk_inv w' ts' lss' ∧ active_inv true seg' w' ts' lss' ∧
    mjoin (sort_slice LSN <$> lss') = mjoin (sort_slice LSN <$> lss) ++ sort_slice LSN ls.
Proof.
  intros Hd Ha Hrot Hg Hsz Hk E.
  pose proof (Segment_Write_success _ _ _ _ _ (di_handles _ _ _ Hd) E) as Hw.
  pose proof (Segment_Write_evolves seg (stream ls) w) as (_ & Hok & _). rewrite E in Hok.
  specialize (Hok (di_handles _ _ _ Hd)). simpl in Hok.
  pose proof (Segment_Write_ticks seg (stream ls) w) as Ht. rewrite E in Ht. simpl in Ht.
  destruct (ai_last _ _ _ _ _ Ha) as (h0 & t & ls0 & Hf & Hlt & Hll & Hh0 & Hs0 & _).
  specialize (Hrot ls0 Hll).
  pose proof (wrote_listing seg (stream ls) w seg' w' ts) as Hlist.
  rewrite (ai_dir _ _ _ _ _ Ha), (ai_mask _ _ _ _ _ Ha) in Hlist.
  specialize (Hlist (calm_dir Hcalm) (calm_mask Hcalm) (di_list _ _ _ Hd) (disk_old _ _ _ Hd Hk)
    (calm_instant Hcalm _ Hk) Hw). fold (seg_path (env_clock (ticks w))) in Hlist.
  rewrite Hf, (bool_decide_eq_false_2 (Some h0 = None)) in Hlist, Ht by done. simpl in Hlist, Ht.
  rewrite Hrot in Hlist, Ht.
  destruct Hw as [h p d Hf' Hr Hh Hp Hfs Hh' Hseg|h p Hr Hp Hnone Hfs Hh' Hseg].
  - rewrite Hr in Hrot. symmetry in Hrot. apply negb_false_iff, bool_decide_eq_true in Hrot as ->.
    simpl in Ht, Hlist. rewrite app_nil_r in Hlist.
    apply last_Some in Hlt as [ts0 ->]. apply last_Some in Hll as [lss0 ->].
    assert (h = h0) as -> by congruence.
    assert (p = resolve (seg_path t)) as -> by congruence.
    pose proof (di_hold _ _ _ Hd) as HF. apply Forall2_app_inv_l in HF as (k1 & k2 & _ & HFt & Ek).
    inversion HFt as [|? ? ? ? [Hft _] HFn]; subst. inversion HFn; subst.
    apply app_inj_tail in Ek as [_ <-]. assert (d = []) as -> by (simpl in Hft; congruence).
    rewrite Hs0 in *. exists (ts0 ++ [t]), (lss0 ++ [ls]). split; [lia|].
    split; [by intros k [-> _]%app_inj_tail|].
    rewrite !replayed_snoc, sort_slice_nil, app_nil_r.
    apply and3_intro; [by eapply disk_write_append|done].
  - assert (must_rotate seg (stream ls) = true) as Hr' by (destruct Hr; [congruence|done]).
    rewrite Hr' in Hrot. rewrite <- Hrot in Ht, Hlist.
    unfold next_path in Hp. rewrite (ai_dir _ _ _ _ _ Ha), (ai_mask _ _ _ _ _ Ha) in Hp.
    fold (seg_path (env_clock (ticks w))) in Hp. subst p.
    exists (ts ++ [env_clock (ticks w)]), (lss ++ [ls]). split; [lia|].
    split; [intros k ->; rewrite last_snoc in Hll; by simplify_eq|].
    rewrite replayed_snoc. apply and3_intro; [eapply disk_write_fresh; try done; apply Ha|done].
Qed.

(** A later state of the same files. *)
Lemma disk_inv_later w w' ts lss : fs w' = fs w → handles_ok w' → (ticks w ≤ ticks w')%nat →
  disk_inv w ts lss → disk_inv w' ts lss.
Proof.
  intros Hf Hok Ht [D1 D2 D3 D4 D5 D6 D7 D8].
  split; try done; unfold is_dir; rewrite ?Hf; try done.
  - eapply Forall_impl; [exact D6|]. simpl. intros t (n & Hn & Hn' & ->). exists n. split; [lia|done].
  - intros n Hn. apply D7. lia.
Qed.

(** A write that fails without traces. *)
Lemma disk_refused opened seg w ts lss data e seg' w' :
  refused 0 seg data w seg' w' → disk_inv w ts lss → active_inv opened seg w ts lss →
  (∀ ls0, last lss = Some ls0 → must_rotate seg data = negb (bool_decide (ls0 = []))) →
  opened = true ∨ last lss ≠ Some [] → (ticks w < horizon)%nat →
  Segment_Write seg data w = (Some e, seg', w') →
  ∃ ts' lss' opened', (ticks w' ≤ S (ticks w))%nat ∧ disk_inv w' ts' lss' ∧
    active_inv opened' seg' w' ts' lss' ∧ (opened' = true ∨ last lss' ≠ Some []) ∧
    mjoin (sort_slice LSN <$> lss') = mjoin (sort_slice LSN <$> lss).
Proof.
  intros Href Hd Ha Hrot Ho Hk E. pose proof Ha as [A1 A2 A3 (h & t & ls & Hf & Hlt & Hll & Hh & Hs & Hz)].
  pose proof (Segment_Write_evolves seg data w) as (_ & Hok & _). rewrite E in Hok.
  specialize (Hok (di_handles _ _ _ Hd)). simpl in Hok.
  pose proof (Segment_Write_ticks seg data w) as Ht. rewrite E in Ht. simpl in Ht.
  assert (ticks w ≤ ticks w' ∧ ticks w' ≤ S (ticks w))%nat as [Ht1 Ht2] by (rewrite Ht; case_match; lia).
  specialize (Hrot ls Hll).
  destruct Href as [p0 Hr -> Hfs _ Hhs|h1 p1 o1 Hr -> Hfs Hf1 Hh1 Hh1'|h1 p Hr -> Hnone Hfs Hh1 ->];
    cbn [take] in Hfs; rewrite ?append_file_nil in Hfs.
  - exists ts, lss, opened. split; [done|]. split; [by eapply disk_inv_later|]. split; [|done].
    split; try done. exists h, t, ls. by rewrite Hhs.
  - exists ts, lss, false. split; [done|]. split; [by eapply disk_inv_later|]. split.
    + split; try done. exists h, t, ls. assert (h1 = h) as -> by congruence. by simplify_eq.
    + split; [right|done]. rewrite Hll. rewrite Hrot in Hr. intros [= ->].
      by rewrite bool_decide_eq_true_2 in Hr.
  - assert (ticks w' = S (ticks w)) as Htw by (rewrite Ht, Hr, orb_true_r; done).
    unfold next_path in *. rewrite A1, A2 in *. fold (seg_path (env_clock (ticks w))) in *.
    exists (ts ++ [env_clock (ticks w)]), (lss ++ [[]]), true. split; [done|].
    rewrite replayed_snoc, sort_slice_nil, app_nil_r.
    destruct (disk_write_fresh seg w ts lss [] (set_file seg (Some h1) 0) w' h1) as [Hd' Ha'];
      try done; [|by split; [|split; [|split; [left|]]]].
    eapply (next_listing dir mask w w' ts []); [apply Hcalm|apply Hcalm|apply Hd|by eapply disk_old|by apply Hcalm|done|done].
Qed.

(** One flush: the write adds its batch at the end of the log, or it fails and
    the log is as before. *)
Lemma disk_flush opened seg w ts lss ls :
  clean_faults → disk_inv w ts lss → active_inv opened seg w ts lss →
  (∀ ls0, last lss = Some ls0 → must_rotate seg (stream ls) = negb (bool_decide (ls0 = []))) →
  opened = true ∨ last lss ≠ Some [] →
  Forall good_log ls → zlen (stream ls) < 2 ^ 61 → (ticks w < horizon)%nat →
  ∃ err seg' w' ts' lss' opened', Segment_Write seg (stream ls) w = (err, seg', w') ∧
    (ticks w' ≤ S (ticks w))%nat ∧ disk_inv w' ts' lss' ∧ active_inv opened' seg' w' ts' lss' ∧
    (opened' = true ∨ last lss' ≠ Some []) ∧
    match err with
    | None => opened' = true ∧ (∀ lss0, lss = lss0 ++ [[]] → ts' = ts ∧ lss' = lss0 ++ [ls]) ∧
        mjoin (sort_slice LSN <$> lss') = mjoin (sort_slice LSN <$> lss) ++ sort_slice LSN ls
    | Some _ => mjoin (sort_slice LSN <$> lss') = mjoin (sort_slice LSN <$> lss) ∧ ¬ quiet w
    end.
Proof.
  intros Hcl Hd Ha Hrot Ho Hg Hsz Hk.
  destruct (ai_last _ _ _ _ _ Ha) as (h0 & t & ls0 & Hf & Hlt & Hll & Hh0 & _).
  destruct (Segment_Write seg (stream ls) w) as [[[e|] seg'] w'] eqn:E.
  - destruct (Segment_Write_refused _ _ _ _ _ _ _ _ _ Hf Hh0 E) as (n & Href & Hn).
    destruct Hcl as [Hsync Hcl]. destruct (Hn Hcl) as [->|[_ []]]; [|done].
    destruct (disk_refused opened seg w ts lss (stream ls) e seg' w') as (ts' & lss' & o' & Hw); try done.
    exists (Some e), seg', w', ts', lss', o'. split; [done|].
    destruct Hw as (Ht & Hd' & Ha' & Ho' & Hcat). do 5 (split; [done|]). intros Hq.
    destruct (disk_write_total opened seg w ts lss (stream ls)) as (seg2 & w2 & E2); try done; [|congruence].
    destruct Ho as [?|Hne]; [by left|right]. rewrite (Hrot _ Hll), bool_decide_eq_false_2; [done|congruence].
  - destruct (disk_wrote opened seg w ts lss ls seg' w') as (ts' & lss' & Hw); try done.
    exists None, seg', w', ts', lss', true. split; [done|]. naive_solver.
Qed.

(** Recovery of a directory: every batch is replayed, and the active segment
    is the last one, or a new empty one; or a system call failed and nothing
    happened. *)
Lemma disk_recover_nonempty {H} {cht : CommandHashTable H} (s : Sys H) ts lss :
  disk_inv (os s) ts lss → ts ≠ [] →
  directory (segment (wal s)) = dir → maskName (segment (wal s)) = mask →
  lim (maxSegmentSize (segment (wal s))) →
  ∃ err s', Recovery s = (err, s') ∧ fs (os s') = fs (os s) ∧ ticks (os s') = ticks (os s) ∧
    match err with
    | None => disk_inv (os s') ts lss ∧
        (active_inv true (segment (wal s')) (os s') ts lss ∨
         blind_inv true (segment (wal s')) (os s') ts lss ∧ ¬ stat_works (os s)) ∧
        commandHashTable (wal s') = apply_all (mjoin (sort_slice LSN <$> lss)) (commandHashTable (wal s))
    | Some _ => ¬ quiet (os s)
    end.
Proof.
  intros Hd Hne Hdir Hmask Hmax. destruct (exists_last Hne) as (ts0 & t & ->).
  pose proof (di_hold _ _ _ Hd) as HF. pose proof HF as HF2.
  apply Forall2_app_inv_l in HF2 as (k1 & k2 & _ & HFt & ->).
  inversion HFt as [|? ls ? ? [Hft _] HFn]; subst. inversion HFn; subst.
  pose proof (di_small _ _ _ Hd) as Hs. apply Forall_app in Hs as [_ Hs]. apply Forall_inv in Hs.
  destruct (Recovery_batches s (seg_path <$> (ts0 ++ [t])) (k1 ++ [ls]) (seg_path t))
    as (err & s' & E & Hfs & Ht & Hres); try rewrite Hdir.
  - apply Hd.
  - apply Hd.
  - rewrite fmap_app; simpl; by rewrite last_snoc.
  - by apply Forall2_fmap_l.
  - exists err, s'. split; [done|]. split; [done|]. split; [done|]. destruct err as [e|]; [done|].
    destruct Hres as (d & size & Hp & Hsize & -> & Hhs). assert (d = stream ls) as -> by (simpl in *; congruence).
    split; [|split; [|done]].
    + eapply disk_inv_later; [done| |by rewrite Ht|done].
      intros h' q Hq. rewrite Hhs in Hq. rewrite Hfs.
      apply lookup_app_Some in Hq as [Hq|[_ Hq]]; [by eapply di_handles|].
      apply list_lookup_singleton_Some in Hq as [_ Hq]. simplify_eq. eauto.
    + assert (handles (os s') !! length (handles (os s)) =
        Some {| h_path := resolve (seg_path t); h_open := true |}) as Hlast.
      { rewrite Hhs. by rewrite lookup_app_r, Nat.sub_diag by lia. }
      destruct Hsize as [->|[-> Hst]]; [|destruct (decide (ls = [])) as [->|Hls]; [|right; split; [|done]]]; [left|left|];
        split; try done; eexists _, t, _; rewrite !last_snoc; done.
Qed.

Lemma disk_recover_empty {H} {cht : CommandHashTable H} (s : Sys H) :
  disk_inv (os s) [] [] →
  directory (segment (wal s)) = dir → maskName (segment (wal s)) = mask →
  lim (maxSegmentSize (segment (wal s))) → (ticks (os s) < horizon)%nat →
  ∃ err s', Recovery s = (err, s') ∧ (ticks (os s) ≤ ticks (os s') ≤ S (ticks (os s)))%nat ∧
    match err with
    | None => ∃ t, disk_inv (os s') [t] [[]] ∧ active_inv true (segment (wal s')) (os s') [t] [[]] ∧
        commandHashTable (wal s') = commandHashTable (wal s)
    | Some _ => fs (os s') = fs (os s) ∧ ¬ quiet (os s)
    end.
Proof.
  intros Hd Hdir Hmask Hmax Hk. pose proof (calm_instant Hcalm _ Hk) as Hi.
  unfold Recovery. destruct (Segment_GetList_spec (segment (wal s)) (os s)) as (r & w1 & -> & Hsame & Hr);
    [rewrite Hdir; apply Hd|]. pose proof Hsame as (Hfs1 & Hh1 & Ht1 & Hc1).
  destruct r as [ps|e]; [|eexists _, _; split; [done|]; simpl; split; [lia|done]].
  rewrite Hr, Hdir, (di_list _ _ _ Hd). clear ps Hr. simpl. unfold open_last, Segment_CreateFile. simpl.
  rewrite Hdir, Hmask.
  assert (next_path dir mask w1 = resolve (seg_path (env_clock (ticks (os s))))) as Hn.
  { unfold next_path. by rewrite Ht1. }
  pose proof (CreateFile_total dir mask w1) as Htot. rewrite Hn in Htot.
  pose proof (CreateFile_evolves dir mask w1) as (_ & Hok & _).
  destruct (CreateFile dir mask w1) as [[h|e] w2] eqn:E; simpl in *.
  - apply CreateFile_spec in E as ((Hnone & Hfs & -> & Hhs) & Ht & Hc2). rewrite Hn in *.
    assert (∃ w3, SetFile (set_file (segment (wal s)) (Some (length (handles w1))) 0) (Some (length (handles w1))) w2 =
      (set_file (segment (wal s)) (Some (length (handles w1))) 0, w3) ∧
      fs w3 = fs w2 ∧ handles w3 = handles w2 ∧ ticks w3 = ticks w2) as (w3 & Es & Hf3 & Hh3 & Ht3).
    { unfold SetFile, os_stat, syscall. rewrite Hhs, lookup_app_r, Nat.sub_diag by lia. simpl.
      unfold file_size. simpl. rewrite Hfs, lookup_insert_eq.
      destruct (env_fault SysStat (calls w2)); eexists; (split; [reflexivity|]); by repeat split. }
    unfold SetFile in Es. rewrite Es. clear Es.
    eexists None, _. split; [done|]. simpl. rewrite Ht3. split; [lia|]. exists (env_clock (ticks (os s))).
    apply and3_intro; [|done].
    change [env_clock (ticks (os s))] with ([] ++ [env_clock (ticks (os s))]).
    change [[]] with ([] ++ [@nil Log]).
    apply (disk_write_fresh (segment (wal s)) (os s) [] [] [] _ _ (length (handles w1)));
      [exact Hd|exact Hdir|exact Hmask|exact Hmax|constructor|by vm_compute|exact Hk|cbn [os handles fs ticks]..].
    + intros h q Hq. rewrite Hh3 in Hq. rewrite Hf3. apply Hok in Hq; [done|].
      intros h' q' Hq'. rewrite Hh1 in Hq'. rewrite Hfs1. by apply (di_handles _ _ _ Hd) in Hq'.
    + by rewrite Ht3, Ht, Ht1.
    + rewrite Hf3, Hfs, Hfs1, resolve_seg_path by done. apply listing_fresh.
      * apply Hcalm.
      * apply segment_name_plain; [apply Hcalm|done].
      * rewrite <- resolve_seg_path by done. by apply Hd.
      * by rewrite (di_list _ _ _ Hd).
    + by rewrite Hf3, Hfs, Hfs1.
    + by rewrite Hh3, Hhs, lookup_app_r, Nat.sub_diag by lia.
    + reflexivity.
  - apply CreateFile_spec in E as ([Hfs _] & Ht & _). eexists _, _. split; [done|]. simpl.
    split; [lia|]. split; [congruence|]. intros Hq. destruct Htot as (h & w' & E'); [| | | |discriminate].
    + by apply (same_disk_quiet _ _ Hsame).
    + rewrite resolve_seg_path, removelast_last by done. unfold is_dir. rewrite Hfs1. apply Hd.
    + rewrite resolve_seg_path by done. by destruct (resolve dir).
    + rewrite Hfs1. by apply Hd.
Qed.

End disk.

(** ** Runs of flushes and restarts *)

(** The process dies: its memory and its file handles are gone, the files
    stay. *)
Definition crash (w : world) : world :=
  {| fs := fs w; handles := []; calls := calls w; ticks := ticks w |}.

(** The requests that clients made for a batch. *)
Fixpoint requests_of (ls : list Log) (h : list (Chan error))
  : list WriteRequest * list (Chan error) :=
  match ls with
  | [] => ([], h)
  | l :: ls' =>
      let '(r, h1) := NewWriteRequest (LSN l) (CommandID l) (Arguments l) h in
      let '(rs, h2) := requests_of ls' h1 in
      (r :: rs, h2)
  end.

Inductive event :=
  | Flush (ls : list Log)   (** a sealed batch reaches the flusher *)
  | Restart.                (** the process is killed, started and recovered *)

Section runs.
Context {env : Env} {ids : GobTypeIds} {sorter : SortSlice}.

(** [fresh] is the log a starting process constructs. *)
Definition run_event (fresh : Wal HashTable) (e : event) (s : Sys HashTable)
  : outcome (error * Sys HashTable) :=
  match e with
  | Flush ls =>
      let '(rs, h) := requests_of ls (heap s) in
      flushBatch rs {| wal := wal s; heap := h; os := os s |}
  | Restart => Done (Recovery {| wal := fresh; heap := []; os := crash (os s) |})
  end.

Fixpoint run_events (fresh : Wal HashTable) (es : list event) (s : Sys HashTable)
  : outcome (error * Sys HashTable) :=
  match es with
  | [] => Done (None, s)
  | e :: es' =>
      obind (run_event fresh e s) (λ '(err, s'),
      match err with
      | Some e => Done (Some e, s')
      | None => run_events fresh es' s'
      end)
  end.

(** The specification: a map on which a restart has no effect. *)
Definition spec_event (m : gmap bytes bytes) (e : event) : gmap bytes bytes :=
  match e with
  | Flush ls => replay (sort_slice LSN ls) m
  | Restart => m
  end.

Definition event_ok (e : event) : Prop :=
  match e with
  | Flush ls => Forall good_log ls ∧ NoDup (LSN <$> ls) ∧ zlen (stream ls) < 2 ^ 61
  | Restart => True
  end.

Lemma requests_of_spec ls : ∀ h rs h', requests_of ls h = (rs, h') →
  log <$> rs = ls ∧ (∃ k, h' = h ++ k) ∧ fresh_requests rs h' ∧
  Forall (λ r, (length h ≤ result (promise r))%nat) rs.
Proof.
  induction ls as [|l ls IH]; intros h rs h' E.
  { simpl in E. simplify_eq. split; [done|]. split; [exists []; by rewrite app_nil_r|].
    repeat split; constructor. }
  cbn [requests_of NewWriteRequest NewPromise] in E.
  destruct (requests_of ls _) as [rs' h2] eqn:E2. simplify_eq.
  apply IH in E2 as (Hlog & [k ->] & [Hnd Hf] & Hge). rewrite length_app in Hge. simpl in Hge.
  split; [rewrite fmap_cons, Hlog; by destruct l|].
  split; [eexists; by rewrite <- app_assoc|]. split; [split|].
  - rewrite fmap_cons. apply NoDup_cons. split; [|done]. simpl. intros Hin.
    apply list_elem_of_fmap_1 in Hin as (r & Hr & Hin). rewrite Forall_forall in Hge.
    apply Hge in Hin. lia.
  - constructor; [|done]. split; [done|]. simpl. rewrite <- app_assoc.
    by rewrite lookup_app_r, Nat.sub_diag.
  - constructor; [done|]. eapply Forall_impl; [exact Hge|]. simpl. lia.
Qed.

(** A flush in any environment. *)
Lemma run_flush_any fresh ls s : ls ≠ [] → Forall good_log ls →
  ∃ h' sorted, let r := Segment_Write (segment (wal s)) (stream ls) (os s) in
    let w' := set_segment (wal s) r.1.2 in
    run_event fresh (Flush ls) s = Done (r.1.1,
      {| wal := match r.1.1 with
                | None => set_table w' (apply_all sorted (commandHashTable (wal s)))
                | Some _ => w'
                end; heap := h'; os := r.2 |}) ∧
    sorted ≡ₚ ls ∧ StronglySorted (λ x y, LSN x ≤ LSN y) sorted.
Proof.
  intros Hne Hg. unfold run_event.
  destruct (requests_of ls (heap s)) as [rs h] eqn:Er.
  apply requests_of_spec in Er as (Hlog & _ & Hfresh & _).
  destruct (flushBatch_spec rs {| wal := wal s; heap := h; os := os s |})
    as (h' & sorted & E & Hperm & Hsorted & _); simpl; try rewrite Hlog; [by intros ->|done|by apply good_wf|].
  cbn zeta in *. rewrite E. clear E. simpl. rewrite Hlog in *. by exists h', sorted.
Qed.

(** A flush whose write succeeds. *)
Lemma run_flush fresh ls s seg' w' : ls ≠ [] → Forall good_log ls →
  Segment_Write (segment (wal s)) (stream ls) (os s) = (None, seg', w') →
  ∃ h' sorted, run_event fresh (Flush ls) s = Done (None,
      {| wal := set_table (set_segment (wal s) seg') (apply_all sorted (commandHashTable (wal s)));
         heap := h'; os := w' |}) ∧
    sorted ≡ₚ ls ∧ StronglySorted (λ x y, LSN x ≤ LSN y) sorted.
Proof.
  intros Hne Hg Hw. destruct (run_flush_any fresh ls s Hne Hg) as (h' & sorted & E & Hs).
  cbn zeta in E. rewrite Hw in E. by exists h', sorted.
Qed.

Context (dir mask : bytes) (horizon : nat) (Hcalm : calm dir mask horizon) (lim : Z → Prop).

(** The simulation relation between the system and the map. *)
Definition simulates (s : Sys HashTable) (m : gmap bytes bytes) : Prop :=
  ∃ ts lss, disk_inv dir mask horizon (os s) ts lss ∧ active_inv dir mask lim true (segment (wal s)) (os s) ts lss ∧
    data (commandHashTable (wal s)) = m ∧ m = replay (mjoin (sort_slice LSN <$> lss)) ∅.

Definition fresh_ok (fresh : Wal HashTable) : Prop :=
  directory (segment fresh) = dir ∧ maskName (segment fresh) = mask ∧
  lim (maxSegmentSize (segment fresh)) ∧ commandHashTable fresh = NewHashTable.

Lemma crash_disk w ts lss : disk_inv dir mask horizon w ts lss → disk_inv dir mask horizon (crash w) ts lss.
Proof. intros []. split; try done. Qed.

Lemma replay_app ls1 ls2 m : replay (ls1 ++ ls2) m = replay ls2 (replay ls1 m).
Proof. unfold replay. by rewrite fmap_app, foldl_app. Qed.

(** A start-up on a directory that [disk_inv] describes. *)
Lemma sim_start fresh w ts lss h : fresh_ok fresh → disk_inv dir mask horizon w ts lss →
  (ticks w < horizon)%nat →
  ∃ err s', Recovery {| wal := fresh; heap := h; os := w |} = (err, s') ∧
    (ticks w ≤ ticks (os s') ≤ S (ticks w))%nat ∧
    match err with
    | None => ∃ ts' lss', disk_inv dir mask horizon (os s') ts' lss' ∧
        (active_inv dir mask lim true (segment (wal s')) (os s') ts' lss' ∨
         blind_inv dir mask lim true (segment (wal s')) (os s') ts' lss' ∧ ¬ stat_works w) ∧
        data (commandHashTable (wal s')) = replay (mjoin (sort_slice LSN <$> lss)) ∅ ∧
        replay (mjoin (sort_slice LSN <$> lss)) ∅ = replay (mjoin (sort_slice LSN <$> lss')) ∅
    | Some _ => fs (os s') = fs w ∧ ¬ quiet w
    end.
Proof.
  intros (Hdir & Hmask & Hmax & Ht) Hd Hk.
  destruct (decide (ts = [])) as [->|Hne].
  - pose proof (di_hold _ _ _ _ _ _ Hd) as HF. inversion HF; subst lss.
    destruct (disk_recover_empty dir mask horizon lim Hcalm {| wal := fresh; heap := h; os := w |})
      as (err & s' & E & Hk' & Hres); try done.
    exists err, s'. split; [done|]. split; [done|]. destruct err as [e|]; [done|].
    destruct Hres as (t & Hd' & Ha & Htab). exists [t], [[]]. split; [done|]. split; [by left|].
    rewrite Htab. simpl. rewrite Ht, sort_slice_nil. done.
  - destruct (disk_recover_nonempty dir mask horizon lim {| wal := fresh; heap := h; os := w |} ts lss)
      as (err & s' & E & Hfs & Hk' & Hres); try done.
    exists err, s'. split; [done|]. split; [simpl in Hk'; lia|]. destruct err as [e|]; [done|].
    destruct Hres as (Hd' & Ha & Htab). exists ts, lss. split; [done|]. split; [done|].
    rewrite Htab, apply_all_replay. simpl. by rewrite Ht.
Qed.

(** Without faults. *)
Lemma sim_restart fresh w ts lss h : quiet w → fresh_ok fresh → disk_inv dir mask horizon w ts lss →
  (ticks w < horizon)%nat →
  ∃ s', Recovery {| wal := fresh; heap := h; os := w |} = (None, s') ∧
    (ticks (os s') ≤ S (ticks w))%nat ∧
    simulates s' (replay (mjoin (sort_slice LSN <$> lss)) ∅).
Proof.
  intros Hq Hfr Hd Hk.
  destruct (sim_start fresh w ts lss h Hfr Hd Hk) as (err & s' & E & Ht & Hres).
  destruct err as [e|]; [by destruct Hres|]. exists s'. split; [done|]. split; [lia|].
  destruct Hres as (ts' & lss' & Hd' & [Ha|[_ []]] & Hres); [by exists ts', lss'|by apply quiet_stat].
Qed.

Lemma sim_event fresh e s m : (∀ x, lim x → 0 < x ≤ zlen descriptors) → fault_free →
  fresh_ok fresh → event_ok e → simulates s m → (ticks (os s) < horizon)%nat →
  ∃ s', run_event fresh e s = Done (None, s') ∧ (ticks (os s') ≤ S (ticks (os s)))%nat ∧
    simulates s' (spec_event m e).
Proof.
  intros Hlim Hff Hfr He (ts & lss & Hd & Ha & Htab & Hm) Hk. destruct e as [ls|].
  - destruct He as (Hg & Hnd & Hsz).
    destruct (decide (ls = [])) as [->|Hne].
    { exists {| wal := wal s; heap := heap s; os := os s |}.
      split; [done|]. split; [simpl; lia|]. exists ts, lss. simpl. by rewrite sort_slice_nil. }
    destruct (disk_flush dir mask horizon lim Hcalm true _ _ _ _ ls (fault_free_clean Hff) Hd Ha
      (λ ls0 Hl, active_must_rotate dir mask lim _ _ _ _ _ _ _ Hlim Ha Hl Hne Hsz) (or_introl eq_refl) Hg Hsz Hk)
      as (err & seg' & w' & ts' & lss' & o' & Hw & Hk' & Hd' & Ha' & _ & Hres).
    destruct err as [err|]; [by destruct Hres as [_ []]; apply fault_free_quiet|].
    destruct Hres as (-> & _ & Hcat).
    destruct (run_flush fresh ls s seg' w' Hne Hg Hw) as (h' & sorted & -> & Hperm & Hsorted).
    eexists. split; [done|]. split; [done|]. exists ts', lss'. split; [done|]. split; [done|]. simpl.
    assert (sorted = sort_slice LSN ls) as ->.
    { symmetry. apply (sorted_by_key_unique LSN); [by rewrite sort_slice_perm| |apply sort_slice_sorted|done].
      by rewrite sort_slice_perm, Hperm. }
    rewrite apply_all_replay, Htab. split; [done|]. by rewrite Hcat, replay_app, <- Hm.
  - destruct (sim_restart fresh (crash (os s)) ts lss [] (fault_free_quiet _ Hff) Hfr (crash_disk _ _ _ Hd) Hk)
      as (s' & E & Hk' & Hs).
    exists s'. unfold run_event. rewrite E. split; [done|]. split; [done|]. simpl. by rewrite Hm.
Qed.

Lemma sim_events fresh es : (∀ x, lim x → 0 < x ≤ zlen descriptors) → fault_free → ∀ s m,
  fresh_ok fresh → Forall event_ok es → simulates s m →
  (ticks (os s) + length es ≤ horizon)%nat →
  ∃ s', run_events fresh es s = Done (None, s') ∧ simulates s' (foldl spec_event m es).
Proof.
  intros Hlim Hff. induction es as [|e es IH]; intros s m Hfr Hes Hs Hk; [by exists s|].
  apply Forall_cons in Hes as [He Hes].
  simpl in Hk. destruct (sim_event fresh e s m Hlim Hff Hfr He Hs) as (s1 & E & Hk1 & Hs1); [lia|].
  simpl. rewrite E. simpl. apply IH; try done. lia.
Qed.

End runs.

(** A second batch that fits in the active segment goes to the same file. *)
Section two_batches.
Context {env : Env} {ids : GobTypeIds} {sorter : SortSlice}.
Context (dir mask : bytes) (horizon : nat) (Hcalm : calm dir mask horizon) (lim : Z → Prop).

Lemma second_batch_appended seg w t ls1 ls2 : quiet w →
  disk_inv dir mask horizon w [t] [ls1] → (ticks w < horizon)%nat →
  active_inv dir mask lim true seg w [t] [ls1] →
  zlen (stream ls1) + zlen (stream ls2) ≤ maxSegmentSize seg → zlen (stream ls2) < 2 ^ 61 →
  ∃ seg' w', Segment_Write seg (stream ls2) w = (None, seg', w') ∧
    fs w' !! resolve (seg_path dir mask t) = Some (NFile (stream ls1 ++ stream ls2)) ∧
    listing dir (fs w') = [seg_path dir mask t] ∧ is_dir w' (resolve dir) = true.
Proof.
  intros Hq Hd Hk Ha Hfit Hsz.
  destruct (disk_write_total dir mask horizon lim Hcalm true seg w [t] [ls1] (stream ls2) Hq Hd Ha
    (or_introl eq_refl) Hk) as (seg' & w' & E).
  exists seg', w'. split; [done|].
  destruct (ai_last _ _ _ _ _ _ _ _ Ha) as (h & t' & ls' & Hf & Ht & Hl & Hh & Hs & Hlt). simplify_eq/=.
  assert (must_rotate seg (stream ls2) = false) as Hr.
  { unfold must_rotate. rewrite Hs. pose proof (zlen_nonneg (stream ls')).
    pose proof (zlen_nonneg (stream ls2)). rewrite int64_id by (unfold in_int64; lia).
    rewrite andb_false_iff. right. apply Z.ltb_ge. lia. }
  pose proof (di_hold _ _ _ _ _ _ Hd) as HF. inversion HF as [|? ? ? ? [Hft _] _]; subst.
  pose proof (Segment_Write_success _ _ _ _ _ (di_handles _ _ _ _ _ _ Hd) E) as Hw.
  destruct Hw as [h1 p d Hf' _ Hh1 Hp Hfs _ _|h1 p Hx]; [|destruct Hx; congruence].
  assert (h1 = h) as -> by congruence.
  assert (p = resolve (seg_path dir mask t')) as -> by congruence.
  assert (d = stream ls') as -> by (simpl in *; congruence).
  split; [by rewrite Hfs, lookup_insert_eq|]. split.
  - rewrite Hfs. erewrite listing_overwrite by exact Hp. apply Hd.
  - eapply is_dir_insert; [apply Hd|by right|exact Hfs].
Qed.

End two_batches.

(** ** Properties *)

(** C12: a flush of a non-empty batch of transportable records with unresolved
    promises never blocks and never panics, and every client waiting on one of
    the futures receives the flush result. On success the stream of the batch
    was appended to the log by one [Segment.Write] and the hash table is the
    old one with the records applied in LSN order; on failure the table is
    untouched. *)
Theorem flush_outcome {env : Env} {ids : GobTypeIds} {sorter : SortSlice}
  {H : Type} {cht : CommandHashTable H} (b : list WriteRequest) (s : Sys H)
  (Hne : b ≠ []) (Hfresh : fresh_requests b (heap s)) (Hwf : Forall wf_log (log <$> b))
  (Hok : handles_ok (os s)) :
  ∃ err s', flushBatch b s = Done (err, s') ∧
    Forall (λ r, ∃ h', Future_Get None (FutureResponse r) (heap s') = Done (err, h')) b ∧
    fs_extends (fs (os s)) (fs (os s')) ∧
    match err with
    | None =>
        wrote (segment (wal s)) (stream (log <$> b)) (os s) (segment (wal s')) (os s') ∧
        ∃ sorted, sorted ≡ₚ log <$> b ∧ StronglySorted (λ x y, LSN x ≤ LSN y) sorted ∧
          commandHashTable (wal s') = apply_all sorted (commandHashTable (wal s))
    | Some _ => commandHashTable (wal s') = commandHashTable (wal s)
    end.
Proof.
  destruct (flushBatch_spec b s Hne Hfresh Hwf) as (h' & sorted & E & Hp & Hs & _ & Hans).
  cbn zeta in *. rewrite E. eexists _, _. split; [done|]. simpl.
  split; [eapply Forall_impl; [exact Hans|]; intros r; apply answered_get|].
  split; [apply Segment_Write_evolves|].
  destruct (Segment_Write _ _ _) as [[[e|] seg] w] eqn:Ew; simpl; [done|].
  split; [by apply Segment_Write_success|]. by exists sorted.
Qed.

(** A started process on an empty directory, for examples. *)
Definition demo_config (max : Z) : WalConfig :=
  {| FlushingBatchTimeout := 10 * Millisecond; FlushingBatchCount := 2;
     FlushingBatchVolume := 10485760; MaxSegmentSize := max;
     SegmentStoragePath := wal_dir; MaskName := str "segment_" |}.

Definition demo_wal (max : Z) : Wal HashTable :=
  {| cfg := {| flushingBatchTimeout := 10 * Millisecond; flushingBatchCount := 2;
               flushingBatchVolume := 10485760; walMaxSegmentSize := max;
               segmentStoragePath := wal_dir; walMaskName := str "segment_" |};
     segment := NewSegment wal_dir (str "segment_") max; batch := []; batches := [];
     activeBatchVolume := 0; commandHashTable := NewHashTable |}.

Definition demo_requests : list WriteRequest * list (Chan error) :=
  requests_of [sample_del; sample_set] [].

Definition demo_sys : Sys HashTable :=
  {| wal := demo_wal 1073741824; heap := demo_requests.2; os := world0 |}.

Lemma flush_outcome_witness :
  ∃ err s', @flushBatch steady_env default_ids insertion_sort_slice HashTable _
      demo_requests.1 demo_sys = Done (err, s') ∧
    Forall (λ r, ∃ h', Future_Get None (FutureResponse r) (heap s') = Done (err, h')) demo_requests.1.
Proof.
  destruct (@flush_outcome steady_env default_ids insertion_sort_slice HashTable _
    demo_requests.1 demo_sys) as (err & s' & E & Hget & _).
  - discriminate.
  - split; [repeat (constructor; [set_solver|]); constructor|repeat constructor].
  - constructor; [exact (Forall_inv (Forall_inv_tail sample_wf))|].
    constructor; [exact (Forall_inv sample_wf)|constructor].
  - intros h p Hp. discriminate.
  - exists err, s'. exact (conj E Hget).
Defined.

(** C24: the critical section of [push] keeps the active batch below both
    thresholds, with the recorded volume the sum of the encoded sizes (no
    overflow); it loses and reorders nothing: sealed batch and remaining batch
    together are the old batch and the new request; and the whole batch is
    sealed exactly when the count or the volume threshold is reached. *)
Theorem push_thresholds {ids : GobTypeIds} {H : Type} (r : WriteRequest) (w : Wal H)
  (Hinv : batch_inv w) (Hmax : flushingBatchVolume (cfg w) ≤ 2 ^ 62)
  (Hcount : 0 < flushingBatchCount (cfg w)) (Hvolume : 0 < flushingBatchVolume (cfg w)) :
  batch_inv (push_locked r w).2 ∧
  (push_locked r w).1 ++ batch (push_locked r w).2 = batch w ++ [r] ∧
  (if bool_decide (flushingBatchCount (cfg w) ≤ zlen (batch w) + 1 ∨
                   flushingBatchVolume (cfg w) ≤ batch_volume (batch w ++ [r]))
   then batch (push_locked r w).2 = [] else (push_locked r w).1 = []).
Proof. by apply push_locked_spec. Qed.

Lemma push_thresholds_witness :
  let r := {| log := sample_set; promise := {| result := 0; promised := false |} |} in
  @batch_inv default_ids HashTable (@push_locked default_ids HashTable r (demo_wal 100)).2.
Proof.
  intros r. apply (@push_thresholds default_ids HashTable r (demo_wal 100)).
  - split; vm_compute; reflexivity.
  - vm_compute. discriminate.
  - reflexivity.
  - reflexivity.
Defined.

(** C13: recovery of a directory whose segments each hold one batch succeeds
    when the system calls work: the
    records of every segment are applied in LSN order, segment after segment in
    the order of the listing; no file is changed; and the active segment is the
    last one of the listing, open for appending, with its size on disk. *)
Theorem recovery_replays {env : Env} {ids : GobTypeIds} {sorter : SortSlice}
  {H : Type} {cht : CommandHashTable H} (s : Sys H) (ps : list bytes) (lss : list (list Log)) (p : bytes)
  (Hquiet : quiet (os s))
  (Hdir : is_dir (os s) (resolve (directory (segment (wal s)))) = true)
  (Hlist : listing (directory (segment (wal s))) (fs (os s)) = ps)
  (Hlast : last ps = Some p)
  (Hhold : Forall2 (holds_batch (fs (os s))) ps lss) :
  ∃ s' h d, Recovery s = (None, s') ∧
    commandHashTable (wal s') = apply_all (mjoin (sort_slice LSN <$> lss)) (commandHashTable (wal s)) ∧
    fs (os s') = fs (os s) ∧
    file (segment (wal s')) = Some h ∧
    handles (os s') !! h = Some {| h_path := resolve p; h_open := true |} ∧
    fs (os s') !! resolve p = Some (NFile d) ∧ segmentSize (segment (wal s')) = zlen d.
Proof.
  destruct (Recovery_batches s ps lss p Hdir Hlist Hlast Hhold)
    as (err & s' & -> & Hfs & _ & Hres).
  destruct err as [e|]; [done|]. destruct Hres as (d & size & Hp & [->|[_ []]] & Hw & Hhs); [|by apply quiet_stat].
  eexists s', _, d. rewrite Hw, Hfs, Hhs. repeat split; try done.
  by rewrite lookup_app_r, Nat.sub_diag by lia.
Qed.

(** A directory with two segments. *)
Definition two_segments_world : world :=
  {| fs := <[ [str "srv"; str "kv"; str "wal"; str "segment_2.log"] := NFile (@stream default_ids [sample_del]) ]>
           (<[ [str "srv"; str "kv"; str "wal"; str "segment_1.log"] := NFile (@stream default_ids [sample_set]) ]>
           (fs world0));
     handles := []; calls := 0; ticks := 0 |}.

Lemma sample_good : Forall (@good_log default_ids) [sample_set; sample_del].
Proof.
  pose proof sample_wf as Hw. inversion Hw as [|? ? H1 Hr]; subst. inversion Hr as [|? ? H2 _]; subst.
  constructor; [|constructor; [|constructor]]; (split; [done|split; intros E; simpl in *; (discriminate || lia)]).
Qed.

Lemma recovery_replays_witness :
  ∃ s' h d,
    @Recovery steady_env default_ids insertion_sort_slice HashTable _
      {| wal := demo_wal 100; heap := []; os := two_segments_world |} = (None, s') ∧
    commandHashTable (wal s') = apply_all [sample_set; sample_del] NewHashTable ∧
    fs (os s') = fs two_segments_world ∧
    file (segment (wal s')) = Some h ∧
    handles (os s') !! h = Some {| h_path := @resolve steady_env (str "/srv/kv/wal/segment_2.log"); h_open := true |} ∧
    fs (os s') !! @resolve steady_env (str "/srv/kv/wal/segment_2.log") = Some (NFile d) ∧
    segmentSize (segment (wal s')) = zlen d.
Proof.
  apply (@recovery_replays steady_env default_ids insertion_sort_slice HashTable _
    {| wal := demo_wal 100; heap := []; os := two_segments_world |}
    [str "/srv/kv/wal/segment_1.log"; str "/srv/kv/wal/segment_2.log"] [[sample_set]; [sample_del]]).
  - intros c n _. reflexivity.
  - vm_compute. reflexivity.
  - vm_compute. reflexivity.
  - reflexivity.
  - constructor; [|constructor; [|constructor]]; (split; [vm_compute; reflexivity|]).
    + constructor; [exact (Forall_inv sample_good)|constructor].
    + constructor; [exact (Forall_inv (Forall_inv_tail sample_good))|constructor].
Defined.

(** C9: durability across restarts, as a refinement: when every batch gets a
    segment of its own (the size limit is at most the length of the type
    descriptors), with no system-call faults and an advancing clock, any
    sequence of flushes and restarts after the first start succeeds, and the
    hash table at the end is that of the abstract map on which a restart has no
    effect and a flush applies its records in LSN order. *)
Theorem crash_restart_refinement {env : Env} {ids : GobTypeIds} {sorter : SortSlice}
  (logger : Logger) (c : WalConfig) (dir : bytes) (fresh : Wal HashTable) (w : world) (es : list event)
  (horizon : nat) (Hcalm : calm dir (MaskName c) horizon) (Hff : fault_free)
  (Hticks : (ticks w + S (length es) ≤ horizon)%nat)
  (Hlimit : 0 < MaxSegmentSize c ≤ zlen descriptors)
  (Hnew : NewWal (Some logger) c (NewSegment dir (MaskName c) (MaxSegmentSize c)) NewHashTable = Ok fresh)
  (Hempty : disk_inv dir (MaskName c) horizon w [] [])
  (Hes : Forall event_ok es) :
  ∃ s', run_events fresh (Restart :: es) {| wal := fresh; heap := []; os := w |} = Done (None, s') ∧
    data (commandHashTable (wal s')) = foldl spec_event ∅ es.
Proof.
  set (lim := λ m, 0 < m ≤ zlen descriptors).
  assert (fresh_ok dir (MaskName c) lim fresh) as Hfr by (by simpl in Hnew; simplify_eq).
  destruct (sim_restart dir (MaskName c) horizon Hcalm lim fresh (crash w) [] [] []
    (fault_free_quiet _ Hff) Hfr (crash_disk _ _ _ _ _ _ Hempty)) as (s1 & E & Hk1 & Hs1); [simpl; lia|].
  destruct (sim_events dir (MaskName c) horizon Hcalm lim fresh es ltac:(done) Hff s1 _ Hfr Hes Hs1) as (s' & E' & Hs'); [simpl in *; lia|].
  exists s'. cbn [run_events run_event]. simpl os. rewrite E. simpl. split; [exact E'|].
  destruct Hs' as (ts & lss & _ & _ & Hdata & _). exact Hdata.
Qed.

(** The empty directory of the examples. *)
Lemma demo_calm faults : @calm (demo_env faults) wal_dir (str "segment_") 1000.
Proof.
  split.
  - done.
  - by repeat constructor.
  - intros n Hn. unfold instant. simpl. lia.
  - intros n m Hnm Hm. simpl. lia.
Qed.

Lemma demo_empty faults : @disk_inv (demo_env faults) default_ids wal_dir (str "segment_") 1000 world0 [] [].
Proof.
  split.
  - intros h p Hp. discriminate.
  - vm_compute. reflexivity.
  - vm_compute. reflexivity.
  - constructor.
  - constructor.
  - constructor.
  - intros n _ Hn. rewrite (resolve_seg_path _ _ _ (demo_calm faults)) by (by apply (demo_calm faults)).
    change (@resolve (demo_env faults) wal_dir) with [str "srv"; str "kv"; str "wal"].
    unfold world0. simpl fs. by rewrite !lookup_insert_ne, lookup_singleton_ne.
  - constructor.
Qed.

Lemma demo_events_ok : Forall (@event_ok default_ids) [Flush [sample_del; sample_set]; Restart; Flush [sample_del]].
Proof.
  pose proof (Forall_inv sample_good) as H1. pose proof (Forall_inv (Forall_inv_tail sample_good)) as H2.
  constructor; [|constructor; [done|constructor; [|constructor]]]; (split; [by repeat constructor|split]);
    try (by vm_compute); apply (bool_decide_unpack _); by vm_compute.
Qed.

Lemma crash_restart_refinement_witness :
  ∃ s', @run_events steady_env default_ids insertion_sort_slice (demo_wal 1)
      [Restart; Flush [sample_del; sample_set]; Restart; Flush [sample_del]]
      {| wal := demo_wal 1; heap := []; os := world0 |} = Done (None, s') ∧
    data (commandHashTable (wal s')) =
      foldl spec_event ∅ [Flush [sample_del; sample_set]; Restart; Flush [sample_del]].
Proof.
  apply (@crash_restart_refinement steady_env default_ids insertion_sort_slice DiscardLogger
    (demo_config 1) wal_dir (demo_wal 1) world0 _ 1000).
  - exact (demo_calm _).
  - intros f n. reflexivity.
  - apply (bool_decide_unpack _). vm_compute. reflexivity.
  - split; [reflexivity|]. vm_compute. discriminate.
  - reflexivity.
  - exact (demo_empty _).
  - exact demo_events_ok.
Defined.

(** C33: with a size limit that has room for two batches (the default is 1 GiB)
    a restart after two acknowledged flushes fails: both flushes report
    success to their clients, but each wrote its own gob stream to the same
    segment, and recovery of that segment ends with [ErrFailedDecode], so the
    server does not start again. *)
Theorem restart_after_two_flushes_fails {env : Env} {ids : GobTypeIds} {sorter : SortSlice}
  (logger : Logger) (c : WalConfig) (dir : bytes) (fresh : Wal HashTable) (w : world)
  (ls1 ls2 : list Log)
  (horizon : nat) (Hcalm : calm dir (MaskName c) horizon) (Hff : fault_free)
  (Hticks : (ticks w + 3 ≤ horizon)%nat)
  (Hnew : NewWal (Some logger) c (NewSegment dir (MaskName c) (MaxSegmentSize c)) NewHashTable = Ok fresh)
  (Hempty : disk_inv dir (MaskName c) horizon w [] [])
  (Hne1 : ls1 ≠ []) (Hne2 : ls2 ≠ []) (Hg1 : Forall good_log ls1) (Hg2 : Forall good_log ls2)
  (Hfit : zlen (stream ls1) + zlen (stream ls2) ≤ MaxSegmentSize c)
  (Hlimit : MaxSegmentSize c < 2 ^ 61) :
  ∃ s s', run_events fresh [Restart; Flush ls1; Flush ls2] {| wal := fresh; heap := []; os := w |} =
      Done (None, s) ∧
    run_event fresh Restart s = Done (Some ErrFailedDecode, s').
Proof.
  set (lim := λ m, m = MaxSegmentSize c).
  assert (fresh_ok dir (MaskName c) lim fresh) as Hfr by (by simpl in Hnew; simplify_eq).
  pose proof Hfr as (Hdir & Hmask & Hmax & Htab).
  pose proof (zlen_nonneg (stream ls1)). pose proof (zlen_nonneg (stream ls2)).
  destruct (disk_recover_empty dir (MaskName c) horizon lim Hcalm {| wal := fresh; heap := []; os := crash w |}
    (crash_disk _ _ _ _ _ _ Hempty) Hdir Hmask Hmax)
    as (err & s1 & E1 & Hk1 & Hres); [simpl; lia|]. simpl in Hk1.
  destruct err as [e|]; [by destruct Hres as [_ []]; apply fault_free_quiet|].
  destruct Hres as (t & Hd1 & Ha1 & _).
  destruct (ai_last _ _ _ _ _ _ _ _ Ha1) as (_ & _ & ls0 & _ & _ & [= <-] & _ & Hs1 & _).
  destruct (disk_flush dir (MaskName c) horizon lim Hcalm true _ _ _ _ ls1 (fault_free_clean Hff) Hd1 Ha1)
    as (err & seg2 & w2 & ts2 & lss2 & o2 & Hw2 & Hk2 & Hd2 & Ha2 & _ & Hres); [|by left|done|lia|lia|].
  { intros ls0 [= <-]. unfold must_rotate. rewrite Hs1. by rewrite andb_false_r. }
  destruct err as [e|]; [by destruct Hres as [_ []]; apply fault_free_quiet|].
  destruct Hres as (-> & Heq & _).
  destruct (Heq [] eq_refl) as [-> ->]. simpl in Hd2, Ha2. clear Heq.
  destruct (run_flush fresh ls1 s1 seg2 w2 Hne1 Hg1 Hw2) as (h2 & so1 & E2 & _ & _).
  set (s2 := Build_Sys _ h2 w2) in E2.
  assert (maxSegmentSize seg2 = MaxSegmentSize c) as Hm by exact (ai_max _ _ _ _ _ _ _ _ Ha2).
  destruct (second_batch_appended dir (MaskName c) horizon Hcalm lim seg2 w2 t ls1 ls2)
    as (seg3 & w3 & Hw3 & Hfile & Hl3 & Hdir3); [by apply fault_free_quiet|done|lia|done|rewrite Hm; lia|lia|].
  destruct (run_flush fresh ls2 s2 seg3 w3 Hne2 Hg2 Hw3) as (h3 & so2 & E3 & _ & _).
  set (s3 := Build_Sys _ h3 w3) in E3. exists s3.
  assert (run_events fresh [Restart; Flush ls1; Flush ls2] {| wal := fresh; heap := []; os := w |} =
    Done (None, s3)) as Hrun.
  { cbn [run_events]. unfold run_event at 1. cbn [os]. rewrite E1. cbn [obind]. rewrite E2.
    cbn [obind]. by rewrite E3. }
  destruct (Recovery_bad {| wal := fresh; heap := []; os := crash (os s3) |} [] [] (seg_path dir (MaskName c) t)
    (stream ls1 ++ stream ls2) ls1 (EGob GobDuplicateType) []) as (s4 & E4 & _); simpl; try rewrite Hdir; try done.
  { by apply fault_free_quiet. }
  { rewrite <- (app_nil_r (stream ls2)). apply gob_second_stream_refused; [done|done|by apply good_wf]. }
  exists s4. split; [done|]. exact (f_equal Done E4).
Qed.

Lemma restart_after_two_flushes_fails_witness :
  ∃ s s', @run_events steady_env default_ids insertion_sort_slice (demo_wal 1073741824)
      [Restart; Flush [sample_set]; Flush [sample_del]]
      {| wal := demo_wal 1073741824; heap := []; os := world0 |} = Done (None, s) ∧
    @run_event steady_env default_ids insertion_sort_slice (demo_wal 1073741824) Restart s =
      Done (Some ErrFailedDecode, s').
Proof.
  apply (@restart_after_two_flushes_fails steady_env default_ids insertion_sort_slice DiscardLogger
    (demo_config 1073741824) wal_dir (demo_wal 1073741824) world0 [sample_set] [sample_del] 1000).
  - exact (demo_calm _).
  - intros f n. reflexivity.
  - apply (bool_decide_unpack _). vm_compute. reflexivity.
  - reflexivity.
  - exact (demo_empty _).
  - discriminate.
  - discriminate.
  - constructor; [exact (Forall_inv sample_good)|constructor].
  - constructor; [exact (Forall_inv (Forall_inv_tail sample_good))|constructor].
  - vm_compute. discriminate.
  - vm_compute. reflexivity.
Defined.
