(* ===== verification/Unreadable.v ===== *)
(** * Segments that cannot be read back

    A log directory is unreadable when a listed segment holds bytes that do not
    decode, and then [Recovery] fails in every environment and leaves it as it
    is. One way to get there is ordinary use: a second batch that is appended to
    a segment which holds one already is in a stream of its own ([doubled]).
    This happens unless the size limit is so small that every batch rotates, and
    also when the recorded size of a segment is not that of its file, because
    [Stat] failed in recovery or [Sync] in a flush. What a flush does in any
    configuration is stated here: it keeps the invariant of the disk of [Wal.v],
    or it doubles a segment. *)

From S2P Require Import Prelude GoText Compute Config Gob WalLog OS FileSystem Concurrency HashTable Wal.

(** ** Definitions *)

(** A size limit with which every batch has a segment of its own. *)
Definition one_batch_limit {ids : GobTypeIds} (m : Z) : Prop := 0 < m ≤ zlen descriptors.

(** No failure leaves the recorded size of a segment behind that of its file. *)
Definition sizes_reliable {env : Env} : Prop := stat_reliable ∧ sync_reliable.

(** A second batch may be appended to a segment. *)
Definition may_double {env : Env} {ids : GobTypeIds} (m : Z) : Prop := ¬ one_batch_limit m ∨ ¬ sizes_reliable.

(** A segment that does not decode, and a directory that lists one. *)
Definition undecodable {env : Env} {ids : GobTypeIds} (f : gmap path node) (p : bytes) : Prop :=
  ∃ data logs e, f !! resolve p = Some (NFile data) ∧ decode_all data = (logs, Some e).

Definition unreadable {env : Env} {ids : GobTypeIds} (dir : bytes) (w : world) : Prop :=
  Exists (undecodable (fs w)) (listing dir (fs w)).

(** A listed segment starts with the streams of two batches. *)
Definition doubled {env : Env} {ids : GobTypeIds} (dir : bytes) (w : world) : Prop :=
  ∃ p ls1 ls2 rest, p ∈ listing dir (fs w) ∧
    fs w !! resolve p = Some (NFile (stream ls1 ++ stream ls2 ++ rest)) ∧
    ls1 ≠ [] ∧ ls2 ≠ [] ∧ Forall wf_log ls1.

#[global] Instance undecodable_dec {env : Env} {ids : GobTypeIds} f p : Decision (undecodable f p).
Proof.
  refine (cast_if (decide (is_Some (f !! resolve p ≫= λ n,
    match n with NFile data => (decode_all data).2 | NDir => None end)))); unfold undecodable.
  - abstract (destruct i as [e (n & Hp & Hn)%bind_Some]; destruct n as [data|]; [|done];
      destruct (decode_all data) as [logs e0] eqn:Ed; simpl in Hn; subst e0; by exists data, logs, e).
  - abstract (intros (data & logs & e & Hp & Hd); apply n; rewrite Hp; simpl; by rewrite Hd).
Defined.

#[global] Instance unreadable_dec {env : Env} {ids : GobTypeIds} dir w : Decision (unreadable dir w).
Proof. unfold unreadable. apply _. Defined.

(** ** Lemmas: unreadable directories *)

Section facts.
Context {env : Env} {ids : GobTypeIds}.

Lemma unreadable_fs dir w w' : fs w' = fs w → unreadable dir w' ↔ unreadable dir w.
Proof. intros Hfs. unfold unreadable. by rewrite Hfs. Qed.

Lemma unreadable_intro dir w p data logs e : p ∈ listing dir (fs w) →
  fs w !! resolve p = Some (NFile data) → decode_all data = (logs, Some e) → unreadable dir w.
Proof. intros Hin Hp Hd. apply Exists_exists. exists p. split; [done|]. by exists data, logs, e. Qed.

Lemma doubled_unreadable dir w : doubled dir w → unreadable dir w.
Proof.
  intros (p & ls1 & ls2 & rest & Hin & Hp & Hne1 & Hne2 & Hwf). eapply unreadable_intro; [done|exact Hp|].
  apply (decode_all_second ls1 _ GobDuplicateType); [done..|]. intros fuel. destruct ls2 as [|l ls2]; [done|].
  unfold stream, descriptors. rewrite <- !app_assoc. apply decode_value_duplicate.
Qed.

(** Nothing that happens later removes a segment from the listing. *)
Lemma listing_extends dir f f' p : fs_extends f f' → p ∈ listing dir f → p ∈ listing dir f'.
Proof.
  intros [Hext _]. unfold listing, sort_strings. rewrite !merge_sort_Permutation.
  unfold file_paths, dir_entries. rewrite !list_elem_of_omap.
  intros ([name d] & (e & He & Hd)%list_elem_of_omap & Hp). exists (name, d). split; [|done].
  apply list_elem_of_omap. destruct e as [k n]. apply elem_of_map_to_list in He.
  unfold dir_entry in *. simpl in *. case_bool_decide; [|done]. destruct d; [done|]. destruct n as [data|]; [|done].
  destruct (Hext k data He) as [data' He']. exists (k, NFile (data ++ data')).
  split; [by apply elem_of_map_to_list|]. simpl. by rewrite bool_decide_eq_true_2.
Qed.

Lemma doubled_extends dir w w' : fs_extends (fs w) (fs w') → doubled dir w → doubled dir w'.
Proof.
  intros Hext (p & ls1 & ls2 & rest & Hin & Hp & Hne).
  destruct (proj1 Hext _ _ Hp) as [d' Hp']. rewrite <- !app_assoc in Hp'.
  exists p, ls1, ls2, (rest ++ d'). split; [by eapply listing_extends|done].
Qed.

End facts.

(** ** Lemmas: recovery of unreadable directories *)

Section recovery.
Context {env : Env} {ids : GobTypeIds} {sorter : SortSlice} {H : Type} {cht : CommandHashTable H}.

Lemma recover_file_undecodable p t w : undecodable (fs w) p →
  ∃ e t' w', recover_file p t w = (Some e, t', w') ∧ fs w' = fs w.
Proof.
  intros (data & logs & e & Hp & Hdec). unfold recover_file.
  destruct (Segment_Read_spec p _ w Hp) as (r & w' & -> & Hsame & Hr).
  destruct r as [d|e']; [subst d; rewrite Hdec|]; eexists _, _, _; (split; [reflexivity|]); apply Hsame.
Qed.

Lemma recover_files_undecodable ps : ∀ t w, Exists (undecodable (fs w)) ps →
  ∃ e, (recover_files ps t w).1.1 = Some e.
Proof.
  induction ps as [|q ps IH]; intros t w Hex; [by apply Exists_nil in Hex|]. simpl.
  pose proof (recover_files_fs [q] t w) as Hfs. simpl in Hfs.
  destruct (recover_file q t w) as [[err t1] w1] eqn:E. destruct err as [e|]; [by eexists|]. simpl in Hfs.
  apply Exists_cons in Hex as [Hq|Hps]; [|apply IH; by rewrite Hfs].
  destruct (recover_file_undecodable q t w Hq) as (e & t' & w' & E' & _). congruence.
Qed.

Lemma GetFileList_Ok dir w ps w' : GetFileList dir w = (Ok ps, w') → ps = listing dir (fs w) ∧ fs w' = fs w.
Proof.
  intros E. destruct (GetFileList_world dir w) as (Hfs & _). rewrite E in Hfs. split; [|done].
  pose proof (GetFileList_spec dir w) as Hs. rewrite E in Hs. unfold GetFileList, os_read_dir, syscall in E.
  destruct (env_fault SysReadDir (calls w)); [|done].
  destruct (is_dir _ (resolve dir)) eqn:Ed in E; [|done]. by injection (Hs eq_refl Ed).
Qed.

(** It fails in every environment and changes nothing on disk. *)
Lemma Recovery_unreadable (s : Sys H) : unreadable (directory (segment (wal s))) (os s) →
  ∃ e s', Recovery s = (Some e, s') ∧ fs (os s') = fs (os s).
Proof.
  intros Hu. unfold Recovery, Segment_GetList.
  destruct (GetFileList_world (directory (segment (wal s))) (os s)) as (Hfs & _).
  destruct (GetFileList _ _) as [[ps|e1] o1] eqn:E; [|by eexists _, _]. apply GetFileList_Ok in E as [-> Ho1].
  unfold unreadable in Hu. rewrite <- Ho1 in Hu at 1.
  pose proof (recover_files_fs _ (commandHashTable (wal s)) o1 : fs (recover_files (listing (directory (segment (wal s))) (fs (os s))) _ _).2 = _) as Hr.
  destruct (recover_files_undecodable _ (commandHashTable (wal s)) o1 Hu) as [e He].
  destruct (recover_files _ _ o1) as [[err t] o2]. simpl in He, Hr. subst err.
  eexists _, _. split; [reflexivity|]. simpl. congruence.
Qed.

End recovery.

(** ** Lemmas: a flush in any configuration *)

Section disk.
Context {env : Env} {ids : GobTypeIds} {sorter : SortSlice}.
Context (dir mask : bytes) (horizon : nat) (lim : Z → Prop) (Hcalm : calm dir mask horizon).

(** The segment that the next batch goes to, with its size or without. *)
Definition seg_inv (opened : bool) (seg : Segment) (w : world) (ts : list Z) (lss : list (list Log)) : Prop :=
  active_inv dir mask lim opened seg w ts lss ∨
  blind_inv dir mask lim opened seg w ts lss ∧ ¬ sizes_reliable.

Lemma seg_inv_limit opened seg w ts lss : seg_inv opened seg w ts lss → lim (maxSegmentSize seg).
Proof. by intros [[]|[[] _]]. Qed.

Lemma seg_inv_handles opened seg w w' ts lss : handles w' = handles w →
  seg_inv opened seg w ts lss → seg_inv opened seg w' ts lss.
Proof. intros Hhs [[A1 A2 A3 A4]|[[A1 A2 A3 A4] Hs]]; [left|right; split; [|done]]; split; by rewrite ?Hhs. Qed.

(** A segment that holds a batch and counts as empty gets the next one. *)
Lemma blind_second opened seg w ts lss data : blind_inv dir mask lim opened seg w ts lss →
  ∃ ls0, last lss = Some ls0 ∧ must_rotate seg data = false ∧ ls0 ≠ [].
Proof.
  intros [_ _ _ (h & t & ls0 & _ & _ & Hl & _ & Hs & Hne0)]. exists ls0. split; [done|]. split; [|done].
  unfold must_rotate. rewrite Hs. simpl. by rewrite andb_false_r.
Qed.

(** The active segment and what it holds. *)
Lemma seg_inv_file opened seg w ts lss ls0 : disk_inv dir mask horizon w ts lss →
  seg_inv opened seg w ts lss → last lss = Some ls0 →
  ∃ h t, file seg = Some h ∧ handles w !! h = Some {| h_path := resolve (seg_path dir mask t); h_open := opened |} ∧
    seg_path dir mask t ∈ listing dir (fs w) ∧
    fs w !! resolve (seg_path dir mask t) = Some (NFile (stream ls0)) ∧ Forall wf_log ls0.
Proof.
  intros Hd Hseg Hl.
  assert (∃ h t ls, file seg = Some h ∧ last ts = Some t ∧ last lss = Some ls ∧
    handles w !! h = Some {| h_path := resolve (seg_path dir mask t); h_open := opened |}) as (h & t & ls1 & Hf & Hlt & Hll & Hh).
  { destruct Hseg as [[_ _ _ (h & t & ls1 & ? & ? & ? & ? & _)]|[[_ _ _ (h & t & ls1 & ? & ? & ? & ? & _)] _]]; by exists h, t, ls1. }
  assert (ls1 = ls0) as -> by congruence. exists h, t.
  split; [done|]. split; [done|]. apply last_Some in Hlt as [ts0 ->]. apply last_Some in Hll as [lss0 ->].
  pose proof (di_hold _ _ _ _ _ _ Hd) as HF. apply Forall2_snoc in HF as [_ [HF Hg]].
  split; [|split; [done|by apply good_wf]].
  rewrite (di_list _ _ _ _ _ _ Hd), fmap_app. apply elem_of_app. right. by apply list_elem_of_singleton.
Qed.

(** A write rotates exactly when the active segment is not empty, or the batch
    is a second one and may be. *)
Lemma seg_rotation opened seg w ts lss ls : seg_inv opened seg w ts lss → ls ≠ [] → zlen (stream ls) < 2 ^ 61 →
  (active_inv dir mask lim opened seg w ts lss ∧
    ∀ ls0, last lss = Some ls0 → must_rotate seg (stream ls) = negb (bool_decide (ls0 = []))) ∨
  ∃ ls0, last lss = Some ls0 ∧ must_rotate seg (stream ls) = false ∧ ls0 ≠ [] ∧ may_double (maxSegmentSize seg).
Proof.
  intros [Ha|[Hb Hst]] Hne Hsz.
  2: { right. destruct (blind_second _ _ _ _ _ (stream ls) Hb) as (ls0 & Hl & Hr & Hne0).
       exists ls0. do 3 (split; [done|]). by right. }
  destruct (decide (0 < maxSegmentSize seg ∧ maxSegmentSize seg ≤ zlen descriptors)) as [Hlim|Hlim].
  - left. split; [done|]. intros ls0 Hl.
    apply (active_must_rotate dir mask (λ m, m = maxSegmentSize seg) opened seg w ts lss ls0 ls);
      [by intros m ->| |done..]. destruct Ha as [A1 A2 _ A4]. by split.
  - pose proof (ai_last _ _ _ _ _ _ _ _ Ha) as (h & t & ls1 & _ & _ & Hl1 & _ & Hs & _).
    assert (ls1 = [] → must_rotate seg (stream ls) = false) as Hempty.
    { intros ->. unfold must_rotate. rewrite Hs. simpl. by rewrite andb_false_r. }
    destruct (decide (must_rotate seg (stream ls) = negb (bool_decide (ls1 = [])))) as [Hr|Hr].
    + left. split; [done|]. intros ls0 Hl. by assert (ls0 = ls1) as -> by congruence.
    + right. exists ls1. case_bool_decide; [by rewrite Hempty in Hr|].
      split; [done|]. split; [by destruct (must_rotate seg (stream ls))|]. by split; [|left].
Qed.

(** A second batch is appended. *)
Lemma second_write_doubles opened seg w ts lss ls0 ls seg' w' :
  disk_inv dir mask horizon w ts lss → seg_inv opened seg w ts lss → last lss = Some ls0 →
  must_rotate seg (stream ls) = false → ls0 ≠ [] → ls ≠ [] →
  Segment_Write seg (stream ls) w = (None, seg', w') → doubled dir w'.
Proof.
  intros Hd Ha Hl Hr Hne0 Hne E.
  destruct (seg_inv_file _ _ _ _ _ _ Hd Ha Hl) as (h & t & Hf & Hh & Hin & Hft & Hwf).
  pose proof (Segment_Write_success _ _ _ _ _ (di_handles _ _ _ _ _ _ Hd) E) as [h1 p d Hf' _ Hh1 Hp Hfs _ _|h1 p Hx];
    [|destruct Hx; congruence].
  assert (p = resolve (seg_path dir mask t)) as -> by congruence. assert (d = stream ls0) as -> by congruence.
  exists (seg_path dir mask t), ls0, ls, []. rewrite app_nil_r.
  rewrite Hfs, lookup_insert_eq. erewrite listing_overwrite by exact Hp. done.
Qed.

(** Or that write fails, after [n] bytes of it. *)
Lemma second_write_fails opened seg w ts lss ls0 ls e seg' w' :
  disk_inv dir mask horizon w ts lss → seg_inv opened seg w ts lss → last lss = Some ls0 →
  must_rotate seg (stream ls) = false → Segment_Write seg (stream ls) w = (Some e, seg', w') →
  seg' = seg ∧ handles w' = handles w ∧ handles_ok w' ∧ (ticks w ≤ ticks w')%nat ∧
  ∃ n t, left_over n (stream ls) ∧
    (take n (stream ls) = [] ∧ fs w' = fs w ∨
     take n (stream ls) ≠ [] ∧ seg_path dir mask t ∈ listing dir (fs w') ∧ Forall wf_log ls0 ∧
     fs w' !! resolve (seg_path dir mask t) = Some (NFile (stream ls0 ++ take n (stream ls)))).
Proof.
  intros Hd Ha Hl Hr E. destruct (seg_inv_file _ _ _ _ _ _ Hd Ha Hl) as (h & t & Hf & Hh & Hin & Hft & Hwf).
  pose proof (Segment_Write_evolves seg (stream ls) w) as (_ & Hok & _). rewrite E in Hok.
  specialize (Hok (di_handles _ _ _ _ _ _ Hd)). simpl in Hok.
  pose proof (Segment_Write_ticks seg (stream ls) w) as Ht. rewrite E in Ht. simpl in Ht.
  assert (ticks w ≤ ticks w')%nat as Ht1 by (rewrite Ht; case_match; lia).
  destruct (Segment_Write_refused _ _ _ _ _ _ _ _ _ Hf Hh E) as (n & Href & Hn).
  destruct Href as [p0 _ -> Hfs Hopen Hhs|? ? ? ?|? ? ?]; [|congruence..].
  do 4 (split; [done|]). exists n, t. split; [done|].
  destruct (decide (take n (stream ls) = [])) as [En|Hne]; [left|right; split; [done|]].
  { split; [done|]. by rewrite Hfs, En, append_file_nil. }
  destruct Hopen as [->|(h2 & Hf2 & Hh2)]; [done|].
  assert (p0 = resolve (seg_path dir mask t)) as -> by congruence.
  unfold append_file in Hfs. rewrite Hft in Hfs. rewrite Hfs, lookup_insert_eq.
  by erewrite listing_overwrite by exact Hft.
Qed.

(** A second batch, when writes are clean: it doubles the segment, whether it is
    reported or not, or it leaves no trace. *)
Lemma disk_second opened seg w ts lss ls0 ls err seg' w' : clean_writes →
  disk_inv dir mask horizon w ts lss → seg_inv opened seg w ts lss → last lss = Some ls0 →
  must_rotate seg (stream ls) = false → ls0 ≠ [] → ls ≠ [] →
  Segment_Write seg (stream ls) w = (err, seg', w') →
  doubled dir w' ∨ is_Some err ∧ seg' = seg ∧ handles w' = handles w ∧ disk_inv dir mask horizon w' ts lss.
Proof.
  intros Hcl Hd Hseg Hl Hr Hne0 Hne E.
  destruct err as [e|]; [|left; by eapply second_write_doubles].
  destruct (second_write_fails _ _ _ _ _ _ _ _ _ _ Hd Hseg Hl Hr E) as (-> & Hhs & Hok & Ht & n & t & Hn & Hfs).
  destruct Hfs as [[_ Hfs]|(Hx & Hin & Hwf & Hft)].
  - right. split; [by eexists|]. split; [done|]. split; [done|]. by eapply disk_inv_later.
  - left. destruct (Hn Hcl) as [->|[-> _]]; [done|]. rewrite firstn_all in Hft.
    exists (seg_path dir mask t), ls0, ls, []. by rewrite app_nil_r.
Qed.

(** A first batch of which only the [Sync] failed: it is in its segment and the
    segment does not count it. *)
Lemma disk_unsynced opened seg w ts lss ls e seg' w' :
  refused (length (stream ls)) seg (stream ls) w seg' w' →
  disk_inv dir mask horizon w ts lss → active_inv dir mask lim opened seg w ts lss →
  (∀ ls0, last lss = Some ls0 → must_rotate seg (stream ls) = negb (bool_decide (ls0 = []))) →
  must_rotate seg (stream ls) = false ∨ fs w' ≠ fs w →
  ls ≠ [] → Forall good_log ls → zlen (stream ls) < 2 ^ 61 → (ticks w < horizon)%nat →
  Segment_Write seg (stream ls) w = (Some e, seg', w') →
  ∃ ts' lss', disk_inv dir mask horizon w' ts' lss' ∧ blind_inv dir mask lim true seg' w' ts' lss' ∧
    mjoin (sort_slice LSN <$> lss') = mjoin (sort_slice LSN <$> lss) ++ sort_slice LSN ls.
Proof.
  intros Href Hd Ha Hrot Hno Hne Hg Hsz Hk E. pose proof Ha as [A1 A2 A3 (h & t & ls0 & Hf & Hlt & Hll & Hh & Hs & Hz)].
  pose proof (Segment_Write_evolves seg (stream ls) w) as (_ & Hok & _). rewrite E in Hok.
  specialize (Hok (di_handles _ _ _ _ _ _ Hd)). simpl in Hok.
  pose proof (Segment_Write_ticks seg (stream ls) w) as Ht. rewrite E in Ht. simpl in Ht.
  rewrite Hf, (bool_decide_eq_false_2 (Some h = None)) in Ht by done. simpl in Ht.
  destruct Href as [p0 Hr -> Hfs Hopen Hhs|h1 p1 o1 Hr -> Hfs|h1 p Hr -> Hnone Hfs Hh1 ->].
  - rewrite Hr in Ht. rewrite (Hrot ls0 Hll), negb_false_iff, bool_decide_eq_true in Hr. subst ls0.
    rewrite firstn_all in Hfs. destruct Hopen as [Hn|(h2 & Hf2 & Hh2)].
    { apply nil_length_inv in Hn. pose proof (stream_nonempty ls Hne) as Hx. pose proof zlen_descriptors.
      rewrite Hn, zlen_nil in Hx. lia. }
    assert (h2 = h) as -> by congruence. rewrite Hh in Hh2. injection Hh2 as <- ->.
    apply last_Some in Hlt as [ts0 ->]. apply last_Some in Hll as [lss0 ->].
    assert (fs w !! resolve (seg_path dir mask t) = Some (NFile [])) as Hempty.
    { pose proof (di_hold _ _ _ _ _ _ Hd) as HF. by apply Forall2_snoc in HF as [_ [HF _]]. }
    unfold append_file in Hfs. rewrite Hempty in Hfs. simpl in Hfs.
    exists (ts0 ++ [t]), (lss0 ++ [ls]). rewrite !replayed_snoc, sort_slice_nil, app_nil_r.
    split; [|split; [|done]].
    + eapply disk_write_append; [done|exact Hd|exact Ha|done..|by rewrite Hfs; eapply listing_overwrite|exact Hfs|by rewrite Hhs|done].
    + split; try done. exists h, t, ls. rewrite !last_snoc, Hhs. done.
  - destruct Hno; congruence.
  - rewrite firstn_all in Hfs. unfold next_path in *. rewrite A1, A2 in *. fold (seg_path dir mask (env_clock (ticks w))) in *.
    assert (ticks w' = S (ticks w)) as Htw by (rewrite Ht, Hr; done).
    assert (listing dir (fs w') = listing dir (fs w) ++ [seg_path dir mask (env_clock (ticks w))]) as Hlist.
    { eapply (next_listing dir mask w w' ts); [apply Hcalm|apply Hcalm|apply Hd|by eapply disk_old|by apply Hcalm|done|exact Hfs]. }
    exists (ts ++ [env_clock (ticks w)]), (lss ++ [ls]). rewrite replayed_snoc. split; [|split; [|done]].
    + eapply disk_write_fresh; [done|exact Hd|exact A1|exact A2|exact A3|done..|exact Hlist|exact Hfs|exact Hh1|done].
    + split; try done. exists h1, (env_clock (ticks w)), ls. rewrite !last_snoc. done.
Qed.

(** A first batch, when writes are clean: it is added, it leaves no trace, or it
    fails and is there nevertheless. *)
Lemma disk_first opened seg w ts lss ls err seg' w' : clean_writes →
  disk_inv dir mask horizon w ts lss → active_inv dir mask lim opened seg w ts lss →
  (∀ ls0, last lss = Some ls0 → must_rotate seg (stream ls) = negb (bool_decide (ls0 = []))) →
  opened = true ∨ last lss ≠ Some [] →
  ls ≠ [] → Forall good_log ls → zlen (stream ls) < 2 ^ 61 → (ticks w < horizon)%nat →
  Segment_Write seg (stream ls) w = (err, seg', w') →
  ∃ ts' lss' opened', disk_inv dir mask horizon w' ts' lss' ∧ (opened' = true ∨ last lss' ≠ Some []) ∧
    (active_inv dir mask lim opened' seg' w' ts' lss' ∧
     mjoin (sort_slice LSN <$> lss') =
       mjoin (sort_slice LSN <$> lss) ++ match err with None => sort_slice LSN ls | Some _ => [] end ∨
     is_Some err ∧ ¬ sync_reliable ∧ blind_inv dir mask lim opened' seg' w' ts' lss' ∧
     mjoin (sort_slice LSN <$> lss') = mjoin (sort_slice LSN <$> lss) ++ sort_slice LSN ls).
Proof.
  intros Hcl Hd Ha Hrot Ho Hne Hg Hsz Hk E. destruct err as [e|].
  2: { destruct (disk_wrote dir mask horizon lim Hcalm opened seg w ts lss ls seg' w' Hd Ha Hrot Hg Hsz Hk E)
         as (ts' & lss' & _ & _ & Hd' & Ha' & Hcat).
       exists ts', lss', true. split; [done|]. split; [by left|]. by left. }
  destruct (ai_last _ _ _ _ _ _ _ _ Ha) as (h & t & ls0 & Hf & _ & Hl & Hh & _).
  destruct (Segment_Write_refused _ _ _ _ _ _ _ _ _ Hf Hh E) as (n & Href & Hn).
  assert (refused 0 seg (stream ls) w seg' w' →
    ∃ ts' lss' opened', disk_inv dir mask horizon w' ts' lss' ∧ (opened' = true ∨ last lss' ≠ Some []) ∧
      active_inv dir mask lim opened' seg' w' ts' lss' ∧
      mjoin (sort_slice LSN <$> lss') = mjoin (sort_slice LSN <$> lss)) as Hclean.
  { intros H0. destruct (disk_refused dir mask horizon lim Hcalm opened seg w ts lss (stream ls) e seg' w' H0 Hd Ha Hrot Ho Hk E)
      as (ts' & lss' & o' & _ & Hd' & Ha' & Ho' & Hcat). by exists ts', lss', o'. }
  destruct (Hn Hcl) as [->|[-> Hsync]].
  - destruct (Hclean Href) as (ts' & lss' & o' & Hd' & Ho' & Ha' & Hcat). exists ts', lss', o'.
    split; [done|]. split; [done|]. left. split; [done|]. by rewrite app_nil_r.
  - destruct (decide (must_rotate seg (stream ls) = true ∧ fs w' = fs w)) as [[Hr Hfs]|Hno].
    + assert (refused 0 seg (stream ls) w seg' w') as H0.
      { destruct Href as [p0 Hr' _ _ _ _|h1 p1 o1 _ Hseg _ Hf1 Hh1 Hh1'|h1 p _ _ Hnone Hfs' _ _]; [congruence|by eapply refused_rotation|].
        rewrite Hfs in Hfs'. rewrite Hfs' in Hnone. by rewrite lookup_insert_eq in Hnone. }
      destruct (Hclean H0) as (ts' & lss' & o' & Hd' & Ho' & Ha' & Hcat). exists ts', lss', o'.
      split; [done|]. split; [done|]. left. split; [done|]. by rewrite app_nil_r.
    + destruct (disk_unsynced opened seg w ts lss ls e seg' w' Href Hd Ha Hrot) as (ts' & lss' & Hd' & Hb & Hcat); try done.
      { destruct (must_rotate seg (stream ls)); [right|by left]. intros Hfs. by apply Hno. }
      exists ts', lss', true. split; [done|]. split; [by left|]. right. by split; [eexists|].
Qed.

End disk.
