(* ===== verification/Torn.v ===== *)
(** * Writes that fail half-way

    What a failed flush leaves behind, and what a restart makes of it. The
    recorded size of a segment does not count the bytes of a failed write
    ([Segment.Write] of [segment.go]), so the next batch is appended to them:
    it is acknowledged although recovery cannot read it, or reads something
    else in its place. Here the process goes on or ends after the failure;
    [Killed.v] treats a process that is killed during a write. *)

From S2P Require Import Prelude GoText Compute Config Gob WalLog OS FileSystem Concurrency HashTable Wal.

(** ** Lemmas: the last record of a stream *)

Section streams.
Context {ids : GobTypeIds}.

Lemma values_app ls1 ls2 : values (ls1 ++ ls2) = values ls1 ++ values ls2.
Proof. unfold values. by rewrite fmap_app, join_app. Qed.

Lemma stream_snoc ls l : stream (ls ++ [l]) = descriptors ++ values ls ++ frame (value_message l).
Proof.
  assert (stream (ls ++ [l]) = descriptors ++ values (ls ++ [l])) as -> by (by destruct ls).
  rewrite values_app. by unfold values at 2; simpl; rewrite app_nil_r.
Qed.

(** Every message ends with the terminator of the record. *)
Lemma stream_last_byte ls : ls ≠ [] → stream ls = removelast (stream ls) ++ [x00].
Proof.
  intros Hne. destruct (exists_last Hne) as (ls0 & l & ->). rewrite stream_snoc.
  unfold frame, value_message, encodeFields. rewrite !app_assoc. by rewrite removelast_last.
Qed.

(** A SET record up to its value, and the same record with another value. *)
Lemma stream_set ls lsn k v v' : zlen v = zlen v' →
  ∃ a, stream (ls ++ [{| LSN := lsn; CommandID := 1; Arguments := [k; v] |}]) = a ++ v ++ [x00] ∧
    stream (ls ++ [{| LSN := lsn; CommandID := 1; Arguments := [k; v'] |}]) = a ++ v' ++ [x00].
Proof.
  intros Hv. rewrite !stream_snoc.
  assert (∃ b, ∀ u, zlen u = zlen v →
    value_message {| LSN := lsn; CommandID := 1; Arguments := [k; u] |} = b ++ u ++ [x00]) as [b Hb].
  { exists (encodeInt log_id ++ (if bool_decide (lsn ≠ 0) then encodeUint 1 ++ encodeInt lsn else []) ++
      (encodeUint (if bool_decide (lsn ≠ 0) then 1 else 2) ++ encodeInt 1) ++
      encodeUint 1 ++ encodeUint 2 ++ encodeString k ++ encodeUint (zlen v)).
    intros u Hu. unfold value_message, encodeFields. cbn [LSN CommandID Arguments].
    rewrite (bool_decide_eq_true_2 (1 ≠ 0)), (bool_decide_eq_true_2 ([k; u] ≠ [])) by done.
    unfold encodeStrings. change (mjoin (encodeString <$> [k; u])) with (encodeString k ++ encodeString u ++ []).
    change (zlen [k; u]) with 2. unfold encodeString at 2. by rewrite Hu, app_nil_r, <- !app_assoc. }
  unfold frame. rewrite !Hb by done.
  eexists (descriptors ++ values ls ++ encodeUint (zlen (b ++ v ++ [x00])) ++ b).
  replace (zlen (b ++ v' ++ [x00])) with (zlen (b ++ v ++ [x00])) by (rewrite !zlen_app; lia).
  by rewrite <- !app_assoc.
Qed.

(** The bytes of another stream in place of the end of a value: a record that
    can be read, with a value that was never written. *)
Lemma stream_swallow ls lsn k v ls2 p : ls2 ≠ [] →
  let l := {| LSN := lsn; CommandID := 1; Arguments := [k; v] |} in
  let v' := take (length v + 1 - length (stream ls2)) v ++ removelast (stream ls2) in
  p `prefix_of` stream (ls ++ [l]) → zlen p + zlen (stream ls2) = zlen (stream (ls ++ [l])) →
  zlen (stream ls2) ≤ zlen v + 1 →
  zlen v' = zlen v ∧ p ++ stream ls2 = stream (ls ++ [{| LSN := lsn; CommandID := 1; Arguments := [k; v'] |}]).
Proof.
  intros Hne l v' [q Hp] Hlen Hfit. pose proof (stream_last_byte ls2 Hne) as Hlast.
  set (c := removelast (stream ls2)) in *. set (n := (length v + 1 - length (stream ls2))%nat) in *.
  assert (length (stream ls2) = S (length c)) as Hc by (rewrite Hlast, length_app; simpl; lia).
  unfold zlen in Hfit, Hlen. assert (zlen v' = zlen v) as Hv'.
  { unfold zlen, v'. rewrite length_app, length_take. lia. }
  split; [done|]. destruct (stream_set ls lsn k v v' (eq_sym Hv')) as (a & E1 & E2).
  unfold l in Hp, Hlen. rewrite E1 in Hp, Hlen. rewrite E2, Hlast. unfold v'.
  rewrite Hc, !length_app in Hlen. simpl in Hlen.
  assert (p = a ++ take n v) as ->; [|by rewrite <- !app_assoc].
  rewrite <- (take_app_length p q), <- Hp, take_app_ge by lia. f_equal.
  rewrite take_app_le by lia. f_equal. lia.
Qed.

End streams.

(** ** Lemmas: the disk after a failed write *)

Section torn.
Context {env : Env} {ids : GobTypeIds} {sorter : SortSlice}.
Context (dir mask : bytes) (horizon : nat) (Hcalm : calm dir mask horizon) (lim : Z → Prop).

(** The segment created at [t] is active and empty as far as the log knows,
    and holds the bytes [p]; the segments before it hold their batches. *)
Record torn (seg : Segment) (w : world) (ts : list Z) (lss : list (list Log)) (t : Z) (p : bytes) : Prop := {
  to_handles : handles_ok w;
  to_dir : is_dir w (resolve dir) = true;
  to_list : listing dir (fs w) = (seg_path dir mask <$> ts) ++ [seg_path dir mask t];
  to_hold : Forall2 (λ t ls, holds_batch (fs w) (seg_path dir mask t) ls) ts lss;
  to_other : Forall (λ t', resolve (seg_path dir mask t') ≠ resolve (seg_path dir mask t)) ts;
  to_bytes : fs w !! resolve (seg_path dir mask t) = Some (NFile p);
  to_seg : directory seg = dir ∧ segmentSize seg = 0;
  to_file : ∃ h, file seg = Some h ∧
    handles w !! h = Some {| h_path := resolve (seg_path dir mask t); h_open := true |}
}.

(** A write that fails and leaves bytes behind. *)
Lemma torn_write opened seg w ts lss data e seg' w' h q p :
  disk_inv dir mask horizon w ts lss → active_inv dir mask lim opened seg w ts lss →
  (∀ ls0, last lss = Some ls0 → must_rotate seg data = negb (bool_decide (ls0 = []))) →
  (ticks w < horizon)%nat → Segment_Write seg data w = (Some e, seg', w') →
  file seg' = Some h → handles w' !! h = Some {| h_path := q; h_open := true |} →
  fs w !! q = None ∨ fs w !! q = Some (NFile []) → fs w' !! q = Some (NFile p) → p ≠ [] →
  p `prefix_of` data ∧ ∃ ts0 t lss0, torn seg' w' ts0 lss0 t p ∧
    mjoin (sort_slice LSN <$> lss0) = mjoin (sort_slice LSN <$> lss).
Proof.
  intros Hd Ha Hrot Hk E Hf Hh Hq Hp Hne. pose proof Ha as [A1 A2 A3 (h0 & t & ls0 & Hf0 & Hlt & Hll & Hh0 & Hs0 & _)].
  pose proof (Segment_Write_evolves seg data w) as (_ & Hok & _). rewrite E in Hok.
  specialize (Hok (di_handles _ _ _ _ _ _ Hd)). simpl in Hok.
  pose proof (disk_old dir mask horizon Hcalm _ _ _ Hd Hk) as Hold.
  destruct (Segment_Write_refused _ _ _ _ _ _ _ _ _ Hf0 Hh0 E) as (n & Href & _).
  destruct Href as [p0 Hr -> Hfs Hopen Hhs|h1 p1 o1 Hr -> Hfs Hf1 Hh1 Hh1'|h1 p1 Hr Hp1 Hnone Hfs Hh1 ->].
  - destruct Hopen as [->|(h2 & Hf2 & Hh2)]; [simpl in Hfs; rewrite append_file_nil in Hfs; naive_solver congruence|].
    rewrite Hhs in Hh. assert (h = h0) as -> by congruence. assert (h2 = h0) as -> by congruence.
    rewrite Hh0 in Hh, Hh2. simplify_eq. rewrite (Hrot _ Hll) in Hr. apply negb_false_iff, bool_decide_eq_true in Hr as ->.
    destruct Hq as [Hq|Hq]; [by destruct (di_handles _ _ _ _ _ _ Hd _ _ Hh0); congruence|].
    unfold append_file in Hfs. rewrite Hq in Hfs. simpl in Hfs. rewrite Hfs, lookup_insert_eq in Hp. simplify_eq.
    split; [exists (drop n data); by rewrite take_drop|].
    apply last_Some in Hlt as [ts0 ->]. apply last_Some in Hll as [lss0 ->]. exists ts0, t, lss0.
    pose proof (di_hold _ _ _ _ _ _ Hd) as HF. apply Forall2_app_inv in HF as [HF _];
      [|by apply Forall2_length in HF; rewrite !length_app in HF; simpl in HF; lia].
    assert (Forall (λ t', resolve (seg_path dir mask t') ≠ resolve (seg_path dir mask t)) ts0) as Hother.
    { pose proof (di_nodup _ _ _ _ _ _ Hd) as Hnd. apply NoDup_app in Hnd as (_ & Hnin & _).
      apply Forall_app in Hold as [Hold Holdt]. apply Forall_inv in Holdt as [Hit _].
      rewrite Forall_forall in *. intros t' Hin Et. apply (seg_path_inj dir mask horizon Hcalm) in Et as ->;
        [|by apply Hold|done]. apply (Hnin t Hin). by apply list_elem_of_singleton. }
    split; [|by rewrite replayed_snoc, sort_slice_nil, app_nil_r].
    split; try done.
    + eapply (is_dir_insert dir); [apply Hd|by right|exact Hfs].
    + rewrite Hfs. erewrite listing_overwrite by exact Hq. rewrite (di_list _ _ _ _ _ _ Hd), fmap_app. done.
    + rewrite Hfs. by apply holds_insert.
    + by rewrite Hfs, lookup_insert_eq.
    + exists h0. by rewrite Hhs.
  - simplify_eq.
  - simpl in Hf. simplify_eq. rewrite Hfs, lookup_insert_eq in Hp. simplify_eq.
    split; [exists (drop n data); by rewrite take_drop|].
    unfold next_path in *. rewrite A1, A2 in *. fold (seg_path dir mask (env_clock (ticks w))) in *.
    exists ts, (env_clock (ticks w)), lss. split; [|done].
    pose proof (calm_instant _ _ _ Hcalm _ Hk) as Hnow.
    assert (Forall (λ t', resolve (seg_path dir mask t') ≠ resolve (seg_path dir mask (env_clock (ticks w)))) ts) as Hother.
    { eapply Forall_impl; [exact Hold|]. simpl. intros t' [Hi Hlt'] Et.
      apply (seg_path_inj dir mask horizon Hcalm) in Et; try done. lia. }
    split; try done.
    + eapply (is_dir_insert dir _ _ _ _ []); [apply Hd|by left|exact Hfs].
    + rewrite <- (di_list _ _ _ _ _ _ Hd). unfold seg_path.
      eapply (next_listing dir mask w w' ts); [apply Hcalm|apply Hcalm|apply Hd|done|done|done|exact Hfs].
    + rewrite Hfs. apply holds_insert; [apply Hd|done].
    + by rewrite Hfs, lookup_insert_eq.
    + by exists h.
Qed.

(** The next batch is appended to what was left behind. *)
Lemma torn_append seg w ts lss t p data :
  torn seg w ts lss t p → quiet w →
  ∃ seg' w', Segment_Write seg data w = (None, seg', w') ∧ quiet w' ∧ torn (set_file seg' (file seg') 0) w' ts lss t (p ++ data).
Proof.
  intros [Hok Hdir Hlist Hhold Hother Hp [Hsd Hsz] (h & Hf & Hh)] Hq.
  assert (must_rotate seg data = false) as Hr by (unfold must_rotate; by rewrite Hsz, andb_false_r).
  destruct (write_current_total seg data w h _ Hq Hf Hh) as (seg' & w' & E).
  assert (Segment_Write seg data w = (None, seg', w')) as Ew by (unfold Segment_Write, rotate_and_write; by rewrite Hf, Hr).
  pose proof (Segment_Write_evolves seg data w) as (_ & Hok' & Hc). rewrite Ew in Hok', Hc. simpl in *.
  exists seg', w'. split; [done|]. split; [by eapply quiet_mono|].
  destruct (Segment_Write_success _ _ _ _ _ Hok Ew) as [h1 p1 d Hf1 _ Hh1 Hd Hfs Hh1' ->|h1 p1 [?|?] _ _ _ _ _];
    [|congruence..].
  assert (h1 = h) as -> by congruence. rewrite Hh in Hh1. injection Hh1 as <-.
  assert (d = p) as -> by congruence.
  split; [by apply Hok'| | | |done| | |].
  - eapply (is_dir_insert dir); [exact Hdir|by right|exact Hfs].
  - rewrite Hfs. by erewrite listing_overwrite by exact Hp.
  - rewrite Hfs. by apply holds_insert.
  - by rewrite Hfs, lookup_insert_eq.
  - done.
  - by exists h.
Qed.

(** ** A flush that leaves bytes behind *)

Context (fresh : Wal HashTable).

(** The flush of [ls] failed in [s], and the file it was writing to, which was
    empty or did not exist, holds the bytes [p] in [s1]; every system call
    after that works. *)
Record left_behind (s s1 : Sys HashTable) (ls : list Log) (p : bytes) : Prop := {
  lb_failed : ∃ e, run_event fresh (Flush ls) s = Done (Some e, s1);
  lb_bytes : ∃ h q, file (segment (wal s1)) = Some h ∧
    handles (os s1) !! h = Some {| h_path := q; h_open := true |} ∧
    (fs (os s) !! q = None ∨ fs (os s) !! q = Some (NFile [])) ∧ fs (os s1) !! q = Some (NFile p);
  lb_some : p ≠ [];
  lb_quiet : quiet (os s1)
}.

(** The batch goes to an empty segment: the active one is empty, or the size
    limit gives every batch a segment of its own. *)
Definition own_segment (s : Sys HashTable) (lss : list (list Log)) : Prop :=
  last lss = Some [] ∨ 0 < maxSegmentSize (segment (wal s)) ≤ zlen descriptors.

Lemma own_segment_rotates opened s ts lss ls : own_segment s lss → ls ≠ [] → zlen (stream ls) < 2 ^ 61 →
  active_inv dir mask lim opened (segment (wal s)) (os s) ts lss →
  ∀ ls0, last lss = Some ls0 → must_rotate (segment (wal s)) (stream ls) = negb (bool_decide (ls0 = [])).
Proof.
  intros Ho Hne Hsz Ha ls0 Hl. destruct Ho as [Ho|Ho].
  - destruct (ai_last _ _ _ _ _ _ _ _ Ha) as (h & t & ls1 & _ & _ & Hl1 & _ & Hs & _). simplify_eq.
    unfold must_rotate. by rewrite Hs, andb_false_r.
  - destruct Ha as [A1 A2 _ A4].
    apply (active_must_rotate dir mask (λ m, 0 < m ≤ zlen descriptors) opened _ (os s) ts lss); [done|by split|done..].
Qed.

Lemma left_behind_torn opened s s1 ts lss ls p : left_behind s s1 ls p → Forall good_log ls →
  ls ≠ [] → zlen (stream ls) < 2 ^ 61 → own_segment s lss → (ticks (os s) < horizon)%nat →
  disk_inv dir mask horizon (os s) ts lss → active_inv dir mask lim opened (segment (wal s)) (os s) ts lss →
  p `prefix_of` stream ls ∧ ∃ ts0 t lss0, torn (segment (wal s1)) (os s1) ts0 lss0 t p ∧
    mjoin (sort_slice LSN <$> lss0) = mjoin (sort_slice LSN <$> lss).
Proof.
  intros [[e Hfail] (h & q & Hf & Hh & Hq & Hp) Hne Hquiet] Hg Hls Hsz Hown Hk Hd Ha.
  destruct (run_flush_any fresh ls s Hls Hg) as (h' & sorted & E & _). cbn zeta in E. rewrite Hfail in E.
  destruct (Segment_Write (segment (wal s)) (stream ls) (os s)) as [[err seg'] w'] eqn:Ew. simpl in E. simplify_eq.
  simpl in *. eapply torn_write; [done|done|by eapply own_segment_rotates|done|done|done|done|done|done|done].
Qed.

(** A flush after that is acknowledged. *)
Lemma torn_flush s1 ts lss t p ls : torn (segment (wal s1)) (os s1) ts lss t p → quiet (os s1) →
  ls ≠ [] → Forall good_log ls →
  ∃ s2 seg2, run_event fresh (Flush ls) s1 = Done (None, s2) ∧ quiet (os s2) ∧ torn seg2 (os s2) ts lss t (p ++ stream ls).
Proof.
  intros Ht Hq Hne Hg. destruct (torn_append _ _ _ _ _ _ (stream ls) Ht Hq) as (seg' & w' & Ew & Hq' & Ht').
  destruct (run_flush fresh ls s1 seg' w' Hne Hg Ew) as (h' & sorted & E & _). by eexists _, _.
Qed.

Context (Hdir : directory (segment fresh) = dir) (Htable : commandHashTable fresh = NewHashTable).

Lemma torn_restart_bad seg s ts lss t data logs e : torn seg (os s) ts lss t data → quiet (os s) →
  decode_all data = (logs, Some e) →
  ∃ s', run_event fresh Restart s = Done (Some ErrFailedDecode, s') ∧ fs (os s') = fs (os s).
Proof.
  intros [_ Hd Hl Hh _ Hb _ _] Hq Hdec.
  destruct (Recovery_bad {| wal := fresh; heap := []; os := crash (os s) |} (seg_path dir mask <$> ts) lss
    (seg_path dir mask t) data logs e []) as (s' & E & Hsame & _); simpl; rewrite ?Hdir; try done.
  { by apply Forall2_fmap_l. }
  exists s'. split; [exact (f_equal Done E)|]. apply Hsame.
Qed.

Lemma torn_restart_good seg s ts lss t ls : torn seg (os s) ts lss t (stream ls) → quiet (os s) →
  Forall good_log ls →
  ∃ s', run_event fresh Restart s = Done (None, s') ∧
    data (commandHashTable (wal s')) = replay (sort_slice LSN ls) (replay (mjoin (sort_slice LSN <$> lss)) ∅).
Proof.
  intros [_ Hd Hl Hh _ Hb _ _] Hq Hg.
  destruct (Recovery_batches {| wal := fresh; heap := []; os := crash (os s) |}
    (seg_path dir mask <$> (ts ++ [t])) (lss ++ [ls]) (seg_path dir mask t)) as (err & s' & E & _ & _ & Hres);
    simpl; rewrite ?Hdir, ?fmap_app; try done.
  { simpl. by rewrite last_snoc. }
  { apply Forall2_app; [by apply Forall2_fmap_l|]. by repeat constructor. }
  destruct err as [e|]; [done|]. exists s'. split; [exact (f_equal Done E)|].
  destruct Hres as (d & size & _ & _ & -> & _). simpl. rewrite Htable, apply_all_replay, replayed_snoc. simpl.
  apply replay_app.
Qed.

End torn.

(** ** Properties *)

(** C35: a failed flush can make the segment unreadable for a batch that is
    acknowledged: when the failed write left whole records behind (a [Sync]
    that fails leaves all of them), the next flush is acknowledged to its
    clients, is appended to these records, and the restart ends with
    [ErrFailedDecode] and changes nothing, so neither does the next one. This
    holds under every size limit, one batch per segment included. *)
Theorem failed_write_bricks_restart {env : Env} {ids : GobTypeIds} {sorter : SortSlice}
  (dir mask : bytes) (horizon : nat) (lim : Z → Prop) (opened : bool) (fresh : Wal HashTable)
  (s s1 : Sys HashTable) (ts : list Z) (lss : list (list Log)) (ls1 ls2 : list Log) (k : nat)
  (Hcalm : calm dir mask horizon) (Hdir : directory (segment fresh) = dir)
  (Hdisk : disk_inv dir mask horizon (os s) ts lss)
  (Hactive : active_inv dir mask lim opened (segment (wal s)) (os s) ts lss)
  (Hticks : (ticks (os s) < horizon)%nat) (Hown : own_segment s lss)
  (Hg1 : Forall good_log ls1) (Hsize : zlen (stream ls1) < 2 ^ 61)
  (Hne2 : ls2 ≠ []) (Hg2 : Forall good_log ls2)
  (Hleft : left_behind fresh s s1 ls1 (stream (take k ls1))) :
  ∃ s2 s3, run_event fresh (Flush ls2) s1 = Done (None, s2) ∧
    run_event fresh Restart s2 = Done (Some ErrFailedDecode, s3) ∧ fs (os s3) = fs (os s2).
Proof.
  pose proof (lb_some _ _ _ _ _ Hleft) as Hp.
  assert (take k ls1 ≠ []) as Hk by (by intros E; rewrite E in Hp).
  destruct (left_behind_torn dir mask horizon Hcalm lim fresh opened s s1 ts lss ls1 _ Hleft Hg1)
    as (_ & ts0 & t & lss0 & Ht & _); try done; [by intros ->; rewrite take_nil in Hk|].
  destruct (torn_flush dir mask fresh s1 ts0 lss0 t _ ls2 Ht (lb_quiet _ _ _ _ _ Hleft) Hne2 Hg2)
    as (s2 & seg2 & E2 & Hq2 & Ht2).
  destruct (torn_restart_bad dir mask fresh Hdir seg2 s2 ts0 lss0 t _ (take k ls1) (EGob GobDuplicateType) Ht2 Hq2)
    as (s3 & E3 & Hfs).
  { rewrite <- (app_nil_r (stream ls2)). apply gob_second_stream_refused; [done|done|].
    by apply good_wf, Forall_take. }
  by exists s2, s3.
Qed.

(** C34: a failed flush can swallow the batch after it: when the last record of
    the failed batch is a SET whose value was cut off as many bytes before the
    end as the next batch is long, that batch is acknowledged and the restart
    succeeds, but no record of it is there: its bytes have become the end of
    the value of the failed SET, which takes effect with a value that nobody
    wrote. *)
Theorem failed_write_swallows_batch {env : Env} {ids : GobTypeIds} {sorter : SortSlice}
  (dir mask : bytes) (horizon : nat) (lim : Z → Prop) (opened : bool) (fresh : Wal HashTable)
  (s s1 : Sys HashTable) (ts : list Z) (lss : list (list Log)) (ls ls2 : list Log) (lsn : Z) (k v p : bytes)
  (Hcalm : calm dir mask horizon) (Hdir : directory (segment fresh) = dir)
  (Htable : commandHashTable fresh = NewHashTable)
  (Hdisk : disk_inv dir mask horizon (os s) ts lss)
  (Hactive : active_inv dir mask lim opened (segment (wal s)) (os s) ts lss)
  (Hticks : (ticks (os s) < horizon)%nat) (Hown : own_segment s lss)
  (Hg1 : ∀ v', zlen v' = zlen v →
     Forall good_log (ls ++ [{| LSN := lsn; CommandID := 1; Arguments := [k; v'] |}]))
  (Hsize : zlen (stream (ls ++ [{| LSN := lsn; CommandID := 1; Arguments := [k; v] |}])) < 2 ^ 61)
  (Hne2 : ls2 ≠ []) (Hg2 : Forall good_log ls2)
  (Hleft : left_behind fresh s s1 (ls ++ [{| LSN := lsn; CommandID := 1; Arguments := [k; v] |}]) p)
  (Hcut : zlen p + zlen (stream ls2) = zlen (stream (ls ++ [{| LSN := lsn; CommandID := 1; Arguments := [k; v] |}])))
  (Hvalue : zlen (stream ls2) ≤ zlen v + 1) :
  ∃ s2 s3, run_event fresh (Flush ls2) s1 = Done (None, s2) ∧
    run_event fresh Restart s2 = Done (None, s3) ∧
    let v' := take (length v + 1 - length (stream ls2)) v ++ removelast (stream ls2) in
    data (commandHashTable (wal s3)) =
      replay (sort_slice LSN (ls ++ [{| LSN := lsn; CommandID := 1; Arguments := [k; v'] |}]))
        (replay (mjoin (sort_slice LSN <$> lss)) ∅).
Proof.
  destruct (left_behind_torn dir mask horizon Hcalm lim fresh opened s s1 ts lss _ _ Hleft)
    as (Hp & ts0 & t & lss0 & Ht & Hcat); [by apply Hg1|by destruct ls|done..|].
  destruct (torn_flush dir mask fresh s1 ts0 lss0 t _ ls2 Ht (lb_quiet _ _ _ _ _ Hleft) Hne2 Hg2)
    as (s2 & seg2 & E2 & Hq2 & Ht2).
  destruct (stream_swallow ls lsn k v ls2 p Hne2 Hp Hcut Hvalue) as [Hv' Ep]. rewrite Ep in Ht2.
  destruct (torn_restart_good dir mask fresh Hdir Htable seg2 s2 ts0 lss0 t _ Ht2 Hq2 (Hg1 _ Hv')) as (s3 & E3 & Hd).
  exists s2, s3. split; [done|]. split; [done|]. by rewrite Hd, Hcat.
Qed.

(** C36: a flush that failed and left some part of its batch in a segment that
    the batch did not share with another, after which the process ends: the part
    is a prefix of the batch's stream, and, no further system call failing, the
    next start-up succeeds exactly when it is a whole number of records, and
    then these records (of writes that were reported as failed) take effect
    after everything acknowledged; in every other case it ends with
    [ErrFailedDecode] and changes no file. *)
Theorem restart_after_torn_write {env : Env} {ids : GobTypeIds} {sorter : SortSlice}
  (dir mask : bytes) (horizon : nat) (lim : Z → Prop) (opened : bool) (fresh : Wal HashTable)
  (s s1 : Sys HashTable) (ts : list Z) (lss : list (list Log)) (ls : list Log) (p : bytes)
  (Hcalm : calm dir mask horizon) (Hdir : directory (segment fresh) = dir)
  (Htable : commandHashTable fresh = NewHashTable)
  (Hdisk : disk_inv dir mask horizon (os s) ts lss)
  (Hactive : active_inv dir mask lim opened (segment (wal s)) (os s) ts lss)
  (Hticks : (ticks (os s) < horizon)%nat) (Hown : own_segment s lss)
  (Hne : ls ≠ []) (Hg : Forall good_log ls) (Hsize : zlen (stream ls) < 2 ^ 61)
  (Hleft : left_behind fresh s s1 ls p) :
  p `prefix_of` stream ls ∧ ∃ err s2, run_event fresh Restart s1 = Done (err, s2) ∧
    match err with
    | None => ∃ k, p = stream (take k ls) ∧
        data (commandHashTable (wal s2)) =
          replay (sort_slice LSN (take k ls)) (replay (mjoin (sort_slice LSN <$> lss)) ∅)
    | Some e => e = ErrFailedDecode ∧ fs (os s2) = fs (os s1) ∧ ∀ k, p ≠ stream (take k ls)
    end.
Proof.
  destruct (left_behind_torn dir mask horizon Hcalm lim fresh opened s s1 ts lss _ _ Hleft)
    as (Hp & ts0 & t & lss0 & Ht & Hcat); [done..|]. split; [done|]. destruct Hp as [q Hpq].
  pose proof (lb_quiet _ _ _ _ _ Hleft) as Hq.
  destruct (decode_all_truncated ls p q (good_wf _ Hg) Hpq) as (k & e & Hdec & Hres).
  destruct e as [e|].
  - destruct (torn_restart_bad dir mask fresh Hdir _ s1 ts0 lss0 t _ _ _ Ht Hq Hdec) as (s2 & E & Hfs).
    eexists _, s2. split; [exact E|]. split; [done|]. split; [done|]. intros k' ->.
    rewrite decode_all_good in Hdec by (by apply good_wf, Forall_take). done.
  - destruct Hres as [[_ ->]|]; [|done].
    destruct (torn_restart_good dir mask fresh Hdir Htable _ s1 ts0 lss0 t (take k ls) Ht Hq) as (s2 & E & Hd);
      [by apply Forall_take|].
    exists None, s2. split; [done|]. exists k. by rewrite Hd, Hcat.
Qed.

(** *** Examples

    A process on an empty directory, with the given faults and size limit. *)

Definition demo_start (faults : sys_call → nat → fault) (max : Z) : error * Sys HashTable :=
  @Recovery (demo_env faults) default_ids insertion_sort_slice HashTable _
    {| wal := demo_wal max; heap := []; os := world0 |}.

Definition demo_flush (faults : sys_call → nat → fault) (max : Z) (ls : list Log) : error * Sys HashTable :=
  match @run_event (demo_env faults) default_ids insertion_sort_slice (demo_wal max) (Flush ls) (demo_start faults max).2 with
  | Done r => r
  | _ => (None, (demo_start faults max).2)
  end.

(** The system call with this number fails if it is of this kind; after the
    start the first write is the fourth one and its [Sync] the fifth. *)
Definition fails_at (c : sys_call) (n k : nat) (c' : sys_call) (n' : nat) : fault :=
  match c, c' with
  | SysWrite, SysWrite | SysSync, SysSync => if (n =? n')%nat then Fault k else NoFault
  | _, _ => NoFault
  end.

Lemma demo_started c n k max : (demo_start (fails_at c n k) max).1 = None →
  ∃ t, @disk_inv (demo_env (fails_at c n k)) default_ids wal_dir (str "segment_") 1000
      (os (demo_start (fails_at c n k) max).2) [t] [[]] ∧
    @active_inv (demo_env (fails_at c n k)) default_ids wal_dir (str "segment_") (λ m, m = max) true
      (segment (wal (demo_start (fails_at c n k) max).2)) (os (demo_start (fails_at c n k) max).2) [t] [[]].
Proof.
  intros E0.
  destruct (@disk_recover_empty (demo_env (fails_at c n k)) default_ids insertion_sort_slice wal_dir (str "segment_") 1000
    (λ m, m = max) (demo_calm _) HashTable _ {| wal := demo_wal max; heap := []; os := world0 |})
    as (err & s' & E & _ & Hres).
  - exact (demo_empty _).
  - reflexivity.
  - reflexivity.
  - reflexivity.
  - apply (bool_decide_unpack _). vm_compute. reflexivity.
  - unfold demo_start in *. rewrite E in *. simpl in E0. subst err.
    destruct Hres as (t & Hd & Ha & _). by exists t.
Qed.

Lemma demo_left c n k max ls p :
  (demo_flush (fails_at c n k) max ls).1 = Some ErrFailedSaveFile ∧
  (n < calls (os (demo_flush (fails_at c n k) max ls).2))%nat ∧
  file (segment (wal (demo_flush (fails_at c n k) max ls).2)) = Some 0%nat ∧
  (let q := from_option h_path [] (handles (os (demo_flush (fails_at c n k) max ls).2) !! 0%nat) in
   handles (os (demo_flush (fails_at c n k) max ls).2) !! 0%nat = Some {| h_path := q; h_open := true |} ∧
   fs (os (demo_start (fails_at c n k) max).2) !! q = Some (NFile []) ∧
   fs (os (demo_flush (fails_at c n k) max ls).2) !! q = Some (NFile p)) ∧ p ≠ [] →
  @left_behind (demo_env (fails_at c n k)) default_ids insertion_sort_slice (demo_wal max)
    (demo_start (fails_at c n k) max).2 (demo_flush (fails_at c n k) max ls).2 ls p.
Proof.
  intros (He & Hn & Hf & (Hh & Hq & Hp) & Hne). split; [| |done|].
  - exists ErrFailedSaveFile. unfold demo_flush in *. destruct (run_event _ _ _) as [[e s1]| |]; naive_solver.
  - eexists 0%nat, _. split; [exact Hf|]. split; [exact Hh|]. split; [by right|exact Hp].
  - intros c' m Hm. simpl. unfold fails_at.
    assert ((n =? m)%nat = false) as -> by (apply Nat.eqb_neq; lia). by destruct c, c'.
Qed.


Lemma failed_write_bricks_restart_witness :
  let faults := fails_at SysSync 4 0 in
  ∃ s2 s3, @run_event (demo_env faults) default_ids insertion_sort_slice (demo_wal 1) (Flush [sample_del])
      (demo_flush faults 1 [sample_set]).2 = Done (None, s2) ∧
    @run_event (demo_env faults) default_ids insertion_sort_slice (demo_wal 1) Restart s2 =
      Done (Some ErrFailedDecode, s3) ∧ fs (os s3) = fs (os s2).
Proof.
  intros faults. destruct (demo_started SysSync 4 0 1) as (t & Hd & Ha); [vm_compute; reflexivity|].
  apply (@failed_write_bricks_restart (demo_env faults) default_ids insertion_sort_slice wal_dir (str "segment_") 1000
    (λ m, m = 1) true (demo_wal 1) (demo_start faults 1).2 _ [t] [[]] [sample_set] [sample_del] 1).
  - exact (demo_calm _).
  - reflexivity.
  - exact Hd.
  - exact Ha.
  - apply (bool_decide_unpack _). vm_compute. reflexivity.
  - by left.
  - constructor; [exact (Forall_inv sample_good)|constructor].
  - vm_compute. reflexivity.
  - discriminate.
  - constructor; [exact (Forall_inv (Forall_inv_tail sample_good))|constructor].
  - apply demo_left. split; [vm_compute; reflexivity|]. split; [apply (bool_decide_unpack _); vm_compute; reflexivity|].
    split; [vm_compute; reflexivity|]. split; [split; [|split]; vm_compute; reflexivity|]. vm_compute. discriminate.
Defined.

(** A value of 200 letters; the write of its record stops 94 bytes early, which
    is the length of the next batch. *)
Definition long_value : bytes := repeat x61 200.

Definition long_set (v : bytes) : Log := {| LSN := 1; CommandID := 1; Arguments := [str "k"; v] |}.

Lemma long_set_good v : zlen v = zlen long_value → @good_log default_ids (long_set v).
Proof.
  intros Hv. change (zlen long_value) with 200 in Hv.
  assert (zlen (mjoin (Arguments (long_set v))) = 201) as Hj by (simpl; rewrite zlen_cons, app_nil_r; lia).
  pose proof (@value_message_length default_ids (long_set v) ltac:(by vm_compute) ltac:(by vm_compute)
    ltac:(by vm_compute)) as Hlen.
  rewrite Hj in Hlen. split; [|split; intros E; simpl in *; (discriminate || lia)].
  split; [by vm_compute|]. split; [by vm_compute|]. split; [|by vm_compute].
  change (zlen (Arguments (long_set v))) with 2 in Hlen. unfold tooBig. lia.
Qed.

Lemma failed_write_swallows_batch_witness :
  let faults := fails_at SysWrite 3 198 in
  ∃ s2 s3, @run_event (demo_env faults) default_ids insertion_sort_slice (demo_wal 1) (Flush [sample_del])
      (demo_flush faults 1 [long_set long_value]).2 = Done (None, s2) ∧
    @run_event (demo_env faults) default_ids insertion_sort_slice (demo_wal 1) Restart s2 = Done (None, s3) ∧
    let v' := take (length long_value + 1 - length (@stream default_ids [sample_del])) long_value ++
              removelast (@stream default_ids [sample_del]) in
    data (commandHashTable (wal s3)) =
      replay (@sort_slice insertion_sort_slice Log LSN ([] ++ [long_set v'])) (replay (mjoin (sort_slice LSN <$> [[]])) ∅).
Proof.
  intros faults. destruct (demo_started SysWrite 3 198 1) as (t & Hd & Ha); [vm_compute; reflexivity|].
  apply (@failed_write_swallows_batch (demo_env faults) default_ids insertion_sort_slice wal_dir (str "segment_") 1000
    (λ m, m = 1) true (demo_wal 1) (demo_start faults 1).2 _ [t] [[]] [] [sample_del] 1 (str "k") long_value
    (take 198 (@stream default_ids [long_set long_value]))).
  - exact (demo_calm _).
  - reflexivity.
  - reflexivity.
  - exact Hd.
  - exact Ha.
  - apply (bool_decide_unpack _). vm_compute. reflexivity.
  - by left.
  - intros v' Hv'. constructor; [exact (long_set_good v' Hv')|constructor].
  - vm_compute. reflexivity.
  - discriminate.
  - constructor; [exact (Forall_inv (Forall_inv_tail sample_good))|constructor].
  - apply demo_left. split; [vm_compute; reflexivity|]. split; [apply (bool_decide_unpack _); vm_compute; reflexivity|].
    split; [vm_compute; reflexivity|]. split; [split; [|split]; vm_compute; reflexivity|]. vm_compute. discriminate.
  - vm_compute. reflexivity.
  - vm_compute. discriminate.
Defined.

Lemma restart_after_torn_write_witness :
  let faults := fails_at SysWrite 3 100 in
  let p := take 100 (@stream default_ids [sample_set; sample_del]) in
  p `prefix_of` @stream default_ids [sample_set; sample_del] ∧
  ∃ err s2, @run_event (demo_env faults) default_ids insertion_sort_slice (demo_wal 1) Restart
      (demo_flush faults 1 [sample_set; sample_del]).2 = Done (err, s2) ∧
    match err with
    | None => ∃ k, p = @stream default_ids (take k [sample_set; sample_del]) ∧
        data (commandHashTable (wal s2)) =
          replay (@sort_slice insertion_sort_slice Log LSN (take k [sample_set; sample_del]))
            (replay (mjoin (sort_slice LSN <$> [[]])) ∅)
    | Some e => e = ErrFailedDecode ∧ fs (os s2) = fs (os (demo_flush faults 1 [sample_set; sample_del]).2) ∧
        ∀ k, p ≠ @stream default_ids (take k [sample_set; sample_del])
    end.
Proof.
  intros faults p. destruct (demo_started SysWrite 3 100 1) as (t & Hd & Ha); [vm_compute; reflexivity|].
  apply (@restart_after_torn_write (demo_env faults) default_ids insertion_sort_slice wal_dir (str "segment_") 1000
    (λ m, m = 1) true (demo_wal 1) (demo_start faults 1).2 _ [t] [[]] [sample_set; sample_del] p).
  - exact (demo_calm _).
  - reflexivity.
  - reflexivity.
  - exact Hd.
  - exact Ha.
  - apply (bool_decide_unpack _). vm_compute. reflexivity.
  - by left.
  - discriminate.
  - exact sample_good.
  - vm_compute. reflexivity.
  - apply demo_left. split; [vm_compute; reflexivity|]. split; [apply (bool_decide_unpack _); vm_compute; reflexivity|].
    split; [vm_compute; reflexivity|]. split; [split; [|split]; vm_compute; reflexivity|]. vm_compute. discriminate.
Defined.
