(* ===== verification/WalRuntime.v ===== *)
(** * The write-ahead log at run time

    The interleaving of the clients inside [Wal.push] with the flusher
    goroutine of [Wal.Start]. A step is a critical section under the mutex of
    the log, a channel operation, the write and notification of one batch, or
    the application of one record to the hash table (each takes the lock of the
    table). *)

From S2P Require Import Prelude GoText Config Gob WalLog OS FileSystem Concurrency HashTable Wal.

(** ** State *)

(** Where a client is inside [push]. *)
Inductive client :=
  | Sending (r : WriteRequest) (sealed : list WriteRequest)  (** at [wal.batches <- sealedBatch] *)
  | Waiting (r : WriteRequest)                               (** in [future.Get] *)
  | Returned (r : WriteRequest) (err : error).

(** Where the flusher is; [Applying] carries the records still to apply and
    the place it goes back to. *)
Inductive place := Loop | Selecting | Draining | Exited.

Inductive flusher_state :=
  | At (k : place)
  | Applying (rest : list Log) (k : place).

Record RT := {
  sys : Sys HashTable;
  clients : gmap nat client;
  flusher : flusher_state;
  cancelled : bool            (** the context of [Start] is done *)
}.

Definition set_sys (s : RT) (x : Sys HashTable) : RT :=
  {| sys := x; clients := clients s; flusher := flusher s; cancelled := cancelled s |}.

Definition set_client (s : RT) (t : nat) (c : client) : RT :=
  {| sys := sys s; clients := <[t := c]> (clients s); flusher := flusher s; cancelled := cancelled s |}.

Definition set_flusher (s : RT) (f : flusher_state) : RT :=
  {| sys := sys s; clients := clients s; flusher := f; cancelled := cancelled s |}.

Definition with_wal (x : Sys HashTable) (w : Wal HashTable) : Sys HashTable :=
  {| wal := w; heap := heap x; os := os x |}.

Section runtime.
Context {env : Env} {ids : GobTypeIds} {sorter : SortSlice}.

(** ** Client steps *)

(** [push] up to the end of its critical section. *)
Definition client_push (t : nat) (ctx : Ctx) (commandID : Z) (args : list bytes) (s : RT) : RT :=
  let '(r, sealedBatch, x) := push_start ctx commandID args (sys s) in
  set_client (set_sys s x) t
    (match sealedBatch with [] => Waiting r | _ :: _ => Sending r sealedBatch end).

(** The send on the buffered channel, when there is room. *)
Definition client_send (t : nat) (r : WriteRequest) (sealed : list WriteRequest) (s : RT) : option RT :=
  let w := wal (sys s) in
  if bool_decide (length (batches w) < batches_cap)%nat
  then Some (set_client (set_sys s (with_wal (sys s) (set_batches w (batches w ++ [sealed])))) t (Waiting r))
  else None.

(** The receive of the result. *)
Definition client_get (t : nat) (r : WriteRequest) (s : RT) : option RT :=
  match Future_Get None (FutureResponse r) (heap (sys s)) with
  | Done (err, h) =>
      Some (set_client (set_sys s {| wal := wal (sys s); heap := h; os := os (sys s) |}) t (Returned r err))
  | _ => None
  end.

(** ** Flusher steps *)

(** [flushBatch] up to the sort: what remains are the records to apply. *)
Definition flush_begin (b : list WriteRequest) (k : place) (s : RT) : outcome RT :=
  if 0 <? zlen b then
    obind (WalWriter_Write b (sys s)) (λ '(err, b', x),
    Done (match err with
          | Some _ => set_flusher (set_sys s x) (At k)
          | None => set_flusher (set_sys s x) (Applying (log <$> sort_slice (λ r, LSN (log r)) b') k)
          end))
  else Done (set_flusher s (At k)).

(** The receive of a sealed batch followed by its flush. *)
Definition flusher_receive (k : place) (s : RT) : option (outcome RT) :=
  match batches (wal (sys s)) with
  | [] => None
  | b :: q => Some (flush_begin b k (set_sys s (with_wal (sys s) (set_batches (wal (sys s)) q))))
  end.

(** [SealBatch] followed by a flush: the ticker, and the end of the drain. *)
Definition flusher_seal (k : place) (s : RT) : outcome RT :=
  let '(b, w) := SealBatch (wal (sys s)) in
  flush_begin b k (set_sys s (with_wal (sys s) w)).

(** One record applied; an error is only logged. *)
Definition flusher_apply (l : Log) (rest : list Log) (k : place) (s : RT) : RT :=
  let w := wal (sys s) in
  set_flusher (set_sys s (with_wal (sys s) (set_table w (apply l (commandHashTable w)).2)))
    (Applying rest k).

(** ** The step relation *)

(** The goroutine of [Start]. *)
Inductive flusher_step : RT → RT → Prop :=
  (* the first select: a cancelled context drains, otherwise the default case *)
  | step_check s :
      flusher s = At Loop → flusher_step s (set_flusher s (At (if cancelled s then Draining else Selecting)))
  (* the second select *)
  | step_select_done s :
      flusher s = At Selecting → cancelled s = true → flusher_step s (set_flusher s (At Draining))
  | step_select_batch s s' :
      flusher s = At Selecting → flusher_receive Loop s = Some (Done s') → flusher_step s s'
  | step_select_tick s s' :
      flusher s = At Selecting → flusher_seal Loop s = Done s' → flusher_step s s'
  (* the drain loop *)
  | step_drain_batch s s' :
      flusher s = At Draining → flusher_receive Draining s = Some (Done s') → flusher_step s s'
  | step_drain_last s s' :
      flusher s = At Draining → batches (wal (sys s)) = [] → flusher_seal Exited s = Done s' → flusher_step s s'
  (* the loop of [flushBatch] over the sorted records *)
  | step_apply l rest k s :
      flusher s = Applying (l :: rest) k → flusher_step s (flusher_apply l rest k s)
  | step_applied k s :
      flusher s = Applying [] k → flusher_step s (set_flusher s (At k)).

(** The cancellation of the context of [Start]. *)
Definition cancel (s : RT) : RT :=
  {| sys := sys s; clients := clients s; flusher := flusher s; cancelled := true |}.

Inductive step : RT → RT → Prop :=
  | step_push t ctx commandID args s :
      clients s !! t = None → step s (client_push t ctx commandID args s)
  | step_send t r sealed s s' :
      clients s !! t = Some (Sending r sealed) → client_send t r sealed s = Some s' → step s s'
  | step_get t r s s' :
      clients s !! t = Some (Waiting r) → client_get t r s = Some s' → step s s'
  | step_cancel s : step s (cancel s)
  | step_flusher s s' : flusher_step s s' → step s s'.

(** A process whose log was just recovered and whose flusher was started. *)
Definition initial (x : Sys HashTable) : RT :=
  {| sys := x; clients := ∅; flusher := At Loop; cancelled := false |}.

Definition reachable (x : Sys HashTable) (s : RT) : Prop := rtc step (initial x) s.

End runtime.

(** ** Specification *)

(** A record is durable: some file contains the stream of a batch with it. *)
Definition on_disk {ids : GobTypeIds} (f : gmap path node) (l : Log) : Prop :=
  ∃ p d1 d2 b enc, f !! p = Some (NFile (d1 ++ out enc ++ d2)) ∧
    encode_logs b NewEncoder = (enc, None) ∧ l ∈ b.

Definition sealed_of (c : client) : list WriteRequest :=
  match c with Sending _ b => b | _ => [] end.

Definition request_of (c : client) : WriteRequest :=
  match c with Sending r _ | Waiting r | Returned r _ => r end.

Definition in_clients (m : gmap nat client) : list WriteRequest :=
  mjoin (sealed_of <$> (map_to_list m).*2).

(** The requests that have been accepted and not yet taken by the flusher: in
    the active batch, in the channel, or in a batch being sent. *)
Definition pending (s : RT) : list WriteRequest :=
  batch (wal (sys s)) ++ mjoin (batches (wal (sys s))) ++ in_clients (clients s).

Definition rest_of (f : flusher_state) : list Log :=
  match f with At _ => [] | Applying rest _ => rest end.

(** A record whose success was or will be reported: it is on disk, and it has
    been applied or is about to be. *)
Definition settled {ids : GobTypeIds} (applied : list Log) (s : RT) (l : Log) : Prop :=
  on_disk (fs (os (sys s))) l ∧ l ∈ applied ++ rest_of (flusher s).

Definition client_ok {ids : GobTypeIds} (applied : list Log) (pend : list WriteRequest) (s : RT)
  (c : client) : Prop :=
  match c with
  | Sending r _ | Waiting r =>
      r ∈ pend ∨ ∃ err, answered err (heap (sys s)) r ∧ (err = None → settled applied s (log r))
  | Returned r err => err = None → settled applied s (log r)
  end.

(** The invariant, over the list [applied] of the records applied so far, the
    accepted requests [pend] not yet flushed, and the initial table [m0]. *)
Record rt_inv {ids : GobTypeIds} (m0 : gmap bytes bytes) (applied : list Log)
  (pend : list WriteRequest) (s : RT) : Prop := {
  ri_fresh : fresh_requests pend (heap (sys s));
  ri_cap : (length (batches (wal (sys s))) ≤ batches_cap)%nat;
  ri_handles : handles_ok (os (sys s));
  ri_owner : ∀ t1 t2 c1 c2, clients s !! t1 = Some c1 → clients s !! t2 = Some c2 →
    result (promise (request_of c1)) = result (promise (request_of c2)) → t1 = t2;
  ri_alloc : ∀ t c, clients s !! t = Some c →
    (result (promise (request_of c)) < length (heap (sys s)))%nat;
  ri_client : ∀ t c, clients s !! t = Some c → client_ok applied pend s c;
  ri_table : data (commandHashTable (wal (sys s))) = replay applied m0;
  ri_disk : Forall (on_disk (fs (os (sys s)))) (applied ++ rest_of (flusher s))
}.

(** ** Lemmas: durability *)

Section durability.
Context {env : Env} {ids : GobTypeIds} {sorter : SortSlice}.

Lemma on_disk_extends f f' l : fs_extends f f' → on_disk f l → on_disk f' l.
Proof.
  intros [Hf _] (p & d1 & d2 & b & enc & Hp & He & Hl).
  destruct (Hf _ _ Hp) as [x Hx]. exists p, d1, (d2 ++ x), b, enc.
  split; [|done]. rewrite Hx. by rewrite <- !app_assoc.
Qed.

Lemma wrote_on_disk seg b enc w seg' w' :
  encode_logs b NewEncoder = (enc, None) → wrote seg (out enc) w seg' w' →
  Forall (on_disk (fs w')) b.
Proof.
  intros He Hw. apply Forall_forall. intros l Hl.
  destruct Hw as [h p d _ _ _ _ Hfs _ _|h p _ _ _ Hfs _ _].
  - exists p, d, [], b, enc. rewrite Hfs, lookup_insert_eq, app_nil_r. done.
  - exists p, [], [], b, enc. rewrite Hfs, lookup_insert_eq. simpl. by rewrite app_nil_r.
Qed.

(** [WalWriter.Write] on unresolved requests, with any faults. *)
Lemma WalWriter_Write_general {H} rs (s : Sys H) :
  fresh_requests rs (heap s) → handles_ok (os s) →
  ∃ err rs' h' seg w,
    WalWriter_Write rs s = Done (err, rs', {| wal := set_segment (wal s) seg; heap := h'; os := w |}) ∧
    log <$> rs' = log <$> rs ∧ length h' = length (heap s) ∧ Forall (answered err h') rs ∧
    (∀ c, c ∉ ((λ r, result (promise r)) <$> rs) → h' !! c = heap s !! c) ∧
    evolves (os s) w ∧ (err = None → Forall (on_disk (fs w)) (log <$> rs)).
Proof.
  intros Hf Hok. unfold WalWriter_Write.
  destruct (encode_logs _ _) as [enc [e|]] eqn:Ee.
  - destruct (notification_fresh (Some e) rs (heap s) Hf) as (rs' & h' & -> & ? & ? & ? & ?).
    exists (Some e), rs', h', (segment (wal s)), (os s). simpl.
    split; [by destruct s as [[]]|]. do 4 (split; [done|]). split; [reflexivity|done].
  - pose proof (Segment_Write_evolves (segment (wal s)) (out enc) (os s)) as Hev.
    pose proof (Segment_Write_success (segment (wal s)) (out enc) (os s)) as Hsucc.
    destruct (Segment_Write _ _ _) as [[err seg] w].
    destruct (notification_fresh err rs (heap s) Hf) as (rs' & h' & -> & ? & ? & ? & ?).
    exists err, rs', h', seg, w. do 5 (split; [done|]). split; [exact Hev|].
    intros ->. eapply wrote_on_disk; [done|]. by apply Hsucc.
Qed.

End durability.

(** ** Lemmas: where requests are *)

Lemma in_clients_new m t c : m !! t = None → in_clients (<[t := c]> m) ≡ₚ sealed_of c ++ in_clients m.
Proof. intros Ht. unfold in_clients. by rewrite map_to_list_insert. Qed.

Lemma in_clients_update m t c c' : m !! t = Some c →
  sealed_of c ++ in_clients (<[t := c']> m) ≡ₚ sealed_of c' ++ in_clients m.
Proof.
  intros Ht. rewrite <- (insert_delete_id m t c Ht) at 2. rewrite <- insert_delete_eq.
  rewrite !in_clients_new by apply lookup_delete_eq.
  rewrite !app_assoc. f_equiv. apply Permutation_app_comm.
Qed.

Lemma fresh_requests_perm rs rs' h : rs ≡ₚ rs' → fresh_requests rs h → fresh_requests rs' h.
Proof. intros Hp [Hn Hf]. split; by rewrite <- Hp. Qed.

Lemma fresh_requests_app rs1 rs2 h : fresh_requests (rs1 ++ rs2) h →
  fresh_requests rs1 h ∧ fresh_requests rs2 h ∧
  (∀ r1 r2, r1 ∈ rs1 → r2 ∈ rs2 → result (promise r1) ≠ result (promise r2)).
Proof.
  intros [Hn Hf]. rewrite fmap_app in Hn. apply NoDup_app in Hn as (H1 & Hd & H2).
  apply Forall_app in Hf as [Hf1 Hf2]. split; [done|]. split; [done|].
  intros r1 r2 Hr1 Hr2 E. eapply Hd; [by apply (list_elem_of_fmap_2 (λ r, result (promise r)))|].
  rewrite E. by apply (list_elem_of_fmap_2 (λ r, result (promise r))).
Qed.

(** The heap outside the promises of a batch keeps its unresolved requests. *)
Lemma fresh_requests_other b rs h h' :
  fresh_requests (b ++ rs) h → (∀ c, c ∉ ((λ r, result (promise r)) <$> b) → h' !! c = h !! c) →
  fresh_requests rs h'.
Proof.
  intros (Hb & [Hn Hf] & Hd)%fresh_requests_app Hsame. split; [done|].
  rewrite Forall_forall in *. intros r Hr. destruct (Hf r Hr) as [Hp Hc]. split; [done|].
  rewrite Hsame; [done|]. intros (r' & E & Hr')%list_elem_of_fmap_1. by eapply Hd.
Qed.

Lemma answered_not_fresh err h r : answered err h r → ¬ fresh_promise (promise r) h.
Proof. intros Ha [_ Hc]. unfold answered in Ha. congruence. Qed.

Lemma answered_same err h h' r b :
  answered err h r → (∀ c, c ∉ ((λ r, result (promise r)) <$> b) → h' !! c = h !! c) →
  fresh_requests b h → answered err h' r.
Proof.
  intros Ha Hsame [_ Hf]. unfold answered. rewrite Hsame; [done|].
  intros (r' & E & Hr')%list_elem_of_fmap_1. rewrite Forall_forall in Hf.
  destruct (Hf r' Hr') as [_ Hc]. unfold answered in Ha. congruence.
Qed.

(** ** What a step of a client does *)

(** Everything but the requests and the clients. *)
Record rest_kept (s s' : RT) : Prop := {
  rk_os : os (sys s') = os (sys s);
  rk_segment : segment (wal (sys s')) = segment (wal (sys s));
  rk_cfg : cfg (wal (sys s')) = cfg (wal (sys s));
  rk_table : commandHashTable (wal (sys s')) = commandHashTable (wal (sys s));
  rk_flusher : flusher s' = flusher s;
  rk_cancelled : cancelled s' = cancelled s
}.

(** Client [t] has entered [push] with the request [r]. *)
Record pushed (t : nat) (r : WriteRequest) (s s' : RT) : Prop := {
  ps_rest : rest_kept s s';
  ps_client : ∃ c, clients s' = <[t := c]> (clients s) ∧ request_of c = r ∧ (∀ e, c ≠ Returned r e);
  ps_promise : promise r = {| result := length (heap (sys s)); promised := false |};
  ps_heap : heap (sys s') = heap (sys s) ++ [{| c_buf := []; c_closed := false |}];
  ps_pending : pending s' ≡ₚ r :: pending s;
  ps_queue : batches (wal (sys s')) = batches (wal (sys s))
}.

Record sent (t : nat) (r : WriteRequest) (s s' : RT) : Prop := {
  sn_rest : rest_kept s s';
  sn_client : clients s' = <[t := Waiting r]> (clients s);
  sn_heap : heap (sys s') = heap (sys s);
  sn_pending : pending s' ≡ₚ pending s;
  sn_queue : (length (batches (wal (sys s'))) ≤ batches_cap)%nat
}.

(** Client [t] has received [err]; its channel is left drained and closed. *)
Record received (t : nat) (r : WriteRequest) (err : error) (s s' : RT) : Prop := {
  rv_rest : rest_kept s s';
  rv_answer : answered err (heap (sys s)) r;
  rv_client : clients s' = <[t := Returned r err]> (clients s);
  rv_heap : heap (sys s') = <[result (promise r) := {| c_buf := []; c_closed := true |}]> (heap (sys s));
  rv_pending : pending s' ≡ₚ pending s;
  rv_queue : batches (wal (sys s')) = batches (wal (sys s))
}.

Lemma push_locked_frame {ids : GobTypeIds} {H} r (w : Wal H) :
  (push_locked r w).1 ++ batch (push_locked r w).2 = batch w ++ [r] ∧
  batches (push_locked r w).2 = batches w ∧
  commandHashTable (push_locked r w).2 = commandHashTable w ∧
  segment (push_locked r w).2 = segment w ∧ cfg (push_locked r w).2 = cfg w.
Proof. unfold push_locked. case_match; simpl; by rewrite ?app_nil_r. Qed.

Lemma client_push_effect {ids : GobTypeIds} t ctx commandID args s : clients s !! t = None →
  ∃ r, pushed t r s (client_push t ctx commandID args s) ∧
    log r = {| LSN := GetTxIDFromContext ctx; CommandID := commandID; Arguments := args |}.
Proof.
  intros Ht. unfold client_push, push_start. cbn [NewWriteRequest NewPromise WithLock].
  set (r := {| log := _; promise := _ |}).
  destruct (push_locked_frame r (wal (sys s))) as (Hsplit & Hq & Htab & Hseg & Hcfg).
  destruct (push_locked r (wal (sys s))) as [sealed w]. cbn [fst snd] in *.
  set (c := match sealed with [] => Waiting r | _ :: _ => Sending r sealed end).
  assert (sealed_of c = sealed ∧ request_of c = r) as [Hsc Hrc] by (by destruct sealed).
  exists r. split; [|done]. split; try done.
  - exists c. split; [done|]. split; [done|]. by destruct sealed.
  - unfold pending. simpl. rewrite in_clients_new, Hsc, Hq by done.
    rewrite (Permutation_app_swap_app (mjoin _) sealed), app_assoc, (Permutation_app_comm _ sealed), Hsplit.
    rewrite <- app_assoc. simpl. symmetry. apply Permutation_middle.
Qed.

Lemma client_send_effect t r sealed s s' : clients s !! t = Some (Sending r sealed) →
  client_send t r sealed s = Some s' → sent t r s s'.
Proof.
  intros Hc Hs. unfold client_send in Hs. case_bool_decide as Hcap; [|done]. simplify_eq.
  split; try done.
  - pose proof (in_clients_update _ _ _ (Waiting r) Hc) as Hup. simpl in Hup.
    unfold pending. simpl. rewrite join_app. simpl. rewrite app_nil_r, <- !app_assoc. by rewrite Hup.
  - simpl. rewrite length_app. simpl. unfold batches_cap in *. lia.
Qed.

(** With the request still pending there is nothing to receive. *)
Lemma client_get_effect t r s s' : clients s !! t = Some (Waiting r) → client_get t r s = Some s' →
  fresh_promise (promise r) (heap (sys s)) ∨ (∃ err, answered err (heap (sys s)) r) →
  ∃ err, received t r err s s'.
Proof.
  intros Hc Hs Hor. unfold client_get, Future_Get, chan_recv in Hs. simpl in Hs.
  destruct Hor as [[_ Hf]|[err Ha]]; [by rewrite Hf in Hs|].
  pose proof Ha as Ha'. unfold answered in Ha'. rewrite Ha' in Hs. simplify_eq.
  exists err. split; try done. pose proof (in_clients_update _ _ _ (Returned r err) Hc) as Hup.
  simpl in Hup. unfold pending. simpl. by rewrite Hup.
Qed.

(** ** What a step of the flusher does

    A step moves the flusher without touching anything a client can see, or
    flushes a non-empty batch taken from the pending requests, or applies one
    record. *)

(** The parts of the state that no step of the flusher changes. *)
Record kept (s s' : RT) : Prop := {
  kp_clients : clients s' = clients s;
  kp_cancelled : cancelled s' = cancelled s;
  kp_cfg : cfg (wal (sys s')) = cfg (wal (sys s));
  kp_heap : length (heap (sys s')) = length (heap (sys s));
  kp_queue : batches (wal (sys s')) `suffix_of` batches (wal (sys s));
  kp_batch : batch (wal (sys s')) = batch (wal (sys s)) ∧
      activeBatchVolume (wal (sys s')) = activeBatchVolume (wal (sys s)) ∨
    batch (wal (sys s')) = [] ∧ activeBatchVolume (wal (sys s')) = 0
}.

(** A non-empty batch [b] was written with the outcome [err]. *)
Record flushed {env : Env} {ids : GobTypeIds} (b : list WriteRequest) (err : error) (s s' : RT) : Prop := {
  fl_before : rest_of (flusher s) = [];
  fl_table : commandHashTable (wal (sys s')) = commandHashTable (wal (sys s));
  fl_answered : Forall (answered err (heap (sys s'))) b;
  fl_others : ∀ c, c ∉ ((λ r, result (promise r)) <$> b) → heap (sys s') !! c = heap (sys s) !! c;
  fl_os : evolves (os (sys s)) (os (sys s'));
  fl_disk : err = None → Forall (on_disk (fs (os (sys s')))) (log <$> b);
  fl_write : let '(enc, e) := encode_logs (log <$> b) NewEncoder in
    match e with
    | Some _ => err = e ∧ segment (wal (sys s')) = segment (wal (sys s)) ∧ os (sys s') = os (sys s)
    | None => Segment_Write (segment (wal (sys s))) (out enc) (os (sys s)) =
                (err, segment (wal (sys s')), os (sys s'))
    end;
  fl_after : match err with
    | Some _ => rest_of (flusher s') = []
    | None => rest_of (flusher s') ≡ₚ log <$> b ∧ StronglySorted (λ x y, LSN x ≤ LSN y) (rest_of (flusher s'))
    end
}.

Inductive flusher_effect {env : Env} {ids : GobTypeIds} (s s' : RT) : Prop :=
  | effect_move :
      rest_of (flusher s) = [] → rest_of (flusher s') = [] →
      heap (sys s') = heap (sys s) → os (sys s') = os (sys s) →
      segment (wal (sys s')) = segment (wal (sys s)) →
      commandHashTable (wal (sys s')) = commandHashTable (wal (sys s)) →
      pending s' = pending s → flusher_effect s s'
  | effect_flush b err :
      b ≠ [] → pending s ≡ₚ b ++ pending s' → b = batch (wal (sys s)) ∨ b ∈ batches (wal (sys s)) →
      flushed b err s s' → flusher_effect s s'
  | effect_apply l :
      rest_of (flusher s) = l :: rest_of (flusher s') →
      wal (sys s') = set_table (wal (sys s)) (apply l (commandHashTable (wal (sys s)))).2 →
      heap (sys s') = heap (sys s) → os (sys s') = os (sys s) → flusher_effect s s'.

Section effects.
Context {env : Env} {ids : GobTypeIds} {sorter : SortSlice}.

(** Taking a batch [b] out of the pending requests and flushing it. *)
Lemma flush_begin_effect b k s s1 w :
  s1 = set_sys s (with_wal (sys s) w) → rest_of (flusher s) = [] →
  fresh_requests (pending s) (heap (sys s)) → handles_ok (os (sys s)) →
  (b = [] → pending s = pending s1) → (b ≠ [] → pending s ≡ₚ b ++ pending s1) →
  b = batch (wal (sys s)) ∨ b ∈ batches (wal (sys s)) →
  segment w = segment (wal (sys s)) → commandHashTable w = commandHashTable (wal (sys s)) →
  kept s s1 →
  ∃ s', flush_begin b k s1 = Done s' ∧ kept s s' ∧ flusher_effect s s'.
Proof.
  intros -> Hrest Hfr Hok Hnil Hcons Hfrom Hseg Htab [K1 K2 K3 K4 K5 K6]. unfold flush_begin.
  destruct (0 <? zlen b) eqn:Hz; zbool.
  2: { assert (b = []) as -> by (apply zlen_0_inv; pose proof (zlen_nonneg b); lia).
       eexists. split; [done|]. split; [by split|]. apply effect_move; try done.
       by rewrite (Hnil eq_refl). }
  assert (b ≠ []) as Hne by (intros ->; done). specialize (Hcons Hne).
  apply (fresh_requests_perm _ _ _ Hcons) in Hfr as (Hfb & _)%fresh_requests_app.
  pose proof (WalWriter_Write_general b (with_wal (sys s) w) Hfb Hok) as
    (err & rs' & h' & seg & o & E & Hlog & Hlen & Hans & Hsame & Hev & Hdur).
  pose proof E as Ew. unfold WalWriter_Write in Ew. simpl sys. rewrite E. cbn [obind].
  eexists. split; [done|]. split; [by destruct err; split; simpl; rewrite ?Hlen|].
  apply (effect_flush _ _ b err); [done|by destruct err|done|].
  split; try (by destruct err).
  - apply (f_equal (λ o, match o with Done (e, _, x) => Some (e, segment (wal x), os x) | _ => None end)) in Ew.
    destruct (encode_logs _ _) as [enc [e|]].
    + destruct (notification _ _ _) as [[rs h]| |]; simplify_eq/=; done.
    + simpl in Ew. rewrite Hseg in Ew. destruct (Segment_Write _ _ _) as [[e' seg'] o'].
      destruct (notification _ _ _) as [[rs h]| |]; simplify_eq/=; by destruct err.
  - destruct err; [done|]. simpl. split; [by rewrite sort_slice_perm, Hlog|].
    pose proof (sort_slice_sorted (λ r, LSN (log r)) rs') as Hs.
    induction Hs as [|x l _ IH Hx]; [constructor|]. simpl. constructor; [done|]. by apply Forall_fmap.
Qed.

Lemma receive_effect k s : rest_of (flusher s) = [] →
  fresh_requests (pending s) (heap (sys s)) → handles_ok (os (sys s)) → batches (wal (sys s)) ≠ [] →
  ∃ s', flusher_receive k s = Some (Done s') ∧ kept s s' ∧ flusher_effect s s'.
Proof.
  intros Hrest Hfr Hok Hne. unfold flusher_receive.
  destruct (batches (wal (sys s))) as [|b q] eqn:Eq; [done|].
  destruct (flush_begin_effect b k s _ (set_batches (wal (sys s)) q) eq_refl) as (s' & -> & Hk & He); try done.
  - intros ->. unfold pending. simpl. by rewrite Eq.
  - intros _. unfold pending. simpl. rewrite Eq. simpl. rewrite <- !app_assoc. apply Permutation_app_swap_app.
  - right. rewrite Eq. left.
  - split; try done; [|by left]. simpl. rewrite Eq. by exists [b].
  - by exists s'.
Qed.

Lemma seal_effect k s : rest_of (flusher s) = [] →
  fresh_requests (pending s) (heap (sys s)) → handles_ok (os (sys s)) →
  ∃ s', flusher_seal k s = Done s' ∧ kept s s' ∧ flusher_effect s s'.
Proof.
  intros Hrest Hfr Hok. unfold flusher_seal. cbn [SealBatch WithLock].
  destruct (flush_begin_effect (batch (wal (sys s))) k s _ (set_batch (wal (sys s)) [] 0) eq_refl)
    as (s' & -> & Hk & He); try done.
  - intros E. unfold pending. simpl. by rewrite E.
  - by left.
  - split; try done. by right.
  - by exists s'.
Qed.

Lemma flusher_step_effect s s' : flusher_step s s' →
  fresh_requests (pending s) (heap (sys s)) → handles_ok (os (sys s)) → kept s s' ∧ flusher_effect s s'.
Proof.
  intros Hstep Hfr Hok.
  destruct Hstep as [s Hf|s Hf Hx|s s' Hf Hr|s s' Hf Hr|s s' Hf Hr|s s' Hf Hq Hr|l rest k s Hf|k s Hf].
  1,2,8: split; [split; (done || by left)|apply effect_move; by rewrite ?Hf].
  1: pose proof (receive_effect Loop s) as He.
  2: pose proof (seal_effect Loop s) as He.
  3: pose proof (receive_effect Draining s) as He.
  4: pose proof (seal_effect Exited s) as He.
  1,3: destruct He as (s1 & E & H); [by rewrite Hf|done|done| |rewrite Hr in E; by simplify_eq];
    intros E; unfold flusher_receive in Hr; by rewrite E in Hr.
  1,2: destruct He as (s1 & E & H); [by rewrite Hf|done|done|rewrite Hr in E; by simplify_eq].
  split; [split; (done || by left)|]. apply (effect_apply _ _ l); by rewrite ?Hf.
Qed.

End effects.

(** ** Lemmas: preservation of the invariant *)

Section preservation.
Context {env : Env} {ids : GobTypeIds} {sorter : SortSlice} (m0 : gmap bytes bytes).

Lemma rt_inv_perm applied pend pend' s : pend ≡ₚ pend' →
  rt_inv m0 applied pend s → rt_inv m0 applied pend' s.
Proof.
  intros Hp []. split; try done; [by eapply fresh_requests_perm|].
  intros t c Hc. specialize (ri_client0 t c Hc). destruct c; simpl in *; by rewrite <- ?Hp.
Qed.

Lemma settled_grows applied applied' s s' l :
  fs_extends (fs (os (sys s))) (fs (os (sys s'))) →
  (∀ l, l ∈ applied ++ rest_of (flusher s) → l ∈ applied' ++ rest_of (flusher s')) →
  settled applied s l → settled applied' s' l.
Proof. intros Hfs Hin [Hd Hl]. split; [by eapply on_disk_extends|auto]. Qed.

(** Steps that only move the flusher. *)
Lemma move_flusher_inv applied pend k s : rest_of (flusher s) = [] →
  rt_inv m0 applied pend s → rt_inv m0 applied pend (set_flusher s (At k)).
Proof.
  intros Hrest []. split; try done; [|by rewrite Hrest in ri_disk0].
  intros t c Hc. specialize (ri_client0 t c Hc). unfold client_ok, settled in *. simpl.
  by rewrite Hrest in ri_client0.
Qed.

(** Steps that only move requests between the places of [pending]. *)
Lemma move_pending_inv applied pend s s' :
  rt_inv m0 applied pend s →
  heap (sys s') = heap (sys s) → os (sys s') = os (sys s) → clients s' = clients s →
  flusher s' = flusher s →
  commandHashTable (wal (sys s')) = commandHashTable (wal (sys s)) →
  (length (batches (wal (sys s'))) ≤ batches_cap)%nat → rt_inv m0 applied pend s'.
Proof.
  intros [] Hh Ho Hc Hf Ht Hcap. split; rewrite ?Hh, ?Ho, ?Hc, ?Ht, ?Hf; try done.
  intros t c Htc. specialize (ri_client0 t c Htc). unfold client_ok, settled in *.
  by rewrite Hh, Ho, Hf.
Qed.

(** A client whose position changes but whose request does not. *)
Lemma set_client_inv applied pend s t c c' :
  rt_inv m0 applied pend s → clients s !! t = Some c → request_of c' = request_of c →
  client_ok applied pend s c' → rt_inv m0 applied pend (set_client s t c').
Proof.
  intros [] Hc Hr Hok. split; try done; simpl.
  - intros t1 t2 c1 c2 H1 H2 E.
    assert (∀ u d, <[t := c']> (clients s) !! u = Some d →
      ∃ d', clients s !! u = Some d' ∧ request_of d' = request_of d) as Hold.
    { intros u d. destruct (decide (t = u)) as [<-|Hne].
      - rewrite lookup_insert_eq. intros [= <-]. eauto.
      - rewrite lookup_insert_ne by done. eauto. }
    destruct (Hold _ _ H1) as (d1 & Hd1 & E1). destruct (Hold _ _ H2) as (d2 & Hd2 & E2).
    eapply ri_owner0; [done|done|]. by rewrite E1, E2.
  - intros u d. destruct (decide (t = u)) as [<-|Hne].
    + rewrite lookup_insert_eq. intros [= <-]. rewrite Hr. eauto.
    + rewrite lookup_insert_ne by done. eauto.
  - intros u d. destruct (decide (t = u)) as [<-|Hne].
    + rewrite lookup_insert_eq. by intros [= <-].
    + rewrite lookup_insert_ne by done. by apply ri_client0.
Qed.

Lemma push_inv applied t r s s' : pushed t r s s' → clients s !! t = None →
  rt_inv m0 applied (pending s) s → rt_inv m0 applied (pending s') s'.
Proof.
  intros [[Hos _ _ Htab Hfl _] (c & Hcl & Hrc & Hnr) Hpr Hheap Hp Hq] Ht Hinv.
  assert (result (promise r) = length (heap (sys s))) as Hres by (by rewrite Hpr).
  assert (∀ i x, heap (sys s) !! i = Some x → heap (sys s') !! i = Some x) as Hgrow.
  { intros i x Hi. rewrite Hheap. by apply lookup_app_l_Some. }
  assert (∀ l, settled applied s l → settled applied s' l) as Hset.
  { intros l. unfold settled. by rewrite Hos, Hfl. }
  eapply rt_inv_perm; [by symmetry|]. split; rewrite ?Hos, ?Hq, ?Htab, ?Hfl, ?Hcl; try apply Hinv.
  - destruct Hinv as [[Hn Hf] _ _ _ _ _ _ _]. split.
    + rewrite fmap_cons. apply NoDup_cons. split; [|done]. rewrite Hres.
      intros (r' & E' & Hr')%list_elem_of_fmap_1. rewrite Forall_forall in Hf.
      destruct (Hf r' Hr') as [_ Hc%lookup_lt_Some]. lia.
    + constructor; [split; [by rewrite Hpr|rewrite Hres, Hheap; by rewrite lookup_app_r, Nat.sub_diag]|].
      eapply Forall_impl; [exact Hf|]. intros r' [Hp' Hc]. split; [done|]. by apply Hgrow.
  - intros t1 t2 c1 c2. pose proof (ri_alloc _ _ _ _ Hinv) as Ha.
    destruct (decide (t = t1)) as [<-|H1]; destruct (decide (t = t2)) as [<-|H2];
      rewrite ?lookup_insert_eq, ?lookup_insert_ne by done; try done.
    + intros [= <-] Hc2%Ha. rewrite Hrc, Hres. lia.
    + intros Hc1%Ha [= <-]. rewrite Hrc, Hres. lia.
    + apply Hinv.
  - intros u d. rewrite Hheap, length_app. simpl. destruct (decide (t = u)) as [<-|Hne].
    + rewrite lookup_insert_eq. intros [= <-]. rewrite Hrc, Hres. lia.
    + rewrite lookup_insert_ne by done. intros Hd%(ri_alloc _ _ _ _ Hinv). lia.
  - intros u d. destruct (decide (t = u)) as [<-|Hne].
    + rewrite lookup_insert_eq. intros [= <-]. subst r. destruct c; [left; left|left; left|by destruct (Hnr err)].
    + rewrite lookup_insert_ne by done. intros Hd%(ri_client _ _ _ _ Hinv).
      assert (∀ r', r' ∈ pending s ∨ (∃ e, answered e (heap (sys s)) r' ∧ (e = None → settled applied s (log r'))) →
        r' ∈ r :: pending s ∨ ∃ e, answered e (heap (sys s')) r' ∧ (e = None → settled applied s' (log r')))
        as Hmove.
      { intros r' [Hr'|(e & Hans & He)]; [left; by right|right]. exists e. split; [by apply Hgrow|auto]. }
      destruct d; simpl in *; auto.
Qed.

(** Clients that move without touching the heap. *)
Lemma rest_kept_inv applied pend s s' : rest_kept s s' → heap (sys s') = heap (sys s) →
  clients s' = clients s → (length (batches (wal (sys s'))) ≤ batches_cap)%nat →
  rt_inv m0 applied pend s → rt_inv m0 applied pend s'.
Proof. intros [Ho _ _ Ht Hf _] Hh Hc Hcap Hinv. by eapply move_pending_inv. Qed.

Lemma send_inv applied t r sealed s s' : clients s !! t = Some (Sending r sealed) →
  sent t r s s' → rt_inv m0 applied (pending s) s → rt_inv m0 applied (pending s') s'.
Proof.
  intros Hc [Hr Hcl Hh Hp Hcap] Hinv. eapply rt_inv_perm; [by symmetry|].
  eapply (rest_kept_inv _ _ (set_client s t (Waiting r))); [by destruct Hr|done|done|done|].
  eapply set_client_inv; [exact Hinv|exact Hc|done|].
  by apply (ri_client _ _ _ _ Hinv t (Sending r sealed)).
Qed.

(** The result channel of a client that has returned is drained. *)
Lemma drain_inv applied pend s t r err e x : rt_inv m0 applied pend s →
  clients s !! t = Some (Returned r e) → answered err (heap (sys s)) r →
  rt_inv m0 applied pend (set_sys s {| wal := wal (sys s);
    heap := <[result (promise r) := x]> (heap (sys s)); os := os (sys s) |}).
Proof.
  intros Hinv Hc Ha. set (h' := <[result (promise r) := x]> (heap (sys s))).
  assert (∀ c, c ≠ result (promise r) → h' !! c = heap (sys s) !! c) as Hsame.
  { intros c Hne. unfold h'. by rewrite list_lookup_insert_ne. }
  pose proof (ri_owner _ _ _ _ Hinv) as Hown. destruct Hinv. split; try done; simpl.
  - destruct ri_fresh0 as [Hn Hf]. split; [done|]. rewrite Forall_forall in *.
    intros r' Hr'. destruct (Hf r' Hr') as [Hp Hch]. split; [done|].
    rewrite Hsame; [done|]. intros E. rewrite E in Hch. unfold answered in Ha. congruence.
  - unfold h'. by rewrite length_insert.
  - intros u d Hd. pose proof (ri_client0 u d Hd) as Hok.
    assert (∀ r', request_of d = r' → u ≠ t →
      r' ∈ pend ∨ (∃ e, answered e (heap (sys s)) r' ∧ (e = None → settled applied s (log r'))) →
      r' ∈ pend ∨ ∃ e, answered e h' r' ∧ (e = None → settled applied s (log r'))) as Hmove.
    { intros r' Hr' Hne [Hp|(e' & Ha' & He')]; [by left|right]. exists e'. split; [|done].
      unfold answered. rewrite Hsame; [done|]. intros E. apply Hne. eapply Hown; [done|done|].
      by rewrite Hr'. }
    destruct (decide (u = t)) as [->|Hne]; [assert (d = Returned r e) as -> by congruence; done|].
    destruct d; simpl in *; auto.
Qed.

Lemma get_effect applied t r s s' : rt_inv m0 applied (pending s) s →
  clients s !! t = Some (Waiting r) → client_get t r s = Some s' →
  ∃ err, received t r err s s' ∧ (err = None → settled applied s (log r)).
Proof.
  intros Hinv Hc Hs. destruct (ri_client _ _ _ _ Hinv t _ Hc) as [Hp|(err & Ha & Hset)].
  - pose proof (ri_fresh _ _ _ _ Hinv) as [_ Hf]. rewrite Forall_forall in Hf.
    destruct (client_get_effect t r s s' Hc Hs) as [err Hrv]; [left; by apply Hf|].
    pose proof (rv_answer _ _ _ _ _ Hrv) as Ha. by apply answered_not_fresh in Ha as []; apply Hf.
  - destruct (client_get_effect t r s s' Hc Hs) as [err' Hrv]; [right; by exists err|].
    exists err'. split; [done|]. pose proof (rv_answer _ _ _ _ _ Hrv) as Ha'. unfold answered in *. by simplify_eq.
Qed.

Lemma get_inv applied t r err s s' : clients s !! t = Some (Waiting r) → received t r err s s' →
  (err = None → settled applied s (log r)) →
  rt_inv m0 applied (pending s) s → rt_inv m0 applied (pending s') s'.
Proof.
  intros Hc [Hr Ha Hcl Hh Hp Hq] Hset Hinv.
  pose proof (set_client_inv _ _ _ t _ (Returned r err) Hinv Hc eq_refl Hset) as Hinv'.
  eapply (drain_inv _ _ _ t r err) in Hinv'; [|apply lookup_insert_eq|exact Ha].
  eapply rt_inv_perm; [by symmetry|]. eapply rest_kept_inv; [..|exact Hinv']; try done.
  - by destruct Hr.
  - exact Hh.
  - rewrite Hq. apply Hinv.
Qed.

Lemma apply_inv applied l s s' : rest_of (flusher s) = l :: rest_of (flusher s') → kept s s' →
  wal (sys s') = set_table (wal (sys s)) (apply l (commandHashTable (wal (sys s)))).2 →
  heap (sys s') = heap (sys s) → os (sys s') = os (sys s) →
  rt_inv m0 applied (pending s) s → rt_inv m0 (applied ++ [l]) (pending s) s'.
Proof.
  intros Hr Hk Hw Hh Ho [].
  assert ((applied ++ [l]) ++ rest_of (flusher s') = applied ++ rest_of (flusher s)) as Hcat
    by (by rewrite Hr, <- (assoc_L (++))).
  split; rewrite ?(kp_clients _ _ Hk), ?Hw, ?Hh, ?Ho; try done; simpl.
  - intros t c Hc. specialize (ri_client0 t c Hc). unfold client_ok, settled in *.
    by rewrite Hh, Ho, Hcat.
  - rewrite apply_hash_table, ri_table0. unfold replay. by rewrite fmap_app, foldl_app.
  - by rewrite Hcat.
Qed.

Lemma flush_inv applied b err pend s s' : flushed b err s s' → kept s s' →
  rt_inv m0 applied (b ++ pend) s → rt_inv m0 applied pend s'.
Proof.
  intros [Hrest Htab Hans Hoth Hev Hdur _ Haft] [Hcl _ _ Hlen Hq _] Hinv.
  pose proof (fresh_requests_app _ _ _ (ri_fresh _ _ _ _ Hinv)) as (Hfb & _ & _).
  assert (∀ l, settled applied s l → settled applied s' l) as Hset.
  { intros l. apply settled_grows; [apply Hev|]. intros l' Hl. rewrite Hrest, app_nil_r in Hl. set_solver. }
  assert (∀ l, err = None → l ∈ log <$> b → settled applied s' l) as Hnew.
  { intros l E Hl. split; [specialize (Hdur E); rewrite Forall_forall in Hdur; by apply Hdur|].
    rewrite E in Haft. destruct Haft as [Haft _]. rewrite Haft. set_solver. }
  split; rewrite ?Hcl, ?Hlen, ?Htab; try apply Hinv.
  - by eapply fresh_requests_other; [apply Hinv|].
  - etrans; [by apply suffix_length|]. apply Hinv.
  - apply Hev, Hinv.
  - intros t c Hc. pose proof (ri_client _ _ _ _ Hinv t c Hc) as Hok.
    assert (∀ r, r ∈ b ++ pend ∨ (∃ e, answered e (heap (sys s)) r ∧ (e = None → settled applied s (log r))) →
      r ∈ pend ∨ ∃ e, answered e (heap (sys s')) r ∧ (e = None → settled applied s' (log r))) as Hmove.
    { intros r [[Hr|Hr]%elem_of_app|(e & Ha & He)]; [right|by left|right].
      - exists err. rewrite Forall_forall in Hans. split; [by apply Hans|]. intros E.
        by apply Hnew, list_elem_of_fmap_2.
      - exists e. split; [by eapply answered_same|auto]. }
    destruct c as [r sealed|r|r e]; simpl in *; [by apply Hmove..|auto].
  - pose proof (ri_disk _ _ _ _ Hinv) as Hd. rewrite Hrest, app_nil_r in Hd. apply Forall_app. split.
    + eapply Forall_impl; [exact Hd|]. intros l. apply on_disk_extends, Hev.
    + destruct err; [by rewrite Haft|]. destruct Haft as [Hp _]. rewrite Hp. by apply Hdur.
Qed.

(** A step of the flusher keeps the invariant, and the list of what has been
    applied or is about to be only grows, at its end and when nothing is left
    to apply. *)
Lemma flusher_step_inv s s' applied : flusher_step s s' → rt_inv m0 applied (pending s) s →
  kept s s' ∧ flusher_effect s s' ∧
  ∃ applied' new, rt_inv m0 applied' (pending s') s' ∧
    applied' ++ rest_of (flusher s') = (applied ++ rest_of (flusher s)) ++ new ∧
    (rest_of (flusher s) = [] ∨ new = []).
Proof.
  intros Hstep Hinv.
  destruct (flusher_step_effect s s' Hstep (ri_fresh _ _ _ _ Hinv) (ri_handles _ _ _ _ Hinv)) as [Hk He].
  split; [done|]. split; [done|]. destruct He as [Hr Hr' Hh Ho Hseg Ht Hp|b err Hne Hp _ Hfl|l Hr Hw Hh Ho].
  - exists applied, []. rewrite Hr, Hr', !app_nil_r, Hp. split; [|by split; [|left]].
    destruct Hinv, Hk. split; rewrite ?kp_clients0, ?Hh, ?Ho, ?Ht, ?Hr'; try done.
    + etrans; [by apply suffix_length|done].
    + intros t c Hc. specialize (ri_client0 t c Hc). unfold client_ok, settled in *. by rewrite Hh, Ho, Hr', <- Hr.
    + by rewrite <- Hr.
  - exists applied, (rest_of (flusher s')). pose proof (fl_before _ _ _ _ Hfl) as Hr.
    rewrite Hr, app_nil_r. split; [|by split; [|left]].
    eapply flush_inv; [done|done|]. by eapply rt_inv_perm.
  - exists (applied ++ [l]), []. split; [|split; [by rewrite Hr, app_nil_r, <- (assoc_L (++))|by right]].
    assert (pending s' = pending s) as -> by (unfold pending; by rewrite Hw, (kp_clients _ _ Hk)).
    by apply (apply_inv applied l s).
Qed.

(** The flusher removes nothing from the files. *)
Lemma flusher_step_extends s s' applied : flusher_step s s' → rt_inv m0 applied (pending s) s →
  fs_extends (fs (os (sys s))) (fs (os (sys s'))).
Proof.
  intros Hstep Hinv. destruct (flusher_step_inv s s' applied Hstep Hinv) as (_ & He & _).
  destruct He as [_ _ _ Ho _ _ _|b err _ _ _ Hfl|l _ _ _ Ho]; [by rewrite Ho|apply Hfl|by rewrite Ho].
Qed.

(** ** The invariant holds in every reachable state *)

Lemma step_inv s s' : step s s' → ∀ applied, rt_inv m0 applied (pending s) s →
  ∃ applied', rt_inv m0 applied' (pending s') s'.
Proof.
  intros Hstep applied Hinv. destruct Hstep as [t ctx commandID args s Ht|t r sealed s s' Hc Hs
    |t r s s' Hc Hs|s|s s' Hfl].
  - exists applied. destruct (client_push_effect t ctx commandID args s Ht) as (r & Hp & _).
    by eapply push_inv.
  - exists applied. eapply send_inv; [done|by eapply client_send_effect|done].
  - exists applied. destruct (get_effect applied t r s s' Hinv Hc Hs) as (err & Hrv & Hset).
    by eapply get_inv.
  - exists applied. by destruct Hinv.
  - destruct (flusher_step_inv s s' applied Hfl Hinv) as (_ & _ & applied' & _ & H & _). by exists applied'.
Qed.

Lemma initial_inv x : batch (wal x) = [] → batches (wal x) = [] → handles_ok (os x) →
  data (commandHashTable (wal x)) = m0 → rt_inv m0 [] (pending (initial x)) (initial x).
Proof.
  intros Hb Hq Hok Ht. unfold pending, initial. simpl. rewrite Hb, Hq. simpl.
  unfold in_clients. rewrite map_to_list_empty. simpl.
  split; simpl; try done; [split; constructor|rewrite Hq; unfold batches_cap; simpl; lia].
Qed.

Lemma reachable_inv x s : batch (wal x) = [] → batches (wal x) = [] → handles_ok (os x) →
  data (commandHashTable (wal x)) = m0 → reachable x s → ∃ applied, rt_inv m0 applied (pending s) s.
Proof.
  intros Hb Hq Hok Ht Hr.
  assert (∃ applied, rt_inv m0 applied (pending (initial x)) (initial x)) as Hinit
    by (exists []; by apply initial_inv).
  unfold reachable in Hr. induction Hr as [|s1 s2 s3 Hstep _ IH]; [done|].
  apply IH. destruct Hinit as [applied Hinv]. by eapply step_inv.
Qed.

End preservation.

(** ** Executable schedules *)

Inductive action :=
  | APush (t : nat) (ctx : Ctx) (commandID : Z) (args : list bytes)
  | ASend (t : nat) | AGet (t : nat) | ACancel
  | AFlusher   (** the flusher's only move, or a receive when it has a choice *)
  | ATick.     (** the ticker fires in the second select *)

Section schedules.
Context {env : Env} {ids : GobTypeIds} {sorter : SortSlice}.

Definition finished (o : outcome RT) : option RT :=
  match o with Done s => Some s | _ => None end.

Definition act (a : action) (s : RT) : option RT :=
  match a with
  | APush t ctx commandID args =>
      match clients s !! t with None => Some (client_push t ctx commandID args s) | Some _ => None end
  | ASend t =>
      match clients s !! t with Some (Sending r sealed) => client_send t r sealed s | _ => None end
  | AGet t =>
      match clients s !! t with Some (Waiting r) => client_get t r s | _ => None end
  | ACancel => Some (cancel s)
  | AFlusher =>
      match flusher s with
      | At Loop => Some (set_flusher s (At (if cancelled s then Draining else Selecting)))
      | At Selecting =>
          match flusher_receive Loop s with Some o => finished o | None => None end
      | At Draining =>
          match flusher_receive Draining s with
          | Some o => finished o
          | None => finished (flusher_seal Exited s)
          end
      | At Exited => None
      | Applying [] k => Some (set_flusher s (At k))
      | Applying (l :: rest) k => Some (flusher_apply l rest k s)
      end
  | ATick =>
      match flusher s with At Selecting => finished (flusher_seal Loop s) | _ => None end
  end.

Fixpoint acts (al : list action) (s : RT) : option RT :=
  match al with
  | [] => Some s
  | a :: al' => match act a s with Some s' => acts al' s' | None => None end
  end.

Lemma finished_Done o s : finished o = Some s → o = Done s.
Proof. destruct o; simpl; congruence. Qed.

Lemma act_flusher_step a s s' : a = AFlusher ∨ a = ATick → act a s = Some s' → flusher_step s s'.
Proof.
  intros [-> | ->]; simpl; intros E.
  - destruct (flusher s) as [[]|[|l rest] k] eqn:Hf; simplify_eq.
    + by apply step_check.
    + destruct (flusher_receive Loop s) as [o|] eqn:Hr; [|done].
      apply finished_Done in E as ->. by eapply step_select_batch.
    + destruct (flusher_receive Draining s) as [o|] eqn:Hr; apply finished_Done in E.
      * subst o. by eapply step_drain_batch.
      * eapply step_drain_last; [done| |done]. unfold flusher_receive in Hr.
        by destruct (batches (wal (sys s))).
    + by apply step_applied.
    + by apply step_apply.
  - destruct (flusher s) as [[]|] eqn:Hf; try done. apply finished_Done in E.
    by eapply step_select_tick.
Qed.

(** Unless it has returned, the flusher can take a step. *)
Lemma flusher_can_step m0 applied s : rt_inv m0 applied (pending s) s →
  flusher s = At Exited ∨ ∃ s', (act AFlusher s = Some s' ∨ act ATick s = Some s') ∧ flusher_step s s'.
Proof.
  intros Hinv. pose proof (ri_fresh _ _ _ _ Hinv). pose proof (ri_handles _ _ _ _ Hinv).
  assert (flusher s = At Exited ∨ ∃ s', act AFlusher s = Some s' ∨ act ATick s = Some s') as [Hx|[s' Hs]].
  { destruct (flusher s) as [[]|[|l rest] k] eqn:Hf; simpl; rewrite Hf; eauto.
    - right. destruct (seal_effect Loop s) as (s1 & E & _); [by rewrite Hf|done|done|].
      rewrite E. simpl. eauto.
    - right. destruct (batches (wal (sys s))) as [|b q] eqn:Eq.
      + destruct (seal_effect Exited s) as (s1 & E & _); [by rewrite Hf|done|done|].
        unfold flusher_receive. rewrite Eq, E. simpl. eauto.
      + destruct (receive_effect Draining s) as (s1 & E & _); [by rewrite Hf|done|done|by rewrite Eq|].
        rewrite E. simpl. eauto. }
  - by left.
  - right. exists s'. split; [done|]. destruct Hs as [Hs|Hs]; (eapply act_flusher_step; [|exact Hs]); [by left|by right].
Qed.

Lemma act_step a s s' : act a s = Some s' → step s s'.
Proof.
  destruct a as [t ctx cid args|t|t| | |]; simpl; intros E.
  - destruct (clients s !! t) eqn:Ht; simplify_eq. by apply step_push.
  - destruct (clients s !! t) as [[]|] eqn:Ht; try done. by eapply step_send.
  - destruct (clients s !! t) as [[]|] eqn:Ht; try done. by eapply step_get.
  - simplify_eq. apply step_cancel.
  - apply step_flusher. by eapply act_flusher_step; [left|].
  - apply step_flusher. by eapply act_flusher_step; [right|].
Qed.

Lemma acts_reachable x al : ∀ s s', reachable x s → acts al s = Some s' → reachable x s'.
Proof.
  induction al as [|a al IH]; intros s s' Hr E; simpl in E; [by simplify_eq|].
  destruct (act a s) as [s1|] eqn:Ea; [|done]. eapply IH; [|exact E].
  eapply rtc_r; [exact Hr|]. by eapply act_step.
Qed.

(** The state after a schedule that runs to its end. *)
Definition after (x : Sys HashTable) (al : list action) : RT := default (initial x) (acts al (initial x)).

Lemma after_reachable x al : bool_decide (is_Some (acts al (initial x))) = true → reachable x (after x al).
Proof.
  intros [s Hs]%bool_decide_eq_true. unfold after. rewrite Hs. simpl.
  eapply acts_reachable; [|exact Hs]. apply rtc_refl.
Qed.

(** ** Lemmas: after the flusher has returned *)

(** No step resolves a promise any more. *)
Lemma exited_step s s' : step s s' → flusher s = At Exited →
  flusher s' = At Exited ∧
  ∀ c, heap (sys s) !! c = Some {| c_buf := []; c_closed := false |} →
       heap (sys s') !! c = Some {| c_buf := []; c_closed := false |}.
Proof.
  intros Hstep Hx. destruct Hstep as [t ctx commandID args s Ht|t r sealed s s' Hc Hs
    |t r s s' Hc Hs|s|s s' Hfl]; try done;
    [| | |by destruct Hfl; try congruence].
  - unfold client_push, push_start. cbn [NewWriteRequest NewPromise WithLock].
    destruct (push_locked _ _) as [sealed w]. split; [done|]. intros c Hc. simpl.
    by apply lookup_app_l_Some.
  - unfold client_send in Hs. case_bool_decide; by simplify_eq.
  - unfold client_get, Future_Get, chan_recv in Hs. split; [by repeat case_match; simplify_eq|].
    intros c Hch. destruct (heap (sys s) !! f_result (FutureResponse r)) as [[[|v b] []]|] eqn:E;
      simplify_eq/=; try done; rewrite list_lookup_insert_ne; congruence.
Qed.

Lemma exited_stuck s s' t c : rtc step s s' → flusher s = At Exited →
  clients s !! t = Some c → (∀ r e, c ≠ Returned r e) →
  heap (sys s) !! result (promise (request_of c)) = Some {| c_buf := []; c_closed := false |} →
  ∃ c', clients s' !! t = Some c' ∧ (∀ r e, c' ≠ Returned r e) ∧ request_of c' = request_of c.
Proof.
  intros Hr. revert c. induction Hr as [s|s s1 s2 Hstep _ IH]; intros c Hx Hc Hn Hh; [by exists c|].
  destruct (exited_step s s1 Hstep Hx) as [Hx1 Hkeep].
  assert (∃ c1, clients s1 !! t = Some c1 ∧ (∀ r e, c1 ≠ Returned r e) ∧ request_of c1 = request_of c)
    as (c1 & Hc1 & Hn1 & Hr1).
  { clear IH. destruct Hstep as [u ctx commandID args s Ht|u r sealed s s' Hu Hs
      |u r s s' Hu Hs|s|s s' Hfl]; try (by exists c); [| | |by destruct Hfl; try congruence].
    - unfold client_push, push_start. cbn [NewWriteRequest NewPromise WithLock].
      destruct (push_locked _ _) as [sealed w]. exists c. simpl.
      rewrite lookup_insert_ne by congruence. done.
    - unfold client_send in Hs. case_bool_decide; simplify_eq. simpl.
      destruct (decide (u = t)) as [->|Hne].
      + exists (Waiting r). rewrite lookup_insert_eq. assert (c = Sending r sealed) as -> by congruence. done.
      + exists c. by rewrite lookup_insert_ne.
    - destruct (decide (u = t)) as [->|Hne].
      + assert (c = Waiting r) as -> by congruence. unfold client_get, Future_Get, chan_recv in Hs.
        simpl in *. by rewrite Hh in Hs.
      + unfold client_get in Hs. repeat case_match; simplify_eq. exists c. simpl.
        by rewrite lookup_insert_ne. }
  destruct (IH c1 Hx1 Hc1 Hn1) as (c' & H1 & H2 & H3); [rewrite Hr1; by apply Hkeep|].
  exists c'. by rewrite H3.
Qed.

End schedules.

(** ** Properties *)

(** The conditions under which [Start] is called: the log is idle. *)
Definition idle (x : Sys HashTable) : Prop :=
  batch (wal x) = [] ∧ batches (wal x) = [] ∧ handles_ok (os x).

(** C8: acknowledged means durable: in every interleaving and under every
    environment, faults included, once a client's [Set] or [Del] has returned
    nil, some file contains the encoded batch with its record, and it stays
    there. *)
Theorem ack_implies_durable {env : Env} {ids : GobTypeIds} {sorter : SortSlice}
  (x : Sys HashTable) (s : RT) (t : nat) (r : WriteRequest)
  (Hidle : idle x) (Hreach : reachable x s) (Hack : clients s !! t = Some (Returned r None)) :
  on_disk (fs (os (sys s))) (log r).
Proof.
  destruct Hidle as (Hb & Hq & Hok). destruct (reachable_inv _ x s Hb Hq Hok eq_refl Hreach) as [applied Hinv].
  by destruct (ri_client _ _ _ _ Hinv t _ Hack eq_refl).
Qed.

(** A process with a count threshold of one and no faults, and a client that
    sets a key and gets its answer before the flusher applies the record. *)
Definition quick_sys (n : Z) : Sys HashTable :=
  {| wal := {| cfg := {| flushingBatchTimeout := 10 * Millisecond; flushingBatchCount := n;
                 flushingBatchVolume := 10485760; walMaxSegmentSize := 1073741824;
                 segmentStoragePath := wal_dir; walMaskName := str "segment_" |};
               segment := NewSegment wal_dir (str "segment_") 1073741824; batch := []; batches := [];
               activeBatchVolume := 0; commandHashTable := NewHashTable |};
     heap := []; os := world0 |}.

Definition ctx_of (lsn : Z) : Ctx := WithValue [] TxIDKey (CString (FormatInt lsn)).

Definition early_ack : list action :=
  [APush 0 (ctx_of 1) 1 [str "k"; str "v"]; ASend 0; AFlusher; AFlusher; AGet 0].

Definition early_request : WriteRequest :=
  {| log := {| LSN := 1; CommandID := 1; Arguments := [str "k"; str "v"] |};
     promise := {| result := 0; promised := false |} |}.

Lemma quick_idle n : idle (quick_sys n).
Proof. split; [done|]. split; [done|]. intros h p Hp. discriminate. Qed.

Lemma ack_implies_durable_witness :
  @on_disk default_ids
    (fs (os (sys (@after steady_env default_ids insertion_sort_slice (quick_sys 1) early_ack))))
    {| LSN := 1; CommandID := 1; Arguments := [str "k"; str "v"] |}.
Proof.
  apply (@ack_implies_durable steady_env default_ids insertion_sort_slice (quick_sys 1)
    (@after steady_env default_ids insertion_sort_slice (quick_sys 1) early_ack) 0%nat early_request).
  - apply quick_idle.
  - apply after_reachable. vm_compute. reflexivity.
  - vm_compute. reflexivity.
Defined.

(** C7: write-ahead logging: in every reachable state the table is the initial
    table with a list of records applied, all of which are on disk; and every
    record whose client has been told of success is among the applied ones or
    among those the flusher is about to apply, so it is visible as soon as the
    flusher is back in its loop. *)
Theorem write_ahead {env : Env} {ids : GobTypeIds} {sorter : SortSlice}
  (x : Sys HashTable) (s : RT) (Hidle : idle x) (Hreach : reachable x s) :
  ∃ applied,
    data (commandHashTable (wal (sys s))) = replay applied (data (commandHashTable (wal x))) ∧
    Forall (on_disk (fs (os (sys s)))) applied ∧
    (∀ t r, clients s !! t = Some (Returned r None) → log r ∈ applied ++ rest_of (flusher s)).
Proof.
  destruct Hidle as (Hb & Hq & Hok). destruct (reachable_inv _ x s Hb Hq Hok eq_refl Hreach) as [applied Hinv].
  exists applied. split; [apply Hinv|]. pose proof (ri_disk _ _ _ _ Hinv) as Hd.
  apply Forall_app in Hd as [Hd _]. split; [done|].
  intros t r Hc. by apply (ri_client _ _ _ _ Hinv t _ Hc).
Qed.

Lemma write_ahead_witness :
  let s := @after steady_env default_ids insertion_sort_slice (quick_sys 1) (early_ack ++ [AFlusher]) in
  ∃ applied,
    data (commandHashTable (wal (sys s))) = replay applied ∅ ∧
    Forall (@on_disk default_ids (fs (os (sys s)))) applied ∧
    (∀ t r, clients s !! t = Some (Returned r None) → log r ∈ applied ++ rest_of (flusher s)).
Proof.
  intros s. apply (@write_ahead steady_env default_ids insertion_sort_slice (quick_sys 1)).
  - apply quick_idle.
  - apply after_reachable. vm_compute. reflexivity.
Defined.

(** C14: no request is lost and the flusher never hangs while it runs: in every
    reachable state the channel holds at most five batches; a client still
    inside [push] has its answer in its channel or its request in the active
    batch, in the channel or in a batch being sent; and unless the flusher has
    returned it can take a step (waiting, in its second select, for at most
    the next tick), without blocking or panicking on a promise. *)
Theorem runtime_progress {env : Env} {ids : GobTypeIds} {sorter : SortSlice}
  (x : Sys HashTable) (s : RT) (Hidle : idle x) (Hreach : reachable x s) :
  (length (batches (wal (sys s))) ≤ 5)%nat ∧
  (∀ t r sealed, clients s !! t = Some (Waiting r) ∨ clients s !! t = Some (Sending r sealed) →
     r ∈ pending s ∨ ∃ err h, Future_Get None (FutureResponse r) (heap (sys s)) = Done (err, h)) ∧
  (flusher s = At Exited ∨ ∃ s', (act AFlusher s = Some s' ∨ act ATick s = Some s') ∧ step s s').
Proof.
  destruct Hidle as (Hb & Hq & Hok). destruct (reachable_inv _ x s Hb Hq Hok eq_refl Hreach) as [applied Hinv].
  split; [apply Hinv|]. split.
  - intros t r sealed Hc.
    assert (r ∈ pending s ∨ ∃ err, answered err (heap (sys s)) r ∧ (err = None → settled applied s (log r)))
      as [Hp|(err & Ha & _)] by (by destruct Hc as [Hc|Hc]; apply (ri_client _ _ _ _ Hinv t _ Hc)); [by left|].
    right. exists err. by apply answered_get.
  - destruct (flusher_can_step _ applied s Hinv) as [Hx|(s' & Hs & _)]; [by left|].
    right. exists s'. split; [done|]. by destruct Hs; eapply act_step.
Qed.

Lemma runtime_progress_witness :
  let s := @after steady_env default_ids insertion_sort_slice (quick_sys 1) early_ack in
  (length (batches (wal (sys s))) ≤ 5)%nat.
Proof.
  intros s. apply (@runtime_progress steady_env default_ids insertion_sort_slice (quick_sys 1)).
  - apply quick_idle.
  - apply after_reachable. vm_compute. reflexivity.
Defined.

(** A client can be told of success before its write is visible: there is an
    execution without faults in which [Set] has returned nil and a read of the
    key still finds nothing. The promises are resolved inside
    [WalWriter.Write], before the records are applied. *)
Theorem ack_before_apply :
  ∃ s, @reachable steady_env default_ids insertion_sort_slice (quick_sys 1) s ∧
    clients s !! 0%nat = Some (Returned early_request None) ∧
    HashTable_Get (str "k") (commandHashTable (wal (sys s))) = ([], false).
Proof.
  exists (@after steady_env default_ids insertion_sort_slice (quick_sys 1) early_ack).
  split; [apply after_reachable; vm_compute; reflexivity|]. split; vm_compute; reflexivity.
Qed.

(** A shutdown between the sealing of a batch and its send. *)
Definition lost_shutdown : list action :=
  [APush 0 (ctx_of 1) 1 [str "k"; str "v"]; APush 1 (ctx_of 2) 1 [str "k2"; str "v2"];
   ACancel; AFlusher; AFlusher; ASend 1].

(** C40: once the flusher has returned, a client whose promise is unresolved waits
    for ever: no continuation of the execution makes it return. *)
Theorem exited_clients_wait_forever {env : Env} {ids : GobTypeIds} {sorter : SortSlice}
  (s : RT) (t : nat) (c : client)
  (Hexit : flusher s = At Exited) (Hc : clients s !! t = Some c)
  (Hin : ∀ r e, c ≠ Returned r e)
  (Hunset : fresh_promise (promise (request_of c)) (heap (sys s))) :
  ∀ s', rtc step s s' → ∀ r e, clients s' !! t ≠ Some (Returned r e).
Proof.
  intros s' Hr r e E. destruct Hunset as [_ Hh].
  destruct (exited_stuck s s' t c Hr Hexit Hc Hin Hh) as (c' & H1 & H2 & _). by apply (H2 r e); congruence.
Qed.

(** Two writes accepted before the context was cancelled, with the flusher
    gone: neither client ever returns. *)
Lemma exited_clients_wait_forever_witness :
  let s := @after steady_env default_ids insertion_sort_slice (quick_sys 2) lost_shutdown in
  @reachable steady_env default_ids insertion_sort_slice (quick_sys 2) s ∧
  ∀ s', rtc (@step steady_env default_ids insertion_sort_slice) s s' →
    ∀ r e, clients s' !! 0%nat ≠ Some (Returned r e).
Proof.
  intros s. split; [apply after_reachable; vm_compute; reflexivity|].
  apply (@exited_clients_wait_forever steady_env default_ids insertion_sort_slice s 0%nat (Waiting early_request)).
  - vm_compute. reflexivity.
  - vm_compute. reflexivity.
  - intros r e. discriminate.
  - split; vm_compute; reflexivity.
Defined.
