(* ===== verification/Rounds.v ===== *)
(** * The order and the end of the flusher's work

    Which batches the flusher of [Wal.Start] takes, in which order, and how
    long a request waits for it, counted in batches; and that after the
    cancellation of its context the flusher drains what it finds and returns. *)

From S2P Require Import Prelude GoText Config Gob WalLog OS FileSystem Concurrency HashTable Wal WalRuntime.

(** ** Executions that count the batches taken from the channel *)

(** The flusher has left its loops for good. *)
Definition leaving (f : flusher_state) : Prop :=
  match f with At k | Applying _ k => k = Exited end.

#[export] Instance place_eq_dec : EqDecision place.
Proof. solve_decision. Defined.

#[export] Instance leaving_dec f : Decision (leaving f).
Proof. destruct f; apply _. Defined.

Section rounds.
Context {env : Env} {ids : GobTypeIds} {sorter : SortSlice}.

(** The answer of [r] is in its channel, or was received by its client. *)
Definition resolved (r : WriteRequest) (s : RT) : Prop :=
  ∃ c, heap (sys s) !! result (promise r) = Some c ∧ c_closed c = true.

(** The flusher takes the batch [b] from the channel and writes it. *)
Definition receives (b : list WriteRequest) (s s' : RT) : Prop :=
  ∃ k q, batches (wal (sys s)) = b :: q ∧
    (flusher s = At Selecting ∧ k = Loop ∨ flusher s = At Draining ∧ k = Draining) ∧
    flusher_receive k s = Some (Done s').

(** An execution in which the flusher takes at least [n] batches from the
    channel, with any steps of clients and flusher in between. *)
Inductive rounds : nat → RT → RT → Prop :=
  | rounds_refl s : rounds 0 s s
  | rounds_step n s s1 s2 : step s s1 → rounds n s1 s2 → rounds n s s2
  | rounds_receive n b s s1 s2 : receives b s s1 → rounds n s1 s2 → rounds (S n) s s2.

(** ** Lemmas: what a flush does to its batch *)

Lemma receives_step b s s' : receives b s s' → step s s'.
Proof.
  intros (k & q & _ & Hk & E). apply step_flusher.
  destruct Hk as [[Hf ->]|[Hf ->]]; [by apply step_select_batch|by apply step_drain_batch].
Qed.

(** The requests of a flushed batch are answered; the flusher goes on to apply
    its records or back to [k]. *)
Lemma flush_begin_batch b k s s' : fresh_requests b (heap (sys s)) → handles_ok (os (sys s)) →
  flush_begin b k s = Done s' →
  Forall (λ r, resolved r s') b ∧ batch (wal (sys s')) = batch (wal (sys s)) ∧
  batches (wal (sys s')) = batches (wal (sys s)) ∧ cancelled s' = cancelled s ∧
  (flusher s' = At k ∨ b ≠ [] ∧ ∃ rest, flusher s' = Applying rest k ∧ length rest = length b).
Proof.
  intros Hf Hok E. unfold flush_begin in E. destruct (0 <? zlen b) eqn:Hz; zbool.
  2: { assert (b = []) as -> by (apply zlen_0_inv; pose proof (zlen_nonneg b); lia). simplify_eq.
       do 4 (split; [done|]). by left. }
  destruct (WalWriter_Write_general b (sys s) Hf Hok) as (err & rs' & h' & seg & w & Ew & Hlog & _ & Hans & _).
  rewrite Ew in E. simpl in E. simplify_eq.
  assert (Forall (λ r, ∃ c, h' !! result (promise r) = Some c ∧ c_closed c = true) b) as Hres.
  { eapply Forall_impl; [exact Hans|]. intros r Hr. unfold answered in Hr. eauto. }
  destruct err; (split; [exact Hres|]); do 3 (split; [done|]); [by left|right].
  split; [by intros ->|]. eexists. split; [done|].
  rewrite length_fmap, (Permutation_length (sort_slice_perm _ _)), <- (length_fmap log rs'), Hlog.
  apply length_fmap.
Qed.

Lemma pending_fresh_queue b s : fresh_requests (pending s) (heap (sys s)) → b ∈ batches (wal (sys s)) →
  fresh_requests b (heap (sys s)).
Proof.
  intros Hf Hin. apply list_elem_of_split in Hin as (l1 & l2 & Hq).
  assert (pending s ≡ₚ b ++ (batch (wal (sys s)) ++ mjoin (l1 ++ l2) ++ in_clients (clients s))) as Hp.
  { unfold pending. rewrite Hq, !join_app. simpl. rewrite <- !app_assoc. solve_Permutation. }
  pose proof (fresh_requests_perm _ _ _ Hp Hf) as Hf'. by destruct (fresh_requests_app _ _ _ Hf').
Qed.

Lemma pending_fresh_batch s : fresh_requests (pending s) (heap (sys s)) →
  fresh_requests (batch (wal (sys s))) (heap (sys s)).
Proof. by intros (Hb & _)%fresh_requests_app. Qed.

Lemma receives_batch m0 applied b s s' : rt_inv m0 applied (pending s) s → receives b s s' →
  Forall (λ r, resolved r s') b ∧ batches (wal (sys s)) = b :: batches (wal (sys s')).
Proof.
  intros Hinv (k & q & Hq & _ & E). unfold flusher_receive in E. rewrite Hq in E. injection E as E.
  apply flush_begin_batch in E as (Hres & _ & Hq' & _).
  - split; [done|]. by rewrite Hq, Hq'.
  - apply (pending_fresh_queue b s); [apply Hinv|]. rewrite Hq. left.
  - apply Hinv.
Qed.

Lemma resolved_mono r s s' : (∀ c, heap (sys s) !! result (promise r) = Some c → c_closed c = true →
    ∃ c', heap (sys s') !! result (promise r) = Some c' ∧ c_closed c' = true) →
  resolved r s → resolved r s'.
Proof. intros H (c & Hc & Hcl). by apply (H c). Qed.

Lemma resolved_step m0 applied r s s' : rt_inv m0 applied (pending s) s → step s s' →
  resolved r s → resolved r s'.
Proof.
  intros Hinv Hstep. destruct Hstep as [t ctx commandID args s Ht|t q sealed s s' Hc Hs|t q s s' Hc Hs|s|s s' Hfl];
    apply resolved_mono; intros c Hch Hcl.
  - destruct (client_push_effect t ctx commandID args s Ht) as (q & Hp & _).
    rewrite (ps_heap _ _ _ _ Hp). exists c. split; [by apply lookup_app_l_Some|done].
  - apply client_send_effect in Hs as Hsn; [|done]. rewrite (sn_heap _ _ _ _ Hsn). by exists c.
  - destruct (get_effect m0 applied t q s s' Hinv Hc Hs) as (err & Hrv & _).
    rewrite (rv_heap _ _ _ _ _ Hrv). destruct (decide (result (promise r) = result (promise q))) as [E|Hne].
    + rewrite E, list_lookup_insert_eq; [eauto|]. rewrite <- E. by eapply lookup_lt_Some.
    + rewrite list_lookup_insert_ne by done. by exists c.
  - by exists c.
  - destruct (flusher_step_effect s s' Hfl (ri_fresh _ _ _ _ Hinv) (ri_handles _ _ _ _ Hinv))
      as [_ [_ _ Hh _ _ _ _|b err _ _ _ Hb|l _ _ Hh _]]; [rewrite Hh; by exists c| |rewrite Hh; by exists c].
    destruct (decide (result (promise r) ∈ (λ r, result (promise r)) <$> b)) as [(r' & E & Hin)%list_elem_of_fmap_1|Hn].
    + pose proof (fl_answered _ _ _ _ Hb) as Ha. rewrite Forall_forall in Ha. specialize (Ha r' Hin).
      unfold answered in Ha. rewrite E, Ha. eauto.
    + rewrite (fl_others _ _ _ _ Hb) by done. by exists c.
Qed.

(** Every step takes the first batch of the channel or leaves the channel with
    what it held, followed by at most what was sent. *)
Lemma step_queue m0 applied s s' : rt_inv m0 applied (pending s) s → step s s' →
  (∃ b, receives b s s') ∨ batches (wal (sys s)) `prefix_of` batches (wal (sys s')).
Proof.
  intros Hinv Hstep. pose proof (ri_handles _ _ _ _ Hinv) as Hok.
  pose proof (pending_fresh_batch s (ri_fresh _ _ _ _ Hinv)) as Hfb.
  destruct Hstep as [t ctx commandID args s Ht|t q sealed s s' Hc Hs|t q s s' Hc Hs|s|s s' Hfl]; [right..|].
  - destruct (client_push_effect t ctx commandID args s Ht) as (q & Hp & _). by rewrite (ps_queue _ _ _ _ Hp).
  - unfold client_send in Hs. case_bool_decide; simplify_eq. by exists [sealed].
  - destruct (get_effect m0 applied t q s s' Hinv Hc Hs) as (err & Hrv & _). by rewrite (rv_queue _ _ _ _ _ Hrv).
  - done.
  - assert (∀ k, flusher_receive k s = Some (Done s') →
      flusher s = At Selecting ∧ k = Loop ∨ flusher s = At Draining ∧ k = Draining → ∃ b, receives b s s') as Hrec.
    { intros k E Hk. destruct (batches (wal (sys s))) as [|b q] eqn:Hq; [unfold flusher_receive in E; by rewrite Hq in E|].
      by exists b, k, q. }
    assert (∀ k, flusher_seal k s = Done s' → batches (wal (sys s')) = batches (wal (sys s))) as Hseal.
    { intros k E. by destruct (flush_begin_batch (batch (wal (sys s))) k
        (set_sys s (with_wal (sys s) (set_batch (wal (sys s)) [] 0))) s' Hfb Hok E) as (_ & _ & -> & _). }
    destruct Hfl as [s Hf|s Hf Hx|s s' Hf Hr|s s' Hf Hr|s s' Hf Hr|s s' Hf Hq Hr|l rest k s Hf|k s Hf];
      try (right; done); [left; eauto|right; by rewrite (Hseal _ Hr)|left; eauto|right; by rewrite (Hseal _ Hr)].
Qed.

Lemma rounds_resolved m0 n s s' : rounds n s s' → ∀ applied i b r,
  rt_inv m0 applied (pending s) s → r ∈ b →
  resolved r s ∨ (i < n)%nat ∧ batches (wal (sys s)) !! i = Some b → resolved r s'.
Proof.
  intros Hr. induction Hr as [s|n s s1 s2 Hstep _ IH|n b' s s1 s2 Hrec _ IH]; intros applied i b r Hinv Hb Hor.
  - destruct Hor as [|[? _]]; [done|lia].
  - destruct (step_inv m0 s s1 Hstep applied Hinv) as [applied' Hinv'].
    destruct Hor as [Hres|[Hi Hq]].
    { eapply (IH applied' i b); [done|done|left; by apply (resolved_step m0 applied r s s1)]. }
    destruct (step_queue m0 applied s s1 Hinv Hstep) as [[b0 Hrec]|Hpre].
    + destruct (receives_batch m0 applied b0 s s1 Hinv Hrec) as [Hres Hqs]. rewrite Hqs in Hq.
      destruct i as [|i]; simpl in Hq.
      * simplify_eq. rewrite Forall_forall in Hres. eapply (IH applied' 0%nat b); [done|done|left; by apply Hres].
      * eapply (IH applied' i b); [done|done|]. right. split; [lia|done].
    + eapply (IH applied' i b); [done|done|]. right. split; [done|]. by eapply prefix_lookup_Some.
  - destruct (step_inv m0 s s1 (receives_step _ _ _ Hrec) applied Hinv) as [applied' Hinv'].
    destruct Hor as [Hres|[Hi Hq]].
    { eapply (IH applied' i b); [done|done|left; apply (resolved_step m0 applied r s s1); [done|by eapply receives_step|done]]. }
    destruct (receives_batch m0 applied b' s s1 Hinv Hrec) as [Hres Hqs]. rewrite Hqs in Hq.
    destruct i as [|i]; simpl in Hq.
    + simplify_eq. rewrite Forall_forall in Hres. eapply (IH applied' 0%nat b); [done|done|left; by apply Hres].
    + eapply (IH applied' i b); [done|done|]. right. split; [lia|done].
Qed.

(** While the flusher is in its loops it can get to a receive. *)
Lemma to_receive s : ¬ leaving (flusher s) →
  ∃ s1, rtc step s s1 ∧ batches (wal (sys s1)) = batches (wal (sys s)) ∧
    (flusher s1 = At Selecting ∨ flusher s1 = At Draining).
Proof.
  assert (∀ s, flusher s = At Loop → ∃ s1, rtc step s s1 ∧ batches (wal (sys s1)) = batches (wal (sys s)) ∧
    (flusher s1 = At Selecting ∨ flusher s1 = At Draining)) as Hloop.
  { clear s. intros s Hf. eexists. split; [apply rtc_once, step_flusher, step_check, Hf|]. split; [done|].
    simpl. destruct (cancelled s); eauto. }
  assert (∀ rest k s, flusher s = Applying rest k → ∃ s1, rtc step s s1 ∧
    batches (wal (sys s1)) = batches (wal (sys s)) ∧ flusher s1 = At k) as Happ.
  { clear s. intros rest k. induction rest as [|l rest IH]; intros s Hf.
    - eexists. split; [apply rtc_once, step_flusher, step_applied, Hf|]. done.
    - destruct (IH (flusher_apply l rest k s) eq_refl) as (s1 & Hr & Hq & H1). exists s1.
      split; [|by rewrite Hq]. eapply rtc_l; [apply step_flusher, step_apply, Hf|exact Hr]. }
  intros Hl. destruct (flusher s) as [k|rest k] eqn:Hf; simpl in Hl.
  - destruct k; [by apply Hloop|exists s; eauto using rtc_refl..|done].
  - destruct (Happ rest k s Hf) as (s1 & Hr & Hq & H1).
    destruct k; [|by exists s1; eauto..|done]. destruct (Hloop s1 H1) as (s2 & Hr2 & Hq2 & H2).
    exists s2. split; [by etrans|]. split; [by rewrite Hq2|done].
Qed.

Lemma rounds_steps n s s1 s2 : rtc step s s1 → rounds n s1 s2 → rounds n s s2.
Proof. induction 1 as [|s s0 s1 Hstep _ IH]; [done|]. intros Hr. eapply rounds_step; [exact Hstep|by apply IH]. Qed.

Lemma rtc_inv m0 s s' : rtc step s s' → (∃ applied, rt_inv m0 applied (pending s) s) →
  ∃ applied, rt_inv m0 applied (pending s') s'.
Proof. induction 1 as [|s s1 s2 Hstep _ IH]; [done|]. intros [applied Hinv]. by apply IH, (step_inv m0 s s1 Hstep applied). Qed.

Lemma rounds_exist m0 n : ∀ s, (∃ applied, rt_inv m0 applied (pending s) s) → ¬ leaving (flusher s) →
  (n ≤ length (batches (wal (sys s))))%nat → ∃ s', rounds n s s'.
Proof.
  induction n as [|n IH]; intros s Hinv Hl Hn; [exists s; constructor|].
  destruct (to_receive s Hl) as (s1 & Hr & Hq & Hat).
  destruct (rtc_inv m0 s s1 Hr Hinv) as [applied Hinv1]. rewrite <- Hq in Hn.
  destruct (batches (wal (sys s1))) as [|b q] eqn:Hb; simpl in Hn; [lia|].
  set (k := match flusher s1 with At Draining => Draining | _ => Loop end).
  destruct (receive_effect k s1) as (s2 & E & _);
    [by destruct Hat as [-> | ->]|apply Hinv1|apply Hinv1|by rewrite Hb|].
  assert (receives b s1 s2) as Hrec.
  { exists k, q. split; [done|]. split; [|done]. unfold k. destruct Hat as [-> | ->]; [by left|by right]. }
  pose proof (step_inv m0 s1 s2 (receives_step _ _ _ Hrec) applied Hinv1) as Hinv2.
  destruct (receives_batch m0 applied b s1 s2 Hinv1 Hrec) as [_ Hb2]. rewrite Hb in Hb2. injection Hb2 as Hb2.
  destruct (IH s2 Hinv2) as [s3 Hr3]; [|rewrite <- Hb2; lia|].
  - unfold flusher_receive in E. rewrite Hb in E. injection E as E.
    apply flush_begin_batch in E as (_ & _ & _ & _ & Hf);
      [|apply (pending_fresh_queue b s1); [apply Hinv1|rewrite Hb; left]|apply Hinv1].
    unfold k in Hf. destruct Hat as [Hat|Hat]; rewrite Hat in Hf; by destruct Hf as [->|(_ & rest & -> & _)].
  - exists s3. eapply rounds_steps; [exact Hr|]. by eapply rounds_receive.
Qed.

(** A client whose answer is there can take it. *)
Lemma resolved_get m0 applied t r s : rt_inv m0 applied (pending s) s →
  clients s !! t = Some (Waiting r) → resolved r s →
  ∃ err s', client_get t r s = Some s' ∧ clients s' !! t = Some (Returned r err).
Proof.
  intros Hinv Hc (c & Hch & Hcl). destruct (ri_client _ _ _ _ Hinv t _ Hc) as [Hp|(err & Ha & _)].
  - pose proof (ri_fresh _ _ _ _ Hinv) as [_ Hf]. rewrite Forall_forall in Hf.
    destruct (Hf r Hp) as [_ Hf']. rewrite Hf' in Hch. by simplify_eq.
  - destruct (answered_get _ _ _ Ha) as [h' E]. unfold client_get. rewrite E.
    eexists err, _. split; [done|]. apply lookup_insert_eq.
Qed.

End rounds.

(** ** The drain *)

Section drain.
Context {env : Env} {ids : GobTypeIds} {sorter : SortSlice}.

(** What the flusher can still find: the active batch and the channel. *)
Definition queued (s : RT) : list WriteRequest := batch (wal (sys s)) ++ mjoin (batches (wal (sys s))).

(** The steps that are left once the context is cancelled: one per record to
    apply, and a few per batch and per loop. *)
Definition place_weight (k : place) : nat :=
  match k with Exited => 0 | Draining => 1 | Loop => 2 | Selecting => 3 end.

Definition flusher_weight (f : flusher_state) : nat :=
  match f with At k => place_weight k | Applying rest k => place_weight k + 1 + length rest end.

Definition batch_weight (b : list WriteRequest) : nat :=
  match b with [] => 0 | _ => length b + 1 end.

Definition work (s : RT) : nat :=
  flusher_weight (flusher s) + batch_weight (batch (wal (sys s))) +
  sum_list_with (λ b, length b + 2)%nat (batches (wal (sys s))).

Lemma flush_begin_drain b k s s' : fresh_requests b (heap (sys s)) → handles_ok (os (sys s)) →
  flush_begin b k s = Done s' →
  cancelled s' = cancelled s ∧ Forall (λ r, resolved r s') b ∧ queued s' = queued s ∧
  (leaving (flusher s') → k = Exited) ∧
  (work s' + flusher_weight (flusher s) ≤ place_weight k + batch_weight b + work s)%nat.
Proof.
  intros Hf Hok E. destruct (flush_begin_batch b k s s' Hf Hok E) as (Hres & Hb & Hq & Hc & Hfl).
  split; [done|]. split; [done|]. unfold queued, work. rewrite Hb, Hq. split; [done|].
  destruct Hfl as [->|(Hne & rest & -> & Hlen)]; (split; [done|]); simpl; [lia|].
  destruct b; [done|]. simpl in *. lia.
Qed.

(** Less work is left, and what was queued stays there or is resolved. *)
Definition drained (s s' : RT) : Prop :=
  cancelled s' = true ∧ (work s' < work s)%nat ∧ ∀ r, r ∈ queued s → r ∈ queued s' ∨ resolved r s'.

Lemma drain_receive m0 applied k s s' : rt_inv m0 applied (pending s) s → cancelled s = true →
  flusher_receive k s = Some (Done s') → flusher_weight (flusher s) = flusher_weight (At k) ∨
    (place_weight k < flusher_weight (flusher s))%nat →
  drained s s' ∧ (leaving (flusher s') → k = Exited).
Proof.
  intros Hinv Hx E Hw. unfold flusher_receive in E.
  destruct (batches (wal (sys s))) as [|b q] eqn:Hq; [done|]. injection E as E.
  assert (fresh_requests b (heap (sys s))) as Hfr.
  { apply (pending_fresh_queue b s); [apply Hinv|]. rewrite Hq. left. }
  destruct (flush_begin_drain b k (set_sys s (with_wal (sys s) (set_batches (wal (sys s)) q))) s'
    Hfr (ri_handles _ _ _ _ Hinv) E) as (Hc & Hres & Hqd & Hl & Hwk).
  split; [|done]. split; [by rewrite Hc|]. split.
  - unfold work in *. simpl in *. rewrite Hq. simpl.
    assert (batch_weight b ≤ length b + 1)%nat by (destruct b; simpl; lia). lia.
  - rewrite Hqd. unfold queued. simpl. rewrite Hq. simpl. rewrite Forall_forall in Hres. set_solver.
Qed.

Lemma drain_seal m0 applied k s s' : rt_inv m0 applied (pending s) s → cancelled s = true →
  flusher_seal k s = Done s' → (place_weight k < flusher_weight (flusher s))%nat →
  drained s s' ∧ (leaving (flusher s') → k = Exited) ∧ queued s' = mjoin (batches (wal (sys s))).
Proof.
  intros Hinv Hx E Hw. pose proof (pending_fresh_batch s (ri_fresh _ _ _ _ Hinv)) as Hfb.
  destruct (flush_begin_drain (batch (wal (sys s))) k (set_sys s (with_wal (sys s) (set_batch (wal (sys s)) [] 0))) s'
    Hfb (ri_handles _ _ _ _ Hinv) E) as (Hc & Hres & Hqd & Hl & Hwk).
  split; [|split; [done|by rewrite Hqd]]. split; [by rewrite Hc|]. split; [unfold work in *; simpl in *; lia|].
  rewrite Hqd. unfold queued. simpl. rewrite Forall_forall in Hres. set_solver.
Qed.

(** One step after the cancellation. *)
Lemma drain_step m0 applied s s' : rt_inv m0 applied (pending s) s → flusher_step s s' → cancelled s = true →
  drained s s' ∧ (leaving (flusher s') → leaving (flusher s) ∧ queued s' = queued s ∨ queued s' = []).
Proof.
  intros Hinv Hstep Hx.
  assert (∀ f, (flusher_weight f < flusher_weight (flusher s))%nat → drained s (set_flusher s f)) as Hmove.
  { intros f Hw. split; [done|]. split; [unfold work; simpl; lia|by left]. }
  destruct Hstep as [s Hf|s Hf _|s s' Hf Hr|s s' Hf Hr|s s' Hf Hr|s s' Hf Hq Hr|l rest k s Hf|k s Hf].
  - rewrite Hx. split; [apply Hmove; rewrite Hf; simpl; lia|done].
  - split; [apply Hmove; rewrite Hf; simpl; lia|done].
  - destruct (drain_receive m0 applied Loop s s' Hinv Hx Hr) as [Hd Hl]; [right; rewrite Hf; simpl; lia|].
    split; [done|]. by intros ?%Hl.
  - destruct (drain_seal m0 applied Loop s s' Hinv Hx Hr) as (Hd & Hl & _); [rewrite Hf; simpl; lia|].
    split; [done|]. by intros ?%Hl.
  - destruct (drain_receive m0 applied Draining s s' Hinv Hx Hr) as [Hd Hl]; [left; by rewrite Hf|].
    split; [done|]. by intros ?%Hl.
  - destruct (drain_seal m0 applied Exited s s' Hinv Hx Hr) as (Hd & _ & Hqd); [rewrite Hf; simpl; lia|].
    split; [done|]. intros _. right. by rewrite Hqd, Hq.
  - split; [|intros Hl; left; by rewrite Hf].
    split; [done|]. split; [unfold work; rewrite Hf; simpl; lia|by left].
  - split; [apply Hmove; rewrite Hf; simpl; lia|]. intros Hl. left. by rewrite Hf.
Qed.

(** Executions with the flusher's steps and the calls of [push] counted. *)
Inductive counted : nat → nat → RT → RT → Prop :=
  | counted_refl s : counted 0 0 s s
  | counted_flusher f p s s1 s2 : flusher_step s s1 → counted f p s1 s2 → counted (S f) p s s2
  | counted_push f p t ctx commandID args s s2 : clients s !! t = None →
      counted f p (client_push t ctx commandID args s) s2 → counted f (S p) s s2
  | counted_send f p t r sealed s s1 s2 : clients s !! t = Some (Sending r sealed) →
      client_send t r sealed s = Some s1 → counted f p s1 s2 → counted f p s s2
  | counted_get f p t r s s1 s2 : clients s !! t = Some (Waiting r) → client_get t r s = Some s1 →
      counted f p s1 s2 → counted f p s s2
  | counted_cancel f p s s2 : counted f p (cancel s) s2 → counted f p s s2.

(** The batches that clients hold, on top of what the flusher can find. *)
Definition client_weight (c : client) : nat :=
  match c with Sending _ b => length b + 2 | _ => 0 end.

Definition held (m : gmap nat client) : nat := sum_list_with client_weight (map_to_list m).*2.

Definition work_left (s : RT) : nat := work s + held (clients s).

Lemma held_new m t c : m !! t = None → held (<[t := c]> m) = (client_weight c + held m)%nat.
Proof.
  intros Ht. unfold held.
  assert ((map_to_list (<[t := c]> m)).*2 ≡ₚ c :: (map_to_list m).*2) as -> by (by rewrite map_to_list_insert). done.
Qed.

Lemma held_update m t c c' : m !! t = Some c → (client_weight c + held (<[t := c']> m) = client_weight c' + held m)%nat.
Proof.
  intros Ht. rewrite <- (insert_delete_id m t c Ht) at 2. rewrite <- insert_delete_eq.
  rewrite !held_new by apply lookup_delete_eq. lia.
Qed.

(** A new request costs at most three steps. *)
Lemma push_work t ctx commandID args s : clients s !! t = None →
  let s' := client_push t ctx commandID args s in
  (work_left s' ≤ work_left s + 3)%nat ∧ cancelled s' = cancelled s ∧ flusher s' = flusher s ∧
  batches (wal (sys s')) = batches (wal (sys s)).
Proof.
  intros Ht. unfold client_push, push_start. cbn [NewWriteRequest NewPromise WithLock]. set (r := {| log := _; promise := _ |}).
  unfold push_locked, work_left, work. destruct (_ || _).
  - destruct (batch (wal (sys s)) ++ [r]) as [|r0 b] eqn:Eb; [by destruct (batch (wal (sys s)))|].
    simpl. rewrite held_new by done. split; [|done]. apply (f_equal length) in Eb.
    rewrite length_app in Eb. simpl in *. unfold batch_weight. destruct (batch (wal (sys s))); simpl in *; lia.
  - simpl. rewrite held_new by done. split; [|done]. unfold batch_weight.
    destruct (batch (wal (sys s))) as [|r0 b]; simpl; rewrite ?length_app; simpl; lia.
Qed.

Lemma send_work t r sealed s s' : clients s !! t = Some (Sending r sealed) → client_send t r sealed s = Some s' →
  work_left s' = work_left s ∧ cancelled s' = cancelled s ∧ flusher s' = flusher s ∧
  batch (wal (sys s')) = batch (wal (sys s)) ∧ batches (wal (sys s')) = batches (wal (sys s)) ++ [sealed].
Proof.
  intros Hc Hs. unfold client_send in Hs. case_bool_decide; [|done]. injection Hs as <-. split; [|done].
  pose proof (held_update _ _ _ (Waiting r) Hc) as Hh. unfold work_left, work. simpl in *.
  rewrite sum_list_with_app. simpl. lia.
Qed.

Lemma get_work t r s s' : clients s !! t = Some (Waiting r) → client_get t r s = Some s' →
  work_left s' = work_left s ∧ cancelled s' = cancelled s ∧ flusher s' = flusher s ∧
  batch (wal (sys s')) = batch (wal (sys s)) ∧ batches (wal (sys s')) = batches (wal (sys s)).
Proof.
  intros Hc Hs. unfold client_get in Hs. destruct (Future_Get _ _ _) as [[err h]| |]; [|done..]. injection Hs as <-.
  split; [|done]. pose proof (held_update _ _ _ (Returned r err) Hc) as Hh. unfold work_left, work. simpl in *. lia.
Qed.

(** A request that the flusher will still answer, or has answered: in the
    channel, or with [own] in the active batch. *)
Definition safe (own : bool) (r : WriteRequest) (s : RT) : Prop :=
  resolved r s ∨ ¬ leaving (flusher s) ∧
    (r ∈ mjoin (batches (wal (sys s))) ∨ own = true ∧ r ∈ batch (wal (sys s))).

Lemma safe_flusher m0 applied own r s s' : rt_inv m0 applied (pending s) s → flusher_step s s' → cancelled s = true →
  safe own r s → safe own r s'.
Proof.
  intros Hinv Hstep Hx [Hr|[Hl Hin]].
  { left. by apply (resolved_step m0 applied r s s' Hinv (step_flusher _ _ Hstep)). }
  destruct (drain_step m0 applied s s' Hinv Hstep Hx) as [(_ & _ & Hq) Hlv].
  assert (r ∈ queued s) as Hrq by (unfold queued; set_solver).
  destruct (Hq r Hrq) as [Hq'|]; [|by left].
  destruct (decide (leaving (flusher s'))) as [Hl'|Hl'].
  { destruct (Hlv Hl') as [[Hl0 _]|E]; [done|]. rewrite E in Hq'. by apply not_elem_of_nil in Hq'. }
  pose proof (step_queue m0 applied s s' Hinv (step_flusher _ _ Hstep)) as Hsq.
  destruct Hin as [Hin|[-> Hin]].
  - destruct Hsq as [[b Hrec]|[k Hk]].
    + destruct (receives_batch m0 applied b s s' Hinv Hrec) as [Hres Hb]. rewrite Hb in Hin. simpl in Hin.
      apply elem_of_app in Hin as [Hin|Hin]; [|by right; split; [|left]].
      left. rewrite Forall_forall in Hres. by apply Hres.
    + right. split; [done|left]. rewrite Hk, join_app. set_solver.
  - right. split; [done|]. unfold queued in Hq'. set_solver.
Qed.

Lemma counted_invariant m0 f p s s' : counted f p s s' → ∀ applied,
  rt_inv m0 applied (pending s) s → cancelled s = true →
  (f + work_left s' ≤ work_left s + 3 * p)%nat ∧ (∃ applied', rt_inv m0 applied' (pending s') s') ∧
  (∀ own r, (own = true → p = 0%nat) → safe own r s → safe own r s').
Proof.
  intros Hc. induction Hc as [s|f p s s1 s2 Hs _ IH|f p t ctx cid args s s2 Ht _ IH|f p t r sealed s s1 s2 Hc Hs _ IH
    |f p t r s s1 s2 Hc Hs _ IH|f p s s2 _ IH]; intros applied Hinv Hx.
  - split; [lia|]. split; [by exists applied|done].
  - destruct (drain_step m0 applied s s1 Hinv Hs Hx) as [(Hx1 & Hw & _) _].
    destruct (step_inv m0 s s1 (step_flusher _ _ Hs) applied Hinv) as [applied1 Hinv1].
    destruct (IH applied1 Hinv1 Hx1) as (Hw' & Hinv' & Hsafe). split; [|split; [done|]].
    + destruct (flusher_step_effect s s1 Hs (ri_fresh _ _ _ _ Hinv) (ri_handles _ _ _ _ Hinv)) as [Hk _].
      unfold work_left in *. rewrite (kp_clients _ _ Hk) in Hw'. lia.
    + intros own r Ho Hr. by apply Hsafe, (safe_flusher m0 applied own r s s1).
  - destruct (push_work t ctx cid args s Ht) as (Hw & Hx1 & Hf & Hq).
    pose proof (step_push t ctx cid args s Ht) as Hst.
    destruct (step_inv m0 _ _ Hst applied Hinv) as [applied1 Hinv1].
    destruct (IH applied1 Hinv1) as (Hw' & Hinv' & Hsafe); [by rewrite Hx1|]. split; [lia|]. split; [done|].
    intros own r Ho [Hr|[Hl Hin]]; destruct own; [specialize (Ho eq_refl); lia| |specialize (Ho eq_refl); lia|];
      apply Hsafe; try done; [left; by apply (resolved_step m0 applied r _ _ Hinv Hst)|].
    right. rewrite Hf, Hq. split; [done|]. by destruct Hin as [|[? _]]; [left|].
  - destruct (send_work t r sealed s s1 Hc Hs) as (Hw & Hx1 & Hf & Hb & Hq).
    pose proof (step_send t r sealed s s1 Hc Hs) as Hst.
    destruct (step_inv m0 _ _ Hst applied Hinv) as [applied1 Hinv1].
    destruct (IH applied1 Hinv1) as (Hw' & Hinv' & Hsafe); [by rewrite Hx1|]. split; [lia|]. split; [done|].
    intros own q Ho [Hr|[Hl Hin]]; apply Hsafe; try done; [left; by apply (resolved_step m0 applied q _ _ Hinv Hst)|].
    right. rewrite Hf, Hq, Hb, join_app. split; [done|]. set_solver.
  - destruct (get_work t r s s1 Hc Hs) as (Hw & Hx1 & Hf & Hb & Hq).
    pose proof (step_get t r s s1 Hc Hs) as Hst.
    destruct (step_inv m0 _ _ Hst applied Hinv) as [applied1 Hinv1].
    destruct (IH applied1 Hinv1) as (Hw' & Hinv' & Hsafe); [by rewrite Hx1|]. split; [lia|]. split; [done|].
    intros own q Ho [Hr|[Hl Hin]]; apply Hsafe; try done; [left; by apply (resolved_step m0 applied q _ _ Hinv Hst)|].
    right. by rewrite Hf, Hq, Hb.
  - destruct (step_inv m0 _ _ (step_cancel s) applied Hinv) as [applied1 Hinv1].
    by destruct (IH applied1 Hinv1 eq_refl) as (Hw' & Hinv' & Hsafe).
Qed.

(** Every execution has its counts. *)
Lemma counted_exists s s' : rtc step s s' → ∃ f p, counted f p s s'.
Proof.
  induction 1 as [s|s s1 s2 Hst _ (f & p & Hc)]; [exists 0%nat, 0%nat; constructor|].
  destruct Hst; eexists _, _; eauto using counted.
Qed.

End drain.

(** ** Properties *)

(** Batches are served in the order in which they were sent: after as many
    batches taken from the channel as there were up to and including its own,
    a request is answered, so five are enough for a batch that was just sent;
    while the flusher is in its loops these rounds can happen; a request in
    the active batch is answered by one tick; and a client whose request is
    answered can take its result. *)
Theorem batches_served_in_order {env : Env} {ids : GobTypeIds} {sorter : SortSlice}
  (x : Sys HashTable) (s : RT) (Hidle : idle x) (Hreach : reachable x s) :
  (∀ n s' i b r, rounds n s s' → (i < n)%nat → batches (wal (sys s)) !! i = Some b → r ∈ b → resolved r s') ∧
  (∀ t r sealed s1 s', client_send t r sealed s = Some s1 → clients s !! t = Some (Sending r sealed) →
     rounds batches_cap s1 s' → Forall (λ r, resolved r s') sealed) ∧
  (¬ leaving (flusher s) → ∃ s', rounds (length (batches (wal (sys s)))) s s') ∧
  (flusher s = At Selecting →
     ∃ s', flusher_step s s' ∧ batch (wal (sys s')) = [] ∧ Forall (λ r, resolved r s') (batch (wal (sys s)))) ∧
  (∀ t r, clients s !! t = Some (Waiting r) → resolved r s →
     ∃ err s', client_get t r s = Some s' ∧ clients s' !! t = Some (Returned r err)).
Proof.
  destruct Hidle as (Hb & Hq & Hok). set (m0 := data (commandHashTable (wal x))).
  destruct (reachable_inv m0 x s Hb Hq Hok eq_refl Hreach) as [applied Hinv].
  split_and!.
  - intros n s' i b r Hr Hi Hqi Hin. apply (rounds_resolved m0 n s s' Hr applied i b r); [done|done|by right].
  - intros t r sealed s1 s' Hs Hc Hr.
    destruct (step_inv m0 s s1 (step_send t r sealed s s1 Hc Hs) applied Hinv) as [applied1 Hinv1].
    unfold client_send in Hs. case_bool_decide as Hcap; [|done]. injection Hs as <-.
    apply Forall_forall. intros r' Hr'.
    apply (rounds_resolved m0 _ _ s' Hr applied1 (length (batches (wal (sys s)))) sealed r'); [done|done|right].
    split; [done|]. simpl. by apply list_lookup_middle.
  - intros Hl. eapply (rounds_exist m0); [by exists applied|done|lia].
  - intros Hf. destruct (seal_effect Loop s) as (s' & E & _); [by rewrite Hf|apply Hinv|apply Hinv|].
    exists s'. split; [by apply step_select_tick|].
    pose proof (pending_fresh_batch s (ri_fresh _ _ _ _ Hinv)) as Hfb.
    destruct (flush_begin_batch (batch (wal (sys s))) Loop
      (set_sys s (with_wal (sys s) (set_batch (wal (sys s)) [] 0))) s' Hfb (ri_handles _ _ _ _ Hinv) E) as (Hres & Hb' & _).
    done.
  - intros t r Hc Hres. by apply (resolved_get m0 applied).
Qed.

(** One batch in the channel and the flusher in its second select. *)
Definition one_sent : list action := [APush 0 (ctx_of 1) 1 [str "k"; str "v"]; ASend 0; AFlusher].

Lemma batches_served_in_order_witness :
  let s := @after steady_env default_ids insertion_sort_slice (quick_sys 1) one_sent in
  let s' := @after steady_env default_ids insertion_sort_slice (quick_sys 1) (one_sent ++ [AFlusher]) in
  batches (wal (sys s)) = [[early_request]] ∧ resolved early_request s'.
Proof.
  intros s s'. split; [vm_compute; reflexivity|].
  apply (proj1 (@batches_served_in_order steady_env default_ids insertion_sort_slice (quick_sys 1) s
    (quick_idle 1) (@after_reachable steady_env default_ids insertion_sort_slice (quick_sys 1) one_sent
      ltac:(vm_compute; reflexivity)))
    1%nat s' 0%nat [early_request] early_request).
  - apply (rounds_receive 0 [early_request] s s' s'); [|constructor].
    exists Loop, []. split; [vm_compute; reflexivity|]. split; [left; split; vm_compute; reflexivity|].
    vm_compute. reflexivity.
  - constructor.
  - vm_compute. reflexivity.
  - left.
Defined.

(** C16: the flusher after the cancellation of the context of [Start], whatever
    the clients go on doing. It comes to an end: in every execution the number
    of its steps is bounded by the work that is in the log, in the batches that
    clients hold and with the flusher, plus three for every later call of
    [push], and it has a step until it has returned. Before it returns it
    answers every request that was in the channel; and if there was no later
    call of [push], every request that was in the active batch too. (A later
    [push] can take the active batch into its own hands, and the flusher
    returns without it: the witness has such a request, and it then waits for
    ever, [exited_clients_wait_forever].) *)
Theorem shutdown_drains {env : Env} {ids : GobTypeIds} {sorter : SortSlice}
  (x : Sys HashTable) (s s' : RT) (Hidle : idle x) (Hreach : reachable x s)
  (Hcancel : cancelled s = true) (Hrun : rtc step s s') :
  (∀ f p, counted f p s s' → (f + work_left s' ≤ work_left s + 3 * p)%nat) ∧
  (flusher s' = At Exited ∨ ∃ s2, flusher_step s' s2) ∧
  (¬ leaving (flusher s) → leaving (flusher s') → Forall (λ r, resolved r s') (mjoin (batches (wal (sys s))))) ∧
  (¬ leaving (flusher s) → leaving (flusher s') → ∀ f, counted f 0 s s' → Forall (λ r, resolved r s') (queued s)).
Proof.
  destruct Hidle as (Hb & Hq & Hok). set (m0 := data (commandHashTable (wal x))).
  destruct (reachable_inv m0 x s Hb Hq Hok eq_refl Hreach) as [applied Hinv].
  destruct (counted_exists s s' Hrun) as (f0 & p0 & Hc0).
  destruct (counted_invariant m0 f0 p0 s s' Hc0 applied Hinv Hcancel) as (_ & [applied' Hinv'] & Hsafe0).
  assert (∀ own r, leaving (flusher s') → safe own r s' → resolved r s') as Hres by (intros own r Hl [|[]]; done).
  split; [|split; [|split]].
  - intros f p Hc. by apply (counted_invariant m0 f p s s' Hc applied).
  - destruct (flusher_can_step m0 applied' s' Hinv') as [|(s2 & _ & H2)]; eauto.
  - intros Hl Hl'. apply Forall_forall. intros r Hr. apply (Hres false); [done|]. apply Hsafe0; [done|].
    right. auto.
  - intros Hl Hl' f Hc. destruct (counted_invariant m0 f 0 s s' Hc applied Hinv Hcancel) as (_ & _ & Hsafe).
    apply Forall_forall. intros r Hr. apply (Hres true); [done|]. apply Hsafe; [done|].
    right. split; [done|]. unfold queued in Hr. set_solver.
Qed.

(** A batch of two requests in the channel, a request in the active batch, and
    a shutdown. *)
Definition sent_and_active : list action :=
  [APush 0 (ctx_of 1) 1 [str "k"; str "v"]; APush 1 (ctx_of 2) 1 [str "k2"; str "v2"]; ASend 1;
   APush 2 (ctx_of 3) 2 [str "k"]; ACancel].

(** The flusher drains while another client takes the active batch. *)
Definition taken_away : list action :=
  [AFlusher; APush 3 (ctx_of 4) 2 [str "k2"]; AFlusher; AFlusher; AFlusher; AFlusher; AFlusher].

(** The request of the active batch, which nobody answers. *)
Definition left_behind : WriteRequest :=
  {| log := {| LSN := 3; CommandID := 2; Arguments := [str "k"] |}; promise := {| result := 2; promised := false |} |}.

(** The counts of a schedule. *)
Definition flusher_moves (al : list action) : nat :=
  sum_list_with (λ a, match a with AFlusher | ATick => 1 | _ => 0 end)%nat al.

Definition pushes (al : list action) : nat :=
  sum_list_with (λ a, match a with APush _ _ _ _ => 1 | _ => 0 end)%nat al.

Lemma acts_counted {env : Env} {ids : GobTypeIds} {sorter : SortSlice} al : ∀ s s', acts al s = Some s' →
  counted (flusher_moves al) (pushes al) s s'.
Proof.
  induction al as [|a al IH]; intros s s' E; [injection E as <-; constructor|].
  cbn [acts] in E. destruct (act a s) as [s1|] eqn:Ea; [|done]. specialize (IH s1 s' E).
  destruct a as [t ctx cid args|t|t| | |].
  - simpl in Ea. destruct (clients s !! t) eqn:Ht; [done|]. injection Ea as <-. by eapply counted_push.
  - simpl in Ea. destruct (clients s !! t) as [[]|] eqn:Ht; try done. by eapply counted_send.
  - simpl in Ea. destruct (clients s !! t) as [[]|] eqn:Ht; try done. by eapply counted_get.
  - injection Ea as <-. by apply counted_cancel.
  - eapply counted_flusher; [|exact IH]. by eapply act_flusher_step; [left|].
  - eapply counted_flusher; [|exact IH]. by eapply act_flusher_step; [right|].
Qed.

Lemma acts_steps {env : Env} {ids : GobTypeIds} {sorter : SortSlice} al : ∀ s s', acts al s = Some s' → rtc step s s'.
Proof.
  induction al as [|a al IH]; intros s s' E; [injection E as <-; apply rtc_refl|].
  cbn [acts] in E. destruct (act a s) as [s1|] eqn:Ea; [|done]. eapply rtc_l; [by eapply act_step|by apply IH].
Qed.

Lemma shutdown_drains_witness :
  let s := @after steady_env default_ids insertion_sort_slice (quick_sys 2) sent_and_active in
  let s' := @after steady_env default_ids insertion_sort_slice (quick_sys 2) (sent_and_active ++ taken_away) in
  (6 + work_left s' ≤ work_left s + 3 * 1)%nat ∧
  (flusher s' = At Exited ∨ ∃ s2, @flusher_step steady_env default_ids insertion_sort_slice s' s2) ∧
  Forall (λ r, resolved r s') (mjoin (batches (wal (sys s)))) ∧
  flusher s' = At Exited ∧ last (batch (wal (sys s))) = Some left_behind ∧
  heap (sys s') !! result (promise left_behind) = Some {| c_buf := []; c_closed := false |}.
Proof.
  intros s s'.
  assert (@acts steady_env default_ids insertion_sort_slice taken_away s = Some s') as Hacts by (vm_compute; reflexivity).
  assert (@reachable steady_env default_ids insertion_sort_slice (quick_sys 2) s) as Hreach
    by (apply (@after_reachable steady_env default_ids insertion_sort_slice); vm_compute; reflexivity).
  pose proof (acts_counted taken_away s s' Hacts) as Hc.
  destruct (@shutdown_drains steady_env default_ids insertion_sort_slice (quick_sys 2) s s' (quick_idle 2) Hreach)
    as (Hw & Hend & Hq & _).
  - vm_compute. reflexivity.
  - by apply (acts_steps taken_away).
  - split; [exact (Hw _ _ Hc)|]. split; [exact Hend|]. split.
    + apply Hq; [vm_compute; discriminate|vm_compute; reflexivity].
    + split; [vm_compute; reflexivity|]. split; [vm_compute; reflexivity|]. vm_compute. reflexivity.
Defined.
