(* ===== verification/FlusherLog.v ===== *)
(** * What the flusher logs

    The functions the goroutine of [Wal.Start] runs, with every record they log
    on the way ([wal.go], [wal_writer.go], [segment.go]), as moves of the
    runtime. Erasing the records gives the functions of [FileSystem.v], [Wal.v]
    and [WalRuntime.v]. Each goroutine has a log of its own here: nothing is
    said about the order in which the records of two goroutines are written. *)

From S2P Require Import Prelude GoText Slog Compute Config Gob WalLog OS FileSystem Concurrency LogRecords HashTable Wal WalRuntime.

(** ** [segment.go] *)

Section segment.
Context {env : Env}.

Definition Segment_CreateFile_logged (seg : Segment) (w : world) : logged (res nat * Segment * world) :=
  let '(r, w1) := CreateFile (directory seg) (maskName seg) w in
  match r with
  | Err e =>
      log_debug (str "failed to create file") [(str "dir", LString (directory seg)); (str "err", LError e)];;
      mret (Err ErrFailedFileCreate, seg, w1)
  | Ok h => mret (Ok h, set_file seg (Some h) 0, w1)
  end.

Definition getNextSegment_logged (seg : Segment) (w : world) : logged (error * Segment * world) :=
  w1 ← match file seg with
       | Some h =>
           let '(err, w1) := os_close h w in
           match err with
           | Some e =>
               log_debug (str "failed to close previous segment during rotation")
                 [(str "file", LFileName h); (str "error", LErrorText e)];;
               mret w1
           | None => mret w1
           end
       | None => mret w
       end;
  let '(r, w2) := CreateFile (directory seg) (maskName seg) w1 in
  match r with
  | Err e => mret (Some e, seg, w2)
  | Ok h => mret (None, set_file seg (Some h) 0, w2)
  end.

(** Without a file there is nothing to write to; [Write] creates one first. *)
Definition write_current_logged (seg : Segment) (data : bytes) (w : world) : logged (error * Segment * world) :=
  match file seg with
  | None => mret (Some ErrFailedSaveFile, seg, w)
  | Some h =>
      let '(r, w1) := WriteFile h data w in
      match r with
      | Err e =>
          log_debug (str "failed to write data to segment file")
            [(str "file", LFileName h); (str "err", LError e)];;
          mret (Some ErrFailedSaveFile, seg, w1)
      | Ok n => mret (None, set_file seg (Some h) (int64 (segmentSize seg + n)), w1)
      end
  end.

Definition rotate_and_write_logged (seg : Segment) (data : bytes) (w : world) : logged (error * Segment * world) :=
  if must_rotate seg data then
    '(err, seg1, w1) ← getNextSegment_logged seg w;
    match err with
    | Some e => mret (Some e, seg1, w1)
    | None => write_current_logged seg1 data w1
    end
  else write_current_logged seg data w.

Definition Segment_Write_logged (seg : Segment) (data : bytes) (w : world) : logged (error * Segment * world) :=
  match file seg with
  | None =>
      '(r, seg1, w1) ← Segment_CreateFile_logged seg w;
      match r with
      | Err e => mret (Some e, seg1, w1)
      | Ok _ => rotate_and_write_logged seg1 data w1
      end
  | Some _ => rotate_and_write_logged seg data w
  end.

End segment.

(** ** [wal.go] and [wal_writer.go] *)

Section wal.
Context {env : Env} {ids : GobTypeIds} {sorter : SortSlice}.
Context {H : Type} {cht : CommandHashTable H}.

Definition apply_logged (record : Log) (t : H) : logged (error * H) :=
  if CommandID record =? 1 then
    match Arguments record with
    | k :: v :: _ => mret (None, cht_Set k v t)
    | _ => log_debug (str "invalid set command in wal log") [(str "record", LRecord record)];;
           mret (Some ErrApplyRecord, t)
    end
  else if CommandID record =? 2 then
    match Arguments record with
    | k :: _ => mret (None, cht_Del k t)
    | _ => log_debug (str "invalid del command in wal log") [(str "record", LRecord record)];;
           mret (Some ErrApplyRecord, t)
    end
  else mret (None, t).

(** The writer logs nothing of its own. *)
Definition WalWriter_Write_logged (requests : list WriteRequest) (s : Sys H)
  : logged (error * list WriteRequest * Sys H) :=
  let '(enc, err) := encode_logs (log <$> requests) NewEncoder in
  match err with
  | Some e =>
      '(rs, h) ← silently (notification (Some e) requests (heap s));
      mret (Some e, rs, {| wal := wal s; heap := h; os := os s |})
  | None =>
      '(err, seg, w) ← Segment_Write_logged (segment (wal s)) (out enc) (os s);
      '(rs, h) ← silently (notification err requests (heap s));
      mret (err, rs, {| wal := set_segment (wal s) seg; heap := h; os := w |})
  end.

End wal.

(** ** The moves of the flusher *)

Section moves.
Context {env : Env} {ids : GobTypeIds} {sorter : SortSlice}.

(** [flushBatch] up to the sort; [Start] logs the error it returns. *)
Definition flush_begin_logged (b : list WriteRequest) (k : place) (s : RT) : logged RT :=
  if 0 <? zlen b then
    '(err, b', x) ← WalWriter_Write_logged b (sys s);
    match err with
    | Some e =>
        log_error (str "failed to flush wal batch") [(str "error", LErrorText e)];;
        mret (set_flusher (set_sys s x) (At k))
    | None => mret (set_flusher (set_sys s x) (Applying (log <$> sort_slice (λ r, LSN (log r)) b') k))
    end
  else mret (set_flusher s (At k)).

Definition flusher_receive_logged (k : place) (s : RT) : option (logged RT) :=
  match batches (wal (sys s)) with
  | [] => None
  | b :: q => Some (flush_begin_logged b k (set_sys s (with_wal (sys s) (set_batches (wal (sys s)) q))))
  end.

Definition flusher_seal_logged (k : place) (s : RT) : logged RT :=
  let '(b, w) := SealBatch (wal (sys s)) in
  flush_begin_logged b k (set_sys s (with_wal (sys s) w)).

(** One turn of the loop of [flushBatch]. *)
Definition flusher_apply_logged (l : Log) (rest : list Log) (k : place) (s : RT) : logged RT :=
  let w := wal (sys s) in
  '(err, t) ← apply_logged l (commandHashTable w);
  let s' := set_flusher (set_sys s (with_wal (sys s) (set_table w t))) (Applying rest k) in
  match err with
  | Some e =>
      log_error (str "failed to apply wal record") [(str "lsn", LInt64 (LSN l)); (str "error", LErrorText e)];;
      mret s'
  | None => mret s'
  end.

Definition finished_logged (o : logged RT) : option (RT * list Entry) :=
  match o with Done (s, es) => Some (s, es) | _ => None end.

(** A move of the runtime, with what the flusher logs; clients log nothing
    inside [push]. *)
Definition act_logged (a : action) (s : RT) : option (RT * list Entry) :=
  match a, flusher s with
  | AFlusher, At Selecting =>
      match flusher_receive_logged Loop s with Some o => finished_logged o | None => None end
  | AFlusher, At Draining =>
      match flusher_receive_logged Draining s with
      | Some o => finished_logged o
      | None => finished_logged (flusher_seal_logged Exited s)
      end
  | AFlusher, Applying (l :: rest) k => finished_logged (flusher_apply_logged l rest k s)
  | ATick, At Selecting => finished_logged (flusher_seal_logged Loop s)
  | _, _ => match act a s with Some s' => Some (s', []) | None => None end
  end.

End moves.

(** ** Specification *)

(** The records a logger at Info shows. *)
Definition audit (es : list Entry) : list Entry := filter (λ e, level_info ≤ e_level e) es.

Definition flush_failed (e : gerr) : Entry :=
  {| e_level := level_error; e_message := str "failed to flush wal batch"; e_attrs := [(str "error", LErrorText e)] |}.

(** ** Lemmas: erasing the records *)

(** Erasing both sides of a bind at a time. *)
Lemma erase_bind_eq {A B} (f : A → logged B) (g : A → outcome B) (m : logged A) (m' : outcome A) :
  erase m = m' → (∀ a, erase (f a) = g a) → erase (m ≫= f) = obind m' g.
Proof. intros <- Hf. rewrite erase_bind. destruct (erase m); simpl; [by rewrite Hf|done..]. Qed.

(** A record in front of a computation. *)
Lemma erase_log_then {A} level msg attrs (m : logged A) : erase (log_at level msg attrs;; m) = erase m.
Proof. rewrite erase_bind. done. Qed.

Lemma obind_Done {A B} (a : A) (f : A → outcome B) : obind (Done a) f = f a.
Proof. done. Qed.

Section erase_segment.
Context {env : Env}.

Lemma Segment_CreateFile_erase seg w : erase (Segment_CreateFile_logged seg w) = Done (Segment_CreateFile seg w).
Proof. unfold Segment_CreateFile_logged, Segment_CreateFile. destruct (CreateFile _ _ _) as [[h|e] w1]; done. Qed.

Lemma write_current_erase seg data w : erase (write_current_logged seg data w) = Done (write_current seg data w).
Proof.
  unfold write_current_logged, write_current. destruct (file seg); [|done].
  by destruct (WriteFile _ _ _) as [[size|e] w1].
Qed.

Lemma getNextSegment_erase seg w : erase (getNextSegment_logged seg w) = Done (getNextSegment seg w).
Proof.
  unfold getNextSegment_logged, getNextSegment.
  erewrite (erase_bind_eq _ (λ w1, Done (let '(r, w2) := CreateFile (directory seg) (maskName seg) w1 in
    match r with Err e => (Some e, seg, w2) | Ok h => (None, set_file seg (Some h) 0, w2) end)) _
    (Done (match file seg with Some h => (os_close h w).2 | None => w end))); [done| |].
  - destruct (file seg) as [h|]; [|done]. by destruct (os_close h w) as [[e|] w1].
  - intros w1. by destruct (CreateFile _ _ w1) as [[h|e] w2].
Qed.

Lemma rotate_and_write_erase seg data w :
  erase (rotate_and_write_logged seg data w) = Done (rotate_and_write seg data w).
Proof.
  unfold rotate_and_write_logged, rotate_and_write. destruct (must_rotate seg data); [|apply write_current_erase].
  rewrite erase_bind, getNextSegment_erase, obind_Done.
  destruct (getNextSegment seg w) as [[[e|] seg1] w1]; [done|apply write_current_erase].
Qed.

Lemma Segment_Write_erase seg data w : erase (Segment_Write_logged seg data w) = Done (Segment_Write seg data w).
Proof.
  unfold Segment_Write_logged, Segment_Write. destruct (file seg); [apply rotate_and_write_erase|].
  rewrite erase_bind, Segment_CreateFile_erase, obind_Done.
  destruct (Segment_CreateFile seg w) as [[[h|e] seg1] w1]; [apply rotate_and_write_erase|done].
Qed.

End erase_segment.

Section erase_wal.
Context {env : Env} {ids : GobTypeIds} {sorter : SortSlice}.
Context {H : Type} {cht : CommandHashTable H}.

Lemma apply_erase l (t : H) : erase (apply_logged l t) = Done (apply l t).
Proof.
  unfold apply_logged, apply. destruct (CommandID l =? 1).
  { by destruct (Arguments l) as [|k [|v ?]]. }
  destruct (CommandID l =? 2); [by destruct (Arguments l)|done].
Qed.

Lemma WalWriter_Write_erase rs (s : Sys H) : erase (WalWriter_Write_logged rs s) = WalWriter_Write rs s.
Proof.
  unfold WalWriter_Write_logged, WalWriter_Write. destruct (encode_logs _ _) as [enc [e|]].
  - apply erase_bind_eq; [apply erase_silently|]. by intros [rs' h].
  - rewrite erase_bind, Segment_Write_erase, obind_Done. destruct (Segment_Write _ _ _) as [[err seg] w].
    apply erase_bind_eq; [apply erase_silently|]. by intros [rs' h].
Qed.

End erase_wal.

Section erase_moves.
Context {env : Env} {ids : GobTypeIds} {sorter : SortSlice}.

Lemma flush_begin_erase b k s : erase (flush_begin_logged b k s) = flush_begin b k s.
Proof.
  unfold flush_begin_logged, flush_begin. destruct (0 <? zlen b); [|done].
  apply erase_bind_eq; [apply WalWriter_Write_erase|]. by intros [[[e|] b'] x].
Qed.

Lemma flusher_seal_erase k s : erase (flusher_seal_logged k s) = flusher_seal k s.
Proof. apply flush_begin_erase. Qed.

Lemma flusher_receive_erase k s : erase <$> flusher_receive_logged k s = flusher_receive k s.
Proof.
  unfold flusher_receive_logged, flusher_receive. destruct (batches _); [done|]. simpl. by rewrite flush_begin_erase.
Qed.

Lemma flusher_apply_erase l rest k s : erase (flusher_apply_logged l rest k s) = Done (flusher_apply l rest k s).
Proof.
  unfold flusher_apply_logged, flusher_apply. rewrite erase_bind, apply_erase, obind_Done.
  by destruct (apply l _) as [[e|] t].
Qed.

Lemma finished_erase o : fst <$> finished_logged o = finished (erase o).
Proof. by destruct o as [[s es]| |]. Qed.

(** The moves are those of the runtime. *)
Lemma act_erase a s : fst <$> act_logged a s = act a s.
Proof.
  unfold act_logged. destruct a; try (by destruct (flusher s) as [[]|[]], (act _ s)).
  - destruct (flusher s) as [[]|[|l rest] k] eqn:Hf; try (by destruct (act _ s)); cbn [act]; rewrite Hf.
    + rewrite <- flusher_receive_erase. destruct (flusher_receive_logged Loop s); [apply finished_erase|done].
    + rewrite <- flusher_receive_erase. destruct (flusher_receive_logged Draining s); [apply finished_erase|].
      rewrite finished_erase. cbn [fmap option_fmap option_map]. by rewrite flusher_seal_erase.
    + by rewrite finished_erase, flusher_apply_erase.
  - destruct (flusher s) as [[]|] eqn:Hf; try (by destruct (act _ s)). cbn [act]. rewrite Hf.
    by rewrite finished_erase, flusher_seal_erase.
Qed.

Lemma act_logged_act a s s' es : act_logged a s = Some (s', es) → act a s = Some s'.
Proof. intros E. by rewrite <- act_erase, E. Qed.

End erase_moves.

(** ** Lemmas: computations that log below Info *)

Definition debug_only {A} (m : logged A) : Prop := ∀ a es, m = Done (a, es) → audit es = [].

Lemma audit_app es1 es2 : audit (es1 ++ es2) = audit es1 ++ audit es2.
Proof. apply filter_app. Qed.

Lemma debug_only_ret {A} (a : A) : debug_only (mret a).
Proof. by intros a' es [= <- <-]. Qed.

Lemma debug_only_bind {A B} (f : A → logged B) (m : logged A) :
  debug_only m → (∀ a, debug_only (f a)) → debug_only (m ≫= f).
Proof.
  intros Hm Hf b es E. destruct m as [[a es1]| |] eqn:Em; simpl in E; try done.
  destruct (f a) as [[b' es2]| |] eqn:Ef; simpl in E; try done. simplify_eq.
  rewrite audit_app, (Hm a es1), (Hf a b es2); done.
Qed.

Lemma debug_only_silently {A} (m : outcome A) : debug_only (silently m).
Proof. intros a es E. destruct m; simpl in E; by simplify_eq. Qed.

Lemma debug_only_debug msg attrs : debug_only (log_debug msg attrs).
Proof. by intros a es [= <- <-]. Qed.

Create HintDb audit.
#[export] Hint Resolve debug_only_ret debug_only_silently debug_only_debug : audit.

Ltac debug_only := repeat first [progress eauto with audit | apply debug_only_bind; intros | case_match | intros].

Section debug_segment.
Context {env : Env}.

Lemma write_current_debug seg data w : debug_only (write_current_logged seg data w).
Proof. unfold write_current_logged. debug_only. Qed.

Lemma getNextSegment_debug seg w : debug_only (getNextSegment_logged seg w).
Proof. unfold getNextSegment_logged. debug_only. Qed.

Lemma Segment_CreateFile_debug seg w : debug_only (Segment_CreateFile_logged seg w).
Proof. unfold Segment_CreateFile_logged. debug_only. Qed.

#[local] Hint Resolve write_current_debug getNextSegment_debug Segment_CreateFile_debug : audit.

Lemma rotate_and_write_debug seg data w : debug_only (rotate_and_write_logged seg data w).
Proof. unfold rotate_and_write_logged. debug_only. Qed.

#[local] Hint Resolve rotate_and_write_debug : audit.

Lemma Segment_Write_debug seg data w : debug_only (Segment_Write_logged seg data w).
Proof. unfold Segment_Write_logged. debug_only. Qed.

End debug_segment.

#[export] Hint Resolve Segment_Write_debug : audit.

Lemma WalWriter_Write_debug {env : Env} {ids : GobTypeIds} {H} rs (s : Sys H) :
  debug_only (WalWriter_Write_logged rs s).
Proof. unfold WalWriter_Write_logged. debug_only. Qed.

(** What is known of a function holds for its logged version. *)
Lemma erase_Done {A} (m : logged A) (a : A) : erase m = Done a → ∃ es, m = Done (a, es).
Proof. destruct m as [[a' es]| |]; simpl; intros E; simplify_eq; eauto. Qed.

(** ** Lemmas: the errors of a write *)

Lemma CreateFile_error {env : Env} dir mask w e w' : CreateFile dir mask w = (Err e, w') → ∃ o, e = EOS o.
Proof. unfold CreateFile, os_create, new_handle. simpl. intros E. repeat case_match; simplify_eq/=; eauto. Qed.

(** No write of a segment ends with [ErrKeyNotFound]. *)
Lemma Segment_Write_error {env : Env} seg data w : (Segment_Write seg data w).1.1 ≠ Some ErrKeyNotFound.
Proof.
  assert (∀ seg w, (write_current seg data w).1.1 ≠ Some ErrKeyNotFound) as Hw.
  { intros seg0 w0. unfold write_current. by repeat case_match. }
  assert (∀ seg w, (rotate_and_write seg data w).1.1 ≠ Some ErrKeyNotFound) as Hr.
  { intros seg0 w0. unfold rotate_and_write, getNextSegment. destruct (must_rotate _ _); [|done].
    set (w1 := match file seg0 with Some h => (os_close h w0).2 | None => w0 end).
    destruct (CreateFile _ _ w1) as [[h|e] w2] eqn:E; [done|]. apply CreateFile_error in E as [o ->]. done. }
  unfold Segment_Write, Segment_CreateFile. destruct (file seg); [done|].
  by destruct (CreateFile _ _ w) as [[h|e] w1].
Qed.

Lemma encode_logs_error {ids : GobTypeIds} ls : ∀ enc, (encode_logs ls enc).2 ≠ Some ErrKeyNotFound.
Proof.
  induction ls as [|l ls IH]; intros enc; [done|]. simpl. unfold EncodeTo.
  destruct (tooBig <? _); [done|]. simpl. apply IH.
Qed.

Section wal_audit.
Context {env : Env} {ids : GobTypeIds} {sorter : SortSlice}.

Lemma WalWriter_Write_error {H} rs (s : Sys H) e rs' s' :
  WalWriter_Write rs s = Done (Some e, rs', s') → e ≠ ErrKeyNotFound.
Proof.
  unfold WalWriter_Write. pose proof (encode_logs_error (log <$> rs) NewEncoder) as He.
  destruct (encode_logs _ _) as [enc [e'|]]; simpl in He.
  - destruct (notification _ _ _) as [[? ?]| |]; simpl; intros E; simplify_eq. congruence.
  - pose proof (Segment_Write_error (segment (wal s)) (out enc) (os s)) as Hw.
    destruct (Segment_Write _ _ _) as [[err seg] w]. simpl in Hw.
    destruct (notification _ _ _) as [[? ?]| |]; simpl; intros E; simplify_eq. congruence.
Qed.

(** Arguments as [Set] and [Del] push them. *)
Definition call_ok (commandID : Z) (args : list bytes) : Prop :=
  commandID = CommandSetID ∧ length args = 2%nat ∨ commandID = CommandDelID ∧ length args = 1%nat.

Lemma apply_logged_ok {H} {cht : CommandHashTable H} l (t : H) : call_ok (CommandID l) (Arguments l) →
  apply_logged l t = Done ((None, (apply l t).2), []).
Proof.
  intros Hc. destruct l as [lsn cid args]. simpl in Hc. unfold apply_logged, apply. simpl.
  destruct Hc as [[-> Hl]|[-> Hl]]; destruct args as [|k [|v [|]]]; done.
Qed.

End wal_audit.
