(* ===== verification/Engine.v ===== *)
(** * The storage engine

    Models [in_memory/engine.go]: log sequence numbers for writes, which go
    through the write side, and reads straight from the hash table. The write
    side is an interface ([CommandEngine]) that the log implements in
    [Push.v]. *)

From S2P Require Import Prelude GoText Compute Config Gob WalLog OS FileSystem Concurrency HashTable Wal WalRuntime.

(** ** Interfaces *)

(** [CommandEngine]: the write-side dependency of the engine. *)
Class CommandEngine (S : Type) := {
  ce_Set : Ctx → bytes → bytes → S → outcome (error * S);
  ce_Del : Ctx → bytes → S → outcome (error * S)
}.

(** [QueryEngine]: the hash table, which the write side shares. *)
Class QueryEngine (S : Type) := { hashTable : S → HashTable }.

(** ** The contract of a key-value store

    What each layer promises the one above it, over an abstraction of its
    state as a map: an operation terminates without panicking, a write that
    reports an error changed nothing and one that reports success did exactly
    what it says, and a read returns the value or [ErrKeyNotFound]. *)
Record kv_laws {S : Type}
  (set : Ctx → bytes → bytes → S → outcome (error * S))
  (del : Ctx → bytes → S → outcome (error * S))
  (get : Ctx → bytes → S → bytes * error)
  (inv : S → Prop) (abs : S → gmap bytes bytes) : Prop := {
  law_set ctx k v s : inv s → ∃ err s', set ctx k v s = Done (err, s') ∧ inv s' ∧
    abs s' = match err with None => <[k := v]> (abs s) | Some _ => abs s end;
  law_del ctx k s : inv s → ∃ err s', del ctx k s = Done (err, s') ∧ inv s' ∧
    abs s' = match err with None => delete k (abs s) | Some _ => abs s end;
  law_get ctx k s : inv s → get ctx k s =
    match abs s !! k with Some v => (v, None) | None => ([], Some ErrKeyNotFound) end
}.

(** A store whose reads may lag behind its writes: [abs] is the map with every
    write that was answered, [seen] the map that reads are answered from. The
    answer of a write comes at the earliest when all writes before it are seen,
    and possibly before it is seen itself. *)
Definition lagged {S : Type} (abs seen : S → gmap bytes bytes) (f : gmap bytes bytes → gmap bytes bytes)
  (err : error) (s s' : S) : Prop :=
  match err with
  | None => abs s' = f (abs s) ∧ (seen s' = abs s ∨ seen s' = abs s')
  | Some _ => abs s' = abs s ∧ (seen s' = seen s ∨ seen s' = abs s)
  end.

Record lagging_laws {S : Type}
  (set : Ctx → bytes → bytes → S → outcome (error * S))
  (del : Ctx → bytes → S → outcome (error * S))
  (get : Ctx → bytes → S → bytes * error)
  (inv : S → Prop) (abs seen : S → gmap bytes bytes) : Prop := {
  lag_set ctx k v s : inv s → ∃ err s', set ctx k v s = Done (err, s') ∧ inv s' ∧
    lagged abs seen (insert k v) err s s';
  lag_del ctx k s : inv s → ∃ err s', del ctx k s = Done (err, s') ∧ inv s' ∧
    lagged abs seen (delete k) err s s';
  lag_get ctx k s : inv s → get ctx k s =
    match seen s !! k with Some v => (v, None) | None => ([], Some ErrKeyNotFound) end
}.

(** ** The engine *)

Record Engine (S : Type) := { currentLSN : Z; commandEngine : S }.
Arguments currentLSN {S} _.
Arguments commandEngine {S} _.
Arguments Build_Engine {S} _ _.

Section engine.
Context {S : Type} {ce : CommandEngine S} {qe : QueryEngine S}.

(** [NewEngine]: nil dependencies are [None]; [hashTable] is only tested, the
    table itself is shared with the log and lives in its state. *)
Definition NewEngine (logger : option Logger) (w : option S) (table : option HashTable) : res (Engine S) :=
  match logger with
  | None => Err ErrEngineInvalidLogger
  | Some _ =>
      match w with
      | None => Err ErrCreateWal
      | Some w =>
          match table with
          | None => Err ErrCreateWal
          | Some _ => Ok {| currentLSN := NewIDGenerator 0; commandEngine := w |}
          end
      end
  end.

Definition Engine_Set (ctx : Ctx) (key value : bytes) (e : Engine S) : outcome (error * Engine S) :=
  let '(txID, c) := Generate (currentLSN e) in
  if txID =? 0 then Done (Some ErrFailedGenerateLSN, {| currentLSN := c; commandEngine := commandEngine e |})
  else
    let ctxCommand := WithValue ctx TxIDKey (CString (FormatInt txID)) in
    obind (ce_Set ctxCommand key value (commandEngine e)) (λ '(err, s),
    Done (err, {| currentLSN := c; commandEngine := s |})).

Definition Engine_Del (ctx : Ctx) (key : bytes) (e : Engine S) : outcome (error * Engine S) :=
  let '(txID, c) := Generate (currentLSN e) in
  if txID =? 0 then Done (Some ErrFailedGenerateLSN, {| currentLSN := c; commandEngine := commandEngine e |})
  else
    let ctxCommand := WithValue ctx TxIDKey (CString (FormatInt txID)) in
    obind (ce_Del ctxCommand key (commandEngine e)) (λ '(err, s),
    Done (err, {| currentLSN := c; commandEngine := s |})).

Definition Engine_Get (ctx : Ctx) (key : bytes) (e : Engine S) : bytes * error :=
  let '(result, ok) := HashTable_Get key (hashTable (commandEngine e)) in
  if ok : bool then (result, None) else ([], Some ErrKeyNotFound).

(** The table read through the engine, with [get] on the write side's state. *)
Definition table_get (ctx : Ctx) (key : bytes) (s : S) : bytes * error :=
  let '(result, ok) := HashTable_Get key (hashTable s) in
  if ok : bool then (result, None) else ([], Some ErrKeyNotFound).

End engine.

(** ** Lemmas *)

Lemma table_get_spec {S : Type} {qe : QueryEngine S} ctx k (s : S) : table_get ctx k s =
  match data (hashTable s) !! k with Some v => (v, None) | None => ([], Some ErrKeyNotFound) end.
Proof. unfold table_get, HashTable_Get. by destruct (_ !! k). Qed.

Lemma kv_lagging {S : Type} set del get (inv : S → Prop) abs :
  kv_laws set del get inv abs → lagging_laws set del get inv abs abs.
Proof.
  intros [Hset Hdel Hget]. split; [| |done].
  - intros ctx k v s Hs. destruct (Hset ctx k v s Hs) as (err & s' & E & Hi & Ha). exists err, s'.
    split; [done|]. split; [done|]. destruct err; (split; [done|]); auto.
  - intros ctx k s Hs. destruct (Hdel ctx k s Hs) as (err & s' & E & Hi & Ha). exists err, s'.
    split; [done|]. split; [done|]. destruct err; (split; [done|]); auto.
Qed.

(** The engine keeps the contract of its write side. *)
Lemma engine_lagging {S : Type} {ce : CommandEngine S} {qe : QueryEngine S}
  (inv : S → Prop) (abs seen : S → gmap bytes bytes) :
  lagging_laws ce_Set ce_Del table_get inv abs seen →
  lagging_laws Engine_Set Engine_Del Engine_Get
    (λ e, inv (commandEngine e)) (λ e, abs (commandEngine e)) (λ e, seen (commandEngine e)).
Proof.
  intros [Hset Hdel Hget]. split.
  - intros ctx k v e He. unfold Engine_Set. destruct (Generate (currentLSN e)) as [txID c].
    destruct (txID =? 0); [eexists _, _; split; [done|]; split; [done|]; split; auto|].
    destruct (Hset (WithValue ctx TxIDKey (CString (FormatInt txID))) k v _ He) as (err & s' & -> & Hi & Ha).
    by eexists _, _.
  - intros ctx k e He. unfold Engine_Del. destruct (Generate (currentLSN e)) as [txID c].
    destruct (txID =? 0); [eexists _, _; split; [done|]; split; [done|]; split; auto|].
    destruct (Hdel (WithValue ctx TxIDKey (CString (FormatInt txID))) k _ He) as (err & s' & -> & Hi & Ha).
    by eexists _, _.
  - intros ctx k e He. rewrite <- (Hget ctx k _ He). done.
Qed.

(** Every write of the engine reaches the log with a fresh sequence number:
    from a counter below the maximum the engine forwards the write, in a
    context from which the log reads back exactly the next number, and never
    refuses it for want of a number. *)
Theorem engine_forwards_lsn {S : Type} {ce : CommandEngine S} (ctx : Ctx) (k v : bytes) (e : Engine S)
  (Hlsn : 0 ≤ currentLSN e < MaxInt64) :
  let n := currentLSN e + 1 in
  let ctx' := WithValue ctx TxIDKey (CString (FormatInt n)) in
  GetTxIDFromContext ctx' = n ∧
  Engine_Set ctx k v e =
    obind (ce_Set ctx' k v (commandEngine e)) (λ '(err, s), Done (err, {| currentLSN := n; commandEngine := s |})) ∧
  Engine_Del ctx k e =
    obind (ce_Del ctx' k (commandEngine e)) (λ '(err, s), Done (err, {| currentLSN := n; commandEngine := s |})).
Proof.
  intros n ctx'. assert (Generate (currentLSN e) = (n, n)) as Hg.
  { rewrite Generate_spec by lia. destruct (_ =? _) eqn:E; zbool; [lia|done]. }
  assert ((n =? 0) = false) as Hn by (apply Z.eqb_neq; lia).
  split; [|unfold Engine_Set, Engine_Del; by rewrite Hg, Hn].
  unfold GetTxIDFromContext, ctx'. simpl.
  rewrite ParseInt_FormatInt; [done|]. unfold in_int64, MaxInt64 in *. lia.
Qed.

Lemma engine_forwards_lsn_witness :
  GetTxIDFromContext (WithValue [] TxIDKey (CString (FormatInt 42))) = 42.
Proof.
  apply (@engine_forwards_lsn (gmap bytes bytes)
    {| ce_Set _ k v m := Done (None, <[k := v]> m); ce_Del _ k m := Done (None, delete k m) |}
    [] (str "k") (str "v") {| currentLSN := 41; commandEngine := ∅ |}).
  split; vm_compute; [discriminate|reflexivity].
Defined.
