(* ===== verification/Push.v ===== *)
(** * The log as one client uses it

    [Wal.push] ([wal.go]), [Wal.Set] and [Wal.Del], beside the other goroutines.
    [push] itself neither flushes nor applies anything: it adds its request to
    the active batch, sends the batch if it sealed it, and waits for the
    answer. What the other goroutines do in the meantime is a schedule, which
    the state carries: at each of its operations on a channel the client lets
    the others make the moves the schedule has for this point, any moves of
    the runtime in any order and number. Only while the client is blocked and
    its schedule says nothing more does the flusher go on by itself; where it
    cannot, because it has returned, the client is blocked for good. *)

From S2P Require Import Prelude GoText Slog Compute Config Gob WalLog OS FileSystem Concurrency LogRecords HashTable Wal WalRuntime FlusherLog Engine.

(** ** The client's surroundings *)

(** The runtime, the records the flusher has logged, and the moves of the other
    goroutines before each of the client's next operations on a channel. *)
Record Host := { host : RT; flusher_log : list Entry; turns : list (list action) }.

Definition with_sys (h : Host) (x : Sys HashTable) : Host :=
  {| host := set_sys (host h) x; flusher_log := flusher_log h; turns := turns h |}.

Section push.
Context {env : Env} {ids : GobTypeIds} {sorter : SortSlice}.

(** A move of another goroutine; nothing happens where it is not possible. *)
Definition move (h : Host) (a : action) : Host :=
  match act_logged a (host h) with
  | Some (s, es) => {| host := s; flusher_log := flusher_log h ++ es; turns := turns h |}
  | None => h
  end.

(** The others' turn. *)
Definition yield (h : Host) : Host :=
  match turns h with
  | [] => h
  | moves :: rest => foldl move {| host := host h; flusher_log := flusher_log h; turns := rest |} moves
  end.

(** The flusher by itself: its move, or the next tick when it waits. *)
Definition flusher_turn (h : Host) : Host :=
  match act_logged AFlusher (host h) with Some _ => move h AFlusher | None => move h ATick end.

(** A blocked client, while the flusher goes on. *)
Fixpoint await (fuel : nat) (ready : RT → bool) (h : Host) : outcome Host :=
  if ready (host h) then Done h
  else match fuel with O => Blocked | S n => await n ready (flusher_turn h) end.

(** More moves than the flusher has left before it has flushed all there is. *)
Definition patience (s : RT) : nat :=
  length (rest_of (flusher s)) + sum_list_with (λ b, length b + 3)%nat (batches (wal (sys s))) + 4.

Definition block (ready : RT → bool) (h : Host) : outcome Host := await (patience (host h)) ready h.

(** Room in the channel of batches, and a result in the promise's channel. *)
Definition has_room (s : RT) : bool := bool_decide (length (batches (wal (sys s))) < batches_cap)%nat.

Definition has_result (r : WriteRequest) (s : RT) : bool :=
  match Future_Get None (FutureResponse r) (heap (sys s)) with Blocked => false | _ => true end.

Definition send (sealed : list WriteRequest) (h : Host) : Host :=
  let x := sys (host h) in with_sys h (with_wal x (set_batches (wal x) (batches (wal x) ++ [sealed]))).

(** ** [push] *)

Definition push (ctx : Ctx) (commandID : Z) (args : list bytes) (h : Host) : outcome (error * Host) :=
  let '(record, sealedBatch, x) := push_start ctx commandID args (sys (host h)) in
  let h1 := with_sys h x in
  obind (match sealedBatch with
         | [] => Done h1
         | _ :: _ => obind (block has_room (yield h1)) (λ h2, Done (send sealedBatch h2))
         end) (λ h3,
  obind (block (has_result record) (yield h3)) (λ h4,
  let y := sys (host h4) in
  obind (Future_Get None (FutureResponse record) (heap y)) (λ '(err, channels),
  Done (err, with_sys h4 {| wal := wal y; heap := channels; os := os y |})))).

Definition Wal_Set (ctx : Ctx) (key value : bytes) : Host → outcome (error * Host) :=
  push ctx CommandSetID [key; value].

Definition Wal_Del (ctx : Ctx) (key : bytes) : Host → outcome (error * Host) :=
  push ctx CommandDelID [key].

#[export] Instance wal_command_engine : CommandEngine Host := {| ce_Set := Wal_Set; ce_Del := Wal_Del |}.

(** The hash table is shared with the flusher. *)
#[export] Instance wal_query_engine : QueryEngine Host := {| hashTable := λ h, commandHashTable (wal (sys (host h))) |}.

(** ** Specification

    The client is the only one, and the flusher runs. *)

Definition readable (s : RT) : gmap bytes bytes := data (commandHashTable (wal (sys s))).

(** The map once the flusher has applied the records of its last batch. *)
Definition eventual (s : RT) : gmap bytes bytes := replay (rest_of (flusher s)) (readable s).

(** The flusher is in its loops and the context is not cancelled. *)
Definition on_duty (s : RT) : Prop :=
  cancelled s = false ∧ match flusher s with At k => k = Loop ∨ k = Selecting | Applying _ k => k = Loop end.

(** A runtime whose active batch is [b] and whose channel holds [q], with at
    most one record still to apply. *)
Record flight (b : list WriteRequest) (q : list (list WriteRequest)) (m : gmap bytes bytes) (s : RT) : Prop := {
  fl_batch : batch (wal (sys s)) = b;
  fl_queue : batches (wal (sys s)) = q;
  fl_handles : handles_ok (os (sys s));
  fl_duty : on_duty s;
  fl_rest : rest_of (flusher s) = [] ∨
    ∃ l, rest_of (flusher s) = [l] ∧ call_ok (CommandID l) (Arguments l);
  fl_eventual : eventual s = m
}.

Definition own_move (a : action) : Prop := a = AFlusher ∨ a = ATick.

#[global] Instance own_move_dec a : Decision (own_move a).
Proof. destruct a; solve [left; first [by left|by right]|right; by intros [|]]. Defined.

(** Between the calls of the only client. *)
Definition between_calls (h : Host) : Prop :=
  flight [] [] (eventual (host h)) (host h) ∧ Forall (Forall own_move) (turns h).

Definition settled_map (err : error) (l : Log) (m : gmap bytes bytes) : gmap bytes bytes :=
  match err with None => replay [l] m | Some _ => m end.

Definition failures (err : error) : list Entry := match err with Some e => [flush_failed e] | None => [] end.

(** ** Lemmas: one move of the flusher *)

Lemma sort_slice_singleton {A} (key : A → Z) x : sort_slice key [x] = [x].
Proof. apply Permutation_singleton_r. apply sort_slice_perm. Qed.

(** The request [r] was flushed, with the result [err]. *)
Record taken (err : error) (r : WriteRequest) (m : gmap bytes bytes) (s' : RT) (es : list Entry) : Prop := {
  tk_flight : flight [] [] (settled_map err (log r) m) s';
  tk_answer : answered err (heap (sys s')) r;
  tk_visible : readable s' = m;
  tk_log : audit es = failures err;
  tk_error : err ≠ Some ErrKeyNotFound
}.

Definition fresh_call (r : WriteRequest) (s : RT) : Prop :=
  fresh_requests [r] (heap (sys s)) ∧ call_ok (CommandID (log r)) (Arguments (log r)).

Lemma flush_one r s m : batch (wal (sys s)) = [] → batches (wal (sys s)) = [] → fresh_call r s →
  handles_ok (os (sys s)) → readable s = m → cancelled s = false →
  ∃ err s' es, flush_begin_logged [r] Loop s = Done (s', es) ∧ taken err r m s' es.
Proof.
  intros Hb Hq [Hf Hcall] Hok Hv Hc. unfold flush_begin_logged. change (0 <? zlen [r]) with true. cbn match.
  destruct (WalWriter_Write_general [r] (sys s) Hf Hok) as (err & rs' & hp & seg & w & Ew & Hlog & _ & Hans & _ & Hev & _).
  assert (∃ r', rs' = [r'] ∧ log r' = log r) as (r' & -> & Hlr).
  { destruct rs' as [|r' [|]]; try discriminate. injection Hlog as Hlr. eauto. }
  apply Forall_inv in Hans.
  pose proof (WalWriter_Write_erase [r] (sys s)) as Her. rewrite Ew in Her.
  apply erase_Done in Her as [es1 Ees]. pose proof (WalWriter_Write_debug _ _ _ _ Ees) as Hes. rewrite Ees.
  assert (handles_ok w) as Hokw by by apply Hev.
  exists err. destruct err as [e|]; cbn.
  - eexists _, _. split; [done|]. split; try done.
    + split; try done; [split; [done|by left]|by left].
    + by rewrite audit_app, Hes.
    + intros [= ->]. by apply (WalWriter_Write_error _ _ _ _ _ Ew).
  - rewrite sort_slice_singleton. cbn. eexists _, _. split; [done|]. split; try done; [|by rewrite audit_app, Hes].
    split; try done; [right; exists (log r); by rewrite Hlr|].
    unfold eventual, readable. cbn [rest_of flusher sys set_flusher set_sys wal set_segment]. rewrite Hlr.
    by rewrite <- Hv.
Qed.

(** What a move does: the flusher goes its way, or takes the request. *)
Inductive moved (r : WriteRequest) (b : list WriteRequest) (q : list (list WriteRequest)) (m : gmap bytes bytes)
  (s s' : RT) (es : list Entry) : Prop :=
  | moved_on : flight b q m s' → heap (sys s') = heap (sys s) → audit es = [] →
      readable s' = readable s ∨ readable s' = m → moved r b q m s s' es
  | moved_flush err : b ++ mjoin q = [r] → taken err r m s' es → moved r b q m s s' es.

(** The request is with the client, in the active batch or in the channel. *)
Definition at_hand (r : WriteRequest) (b : list WriteRequest) (q : list (list WriteRequest)) : Prop :=
  b = [] ∧ q = [] ∨ b = [r] ∧ q = [] ∨ b = [] ∧ q = [[r]].

Lemma finished_logged_Done o s es : finished_logged o = Some (s, es) → o = Done (s, es).
Proof. destruct o as [[? ?]| |]; simpl; congruence. Qed.

(** The flusher's moves outside a flush. *)
Lemma moved_place r b q m s k : flight b q m s → rest_of (flusher s) = [] → k = Loop ∨ k = Selecting →
  moved r b q m s (set_flusher s (At k)) [].
Proof.
  intros [Hb Hq Hok [Hc Hd] _ Hm] Hr Hk. apply moved_on; [|done|done|by left]. split; try done; [by left|].
  unfold eventual in *. by rewrite Hr in Hm.
Qed.

Lemma apply_table l (t : HashTable) : data (apply l t).2 = replay [l] (data t).
Proof. rewrite <- apply_all_replay. done. Qed.

Lemma moved_apply r b q m s l : flight b q m s → flusher s = Applying [l] Loop →
  ∃ s', flusher_apply_logged l [] Loop s = Done (s', []) ∧ flusher s' = Applying [] Loop ∧
    heap (sys s') = heap (sys s) ∧ moved r b q m s s' [].
Proof.
  intros [Hb Hq Hok [Hc _] Hrest Hm] Hf. rewrite Hf in Hrest. destruct Hrest as [|(? & [= <-] & Hl)]; [done|].
  unfold flusher_apply_logged. rewrite apply_logged_ok by done. eexists. do 3 (split; [done|]).
  unfold eventual, readable in Hm. rewrite Hf in Hm. cbn [rest_of] in Hm. rewrite <- apply_table in Hm.
  apply moved_on; [|done|done|by right]. split; try done; by left.
Qed.

Section selecting.
Context (r : WriteRequest) (m : gmap bytes bytes) (s : RT).
Context (Hs : flusher s = At Selecting).

(** A tick that finds nothing in the active batch. *)
Lemma tick_nothing q : flight [] q m s →
  ∃ s', flusher_seal_logged Loop s = Done (s', []) ∧ moved r [] q m s s' [].
Proof.
  intros [Hb Hq Hok [Hc _] _ Hm]. unfold eventual in Hm. rewrite Hs in Hm.
  unfold flusher_seal_logged. cbn [SealBatch WithLock]. rewrite Hb. unfold flush_begin_logged.
  change (0 <? zlen []) with false. cbn match. eexists. split; [done|].
  apply moved_on; [|done|done|by left]. split; try done; [split; [done|by left]|by left].
Qed.

Lemma tick_takes : flight [r] [] m s → fresh_call r s →
  ∃ err s' es, flusher_seal_logged Loop s = Done (s', es) ∧ taken err r m s' es.
Proof.
  intros [Hb Hq Hok [Hc _] _ Hm] Hf. unfold eventual in Hm. rewrite Hs in Hm.
  unfold flusher_seal_logged. cbn [SealBatch WithLock]. rewrite Hb. by apply flush_one.
Qed.

Lemma receive_takes : flight [] [[r]] m s → fresh_call r s →
  ∃ err s' es, flusher_receive_logged Loop s = Some (Done (s', es)) ∧ taken err r m s' es.
Proof.
  intros [Hb Hq Hok [Hc _] _ Hm] Hf. unfold eventual in Hm. rewrite Hs in Hm.
  unfold flusher_receive_logged. rewrite Hq.
  destruct (flush_one r (set_sys s (with_wal (sys s) (set_batches (wal (sys s)) []))) m)
    as (err & s' & es & E & Ht); try done.
  exists err, s', es. by rewrite E.
Qed.

Lemma receive_nothing b : flight b [] m s → flusher_receive_logged Loop s = None.
Proof. intros Hfl. unfold flusher_receive_logged. by rewrite (fl_queue _ _ _ _ Hfl). Qed.

End selecting.

Lemma act_moved r b q m s a s' es : flight b q m s → at_hand r b q → (b ++ mjoin q = [r] → fresh_call r s) →
  own_move a → act_logged a s = Some (s', es) → moved r b q m s s' es.
Proof.
  intros Hfl Hr Hf Ha E. pose proof (fl_duty _ _ _ _ Hfl) as [Hc Hd]. unfold act_logged in E.
  destruct (flusher s) as [k|rest k] eqn:Hs.
  - destruct Hd as [-> | ->].
    + destruct Ha as [-> | ->]; cbn [act] in E; rewrite Hs in E; [|done]. rewrite Hc in E. injection E as <- <-.
      apply moved_place; [done|by rewrite Hs|by right].
    + destruct Ha as [-> | ->].
      * destruct Hr as [[-> ->]|[[-> ->]|[-> ->]]]; [by rewrite (receive_nothing m s _ Hfl) in E..|].
        destruct (receive_takes r m s Hs Hfl (Hf eq_refl)) as (err & s1 & es1 & E1 & Ht). rewrite E1 in E.
        simpl in E. simplify_eq. by apply (moved_flush _ _ _ _ _ _ _ err).
      * apply finished_logged_Done in E. destruct Hr as [[-> ->]|[[-> ->]|[-> ->]]].
        1,3: destruct (tick_nothing r m s Hs _ Hfl) as (s1 & E1 & Hm); rewrite E1 in E; by simplify_eq.
        destruct (tick_takes r m s Hs Hfl (Hf eq_refl)) as (err & s1 & es1 & E1 & Ht). rewrite E1 in E.
        simplify_eq. by apply (moved_flush _ _ _ _ _ _ _ err).
  - subst k. destruct (fl_rest _ _ _ _ Hfl) as [Hrest|(l & Hrest & _)]; rewrite Hs in Hrest; simpl in Hrest; subst rest;
      (destruct Ha as [-> | ->]; [|by cbn [act] in E; rewrite Hs in E]).
    + cbn [act] in E. rewrite Hs in E. injection E as <- <-. apply moved_place; [done|by rewrite Hs|by left].
    + apply finished_logged_Done in E. destruct (moved_apply r b q m s l Hfl Hs) as (s1 & E1 & _ & _ & Hm).
      rewrite E1 in E. by simplify_eq.
Qed.

(** Without a request the flusher only applies what it has. *)
Lemma act_idle m s a s' es : flight [] [] m s → own_move a → act_logged a s = Some (s', es) →
  flight [] [] m s' ∧ heap (sys s') = heap (sys s) ∧ audit es = [] ∧ (readable s' = readable s ∨ readable s' = m).
Proof.
  intros Hfl Ha E.
  set (nobody := {| log := {| LSN := 0; CommandID := 0; Arguments := [] |}; promise := {| result := 0; promised := false |} |}).
  by destruct (act_moved nobody [] [] m s a s' es Hfl) as [|err Hn _]; [by left|..].
Qed.

(** ** Lemmas: moves between the client's operations *)

(** The request is in the batch [b] or the channel [q], or the client has it in
    hand, and the flusher did not take it yet. [m] is the map of the writes
    before it, [v] what was readable when the call began. *)
Record unflushed (r : WriteRequest) (b : list WriteRequest) (q : list (list WriteRequest))
  (m v : gmap bytes bytes) (l : list Entry) (h : Host) : Prop := {
  uf_flight : flight b q m (host h);
  uf_fresh : fresh_call r (host h);
  uf_visible : readable (host h) = v ∨ readable (host h) = m;
  uf_log : audit (flusher_log h) = l;
  uf_turns : Forall (Forall own_move) (turns h)
}.

(** The request is flushed and answered with [err]. *)
Record done_with (r : WriteRequest) (err : error) (m : gmap bytes bytes) (l : list Entry) (h : Host) : Prop := {
  fd_flight : flight [] [] (settled_map err (log r) m) (host h);
  fd_answer : answered err (heap (sys (host h))) r;
  fd_visible : readable (host h) = m ∨ readable (host h) = settled_map err (log r) m;
  fd_log : audit (flusher_log h) = l ++ failures err;
  fd_error : err ≠ Some ErrKeyNotFound;
  fd_turns : Forall (Forall own_move) (turns h)
}.

Definition in_push (r : WriteRequest) (b : list WriteRequest) (q : list (list WriteRequest))
  (m v : gmap bytes bytes) (l : list Entry) (h : Host) : Prop :=
  unflushed r b q m v l h ∨ b ++ mjoin q = [r] ∧ ∃ err, done_with r err m l h.

Lemma taken_done err r b q m v l h a s es : unflushed r b q m v l h → act_logged a (host h) = Some (s, es) →
  taken err r m s es → done_with r err m l (move h a).
Proof.
  intros [Hfl Hf Hv Hl Ht] E [Hfl' Ha Hv' Hes He]. unfold move. rewrite E.
  split; simpl; auto. by rewrite audit_app, Hl, Hes.
Qed.

Lemma move_in_push r b q m v l h a : at_hand r b q → own_move a → in_push r b q m v l h → in_push r b q m v l (move h a).
Proof.
  intros Hr Ha Hin. destruct (act_logged a (host h)) as [[s es]|] eqn:E; [|unfold move; by rewrite E].
  destruct Hin as [Hu|[Hbq (err & [Hfl Han Hv Hl He Ht])]].
  - pose proof Hu as [Hfl Hf Hv Hl Ht].
    destruct (act_moved r b q m (host h) a s es Hfl Hr (λ _, Hf) Ha E) as [Hfl' Hh Hes Hv'|err Hbq Htk].
    + left. unfold move. rewrite E. split; simpl; [done| | |by rewrite audit_app, Hes, app_nil_r|done].
      * unfold fresh_call in *. by rewrite Hh.
      * destruct Hv' as [-> | ->]; auto.
    + right. split; [done|]. exists err. by eapply taken_done.
  - right. split; [done|]. exists err. destruct (act_idle _ _ _ _ _ Hfl Ha E) as (Hfl' & Hh & Hes & Hv').
    unfold move. rewrite E. split; simpl; auto; [by rewrite Hh| |by rewrite audit_app, Hes, app_nil_r].
    destruct Hv' as [-> | ->]; auto.
Qed.

Lemma moves_in_push r b q m v l moves : at_hand r b q → Forall own_move moves → ∀ h,
  in_push r b q m v l h → in_push r b q m v l (foldl move h moves).
Proof. intros Hr. induction 1 as [|a moves Ha _ IH]; intros h Hin; [done|]. simpl. by apply IH, move_in_push. Qed.

Lemma yield_in_push r b q m v l h : at_hand r b q → in_push r b q m v l h → in_push r b q m v l (yield h).
Proof.
  intros Hr Hin. unfold yield. destruct (turns h) as [|moves rest] eqn:Et; [done|].
  assert (Forall own_move moves ∧ Forall (Forall own_move) rest) as [Hm Hrest].
  { assert (Forall (Forall own_move) (turns h)) as Ht by (by destruct Hin as [[]|[_ (? & [])]]).
    rewrite Et in Ht. by apply Forall_cons in Ht. }
  apply moves_in_push; [done..|].
  destruct Hin as [[Hfl Hf Hv Hl Ht]|[Hbq (err & [Hfl Han Hv Hl He Ht])]]; [by left|].
  right. split; [done|]. by exists err.
Qed.

Lemma fresh_no_result r s : fresh_requests [r] (heap (sys s)) → has_result r s = false.
Proof.
  intros [_ Hf]. apply Forall_inv in Hf as [_ Hf]. unfold has_result, Future_Get, chan_recv. simpl. by rewrite Hf.
Qed.

Lemma answered_result err r s : answered err (heap (sys s)) r → has_result r s = true.
Proof. intros Ha. destruct (answered_get _ _ _ Ha) as [h' E]. unfold has_result. by rewrite E. Qed.

(** The moves until the flusher takes the request. *)
Definition distance (f : flusher_state) : nat :=
  match f with At Selecting => 1 | At _ => 2 | Applying rest _ => length rest + 3 end.

(** A move of the flusher that does not take the request. *)
Lemma turn_comes_closer r b q m v l h s es : at_hand r b q → unflushed r b q m v l h →
  act_logged AFlusher (host h) = Some (s, es) → heap (sys s) = heap (sys (host h)) →
  (distance (flusher s) < distance (flusher (host h)))%nat →
  unflushed r b q m v l (flusher_turn h) ∧ (distance (flusher (host (flusher_turn h))) < distance (flusher (host h)))%nat.
Proof.
  intros Hr Hu E Hh Hd. unfold flusher_turn. rewrite E.
  destruct (move_in_push r b q m v l h AFlusher Hr) as [Hin|[_ (err & Hfd)]]; [by left|by left| |].
  - split; [done|]. unfold move. by rewrite E.
  - exfalso. pose proof (fd_answer _ _ _ _ _ Hfd) as Ha. unfold move in Ha. rewrite E in Ha. simpl in Ha. rewrite Hh in Ha.
    destruct (uf_fresh _ _ _ _ _ _ _ Hu) as [[_ Hf] _]. apply Forall_inv in Hf.
    by apply (answered_not_fresh _ _ _ Ha).
Qed.

Lemma flusher_turn_comes r b q m v l h : at_hand r b q → b ++ mjoin q = [r] → unflushed r b q m v l h →
  (∃ err, done_with r err m l (flusher_turn h)) ∨
  unflushed r b q m v l (flusher_turn h) ∧ (distance (flusher (host (flusher_turn h))) < distance (flusher (host h)))%nat.
Proof.
  intros Hr Hbq Hu. pose proof Hu as [Hfl Hf _ _ _]. pose proof (fl_duty _ _ _ _ Hfl) as [Hc Hd].
  destruct (flusher (host h)) as [k|rest k] eqn:Hs.
  - destruct Hd as [-> | ->].
    + right. rewrite <- Hs. eapply (turn_comes_closer _ _ _ _ _ _ _ (set_flusher (host h) (At Selecting)) []);
        [done|done| |done|rewrite Hs; simpl; lia].
      unfold act_logged. rewrite Hs. cbn [act]. by rewrite Hs, Hc.
    + left. destruct Hr as [[-> ->]|[[-> ->]|[-> ->]]]; [done| |].
      * destruct (tick_takes r m _ Hs Hfl Hf) as (err & s & es & E & Ht). exists err.
        unfold flusher_turn.
        assert (act_logged AFlusher (host h) = None) as ->
          by (unfold act_logged; by rewrite Hs, (receive_nothing m _ _ Hfl)).
        eapply taken_done; [done| |done]. unfold act_logged. by rewrite Hs, E.
      * destruct (receive_takes r m _ Hs Hfl Hf) as (err & s & es & E & Ht). exists err.
        assert (act_logged AFlusher (host h) = Some (s, es)) as Ea by (unfold act_logged; by rewrite Hs, E).
        unfold flusher_turn. rewrite Ea. by eapply taken_done.
  - right. subst k. rewrite <- Hs. pose proof (fl_rest _ _ _ _ Hfl) as Hrest. rewrite Hs in Hrest.
    destruct Hrest as [Hrest|(l' & Hrest & _)]; simpl in Hrest; subst rest.
    + eapply (turn_comes_closer _ _ _ _ _ _ _ (set_flusher (host h) (At Loop)) []);
        [done|done| |done|rewrite Hs; simpl; lia].
      unfold act_logged. rewrite Hs. cbn [act]. by rewrite Hs.
    + destruct (moved_apply r b q m _ l' Hfl Hs) as (s' & E & Hs' & Hh & _).
      eapply (turn_comes_closer _ _ _ _ _ _ _ s' []); [done|done|unfold act_logged; by rewrite Hs, E|done|].
      rewrite Hs, Hs'. simpl. lia.
Qed.

(** The client gets its result. *)
Lemma await_result r b q m v l : at_hand r b q → b ++ mjoin q = [r] → ∀ fuel h, in_push r b q m v l h →
  (distance (flusher (host h)) ≤ fuel)%nat →
  ∃ h' err, await fuel (has_result r) h = Done h' ∧ done_with r err m l h'.
Proof.
  intros Hr Hbq. induction fuel as [|fuel IH]; intros h [Hu|[_ (err & Hfd)]] Hd;
    try (exists h, err; simpl; by rewrite (answered_result err r _ (fd_answer _ _ _ _ _ Hfd))).
  - exfalso. clear -Hd. destruct (flusher (host h)) as [[]|]; simpl in Hd; lia.
  - cbn [await]. rewrite (fresh_no_result r (host h)) by apply Hu.
    destruct (flusher_turn_comes r b q m v l h Hr Hbq Hu) as [(err & Hfd)|[Hu' Hlt]].
    + assert (await fuel (has_result r) (flusher_turn h) = Done (flusher_turn h)) as ->
        by (destruct fuel; simpl; by rewrite (answered_result err r _ (fd_answer _ _ _ _ _ Hfd))).
      by exists (flusher_turn h), err.
    + apply IH; [by left|lia].
Qed.

Lemma block_result r b q m v l h : at_hand r b q → b ++ mjoin q = [r] → in_push r b q m v l h →
  ∃ h' err, block (has_result r) h = Done h' ∧ done_with r err m l h'.
Proof.
  intros Hr Hbq Hin. eapply await_result; [done..|]. unfold patience.
  destruct (flusher (host h)) as [[]|]; simpl; lia.
Qed.

(** ** Lemmas: a call of the only client *)

(** The critical section leaves the request in the active batch, or takes it out
    with the batch. *)
Lemma push_start_alone ctx commandID args (s : Sys HashTable) : batch (wal s) = [] →
  ∃ r b, push_start ctx commandID args s =
      (r, match b with [] => [r] | _ => [] end,
       {| wal := set_batch (wal s) b (activeBatchVolume (wal (push_start ctx commandID args s).2));
          heap := heap s ++ [{| c_buf := []; c_closed := false |}]; os := os s |}) ∧
    (b = [] ∨ b = [r]) ∧ log r = {| LSN := GetTxIDFromContext ctx; CommandID := commandID; Arguments := args |} ∧
    promise r = {| result := length (heap s); promised := false |} ∧
    fresh_requests [r] (heap s ++ [{| c_buf := []; c_closed := false |}]).
Proof.
  intros Hb. unfold push_start. cbn [NewWriteRequest NewPromise WithLock]. set (r := {| log := _; promise := _ |}).
  assert (fresh_requests [r] (heap s ++ [{| c_buf := []; c_closed := false |}])) as Hf.
  { split; [apply NoDup_singleton|]. constructor; [|constructor]. split; [done|]. simpl.
    by rewrite lookup_app_r, Nat.sub_diag. }
  exists r. unfold push_locked. rewrite Hb. destruct (_ || _); cbn; [exists []|exists [r]]; auto.
Qed.

Lemma with_sys_flight b q m h x : flight [] [] m (host h) → batch (wal x) = b → batches (wal x) = q →
  os x = os (sys (host h)) → commandHashTable (wal x) = commandHashTable (wal (sys (host h))) →
  flight b q m (host (with_sys h x)).
Proof.
  intros [_ _ Hok Hd Hr Hm] Hb Hq Ho Ht. split; try done; [simpl; by rewrite Ho|].
  unfold eventual, readable in *. simpl. by rewrite Ht.
Qed.

Lemma block_room h : batches (wal (sys (host h))) = [] → block has_room h = Done h.
Proof.
  intros Hq. assert (has_room (host h) = true) as Hroom by (unfold has_room; by rewrite Hq).
  unfold block. destruct (patience _); simpl; by rewrite Hroom.
Qed.

Lemma push_spec ctx commandID args h : between_calls h → call_ok commandID args →
  ∃ err h', push ctx commandID args h = Done (err, h') ∧ between_calls h' ∧
    let record := {| LSN := GetTxIDFromContext ctx; CommandID := commandID; Arguments := args |} in
    eventual (host h') = settled_map err record (eventual (host h)) ∧
    (readable (host h') = eventual (host h) ∨ readable (host h') = eventual (host h')) ∧
    audit (flusher_log h') = audit (flusher_log h) ++ failures err ∧ err ≠ Some ErrKeyNotFound.
Proof.
  intros [Hfl Ht] Hcall. set (m := eventual (host h)) in *. set (v := readable (host h)). set (l := audit (flusher_log h)).
  pose proof Hfl as [Hb Hq _ _ _ _].
  destruct (push_start_alone ctx commandID args (sys (host h)) Hb) as (r & b & E & Hbr & Hlog & _ & Hf).
  unfold push. rewrite E. set (h1 := with_sys h _).
  assert (unflushed r b [] m v l h1) as Hu.
  { split; [by apply with_sys_flight|split; [done|by rewrite Hlog]|by left|done|done]. }
  assert (∃ h3, (match (match b with [] => [r] | _ => [] end) with
      | [] => Done h1
      | _ :: _ => obind (block has_room (yield h1)) (λ h2, Done (send (match b with [] => [r] | _ => [] end) h2))
      end) = Done h3 ∧ ∃ b' q, at_hand r b' q ∧ b' ++ mjoin q = [r] ∧ unflushed r b' q m v l h3) as (h3 & E3 & b' & q & Hr & Hbq & Hu3).
  { destruct Hbr as [-> | ->].
    - destruct (yield_in_push r [] [] m v l h1) as [Hu2|[? _]]; [by left|by left| |done].
      pose proof Hu2 as [Hfl2 Hf2 Hv2 Hl2 Ht2].
      rewrite block_room by apply Hfl2.
      eexists. split; [reflexivity|]. exists [], [[r]]. split; [by right; right|]. split; [done|].
      split; [|done|done|done|done]. destruct Hfl2 as [Hb2 Hq2 Hok2 Hd2 Hr2 Hm2].
      split; try done. simpl. by rewrite Hq2.
    - exists h1. split; [done|]. exists [r], []. split; [by right; left|]. split; [done|done]. }
  rewrite E3. cbn [obind].
  destruct (block_result r b' q m v l (yield h3) Hr Hbq) as (h4 & err & -> & [Hfl4 Ha4 Hv4 Hl4 He4 Ht4]);
    [by apply yield_in_push; [|left]|].
  destruct (answered_get _ _ _ Ha4) as [channels Eg]. cbn [obind]. rewrite Eg. cbn [obind].
  rewrite Hlog in *. pose proof (fl_eventual _ _ _ _ Hfl4) as Hm4.
  set (h5 := with_sys h4 _). assert (eventual (host h5) = eventual (host h4)) as He5 by done.
  eexists err, h5. split; [reflexivity|]. split; [|rewrite He5, Hm4; done].
  split; [|done]. rewrite He5, Hm4. by apply with_sys_flight; try apply Hfl4.
Qed.

Lemma moves_between moves : Forall own_move moves → ∀ h, between_calls h →
  let h' := foldl move h moves in
  between_calls h' ∧ eventual (host h') = eventual (host h) ∧
  (readable (host h') = readable (host h) ∨ readable (host h') = eventual (host h)) ∧
  audit (flusher_log h') = audit (flusher_log h).
Proof.
  induction 1 as [|a moves Ha _ IH]; intros h [Hfl Ht]; [by split; [split|auto]|]. simpl.
  assert (between_calls (move h a) ∧ eventual (host (move h a)) = eventual (host h) ∧
    (readable (host (move h a)) = readable (host h) ∨ readable (host (move h a)) = eventual (host h)) ∧
    audit (flusher_log (move h a)) = audit (flusher_log h)) as (Hb1 & He1 & Hv1 & Hl1).
  { unfold move. destruct (act_logged a (host h)) as [[s es]|] eqn:E; [|by split; [split|auto]].
    destruct (act_idle _ _ _ _ _ Hfl Ha E) as (Hfl' & _ & Hes & Hv). pose proof (fl_eventual _ _ _ _ Hfl') as He.
    unfold between_calls. cbn [host flusher_log turns]. rewrite He.
    split; [done|]. split; [done|]. split; [done|]. by rewrite audit_app, Hes, app_nil_r. }
  destruct (IH _ Hb1) as (Hb2 & He2 & Hv2 & Hl2). split; [done|]. split; [congruence|]. split; [|congruence].
  destruct Hv2 as [Hv2|Hv2]; [|right; congruence]. destruct Hv1; [left|right]; congruence.
Qed.

(** The others' turn between two calls: at most the last write becomes readable. *)
Lemma yield_between h : between_calls h →
  between_calls (yield h) ∧ eventual (host (yield h)) = eventual (host h) ∧
  (readable (host (yield h)) = readable (host h) ∨ readable (host (yield h)) = eventual (host h)) ∧
  audit (flusher_log (yield h)) = audit (flusher_log h).
Proof.
  intros [Hfl Ht]. unfold yield. destruct (turns h) as [|moves rest] eqn:Et; [by split; [split; [|by rewrite Et]|auto]|].
  apply Forall_cons in Ht as [Hm Hrest].
  by apply (moves_between moves Hm {| host := host h; flusher_log := flusher_log h; turns := rest |}).
Qed.

End push.

(** The log is a store whose reads lag at most one write behind, for its only
    client, under every schedule of the flusher and in every environment. *)
Lemma wal_lagging {env : Env} {ids : GobTypeIds} {sorter : SortSlice} :
  lagging_laws Wal_Set Wal_Del table_get between_calls (λ h, eventual (host h)) (λ h, readable (host h)).
Proof.
  split.
  - intros ctx k v h Hh. destruct (push_spec ctx CommandSetID [k; v] h Hh) as (err & h' & E & Hi & He & Hv & _); [by left|].
    exists err, h'. split; [exact E|]. split; [done|]. destruct err; simpl in He; (split; [done|]); [|done].
    rewrite He in Hv. right. by destruct Hv.
  - intros ctx k h Hh. destruct (push_spec ctx CommandDelID [k] h Hh) as (err & h' & E & Hi & He & Hv & _); [by right|].
    exists err, h'. split; [exact E|]. split; [done|]. destruct err; simpl in He; (split; [done|]); [|done].
    rewrite He in Hv. right. by destruct Hv.
  - intros ctx k h _. exact (table_get_spec ctx k h).
Qed.

(** A process that just started, with what the others will do. *)
Definition started (x : Sys HashTable) (turns : list (list action)) : Host :=
  {| host := initial x; flusher_log := []; turns := turns |}.

Lemma started_between x turns : idle x → Forall (Forall own_move) turns → between_calls (started x turns).
Proof.
  intros (Hb & Hq & Hok) Ht. split; [|done]. split; try done; [split; [done|by left]|by left].
Qed.
