(* ===== verification/Storage.v ===== *)
(** * The storage façade

    Models [internal/database/storage/storage.go]: a thin layer over an engine,
    given by its write side and its read side. What it logs is in [Logging.v]. *)

From S2P Require Import Prelude Concurrency HashTable Engine.

(** ** Interfaces *)

(** [CommandStorage] and [QueryStorage]: what the façade needs of an engine. *)
Class CommandStorage (S : Type) := {
  cs_Set : Ctx → bytes → bytes → S → outcome (error * S);
  cs_Del : Ctx → bytes → S → outcome (error * S)
}.

Class QueryStorage (S : Type) := { qs_Get : Ctx → bytes → S → bytes * error }.

#[export] Instance engine_command_storage {S} {ce : CommandEngine S} : CommandStorage (Engine S) :=
  {| cs_Set := Engine_Set; cs_Del := Engine_Del |}.

#[export] Instance engine_query_storage {S} {qe : QueryEngine S} : QueryStorage (Engine S) :=
  {| qs_Get := Engine_Get |}.

(** ** The façade *)

Record Storage (S : Type) := { storage_log : Logger; engine : S }.
Arguments storage_log {S} _.
Arguments engine {S} _.
Arguments Build_Storage {S} _ _.

Definition NewStorage {S} (logger : option Logger) (eng : S) : res (Storage S) :=
  match logger with
  | None => Err ErrStorageInvalidLogger
  | Some l => Ok {| storage_log := l; engine := eng |}
  end.

Section storage.
Context {S : Type} {cs : CommandStorage S} {qs : QueryStorage S}.

Definition Storage_Set (ctx : Ctx) (key value : bytes) (s : Storage S) : outcome (error * Storage S) :=
  obind (cs_Set ctx key value (engine s)) (λ '(err, e),
  let s' := {| storage_log := storage_log s; engine := e |} in
  match err with
  | Some er => Done (Some er, s')
  | None => Done (None, s')
  end).

Definition Storage_Get (ctx : Ctx) (key : bytes) (s : Storage S) : bytes * error :=
  let '(result, err) := qs_Get ctx key (engine s) in
  match err with
  | Some er => ([], Some er)
  | None => (result, None)
  end.

Definition Storage_Del (ctx : Ctx) (key : bytes) (s : Storage S) : outcome (error * Storage S) :=
  obind (cs_Del ctx key (engine s)) (λ '(err, e),
  let s' := {| storage_log := storage_log s; engine := e |} in
  match err with
  | Some er => Done (Some er, s')
  | None => Done (None, s')
  end).

End storage.

(** ** Lemmas *)

Lemma storage_lagging {S : Type} {cs : CommandStorage S} {qs : QueryStorage S}
  (inv : S → Prop) (abs seen : S → gmap bytes bytes) :
  lagging_laws cs_Set cs_Del qs_Get inv abs seen →
  lagging_laws Storage_Set Storage_Del Storage_Get
    (λ s, inv (engine s)) (λ s, abs (engine s)) (λ s, seen (engine s)).
Proof.
  intros [Hset Hdel Hget]. split.
  - intros ctx k v s Hs. unfold Storage_Set. destruct (Hset ctx k v _ Hs) as ([er|] & s' & -> & Hi & Ha);
      by eexists _, _.
  - intros ctx k s Hs. unfold Storage_Del. destruct (Hdel ctx k _ Hs) as ([er|] & s' & -> & Hi & Ha);
      by eexists _, _.
  - intros ctx k s Hs. unfold Storage_Get. rewrite (Hget ctx k _ Hs). by destruct (seen (engine s) !! k).
Qed.

(** ** Deletion of an absent key *)

(** An engine that reports a missing key on deletion, as the tests of the
    façade use. *)
Definition strict_engine : CommandStorage (gmap bytes bytes) :=
  {| cs_Set := λ _ k v m, Done (None, <[k := v]> m);
     cs_Del := λ _ k m, match m !! k with
                        | Some _ => Done (None, delete k m)
                        | None => Done (Some ErrKeyNotFound, m)
                        end |}.

(** With such an engine [Storage.Del] of an absent key returns
    [ErrKeyNotFound] to its caller; its documentation says that it returns no
    error. *)
Example storage_del_absent_key :
  @Storage_Del _ strict_engine [] (str "k") {| storage_log := DiscardLogger; engine := ∅ |} =
    Done (Some ErrKeyNotFound, {| storage_log := DiscardLogger; engine := ∅ |}).
Proof. reflexivity. Qed.
