(* ===== verification/Network.v ===== *)
(** * The TCP transport

    Models [internal/network]: the functional options, the server (listening,
    the accept loop with its semaphore, one connection's request loop) and the
    client. The network itself is a parameter: what listening and dialing
    return, and for every iteration of a connection loop which bytes have
    arrived and which calls fail. *)

From S2P Require Import Prelude GoText Config Concurrency.

(** ** Servers and options *)

Record TCPServer := {
  listener : nat;                 (** index in the table of listeners *)
  semaphore : option Semaphore;
  idleTimeout : Z;
  maxConnections : Z;
  bufferSize : Z
}.

Abbreviation TCPServeOption := (TCPServer → TCPServer).

Definition WithServerTCPIdleTimeout (timeout : Z) : TCPServeOption := λ server,
  {| listener := listener server; semaphore := semaphore server;
     idleTimeout := if timeout <? 0 then 5 * Minute else timeout;
     maxConnections := maxConnections server; bufferSize := bufferSize server |}.

Definition WithServerTCPMaxConnectionNumber (n : Z) : TCPServeOption := λ server,
  {| listener := listener server; semaphore := semaphore server;
     idleTimeout := idleTimeout server;
     maxConnections := if n <? 0 then 100 else n; bufferSize := bufferSize server |}.

Definition WithServerTCPBufferSize (n : Z) : TCPServeOption := λ server,
  {| listener := listener server; semaphore := semaphore server;
     idleTimeout := idleTimeout server; maxConnections := maxConnections server;
     bufferSize := if n <? 0 then 4098 else n |}.

(** The outside world of the transport. *)
Class NetEnv := {
  listen_error : bytes → error;   (** [lc.Listen] *)
  dial_error : bytes → error      (** [dialer.DialContext] *)
}.

(** The listening sockets of the process: address, and whether it is open. *)
Abbreviation listeners := (list (bytes * bool)).

Definition NewTCPServer {net : NetEnv} (address : bytes) (logger : option Logger)
  (options : list TCPServeOption) (ls : listeners) : res TCPServer * listeners :=
  match logger with
  | None => (Err ErrNetInvalidLogger, ls)
  | Some _ =>
      match listen_error address with
      | Some e => (Err e, ls)
      | None =>
          let ls' := ls ++ [(address, true)] in
          let server := foldl (λ s option, option s)
            {| listener := length ls; semaphore := None; idleTimeout := 0;
               maxConnections := 0; bufferSize := 0 |} options in
          if maxConnections server =? 0 then (Err ErrInvalidMaxConn, ls')
          else if bufferSize server =? 0 then (Err ErrInvalidBufferSize, ls')
          else (Ok {| listener := listener server;
                      semaphore := Some (NewSemaphore (maxConnections server));
                      idleTimeout := idleTimeout server;
                      maxConnections := maxConnections server;
                      bufferSize := bufferSize server |}, ls')
      end
  end.

(** ** One connection *)

(** What happens around one iteration of the loop: the bytes that arrive
    before the read returns, and the errors of the four calls. *)
Record iteration := {
  arrive : bytes;
  read_deadline : error;
  read_error : error;
  write_deadline : error;
  write_error : error
}.

(** How the connection stands when the script of iterations is over: still
    waiting in [Read], closed, or inside a handler that never returns. *)
Inductive conn_end := ConnOpen | ConnClosed | ConnStuck.

Section connection.
Context {S : Type} (handler : bytes → S → outcome (bytes * S)).

(** The replies written, the end of the connection, and the handler's state.
    [unread] is what has arrived and has not been read. A panic of the handler
    is recovered and the connection is closed. *)
Fixpoint HandleConnections (server : TCPServer) (its : list iteration) (unread : bytes) (s : S)
  : list bytes * conn_end * S :=
  match its with
  | [] => ([], ConnOpen, s)
  | it :: its' =>
      if bool_decide (idleTimeout server ≠ 0 ∧ read_deadline it ≠ None) then ([], ConnClosed, s)
      else if bool_decide (read_error it ≠ None) then ([], ConnClosed, s)
      else
        let avail := unread ++ arrive it in
        if bool_decide (avail = []) then HandleConnections server its' [] s
        else
          let query := take (Z.to_nat (bufferSize server)) avail in
          match handler query s with
          | Panicked => ([], ConnClosed, s)
          | Blocked => ([], ConnStuck, s)
          | Done (response, s1) =>
              if bool_decide (idleTimeout server ≠ 0 ∧ write_deadline it ≠ None) then ([], ConnClosed, s1)
              else if bool_decide (write_error it ≠ None) then ([], ConnClosed, s1)
              else
                let '(replies, e, s2) :=
                  HandleConnections server its' (drop (Z.to_nat (bufferSize server)) avail) s1 in
                (response :: replies, e, s2)
          end
  end.

End connection.

(** ** The accept loop *)

(** The goroutine that accepts connections, and the one that called
    [HandleClientQueries]. *)
Inductive acceptor_state := Accepting | Acquiring (c : nat) | AcceptorExited.
Inductive main_state := AwaitCancel | AwaitAcceptor | MainReturned.

#[global] Instance acceptor_state_eq_dec : EqDecision acceptor_state.
Proof. solve_decision. Defined.

Record Serving := {
  sv_sem : Semaphore;
  sv_acceptor : acceptor_state;
  sv_main : main_state;
  sv_accepted : gset nat;   (** connections accepted so far *)
  sv_conns : gset nat;      (** connections being served *)
  sv_open : bool            (** the listener is open *)
}.

Definition serving_init (server_max : Z) : Serving :=
  {| sv_sem := NewSemaphore server_max; sv_acceptor := Accepting; sv_main := AwaitCancel;
     sv_accepted := ∅; sv_conns := ∅; sv_open := true |}.

(** [HandleClientQueries]: the loop body of the acceptor ([Accept], then
    [Acquire], then a goroutine for the connection), the end of a connection's
    goroutine with its deferred [Release], and the shutdown sequence. *)
Inductive serve_step : Serving → Serving → Prop :=
  | serve_accept c s :
      sv_acceptor s = Accepting → sv_open s = true → c ∉ sv_accepted s →
      serve_step s {| sv_sem := sv_sem s; sv_acceptor := Acquiring c; sv_main := sv_main s;
        sv_accepted := sv_accepted s ∪ {[c]}; sv_conns := sv_conns s; sv_open := sv_open s |}
  | serve_accept_error s :
      sv_acceptor s = Accepting → sv_open s = true → serve_step s s
  | serve_accept_closed s :
      sv_acceptor s = Accepting → sv_open s = false →
      serve_step s {| sv_sem := sv_sem s; sv_acceptor := AcceptorExited; sv_main := sv_main s;
        sv_accepted := sv_accepted s; sv_conns := sv_conns s; sv_open := sv_open s |}
  | serve_acquire c s :
      sv_acceptor s = Acquiring c → c ∉ waiting (sv_sem s) → count (sv_sem s) < max (sv_sem s) →
      serve_step s {| sv_sem := Acquire_step c (sv_sem s); sv_acceptor := Accepting; sv_main := sv_main s;
        sv_accepted := sv_accepted s; sv_conns := sv_conns s ∪ {[c]}; sv_open := sv_open s |}
  | serve_wait c s :
      sv_acceptor s = Acquiring c → c ∉ waiting (sv_sem s) → max (sv_sem s) ≤ count (sv_sem s) →
      serve_step s {| sv_sem := Acquire_step c (sv_sem s); sv_acceptor := Acquiring c; sv_main := sv_main s;
        sv_accepted := sv_accepted s; sv_conns := sv_conns s; sv_open := sv_open s |}
  | serve_finish c s :
      c ∈ sv_conns s →
      serve_step s {| sv_sem := Release_step c (sv_sem s); sv_acceptor := sv_acceptor s; sv_main := sv_main s;
        sv_accepted := sv_accepted s; sv_conns := sv_conns s ∖ {[c]}; sv_open := sv_open s |}
  | serve_cancel s :
      sv_main s = AwaitCancel →
      serve_step s {| sv_sem := sv_sem s; sv_acceptor := sv_acceptor s; sv_main := AwaitAcceptor;
        sv_accepted := sv_accepted s; sv_conns := sv_conns s; sv_open := false |}
  | serve_return s :
      sv_main s = AwaitAcceptor → sv_acceptor s = AcceptorExited →
      serve_step s {| sv_sem := sv_sem s; sv_acceptor := sv_acceptor s; sv_main := MainReturned;
        sv_accepted := sv_accepted s; sv_conns := sv_conns s; sv_open := sv_open s |}.

(** ** The client *)

Record TCPClient := {
  conn : option bool;          (** nil, or a connection that is open or closed *)
  client_address : bytes;
  client_idleTimeout : Z;
  client_maxMessageSize : Z
}.

Abbreviation TCPClientOption := (TCPClient → TCPClient).

Definition WithClientTCPAddress (address : bytes) : TCPClientOption := λ client,
  {| conn := conn client; client_address := address;
     client_idleTimeout := client_idleTimeout client;
     client_maxMessageSize := client_maxMessageSize client |}.

Definition WithClientTCPIdleTimeout (timeout : Z) : TCPClientOption := λ client,
  {| conn := conn client; client_address := client_address client;
     client_idleTimeout := if timeout <? 0 then 5 * Minute else timeout;
     client_maxMessageSize := client_maxMessageSize client |}.

Definition WithClientTCPMaxMessageSize (n : Z) : TCPClientOption := λ client,
  {| conn := conn client; client_address := client_address client;
     client_idleTimeout := client_idleTimeout client;
     client_maxMessageSize := if n <? 0 then 4098 else n |}.

Definition NewTCPClient {net : NetEnv} (logger : option Logger) (options : list TCPClientOption) : res TCPClient :=
  match logger with
  | None => Err (EText (str "network.NewTCPClient: failed to initialize logger"))
  | Some _ =>
      let client := foldl (λ c option, option c)
        {| conn := None; client_address := []; client_idleTimeout := 0; client_maxMessageSize := 0 |} options in
      match dial_error (client_address client) with
      | Some _ => Err (EText (str "network.NewTCPClient: failed to connect to server"))
      | None => Ok {| conn := Some true; client_address := client_address client;
                      client_idleTimeout := client_idleTimeout client;
                      client_maxMessageSize := client_maxMessageSize client |}
      end
  end.

(** The exchange around one request: the error of the write, and the bytes of
    the replies that arrive before the read returns, or its error. Failing to
    set a deadline is only logged. The result also has the bytes left unread.
    A call through the nil interface panics; a closed connection refuses the
    write. *)
Definition SendAndReceive (client : TCPClient) (write_err read_err : error) (unread arrived : bytes)
  : outcome (res bytes * bytes) :=
  match conn client with
  | None => Panicked
  | Some is_open =>
      match if is_open : bool then write_err else Some (EOS EClosed) with
      | Some _ => Done (Err (EText (str "network.TCPClient.SendAndReceive: failed to send data to server")), unread)
      | None =>
          match read_err with
          | Some _ => Done (Err (EText (str "network.TCPClient.SendAndReceive: failed to read data from server")),
                            unread ++ arrived)
          | None =>
              let avail := unread ++ arrived in
              let n := Z.to_nat (client_maxMessageSize client) in
              Done (Ok (TrimSpace (take n avail)), drop n avail)
          end
      end
  end.

(** [Close]: the connection is closed and kept; an error is only logged. *)
Definition TCPClient_Close (client : TCPClient) : TCPClient :=
  match conn client with
  | None => client
  | Some _ => {| conn := Some false; client_address := client_address client;
                 client_idleTimeout := client_idleTimeout client;
                 client_maxMessageSize := client_maxMessageSize client |}
  end.

(** ** Specification of a quiet connection *)

Section quiet.
Context {S : Type} (handler : bytes → S → outcome (bytes * S)).

(** Requests handled one after the other. *)
Fixpoint handle_all (reqs : list bytes) (s : S) : outcome (list bytes * S) :=
  match reqs with
  | [] => Done ([], s)
  | r :: reqs' =>
      obind (handler r s) (λ '(reply, s1),
      obind (handle_all reqs' s1) (λ '(replies, s2), Done (reply :: replies, s2)))
  end.

(** An iteration without errors in which the given bytes arrive. *)
Definition arrival (data : bytes) : iteration :=
  {| arrive := data; read_deadline := None; read_error := None; write_deadline := None; write_error := None |}.

(** One iteration on a connection without errors. *)
Lemma HandleConnections_arrival server data unread its s : unread ++ data ≠ [] →
  HandleConnections handler server (arrival data :: its) unread s =
  match handler (take (Z.to_nat (bufferSize server)) (unread ++ data)) s with
  | Panicked => ([], ConnClosed, s)
  | Blocked => ([], ConnStuck, s)
  | Done (response, s1) =>
      let '(replies, e, s2) :=
        HandleConnections handler server its (drop (Z.to_nat (bufferSize server)) (unread ++ data)) s1 in
      (response :: replies, e, s2)
  end.
Proof.
  intros Hne. cbn [HandleConnections arrival arrive read_deadline read_error write_deadline write_error].
  rewrite !(bool_decide_eq_false_2 (_ ∧ _)) by (by intros []).
  rewrite !(bool_decide_eq_false_2 (None ≠ None)) by naive_solver.
  by rewrite (bool_decide_eq_false_2 (_ = [])).
Qed.

(** A request that fits is read whole. *)
Lemma fits_whole {A} n (l : list A) : zlen l ≤ n →
  take (Z.to_nat n) l = l ∧ drop (Z.to_nat n) l = [].
Proof. intros H. unfold zlen in H. split; [apply take_ge|apply drop_ge]; lia. Qed.

Lemma HandleConnections_all server reqs : ∀ s replies s',
  Forall (λ r : bytes, r ≠ [] ∧ zlen r ≤ bufferSize server) reqs →
  handle_all reqs s = Done (replies, s') →
  HandleConnections handler server (arrival <$> reqs) [] s = (replies, ConnOpen, s').
Proof.
  induction reqs as [|r reqs IH]; intros s replies s' HF E.
  - simpl in E. by simplify_eq.
  - apply Forall_cons in HF as [[Hne Hfit] HF]. cbn [fmap list_fmap].
    rewrite HandleConnections_arrival by done. simpl app.
    destruct (fits_whole _ _ Hfit) as [-> ->].
    simpl in E. destruct (handler r s) as [[reply s1]| |]; simpl in E; try done.
    destruct (handle_all reqs s1) as [[rs s2]| |] eqn:E2; simpl in E; try done. simplify_eq.
    by rewrite (IH _ _ _ HF E2).
Qed.

End quiet.

(** ** Invariant of the accept loop *)

Record serving_inv (limit : Z) (s : Serving) : Prop := {
  si_sem : sem_inv (sv_sem s);
  si_max : max (sv_sem s) = limit;
  si_conns : holding (sv_sem s) = sv_conns s;
  si_sub : sv_conns s ⊆ sv_accepted s;
  si_wait : ∀ c, c ∈ waiting (sv_sem s) ∨ c ∈ woken (sv_sem s) → sv_acceptor s = Acquiring c;
  si_acq : ∀ c, sv_acceptor s = Acquiring c → (c ∉ sv_conns s) ∧ c ∈ sv_accepted s
}.

Lemma serving_inv_init limit : serving_inv limit (serving_init limit).
Proof.
  split; simpl; try done; [apply sem_inv_new|]. intros c [H|H]; [by apply not_elem_of_nil in H|set_solver].
Qed.

Lemma acquired_sem c s : count s < max s →
  waiting (Acquire_step c s) = waiting s ∧ woken (Acquire_step c s) = woken s ∖ {[c]} ∧
  holding (Acquire_step c s) = holding s ∪ {[c]} ∧ max (Acquire_step c s) = max s.
Proof. intros H. unfold Acquire_step. destruct (max s <=? count s) eqn:E; zbool; [lia|done]. Qed.

Lemma waited_sem c s : max s ≤ count s →
  waiting (Acquire_step c s) = waiting s ++ [c] ∧ woken (Acquire_step c s) = woken s ∖ {[c]} ∧
  holding (Acquire_step c s) = holding s ∧ max (Acquire_step c s) = max s.
Proof. intros H. unfold Acquire_step. destruct (max s <=? count s) eqn:E; zbool; [done|lia]. Qed.

Lemma released_waiting c s u : u ∈ waiting (Release_step c s) ∨ u ∈ woken (Release_step c s) →
  u ∈ waiting s ∨ u ∈ woken s.
Proof.
  unfold Release_step. simpl. destruct (waiting s) as [|v q]; simpl; [tauto|].
  rewrite elem_of_cons, elem_of_union, elem_of_singleton. tauto.
Qed.

Lemma serve_step_inv limit s s' : serve_step s s' → serving_inv limit s → serving_inv limit s'.
Proof.
  intros Hstep []. destruct Hstep as [c s Ha Ho Hc|s _ _|s Ha Ho|c s Ha Hw Hlt|c s Ha Hw Hge|c s Hc|s Hm|s Hm Ha].
  - split; simpl; try done; [set_solver| |].
    + intros u Hu. apply si_wait0 in Hu. congruence.
    + intros u [= <-]. set_solver.
  - by split.
  - split; simpl; try done. intros u Hu. apply si_wait0 in Hu. congruence.
  - destruct (si_acq0 c Ha) as [Hn Hin]. destruct (acquired_sem c _ Hlt) as (E1 & E2 & E3 & E4).
    split; simpl; rewrite ?E1, ?E2, ?E3, ?E4; try done.
    + apply Acquire_step_inv; [done|by rewrite si_conns0|done].
    + by rewrite si_conns0.
    + set_solver.
    + intros u Hu. assert (u ∈ waiting (sv_sem s) ∨ u ∈ woken (sv_sem s)) as Hu' by set_solver.
      apply si_wait0 in Hu'. assert (u = c) as -> by congruence. set_solver.
  - destruct (si_acq0 c Ha) as [Hn Hin]. destruct (waited_sem c _ Hge) as (E1 & E2 & E3 & E4).
    split; simpl; rewrite ?E1, ?E2, ?E3, ?E4; try done.
    + apply Acquire_step_inv; [done|by rewrite si_conns0|done].
    + intros u Hu. assert (u ∈ waiting (sv_sem s) ∨ u ∈ woken (sv_sem s) ∨ u = c) as [Hu'|[Hu'| ->]] by set_solver;
        [rewrite <- Ha; apply si_wait0; tauto..|done].
    + intros u [= <-]. done.
  - split; simpl; try done.
    + apply Release_step_inv; [by rewrite si_conns0|done].
    + by rewrite si_conns0.
    + set_solver.
    + intros u Hu. by apply si_wait0, (released_waiting c).
    + intros u Hu. apply si_acq0 in Hu. set_solver.
  - by split.
  - by split.
Qed.

Lemma serve_rtc_inv limit s : rtc serve_step (serving_init limit) s → serving_inv limit s.
Proof.
  intros Hr. assert (serving_inv limit (serving_init limit)) as Hi by apply serving_inv_init.
  induction Hr as [|s1 s2 s3 Hstep _ IH]; [done|]. apply IH. by eapply serve_step_inv.
Qed.

(** ** Properties *)

(** C27: at most [maxConnections] connections are served at a time, in every
    interleaving of accepts, endings and shutdown; and the accept loop sleeps
    in [Acquire] only while every slot is taken. *)
Theorem connections_bounded (limit : Z) (s : Serving) (Hlimit : 0 < limit)
  (Hreach : rtc serve_step (serving_init limit) s) :
  Z.of_nat (size (sv_conns s)) ≤ limit ∧
  (∀ c, c ∈ waiting (sv_sem s) → Z.of_nat (size (sv_conns s)) = limit).
Proof.
  destruct (serve_rtc_inv limit s Hreach) as [Hsem Hmax Hconns _ Hwait _].
  pose proof (sem_count _ Hsem) as Hc. pose proof (sem_bound _ Hsem) as Hb.
  rewrite Hconns in Hc. split; [lia|]. intros c Hin.
  assert (waiting (sv_sem s) ≠ []) as Hne by (intros E; rewrite E in Hin; by apply not_elem_of_nil in Hin).
  pose proof (sem_no_lost_signal _ Hsem Hne) as Hsig.
  assert (woken (sv_sem s) = ∅) as Hk.
  { apply leibniz_equiv. apply elem_of_equiv_empty. intros u Hu.
    pose proof (Hwait u (or_intror Hu)) as H1. pose proof (Hwait c (or_introl Hin)) as H2.
    assert (u = c) as -> by congruence. by apply (sem_disj_ww _ Hsem c). }
  rewrite Hk, size_empty in Hsig. lia.
Qed.

(** One slot, one connection being served, and the listener closed. *)
Definition one_connection : Serving :=
  {| sv_sem := Acquire_step 1 (NewSemaphore 1); sv_acceptor := Accepting; sv_main := AwaitCancel;
     sv_accepted := ∅ ∪ {[1%nat]}; sv_conns := ∅ ∪ {[1%nat]}; sv_open := true |}.

Lemma one_connection_reachable : rtc serve_step (serving_init 1) one_connection.
Proof.
  eapply rtc_l; [apply (serve_accept 1%nat); [done|done|set_solver]|].
  eapply rtc_l; [apply (serve_acquire 1%nat); [done|apply not_elem_of_nil|done]|].
  apply rtc_refl.
Qed.

Lemma connections_bounded_witness :
  Z.of_nat (size (sv_conns one_connection)) ≤ 1 ∧
  (∀ c, c ∈ waiting (sv_sem one_connection) → Z.of_nat (size (sv_conns one_connection)) = 1).
Proof. apply (connections_bounded 1 one_connection); [reflexivity|exact one_connection_reachable]. Defined.

(** [HandleClientQueries] can return while a connection is being served: its
    wait group counts only the accept loop, not the connection handlers. *)
Theorem shutdown_abandons_connections :
  ∃ s, rtc serve_step (serving_init 1) s ∧ sv_main s = MainReturned ∧ sv_conns s ≠ ∅.
Proof.
  eexists. split.
  - etransitivity; [exact one_connection_reachable|].
    eapply rtc_l; [by apply serve_cancel|]. eapply rtc_l; [by apply serve_accept_closed|].
    eapply rtc_l; [by apply serve_return|]. apply rtc_refl.
  - split; [done|]. simpl. set_solver.
Qed.

(** On a connection without errors on which every request arrives on its own
    and fits the buffer, each request gets its reply, in order, the handler's
    state is threaded from one request to the next, and the connection stays
    open. *)
Theorem connection_serves_requests {S : Type} (handler : bytes → S → outcome (bytes * S))
  (server : TCPServer) (reqs : list bytes) (s : S) (replies : list bytes) (s' : S)
  (Hfit : Forall (λ r : bytes, r ≠ [] ∧ zlen r ≤ bufferSize server) reqs)
  (Hrun : handle_all handler reqs s = Done (replies, s')) :
  HandleConnections handler server (arrival <$> reqs) [] s = (replies, ConnOpen, s').
Proof. by apply HandleConnections_all. Qed.

(** A server with a small buffer, and a handler that echoes and counts. *)
Definition demo_server : TCPServer :=
  {| listener := 0; semaphore := None; idleTimeout := 0; maxConnections := 1; bufferSize := 16 |}.

Definition echo (q : bytes) (n : nat) : outcome (bytes * nat) := Done (q, S n).

Lemma connection_serves_requests_example :
  HandleConnections echo demo_server (arrival <$> [str "GET a"; str "GET b"]) [] 0%nat =
    ([str "GET a"; str "GET b"], ConnOpen, 2%nat).
Proof.
  apply (connection_serves_requests echo demo_server [str "GET a"; str "GET b"] 0%nat); [|reflexivity].
  constructor; [|constructor; [|constructor]]; (split; [discriminate|vm_compute; discriminate]).
Defined.

(** There is no framing: two requests that arrive before the server reads are
    handed to the handler as one query and get one reply, and a request longer
    than the buffer is handed over in two pieces, as two queries. *)
Theorem requests_not_framed {S : Type} (handler : bytes → S → outcome (bytes * S))
  (server : TCPServer) (r1 r2 : bytes) (s : S)
  (Hne : r1 ≠ []) (Hne2 : r2 ≠ []) (Hbuf : 0 < bufferSize server) :
  (zlen (r1 ++ r2) ≤ bufferSize server →
     HandleConnections handler server [arrival (r1 ++ r2)] [] s =
       match handler (r1 ++ r2) s with
       | Done (reply, s1) => ([reply], ConnOpen, s1)
       | Panicked => ([], ConnClosed, s)
       | Blocked => ([], ConnStuck, s)
       end) ∧
  (zlen r1 = bufferSize server → zlen r2 ≤ bufferSize server →
     HandleConnections handler server [arrival (r1 ++ r2); arrival []] [] s =
       match handler r1 s with
       | Done (reply1, s1) =>
           match handler r2 s1 with
           | Done (reply2, s2) => ([reply1; reply2], ConnOpen, s2)
           | Panicked => ([reply1], ConnClosed, s1)
           | Blocked => ([reply1], ConnStuck, s1)
           end
       | Panicked => ([], ConnClosed, s)
       | Blocked => ([], ConnStuck, s)
       end).
Proof.
  assert (∀ x : bytes, r1 ++ x ≠ []) as Hne' by (intros x; by destruct r1).
  split.
  - intros Hfit. rewrite HandleConnections_arrival by apply Hne'. simpl app.
    destruct (fits_whole _ _ Hfit) as [-> ->]. by destruct (handler (r1 ++ r2) s) as [[]| |].
  - intros Hlen Hfit. rewrite HandleConnections_arrival by apply Hne'. simpl app.
    assert (Z.to_nat (bufferSize server) = length r1) as -> by (unfold zlen in Hlen; lia).
    rewrite take_app_length, drop_app_length. destruct (handler r1 s) as [[reply1 s1]| |]; try done.
    rewrite HandleConnections_arrival by (by rewrite app_nil_r). rewrite app_nil_r.
    destruct (fits_whole _ _ Hfit) as [-> ->]. by destruct (handler r2 s1) as [[]| |].
Qed.

Lemma requests_not_framed_witness :
  (zlen (str "GET a" ++ str "GET b") ≤ 16 →
     HandleConnections echo demo_server [arrival (str "GET a" ++ str "GET b")] [] 0%nat =
       ([str "GET aGET b"], ConnOpen, 1%nat)) ∧
  (zlen (str "GET a") = 16 → zlen (str "GET b") ≤ 16 →
     HandleConnections echo demo_server [arrival (str "GET a" ++ str "GET b"); arrival []] [] 0%nat =
       ([str "GET a"; str "GET b"], ConnOpen, 2%nat)).
Proof.
  exact (requests_not_framed echo demo_server (str "GET a") (str "GET b") 0%nat
    ltac:(discriminate) ltac:(discriminate) eq_refl).
Defined.

(** C30: [NewTCPServer] with the three options on every branch: a nil logger and a
    listen error are reported without opening a socket; a zero connection
    limit and a zero buffer are refused, but leave the socket that was opened
    listening; otherwise the server has a positive limit and buffer, a
    non-negative timeout and a semaphore of its limit. *)
Theorem new_server_outcome {net : NetEnv} (address : bytes) (logger : option Logger)
  (timeout n size : Z) (ls : listeners) :
  let options := [WithServerTCPIdleTimeout timeout; WithServerTCPMaxConnectionNumber n;
                  WithServerTCPBufferSize size] in
  let '(r, ls') := NewTCPServer address logger options ls in
  match logger, listen_error address with
  | None, _ => r = Err ErrNetInvalidLogger ∧ ls' = ls
  | Some _, Some e => r = Err e ∧ ls' = ls
  | Some _, None =>
      ls' = ls ++ [(address, true)] ∧
      (n = 0 → r = Err ErrInvalidMaxConn) ∧
      (n ≠ 0 → size = 0 → r = Err ErrInvalidBufferSize) ∧
      (n ≠ 0 → size ≠ 0 → ∃ server, r = Ok server ∧ listener server = length ls ∧
         0 < maxConnections server ∧ 0 < bufferSize server ∧ 0 ≤ idleTimeout server ∧
         (0 < n → maxConnections server = n) ∧ (0 < size → bufferSize server = size) ∧
         semaphore server = Some (NewSemaphore (maxConnections server)))
  end.
Proof.
  unfold NewTCPServer. destruct logger; [|done]. destruct (listen_error address); [done|]. simpl.
  destruct ((if n <? 0 then 100 else n) =? 0) eqn:En.
  { assert (n = 0) as -> by (destruct (n <? 0) eqn:E; zbool; lia). by repeat split; intros. }
  assert (n ≠ 0) as Hn by (intros ->; done).
  destruct ((if size <? 0 then 4098 else size) =? 0) eqn:Es.
  { assert (size = 0) as -> by (destruct (size <? 0) eqn:E; zbool; lia). by repeat split; intros. }
  assert (size ≠ 0) as Hs by (intros ->; done).
  split; [done|]. split; [done|]. split; [done|]. intros _ _. eexists. split; [done|]. simpl.
  split; [done|]. destruct (n <? 0) eqn:E1, (size <? 0) eqn:E2, (timeout <? 0) eqn:E3; zbool;
    unfold Minute, Millisecond; repeat split; intros; try lia.
Qed.

(** The client returns the reply trimmed when it fits the message size; a
    longer reply is cut there, and what is left of it is taken for the reply
    to the next request. *)
Theorem client_reply_cut (client : TCPClient) (reply1 reply2 : bytes)
  (Hconn : conn client = Some true) (Hsize : 0 < client_maxMessageSize client) :
  (zlen reply1 ≤ client_maxMessageSize client →
     SendAndReceive client None None [] reply1 = Done (Ok (TrimSpace reply1), [])) ∧
  (client_maxMessageSize client < zlen reply1 →
     let rest := drop (Z.to_nat (client_maxMessageSize client)) reply1 in
     rest ≠ [] ∧
     SendAndReceive client None None [] reply1 =
       Done (Ok (TrimSpace (take (Z.to_nat (client_maxMessageSize client)) reply1)), rest) ∧
     (zlen rest = client_maxMessageSize client →
        SendAndReceive client None None rest reply2 = Done (Ok (TrimSpace rest), reply2))).
Proof.
  split.
  - intros Hfit. unfold SendAndReceive. rewrite Hconn. simpl app. by destruct (fits_whole _ _ Hfit) as [-> ->].
  - intros Hlong rest. split; [|split; [unfold SendAndReceive; by rewrite Hconn|]].
    + intros E. apply (f_equal length) in E. unfold rest in E. rewrite length_drop in E.
      unfold zlen in Hlong. simpl in E. lia.
    + intros Hrest. unfold SendAndReceive. rewrite Hconn.
      assert (Z.to_nat (client_maxMessageSize client) = length rest) as -> by (unfold zlen in Hrest; lia).
      by rewrite take_app_length, drop_app_length.
Qed.

Lemma client_reply_cut_witness :
  let client := {| conn := Some true; client_address := []; client_idleTimeout := 0; client_maxMessageSize := 7 |} in
  SendAndReceive client None None [] (str "VALUE abcdefgh") =
    Done (Ok (TrimSpace (str "VALUE a")), str "bcdefgh") ∧
  SendAndReceive client None None (str "bcdefgh") (str "OK") = Done (Ok (TrimSpace (str "bcdefgh")), str "OK").
Proof.
  intros client.
  destruct (client_reply_cut client (str "VALUE abcdefgh") (str "OK") eq_refl eq_refl) as [_ H].
  destruct (H eq_refl) as (_ & H1 & H2). split; [exact H1|exact (H2 eq_refl)].
Defined.

(** A closed client: closing again changes nothing, and every later exchange
    fails without a panic and without consuming what has arrived. *)
Lemma client_closed (client : TCPClient) (write_err read_err : error) (unread arrived : bytes) :
  TCPClient_Close (TCPClient_Close client) = TCPClient_Close client ∧
  (conn client ≠ None →
     ∃ e, SendAndReceive (TCPClient_Close client) write_err read_err unread arrived = Done (Err e, unread)).
Proof.
  unfold TCPClient_Close. destruct (conn client) as [b|] eqn:E; simpl.
  - split; [done|]. intros _. by eexists.
  - by rewrite E.
Qed.
