(* ===== verification/Database.v ===== *)
(** * The request dispatcher

    Models [internal/database/database.go]: a raw request is parsed by the
    compute layer and dispatched to the storage layer, and the reply is the
    text sent back to the client. *)

From S2P Require Import Prelude GoText Compute Config WalLog OS FileSystem Concurrency LogRecords HashTable Wal WalRuntime FlusherLog Engine Push Storage.

(** ** Interfaces *)

Class ComputeLayer (C : Type) := { cl_ParseAndValidate : C → Ctx → bytes → res (list bytes) }.

Class StorageLayer (S : Type) := {
  sl_Set : Ctx → bytes → bytes → S → outcome (error * S);
  sl_Del : Ctx → bytes → S → outcome (error * S);
  sl_Get : Ctx → bytes → S → bytes * error
}.

#[export] Instance compute_layer {UU : UnicodeUpper} : ComputeLayer Compute :=
  {| cl_ParseAndValidate := λ _ _ raw, ParseAndValidate raw |}.

#[export] Instance storage_layer {S} {cs : CommandStorage S} {qs : QueryStorage S} : StorageLayer (Storage S) :=
  {| sl_Set := Storage_Set; sl_Del := Storage_Del; sl_Get := Storage_Get |}.

(** ** The dispatcher *)

Record Database (C S : Type) := { compute : C; storage : S; db_log : Logger }.
Arguments compute {C S} _.
Arguments storage {C S} _.
Arguments db_log {C S} _.
Arguments Build_Database {C S} _ _ _.

(** Nil dependencies are [None]. *)
Definition NewDatabase {C S} (logger : option Logger) (computeLayer : option C) (storageLayer : option S)
  : res (Database C S) :=
  match computeLayer with
  | None => Err (EText (str "database.NewDatabase: compute is invalid"))
  | Some c =>
      match storageLayer with
      | None => Err (EText (str "database.NewDatabase: storage is invalid"))
      | Some s =>
          match logger with
          | None => Err (EText (str "database.NewDatabase: logger is invalid"))
          | Some l => Ok {| compute := c; storage := s; db_log := l |}
          end
      end
  end.

Section database.
Context {C S : Type} {cl : ComputeLayer C} {sl : StorageLayer S}.

Definition set_storage (db : Database C S) (s : S) : Database C S :=
  {| compute := compute db; storage := s; db_log := db_log db |}.

(** Indexing a slice out of range panics. *)
Definition handleSet (ctx : Ctx) (tokens : list bytes) (db : Database C S) : outcome (bytes * Database C S) :=
  if bool_decide (zlen tokens - 1 ≠ CommandSetQ) then Done (str "must be two arguments", db)
  else
    match tokens !! 1%nat, tokens !! 2%nat with
    | Some k, Some v =>
        obind (sl_Set ctx k v (storage db)) (λ '(err, s),
        match err with
        | Some _ => Done (str "failed SET", set_storage db s)
        | None => Done (str "OK", set_storage db s)
        end)
    | _, _ => Panicked
    end.

Definition handleGet (ctx : Ctx) (tokens : list bytes) (db : Database C S) : outcome (bytes * Database C S) :=
  if bool_decide (zlen tokens - 1 ≠ CommandGetQ) then Done (str "must be one argument", db)
  else
    match tokens !! 1%nat with
    | Some k =>
        let '(result, err) := sl_Get ctx k (storage db) in
        match err with
        | Some e => if bool_decide (e = ErrKeyNotFound) then Done (str "NOT_FOUND", db)
                    else Done (str "failed GET", db)
        | None => Done (str "VALUE " ++ result, db)
        end
    | None => Panicked
    end.

Definition handleDel (ctx : Ctx) (tokens : list bytes) (db : Database C S) : outcome (bytes * Database C S) :=
  if bool_decide (zlen tokens - 1 ≠ CommandDelQ) then Done (str "must be one argument", db)
  else
    match tokens !! 1%nat with
    | Some k =>
        obind (sl_Del ctx k (storage db)) (λ '(err, s),
        match err with
        | Some _ => Done (str "failed DEL", set_storage db s)
        | None => Done (str "DELETED", set_storage db s)
        end)
    | None => Panicked
    end.

Definition DatabaseHandler (ctx : Ctx) (raw : bytes) (db : Database C S) : outcome (bytes * Database C S) :=
  match cl_ParseAndValidate (compute db) ctx raw with
  | Err _ => Done (str "failed to parse command", db)
  | Ok tokens =>
      match tokens !! 0%nat with
      | None => Panicked
      | Some cmd =>
          if bool_decide (cmd = CommandSet) then handleSet ctx tokens db
          else if bool_decide (cmd = CommandGet) then handleGet ctx tokens db
          else if bool_decide (cmd = CommandDel) then handleDel ctx tokens db
          else Done (str "invalid command", db)
      end
  end.

(** A client's session: requests in order, with the replies. [pause] is what
    happens to the storage before a request. *)
Fixpoint session (pause : S → S) (ctx : Ctx) (raws : list bytes) (db : Database C S)
  : outcome (list bytes * Database C S) :=
  match raws with
  | [] => Done ([], db)
  | raw :: raws' =>
      obind (DatabaseHandler ctx raw (set_storage db (pause (storage db)))) (λ '(reply, db1),
      obind (session pause ctx raws' db1) (λ '(replies, db2),
      Done (reply :: replies, db2)))
  end.

End database.

(** ** Specification

    The replies a client may see, over a map of keys to values. Only a write
    may fail, and then it has no effect. *)

Inductive command_reply (m : gmap bytes bytes) : res (list bytes) → bytes → gmap bytes bytes → Prop :=
  | reply_unparsed e : command_reply m (Err e) (str "failed to parse command") m
  | reply_set k v : command_reply m (Ok [CommandSet; k; v]) (str "OK") (<[k := v]> m)
  | reply_set_failed k v : command_reply m (Ok [CommandSet; k; v]) (str "failed SET") m
  | reply_set_arity args : length args ≠ 2%nat →
      command_reply m (Ok (CommandSet :: args)) (str "must be two arguments") m
  | reply_get k v : m !! k = Some v → command_reply m (Ok [CommandGet; k]) (str "VALUE " ++ v) m
  | reply_get_absent k : m !! k = None → command_reply m (Ok [CommandGet; k]) (str "NOT_FOUND") m
  | reply_get_arity args : length args ≠ 1%nat →
      command_reply m (Ok (CommandGet :: args)) (str "must be one argument") m
  | reply_del k : command_reply m (Ok [CommandDel; k]) (str "DELETED") (delete k m)
  | reply_del_failed k : command_reply m (Ok [CommandDel; k]) (str "failed DEL") m
  | reply_del_arity args : length args ≠ 1%nat →
      command_reply m (Ok (CommandDel :: args)) (str "must be one argument") m
  | reply_unknown cmd args : cmd ∉ [CommandSet; CommandGet; CommandDel] →
      command_reply m (Ok (cmd :: args)) (str "invalid command") m.

(** The same where reads lag behind: [m] is the map with every write that was
    answered, [v] the map reads are answered from. A write is answered when all
    writes before it can be read, and possibly before it can be read itself. *)
Inductive lagging_reply (m v : gmap bytes bytes) : res (list bytes) → bytes → gmap bytes bytes → gmap bytes bytes → Prop :=
  | lagging_read args reply : command_reply v (Ok (CommandGet :: args)) reply v →
      lagging_reply m v (Ok (CommandGet :: args)) reply m v
  | lagging_written parsed reply m' : reply ∈ [str "OK"; str "DELETED"] → command_reply m parsed reply m' →
      lagging_reply m v parsed reply m' m
  | lagging_other parsed reply : reply ∉ [str "OK"; str "DELETED"] → (∀ args, parsed ≠ Ok (CommandGet :: args)) →
      command_reply m parsed reply m → lagging_reply m v parsed reply m v.

(** A sequence of requests and replies; at any time the last write may become
    visible. *)
Inductive lagging_session {UU : UnicodeUpper} :
    gmap bytes bytes → gmap bytes bytes → list bytes → list bytes → gmap bytes bytes → gmap bytes bytes → Prop :=
  | lagging_nil m v : lagging_session m v [] [] m v
  | lagging_catch_up m v raws replies m' v' :
      lagging_session m m raws replies m' v' → lagging_session m v raws replies m' v'
  | lagging_cons m v raw reply m1 v1 raws replies m2 v2 :
      lagging_reply m v (ParseAndValidate raw) reply m1 v1 → lagging_session m1 v1 raws replies m2 v2 →
      lagging_session m v (raw :: raws) (reply :: replies) m2 v2.

(** ** Lemmas *)

Section handler.
Context {UU : UnicodeUpper} {S : Type} {sl : StorageLayer S}.
Context (inv : S → Prop) (abs seen : S → gmap bytes bytes).
Context (Hlaws : lagging_laws sl_Set sl_Del sl_Get inv abs seen).

(** What a handler promises: a reply allowed by the specification. *)
Definition replies_to (parsed : res (list bytes)) (db : Database Compute S)
  (o : outcome (bytes * Database Compute S)) : Prop :=
  ∃ reply db' v', o = Done (reply, db') ∧ inv (storage db') ∧
    lagging_reply (abs (storage db)) (seen (storage db)) parsed reply (abs (storage db')) v' ∧
    (seen (storage db') = v' ∨ seen (storage db') = abs (storage db')).

(** A reply without an effect. *)
Lemma replies_other parsed reply db : inv (storage db) → reply ∉ [str "OK"; str "DELETED"] →
  (∀ args, parsed ≠ Ok (CommandGet :: args)) → command_reply (abs (storage db)) parsed reply (abs (storage db)) →
  replies_to parsed db (Done (reply, db)).
Proof. intros Hi Hr Hp Hc. exists reply, db, (seen (storage db)). split; [done|]. split; [done|]. by split; [constructor|left]. Qed.

Ltac not_a_success := apply (bool_decide_unpack _); vm_compute; done.

(** A write, done or failed. *)
Lemma replies_write parsed db f err s' done_reply failed_reply : lagged abs seen f err (storage db) s' → inv s' →
  done_reply ∈ [str "OK"; str "DELETED"] → failed_reply ∉ [str "OK"; str "DELETED"] →
  (∀ args, parsed ≠ Ok (CommandGet :: args)) → (∀ m, command_reply m parsed done_reply (f m)) →
  (∀ m, command_reply m parsed failed_reply m) →
  replies_to parsed db (match err with Some _ => Done (failed_reply, set_storage db s')
                                     | None => Done (done_reply, set_storage db s') end).
Proof.
  intros Hl Hi Hd Hf Hp Hc1 Hc2. destruct err as [e|]; destruct Hl as [Ha Hs].
  - exists failed_reply, (set_storage db s'), (seen (storage db)). split; [done|]. split; [done|]. simpl. rewrite Ha.
    split; [by apply lagging_other|]. done.
  - exists done_reply, (set_storage db s'), (abs (storage db)). split; [done|]. split; [done|]. simpl.
    split; [by apply lagging_written; [|rewrite Ha]|done].
Qed.

Lemma handleSet_spec ctx args db : inv (storage db) →
  replies_to (Ok (CommandSet :: args)) db (handleSet ctx (CommandSet :: args) db).
Proof.
  intros Hi. unfold handleSet. case_bool_decide as Hn.
  - apply replies_other; [done|not_a_success|done|]. apply reply_set_arity. intros E. apply Hn.
    unfold zlen. simpl. rewrite E. done.
  - assert (length args = 2%nat) as Hlen.
    { unfold zlen, CommandSetQ in Hn. simpl in Hn. lia. }
    destruct args as [|k [|v [|]]]; try discriminate. simpl.
    destruct (lag_set _ _ _ _ _ _ Hlaws ctx k v _ Hi) as (err & s' & -> & Hi' & Hl). cbn [obind].
    apply (replies_write _ db (insert k v) err s' (str "OK") (str "failed SET"));
      try done; try not_a_success; by constructor.
Qed.

Lemma handleDel_spec ctx args db : inv (storage db) →
  replies_to (Ok (CommandDel :: args)) db (handleDel ctx (CommandDel :: args) db).
Proof.
  intros Hi. unfold handleDel. case_bool_decide as Hn.
  - apply replies_other; [done|not_a_success|done|]. apply reply_del_arity. intros E. apply Hn.
    unfold zlen. simpl. rewrite E. done.
  - assert (length args = 1%nat) as Hlen.
    { unfold zlen, CommandDelQ in Hn. simpl in Hn. lia. }
    destruct args as [|k [|]]; try discriminate. simpl.
    destruct (lag_del _ _ _ _ _ _ Hlaws ctx k _ Hi) as (err & s' & -> & Hi' & Hl). cbn [obind].
    apply (replies_write _ db (delete k) err s' (str "DELETED") (str "failed DEL"));
      try done; try not_a_success; by constructor.
Qed.

Lemma handleGet_spec ctx args db : inv (storage db) →
  replies_to (Ok (CommandGet :: args)) db (handleGet ctx (CommandGet :: args) db).
Proof.
  intros Hi.
  assert (∀ reply, command_reply (seen (storage db)) (Ok (CommandGet :: args)) reply (seen (storage db)) →
    replies_to (Ok (CommandGet :: args)) db (Done (reply, db))) as Hread.
  { intros reply Hr. exists reply, db, (seen (storage db)). split; [done|]. split; [done|]. by split; [constructor|left]. }
  unfold handleGet. case_bool_decide as Hn.
  - apply Hread, reply_get_arity. intros E. apply Hn. unfold zlen. simpl. rewrite E. done.
  - assert (length args = 1%nat) as Hlen.
    { unfold zlen, CommandGetQ in Hn. simpl in Hn. lia. }
    destruct args as [|k [|]]; try discriminate. cbn [lookup list_lookup].
    rewrite (lag_get _ _ _ _ _ _ Hlaws ctx k _ Hi). destruct (seen (storage db) !! k) eqn:E.
    + apply Hread. by constructor.
    + rewrite bool_decide_eq_true_2 by done. apply Hread. by constructor.
Qed.

Lemma handler_spec ctx raw db : inv (storage db) →
  replies_to (ParseAndValidate raw) db (DatabaseHandler ctx raw db).
Proof.
  intros Hi. unfold DatabaseHandler. simpl.
  destruct (ParseAndValidate raw) as [tokens|e] eqn:Ep.
  - destruct tokens as [|cmd args].
    { exfalso. unfold ParseAndValidate in Ep. repeat case_match; by simplify_eq. }
    cbn [lookup list_lookup].
    case_bool_decide as H1; [subst cmd; by apply handleSet_spec|].
    case_bool_decide as H2; [subst cmd; by apply handleGet_spec|].
    case_bool_decide as H3; [subst cmd; by apply handleDel_spec|].
    apply replies_other; [done|not_a_success|congruence|]. constructor. rewrite !not_elem_of_cons.
    repeat split; try done. apply not_elem_of_nil.
  - apply replies_other; [done|not_a_success|done|]. constructor.
Qed.

(** The pause before a request makes at most the last write visible. *)
Lemma session_spec (pause : S → S) ctx raws :
  (∀ s, inv s → inv (pause s) ∧ abs (pause s) = abs s ∧ (seen (pause s) = seen s ∨ seen (pause s) = abs s)) →
  ∀ db, inv (storage db) →
  ∃ replies db', session pause ctx raws db = Done (replies, db') ∧ inv (storage db') ∧
    lagging_session (abs (storage db)) (seen (storage db)) raws replies (abs (storage db')) (seen (storage db')).
Proof.
  intros Hpause. induction raws as [|raw raws IH]; intros db Hi; cbn [session].
  - eexists _, _. split; [done|]. split; [done|]. constructor.
  - destruct (Hpause _ Hi) as (Hip & Hap & Hsp).
    destruct (handler_spec ctx raw (set_storage db (pause (storage db))) Hip) as (reply & db1 & v1 & -> & Hi1 & Hr & Hs1).
    cbn [obind storage set_storage] in *. destruct (IH db1 Hi1) as (replies & db2 & -> & Hi2 & Hs). cbn [obind].
    eexists _, _. split; [done|]. split; [done|]. rewrite Hap in Hr.
    assert (lagging_session (abs (storage db1)) v1 raws replies (abs (storage db2)) (seen (storage db2))) as Hs'.
    { destruct Hs1 as [<-|E]; [done|]. apply lagging_catch_up. by rewrite <- E at 2. }
    destruct Hsp as [E|E]; [rewrite E in Hr|apply lagging_catch_up; rewrite E in Hr]; by eapply lagging_cons.
Qed.

Lemma session_length m v raws replies m' v' : lagging_session m v raws replies m' v' → length replies = length raws.
Proof. induction 1; simpl; congruence. Qed.

End handler.

(** The layers of a running server, bottom up: log, engine, storage, database. *)
Definition server_database (h : Host) : Database Compute (Storage (Engine Host)) :=
  {| compute := {| compute_log := DiscardLogger |};
     storage := {| storage_log := DiscardLogger; engine := {| currentLSN := NewIDGenerator 0; commandEngine := h |} |};
     db_log := DiscardLogger |}.

(** What the other goroutines do before a request. *)
Definition others_turn {env : Env} {ids : GobTypeIds} {sorter : SortSlice} (s : Storage (Engine Host)) : Storage (Engine Host) :=
  {| storage_log := storage_log s;
     engine := {| currentLSN := currentLSN (engine s); commandEngine := yield (commandEngine (engine s)) |} |}.

Definition stack_ok (s : Storage (Engine Host)) : Prop := between_calls (commandEngine (engine s)).
Definition stack_eventual (s : Storage (Engine Host)) : gmap bytes bytes := eventual (host (commandEngine (engine s))).
Definition stack_visible (s : Storage (Engine Host)) : gmap bytes bytes := readable (host (commandEngine (engine s))).

(** The storage façade over the engine over the log keeps the contract. *)
Lemma stack_lagging {env : Env} {ids : GobTypeIds} {sorter : SortSlice} :
  lagging_laws (S := Storage (Engine Host)) sl_Set sl_Del sl_Get stack_ok stack_eventual stack_visible.
Proof.
  apply (storage_lagging (λ e, between_calls (commandEngine e)) (λ e, eventual (host (commandEngine e)))
    (λ e, readable (host (commandEngine e)))).
  apply (engine_lagging between_calls (λ h, eventual (host h)) (λ h, readable (host h))), wal_lagging.
Qed.

Lemma stack_pause {env : Env} {ids : GobTypeIds} {sorter : SortSlice} s : stack_ok s →
  stack_ok (others_turn s) ∧ stack_eventual (others_turn s) = stack_eventual s ∧
  (stack_visible (others_turn s) = stack_visible s ∨ stack_visible (others_turn s) = stack_eventual s).
Proof. intros Hs. destruct (yield_between _ Hs) as (H1 & H2 & H3 & _). done. Qed.

(** ** Properties *)

(** C17: the dispatcher is correct over any storage layer that keeps the
    key-value contract: every request gets exactly one reply, the one the
    specification allows for the parsed command, on every branch (unparsable
    input, wrong arity, unknown command, absent key, failed write), the map
    changes accordingly, and the handler neither blocks nor panics. *)
Theorem handler_correct {UU : UnicodeUpper} {S : Type} {sl : StorageLayer S}
  (inv : S → Prop) (abs : S → gmap bytes bytes)
  (Hlaws : kv_laws sl_Set sl_Del sl_Get inv abs)
  (ctx : Ctx) (raw : bytes) (db : Database Compute S) (Hinv : inv (storage db)) :
  ∃ reply db', DatabaseHandler ctx raw db = Done (reply, db') ∧ inv (storage db') ∧
    command_reply (abs (storage db)) (ParseAndValidate raw) reply (abs (storage db')).
Proof.
  destruct (handler_spec inv abs abs (kv_lagging _ _ _ _ _ Hlaws) ctx raw db Hinv) as (reply & db' & v' & E & Hi & Hr & _).
  exists reply, db'. split; [done|]. split; [done|].
  by inversion Hr as [args r Hc Ep|p r m' Hd Hc Ep|p r Hd Hg Hc Ep]; subst; rewrite <- ?Ep in *; congruence.
Qed.

(** A storage layer that is a map. *)
Definition map_storage : StorageLayer (gmap bytes bytes) :=
  {| sl_Set := λ _ k v m, Done (None, <[k := v]> m);
     sl_Del := λ _ k m, Done (None, delete k m);
     sl_Get := λ _ k m, match m !! k with Some v => (v, None) | None => ([], Some ErrKeyNotFound) end |}.

Lemma handler_correct_witness :
  let db := {| compute := {| compute_log := DiscardLogger |}; storage := (∅ : gmap bytes bytes);
               db_log := DiscardLogger |} in
  ∃ reply db', @DatabaseHandler _ _ (@compute_layer minimal_unicode_upper) map_storage [] (str "set k v") db =
      Done (reply, db') ∧ True ∧
    command_reply ∅ (@ParseAndValidate minimal_unicode_upper (str "set k v")) reply (storage db').
Proof.
  intros db. apply (@handler_correct minimal_unicode_upper _ map_storage (λ _, True) (λ m, m)); [|exact I].
  split.
  - intros ctx k v m _. exists None, (<[k := v]> m). auto.
  - intros ctx k m _. exists None, (delete k m). auto.
  - intros ctx k m _. reflexivity.
Defined.

(** C6: for a single client the whole stack, from text to disk, is a map whose
    reads lag at most one write behind. Whatever the flusher goroutine does
    before each operation of the client, and in every environment, faults
    included, every sequence of requests is answered: every write is answered
    as the map of all answered writes says and has no effect when it is
    answered with a failure; a GET is answered from that map or, while the
    flusher has not applied the record of the last successful write, from the
    map before this write; once the last write could be read it stays so, and
    the answer of the next write implies it. At the end the hash table is one
    of the two maps. *)
Theorem session_lags_one_write {env : Env} {ids : GobTypeIds} {sorter : SortSlice} {UU : UnicodeUpper}
  (x : Sys HashTable) (schedule : list (list action)) (ctx : Ctx) (raws : list bytes)
  (Hidle : idle x) (Hown : Forall (Forall own_move) schedule) :
  ∃ replies db', session others_turn ctx raws (server_database (started x schedule)) = Done (replies, db') ∧
    length replies = length raws ∧
    lagging_session (data (commandHashTable (wal x))) (data (commandHashTable (wal x))) raws replies
      (stack_eventual (storage db')) (stack_visible (storage db')).
Proof.
  destruct (session_spec _ _ _ stack_lagging others_turn ctx raws stack_pause (server_database (started x schedule)))
    as (replies & db' & H1 & _ & H2); [by apply started_between|].
  exists replies, db'. split; [done|]. split; [by eapply session_length|done].
Qed.

(** The flusher leaves the record of the SET unapplied until the second GET. *)
Definition slow_flusher : list (list action) :=
  [[]; [AFlusher; ATick]; []; [AFlusher; AFlusher]; [AFlusher]].

Lemma session_lags_one_write_witness :
  let raws := [str "SET user/1 alice"; str "GET user/1"; str "GET user/1"; str "DEL user/1"; str "GET user/1"] in
  let run := @session _ _ (@compute_layer minimal_unicode_upper)
      (@storage_layer _ (@engine_command_storage _ (@wal_command_engine steady_env default_ids insertion_sort_slice))
         (@engine_query_storage _ wal_query_engine)) (@others_turn steady_env default_ids insertion_sort_slice) [] raws
      (server_database (started (quick_sys 2) slow_flusher)) in
  (∃ replies db', run = Done (replies, db') ∧ length replies = 5%nat ∧
    @lagging_session minimal_unicode_upper ∅ ∅ raws replies (stack_eventual (storage db')) (stack_visible (storage db'))) ∧
  match run with
  | Done (replies, _) => replies = [str "OK"; str "NOT_FOUND"; str "VALUE alice"; str "DELETED"; str "VALUE alice"]
  | _ => False
  end.
Proof.
  intros raws run. split; [|vm_compute; reflexivity].
  apply (@session_lags_one_write steady_env default_ids insertion_sort_slice minimal_unicode_upper
    (quick_sys 2) slow_flusher [] raws); [apply quick_idle|].
  apply (bool_decide_unpack _). vm_compute. reflexivity.
Defined.
