(* ===== verification/Logging.v ===== *)
(** * What the layers of a request log

    The functions a request goes through in its client's goroutine, from the
    dispatcher down to the log, and the recovery of the log, with every record
    they log on the way ([database.go], [compute.go], [storage.go],
    [engine.go], [wal.go], [segment.go]). Erasing the records gives the
    functions of the other files. The flusher's records are in [FlusherLog.v]
    and are kept apart from the client's ([flusher_log]). *)

From S2P Require Import Prelude GoText Slog Compute Config Gob WalLog OS FileSystem Concurrency LogRecords HashTable Wal WalRuntime FlusherLog Engine Push Storage Database.

(** ** [segment.go] *)

Section segment.
Context {env : Env}.

Definition SetFile_logged (seg : Segment) (f : option nat) (w : world) : logged (Segment * world) :=
  match f with
  | None => mret (set_file seg None 0, w)
  | Some h =>
      let '(r, w1) := os_stat h w in
      match r with
      | Err e =>
          log_debug (str "failed to read segment file size") [(str "file", LFileName h); (str "err", LError e)];;
          mret (set_file seg (Some h) 0, w1)
      | Ok size => mret (set_file seg (Some h) size, w1)
      end
  end.

End segment.

(** ** [wal.go] *)

Section wal.
Context {env : Env} {ids : GobTypeIds} {sorter : SortSlice}.
Context {H : Type} {cht : CommandHashTable H}.

(** *** Recovery *)

Definition recovery_op : bytes * LogValue := (str "operation", LString (str "wal/Wal.Recovery")).

Fixpoint apply_until_logged (records : list Log) (t : H) : logged (error * H) :=
  match records with
  | [] => mret (None, t)
  | l :: ls =>
      '(err, t') ← apply_logged l t;
      match err with
      | Some e => mret (Some e, t')
      | None => apply_until_logged ls t'
      end
  end.

Definition recover_file_logged (p : bytes) (t : H) (w : world) : logged (error * H * world) :=
  let '(r, w1) := Segment_Read p w in
  match r with
  | Err e =>
      log_debug (str "failed to read wal segment file")
        [recovery_op; (str "file", LString p); (str "error", LErrorText e)];;
      mret (Some e, t, w1)
  | Ok data =>
      let '(logs, err) := decode_all data in
      match err with
      | Some e =>
          log_debug (str "failed to decode wal log") [recovery_op; (str "error", LErrorText e)];;
          mret (Some ErrFailedDecode, t, w1)
      | None =>
          '(err, t') ← apply_until_logged (sort_slice LSN logs) t;
          mret (err, t', w1)
      end
  end.

Fixpoint recover_files_logged (ps : list bytes) (t : H) (w : world) : logged (error * H * world) :=
  match ps with
  | [] => mret (None, t, w)
  | p :: ps' =>
      '(err, t1, w1) ← recover_file_logged p t w;
      match err with
      | Some e => mret (Some e, t1, w1)
      | None => recover_files_logged ps' t1 w1
      end
  end.

Definition open_last_logged (ps : list bytes) (seg : Segment) (w : world) : logged (res nat * Segment * world) :=
  match last ps with
  | None => Segment_CreateFile_logged seg w
  | Some p =>
      let '(r, w1) := os_open_append p w in
      match r with
      | Err e =>
          log_debug (str "failed to open last segment") [recovery_op; (str "error", LErrorText e)];;
          mret (Err ErrFailedOpenLastSegment, seg, w1)
      | Ok h => mret (Ok h, seg, w1)
      end
  end.

Definition Recovery_logged (s : Sys H) : logged (error * Sys H) :=
  let w := wal s in
  let '(r, o1) := Segment_GetList (segment w) (os s) in
  match r with
  | Err e =>
      log_debug (str "failed to get wal segment files list") [recovery_op; (str "error", LErrorText e)];;
      mret (Some ErrFailedToReadDirectory, {| wal := w; heap := heap s; os := o1 |})
  | Ok filesList =>
      '(err, t, o2) ← recover_files_logged filesList (commandHashTable w) o1;
      match err with
      | Some e => mret (Some e, {| wal := set_table w t; heap := heap s; os := o2 |})
      | None =>
          '(r, seg, o3) ← open_last_logged filesList (segment w) o2;
          match r with
          | Err e => mret (Some e, {| wal := set_segment (set_table w t) seg; heap := heap s; os := o3 |})
          | Ok h =>
              '(seg', o4) ← SetFile_logged seg (Some h) o3;
              mret (None, {| wal := set_segment (set_table w t) seg'; heap := heap s; os := o4 |})
          end
      end
  end.

End wal.

(** ** The layers above

    What a layer offers the one above it, with its records. *)

Class LoggedStore (S : Type) := {
  ls_Set : Ctx → bytes → bytes → S → logged (error * S);
  ls_Del : Ctx → bytes → S → logged (error * S);
  ls_Get : Ctx → bytes → S → logged (bytes * error)
}.

(** [push] logs nothing, and reads of the table are not logged. *)
#[export] Instance wal_logged {env : Env} {ids : GobTypeIds} {sorter : SortSlice} : LoggedStore Host :=
  {| ls_Set ctx key value h := silently (Wal_Set ctx key value h);
     ls_Del ctx key h := silently (Wal_Del ctx key h);
     ls_Get ctx key h := mret (table_get ctx key h) |}.

(** *** [engine.go] *)

Section engine.
Context {S : Type} {ls : LoggedStore S} {qe : QueryEngine S}.

Definition Engine_Set_logged (ctx : Ctx) (key value : bytes) (e : Engine S) : logged (error * Engine S) :=
  let '(txID, c) := Generate (currentLSN e) in
  if txID =? 0 then
    log_debug (str "engine failed to generate LSN") [];;
    mret (Some ErrFailedGenerateLSN, {| currentLSN := c; commandEngine := commandEngine e |})
  else
    let ctxCommand := WithValue ctx TxIDKey (CString (FormatInt txID)) in
    '(err, s) ← ls_Set ctxCommand key value (commandEngine e);
    mret (err, {| currentLSN := c; commandEngine := s |}).

Definition Engine_Del_logged (ctx : Ctx) (key : bytes) (e : Engine S) : logged (error * Engine S) :=
  let '(txID, c) := Generate (currentLSN e) in
  if txID =? 0 then
    log_debug (str "engine failed to generate LSN") [];;
    mret (Some ErrFailedGenerateLSN, {| currentLSN := c; commandEngine := commandEngine e |})
  else
    let ctxCommand := WithValue ctx TxIDKey (CString (FormatInt txID)) in
    '(err, s) ← ls_Del ctxCommand key (commandEngine e);
    mret (err, {| currentLSN := c; commandEngine := s |}).

#[export] Instance engine_logged : LoggedStore (Engine S) :=
  {| ls_Set := Engine_Set_logged; ls_Del := Engine_Del_logged;
     ls_Get ctx key e := mret (Engine_Get ctx key e) |}.

End engine.

(** *** [storage.go] *)

Section storage.
Context {S : Type} {ls : LoggedStore S}.

Definition Storage_Set_logged (ctx : Ctx) (key value : bytes) (s : Storage S) : logged (error * Storage S) :=
  '(err, e) ← ls_Set ctx key value (engine s);
  let s' := {| storage_log := storage_log s; engine := e |} in
  match err with
  | Some er =>
      log_error (str "set failed") [(str "key", LString key); (str "err", LError er)];;
      mret (Some er, s')
  | None => mret (None, s')
  end.

Definition Storage_Get_logged (ctx : Ctx) (key : bytes) (s : Storage S) : logged (bytes * error) :=
  '(result, err) ← ls_Get ctx key (engine s);
  match err with
  | Some er =>
      (if bool_decide (er = ErrKeyNotFound)
       then log_debug (str "get not found") [(str "key", LString key)]
       else log_error (str "get failed") [(str "key", LString key); (str "err", LError er)]);;
      mret ([], Some er)
  | None => mret (result, None)
  end.

Definition Storage_Del_logged (ctx : Ctx) (key : bytes) (s : Storage S) : logged (error * Storage S) :=
  '(err, e) ← ls_Del ctx key (engine s);
  let s' := {| storage_log := storage_log s; engine := e |} in
  match err with
  | Some er =>
      (if bool_decide (er = ErrKeyNotFound)
       then log_debug (str "del not found") [(str "key", LString key)]
       else log_error (str "del failed") [(str "key", LString key); (str "err", LError er)]);;
      mret (Some er, s')
  | None => mret (None, s')
  end.

#[export] Instance storage_logged : LoggedStore (Storage S) :=
  {| ls_Set := Storage_Set_logged; ls_Del := Storage_Del_logged; ls_Get := Storage_Get_logged |}.

End storage.

(** *** [compute.go] *)

Definition parse_op : bytes * LogValue := (str "operation", LString (str "compute.parse")).

Fixpoint validate_tokens_logged (tokens : list bytes) : logged error :=
  match tokens with
  | [] => mret None
  | token :: rest =>
      if ValidateArgument token then validate_tokens_logged rest
      else
        log_debug (str "invalid syntax of argument") [parse_op; (str "token", LString token)];;
        mret (Some ErrInvalidArgument)
  end.

Definition ParseAndValidate_logged {UU : UnicodeUpper} (raw : bytes) : logged (res (list bytes)) :=
  match Fields (TrimSpace raw) with
  | [] => log_debug (str "empty command") [parse_op];; mret (Err ErrEmptyCommand)
  | t0 :: rest =>
      let tokens := ToUpper t0 :: rest in
      if ValidateCommand (ToUpper t0) then
        err ← validate_tokens_logged tokens;
        match err with
        | None => mret (Ok tokens)
        | Some e => mret (Err e)
        end
      else
        log_debug (str "invalid syntax of command") [parse_op; (str "token", LString (ToUpper t0))];;
        mret (Err ErrInvalidCommand)
  end.

(** *** [database.go] *)

Section database.
Context {UU : UnicodeUpper} {S : Type} {ls : LoggedStore S}.

Definition operation (op : string) : bytes * LogValue := (str "operation", LString (str op)).

Definition success (cmd key : bytes) : list (bytes * LogValue) := [(str "cmd", LString cmd); (str "key", LString key)].

Definition handleSet_logged (ctx : Ctx) (tokens : list bytes) (db : Database Compute S)
  : logged (bytes * Database Compute S) :=
  if bool_decide (zlen tokens - 1 ≠ CommandSetQ) then
    log_debug (str "must be two arguments") [operation "database.handleSet"];;
    mret (str "must be two arguments", db)
  else
    match tokens !! 0%nat, tokens !! 1%nat, tokens !! 2%nat with
    | Some cmd, Some k, Some v =>
        '(err, s) ← ls_Set ctx k v (storage db);
        match err with
        | Some e =>
            log_debug (str "failed SET") [operation "database.handleSet"; (str "error", LError e)];;
            mret (str "failed SET", set_storage db s)
        | None =>
            log_info (str "command success") (success cmd k);;
            mret (str "OK", set_storage db s)
        end
    | _, _, _ => Panicked
    end.

Definition handleGet_logged (ctx : Ctx) (tokens : list bytes) (db : Database Compute S)
  : logged (bytes * Database Compute S) :=
  if bool_decide (zlen tokens - 1 ≠ CommandGetQ) then
    log_debug (str "must be one argument") [operation "database.handleGet"];;
    mret (str "must be one argument", db)
  else
    match tokens !! 0%nat, tokens !! 1%nat with
    | Some cmd, Some k =>
        '(result, err) ← ls_Get ctx k (storage db);
        match err with
        | Some e =>
            if bool_decide (e = ErrKeyNotFound) then mret (str "NOT_FOUND", db)
            else
              log_debug (str "failed GET") [operation "database.handleGet"; (str "error", LError e)];;
              mret (str "failed GET", db)
        | None =>
            log_debug (str "command success") (success cmd k);;
            mret (str "VALUE " ++ result, db)
        end
    | _, _ => Panicked
    end.

Definition handleDel_logged (ctx : Ctx) (tokens : list bytes) (db : Database Compute S)
  : logged (bytes * Database Compute S) :=
  if bool_decide (zlen tokens - 1 ≠ CommandDelQ) then
    log_debug (str "must be one argument") [operation "database.handleDel"];;
    mret (str "must be one argument", db)
  else
    match tokens !! 0%nat, tokens !! 1%nat with
    | Some cmd, Some k =>
        '(err, s) ← ls_Del ctx k (storage db);
        match err with
        | Some e =>
            log_debug (str "failed DEL") [operation "database.handleDel"; (str "error", LError e)];;
            mret (str "failed DEL", set_storage db s)
        | None =>
            log_debug (str "command success") (success cmd k);;
            mret (str "DELETED", set_storage db s)
        end
    | _, _ => Panicked
    end.

Definition DatabaseHandler_logged (ctx : Ctx) (raw : bytes) (db : Database Compute S)
  : logged (bytes * Database Compute S) :=
  tokens ← ParseAndValidate_logged raw;
  match tokens with
  | Err e =>
      log_debug (str "failed to parse command") [operation "database.handler"; (str "error", LErrorText e)];;
      mret (str "failed to parse command", db)
  | Ok tokens =>
      match tokens !! 0%nat with
      | None => Panicked
      | Some cmd =>
          log_debug (str "command start") [(str "cmd", LString cmd)];;
          if bool_decide (cmd = CommandSet) then handleSet_logged ctx tokens db
          else if bool_decide (cmd = CommandGet) then handleGet_logged ctx tokens db
          else if bool_decide (cmd = CommandDel) then handleDel_logged ctx tokens db
          else log_debug (str "invalid command") [];; mret (str "invalid command", db)
      end
  end.

(** A client's session, with what it makes the server log. *)
Fixpoint session_logged (pause : S → S) (ctx : Ctx) (raws : list bytes) (db : Database Compute S)
  : logged (list bytes * Database Compute S) :=
  match raws with
  | [] => mret ([], db)
  | raw :: raws' =>
      '(reply, db1) ← DatabaseHandler_logged ctx raw (set_storage db (pause (storage db)));
      '(replies, db2) ← session_logged pause ctx raws' db1;
      mret (reply :: replies, db2)
  end.

End database.

(** ** Lemmas: erasing the records *)

Section erase_segment.
Context {env : Env}.

Lemma SetFile_erase seg f w : erase (SetFile_logged seg f w) = Done (SetFile seg f w).
Proof.
  unfold SetFile_logged, SetFile. destruct f as [h|]; [|done]. by destruct (os_stat h w) as [[n|e] w1].
Qed.

End erase_segment.

Section erase_wal.
Context {env : Env} {ids : GobTypeIds} {sorter : SortSlice}.
Context {H : Type} {cht : CommandHashTable H}.

Lemma apply_until_erase ls : ∀ t : H, erase (apply_until_logged ls t) = Done (apply_until ls t).
Proof.
  induction ls as [|l ls IH]; intros t; [done|]. cbn [apply_until_logged apply_until].
  rewrite erase_bind, apply_erase, obind_Done. destruct (apply l t) as [[e|] t1]; [done|apply IH].
Qed.

Lemma recover_file_erase p (t : H) w : erase (recover_file_logged p t w) = Done (recover_file p t w).
Proof.
  unfold recover_file_logged, recover_file. destruct (Segment_Read p w) as [[data|e] w1]; [|done].
  destruct (decode_all data) as [ls [e|]]; [done|].
  rewrite erase_bind, apply_until_erase, obind_Done. by destruct (apply_until _ t).
Qed.

Lemma recover_files_erase ps : ∀ (t : H) w, erase (recover_files_logged ps t w) = Done (recover_files ps t w).
Proof.
  induction ps as [|p ps IH]; intros t w; [done|]. cbn [recover_files_logged recover_files].
  rewrite erase_bind, recover_file_erase, obind_Done. destruct (recover_file p t w) as [[[e|] t1] w1]; [done|apply IH].
Qed.

Lemma open_last_erase ps seg w : erase (open_last_logged ps seg w) = Done (open_last ps seg w).
Proof.
  unfold open_last_logged, open_last. destruct (last ps) as [p|]; [|apply Segment_CreateFile_erase].
  by destruct (os_open_append p w) as [[h|e] w1].
Qed.

Lemma Recovery_erase (s : Sys H) : erase (Recovery_logged s) = Done (Recovery s).
Proof.
  unfold Recovery_logged, Recovery. destruct (Segment_GetList _ _) as [[ps|e] o1]; [|done].
  rewrite erase_bind, recover_files_erase, obind_Done. destruct (recover_files _ _ _) as [[[e|] t] o2]; [done|].
  rewrite erase_bind, open_last_erase, obind_Done. destruct (open_last _ _ _) as [[[h|e] seg] o3]; [|done].
  rewrite erase_bind, SetFile_erase, obind_Done. by destruct (SetFile _ _ _).
Qed.

End erase_wal.

(** *** The layers above *)

(** What a layer does and logs, without its records, is what it does. *)
Record erases {S : Type} {ls : LoggedStore S}
  (set : Ctx → bytes → bytes → S → outcome (error * S))
  (del : Ctx → bytes → S → outcome (error * S))
  (get : Ctx → bytes → S → bytes * error) : Prop := {
  er_set ctx k v s : erase (ls_Set ctx k v s) = set ctx k v s;
  er_del ctx k s : erase (ls_Del ctx k s) = del ctx k s;
  er_get ctx k s : erase (ls_Get ctx k s) = Done (get ctx k s)
}.

Lemma wal_erases {env : Env} {ids : GobTypeIds} {sorter : SortSlice} :
  erases (S := Host) ce_Set ce_Del table_get.
Proof. split; [intros; apply erase_silently..|done]. Qed.

Lemma engine_erases {S : Type} {ls : LoggedStore S} {ce : CommandEngine S} {qe : QueryEngine S} get :
  erases ce_Set ce_Del get → erases (S := Engine S) Engine_Set Engine_Del Engine_Get.
Proof.
  intros [Hset Hdel _]. split; [| |done].
  - intros ctx k v e. simpl. unfold Engine_Set_logged, Engine_Set. destruct (Generate _) as [txID c].
    destruct (txID =? 0); [done|]. apply erase_bind_eq; [apply Hset|]. by intros [err s].
  - intros ctx k e. simpl. unfold Engine_Del_logged, Engine_Del. destruct (Generate _) as [txID c].
    destruct (txID =? 0); [done|]. apply erase_bind_eq; [apply Hdel|]. by intros [err s].
Qed.

Lemma storage_erases {S : Type} {ls : LoggedStore S} {cs : CommandStorage S} {qs : QueryStorage S} :
  erases cs_Set cs_Del qs_Get → erases (S := Storage S) Storage_Set Storage_Del Storage_Get.
Proof.
  intros [Hset Hdel Hget]. split.
  - intros ctx k v s. apply erase_bind_eq; [apply Hset|]. by intros [[er|] e].
  - intros ctx k s. apply erase_bind_eq; [apply Hdel|]. intros [[er|] e]; [|done]. by case_bool_decide.
  - intros ctx k s. simpl. unfold Storage_Get_logged, Storage_Get. rewrite erase_bind, Hget, obind_Done.
    destruct (qs_Get ctx k (engine s)) as [r [er|]]; [|done]. by case_bool_decide.
Qed.

Lemma validate_tokens_erase ts : erase (validate_tokens_logged ts) = Done (validate_tokens ts).
Proof. induction ts as [|t ts IH]; [done|]. simpl. by destruct (ValidateArgument t). Qed.

Lemma parse_erase {UU : UnicodeUpper} raw : erase (ParseAndValidate_logged raw) = Done (ParseAndValidate raw).
Proof.
  unfold ParseAndValidate_logged, ParseAndValidate. destruct (Fields _) as [|t0 rest]; [done|].
  destruct (ValidateCommand _); [|done]. rewrite erase_bind, validate_tokens_erase. by destruct (validate_tokens _).
Qed.

Section erase_database.
Context {UU : UnicodeUpper} {S : Type} {ls : LoggedStore S} {sl : StorageLayer S}.
Context (Her : erases sl_Set sl_Del sl_Get).

Lemma handleSet_erase ctx tokens db : erase (handleSet_logged ctx tokens db) = handleSet ctx tokens db.
Proof.
  unfold handleSet_logged, handleSet. case_bool_decide; [done|].
  destruct tokens as [|cmd [|k [|v ?]]]; try done. cbn [lookup list_lookup].
  apply erase_bind_eq; [apply Her|]. by intros [[e|] s].
Qed.

Lemma handleGet_erase ctx tokens db : erase (handleGet_logged ctx tokens db) = handleGet ctx tokens db.
Proof.
  unfold handleGet_logged, handleGet. case_bool_decide; [done|].
  destruct tokens as [|cmd [|k ?]]; try done. cbn [lookup list_lookup].
  rewrite erase_bind, (er_get _ _ _ Her), obind_Done. destruct (sl_Get _ _ _) as [r [e|]]; [|done]. by case_bool_decide.
Qed.

Lemma handleDel_erase ctx tokens db : erase (handleDel_logged ctx tokens db) = handleDel ctx tokens db.
Proof.
  unfold handleDel_logged, handleDel. case_bool_decide; [done|].
  destruct tokens as [|cmd [|k ?]]; try done. cbn [lookup list_lookup].
  apply erase_bind_eq; [apply Her|]. by intros [[e|] s].
Qed.

Lemma handler_erase ctx raw db : erase (DatabaseHandler_logged ctx raw db) = DatabaseHandler ctx raw db.
Proof.
  unfold DatabaseHandler_logged, DatabaseHandler. rewrite erase_bind, parse_erase, obind_Done. cbn [cl_ParseAndValidate compute_layer].
  destruct (ParseAndValidate raw) as [tokens|e]; [|done]. destruct (tokens !! 0%nat) as [cmd|]; [|done].
  rewrite erase_log_then. repeat case_bool_decide; [apply handleSet_erase|apply handleGet_erase|apply handleDel_erase|done].
Qed.

Lemma session_erase pause ctx raws : ∀ db, erase (session_logged pause ctx raws db) = session pause ctx raws db.
Proof.
  induction raws as [|raw raws IH]; intros db; [done|].
  apply erase_bind_eq; [apply handler_erase|]. intros [reply db1].
  apply erase_bind_eq; [apply IH|]. by intros [replies db2].
Qed.

End erase_database.

Lemma stack_erases {env : Env} {ids : GobTypeIds} {sorter : SortSlice} :
  erases (S := Storage (Engine Host)) sl_Set sl_Del sl_Get.
Proof. apply storage_erases, (engine_erases table_get), wal_erases. Qed.
