(* ===== verification/AuditTrail.v ===== *)
(** * What the log of the server shows

    From Info upwards the log of a client's session is an audit: in the records
    of the connection's goroutine one per acknowledged SET and one for every
    write that failed, and in those of the flusher one for every flush that
    failed. The two goroutines log beside each other, and nothing is said about
    the order of their records. *)

From S2P Require Import Prelude GoText Slog Compute Config Gob WalLog OS FileSystem Concurrency LogRecords HashTable Wal WalRuntime FlusherLog Engine Push Storage Database Logging.

(** ** Specification *)

Definition set_success (k : bytes) : Entry :=
  {| e_level := level_info; e_message := str "command success"; e_attrs := success CommandSet k |}.

Definition write_failed (msg : string) (k : bytes) (e : gerr) : Entry :=
  {| e_level := level_error; e_message := str msg; e_attrs := [(str "key", LString k); (str "err", LError e)] |}.

(** A write fails in the flusher, which says so in its own log [fl], or for want
    of a number. *)
Definition failure (e : gerr) (fl : list Entry) : Prop :=
  fl = [flush_failed e] ∨ e = ErrFailedGenerateLSN ∧ fl = [].

(** The audit of a request with its reply: the records of the connection and
    those of the flusher. *)
Inductive audited : res (list bytes) → bytes → list Entry → list Entry → Prop :=
  | audited_set k v : audited (Ok [CommandSet; k; v]) (str "OK") [set_success k] []
  | audited_set_failed k v e fl : failure e fl →
      audited (Ok [CommandSet; k; v]) (str "failed SET") [write_failed "set failed" k e] fl
  | audited_del_failed k e fl : failure e fl →
      audited (Ok [CommandDel; k]) (str "failed DEL") [write_failed "del failed" k e] fl
  | audited_nothing parsed reply : reply ∉ [str "OK"; str "failed SET"; str "failed DEL"] →
      audited parsed reply [] [].

(** Requests, replies and the two logs. *)
Inductive audits_of : list (res (list bytes)) → list bytes → list Entry → list Entry → Prop :=
  | audits_nil : audits_of [] [] [] []
  | audits_cons parsed reply es fl ps rs es' fl' : audited parsed reply es fl → audits_of ps rs es' fl' →
      audits_of (parsed :: ps) (reply :: rs) (es ++ es') (fl ++ fl').

(** ** Lemmas: the layers *)

Lemma parse_debug {UU : UnicodeUpper} raw : debug_only (ParseAndValidate_logged raw).
Proof.
  assert (∀ ts, debug_only (validate_tokens_logged ts)) as Hv.
  { induction ts as [|t ts IH]; cbn [validate_tokens_logged]; debug_only. }
  unfold ParseAndValidate_logged. debug_only.
Qed.

(** What a layer promises about the two logs: [failed] are the records of a
    write that fails, [flog] is the audit of the flusher's log. *)
Definition write_audit {S : Type} (inv : S → Prop) (flog : S → list Entry)
  (failed : gerr → list Entry → list Entry → Prop) (s : S) (o : logged (error * S)) : Prop :=
  ∃ err s' es fl, o = Done ((err, s'), es) ∧ inv s' ∧ flog s' = flog s ++ fl ∧
    match err with Some e => failed e (audit es) fl | None => audit es = [] ∧ fl = [] end.

Record audit_laws {S : Type} {ls : LoggedStore S} (inv : S → Prop) (flog : S → list Entry)
  (failed_set failed_del : bytes → gerr → list Entry → list Entry → Prop) : Prop := {
  au_set ctx k v s : inv s → write_audit inv flog (failed_set k) s (ls_Set ctx k v s);
  au_del ctx k s : inv s → write_audit inv flog (failed_del k) s (ls_Del ctx k s);
  au_get ctx k s : inv s → ∃ r err es, ls_Get ctx k s = Done ((r, err), es) ∧ audit es = [] ∧
    match err with Some e => e = ErrKeyNotFound | None => True end
}.

Definition wal_failure (k : bytes) (e : gerr) (es fl : list Entry) : Prop :=
  e ≠ ErrKeyNotFound ∧ es = [] ∧ fl = [flush_failed e].

Definition engine_failure (k : bytes) (e : gerr) (es fl : list Entry) : Prop :=
  e ≠ ErrKeyNotFound ∧ es = [] ∧ failure e fl.

Definition storage_failure (msg : string) (k : bytes) (e : gerr) (es fl : list Entry) : Prop :=
  failure e fl ∧ es = [write_failed msg k e].

(** A write of the layer below, with what this layer does and logs afterwards. *)
Lemma write_audit_bind {S T : Type} (inv : S → Prop) flog (inv' : T → Prop) flog' failed failed' s t
  (o : logged (error * S)) (f : error * S → logged (error * T)) :
  write_audit inv flog failed s o → flog' t = flog s →
  (∀ err s', inv s' → (∀ e, err = Some e → ∃ es fl, failed e es fl) →
     ∃ t' es, f (err, s') = Done ((err, t'), es) ∧ inv' t' ∧ flog' t' = flog s' ∧
       match err with Some e => ∀ es0 fl, failed e es0 fl → failed' e (es0 ++ audit es) fl | None => audit es = [] end) →
  write_audit inv' flog' failed' t (o ≫= f).
Proof.
  intros (err & s' & es & fl & -> & Hi & Hf & He) Ht Hk.
  destruct (Hk err s' Hi) as (t' & es' & E & Hi' & Hf' & He'); [intros e ->; eauto|].
  unfold mbind, logged_bind. cbn [obind]. rewrite E. cbn [obind].
  exists err, t', (es ++ es'), fl. split; [done|]. split; [done|]. split; [congruence|].
  rewrite audit_app. destruct err as [e|]; [by apply He'|]. destruct He as [-> ->]. by rewrite He'.
Qed.

Lemma table_get_error {S : Type} {qe : QueryEngine S} ctx k (s : S) :
  match (table_get ctx k s).2 with Some e => e = ErrKeyNotFound | None => True end.
Proof. unfold table_get. by destruct (HashTable_Get _ _) as [r []]. Qed.

Lemma push_audit {env : Env} {ids : GobTypeIds} {sorter : SortSlice} ctx k cid args h : between_calls h → call_ok cid args →
  write_audit between_calls (λ h, audit (flusher_log h)) (wal_failure k) h (silently (push ctx cid args h)).
Proof.
  intros Hh Hc. destruct (push_spec ctx cid args h Hh Hc) as (err & h' & -> & Hi & _ & _ & Hl & He).
  exists err, h', [], (failures err). split; [done|]. split; [done|]. split; [done|].
  destruct err as [e|]; [|done]. split; [congruence|done].
Qed.

Lemma wal_audit_laws {env : Env} {ids : GobTypeIds} {sorter : SortSlice} :
  audit_laws (S := Host) between_calls (λ h, audit (flusher_log h)) wal_failure wal_failure.
Proof.
  split.
  - intros ctx k v h Hi. apply push_audit; [done|by left].
  - intros ctx k h Hi. apply push_audit; [done|by right].
  - intros ctx k h _. pose proof (table_get_error ctx k h) as He. simpl.
    destruct (table_get ctx k h) as [r err]. by exists r, err, [].
Qed.

Lemma engine_audit_laws {S : Type} {ls : LoggedStore S} {qe : QueryEngine S} inv flog :
  audit_laws inv flog wal_failure wal_failure →
  audit_laws (S := Engine S) (λ e, inv (commandEngine e)) (λ e, flog (commandEngine e)) engine_failure engine_failure.
Proof.
  intros [Hset Hdel _].
  assert (∀ k (o : logged (error * S)) (e : Engine S) c, write_audit inv flog (wal_failure k) (commandEngine e) o →
    write_audit (λ e, inv (commandEngine e)) (λ e, flog (commandEngine e)) (engine_failure k) e
      ('(err, s) ← o; mret (err, {| currentLSN := c; commandEngine := s |}))) as Hcall.
  { intros k o e c Ho. eapply write_audit_bind; [exact Ho|done|]. intros err s' Hi _. eexists _, [].
    split; [done|]. split; [done|]. split; [done|]. destruct err as [er|]; [|done].
    intros es fl (Hne & -> & ->). split; [done|]. by split; [|left]. }
  assert (∀ k (e : Engine S) c, inv (commandEngine e) →
    write_audit (λ e, inv (commandEngine e)) (λ e, flog (commandEngine e)) (engine_failure k) e
      (log_debug (str "engine failed to generate LSN") [];;
       mret (Some ErrFailedGenerateLSN, {| currentLSN := c; commandEngine := commandEngine e |}))) as Hnum.
  { intros k e c Hi. eexists (Some _), _, _, []. split; [done|]. split; [done|]. split; [by rewrite app_nil_r|].
    split; [done|]. split; [done|by right]. }
  split.
  - intros ctx k v e Hi. simpl. unfold Engine_Set_logged. destruct (Generate _) as [txID c].
    destruct (txID =? 0); [by apply Hnum|by apply Hcall, Hset].
  - intros ctx k e Hi. simpl. unfold Engine_Del_logged. destruct (Generate _) as [txID c].
    destruct (txID =? 0); [by apply Hnum|by apply Hcall, Hdel].
  - intros ctx k e Hi. simpl. pose proof (table_get_error ctx k (commandEngine e)) as He.
    change (Engine_Get ctx k e) with (table_get ctx k (commandEngine e)).
    destruct (table_get ctx k (commandEngine e)) as [r err]. by exists r, err, [].
Qed.

Lemma storage_audit_laws {S : Type} {ls : LoggedStore S} inv flog :
  audit_laws inv flog engine_failure engine_failure →
  audit_laws (S := Storage S) (λ s, inv (engine s)) (λ s, flog (engine s))
    (storage_failure "set failed") (storage_failure "del failed").
Proof.
  intros [Hset Hdel Hget]. split.
  - intros ctx k v s Hi. eapply write_audit_bind; [by apply Hset|done|]. intros [er|] e Hi' _;
      (eexists _, _; split; [done|]; split; [done|]; split; [done|]); [|done].
    intros es fl (_ & -> & Hf). done.
  - intros ctx k s Hi. eapply write_audit_bind; [by apply Hdel|done|]. intros [er|] e Hi' He.
    + assert (er ≠ ErrKeyNotFound) as Hne by (destruct (He er eq_refl) as (? & ? & ? & _); done).
      rewrite bool_decide_eq_false_2 by done. eexists _, _. split; [done|]. split; [done|]. split; [done|].
      intros es fl (_ & -> & Hf). done.
    + eexists _, _. split; [done|]. split; [done|]. split; done.
  - intros ctx k s Hi. simpl. unfold Storage_Get_logged. destruct (Hget ctx k _ Hi) as (r & err & es & -> & He & Hk).
    destruct err as [er|]; cbn; [subst er|]; eexists _, _, _; (split; [done|]); (split; [|done]);
      by rewrite ?app_nil_r, ?audit_app, He.
Qed.

Section database_audit.
Context {UU : UnicodeUpper} {S : Type} {ls : LoggedStore S} (inv : S → Prop) (flog : S → list Entry).
Context (Hlaws : audit_laws inv flog (storage_failure "set failed") (storage_failure "del failed")).

(** A handler ends with a reply and its audit. *)
Definition audits (parsed : res (list bytes)) (db : Database Compute S) (o : logged (bytes * Database Compute S)) : Prop :=
  ∃ reply db' es fl, o = Done ((reply, db'), es) ∧ inv (storage db') ∧
    flog (storage db') = flog (storage db) ++ fl ∧ audited parsed reply (audit es) fl.

Lemma audits_debug parsed msg attrs db o : audits parsed db o → audits parsed db (log_debug msg attrs;; o).
Proof. intros (reply & db' & es & fl & -> & Hi & Ha). by eexists _, _, _, _. Qed.

Lemma audits_nothing parsed reply (db : Database Compute S) : inv (storage db) →
  reply ∉ [str "OK"; str "failed SET"; str "failed DEL"] → audits parsed db (mret (reply, db)).
Proof. intros Hi Hr. eexists _, _, _, []. split; [done|]. split; [done|]. rewrite app_nil_r. split; [done|]. by constructor. Qed.

Ltac not_a_write := apply (bool_decide_unpack _); vm_compute; done.

Lemma handleSet_audit ctx args db : inv (storage db) →
  audits (Ok (CommandSet :: args)) db (handleSet_logged ctx (CommandSet :: args) db).
Proof.
  intros Hi. unfold handleSet_logged. case_bool_decide as Hn.
  { apply audits_debug, audits_nothing; [done|]. not_a_write. }
  assert (length args = 2%nat) as Hlen by (unfold zlen, CommandSetQ in Hn; simpl in Hn; lia).
  destruct args as [|k [|v [|]]]; try discriminate. cbn [lookup list_lookup].
  destruct (au_set _ _ _ _ Hlaws ctx k v _ Hi) as ([e|] & s' & es & fl & -> & Hi' & Hf & He); cbn;
    eexists _, _, _, fl; (split; [done|]); (split; [done|]); (split; [done|]); rewrite audit_app.
  - destruct He as (Hfl & ->). by constructor.
  - destruct He as [-> ->]. constructor.
Qed.

Lemma handleDel_audit ctx args db : inv (storage db) →
  audits (Ok (CommandDel :: args)) db (handleDel_logged ctx (CommandDel :: args) db).
Proof.
  intros Hi. unfold handleDel_logged. case_bool_decide as Hn.
  { apply audits_debug, audits_nothing; [done|]. not_a_write. }
  assert (length args = 1%nat) as Hlen by (unfold zlen, CommandDelQ in Hn; simpl in Hn; lia).
  destruct args as [|k [|]]; try discriminate. cbn [lookup list_lookup].
  destruct (au_del _ _ _ _ Hlaws ctx k _ Hi) as ([e|] & s' & es & fl & -> & Hi' & Hf & He); cbn;
    eexists _, _, _, fl; (split; [done|]); (split; [done|]); (split; [done|]); rewrite audit_app.
  - destruct He as (Hfl & ->). by constructor.
  - destruct He as [-> ->]. constructor. not_a_write.
Qed.

Lemma handleGet_audit ctx args db : inv (storage db) →
  audits (Ok (CommandGet :: args)) db (handleGet_logged ctx (CommandGet :: args) db).
Proof.
  intros Hi. unfold handleGet_logged. case_bool_decide as Hn.
  { apply audits_debug, audits_nothing; [done|]. not_a_write. }
  assert (length args = 1%nat) as Hlen by (unfold zlen, CommandGetQ in Hn; simpl in Hn; lia).
  destruct args as [|k [|]]; try discriminate. cbn [lookup list_lookup].
  destruct (au_get _ _ _ _ Hlaws ctx k _ Hi) as (r & [e|] & es & -> & He & Hk); cbn; [subst e; cbn|];
    eexists _, _, _, []; (split; [done|]); (split; [done|]); (split; [by rewrite app_nil_r|]);
    rewrite audit_app, He; constructor; [not_a_write|].
  rewrite !not_elem_of_cons. repeat split; try discriminate. apply not_elem_of_nil.
Qed.

Lemma handler_audit ctx raw db : inv (storage db) →
  audits (ParseAndValidate raw) db (DatabaseHandler_logged ctx raw db).
Proof.
  intros Hi. unfold DatabaseHandler_logged. destruct (erase_Done _ _ (parse_erase raw)) as [es0 E].
  pose proof (parse_debug raw _ _ E) as He0. rewrite E.
  assert (∀ o, audits (ParseAndValidate raw) db o → audits (ParseAndValidate raw) db
    (obind o (λ '(b, es'), Done (b, es0 ++ es')))) as Hpre.
  { intros o (reply & db' & es & fl & -> & Hi' & Hf & Ha). eexists _, _, _, fl. split; [done|]. split; [done|].
    split; [done|]. by rewrite audit_app, He0. }
  apply Hpre. clear Hpre E. destruct (ParseAndValidate raw) as [tokens|e] eqn:Ep.
  2: { apply audits_debug, audits_nothing; [done|]. not_a_write. }
  destruct tokens as [|cmd args].
  { exfalso. unfold ParseAndValidate in Ep. repeat case_match; by simplify_eq. }
  cbn [lookup list_lookup]. apply audits_debug.
  case_bool_decide as H1; [subst cmd; by apply handleSet_audit|].
  case_bool_decide as H2; [subst cmd; by apply handleGet_audit|].
  case_bool_decide as H3; [subst cmd; by apply handleDel_audit|].
  apply audits_debug, audits_nothing; [done|]. not_a_write.
Qed.

End database_audit.

(** The flusher's audit below the storage. *)
Definition stack_flusher_audit (s : Storage (Engine Host)) : list Entry := audit (flusher_log (commandEngine (engine s))).

Lemma stack_audit_laws {env : Env} {ids : GobTypeIds} {sorter : SortSlice} :
  audit_laws (S := Storage (Engine Host)) stack_ok stack_flusher_audit
    (storage_failure "set failed") (storage_failure "del failed").
Proof.
  apply (storage_audit_laws (λ e, between_calls (commandEngine e)) (λ e, audit (flusher_log (commandEngine e)))).
  apply (engine_audit_laws between_calls (λ h, audit (flusher_log h))), wal_audit_laws.
Qed.

(** ** What is written *)

(** A logger at Info writes nothing for the other records. *)
Lemma written_audit {texts : LogTexts} {colors : Colors} now es :
  mjoin (written (PrettyLogger LevelInfo) now <$> es) = mjoin (written (PrettyLogger LevelInfo) now <$> audit es).
Proof.
  induction es as [|e es IH]; [done|]. unfold audit in *. rewrite filter_cons, fmap_cons. simpl. rewrite IH.
  destruct (decide (level_info ≤ e_level e)) as [Hl|Hl]; [done|].
  unfold written, log_call. simpl. unfold Pretty_Enabled. simpl.
  destruct (level_info <=? e_level e) eqn:E; zbool; [contradiction|done].
Qed.

(** The error of a failed write is given to [slog.Any], and the handler leaves
    it to [encoding/json], which finds no exported field in it: whatever the
    error (one of the operating system excepted), the same line is written. *)
Theorem write_error_blank {texts : LogTexts} {colors : Colors} (logger : Logger) (now : Time)
  (msg : string) (k : bytes) (e e' : gerr)
  (He : ∀ o, e ≠ EOS o) (He' : ∀ o, e' ≠ EOS o) :
  written logger now (write_failed msg k e) = written logger now (write_failed msg k e').
Proof.
  assert (error_json e = JObject []) as E by (destruct e; try done; by edestruct He).
  assert (error_json e' = JObject []) as E' by (destruct e'; try done; by edestruct He').
  unfold written, write_failed. simpl. by rewrite E, E'.
Qed.

(** A session on a disk that refuses the second write (its fourth call). *)
Definition flaky_disk : Env :=
  demo_env (λ c n, match c with SysWrite => if (n =? 3)%nat then Fault 0 else NoFault | _ => NoFault end).
