(* ===== verification/Secrecy.v ===== *)
(** * The log does not show stored values

    Two runs side by side: sessions that differ only in the values they store,
    of the same lengths, on states that differ only in such values, make the
    server log the same records at every level, in the goroutine of the
    connection and in that of the flusher, whatever the operating system and
    the scheduler do. *)

From S2P Require Import Prelude GoText Slog Compute Config Gob WalLog OS FileSystem Concurrency LogRecords HashTable Wal WalRuntime FlusherLog Engine Push Storage Database Logging.

(** ** Specification *)

(** Two requests that are the same but for the value they set. *)
Definition same_but_value {UU : UnicodeUpper} (raw raw' : bytes) : Prop :=
  raw = raw' ∨ ∃ k v v', zlen v = zlen v' ∧
    ParseAndValidate raw = Ok [CommandSet; k; v] ∧ ParseAndValidate raw' = Ok [CommandSet; k; v'].

(** ** Two computations in lockstep

    They log the same and end alike. *)

Definition lockstep {A B} (R : A → B → Prop) (m1 : logged A) (m2 : logged B) : Prop :=
  match m1, m2 with
  | Done (a, es), Done (b, es') => es = es' ∧ R a b
  | Blocked, Blocked => True
  | Panicked, Panicked => True
  | _, _ => False
  end.

Lemma lockstep_ret {A B} (R : A → B → Prop) a b : R a b → lockstep R (mret a) (mret b).
Proof. done. Qed.

Lemma lockstep_bind {A A' B B'} (R : A → A' → Prop) (Q : B → B' → Prop) m m' f g :
  lockstep R m m' → (∀ a b, R a b → lockstep Q (f a) (g b)) → lockstep Q (m ≫= f) (m' ≫= g).
Proof.
  intros Hm Hf. destruct m as [[a es]| |], m' as [[a' es']| |]; simpl in *; try done.
  destruct Hm as [-> HR]. specialize (Hf a a' HR). destruct (f a) as [[b l]| |], (g a') as [[b' l']| |]; simpl in *; try done.
  destruct Hf as [-> HQ]. done.
Qed.

Lemma lockstep_log {A B} (R : A → B → Prop) level msg attrs m m' :
  lockstep R m m' → lockstep R (log_at level msg attrs;; m) (log_at level msg attrs;; m').
Proof. intros H. eapply (lockstep_bind (λ _ _, True)); [done|]. auto. Qed.

Lemma lockstep_silently {A} (m : outcome A) : lockstep eq (silently m) (silently m).
Proof. by destruct m. Qed.

(** ** Worlds that differ in the contents of files only *)

Definition node_shape (n : node) : option nat :=
  match n with NFile d => Some (length d) | NDir => None end.

Record alike (w1 w2 : world) : Prop := {
  al_fs : node_shape <$> fs w1 = node_shape <$> fs w2;
  al_handles : handles w1 = handles w2;
  al_calls : calls w1 = calls w2;
  al_ticks : ticks w1 = ticks w2
}.

Lemma alike_lookup w1 w2 p : alike w1 w2 →
  (fs w1 !! p = None ∧ fs w2 !! p = None) ∨ (fs w1 !! p = Some NDir ∧ fs w2 !! p = Some NDir) ∨
  ∃ d1 d2, fs w1 !! p = Some (NFile d1) ∧ fs w2 !! p = Some (NFile d2) ∧ length d1 = length d2.
Proof.
  intros [Hf _ _ _]. apply (f_equal (λ m, m !! p)) in Hf. rewrite !lookup_fmap in Hf.
  destruct (fs w1 !! p) as [[]|], (fs w2 !! p) as [[]|]; simplify_eq/=; naive_solver.
Qed.

Lemma alike_is_dir w1 w2 p : alike w1 w2 → is_dir w1 p = is_dir w2 p.
Proof.
  intros H. unfold is_dir. by destruct (alike_lookup w1 w2 p H) as [[-> ->]|[[-> ->]|(? & ? & -> & -> & _)]].
Qed.

Lemma alike_insert f1 f2 p n1 n2 : node_shape <$> f1 = node_shape <$> f2 → node_shape n1 = node_shape n2 →
  node_shape <$> (<[p := n1]> f1 : gmap path node) = node_shape <$> (<[p := n2]> f2 : gmap path node).
Proof. intros Hf Hn. by rewrite !fmap_insert, Hf, Hn. Qed.

Lemma alike_append w1 w2 p d1 d2 : alike w1 w2 → length d1 = length d2 →
  node_shape <$> append_file p d1 (fs w1) = node_shape <$> append_file p d2 (fs w2).
Proof.
  intros H Hd. unfold append_file.
  destruct (alike_lookup w1 w2 p H) as [[-> ->]|[[-> ->]|(x1 & x2 & -> & -> & Hx)]]; [apply H|apply H|].
  apply alike_insert; [apply H|]. simpl. by rewrite !length_app, Hx, Hd.
Qed.

(** The results of a call in two worlds. *)
Definition agree {A} (x y : A * world) : Prop := x.1 = y.1 ∧ alike x.2 y.2.

Section os.
Context {env : Env}.

Lemma os_create_agree p w1 w2 : alike w1 w2 → agree (os_create p w1) (os_create p w2).
Proof.
  intros H. pose proof H as [Hf Hh Hc Ht]. unfold os_create. simpl. rewrite Hc.
  destruct (env_fault SysCreate (calls w2)); [|split; [done|split; simpl; congruence]].
  pose proof (alike_is_dir w1 w2 (removelast (resolve p)) H) as Hd. unfold is_dir in *. simpl. rewrite Hd. clear Hd.
  destruct (negb _); [split; [done|split; simpl; congruence]|].
  destruct (alike_lookup w1 w2 (resolve p) H) as [[-> ->]|[[-> ->]|(? & ? & -> & -> & _)]];
    [|split; [done|split; simpl; congruence]..].
  case_bool_decide; [split; [done|split; simpl; congruence]|]. unfold new_handle. simpl.
  split; [by rewrite Hh|]. split; simpl; try congruence. by apply alike_insert.
Qed.

Lemma os_write_agree h d1 d2 w1 w2 : alike w1 w2 → zlen d1 = zlen d2 → agree (os_write h d1 w1) (os_write h d2 w2).
Proof.
  intros H Hd. pose proof H as [Hf Hh Hc Ht]. unfold zlen in Hd. unfold os_write. rewrite Hh.
  destruct (handles w2 !! h) as [[p []]|]; [|by split..]. simpl. rewrite Hc.
  destruct (env_fault SysWrite (calls w2)) as [|n]; (split; [unfold zlen; simpl; congruence|]);
    split; simpl; try congruence; apply alike_append; try done; [lia|]. rewrite !length_take. lia.
Qed.

Lemma os_sync_agree h w1 w2 : alike w1 w2 → agree (os_sync h w1) (os_sync h w2).
Proof.
  intros [Hf Hh Hc Ht]. unfold os_sync. rewrite Hh. destruct (handles w2 !! h) as [[p []]|]; simpl; rewrite ?Hc;
    (split; [done|split; simpl; congruence]).
Qed.

Lemma os_close_agree h w1 w2 : alike w1 w2 → agree (os_close h w1) (os_close h w2).
Proof.
  intros [Hf Hh Hc Ht]. unfold os_close. rewrite Hh. destruct (handles w2 !! h) as [[p []]|]; simpl; rewrite ?Hc;
    (split; [done|split; simpl; congruence]).
Qed.

Lemma CreateFile_agree dir mask w1 w2 : alike w1 w2 → agree (CreateFile dir mask w1) (CreateFile dir mask w2).
Proof.
  intros [Hf Hh Hc Ht]. unfold CreateFile. simpl. rewrite Ht.
  set (v1 := {| fs := fs w1; handles := _; calls := _; ticks := _ |}).
  set (v2 := {| fs := fs w2; handles := _; calls := _; ticks := _ |}).
  assert (alike v1 v2) as Hv by (split; simpl; congruence).
  destruct (os_create_agree (Join dir (segment_name mask (env_clock (ticks w2)))) v1 v2 Hv) as [Hr Hw].
  destruct (os_create _ v1), (os_create _ v2). cbn [fst snd] in *. subst. done.
Qed.

Lemma WriteFile_agree h d1 d2 w1 w2 : alike w1 w2 → zlen d1 = zlen d2 → agree (WriteFile h d1 w1) (WriteFile h d2 w2).
Proof.
  intros H Hd. unfold WriteFile. destruct (os_write_agree h d1 d2 w1 w2 H Hd) as [Hr Hw].
  destruct (os_write h d1 w1) as [r v1], (os_write h d2 w2) as [r2 v2]. cbn [fst snd] in *. subst r2.
  destruct r as [n|e]; [|done]. destruct (os_sync_agree h v1 v2 Hw) as [Hr Hw'].
  destruct (os_sync h v1) as [e1 u1], (os_sync h v2) as [e2 u2]. cbn [fst snd] in *. subst e2. by destruct e1.
Qed.

(** ** The segment *)

Definition seg_alike {A} (x y : A * Segment * world) : Prop := x.1 = y.1 ∧ alike x.2 y.2.

Lemma write_current_lockstep seg d1 d2 w1 w2 : alike w1 w2 → zlen d1 = zlen d2 →
  lockstep seg_alike (write_current_logged seg d1 w1) (write_current_logged seg d2 w2).
Proof.
  intros H Hd. unfold write_current_logged. destruct (file seg) as [h|]; [|by apply lockstep_ret].
  destruct (WriteFile_agree h d1 d2 w1 w2 H Hd) as [Hr Hw].
  destruct (WriteFile h d1 w1) as [r v1], (WriteFile h d2 w2) as [r2 v2]. cbn [fst snd] in *. subst r2.
  destruct r; [by apply lockstep_ret|]. by apply lockstep_log, lockstep_ret.
Qed.

Lemma getNextSegment_lockstep seg w1 w2 : alike w1 w2 →
  lockstep seg_alike (getNextSegment_logged seg w1) (getNextSegment_logged seg w2).
Proof.
  intros H. unfold getNextSegment_logged. apply (lockstep_bind alike).
  - destruct (file seg) as [h|]; [|by apply lockstep_ret]. destruct (os_close_agree h w1 w2 H) as [Hr Hw].
    destruct (os_close h w1) as [e v1], (os_close h w2) as [e2 v2]. cbn [fst snd] in *. subst e2.
    destruct e; [by apply lockstep_log, lockstep_ret|by apply lockstep_ret].
  - intros v1 v2 Hv. destruct (CreateFile_agree (directory seg) (maskName seg) v1 v2 Hv) as [Hr Hw].
    destruct (CreateFile _ _ v1) as [r u1], (CreateFile _ _ v2) as [r2 u2]. cbn [fst snd] in *. subst r2.
    by destruct r; apply lockstep_ret.
Qed.

Lemma Segment_CreateFile_lockstep seg w1 w2 : alike w1 w2 →
  lockstep seg_alike (Segment_CreateFile_logged seg w1) (Segment_CreateFile_logged seg w2).
Proof.
  intros H. unfold Segment_CreateFile_logged.
  destruct (CreateFile_agree (directory seg) (maskName seg) w1 w2 H) as [Hr Hw].
  destruct (CreateFile _ _ w1) as [r u1], (CreateFile _ _ w2) as [r2 u2]. cbn [fst snd] in *. subst r2.
  destruct r; [by apply lockstep_ret|by apply lockstep_log, lockstep_ret].
Qed.

Lemma rotate_and_write_lockstep seg d1 d2 w1 w2 : alike w1 w2 → zlen d1 = zlen d2 →
  lockstep seg_alike (rotate_and_write_logged seg d1 w1) (rotate_and_write_logged seg d2 w2).
Proof.
  intros H Hd. unfold rotate_and_write_logged, must_rotate. rewrite Hd.
  destruct (_ && _); [|by apply write_current_lockstep].
  eapply lockstep_bind; [by apply getNextSegment_lockstep|].
  intros [[err seg1] v1] [[err2 seg2] v2] [Hr Hw]. simpl in *. simplify_eq.
  destruct err2; [by apply lockstep_ret|by apply write_current_lockstep].
Qed.

Lemma Segment_Write_lockstep seg d1 d2 w1 w2 : alike w1 w2 → zlen d1 = zlen d2 →
  lockstep seg_alike (Segment_Write_logged seg d1 w1) (Segment_Write_logged seg d2 w2).
Proof.
  intros H Hd. unfold Segment_Write_logged. destruct (file seg); [by apply rotate_and_write_lockstep|].
  eapply lockstep_bind; [by apply Segment_CreateFile_lockstep|].
  intros [[r seg1] v1] [[r2 seg2] v2] [Hr Hw]. simpl in *. simplify_eq.
  destruct r2; [by apply rotate_and_write_lockstep|by apply lockstep_ret].
Qed.

End os.

(** ** Encodings of the same length *)

Section encoding.
Context {ids : GobTypeIds}.

Lemma encodeString_alike s s' : zlen s = zlen s' → zlen (encodeString s) = zlen (encodeString s').
Proof. intros H. unfold encodeString. by rewrite !zlen_app, H. Qed.

Lemma encodeStrings_alike args args' : Forall2 (λ a a', zlen a = zlen a') args args' →
  zlen (encodeStrings args) = zlen (encodeStrings args').
Proof.
  intros H. unfold encodeStrings.
  assert (zlen args = zlen args') as -> by (unfold zlen; by rewrite (Forall2_length _ _ _ H)).
  rewrite !zlen_app. f_equal. induction H as [|a a' args args' Ha _ IH]; [done|].
  change (mjoin (encodeString <$> a :: args)) with (encodeString a ++ mjoin (encodeString <$> args)).
  change (mjoin (encodeString <$> a' :: args')) with (encodeString a' ++ mjoin (encodeString <$> args')).
  by rewrite !zlen_app, IH, (encodeString_alike a a' Ha).
Qed.

Lemma value_message_alike lsn cid args args' : Forall2 (λ a a', zlen a = zlen a') args args' →
  zlen (value_message {| LSN := lsn; CommandID := cid; Arguments := args |}) =
  zlen (value_message {| LSN := lsn; CommandID := cid; Arguments := args' |}).
Proof.
  intros H. unfold value_message, encodeFields. cbn [LSN CommandID Arguments].
  assert (bool_decide (args ≠ []) = bool_decide (args' ≠ [])) as -> by (apply bool_decide_ext; by destruct H).
  rewrite !zlen_app. f_equal. f_equal. f_equal. f_equal.
  case_bool_decide; [|done]. by rewrite !zlen_app, (encodeStrings_alike args args' H).
Qed.

(** One record by a fresh encoder. *)
Lemma encode_one_alike l l' : zlen (value_message l) = zlen (value_message l') →
  (encode_logs [l] NewEncoder).2 = (encode_logs [l'] NewEncoder).2 ∧
  zlen (out (encode_logs [l] NewEncoder).1) = zlen (out (encode_logs [l'] NewEncoder).1).
Proof.
  intros H. simpl. unfold EncodeTo. simpl. rewrite H. destruct (tooBig <? _); simpl; [done|].
  split; [done|]. unfold frame. by rewrite !zlen_app, H.
Qed.

End encoding.

(** ** The log *)

(** Records of a call of [Set] or [Del] with values of the same length. *)
Definition calls_alike (cid : Z) (args args' : list bytes) : Prop :=
  (cid = CommandSetID ∧ ∃ k v v', args = [k; v] ∧ args' = [k; v'] ∧ zlen v = zlen v') ∨
  (cid = CommandDelID ∧ ∃ k, args = [k] ∧ args' = [k]).

Lemma calls_alike_lengths cid args args' : calls_alike cid args args' → Forall2 (λ a a', zlen a = zlen a') args args'.
Proof. intros [(_ & k & v & v' & -> & -> & H)|(_ & k & -> & ->)]; repeat constructor; done. Qed.

Record log_alike (l l' : Log) : Prop := {
  la_lsn : LSN l = LSN l';
  la_id : CommandID l = CommandID l';
  la_args : calls_alike (CommandID l) (Arguments l) (Arguments l')
}.

Definition request_alike (r r' : WriteRequest) : Prop := log_alike (log r) (log r') ∧ promise r = promise r'.

Definition tables_alike (t t' : HashTable) : Prop := zlen <$> data t = zlen <$> data t'.

(** Systems with at most one request under way, that differ in values only. *)
Record sys_alike (s1 s2 : Sys HashTable) : Prop := {
  sa_batch : Forall2 request_alike (batch (wal s1)) (batch (wal s2));
  sa_queue : Forall2 (Forall2 request_alike) (batches (wal s1)) (batches (wal s2));
  sa_one : (length (batch (wal s1) ++ mjoin (batches (wal s1))) ≤ 1)%nat;
  sa_volume : activeBatchVolume (wal s1) = activeBatchVolume (wal s2);
  sa_cfg : cfg (wal s1) = cfg (wal s2);
  sa_segment : segment (wal s1) = segment (wal s2);
  sa_table : tables_alike (commandHashTable (wal s1)) (commandHashTable (wal s2));
  sa_heap : heap s1 = heap s2;
  sa_os : alike (os s1) (os s2)
}.

Definition flusher_alike (f1 f2 : flusher_state) : Prop :=
  match f1, f2 with
  | At k1, At k2 => k1 = k2
  | Applying rest1 k1, Applying rest2 k2 => Forall2 log_alike rest1 rest2 ∧ k1 = k2
  | _, _ => False
  end.

Record rt_alike (s1 s2 : RT) : Prop := {
  ra_sys : sys_alike (sys s1) (sys s2);
  ra_flusher : flusher_alike (flusher s1) (flusher s2);
  ra_cancelled : cancelled s1 = cancelled s2
}.

Lemma log_value_alike {ids : GobTypeIds} l l' : log_alike l l' → zlen (value_message l) = zlen (value_message l').
Proof.
  intros [Hl Hi Ha]. destruct l as [lsn cid args], l' as [lsn' cid' args']. simpl in *. subst.
  by apply value_message_alike, (calls_alike_lengths cid').
Qed.

Section wal.
Context {env : Env} {ids : GobTypeIds} {sorter : SortSlice}.

(** A batch of at most one request. *)
Lemma batch_alike b b' : Forall2 request_alike b b' → (length b ≤ 1)%nat →
  b = [] ∧ b' = [] ∨ ∃ r r', b = [r] ∧ b' = [r'] ∧ request_alike r r'.
Proof.
  intros H Hl. inversion H as [|r r' bs bs' Hr Hbs]; subst; [by left|right].
  destruct Hbs; [eauto|simpl in Hl; lia].
Qed.

Lemma apply_lockstep l l' t t' : log_alike l l' → tables_alike t t' →
  lockstep (λ '(e, u) '(e', u'), e = e' ∧ tables_alike u u') (apply_logged l t) (apply_logged l' t').
Proof.
  destruct l as [lsn cid args], l' as [lsn' cid' args']. intros [Hl Hi Ha] Ht. simpl in *. subst.
  destruct Ha as [(-> & k & v & v' & -> & -> & H)|(-> & k & -> & ->)]; (split; [done|]); (split; [done|]); unfold tables_alike in *; simpl.
  - by rewrite !fmap_insert, Ht, H.
  - by rewrite !fmap_delete, Ht.
Qed.

(** Notification depends on the promises only. *)
Lemma notification_one resp r r' h : request_alike r r' →
  lockstep (λ '(rs, h1) '(rs', h2), h1 = h2 ∧ ∃ q q', rs = [q] ∧ rs' = [q'] ∧ request_alike q q')
    (silently (notification resp [r] h)) (silently (notification resp [r'] h)).
Proof.
  intros [Hl Hp]. destruct r as [l p], r' as [l' p']. simpl in *. subst p'.
  destruct (Promise_Set resp p h) as [[q h1]| |]; simpl; try done. split; [done|]. split; [done|]. by eexists _, _.
Qed.

(** The two requests under way are taken out of the systems first. *)
Lemma flush_lockstep b b' k s1 s2 : Forall2 request_alike b b' → (length b ≤ 1)%nat → rt_alike s1 s2 →
  lockstep rt_alike (flush_begin_logged b k s1) (flush_begin_logged b' k s2).
Proof.
  intros Hb Hone [Hs Hf Hc]. pose proof Hs as [Hba Hq Ho Hvol Hcfg Hseg Htab Hheap Hos]. unfold flush_begin_logged.
  destruct (batch_alike b b' Hb Hone) as [[-> ->]|(r & r' & -> & -> & Hr)].
  { change (0 <? zlen []) with false. cbn match. by apply lockstep_ret. }
  change (0 <? zlen [r]) with true. change (0 <? zlen [r']) with true. cbn match.
  apply (lockstep_bind (λ '(e1, rs1, x1) '(e2, rs2, x2), e1 = e2 ∧ sys_alike x1 x2 ∧
    ∃ q q', rs1 = [q] ∧ rs2 = [q'] ∧ request_alike q q')).
  - unfold WalWriter_Write_logged.
    destruct (encode_one_alike (log r) (log r')) as [He Hlen]; [by apply log_value_alike, Hr|].
    change (log <$> [r]) with [log r]. change (log <$> [r']) with [log r'].
    destruct (encode_logs [log r] NewEncoder) as [enc1 e1], (encode_logs [log r'] NewEncoder) as [enc2 e2].
    cbn [fst snd] in *. subst e2. rewrite Hheap, Hseg. destruct e1 as [e|].
    + eapply lockstep_bind; [by apply notification_one|]. intros [rs1 h1] [rs2 h2] (-> & Hqs).
      apply lockstep_ret. split; [done|]. split; [by split|done].
    + eapply lockstep_bind; [by apply Segment_Write_lockstep|].
      intros [[err1 seg1] w1] [[err2 seg2] w2] [Hr' Hw]. cbn [fst snd] in *. simplify_eq.
      eapply lockstep_bind; [by apply notification_one|]. intros [rs1 h1] [rs2 h2] (-> & Hqs).
      apply lockstep_ret. split; [done|]. split; [by split|done].
  - intros [[err1 rs1] x1] [[err2 rs2] x2] (-> & Hx & q & q' & -> & -> & Hqq).
    destruct err2 as [e|]; [by apply lockstep_log, lockstep_ret|].
    rewrite !sort_slice_singleton. apply lockstep_ret. split; [done| |done].
    split; [|done]. constructor; [apply Hqq|constructor].
Qed.

Lemma seal_lockstep k s1 s2 : rt_alike s1 s2 → lockstep rt_alike (flusher_seal_logged k s1) (flusher_seal_logged k s2).
Proof.
  intros [Hs Hf Hc]. pose proof Hs as [Hba Hq Ho Hvol Hcfg Hseg Htab Hheap Hos].
  unfold flusher_seal_logged. cbn [SealBatch WithLock]. rewrite length_app in Ho.
  apply flush_lockstep; [done|lia|]. split; [|done|done]. split; try done; simpl; lia.
Qed.

Lemma receive_lockstep k s1 s2 : rt_alike s1 s2 →
  match flusher_receive_logged k s1, flusher_receive_logged k s2 with
  | Some o1, Some o2 => lockstep rt_alike o1 o2
  | None, None => True
  | _, _ => False
  end.
Proof.
  intros [Hs Hf Hc]. pose proof Hs as [Hba Hq Ho Hvol Hcfg Hseg Htab Hheap Hos].
  unfold flusher_receive_logged. destruct Hq as [|b b' q q' Hb Hq]; [done|].
  rewrite !length_app in Ho. simpl in Ho. rewrite length_app in Ho.
  apply flush_lockstep; [done|lia|]. split; [|done|done]. split; try done. simpl. rewrite length_app. lia.
Qed.

Lemma flusher_apply_lockstep l l' rest rest' k s1 s2 : log_alike l l' → Forall2 log_alike rest rest' →
  sys_alike (sys s1) (sys s2) → cancelled s1 = cancelled s2 →
  lockstep rt_alike (flusher_apply_logged l rest k s1) (flusher_apply_logged l' rest' k s2).
Proof.
  intros Hl Hrest Hs Hc. unfold flusher_apply_logged. pose proof Hs as [Hba Hq Ho Hvol Hcfg Hseg Htab Hheap Hos].
  eapply lockstep_bind; [by apply apply_lockstep|]. intros [e t] [e' t'] [-> Ht].
  assert (rt_alike (set_flusher (set_sys s1 (with_wal (sys s1) (set_table (wal (sys s1)) t))) (Applying rest k))
    (set_flusher (set_sys s2 (with_wal (sys s2) (set_table (wal (sys s2)) t'))) (Applying rest' k))) as Hr by by split.
  destruct e' as [e'|]; [|by apply lockstep_ret]. rewrite (la_lsn _ _ Hl). by apply lockstep_log, lockstep_ret.
Qed.

(** The results of a move in two runtimes. *)
Definition act_agree (o1 o2 : option (RT * list Entry)) : Prop :=
  match o1, o2 with
  | Some (s1, es1), Some (s2, es2) => es1 = es2 ∧ rt_alike s1 s2
  | None, None => True
  | _, _ => False
  end.

Lemma finished_agree o1 o2 : lockstep rt_alike o1 o2 → act_agree (finished_logged o1) (finished_logged o2).
Proof. destruct o1 as [[s1 es1]| |], o2 as [[s2 es2]| |]; simpl; done. Qed.

Lemma act_lockstep a s1 s2 : own_move a → rt_alike s1 s2 → act_agree (act_logged a s1) (act_logged a s2).
Proof.
  intros Ha Hs. pose proof Hs as [Hx Hf Hc]. pose proof (receive_lockstep Loop s1 s2 Hs) as Hrec.
  pose proof (receive_lockstep Draining s1 s2 Hs) as Hdr. unfold act_logged.
  destruct Ha as [-> | ->]; destruct (flusher s1) as [k1|rest1 k1] eqn:E1, (flusher s2) as [k2|rest2 k2] eqn:E2; try done;
    cbn [act]; rewrite ?E1, ?E2.
  - simpl in Hf. subst k2. destruct k1.
    + rewrite Hc. split; [done|]. split; [done|simpl; by destruct (cancelled s2)|done].
    + destruct (flusher_receive_logged Loop s1), (flusher_receive_logged Loop s2); try done. by apply finished_agree.
    + destruct (flusher_receive_logged Draining s1), (flusher_receive_logged Draining s2); try done; apply finished_agree; [done|].
      by apply seal_lockstep.
    + done.
  - destruct Hf as [[|l l' rest rest' Hl Hrest] ->]; [by split|]. by apply finished_agree, flusher_apply_lockstep; try apply Hs.
  - simpl in Hf. subst k2. destruct k1; [done| |done|done]. by apply finished_agree, seal_lockstep.
  - destruct Hf as [_ ->]. by destruct rest1, rest2.
Qed.

(** ** The client beside the flusher *)

Record host_alike (h1 h2 : Host) : Prop := {
  ha_rt : rt_alike (host h1) (host h2);
  ha_log : flusher_log h1 = flusher_log h2;
  ha_turns : turns h1 = turns h2;
  ha_own : Forall (Forall own_move) (turns h1)
}.

Lemma move_alike a h1 h2 : own_move a → host_alike h1 h2 → host_alike (move h1 a) (move h2 a).
Proof.
  intros Ha [Hr Hl Ht Ho]. unfold move. pose proof (act_lockstep a _ _ Ha Hr) as Hact.
  destruct (act_logged a (host h1)) as [[s1 es1]|], (act_logged a (host h2)) as [[s2 es2]|]; try done.
  destruct Hact as [-> Hs]. split; simpl; congruence.
Qed.

Lemma moves_alike moves : Forall own_move moves → ∀ h1 h2, host_alike h1 h2 → host_alike (foldl move h1 moves) (foldl move h2 moves).
Proof. induction 1 as [|a moves Ha _ IH]; intros h1 h2 H; [done|]. by apply IH, move_alike. Qed.

Lemma yield_alike h1 h2 : host_alike h1 h2 → host_alike (yield h1) (yield h2).
Proof.
  intros H. pose proof H as [Hr Hl Ht Ho]. unfold yield. rewrite <- Ht. destruct (turns h1) as [|moves rest] eqn:E; [done|].
  apply Forall_cons in Ho as [Hm Ho]. apply moves_alike; [done|]. by split.
Qed.

Lemma flusher_turn_alike h1 h2 : host_alike h1 h2 → host_alike (flusher_turn h1) (flusher_turn h2).
Proof.
  intros H. unfold flusher_turn. pose proof (act_lockstep AFlusher _ _ (or_introl eq_refl) (ha_rt _ _ H)) as Hact.
  destruct (act_logged AFlusher (host h1)) as [[s1 es1]|], (act_logged AFlusher (host h2)) as [[s2 es2]|]; try done;
    apply move_alike; try done; [by left|by right].
Qed.

(** Two results of the same kind. *)
Definition outcome_alike {A B} (R : A → B → Prop) (o1 : outcome A) (o2 : outcome B) : Prop :=
  match o1, o2 with
  | Done a, Done b => R a b
  | Blocked, Blocked => True
  | Panicked, Panicked => True
  | _, _ => False
  end.

Lemma outcome_bind {A A' B B'} (R : A → A' → Prop) (Q : B → B' → Prop) m m' f g :
  outcome_alike R m m' → (∀ a b, R a b → outcome_alike Q (f a) (g b)) → outcome_alike Q (obind m f) (obind m' g).
Proof. intros Hm Hf. destruct m, m'; simpl in *; auto; done. Qed.

Lemma await_alike ready1 ready2 fuel : (∀ s1 s2, rt_alike s1 s2 → ready1 s1 = ready2 s2) → ∀ h1 h2, host_alike h1 h2 →
  outcome_alike host_alike (await fuel ready1 h1) (await fuel ready2 h2).
Proof.
  intros Hready. induction fuel as [|fuel IH]; intros h1 h2 H; cbn [await]; rewrite (Hready _ _ (ha_rt _ _ H));
    (destruct (ready2 _); [done|]); [done|]. by apply IH, flusher_turn_alike.
Qed.

Lemma patience_alike s1 s2 : rt_alike s1 s2 → patience s1 = patience s2.
Proof.
  intros [[_ Hq _ _ _ _ _ _ _] Hf _]. unfold patience. f_equal. f_equal.
  - destruct (flusher s1), (flusher s2); try done. destruct Hf as [Hf _]. by apply Forall2_length in Hf.
  - induction Hq as [|b b' q q' Hb _ IH]; [done|]. simpl. by rewrite IH, (Forall2_length _ _ _ Hb).
Qed.

Lemma block_alike ready1 ready2 h1 h2 : (∀ s1 s2, rt_alike s1 s2 → ready1 s1 = ready2 s2) → host_alike h1 h2 →
  outcome_alike host_alike (block ready1 h1) (block ready2 h2).
Proof. intros Hr H. unfold block. rewrite (patience_alike _ _ (ha_rt _ _ H)). by apply await_alike. Qed.

Lemma with_sys_alike h1 h2 x1 x2 : host_alike h1 h2 → sys_alike x1 x2 → host_alike (with_sys h1 x1) (with_sys h2 x2).
Proof. intros [[_ Hf Hc] Hl Ht Ho] Hx. by split; [split|..]. Qed.

(** The critical section seals the batch in both runs or in neither. *)
Lemma push_start_lockstep ctx cid args args' s1 s2 : calls_alike cid args args' → sys_alike s1 s2 → batch (wal s1) = [] →
  batches (wal s1) = [] →
  ∃ r r' b b' x1 x2, push_start ctx cid args s1 = (r, b, x1) ∧ push_start ctx cid args' s2 = (r', b', x2) ∧
    request_alike r r' ∧ sys_alike x1 x2 ∧ batches (wal x1) = [] ∧
    (os x1 = os s1 ∧ commandHashTable (wal x1) = commandHashTable (wal s1)) ∧
    (b = [] ∧ b' = [] ∨ b = [r] ∧ b' = [r'] ∧ batch (wal x1) = []).
Proof.
  intros Hc [Hba Hq Ho Hvol Hcfg Hseg Htab Hheap Hos] Hb Hb2. rewrite Hb in Hba. rewrite Hb2 in Hq.
  apply Forall2_nil_inv_l in Hba as Hb'. apply Forall2_nil_inv_l in Hq as Hq'.
  unfold push_start. cbn [NewWriteRequest NewPromise WithLock].
  set (r := {| log := {| LSN := _; CommandID := cid; Arguments := args |}; promise := _ |}).
  set (r' := {| log := {| LSN := _; CommandID := cid; Arguments := args' |}; promise := _ |}).
  assert (request_alike r r') as Hr by (split; [by split|simpl; by rewrite Hheap]).
  assert (zlen (Encode (log r) []).1 = zlen (Encode (log r') []).1) as Hlen.
  { unfold Encode, EncodeTo. rewrite (log_value_alike _ _ (proj1 Hr)).
    destruct (tooBig <? _); [done|]. simpl. unfold frame. by rewrite !zlen_app, (log_value_alike _ _ (proj1 Hr)). }
  unfold push_locked. rewrite Hb, Hb', Hcfg, Hvol, Hlen. change (zlen ([] ++ [r])) with 1. change (zlen ([] ++ [r'])) with 1.
  destruct (_ || _); simpl; eexists _, _, _, _, _, _; (split; [reflexivity|]); (split; [reflexivity|]); (split; [done|]);
    (split; [|split; [done|split; [done|auto]]]); split; simpl; rewrite ?Hb2, ?Hq'; try done; try (cbn; lia);
    try (by rewrite Hheap); by apply Forall2_cons; split; [|constructor].
Qed.

Lemma send_alike r r' h1 h2 : request_alike r r' → host_alike h1 h2 → batch (wal (sys (host h1))) = [] →
  batches (wal (sys (host h1))) = [] → host_alike (send [r] h1) (send [r'] h2).
Proof.
  intros Hr H Hb Hq. apply with_sys_alike; [done|].
  destruct (ra_sys _ _ (ha_rt _ _ H)) as [Hba Hqq Ho Hvol Hcfg Hseg Htab Hheap Hos]. split; try done; simpl.
  - rewrite Hq in *. apply Forall2_nil_inv_l in Hqq as ->. constructor; [|constructor]. by constructor.
  - by rewrite Hb, Hq.
Qed.

Lemma push_lockstep ctx cid args args' h1 h2 : calls_alike cid args args' → host_alike h1 h2 → between_calls h1 →
  outcome_alike (λ '(e1, h1') '(e2, h2'), e1 = e2 ∧ host_alike h1' h2') (push ctx cid args h1) (push ctx cid args' h2).
Proof.
  intros Hc H Hbt. pose proof Hbt as [Hfl Ht].
  destruct (push_start_lockstep ctx cid args args' _ _ Hc (ra_sys _ _ (ha_rt _ _ H)))
    as (r & r' & b & b' & x1 & x2 & E1 & E2 & Hr & Hx & Hxq & Hxs & Hbb); [apply Hfl..|].
  unfold push. rewrite E1, E2. pose proof (with_sys_alike _ _ _ _ H Hx) as H1.
  eapply (outcome_bind host_alike).
  - destruct Hbb as [[-> ->]|(-> & -> & Hxb)]; [done|].
    assert (between_calls (with_sys h1 x1)) as Hb1.
    { split; [|done]. assert (flight [] [] (eventual (host h1)) (host (with_sys h1 x1))) as Hf1
        by (by apply with_sys_flight; try apply Hxs). by rewrite (fl_eventual _ _ _ _ Hf1). }
    apply yield_between in Hb1 as [[Hf1 _] _]. pose proof (yield_alike _ _ H1) as H2.
    rewrite block_room by apply Hf1. rewrite block_room.
    2: { pose proof (sa_queue _ _ (ra_sys _ _ (ha_rt _ _ H2))) as Hq. rewrite (fl_queue _ _ _ _ Hf1) in Hq. by inversion Hq. }
    apply send_alike; try done; apply Hf1.
  - intros h3 h3' H3. eapply (outcome_bind host_alike).
    + apply block_alike; [|by apply yield_alike]. intros s1 s2 Hs. unfold has_result.
      rewrite (sa_heap _ _ (ra_sys _ _ Hs)). unfold FutureResponse. by rewrite (proj2 Hr).
    + intros h4 h4' H4. pose proof (ra_sys _ _ (ha_rt _ _ H4)) as Hs4. rewrite (sa_heap _ _ Hs4).
      unfold FutureResponse. rewrite (proj2 Hr). destruct (Future_Get _ _ _) as [[err channels]| |]; [|done..].
      cbn [obind outcome_alike]. split; [done|]. apply with_sys_alike; [done|]. by destruct Hs4; split.
Qed.

End wal.

(** ** The layers above *)

(** What a layer promises: on states related by [R] its operations log the same
    and return the same errors, whatever the values. *)
Record secrecy_laws {S : Type} {ls : LoggedStore S} (R : S → S → Prop) : Prop := {
  se_set ctx k v v' s s' : R s s' → zlen v = zlen v' →
    lockstep (λ '(e, t) '(e', t'), e = e' ∧ R t t') (ls_Set ctx k v s) (ls_Set ctx k v' s');
  se_del ctx k s s' : R s s' →
    lockstep (λ '(e, t) '(e', t'), e = e' ∧ R t t') (ls_Del ctx k s) (ls_Del ctx k s');
  se_get ctx k s s' : R s s' →
    lockstep (λ '(_, e) '(_, e'), e = e') (ls_Get ctx k s) (ls_Get ctx k s')
}.

(** Processes that differ in values only, between the calls of their clients. *)
Definition hosts_alike (h h' : Host) : Prop := host_alike h h' ∧ between_calls h ∧ between_calls h'.

Lemma push_secrecy {env : Env} {ids : GobTypeIds} {sorter : SortSlice} ctx cid args args' h h' :
  calls_alike cid args args' → call_ok cid args → call_ok cid args' → hosts_alike h h' →
  lockstep (λ '(e, t) '(e', t'), e = e' ∧ hosts_alike t t') (silently (push ctx cid args h)) (silently (push ctx cid args' h')).
Proof.
  intros Hc Hok Hok' (H & Hb & Hb'). pose proof (push_lockstep ctx cid args args' h h' Hc H Hb) as Hp.
  destruct (push_spec ctx cid args h Hb Hok) as (e & t & E & Ht & _).
  destruct (push_spec ctx cid args' h' Hb' Hok') as (e' & t' & E' & Ht' & _).
  rewrite E, E' in *. destruct Hp as [-> Hp]. by split.
Qed.

Lemma table_secrecy ctx k h h' : host_alike h h' → (table_get ctx k h).2 = (table_get ctx k h').2.
Proof.
  intros H. pose proof (sa_table _ _ (ra_sys _ _ (ha_rt _ _ H))) as Ht. rewrite !table_get_spec.
  apply (f_equal (λ m, m !! k)) in Ht. rewrite !lookup_fmap in Ht. simpl.
  by destruct (data (commandHashTable (wal (sys (host h)))) !! k), (data (commandHashTable (wal (sys (host h')))) !! k).
Qed.

Lemma wal_secrecy {env : Env} {ids : GobTypeIds} {sorter : SortSlice} : secrecy_laws hosts_alike.
Proof.
  split.
  - intros ctx k v v' s s' H Hv. apply push_secrecy; [|by left|by left|done]. left. split; [done|]. by exists k, v, v'.
  - intros ctx k s s' H. apply push_secrecy; [|by right|by right|done]. right. split; [done|]. by exists k.
  - intros ctx k s s' [H _]. pose proof (table_secrecy ctx k s s' H) as Hg. simpl.
    by destruct (table_get ctx k s), (table_get ctx k s').
Qed.

(** Engines with the same counter over related write sides. *)
Definition engine_alike {S : Type} (R : S → S → Prop) (e e' : Engine S) : Prop :=
  currentLSN e = currentLSN e' ∧ R (commandEngine e) (commandEngine e').

Lemma engine_secrecy {S : Type} {ls : LoggedStore S} {qe : QueryEngine S} (R : S → S → Prop) :
  (∀ ctx k s s', R s s' → (table_get ctx k s).2 = (table_get ctx k s').2) →
  secrecy_laws R → secrecy_laws (engine_alike R).
Proof.
  intros Hget [Hset Hdel _].
  assert (∀ c (o o' : logged (error * S)), lockstep (λ '(e, t) '(e', t'), e = e' ∧ R t t') o o' →
    lockstep (λ '(e, t) '(e', t'), e = e' ∧ engine_alike R t t')
      ('(err, s) ← o; mret (err, {| currentLSN := c; commandEngine := s |}))
      ('(err, s) ← o'; mret (err, {| currentLSN := c; commandEngine := s |}))) as Hcall.
  { intros c o o' H. eapply lockstep_bind; [exact H|]. intros [err s] [err' s'] [-> Hs]. by apply lockstep_ret. }
  split.
  - intros ctx k v v' e e' [Hc H] Hv. simpl. unfold Engine_Set_logged. rewrite Hc.
    destruct (Generate _) as [txID c]. destruct (txID =? 0); [|by apply Hcall, Hset].
    by apply lockstep_log, lockstep_ret.
  - intros ctx k e e' [Hc H]. simpl. unfold Engine_Del_logged. rewrite Hc.
    destruct (Generate _) as [txID c]. destruct (txID =? 0); [|by apply Hcall, Hdel].
    by apply lockstep_log, lockstep_ret.
  - intros ctx k e e' [_ H]. specialize (Hget ctx k _ _ H). simpl.
    change (Engine_Get ctx k ?e) with (table_get ctx k (commandEngine e)).
    by destruct (table_get ctx k (commandEngine e)), (table_get ctx k (commandEngine e')).
Qed.

Definition storage_alike {S : Type} (R : S → S → Prop) (s s' : Storage S) : Prop := R (engine s) (engine s').

Lemma storage_secrecy {S : Type} {ls : LoggedStore S} (R : S → S → Prop) :
  secrecy_laws R → secrecy_laws (storage_alike R).
Proof.
  intros [Hset Hdel Hget]. split.
  - intros ctx k v v' s s' H Hv. eapply lockstep_bind; [by apply Hset|]. intros [err e] [err' e'] [-> He].
    destruct err'; [by apply lockstep_log, lockstep_ret|by apply lockstep_ret].
  - intros ctx k s s' H. eapply lockstep_bind; [by apply Hdel|]. intros [err e] [err' e'] [-> He].
    destruct err' as [er|]; [|by apply lockstep_ret].
    case_bool_decide; by apply lockstep_log, lockstep_ret.
  - intros ctx k s s' H. eapply lockstep_bind; [by apply Hget|]. intros [r err] [r' err'] ->.
    destruct err' as [er|]; [|by apply lockstep_ret].
    case_bool_decide; by apply lockstep_log, lockstep_ret.
Qed.

Section database.
Context {UU : UnicodeUpper} {S : Type} {ls : LoggedStore S} (R : S → S → Prop) (Hlaws : secrecy_laws R).

Definition database_alike (x y : bytes * Database Compute S) : Prop := R (storage x.2) (storage y.2).

(** A request that is parsed logs nothing on the way. *)
Lemma parse_logged_Ok raw ts : ParseAndValidate raw = Ok ts → ParseAndValidate_logged raw = Done (Ok ts, []).
Proof.
  assert (∀ ts, validate_tokens ts = None → validate_tokens_logged ts = Done (None, [])) as Hv.
  { clear raw ts. induction ts as [|t ts IH]; [done|]. simpl. by destruct (ValidateArgument t). }
  unfold ParseAndValidate, ParseAndValidate_logged. destruct (Fields _) as [|t0 rest]; [done|].
  destruct (ValidateCommand _); [|done]. destruct (validate_tokens _) as [e|] eqn:E; [done|].
  intros [= <-]. by rewrite (Hv _ E).
Qed.

Lemma handleSet_lockstep ctx tokens db db' : R (storage db) (storage db') →
  lockstep database_alike (handleSet_logged ctx tokens db) (handleSet_logged ctx tokens db').
Proof.
  intros H. unfold handleSet_logged. case_bool_decide; [by apply lockstep_log, lockstep_ret|].
  destruct tokens as [|cmd [|k [|v ?]]]; try done. cbn [lookup list_lookup].
  eapply lockstep_bind; [by apply (se_set _ Hlaws)|]. intros [e s] [e' s'] [-> Hs].
  destruct e'; by apply lockstep_log, lockstep_ret.
Qed.

Lemma handleDel_lockstep ctx tokens db db' : R (storage db) (storage db') →
  lockstep database_alike (handleDel_logged ctx tokens db) (handleDel_logged ctx tokens db').
Proof.
  intros H. unfold handleDel_logged. case_bool_decide; [by apply lockstep_log, lockstep_ret|].
  destruct tokens as [|cmd [|k ?]]; try done. cbn [lookup list_lookup].
  eapply lockstep_bind; [by apply (se_del _ Hlaws)|]. intros [e s] [e' s'] [-> Hs].
  destruct e'; by apply lockstep_log, lockstep_ret.
Qed.

Lemma handleGet_lockstep ctx tokens db db' : R (storage db) (storage db') →
  lockstep database_alike (handleGet_logged ctx tokens db) (handleGet_logged ctx tokens db').
Proof.
  intros H. unfold handleGet_logged. case_bool_decide; [by apply lockstep_log, lockstep_ret|].
  destruct tokens as [|cmd [|k ?]]; try done. cbn [lookup list_lookup].
  eapply lockstep_bind; [by apply (se_get _ Hlaws)|]. intros [r e] [r' e'] ->.
  destruct e' as [er|]; [|by apply lockstep_log, lockstep_ret].
  case_bool_decide; [by apply lockstep_ret|by apply lockstep_log, lockstep_ret].
Qed.

(** The two commands differ in the value of a SET only. *)
Lemma handler_lockstep ctx raw raw' db db' : same_but_value raw raw' → R (storage db) (storage db') →
  lockstep database_alike (DatabaseHandler_logged ctx raw db) (DatabaseHandler_logged ctx raw' db').
Proof.
  intros [<-|(k & v & v' & Hv & E & E')] H; unfold DatabaseHandler_logged.
  - apply (lockstep_bind eq).
    + destruct (ParseAndValidate_logged raw) as [[ts es]| |]; done.
    + intros ts ? <-. destruct ts as [tokens|e]; [|by apply lockstep_log, lockstep_ret].
      destruct (tokens !! 0%nat) as [cmd|]; [|done]. apply lockstep_log.
      case_bool_decide; [by apply handleSet_lockstep|]. case_bool_decide; [by apply handleGet_lockstep|].
      case_bool_decide; [by apply handleDel_lockstep|]. by apply lockstep_log, lockstep_ret.
  - rewrite (parse_logged_Ok _ _ E), (parse_logged_Ok _ _ E'). apply (lockstep_bind
      (λ ts ts', ts = Ok [CommandSet; k; v] ∧ ts' = Ok [CommandSet; k; v'])); [done|].
    intros ts ts' [-> ->]. cbn [lookup list_lookup]. apply lockstep_log. rewrite bool_decide_eq_true_2 by done.
    unfold handleSet_logged. cbn [lookup list_lookup].
    change (zlen [CommandSet; k; v]) with 3. change (zlen [CommandSet; k; v']) with 3.
    case_bool_decide; [done|]. eapply lockstep_bind; [by apply (se_set _ Hlaws)|]. intros [e s] [e' s'] [-> Hs].
    destruct e'; by apply lockstep_log, lockstep_ret.
Qed.

Lemma session_lockstep (pause : S → S) ctx raws raws' : (∀ s s', R s s' → R (pause s) (pause s')) →
  Forall2 same_but_value raws raws' → ∀ db db', R (storage db) (storage db') →
  lockstep (λ x y, length x.1 = length y.1 ∧ R (storage x.2) (storage y.2))
    (session_logged pause ctx raws db) (session_logged pause ctx raws' db').
Proof.
  intros Hpause. induction 1 as [|raw raw' raws raws' Hr _ IH]; intros db db' H; [by apply lockstep_ret|].
  eapply lockstep_bind; [by apply handler_lockstep, Hpause|]. intros [reply db1] [reply' db1'] H1.
  eapply lockstep_bind; [by apply IH|]. intros [replies db2] [replies' db2'] [Hl H2].
  apply lockstep_ret. split; [simpl in *; congruence|done].
Qed.

End database.

Definition stacks_alike : Storage (Engine Host) → Storage (Engine Host) → Prop := storage_alike (engine_alike hosts_alike).

Lemma stack_secrecy {env : Env} {ids : GobTypeIds} {sorter : SortSlice} : secrecy_laws stacks_alike.
Proof.
  apply storage_secrecy, engine_secrecy; [|apply wal_secrecy]. intros ctx k s s' [H _]. by apply table_secrecy.
Qed.

Lemma others_turn_alike {env : Env} {ids : GobTypeIds} {sorter : SortSlice} s s' :
  stacks_alike s s' → stacks_alike (others_turn s) (others_turn s').
Proof.
  intros [Hl (H & Hb & Hb')]. split; [done|]. split; [by apply yield_alike|]. split; by apply yield_between.
Qed.

(** The handles of worlds that differ in contents only. *)
Lemma alike_handles_ok w w' : alike w w' → handles_ok w → handles_ok w'.
Proof.
  intros H Hok h p Hh. pose proof (al_handles _ _ H) as E. rewrite <- E in Hh. destruct (Hok h p Hh) as [d Hd].
  destruct (alike_lookup w w' p H) as [[Hn _]|[[Hn _]|(d1 & d2 & _ & Hd2 & _)]]; [congruence..|eauto].
Qed.

Lemma idle_alike x x' : idle x → sys_alike x x' → idle x'.
Proof.
  intros (Hb & Hq & Hok) [Hba Hqq _ _ _ _ _ _ Hos]. rewrite Hb in Hba. rewrite Hq in Hqq.
  apply Forall2_nil_inv_l in Hba. apply Forall2_nil_inv_l in Hqq. split; [done|]. split; [done|].
  by eapply alike_handles_ok.
Qed.

Lemma started_alike x x' schedule : idle x → sys_alike x x' → Forall (Forall own_move) schedule →
  hosts_alike (started x schedule) (started x' schedule).
Proof.
  intros Hi H Ho. split; [by split|]. split; apply started_between; try done. by eapply idle_alike.
Qed.

(** ** Properties *)

(** C10: the log keeps stored values secret: two sessions whose requests differ
    only in the values of valid SETs, with values of the same lengths, on idle
    servers that differ only in stored values of the same lengths (in the table
    and in the files), end with exactly the same records in the log of the
    connection and in that of the flusher, at every level, whatever the
    operating system does and whatever the flusher does, in both runs, before
    each operation of the client. *)
Theorem values_not_logged {env : Env} {ids : GobTypeIds} {sorter : SortSlice} {UU : UnicodeUpper}
  (x x' : Sys HashTable) (schedule : list (list action)) (ctx : Ctx) (raws raws' : list bytes)
  (Hidle : idle x) (Halike : sys_alike x x') (Hsame : Forall2 same_but_value raws raws')
  (Hown : Forall (Forall own_move) schedule) :
  ∃ replies db replies' db' es fl,
    session_logged others_turn ctx raws (server_database (started x schedule)) = Done ((replies, db), es) ∧
    session_logged others_turn ctx raws' (server_database (started x' schedule)) = Done ((replies', db'), es) ∧
    flusher_log (commandEngine (engine (storage db))) = fl ∧ flusher_log (commandEngine (engine (storage db'))) = fl ∧
    length replies = length raws ∧ length replies' = length raws.
Proof.
  destruct (session_spec _ _ _ stack_lagging others_turn ctx raws stack_pause (server_database (started x schedule)))
    as (replies & db & E & _ & Hr); [by apply started_between|].
  pose proof (session_erase stack_erases others_turn ctx raws (server_database (started x schedule))) as Her. rewrite E in Her.
  destruct (session_logged others_turn ctx raws _) as [[[rs d] es]| |] eqn:El; simpl in Her; [|done..].
  injection Her as -> ->.
  assert (stacks_alike (storage (server_database (started x schedule))) (storage (server_database (started x' schedule)))) as Hx
    by (split; [done|by apply started_alike]).
  pose proof (session_lockstep _ stack_secrecy others_turn ctx raws raws' others_turn_alike Hsame _ _ Hx) as Hl. rewrite El in Hl.
  destruct (session_logged others_turn ctx raws' _) as [[[rs' d'] es']| |] eqn:El'; simpl in Hl; [|done..].
  destruct Hl as [<- [Hlen [_ [Hh _]]]]. eexists replies, db, rs', d', es, _.
  split; [done|]. split; [done|]. split; [done|]. split; [symmetry; apply Hh|].
  pose proof (session_length _ _ _ _ _ _ Hr) as Hn. split; [done|]. congruence.
Qed.

(** A server with one stored value, and two sessions that store and read
    others; the log sees the commands and the keys. *)
Definition holding (v : bytes) : Sys HashTable :=
  {| wal := set_table (wal (quick_sys 1)) {| data := {[str "pin" := v]} |}; heap := []; os := world0 |}.

Lemma values_not_logged_witness :
  let raws := [str "SET pin 1234"; str "GET pin"; str "DEL pin"] in
  let raws' := [str "SET pin 9876"; str "GET pin"; str "DEL pin"] in
  let schedule := [[AFlusher]; [AFlusher; ATick; AFlusher]; []; [AFlusher; AFlusher; AFlusher; AFlusher]] in
  let run := @session_logged minimal_unicode_upper _ (@storage_logged _ (@engine_logged _
    (@wal_logged steady_env default_ids insertion_sort_slice) wal_query_engine))
    (@others_turn steady_env default_ids insertion_sort_slice) [] in
  ∃ replies db replies' db' es fl,
    run raws (server_database (started (holding (str "0000")) schedule)) = Done ((replies, db), es) ∧
    run raws' (server_database (started (holding (str "1111")) schedule)) = Done ((replies', db'), es) ∧
    flusher_log (commandEngine (engine (storage db))) = fl ∧ flusher_log (commandEngine (engine (storage db'))) = fl ∧
    length replies = 3%nat ∧ length replies' = 3%nat.
Proof.
  intros raws raws' schedule run.
  apply (@values_not_logged steady_env default_ids insertion_sort_slice minimal_unicode_upper
    (holding (str "0000")) (holding (str "1111")) schedule [] raws raws').
  - split; [reflexivity|]. split; [reflexivity|]. intros h p Hp. discriminate.
  - split; [constructor|constructor|simpl; lia|reflexivity|reflexivity|reflexivity|reflexivity|reflexivity|split; reflexivity].
  - constructor; [right|constructor; [by left|constructor; [by left|constructor]]].
    exists (str "pin"), (str "1234"), (str "9876"). split; [reflexivity|]. split; vm_compute; reflexivity.
  - apply (bool_decide_unpack _). vm_compute. reflexivity.
Defined.
