(* ===== verification/Requests.v ===== *)
(** * Requests in pieces

    When many connections run at once, a handler is interrupted in the middle.
    This file cuts [DatabaseHandler] over storage, engine and log at the
    operations on shared state: a pure dispatch of the text, a read of the hash
    table, or the number of a write, its push into the log and the reply; and
    checks that the pieces fit together ([handler_is_its_pieces]). *)

From S2P Require Import Prelude GoText Compute Config WalLog OS FileSystem Concurrency HashTable Wal WalRuntime Engine Storage Database.

(** ** The pieces *)

(** A write that the dispatcher hands to the storage layer. *)
Inductive call := CSet (k v : bytes) | CDel (k : bytes).

(** What is left to do for a request once its text is parsed. *)
Inductive request :=
  | Immediate (reply : bytes)
  | Lookup (k : bytes)
  | Write (w : call).

#[global] Instance call_eq_dec : EqDecision call.
Proof. solve_decision. Defined.

#[global] Instance request_eq_dec : EqDecision request.
Proof. solve_decision. Defined.

(** [DatabaseHandler] and the argument checks of [handleSet], [handleGet] and
    [handleDel], up to the call of the storage layer. *)
Definition dispatch {UU : UnicodeUpper} (raw : bytes) : outcome request :=
  match ParseAndValidate raw with
  | Err _ => Done (Immediate (str "failed to parse command"))
  | Ok tokens =>
      match tokens !! 0%nat with
      | None => Panicked
      | Some cmd =>
          if bool_decide (cmd = CommandSet) then
            if bool_decide (zlen tokens - 1 ≠ CommandSetQ) then Done (Immediate (str "must be two arguments"))
            else match tokens !! 1%nat, tokens !! 2%nat with
                 | Some k, Some v => Done (Write (CSet k v))
                 | _, _ => Panicked
                 end
          else if bool_decide (cmd = CommandGet) then
            if bool_decide (zlen tokens - 1 ≠ CommandGetQ) then Done (Immediate (str "must be one argument"))
            else match tokens !! 1%nat with Some k => Done (Lookup k) | None => Panicked end
          else if bool_decide (cmd = CommandDel) then
            if bool_decide (zlen tokens - 1 ≠ CommandDelQ) then Done (Immediate (str "must be one argument"))
            else match tokens !! 1%nat with Some k => Done (Write (CDel k)) | None => Panicked end
          else Done (Immediate (str "invalid command"))
      end
  end.

(** The replies of [handleGet] and of [handleSet] and [handleDel]. *)
Definition get_reply (k : bytes) (t : HashTable) : bytes :=
  let '(result, ok) := HashTable_Get k t in
  if ok : bool then str "VALUE " ++ result else str "NOT_FOUND".

Definition write_reply (w : call) (err : error) : bytes :=
  match w, err with
  | CSet _ _, None => str "OK"
  | CSet _ _, Some _ => str "failed SET"
  | CDel _, None => str "DELETED"
  | CDel _, Some _ => str "failed DEL"
  end.

(** The command id and the arguments with which [Wal.Set] and [Wal.Del] push. *)
Definition call_id (w : call) : Z := match w with CSet _ _ => CommandSetID | CDel _ => CommandDelID end.
Definition call_args (w : call) : list bytes := match w with CSet k v => [k; v] | CDel k => [k] end.

(** The context in which the engine calls the log. *)
Definition tx_ctx (ctx : Ctx) (txID : Z) : Ctx := WithValue ctx TxIDKey (CString (FormatInt txID)).

Definition ce_write {S} {ce : CommandEngine S} (ctx : Ctx) (w : call) : S → outcome (error * S) :=
  match w with CSet k v => ce_Set ctx k v | CDel k => ce_Del ctx k end.

(** The record that a write leaves in the log. *)
Definition write_log (lsn : Z) (w : call) : Log :=
  {| LSN := lsn; CommandID := call_id w; Arguments := call_args w |}.

Definition run_call (m : gmap bytes bytes) (w : call) : gmap bytes bytes :=
  match w with CSet k v => <[k := v]> m | CDel k => delete k m end.

(** ** Lemmas *)

Lemma replay_write_log lsn w m : replay [write_log lsn w] m = run_call m w.
Proof. by destruct w. Qed.

Lemma write_log_inj lsn1 w1 lsn2 w2 : write_log lsn1 w1 = write_log lsn2 w2 → lsn1 = lsn2 ∧ w1 = w2.
Proof. destruct w1, w2; by intros [=]; subst. Qed.

Lemma write_log_applicable lsn w : applicable (write_log lsn w).
Proof. by destruct w; split; simpl; intros; try lia. Qed.

(** Success and failure of a write have different replies. *)
Lemma write_reply_inj w e1 e2 : write_reply w e1 = write_reply w e2 → e1 = None ↔ e2 = None.
Proof. destruct w, e1, e2; simpl; intros H; split; intros; done. Qed.

(** Parsing never gives an empty list of tokens, so no index is out of range. *)
Lemma dispatch_total {UU : UnicodeUpper} raw : ∃ rq, dispatch raw = Done rq.
Proof.
  unfold dispatch. destruct (ParseAndValidate raw) as [tokens|e] eqn:Ep; [|eauto].
  destruct tokens as [|cmd args].
  { exfalso. unfold ParseAndValidate in Ep. repeat case_match; by simplify_eq. }
  cbn [lookup list_lookup].
  repeat case_bool_decide; eauto; unfold zlen, CommandSetQ, CommandGetQ, CommandDelQ in *;
    destruct args as [|a [|b args]]; simpl in *; eauto; lia.
Qed.

(** A write that is dispatched has words over the argument alphabet, taken
    from the text of the request. *)
Lemma dispatch_write {UU : UnicodeUpper} raw w : dispatch raw = Done (Write w) →
  Forall argument_word (call_args w) ∧ zlen (mjoin (call_args w)) ≤ zlen raw.
Proof.
  unfold dispatch. destruct (ParseAndValidate raw) as [ts|] eqn:Ep; [|done].
  apply ParseAndValidate_canonical in Ep as (Hcan & cmd & args & Hf & ->). cbn [lookup list_lookup].
  destruct Hcan as [_ Hargs].
  assert (zlen (mjoin args) ≤ zlen raw) as Hlen.
  { pose proof (Fields_length raw) as H. rewrite Hf in H. change (mjoin (cmd :: args)) with (cmd ++ mjoin args) in H.
    rewrite zlen_app in H. pose proof (zlen_nonneg cmd). lia. }
  repeat case_bool_decide; try done; unfold zlen, CommandSetQ, CommandDelQ in *; simpl in *;
    destruct args as [|k [|v [|]]]; simpl in *; intros; simplify_eq/=; try done; lia.
Qed.

Section handler.
Context {UU : UnicodeUpper} {S : Type} {ce : CommandEngine S} {qe : QueryEngine S}.

(** The database with its engine replaced. *)
Definition with_engine (db : Database Compute (Storage (Engine S))) (e : Engine S)
  : Database Compute (Storage (Engine S)) :=
  set_storage db {| storage_log := storage_log (storage db); engine := e |}.

(** The engine's part of a write: a number, and the call of the log in a
    context that carries it. *)
Definition engine_write (ctx : Ctx) (w : call) (e : Engine S) : outcome (error * Engine S) :=
  let '(txID, c) := Generate (currentLSN e) in
  if txID =? 0 then Done (Some ErrFailedGenerateLSN, {| currentLSN := c; commandEngine := commandEngine e |})
  else obind (ce_write (tx_ctx ctx txID) w (commandEngine e)) (λ '(err, s),
       Done (err, {| currentLSN := c; commandEngine := s |})).

Lemma storage_set_pieces ctx k v (db : Database Compute (Storage (Engine S))) :
  obind (sl_Set ctx k v (storage db)) (λ '(err, s),
    match err with
    | Some _ => Done (str "failed SET", set_storage db s)
    | None => Done (str "OK", set_storage db s)
    end) =
  obind (engine_write ctx (CSet k v) (engine (storage db))) (λ '(err, e),
    Done (write_reply (CSet k v) err, with_engine db e)).
Proof.
  simpl. unfold Storage_Set. simpl. unfold Engine_Set, engine_write.
  destruct (Generate _) as [txID c]. destruct (txID =? 0); [done|]. simpl.
  by destruct (ce_Set _ _ _ _) as [[[e|] s]| |].
Qed.

Lemma storage_del_pieces ctx k (db : Database Compute (Storage (Engine S))) :
  obind (sl_Del ctx k (storage db)) (λ '(err, s),
    match err with
    | Some _ => Done (str "failed DEL", set_storage db s)
    | None => Done (str "DELETED", set_storage db s)
    end) =
  obind (engine_write ctx (CDel k) (engine (storage db))) (λ '(err, e),
    Done (write_reply (CDel k) err, with_engine db e)).
Proof.
  simpl. unfold Storage_Del. simpl. unfold Engine_Del, engine_write.
  destruct (Generate _) as [txID c]. destruct (txID =? 0); [done|]. simpl.
  by destruct (ce_Del _ _ _) as [[[e|] s]| |].
Qed.

Lemma storage_get_pieces ctx k (db : Database Compute (Storage (Engine S))) :
  (let '(result, err) := sl_Get ctx k (storage db) in
   match err with
   | Some e => if bool_decide (e = ErrKeyNotFound) then Done (str "NOT_FOUND", db)
               else Done (str "failed GET", db)
   | None => Done (str "VALUE " ++ result, db)
   end) = Done (get_reply k (hashTable (commandEngine (engine (storage db)))), db).
Proof.
  simpl. unfold Storage_Get. simpl. unfold Engine_Get, get_reply.
  by destruct (HashTable_Get _ _) as [result []].
Qed.

(** The pieces put together. *)
Definition handle_pieces (ctx : Ctx) (raw : bytes) (db : Database Compute (Storage (Engine S)))
  : outcome (bytes * Database Compute (Storage (Engine S))) :=
  obind (dispatch raw) (λ rq,
  match rq with
  | Immediate reply => Done (reply, db)
  | Lookup k => Done (get_reply k (hashTable (commandEngine (engine (storage db)))), db)
  | Write w =>
      obind (engine_write ctx w (engine (storage db))) (λ '(err, e),
      Done (write_reply w err, with_engine db e))
  end).

End handler.

(** ** Properties *)

(** The dispatcher over storage and engine is the composition of its
    pieces, for any log behind the engine, on every request and in every state:
    parsing and dispatch never touch the state, a GET reads the hash table
    once, and a SET or DEL takes one number, pushes one record in a context
    that carries the number, and derives its reply from the result alone. *)
Theorem handler_is_its_pieces {UU : UnicodeUpper} {S : Type} {ce : CommandEngine S} {qe : QueryEngine S}
  (ctx : Ctx) (raw : bytes) (db : Database Compute (Storage (Engine S))) :
  DatabaseHandler ctx raw db = handle_pieces ctx raw db ∧
  dispatch raw ≠ Panicked ∧ dispatch raw ≠ Blocked.
Proof.
  split; [|by destruct (dispatch_total raw) as [rq ->]].
  unfold DatabaseHandler, handle_pieces, dispatch. cbn [cl_ParseAndValidate compute_layer].
  destruct (ParseAndValidate raw) as [tokens|e]; [|done].
  destruct (tokens !! 0%nat) as [cmd|]; [|done].
  case_bool_decide; [|case_bool_decide; [|case_bool_decide; [|done]]].
  - unfold handleSet. case_bool_decide; [done|].
    destruct (tokens !! 1%nat) as [k|]; [|done]. destruct (tokens !! 2%nat) as [v|]; [|done].
    apply storage_set_pieces.
  - unfold handleGet. case_bool_decide; [done|].
    destruct (tokens !! 1%nat) as [k|]; [|done]. apply storage_get_pieces.
  - unfold handleDel. case_bool_decide; [done|].
    destruct (tokens !! 1%nat) as [k|]; [|done]. apply storage_del_pieces.
Qed.
