(* ===== verification/Store.v ===== *)
(** * The abstract store

    What many concurrent clients of the server may observe: a map of keys to
    values behind a first-in first-out queue of committed writes. Writes are
    committed in groups, each write at some instant between its request and its
    reply, or fail without effect; a group becomes visible write by write, in
    order, and completely before the next group is committed; a read sees the
    visible map only. A restart makes everything committed visible. A parameter
    says whether failed writes may stay in doubt: then a group that failed with
    nothing committed since may still take effect at the next restart. The
    server is shown to implement this system in [Server.v] and [Durable.v]. *)

From S2P Require Import Prelude Traces GoText Compute Config WalLog OS FileSystem Concurrency HashTable Wal WalRuntime Requests.

(** What happens on the wire, and the restarts of the process. *)
Inductive wire_event :=
  | EvRequest (c : nat) (query : bytes)
  | EvReply (c : nat) (reply : bytes)
  | EvRestart.

(** Where a connection is: it waits for a request when it has no entry. *)
Inductive store_conn :=
  | Pending (rq : request)     (** a request without effect so far *)
  | Committed (w : call)       (** a write that has happened *)
  | Answered (reply : bytes)   (** the reply is known, not yet sent *)
  | Gone.                      (** the connection is closed *)

Record Store := {
  visible : gmap bytes bytes;
  queued : list call;
  doubtful : list (list call);   (** failed groups since the last commit *)
  parties : gmap nat store_conn
}.

Definition store_init (m : gmap bytes bytes) : Store :=
  {| visible := m; queued := []; doubtful := []; parties := ∅ |}.

(** The map with everything committed made visible. *)
Definition committed_map (a : Store) : gmap bytes bytes := foldl run_call (visible a) (queued a).

Definition set_party (a : Store) (c : nat) (p : store_conn) : Store :=
  {| visible := visible a; queued := queued a; doubtful := doubtful a; parties := <[c := p]> (parties a) |}.

Definition map_get_reply (k : bytes) (m : gmap bytes bytes) : bytes :=
  match m !! k with Some v => str "VALUE " ++ v | None => str "NOT_FOUND" end.

(** The writes of a group become committed. *)
Definition commit_all (cws : list (nat * call)) (m : gmap nat store_conn) : gmap nat store_conn :=
  foldl (λ m '(c, w), <[c := Committed w]> m) m cws.

(** The maps that a restart may find: everything committed, and nothing or one
    of the groups in doubt. *)
Definition next_map (a : Store) (m : gmap bytes bytes) : Prop :=
  ∃ ws, (ws = [] ∨ ws ∈ doubtful a) ∧ m = foldl run_call (committed_map a) ws.

(** [unsure]: failed writes may stay in doubt. *)
Inductive store_step {UU : UnicodeUpper} (unsure : Prop) : Store → option wire_event → Store → Prop :=
  | store_request c q rq a :
      parties a !! c = None → dispatch q = Done rq →
      store_step unsure a (Some (EvRequest c q)) (set_party a c (Pending rq))
  | store_immediate c r a :
      parties a !! c = Some (Pending (Immediate r)) → store_step unsure a None (set_party a c (Answered r))
  | store_read c k a :
      parties a !! c = Some (Pending (Lookup k)) →
      store_step unsure a None (set_party a c (Answered (map_get_reply k (visible a))))
  | store_commit cws a :
      queued a = [] → NoDup cws.*1 →
      Forall (λ '(c, w), parties a !! c = Some (Pending (Write w))) cws →
      store_step unsure a None
        {| visible := visible a; queued := cws.*2; doubtful := []; parties := commit_all cws (parties a) |}
  (* a group of writes, none of which can succeed any more or has been answered *)
  | store_doubt cws a :
      unsure → NoDup cws.*1 → Forall (λ '(c, w), parties a !! c = Some (Pending (Write w))) cws →
      store_step unsure a None
        {| visible := visible a; queued := queued a; doubtful := cws.*2 :: doubtful a; parties := parties a |}
  | store_fail c w err a :
      parties a !! c = Some (Pending (Write w)) →
      store_step unsure a None (set_party a c (Answered (write_reply w (Some err))))
  | store_show w q a :
      queued a = w :: q →
      store_step unsure a None
        {| visible := run_call (visible a) w; queued := q; doubtful := doubtful a; parties := parties a |}
  | store_ack c w a :
      parties a !! c = Some (Committed w) →
      store_step unsure a None (set_party a c (Answered (write_reply w None)))
  | store_reply c r a :
      parties a !! c = Some (Answered r) →
      store_step unsure a (Some (EvReply c r))
        {| visible := visible a; queued := queued a; doubtful := doubtful a; parties := delete c (parties a) |}
  | store_close c a :
      parties a !! c = None ∨ (∃ r, parties a !! c = Some (Answered r)) →
      store_step unsure a None (set_party a c Gone)
  (* a restart loses the connections and nothing that was committed *)
  | store_restart m a :
      next_map a m → store_step unsure a (Some EvRestart) (store_init m).

Arguments store_request {UU unsure}.
Arguments store_immediate {UU unsure}.
Arguments store_read {UU unsure}.
Arguments store_commit {UU unsure}.
Arguments store_doubt {UU unsure}.
Arguments store_fail {UU unsure}.
Arguments store_show {UU unsure}.
Arguments store_ack {UU unsure}.
Arguments store_reply {UU unsure}.
Arguments store_close {UU unsure}.
Arguments store_restart {UU unsure}.

(** ** Lemmas *)

Section store.
Context {UU : UnicodeUpper}.

Lemma get_reply_map k (t : HashTable) : get_reply k t = map_get_reply k (data t).
Proof. unfold get_reply, HashTable_Get, map_get_reply. by destruct (data t !! k). Qed.

Lemma commit_all_other cws m c : c ∉ cws.*1 → commit_all cws m !! c = m !! c.
Proof.
  revert m. induction cws as [|[c' w] cws IH]; intros m Hc; [done|]. simpl.
  apply not_elem_of_cons in Hc as [Hne Hc]. rewrite IH by done. by rewrite lookup_insert_ne.
Qed.

Lemma commit_all_in cws m c w : NoDup cws.*1 → (c, w) ∈ cws → commit_all cws m !! c = Some (Committed w).
Proof.
  revert m. induction cws as [|[c' w'] cws IH]; intros m Hnd Hin; [by apply not_elem_of_nil in Hin|].
  apply NoDup_cons in Hnd as [Hc Hnd]. simpl.
  apply elem_of_cons in Hin as [[= <- <-]|Hin]; [|by apply IH].
  rewrite commit_all_other by done. apply lookup_insert_eq.
Qed.

(** Less doubt, fewer executions. *)
Lemma store_step_sure (unsure : Prop) a l a' : store_step False a l a' → store_step unsure a l a'.
Proof. by destruct 1; try (econstructor; done). Qed.

Lemma store_exec_sure (unsure : Prop) a tr a' : exec (store_step False) a tr a' → exec (store_step unsure) a tr a'.
Proof. apply exec_mono. intros a1 l a2. apply store_step_sure. Qed.

(** Without doubt a restart finds the committed map. *)
Lemma next_map_sure (unsure : Prop) m0 tr a m : ¬ unsure → exec (store_step unsure) (store_init m0) tr a →
  next_map a m → m = committed_map a.
Proof.
  intros Hu Hex. assert (doubtful a = []) as Hd.
  { apply (exec_invariant (store_step unsure) (λ _ a, doubtful a = []) (store_init m0) tr a); [|done|done].
    intros _ a1 l a2 Ha1 Hs. by destruct Hs. }
  intros (ws & [->|Hws] & ->); [done|]. rewrite Hd in Hws. by apply not_elem_of_nil in Hws.
Qed.

Lemma next_map_committed a : next_map a (committed_map a).
Proof. exists []. split; [by left|done]. Qed.

End store.
