(* ===== verification/Server.v ===== *)
(** * The server with many connections

    The composition at run time: the accept loop, a goroutine per connection
    that reads requests, runs the handler and writes replies, the generator of
    sequence numbers, and the log with its flusher. Handlers are interrupted at
    every operation on shared state. The server implements the abstract store. *)

From S2P Require Import Prelude Traces GoText Compute Config Gob WalLog OS FileSystem Concurrency HashTable Wal WalRuntime Engine Storage Network Database Requests Store.

(** ** State *)

(** Where the goroutine of a connection is. *)
Inductive conn_state :=
  | Reading                               (** in [connection.Read] *)
  | Handling (rq : request)               (** in the handler, text parsed *)
  | Numbering (w : call)                  (** between the two operations of [Generate] *)
  | Pushing (w : call) (lsn : Z)          (** about to enter [Wal.push] *)
  | Logging (w : call) (t : nat)          (** inside [Wal.push], as its call [t] *)
  | Replying (rq : request) (reply : bytes)  (** about to write the reply *)
  | Closed.

Record Server := {
  srv_accept : Serving;
  srv_conns : gmap nat conn_state;
  srv_gen : GenState;        (** [engine.currentLSN] *)
  srv_rt : RT;               (** the log, its callers and its flusher *)
  srv_calls : nat            (** calls of [Wal.push] so far *)
}.

Definition srv_set_conn (s : Server) (c : nat) (x : conn_state) : Server :=
  {| srv_accept := srv_accept s; srv_conns := <[c := x]> (srv_conns s); srv_gen := srv_gen s;
     srv_rt := srv_rt s; srv_calls := srv_calls s |}.

Definition srv_set_rt (s : Server) (r : RT) : Server :=
  {| srv_accept := srv_accept s; srv_conns := srv_conns s; srv_gen := srv_gen s;
     srv_rt := r; srv_calls := srv_calls s |}.

Definition srv_set_gen (s : Server) (g : GenState) : Server :=
  {| srv_accept := srv_accept s; srv_conns := srv_conns s; srv_gen := g;
     srv_rt := srv_rt s; srv_calls := srv_calls s |}.

Definition srv_set_accept (s : Server) (a : Serving) : Server :=
  {| srv_accept := a; srv_conns := srv_conns s; srv_gen := srv_gen s;
     srv_rt := srv_rt s; srv_calls := srv_calls s |}.

(** The hash table, shared by the log and the engine. *)
Definition srv_table (s : Server) : HashTable := commandHashTable (wal (sys (srv_rt s))).

(** A server that starts on a recovered log. *)
Definition server_init (server : TCPServer) (x : Sys HashTable) : Server :=
  {| srv_accept := serving_init (maxConnections server); srv_conns := ∅;
     srv_gen := gen_init (NewIDGenerator 0); srv_rt := initial x; srv_calls := 0 |}.

Section server.
Context {env : Env} {ids : GobTypeIds} {sorter : SortSlice} {UU : UnicodeUpper}.
Context (server : TCPServer) (ctx : Ctx).   (** the context given to [HandleClientQueries] *)

(** ** Steps *)

(** The goroutine of one connection: the loop of [HandleConnections] with the
    handler inlined. [Read] returns between one byte and the size of the
    buffer, or fails; [Write] succeeds or fails; a panic closes the
    connection. *)
Inductive conn_step (c : nat) : Server → option wire_event → Server → Prop :=
  | conn_read q rq s :
      srv_conns s !! c = Some Reading → q ≠ [] → zlen q ≤ bufferSize server → dispatch q = Done rq →
      conn_step c s (Some (EvRequest c q)) (srv_set_conn s c (Handling rq))
  | conn_read_panic q s :
      srv_conns s !! c = Some Reading → q ≠ [] → zlen q ≤ bufferSize server → dispatch q = Panicked →
      conn_step c s (Some (EvRequest c q)) (srv_set_conn s c Closed)
  | conn_read_end s :
      srv_conns s !! c = Some Reading → conn_step c s None (srv_set_conn s c Closed)
  | conn_immediate r s :
      srv_conns s !! c = Some (Handling (Immediate r)) →
      conn_step c s None (srv_set_conn s c (Replying (Immediate r) r))
  | conn_get k s :
      srv_conns s !! c = Some (Handling (Lookup k)) →
      conn_step c s None (srv_set_conn s c (Replying (Lookup k) (get_reply k (srv_table s))))
  | conn_swap w s :
      srv_conns s !! c = Some (Handling (Write w)) →
      conn_step c s None (srv_set_gen (srv_set_conn s c (Numbering w)) (gen_swap c (srv_gen s)))
  | conn_add w s :
      srv_conns s !! c = Some (Numbering w) →
      conn_step c s None
        (let txID := atomic_add (counter (srv_gen s)) in
         srv_set_gen
           (srv_set_conn s c (if txID =? 0 then Replying (Write w) (write_reply w (Some ErrFailedGenerateLSN))
                              else Pushing w txID))
           (gen_next c (srv_gen s)))
  | conn_push w lsn s :
      srv_conns s !! c = Some (Pushing w lsn) →
      conn_step c s None
        {| srv_accept := srv_accept s; srv_conns := <[c := Logging w (srv_calls s)]> (srv_conns s);
           srv_gen := srv_gen s;
           srv_rt := client_push (srv_calls s) (tx_ctx ctx lsn) (call_id w) (call_args w) (srv_rt s);
           srv_calls := S (srv_calls s) |}
  | conn_send w t r sealed x s :
      srv_conns s !! c = Some (Logging w t) → clients (srv_rt s) !! t = Some (Sending r sealed) →
      client_send t r sealed (srv_rt s) = Some x → conn_step c s None (srv_set_rt s x)
  | conn_result w t r x s :
      srv_conns s !! c = Some (Logging w t) → clients (srv_rt s) !! t = Some (Waiting r) →
      client_get t r (srv_rt s) = Some x → conn_step c s None (srv_set_rt s x)
  | conn_return w t r err s :
      srv_conns s !! c = Some (Logging w t) → clients (srv_rt s) !! t = Some (Returned r err) →
      conn_step c s None (srv_set_conn s c (Replying (Write w) (write_reply w err)))
  | conn_write rq r s :
      srv_conns s !! c = Some (Replying rq r) →
      conn_step c s (Some (EvReply c r)) (srv_set_conn s c Reading)
  | conn_write_error rq r s :
      srv_conns s !! c = Some (Replying rq r) → conn_step c s None (srv_set_conn s c Closed).

(** The whole server. The context that is cancelled is the one of the flusher
    and of [HandleClientQueries]. *)
Inductive server_step : Server → option wire_event → Server → Prop :=
  | server_conn c s l s' : conn_step c s l s' → server_step s l s'
  | server_flusher s x : flusher_step (srv_rt s) x → server_step s None (srv_set_rt s x)
  | server_cancel s : server_step s None (srv_set_rt s (cancel (srv_rt s)))
  (* accepting, waiting for a slot, and the shutdown of the listener *)
  | server_accept a s :
      serve_step (srv_accept s) a → sv_conns a = sv_conns (srv_accept s) →
      (sv_main (srv_accept s) = AwaitCancel → sv_main a = AwaitCancel ∨ cancelled (srv_rt s) = true) →
      server_step s None (srv_set_accept s a)
  (* a slot for connection [c], whose goroutine starts, and its release *)
  | server_start c a s :
      serve_step (srv_accept s) a → c ∉ sv_conns (srv_accept s) → sv_conns a = sv_conns (srv_accept s) ∪ {[c]} →
      server_step s None (srv_set_conn (srv_set_accept s a) c Reading)
  | server_finish c a s :
      srv_conns s !! c = Some Closed → c ∈ sv_conns (srv_accept s) →
      serve_step (srv_accept s) a → sv_conns a = sv_conns (srv_accept s) ∖ {[c]} →
      server_step s None (srv_set_accept s a).

End server.

(** ** The calls of the log

    Every connection inside [Wal.push] has a call of its own whose request is
    the record of its write, and every pending request belongs to one. *)

Definition is_logging (x : option conn_state) : Prop := ∃ w t, x = Some (Logging w t).

#[global] Instance is_logging_dec x : Decision (is_logging x).
Proof.
  refine (match x with Some (Logging w t) => left _ | _ => right _ end); first [by eexists _, _|by intros (? & ? & ?)].
Defined.

Record calls_inv (m : gmap nat conn_state) (x : RT) (n : nat) : Prop := {
  ci_log c w t : m !! c = Some (Logging w t) →
    ∃ cl lsn, clients x !! t = Some cl ∧ log (request_of cl) = write_log lsn w;
  ci_once c1 c2 w1 w2 t : m !! c1 = Some (Logging w1 t) → m !! c2 = Some (Logging w2 t) → c1 = c2;
  ci_calls t : is_Some (clients x !! t) → (t < n)%nat;
  ci_owner r : r ∈ pending x → ∃ c w t cl, m !! c = Some (Logging w t) ∧ clients x !! t = Some cl ∧
    request_of cl = r ∧ ∀ e, cl ≠ Returned r e;
  ci_live t cl : clients x !! t = Some cl → (∀ r e, cl ≠ Returned r e) → ∃ c w, m !! c = Some (Logging w t)
}.

Lemma calls_inv_init x : pending x = [] → clients x = ∅ → calls_inv ∅ x 0.
Proof.
  intros Hp Hc. split.
  - intros c w t Hm. by rewrite lookup_empty in Hm.
  - intros c1 c2 w1 w2 t Hm. by rewrite lookup_empty in Hm.
  - intros t [cl Ht]. by rewrite Hc, lookup_empty in Ht.
  - intros r Hr. rewrite Hp in Hr. by apply not_elem_of_nil in Hr.
  - intros t cl Ht. by rewrite Hc, lookup_empty in Ht.
Qed.

(** A connection that moves outside the log, or returns from it. *)
Lemma calls_inv_move m x n c st : calls_inv m x n → ¬ is_logging (Some st) →
  (∀ w t, m !! c = Some (Logging w t) → ∃ r e, clients x !! t = Some (Returned r e)) →
  calls_inv (<[c := st]> m) x n.
Proof.
  intros [Hlog Honce Hcalls Howner Hlive] Hst Hret.
  assert (∀ c' w t, <[c := st]> m !! c' = Some (Logging w t) → c ≠ c' ∧ m !! c' = Some (Logging w t)) as Hold.
  { intros c' w t. destruct (decide (c = c')) as [<-|Hne].
    - rewrite lookup_insert_eq. intros [= ->]. destruct Hst. by eexists _, _.
    - by rewrite lookup_insert_ne. }
  split; [| |done| |].
  - intros c' w t [_ Hm]%Hold. eauto.
  - intros c1 c2 w1 w2 t [_ H1]%Hold [_ H2]%Hold. eauto.
  - intros r Hr. destruct (Howner r Hr) as (c' & w & t & cl & Hc' & Hcl & Hreq & Hnr).
    exists c', w, t, cl. split; [|done]. rewrite lookup_insert_ne; [done|]. intros <-.
    destruct (Hret w t Hc') as (r' & e & E). assert (cl = Returned r' e) as -> by congruence.
    simpl in Hreq. subst. by apply (Hnr e).
  - intros t cl Hcl Hnr. destruct (Hlive t cl Hcl Hnr) as (c' & w & Hc'). exists c', w.
    rewrite lookup_insert_ne; [done|]. intros <-. destruct (Hret w t Hc') as (r & e & E).
    apply (Hnr r e). congruence.
Qed.

(** A connection enters the log. *)
Lemma calls_inv_push m x x' n c w lsn r : calls_inv m x n → ¬ is_logging (m !! c) →
  pushed n r x x' → log r = write_log lsn w → calls_inv (<[c := Logging w n]> m) x' (S n).
Proof.
  intros [Hlog Honce Hcalls Howner Hlive] Hc [_ (cl & Hcl & Hreq & Hnr) _ _ Hp _] Hw.
  assert (∀ c' w' t, m !! c' = Some (Logging w' t) → t ≠ n) as Hne.
  { intros c' w' t Hm ->. destruct (Hlog _ _ _ Hm) as (cl' & _ & Hx & _).
    specialize (Hcalls n (ex_intro _ cl' Hx)). lia. }
  split.
  - intros c' w' t. rewrite Hcl. destruct (decide (c = c')) as [<-|Hcc].
    + rewrite lookup_insert_eq. intros [= <- <-]. exists cl, lsn. rewrite lookup_insert_eq, Hreq. done.
    + rewrite lookup_insert_ne by done. intros Hm. pose proof (Hne _ _ _ Hm).
      rewrite lookup_insert_ne by done. eauto.
  - intros c1 c2 w1 w2 t.
    destruct (decide (c = c1)) as [<-|H1]; destruct (decide (c = c2)) as [<-|H2];
      rewrite ?lookup_insert_eq, ?lookup_insert_ne by done; try done.
    + intros [= <- <-] Hm. by destruct (Hne _ _ _ Hm).
    + intros Hm [= <- <-]. by destruct (Hne _ _ _ Hm).
    + apply Honce.
  - intros t. rewrite Hcl. destruct (decide (n = t)) as [<-|Hnt]; [lia|].
    rewrite lookup_insert_ne by done. intros Ht%Hcalls. lia.
  - intros r'. rewrite Hp. intros [->|Hr']%elem_of_cons.
    + exists c, w, n, cl. rewrite Hcl, !lookup_insert_eq. done.
    + destruct (Howner r' Hr') as (c' & w' & t & cl' & Hm & Hx & Hq & Hn).
      exists c', w', t, cl'. pose proof (Hne _ _ _ Hm). rewrite Hcl, !lookup_insert_ne; [done..|].
      intros <-. apply Hc. by eexists _, _.
  - intros t cl'. rewrite Hcl. destruct (decide (n = t)) as [<-|Hnt].
    + intros _ _. exists c, w. apply lookup_insert_eq.
    + rewrite lookup_insert_ne by done. intros Ht Hn'. destruct (Hlive t cl' Ht Hn') as (c' & w' & Hm).
      exists c', w'. rewrite lookup_insert_ne; [done|]. intros <-. apply Hc. by eexists _, _.
Qed.

(** A call goes on: its client changes, not its request, and it returns only
    once its request is not pending any more. *)
Lemma calls_inv_client m x x' n t cl cl' : calls_inv m x n → clients x !! t = Some cl →
  (∀ r e, cl ≠ Returned r e) →
  clients x' = <[t := cl']> (clients x) → request_of cl' = request_of cl → pending x' ≡ₚ pending x →
  (∀ e, cl' = Returned (request_of cl) e → request_of cl ∉ pending x) → calls_inv m x' n.
Proof.
  intros [Hlog Honce Hcalls Howner Hlive] Ht Hcn Hcl Hreq Hp Hret. split; [|done|..].
  - intros c w u Hm. destruct (Hlog c w u Hm) as (d & lsn & Hu & Hd). rewrite Hcl.
    destruct (decide (t = u)) as [<-|Hne].
    + exists cl', lsn. rewrite lookup_insert_eq, Hreq. split; [done|]. by assert (d = cl) as <- by congruence.
    + exists d, lsn. by rewrite lookup_insert_ne.
  - intros u Hu. apply Hcalls. rewrite Hcl in Hu. destruct (decide (t = u)) as [<-|Hne]; [by rewrite Ht|].
    by rewrite lookup_insert_ne in Hu.
  - intros r. rewrite Hp. intros Hr. destruct (Howner r Hr) as (c & w & u & d & Hm & Hu & Hd & Hn).
    destruct (decide (t = u)) as [<-|Hne].
    + assert (d = cl) as -> by congruence. exists c, w, t, cl'.
      rewrite Hcl, lookup_insert_eq, Hreq. split; [done|]. split; [done|]. split; [done|].
      intros e ->. rewrite <- Hd in Hr. by eapply Hret; [rewrite Hd|].
    + exists c, w, u, d. by rewrite Hcl, lookup_insert_ne.
  - intros u d. rewrite Hcl. destruct (decide (t = u)) as [<-|Hne]; [intros _ _; by eapply Hlive|].
    rewrite lookup_insert_ne by done. apply Hlive.
Qed.

(** The flusher takes requests away. *)
Lemma calls_inv_flusher m x x' n : calls_inv m x n → clients x' = clients x →
  (∀ r, r ∈ pending x' → r ∈ pending x) → calls_inv m x' n.
Proof. intros [Hlog Honce Hcalls Howner Hlive] Hcl Hp. split; rewrite ?Hcl; eauto. Qed.

(** ** The simulation relation *)

(** The call of a client whose write has succeeded, reported or not. *)
Definition granted (x : RT) (cl : client) : Prop :=
  match cl with
  | Sending r _ | Waiting r => answered None (heap (sys x)) r
  | Returned _ e => e = None
  end.

Definition conn_rel (x : RT) (cs : option conn_state) (p : option store_conn) : Prop :=
  match cs with
  | None | Some Reading => p = None
  | Some (Handling rq) => p = Some (Pending rq)
  | Some (Numbering w) | Some (Pushing w _) => p = Some (Pending (Write w))
  | Some (Logging w t) => ∃ cl, clients x !! t = Some cl ∧
      (granted x cl ∧ p = Some (Committed w) ∨ ¬ granted x cl ∧ p = Some (Pending (Write w)))
  | Some (Replying _ r) => p = Some (Answered r)
  | Some Closed => p = Some Gone
  end.

(** A record and the write it stands for. *)
Definition records (l : Log) (w : call) : Prop := ∃ lsn, l = write_log lsn w.

(** Connections with a goroutine were accepted and are not waiting for a slot. *)
Definition accept_inv (a : Serving) (m : gmap nat conn_state) : Prop :=
  (∀ c, is_Some (m !! c) → c ∈ sv_accepted a ∧ sv_acceptor a ≠ Acquiring c) ∧
  (∀ c, sv_acceptor a = Acquiring c → c ∈ sv_accepted a).

Record refines {ids : GobTypeIds} (m0 : gmap bytes bytes) (applied : list Log) (s : Server) (a : Store) : Prop := {
  rf_rt : rt_inv m0 applied (pending (srv_rt s)) (srv_rt s);
  rf_calls : calls_inv (srv_conns s) (srv_rt s) (srv_calls s);
  rf_accept : accept_inv (srv_accept s) (srv_conns s);
  rf_lsn c w lsn : srv_conns s !! c = Some (Pushing w lsn) → in_int64 lsn;
  rf_visible : visible a = data (srv_table s);
  rf_queue : Forall2 records (rest_of (flusher (srv_rt s))) (queued a);
  rf_conns c : conn_rel (srv_rt s) (srv_conns s !! c) (parties a !! c)
}.

(** ** Lemmas: one connection moves *)

Section refinement.
Context {env : Env} {ids : GobTypeIds} {sorter : SortSlice} {UU : UnicodeUpper}.
Context (m0 : gmap bytes bytes).

Lemma accept_inv_move a m c st : accept_inv a m → is_Some (m !! c) → accept_inv a (<[c := st]> m).
Proof.
  intros [Ha Hq] Hc. split; [|done]. intros c' Hc'. apply Ha. destruct (decide (c = c')) as [<-|Hne]; [done|].
  by rewrite lookup_insert_ne in Hc'.
Qed.

(** A connection moves outside the log, or leaves it, and so does its party. *)
Lemma refines_move applied s a c st s' a' :
  refines m0 applied s a →
  srv_conns s' = <[c := st]> (srv_conns s) → srv_rt s' = srv_rt s → srv_calls s' = srv_calls s →
  srv_accept s' = srv_accept s → is_Some (srv_conns s !! c) →
  ¬ is_logging (Some st) → (∀ w lsn, st = Pushing w lsn → in_int64 lsn) →
  (∀ w t, srv_conns s !! c = Some (Logging w t) → ∃ r e, clients (srv_rt s) !! t = Some (Returned r e)) →
  visible a' = visible a → queued a' = queued a →
  (∀ c', c ≠ c' → parties a' !! c' = parties a !! c') →
  conn_rel (srv_rt s) (Some st) (parties a' !! c) →
  refines m0 applied s' a'.
Proof.
  intros [] Hm Hx Hn Hacc Hc Hst Hlsn Hret Hv Hq Hother Hrel.
  split; rewrite ?Hm, ?Hn, ?Hacc, ?Hv, ?Hq; unfold srv_table; rewrite ?Hx; try done.
  - by apply calls_inv_move.
  - by apply accept_inv_move.
  - intros c' w lsn. destruct (decide (c = c')) as [<-|Hne]; [rewrite lookup_insert_eq; intros [= ->]; eauto|].
    rewrite lookup_insert_ne by done. apply rf_lsn0.
  - intros c'. destruct (decide (c = c')) as [<-|Hne]; [by rewrite lookup_insert_eq|].
    rewrite lookup_insert_ne, Hother by done. apply rf_conns0.
Qed.

(** Only the accept loop moves. *)
Lemma refines_accept applied s a x : refines m0 applied s a → accept_inv x (srv_conns s) →
  refines m0 applied (srv_set_accept s x) a.
Proof. intros [] Hx. by split. Qed.

(** The relation of one connection through a step of the log. *)
Lemma conn_rel_step x x' cs p : conn_rel x cs p →
  (∀ w t cl, cs = Some (Logging w t) → clients x !! t = Some cl →
    ∃ cl', clients x' !! t = Some cl' ∧ (granted x cl ↔ granted x' cl')) → conn_rel x' cs p.
Proof.
  destruct cs as [[]|]; try done. intros (cl & Hcl & Hp) Hstep.
  destruct (Hstep w t cl eq_refl Hcl) as (cl' & Hcl' & Hg). exists cl'. split; [done|]. by rewrite <- !Hg.
Qed.

Lemma granted_same_heap x x' cl : heap (sys x') = heap (sys x) → granted x cl ↔ granted x' cl.
Proof. intros Hh. destruct cl; simpl; by rewrite ?Hh. Qed.

(** ** Lemmas: the log moves *)

Lemma refines_push applied s a c w lsn : srv_conns s !! c = Some (Pushing w lsn) →
  refines m0 applied s a → ∀ ctx,
  refines m0 applied
    {| srv_accept := srv_accept s; srv_conns := <[c := Logging w (srv_calls s)]> (srv_conns s);
       srv_gen := srv_gen s;
       srv_rt := client_push (srv_calls s) (tx_ctx ctx lsn) (call_id w) (call_args w) (srv_rt s);
       srv_calls := S (srv_calls s) |} a.
Proof.
  intros Hc [Hrt Hcalls Hacc Hlsn Hv Hq Hconns] ctx. set (n := srv_calls s). set (x := srv_rt s) in *.
  assert (clients x !! n = None) as Hfree.
  { destruct (clients x !! n) as [cl|] eqn:E; [|done]. pose proof (ci_calls _ _ _ Hcalls n (ex_intro _ cl E)). lia. }
  destruct (client_push_effect n (tx_ctx ctx lsn) (call_id w) (call_args w) x Hfree) as (r & Hp & Hlog).
  assert (log r = write_log lsn w) as Hlw.
  { rewrite Hlog. unfold write_log. f_equal. apply (txid_context_roundtrip ctx). by eapply Hlsn. }
  set (x' := client_push _ _ _ _ x) in *.
  destruct (ps_client _ _ _ _ Hp) as (cl & Hcl & Hreq & Hnr). pose proof (rk_table _ _ (ps_rest _ _ _ _ Hp)) as Htab. pose proof (rk_flusher _ _ (ps_rest _ _ _ _ Hp)) as Hfl.
  split; simpl.
  - by eapply push_inv.
  - eapply calls_inv_push; [done|rewrite Hc; by intros (? & ? & ?)|done|done].
  - apply accept_inv_move; [done|by rewrite Hc].
  - intros c' w' lsn'. destruct (decide (c = c')) as [<-|Hne]; [by rewrite lookup_insert_eq|].
    rewrite lookup_insert_ne by done. apply Hlsn.
  - rewrite Hv. unfold srv_table. simpl. by rewrite Htab.
  - by rewrite Hfl.
  - intros c'. destruct (decide (c = c')) as [<-|Hne].
    + rewrite lookup_insert_eq. exists cl. rewrite Hcl, lookup_insert_eq. split; [done|]. right.
      specialize (Hconns c). rewrite Hc in Hconns. split; [|done].
      intros Hg. assert (answered None (heap (sys x')) r) as Ha by (subst r; destruct cl; [done..|by destruct (Hnr err)]).
      unfold answered in Ha. rewrite (ps_promise _ _ _ _ Hp), (ps_heap _ _ _ _ Hp) in Ha. simpl in Ha.
      by rewrite lookup_app_r, Nat.sub_diag in Ha.
    + rewrite lookup_insert_ne by done. eapply conn_rel_step; [apply Hconns|].
      intros w' t d _ Ht. exists d. rewrite Hcl, lookup_insert_ne; [|by intros <-; congruence].
      split; [done|]. pose proof (ri_alloc _ _ _ _ Hrt t d Ht) as Hal.
      destruct d; simpl in *; try done; unfold answered; rewrite (ps_heap _ _ _ _ Hp), lookup_app_l by done; done.
Qed.

Lemma refines_send applied s a t r sealed x' :
  clients (srv_rt s) !! t = Some (Sending r sealed) → client_send t r sealed (srv_rt s) = Some x' →
  refines m0 applied s a → refines m0 applied (srv_set_rt s x') a.
Proof.
  intros Ht Hs [Hrt Hcalls Hacc Hlsn Hv Hq Hconns]. apply client_send_effect in Hs; [|done].
  pose proof (rk_table _ _ (sn_rest _ _ _ _ Hs)) as Htab. pose proof (rk_flusher _ _ (sn_rest _ _ _ _ Hs)) as Hfl. split; simpl; try done.
  - by eapply send_inv.
  - eapply (calls_inv_client _ _ _ _ t _ (Waiting r)); [done|done|done|apply Hs|done|apply Hs|done].
  - rewrite Hv. unfold srv_table. simpl. by rewrite Htab.
  - by rewrite Hfl.
  - intros c. eapply conn_rel_step; [apply Hconns|]. intros w u d _ Hu.
    rewrite (sn_client _ _ _ _ Hs). destruct (decide (t = u)) as [<-|Hne].
    + exists (Waiting r). rewrite lookup_insert_eq. assert (d = Sending r sealed) as -> by congruence.
      split; [done|]. simpl. by rewrite (sn_heap _ _ _ _ Hs).
    + exists d. rewrite lookup_insert_ne by done. split; [done|]. apply granted_same_heap, Hs.
Qed.

Lemma refines_result applied s a t r x' :
  clients (srv_rt s) !! t = Some (Waiting r) → client_get t r (srv_rt s) = Some x' →
  refines m0 applied s a → refines m0 applied (srv_set_rt s x') a.
Proof.
  intros Ht Hs [Hrt Hcalls Hacc Hlsn Hv Hq Hconns].
  destruct (get_effect m0 applied t r _ x' Hrt Ht Hs) as (err & Hrv & Hset).
  pose proof (rk_table _ _ (rv_rest _ _ _ _ _ Hrv)) as Htab. pose proof (rk_flusher _ _ (rv_rest _ _ _ _ _ Hrv)) as Hfl. pose proof (rv_answer _ _ _ _ _ Hrv) as Ha.
  split; simpl; try done.
  - by eapply get_inv.
  - eapply (calls_inv_client _ _ _ _ t _ (Returned r err)); [done|done|done|apply Hrv|done|apply Hrv|].
    intros e _ Hin. pose proof (ri_fresh _ _ _ _ Hrt) as [_ Hf]. rewrite Forall_forall in Hf.
    by eapply answered_not_fresh; [exact Ha|apply Hf].
  - rewrite Hv. unfold srv_table. simpl. by rewrite Htab.
  - by rewrite Hfl.
  - intros c. eapply conn_rel_step; [apply Hconns|]. intros w u d _ Hu.
    rewrite (rv_client _ _ _ _ _ Hrv). destruct (decide (t = u)) as [<-|Hne].
    + exists (Returned r err). rewrite lookup_insert_eq. assert (d = Waiting r) as -> by congruence.
      split; [done|]. simpl. unfold answered in *. rewrite Ha. split; [by intros [= ->]|by intros ->].
    + exists d. rewrite lookup_insert_ne by done. split; [done|].
      assert (result (promise (request_of d)) ≠ result (promise r)) as Hd.
      { intros E. apply Hne. by eapply (ri_owner _ _ _ _ Hrt); [exact Ht|exact Hu|]. }
      destruct d; simpl in *; try done; unfold answered; rewrite (rv_heap _ _ _ _ _ Hrv), list_lookup_insert_ne; done.
Qed.

End refinement.

(** ** Lemmas: the flusher moves *)

Section flusher.
Context {env : Env} {ids : GobTypeIds} {sorter : SortSlice} {UU : UnicodeUpper}.
Context (m0 : gmap bytes bytes).

(** The connection and the write behind a request. *)
Definition behind (m : gmap nat conn_state) (x : RT) (r : WriteRequest) (cw : nat * call) : Prop :=
  ∃ t cl, m !! cw.1 = Some (Logging cw.2 t) ∧ clients x !! t = Some cl ∧ request_of cl = r.

Lemma behind_inj m x r1 r2 c w1 w2 : behind m x r1 (c, w1) → behind m x r2 (c, w2) → r1 = r2.
Proof. intros (t1 & d1 & H1 & H2 & <-) (t2 & d2 & H3 & H4 & <-). simpl in *. by simplify_eq. Qed.

(** A request that is pending has not been answered. *)
Lemma pending_not_granted applied m x n t cl :
  rt_inv m0 applied (pending x) x → calls_inv m x n → clients x !! t = Some cl →
  request_of cl ∈ pending x → (∀ r e, cl ≠ Returned r e) ∧ ¬ granted x cl.
Proof.
  intros Hrt Hcalls Ht Hr. pose proof (ri_fresh _ _ _ _ Hrt) as [_ Hf]. rewrite Forall_forall in Hf.
  destruct (ci_owner _ _ _ Hcalls _ Hr) as (c & w & u & d & _ & Hu & Hd & Hn).
  assert (u = t) as -> by (eapply (ri_owner _ _ _ _ Hrt); [done|done|by rewrite Hd]).
  assert (d = cl) as -> by congruence.
  assert (∀ r e, cl ≠ Returned r e) as Hnr by (intros r e ->; by destruct (Hn e)).
  split; [done|]. destruct cl as [r s|r|r e]; simpl in *; [..|by destruct (Hnr r e)];
    intros Hg; by apply (answered_not_fresh _ _ _ Hg), Hf.
Qed.

(** What a flush does to the clients: those of the batch get its outcome, the
    others are unaffected. *)
Lemma flush_granted applied m x x' n b err t cl :
  rt_inv m0 applied (pending x) x → calls_inv m x n → pending x ≡ₚ b ++ pending x' →
  flushed b err x x' → clients x !! t = Some cl →
  ((request_of cl ∈ b) ∧ ¬ granted x cl ∧ (granted x' cl ↔ err = None)) ∨
  ((request_of cl ∉ b) ∧ (granted x cl ↔ granted x' cl)).
Proof.
  intros Hrt Hcalls Hp Hfl Ht.
  destruct (decide (result (promise (request_of cl)) ∈ ((λ r, result (promise r)) <$> b))) as [Hin|Hout].
  - left. apply list_elem_of_fmap in Hin as (r & E & Hr).
    assert (r ∈ pending x) as Hrp by (rewrite Hp; set_solver).
    destruct (ci_owner _ _ _ Hcalls r Hrp) as (c & w & u & d & _ & Hu & Hd & _).
    assert (u = t) as -> by (eapply (ri_owner _ _ _ _ Hrt); [done|done|by rewrite Hd]).
    assert (d = cl) as -> by congruence. rewrite <- Hd in Hr, Hrp. split; [done|].
    destruct (pending_not_granted _ _ _ _ _ _ Hrt Hcalls Ht Hrp) as [Hnr Hg]. split; [done|].
    pose proof (fl_answered _ _ _ _ Hfl) as Ha. rewrite Forall_forall in Ha. specialize (Ha _ Hr).
    destruct cl as [r' s|r'|r' e]; simpl in *; [..|by destruct (Hnr r' e)];
      unfold answered in *; rewrite Ha; (split; [by intros [= ->]|by intros ->]).
  - right. split; [intros Hin; apply Hout; by apply (list_elem_of_fmap_2 (λ r, result (promise r)))|].
    destruct cl; simpl in *; try done; unfold answered; by rewrite (fl_others _ _ _ _ Hfl).
Qed.

(** A flush that fails, seen from the store: nothing happens. *)
Lemma conn_rel_failed applied m x x' n b e cs p : rt_inv m0 applied (pending x) x → calls_inv m x n →
  pending x ≡ₚ b ++ pending x' → flushed b (Some e) x x' → clients x' = clients x →
  conn_rel x cs p → conn_rel x' cs p.
Proof.
  intros Hrt Hcalls Hp Hfl Hcl Hrel. eapply conn_rel_step; [exact Hrel|]. intros w t cl _ Ht.
  exists cl. rewrite Hcl. split; [done|].
  destruct (flush_granted applied m x x' n b (Some e) t cl) as [(_ & Hg & Hg')|[_ Hg]]; try done.
  split; [done|]. by intros ?%Hg'.
Qed.

(** The connections behind a batch, in the order of its records. *)
Lemma batch_behind applied m x n b ls : rt_inv m0 applied (pending x) x → calls_inv m x n →
  (∀ r, r ∈ b → r ∈ pending x) → NoDup b → ls ≡ₚ log <$> b →
  ∃ rs cws, rs ≡ₚ b ∧ ls = log <$> rs ∧ Forall2 (behind m x) rs cws ∧ NoDup cws.*1 ∧ Forall2 records ls cws.*2.
Proof.
  intros Hrt Hcalls Hsub Hnd Hls. apply Permutation_map_inv in Hls as (rs & -> & Hrs).
  assert (Forall (λ r, ∃ cw, behind m x r cw) rs) as HF.
  { apply Forall_forall. intros r Hr. rewrite <- Hrs in Hr.
    destruct (ci_owner _ _ _ Hcalls r (Hsub r Hr)) as (c & w & t & cl & Hc & Ht & Hreq & _).
    exists (c, w), t, cl. done. }
  apply Forall_choice in HF as [cws HF]. exists rs, cws. split; [done|]. split; [done|]. split; [done|]. split.
  - eapply Forall2_NoDup_fst; [exact HF|by rewrite <- Hrs|]. intros r1 r2 c w1 w2. apply behind_inj.
  - apply Forall2_fmap. eapply Forall2_impl; [exact HF|]. intros r [c w] (t & cl & Hc & Ht & <-).
    destruct (ci_log _ _ _ Hcalls c w t Hc) as (d & lsn & Hd & El). simpl in *.
    exists lsn. by assert (d = cl) as -> by congruence.
Qed.

(** Behind pending requests are pending writes, in any order. *)
Lemma pending_parties applied s a b ls : refines m0 applied s a →
  (∀ r, r ∈ b → r ∈ pending (srv_rt s)) → NoDup b → ls ≡ₚ log <$> b →
  ∃ rs cws, rs ≡ₚ b ∧ Forall2 (behind (srv_conns s) (srv_rt s)) rs cws ∧ NoDup cws.*1 ∧ Forall2 records ls cws.*2 ∧
    Forall (λ '(c, w), parties a !! c = Some (Pending (Write w))) cws.
Proof.
  intros [Hrt Hcalls _ _ _ _ Hconns] Hsub Hnb Hls.
  destruct (batch_behind applied (srv_conns s) (srv_rt s) (srv_calls s) b ls)
    as (rs & cws & Hrs & -> & HF & Hnd & Hrec); [done..|].
  exists rs, cws. do 4 (split; [done|]).
  apply Forall_forall. intros [c w] [i Hi]%list_elem_of_lookup.
  destruct (Forall2_lookup_r _ _ _ _ _ HF Hi) as (r & Hri & t & cl & Hc & Ht & Hreq). simpl in *.
  assert (r ∈ b) as Hrb by (rewrite <- Hrs; by eapply list_elem_of_lookup_2).
  specialize (Hconns c). rewrite Hc in Hconns. destruct Hconns as (d & Hd & Hrel).
  assert (d = cl) as -> by congruence.
  destruct (pending_not_granted applied (srv_conns s) (srv_rt s) (srv_calls s) t cl) as [_ Hg]; [done..| |].
  { rewrite Hreq. by apply Hsub. }
  by destruct Hrel as [[??]|[_ ?]].
Qed.

(** The store can commit them. *)
Lemma commit_pending applied s a b ls : refines m0 applied s a → queued a = [] →
  (∀ r, r ∈ b → r ∈ pending (srv_rt s)) → NoDup b → ls ≡ₚ log <$> b →
  ∃ rs cws, rs ≡ₚ b ∧ Forall2 (behind (srv_conns s) (srv_rt s)) rs cws ∧ NoDup cws.*1 ∧ Forall2 records ls cws.*2 ∧
    store_step False a None
      {| visible := visible a; queued := cws.*2; doubtful := []; parties := commit_all cws (parties a) |}.
Proof.
  intros Href Hq Hsub Hnb Hls. destruct (pending_parties applied s a b ls Href Hsub Hnb Hls) as (rs & cws & H1 & H2 & H3 & H4 & H5).
  exists rs, cws. do 4 (split; [done|]). by apply store_commit.
Qed.

(** A flush that succeeds: the connections behind the batch are committed. *)
Lemma conn_rel_committed applied m x x' n b rs cws c p : rt_inv m0 applied (pending x) x →
  calls_inv m x n → pending x ≡ₚ b ++ pending x' → flushed b None x x' → clients x' = clients x →
  rs ≡ₚ b → Forall2 (behind m x) rs cws → NoDup cws.*1 →
  (∀ c, conn_rel x (m !! c) (p !! c)) → conn_rel x' (m !! c) (commit_all cws p !! c).
Proof.
  intros Hrt Hcalls Hp Hfl Hcl Hrs HF Hnd Hrel.
  assert (∀ c w, (c, w) ∈ cws → ∃ r, r ∈ b ∧ behind m x r (c, w)) as Hback.
  { intros c' w' [i Hi]%list_elem_of_lookup. destruct (Forall2_lookup_r _ _ _ _ _ HF Hi) as (r & Hr & HB).
    exists r. rewrite <- Hrs. split; [by eapply list_elem_of_lookup_2|done]. }
  destruct (decide (is_logging (m !! c))) as [(w & t & Hc)|Hno].
  2: { rewrite commit_all_other.
       - eapply conn_rel_step; [apply Hrel|]. intros w t cl E. by destruct Hno; eexists _, _.
       - intros ([c' w] & E & Hin)%list_elem_of_fmap. simpl in E. subst c'.
         destruct (Hback c w Hin) as (r & _ & t & cl & Hc & _). simpl in Hc. apply Hno. by eexists _, _. }
  destruct (ci_log _ _ _ Hcalls c w t Hc) as (cl & _ & Ht & _).
  destruct (flush_granted applied m x x' n b None t cl) as [(Hin & _ & Hg)|[Hout Hg]]; try done.
  - assert ((c, w) ∈ cws) as Hcw.
    { rewrite <- Hrs in Hin. apply list_elem_of_lookup in Hin as [i Hi].
      destruct (Forall2_lookup_l _ _ _ _ _ HF Hi) as ([c' w'] & Hcw & u & d & Hc' & Hu & Hd). simpl in *.
      assert (u = t) as -> by (eapply (ri_owner _ _ _ _ Hrt); [done|done|by rewrite Hd]).
      assert (c' = c) as -> by (by eapply (ci_once _ _ _ Hcalls)). assert (w' = w) as -> by congruence.
      by eapply list_elem_of_lookup_2. }
    rewrite (commit_all_in _ _ c w Hnd Hcw), Hc. exists cl. rewrite Hcl. split; [done|]. left. by rewrite Hg.
  - rewrite commit_all_other.
    + eapply conn_rel_step; [apply Hrel|]. intros w' t' cl' E Ht'. exists cl'. rewrite Hcl. split; [done|].
      assert (t' = t) as -> by congruence. by assert (cl' = cl) as -> by congruence.
    + intros ([c' w'] & E & Hcw)%list_elem_of_fmap. simpl in E. subst c'.
      destruct (Hback c w' Hcw) as (r & Hr & u & d & Hc' & Hu & <-). simpl in *.
      apply Hout. assert (u = t) as -> by congruence. by assert (d = cl) as <- by congruence.
Qed.

Lemma fresh_requests_NoDup rs h : fresh_requests rs h → NoDup rs.
Proof. intros [Hn _]. by apply NoDup_fmap_1 in Hn. Qed.

(** The flusher has begun to apply a batch. *)
Definition begins_batch (x x' : RT) : Prop := rest_of (flusher x) = [] ∧ rest_of (flusher x') ≠ [].

Lemma refines_flusher applied s a x' : refines m0 applied s a → flusher_step (srv_rt s) x' →
  ∃ applied' a', exec (store_step False) a [] a' ∧ refines m0 applied' (srv_set_rt s x') a' ∧
    (doubtful a' = doubtful a ∨ begins_batch (srv_rt s) x').
Proof.
  intros Href Hstep. pose proof Href as [Hrt Hcalls Hacc Hlsn Hv Hq Hconns]. set (x := srv_rt s) in *.
  destruct (flusher_step_inv m0 x x' applied Hstep Hrt) as (Hk & He & applied' & new & Hrt' & _ & _).
  pose proof (kp_clients _ _ Hk) as Hcl.
  destruct He as [Hr Hr' Hh Ho Hseg Ht Hp|b err Hne Hp Hfrom Hfl|l Hr Hw Hh Ho].
  - exists applied', a. split; [constructor|]. split; [|by left]. split; simpl; try done.
    + eapply calls_inv_flusher; [done|done|]. by rewrite Hp.
    + rewrite Hv. unfold srv_table. simpl. by rewrite Ht.
    + rewrite Hr'. by rewrite Hr in Hq.
    + intros c. eapply conn_rel_step; [apply Hconns|]. intros w t cl _ E. exists cl. rewrite Hcl.
      split; [done|]. by apply granted_same_heap.
  - assert (calls_inv (srv_conns s) x' (srv_calls s)) as Hcalls'
      by (eapply calls_inv_flusher; [done|done|]; intros r Hin; rewrite Hp; set_solver).
    rewrite (fl_before _ _ _ _ Hfl) in Hq. apply Forall2_nil_inv_l in Hq.
    assert (data (srv_table (srv_set_rt s x')) = visible a) as Hv'
      by (rewrite Hv; unfold srv_table; simpl; by rewrite (fl_table _ _ _ _ Hfl)).
    pose proof (fl_after _ _ _ _ Hfl) as Haft. destruct err as [e|].
    + exists applied', a. split; [constructor|]. split; [|by left]. split; simpl; try done.
      * by rewrite Haft, Hq.
      * intros c. eapply (conn_rel_failed applied); try done.
    + destruct Haft as [Haft _]. pose proof (ri_fresh _ _ _ _ Hrt) as Hfr.
      apply (fresh_requests_perm _ _ _ Hp) in Hfr as (Hfb & _ & _)%fresh_requests_app.
      destruct (commit_pending applied s a b (rest_of (flusher x')))
        as (rs & cws & Hrs & HF & Hnd & Hrec & Hcommit); try done.
      { intros r Hin. fold x. rewrite Hp. set_solver. }
      { by eapply fresh_requests_NoDup. }
      exists applied', {| visible := visible a; queued := cws.*2; doubtful := []; parties := commit_all cws (parties a) |}.
      split; [by eapply exec_silent; [|constructor]|]. split.
      * split; simpl; try done. intros c. by eapply (conn_rel_committed applied).
      * right. split; [apply Hfl|]. intros E. rewrite E in Haft. symmetry in Haft. by apply Permutation_nil_r, fmap_nil_inv in Haft.
  - rewrite Hr in Hq. inversion Hq as [|? w ? q [lsn Hl] Hq' E1 E2]; subst.
    eexists applied', {| visible := run_call (visible a) w; queued := q; doubtful := doubtful a; parties := parties a |}.
    split.
    + eapply exec_silent; [|constructor]. by apply store_show.
    + split; [|by left]. split; simpl; try done.
      * eapply calls_inv_flusher; [done|done|]. intros r. unfold pending. by rewrite Hcl, Hw.
      * rewrite Hv. unfold srv_table. simpl. rewrite Hw. simpl. rewrite apply_hash_table.
        by rewrite <- (replay_write_log lsn).
      * intros c. eapply conn_rel_step; [apply Hconns|]. intros w' t cl _ E. exists cl. rewrite Hcl.
        split; [done|]. by apply granted_same_heap.
Qed.

End flusher.

(** ** The server implements the store *)

Section simulation.
Context {env : Env} {ids : GobTypeIds} {sorter : SortSlice} {UU : UnicodeUpper}.
Context (server : TCPServer) (ctx : Ctx) (m0 : gmap bytes bytes).

(** Steps of a connection outside the log: [refines_move] with the party that
    follows, or none. *)
Ltac move_to Hc :=
  eapply refines_move; try done; simpl; try (by rewrite Hc); try (by intros (? & ? & ?)); try (by intros; congruence);
  try (intros; by rewrite ?lookup_insert_ne, ?lookup_delete_ne); try (by rewrite ?lookup_insert_eq, ?lookup_delete_eq).

Lemma conn_step_refines applied c s l s' a : refines m0 applied s a → conn_step server ctx c s l s' →
  ∃ a', exec (store_step False) a (option_list l) a' ∧ doubtful a' = doubtful a ∧ refines m0 applied s' a'.
Proof.
  intros Href Hstep. pose proof (rf_conns _ _ _ _ Href c) as Hrel.
  destruct Hstep as [q rq s Hc Hq Hlen Hd|q s Hc Hq Hlen Hd|s Hc|r s Hc|k s Hc|w s Hc|w s Hc|w lsn s Hc
    |w t r sealed x s Hc Ht Hs|w t r x s Hc Ht Hs|w t r err s Hc Ht|rq r s Hc|rq r s Hc]; rewrite Hc in Hrel; simpl in Hrel.
  - eexists. split; [by apply exec_one, (store_request c q rq)|]. split; [done|]. move_to Hc.
  - by destruct (dispatch_total q) as [rq E]; rewrite E in Hd.
  - eexists. split; [eapply exec_one, (store_close c); by left|]. split; [done|]. move_to Hc.
  - eexists. split; [by apply exec_one, (store_immediate c r)|]. split; [done|]. move_to Hc.
  - eexists. split; [by apply exec_one, (store_read c k)|]. split; [done|]. move_to Hc.
    by rewrite lookup_insert_eq, get_reply_map, (rf_visible _ _ _ _ Href).
  - exists a. split; [constructor|]. split; [done|]. move_to Hc.
  - cbv zeta. destruct (atomic_add (counter (srv_gen s)) =? 0).
    + eexists. split; [by apply exec_one, (store_fail c w ErrFailedGenerateLSN)|]. split; [done|]. move_to Hc.
    + exists a. split; [constructor|]. split; [done|]. move_to Hc. intros w' lsn [= _ <-]. apply int64_range.
  - exists a. split; [constructor|]. split; [done|]. by eapply refines_push.
  - exists a. split; [constructor|]. split; [done|]. by eapply refines_send.
  - exists a. split; [constructor|]. split; [done|]. by eapply refines_result.
  - destruct Hrel as (cl & Hcl & Hrel). assert (cl = Returned r err) as -> by congruence. destruct err as [e|].
    + destruct Hrel as [[? _]|[_ Hrel]]; [done|].
      eexists. split; [by apply exec_one, (store_fail c w e)|]. split; [done|]. move_to Hc. intros. simplify_eq. eauto.
    + destruct Hrel as [[_ Hrel]|[? _]]; [|done].
      eexists. split; [by apply exec_one, (store_ack c w)|]. split; [done|]. move_to Hc. intros. simplify_eq. eauto.
  - eexists. split; [by apply exec_one, (store_reply c r)|]. split; [done|]. move_to Hc.
  - eexists. split; [apply exec_one, (store_close c); right; by exists r|]. split; [done|]. move_to Hc.
Qed.

(** The accept loop. *)
Lemma serve_step_accept a a' m : serve_step a a' → accept_inv a m → accept_inv a' m.
Proof.
  intros Hstep [Hm Hq]. destruct Hstep as [c a Ha Ho Hc|a Ha Ho|a Ha Ho|c a Ha Hw Hlt|c a Ha Hw Hge|c a Hc|a Hmain|a Hmain Ha];
    split; simpl; try done; try (intros c' Hc'; destruct (Hm c' Hc'); done).
  - intros c' Hc'. destruct (Hm c' Hc') as [Hin _]. split; [set_solver|]. intros [= ->]. done.
  - intros c' [= <-]. set_solver.
  - intros c' Hc'. destruct (Hm c' Hc') as [Hin Hne]. split; [done|congruence].
  - intros c' [= <-]. by apply Hq.
Qed.

(** Only a granted slot adds a connection. *)
Lemma serve_step_start c a a' : serve_step a a' → c ∉ sv_conns a → sv_conns a' = sv_conns a ∪ {[c]} →
  sv_acceptor a = Acquiring c ∧ sv_acceptor a' = Accepting ∧ sv_accepted a' = sv_accepted a.
Proof.
  intros Hstep Hc Hnew. destruct Hstep as [c' a Ha Ho Hc'|a Ha Ho|a Ha Ho|c' a Ha Hw Hlt|c' a Ha Hw Hge|c' a Hc'|a Hmain|a Hmain Ha];
    simpl in *; try (by exfalso; set_solver).
  assert (c' = c) as -> by set_solver. done.
Qed.

(** One step, and what happens to writes in doubt. *)
Lemma server_step_matches applied s l s' a : refines m0 applied s a → server_step server ctx s l s' →
  ∃ a', exec (store_step False) a (option_list l) a' ∧
    (doubtful a' = doubtful a ∨ begins_batch (srv_rt s) (srv_rt s')) ∧ ∃ applied, refines m0 applied s' a'.
Proof.
  intros Href Hstep.
  destruct Hstep as [c s l s' Hc|s x Hf|s|x s Hx _ _|c x s Hx Hc Hnew|c x s Hcl Hc Hx _].
  - destruct (conn_step_refines applied c s l s' a Href Hc) as (a' & H1 & H2 & H3). eauto 10.
  - destruct (refines_flusher m0 applied s a x Href Hf) as (applied' & a' & H1 & H2 & H3). eauto 10.
  - exists a. split; [constructor|]. split; [by left|]. exists applied. destruct Href as [[] Hcalls]. split; try done.
    by destruct Hcalls.
  - exists a. split; [constructor|]. split; [by left|]. exists applied. apply refines_accept; [done|].
    eapply serve_step_accept; [done|apply Href].
  - exists a. split; [constructor|]. split; [by left|]. exists applied.
    destruct (serve_step_start c _ _ Hx Hc Hnew) as (Ha & Ha' & Hacc).
    pose proof (rf_accept _ _ _ _ Href) as [Hm Hq].
    assert (srv_conns s !! c = None) as Hnone.
    { destruct (srv_conns s !! c) eqn:E; [|done]. by destruct (Hm c) as [_ Hne]; [eauto|]. }
    destruct Href as [Hrt Hcalls _ Hlsn Hv Hque Hconns]. split; simpl; try done.
    + apply calls_inv_move; [done|by intros (? & ? & ?)|intros w t E; congruence].
    + split; [|intros c'; congruence]. intros c' Hc'. rewrite Ha', Hacc. split; [|done].
      destruct (decide (c = c')) as [<-|Hne]; [by apply Hq|]. apply Hm. by rewrite lookup_insert_ne in Hc'.
    + intros c' w lsn. destruct (decide (c = c')) as [<-|Hne]; [by rewrite lookup_insert_eq|].
      rewrite lookup_insert_ne by done. apply Hlsn.
    + intros c'. specialize (Hconns c'). destruct (decide (c = c')) as [<-|Hne];
        [rewrite lookup_insert_eq; by rewrite Hnone in Hconns|by rewrite lookup_insert_ne].
  - exists a. split; [constructor|]. split; [by left|]. exists applied. apply refines_accept; [done|].
    eapply serve_step_accept; [done|apply Href].
Qed.

Lemma server_step_refines s l s' a : (∃ applied, refines m0 applied s a) → server_step server ctx s l s' →
  ∃ a', exec (store_step False) a (option_list l) a' ∧ ∃ applied, refines m0 applied s' a'.
Proof.
  intros [applied Href] Hstep. destruct (server_step_matches applied s l s' a Href Hstep) as (a' & Ha & _ & Href').
  by exists a'.
Qed.

(** The relation does not mention the writes in doubt. *)
Lemma refines_doubt applied s a d : refines m0 applied s a →
  refines m0 applied s {| visible := visible a; queued := queued a; doubtful := d; parties := parties a |}.
Proof. intros []. by split. Qed.

(** The server removes nothing from the file system. *)
Lemma server_step_extends applied s l s' a : refines m0 applied s a →
  server_step server ctx s l s' → fs_extends (fs (os (sys (srv_rt s)))) (fs (os (sys (srv_rt s')))).
Proof.
  intros Href Hstep. pose proof (rf_rt _ _ _ _ Href) as Hrt.
  destruct Hstep as [c s l s' Hc|s x Hf|s|x s Hx _ _|c x s Hx Hc Hnew|c x s Hcl Hc Hx _]; try reflexivity.
  - destruct Hc as [q rq s Hc Hq Hlen Hd|q s Hc Hq Hlen Hd|s Hc|r s Hc|k s Hc|w s Hc|w s Hc|w lsn s Hc
      |w t r sealed x s Hc Ht Hs|w t r x s Hc Ht Hs|w t r err s Hc Ht|rq r s Hc|rq r s Hc]; try reflexivity.
    + simpl. destruct (clients (srv_rt s) !! srv_calls s) as [cl|] eqn:E.
      { pose proof (ci_calls _ _ _ (rf_calls _ _ _ _ Href) _ (ex_intro _ cl E)). lia. }
      destruct (client_push_effect _ (tx_ctx ctx lsn) (call_id w) (call_args w) _ E) as (r & Hp & _).
      by rewrite (rk_os _ _ (ps_rest _ _ _ _ Hp)).
    + simpl. apply client_send_effect in Hs; [|done]. by rewrite (rk_os _ _ (sn_rest _ _ _ _ Hs)).
    + simpl. destruct (get_effect m0 applied t r _ x Hrt Ht Hs) as (err & He & _).
      by rewrite (rk_os _ _ (rv_rest _ _ _ _ _ He)).
  - by eapply flusher_step_extends.
Qed.

Lemma server_init_refines x : idle x → data (commandHashTable (wal x)) = m0 →
  refines m0 [] (server_init server x) (store_init m0).
Proof.
  intros (Hb & Hq & Hok) Ht. assert (pending (initial x) = []) as Hp.
  { unfold pending, initial. simpl. rewrite Hb, Hq. unfold in_clients. by rewrite map_to_list_empty. }
  split; simpl; try done.
  - by apply initial_inv.
  - by apply calls_inv_init.
  - split; [|done]. intros c [st Hc]. by rewrite lookup_empty in Hc.
Qed.

End simulation.

(** ** Executable schedules *)

Inductive srv_action :=
  | SAccept (c : nat)              (** [Accept] returns connection [c] *)
  | SStart (c : nat)               (** it gets a slot *)
  | SRead (c : nat) (q : bytes)    (** its [Read] returns [q] *)
  | SConn (c : nat)                (** its next step after that *)
  | SFlusher | STick.              (** the flusher, as in [act] *)

Section schedule.
Context {env : Env} {ids : GobTypeIds} {sorter : SortSlice} {UU : UnicodeUpper}.
Context (server : TCPServer) (ctx : Ctx).

(** The only step of a connection that is not reading. *)
Definition conn_act (c : nat) (s : Server) : option (option wire_event * Server) :=
  match srv_conns s !! c with
  | Some (Handling (Immediate r)) => Some (None, srv_set_conn s c (Replying (Immediate r) r))
  | Some (Handling (Lookup k)) => Some (None, srv_set_conn s c (Replying (Lookup k) (get_reply k (srv_table s))))
  | Some (Handling (Write w)) =>
      Some (None, srv_set_gen (srv_set_conn s c (Numbering w)) (gen_swap c (srv_gen s)))
  | Some (Numbering w) =>
      let txID := atomic_add (counter (srv_gen s)) in
      Some (None, srv_set_gen
        (srv_set_conn s c (if txID =? 0 then Replying (Write w) (write_reply w (Some ErrFailedGenerateLSN))
                           else Pushing w txID))
        (gen_next c (srv_gen s)))
  | Some (Pushing w lsn) =>
      Some (None, {| srv_accept := srv_accept s; srv_conns := <[c := Logging w (srv_calls s)]> (srv_conns s);
        srv_gen := srv_gen s;
        srv_rt := client_push (srv_calls s) (tx_ctx ctx lsn) (call_id w) (call_args w) (srv_rt s);
        srv_calls := S (srv_calls s) |})
  | Some (Logging w t) =>
      match clients (srv_rt s) !! t with
      | Some (Sending r sealed) =>
          match client_send t r sealed (srv_rt s) with Some x => Some (None, srv_set_rt s x) | None => None end
      | Some (Waiting r) =>
          match client_get t r (srv_rt s) with Some x => Some (None, srv_set_rt s x) | None => None end
      | Some (Returned r err) => Some (None, srv_set_conn s c (Replying (Write w) (write_reply w err)))
      | None => None
      end
  | Some (Replying rq r) => Some (Some (EvReply c r), srv_set_conn s c Reading)
  | _ => None
  end.

Definition srv_act (a : srv_action) (s : Server) : option (option wire_event * Server) :=
  let v := srv_accept s in
  match a with
  | SAccept c =>
      match sv_acceptor v with
      | Accepting =>
          if sv_open v && bool_decide (c ∉ sv_accepted v) then
            Some (None, srv_set_accept s {| sv_sem := sv_sem v; sv_acceptor := Acquiring c; sv_main := sv_main v;
              sv_accepted := sv_accepted v ∪ {[c]}; sv_conns := sv_conns v; sv_open := sv_open v |})
          else None
      | _ => None
      end
  | SStart c =>
      if bool_decide (sv_acceptor v = Acquiring c) && bool_decide (c ∉ waiting (sv_sem v)) &&
         (count (sv_sem v) <? max (sv_sem v)) && bool_decide (c ∉ sv_conns v)
      then Some (None, srv_set_conn (srv_set_accept s
             {| sv_sem := Acquire_step c (sv_sem v); sv_acceptor := Accepting; sv_main := sv_main v;
                sv_accepted := sv_accepted v; sv_conns := sv_conns v ∪ {[c]}; sv_open := sv_open v |}) c Reading)
      else None
  | SRead c q =>
      match srv_conns s !! c, dispatch q with
      | Some Reading, Done rq =>
          if negb (bool_decide (q = [])) && (zlen q <=? bufferSize server)
          then Some (Some (EvRequest c q), srv_set_conn s c (Handling rq)) else None
      | _, _ => None
      end
  | SConn c => conn_act c s
  | SFlusher => match act AFlusher (srv_rt s) with Some x => Some (None, srv_set_rt s x) | None => None end
  | STick => match act ATick (srv_rt s) with Some x => Some (None, srv_set_rt s x) | None => None end
  end.

(** A schedule, with the events seen. *)
Fixpoint srv_acts (al : list srv_action) (s : Server) : option (list wire_event * Server) :=
  match al with
  | [] => Some ([], s)
  | a :: al' =>
      match srv_act a s with
      | Some (l, s1) =>
          match srv_acts al' s1 with Some (tr, s2) => Some (option_list l ++ tr, s2) | None => None end
      | None => None
      end
  end.

Lemma conn_act_step c s l s' : conn_act c s = Some (l, s') → conn_step server ctx c s l s'.
Proof.
  unfold conn_act. destruct (srv_conns s !! c) as [[|[r|k|w]|w|w lsn|w t|rq r|]|] eqn:Hc; intros E; simplify_eq.
  - by apply conn_immediate.
  - by apply conn_get.
  - by apply conn_swap.
  - by apply (conn_add server ctx c w).
  - by apply conn_push.
  - destruct (clients (srv_rt s) !! t) as [[r sealed|r|r err]|] eqn:Ht; [| | |done].
    + destruct (client_send t r sealed (srv_rt s)) eqn:Hs; simplify_eq. by eapply conn_send.
    + destruct (client_get t r (srv_rt s)) eqn:Hs; simplify_eq. by eapply conn_result.
    + simplify_eq. by eapply conn_return.
  - by eapply conn_write.
Qed.

Lemma srv_act_step a s l s' : srv_act a s = Some (l, s') → server_step server ctx s l s'.
Proof.
  destruct a as [c|c|c q|c| |]; cbn [srv_act]; intros E.
  - destruct (sv_acceptor _) eqn:Ha; try done. case_match eqn:Hb; simplify_eq.
    apply andb_true_iff in Hb as [Ho Hc%bool_decide_eq_true]. eapply server_accept; [by apply serve_accept|done|by left].
  - case_match eqn:Hb; simplify_eq. repeat (apply andb_true_iff in Hb as [Hb ?]).
    repeat match goal with H : bool_decide _ = true |- _ => apply bool_decide_eq_true in H end. zbool.
    eapply (server_start server ctx c); [by apply serve_acquire|done|done].
  - destruct (srv_conns s !! c) as [[]|] eqn:Hc; try done. destruct (dispatch q) as [rq| |] eqn:Hd; try done.
    case_match eqn:Hb; simplify_eq. apply andb_true_iff in Hb as [Hq%negb_true_iff%bool_decide_eq_false Hl]. zbool.
    by apply (server_conn server ctx c), conn_read.
  - by apply (server_conn server ctx c), conn_act_step.
  - destruct (act AFlusher _) eqn:Hf; simplify_eq. apply server_flusher. by eapply act_flusher_step; [left|].
  - destruct (act ATick _) eqn:Hf; simplify_eq. apply server_flusher. by eapply act_flusher_step; [right|].
Qed.

Lemma srv_acts_exec al : ∀ s tr s', srv_acts al s = Some (tr, s') → exec (server_step server ctx) s tr s'.
Proof.
  induction al as [|a al IH]; intros s tr s' E; simpl in E; [simplify_eq; constructor|].
  destruct (srv_act a s) as [[l s1]|] eqn:Ea; [|done].
  destruct (srv_acts al s1) as [[tr1 s2]|] eqn:Er; [|done]. simplify_eq.
  eapply exec_step; [by apply srv_act_step in Ea|auto].
Qed.

(** The state after a schedule that runs to its end, and its events. *)
Definition srv_after (x : Sys HashTable) (al : list srv_action) : list wire_event * Server :=
  default ([], server_init server x) (srv_acts al (server_init server x)).

Lemma srv_after_exec x al : bool_decide (is_Some (srv_acts al (server_init server x))) = true →
  exec (server_step server ctx) (server_init server x) (srv_after x al).1 (srv_after x al).2.
Proof.
  intros [[tr s] E]%bool_decide_eq_true. unfold srv_after. rewrite E. by apply (srv_acts_exec al).
Qed.

End schedule.

(** ** Properties *)

(** C2: the whole server under any number of concurrent connections refines
    the abstract store, in every environment, faults included: whatever the
    interleaving of connections, accept loop, generator, log and flusher, the
    requests and replies on the wire are those of a map whose writes take
    effect atomically between request and reply or fail without effect, in
    one global order, become visible in that order before the next group is
    committed, and whose reads see the visible map; and the hash table is the
    visible map of that store. *)
Theorem server_refines_store {env : Env} {ids : GobTypeIds} {sorter : SortSlice} {UU : UnicodeUpper}
  (server : TCPServer) (ctx : Ctx) (x : Sys HashTable) (tr : list wire_event) (s : Server)
  (Hidle : idle x) (Hexec : exec (server_step server ctx) (server_init server x) tr s) :
  ∃ a, exec (store_step False) (store_init (data (commandHashTable (wal x)))) tr a ∧
    data (srv_table s) = visible a ∧
    Forall2 records (rest_of (flusher (srv_rt s))) (queued a).
Proof.
  set (m0 := data _).
  assert (∃ applied, refines m0 applied (server_init server x) (store_init m0)) as H0
    by (exists []; by apply server_init_refines).
  destruct (simulation_exec _ (store_step False) (λ s a, ∃ applied, refines m0 applied s a) _ tr s _
    (λ s l s' a, server_step_refines server ctx m0 s l s' a) H0 Hexec) as (a & Ha & applied & Href).
  exists a. split; [done|]. split; [symmetry; apply Href|apply Href].
Qed.

(** A server for four connections, on an empty log directory with a count
    threshold of two. *)
Definition small_server : TCPServer :=
  {| listener := 0; semaphore := None; idleTimeout := 0; maxConnections := 4; bufferSize := 4096 |}.

(** Two clients; the second one's write fills the batch. *)
Definition two_writers : list srv_action :=
  [SAccept 0; SStart 0; SAccept 1; SStart 1;
   SRead 0 (str "SET a 1"); SRead 1 (str "SET a 2");
   SConn 1; SConn 0; SConn 1; SConn 1; SConn 0; SConn 0; SConn 0;
   SFlusher; SFlusher; SFlusher; SFlusher; SFlusher;
   SConn 0; SConn 0; SConn 0; SRead 0 (str "GET a"); SConn 0; SConn 0;
   SConn 1; SConn 1; SConn 1]%nat.

Definition demo_after (al : list srv_action) : list wire_event * Server :=
  @srv_after steady_env default_ids insertion_sort_slice minimal_unicode_upper small_server [] (quick_sys 2) al.

Definition demo_trace : list wire_event :=
  [EvRequest 0 (str "SET a 1"); EvRequest 1 (str "SET a 2"); EvReply 0 (str "OK");
   EvRequest 0 (str "GET a"); EvReply 0 (str "VALUE 1"); EvReply 1 (str "OK")].

Lemma demo_exec al : bool_decide (is_Some (@srv_acts steady_env default_ids insertion_sort_slice
    minimal_unicode_upper small_server [] al (server_init small_server (quick_sys 2)))) = true →
  exec (@server_step steady_env default_ids insertion_sort_slice minimal_unicode_upper small_server [])
    (server_init small_server (quick_sys 2)) (demo_after al).1 (demo_after al).2.
Proof. apply srv_after_exec. Qed.

Lemma server_refines_store_witness :
  ∃ a, exec (@store_step minimal_unicode_upper False) (store_init ∅) demo_trace a ∧
    data (srv_table (demo_after two_writers).2) = visible a ∧
    Forall2 records (rest_of (flusher (srv_rt (demo_after two_writers).2))) (queued a).
Proof.
  assert ((demo_after two_writers).1 = demo_trace) as E by (vm_compute; reflexivity).
  rewrite <- E.
  apply (@server_refines_store steady_env default_ids insertion_sort_slice minimal_unicode_upper
    small_server [] (quick_sys 2) (demo_after two_writers).1 (demo_after two_writers).2).
  - apply quick_idle.
  - apply demo_exec. vm_compute. reflexivity.
Defined.

(** One client: it writes, is told of success, and reads before the flusher
    has applied the record. *)
Definition early_read : list srv_action :=
  [SAccept 0; SStart 0; SRead 0 (str "SET k v"); SConn 0; SConn 0; SConn 0;
   SFlusher; STick; SConn 0; SConn 0; SConn 0; SRead 0 (str "GET k"); SConn 0; SConn 0]%nat.

(** C38: the store is not linearizable and does not let a client read its own
    writes: there is an execution of the server without faults in which a
    client sends SET, is answered OK, sends GET for the key and is answered
    NOT_FOUND. The log resolves the promises of a batch before it applies the
    records, although its documentation says that it applies them and only
    then unblocks the caller. *)
Theorem server_stale_read :
  ∃ s, exec (@server_step steady_env default_ids insertion_sort_slice minimal_unicode_upper small_server [])
    (server_init small_server (quick_sys 2))
    [EvRequest 0 (str "SET k v"); EvReply 0 (str "OK"); EvRequest 0 (str "GET k"); EvReply 0 (str "NOT_FOUND")] s.
Proof.
  exists (demo_after early_read).2.
  assert ((demo_after early_read).1 = [EvRequest 0 (str "SET k v"); EvReply 0 (str "OK");
    EvRequest 0 (str "GET k"); EvReply 0 (str "NOT_FOUND")]) as <- by (vm_compute; reflexivity).
  apply demo_exec. vm_compute. reflexivity.
Qed.
