(* ===== verification/Wire.v ===== *)
(** * What clients see

    Properties of the wire that hold for every client of the server of
    [Server.v], in every environment, faults included: conversations are well
    formed, replies and stored data are well typed, and a reply that reports
    success belongs to a record on disk. *)

From S2P Require Import Prelude Traces GoText Compute Config Gob WalLog OS FileSystem Concurrency HashTable Wal WalRuntime Engine Storage Network Database Requests Store Server.

(** ** Conversations *)

(** The request of connection [c] that has no reply yet. *)
Definition next_query (c : nat) (p : option bytes) (e : wire_event) : option bytes :=
  match e with
  | EvRequest c' q => if bool_decide (c' = c) then Some q else p
  | EvReply c' _ => if bool_decide (c' = c) then None else p
  | EvRestart => None
  end.

Definition pending_query (c : nat) (tr : list wire_event) : option bytes := foldl (next_query c) None tr.

(** The replies that a request may have, when the stored words satisfy [P]. *)
Definition answers {UU : UnicodeUpper} (P : bytes → Prop) (q r : bytes) : Prop :=
  match dispatch q with
  | Done (Immediate reply) => r = reply
  | Done (Lookup k) => argument_word k ∧ (r = str "NOT_FOUND" ∨ ∃ v, P v ∧ r = str "VALUE " ++ v)
  | Done (Write w) => Forall argument_word (call_args w) ∧ ∃ err, r = write_reply w err
  | _ => False
  end.

(** An event that may come next on connection [c]. *)
Definition polite {UU : UnicodeUpper} (P : bytes → Prop) (c : nat) (p : option bytes) (e : wire_event) : Prop :=
  match e with
  | EvRequest c' q => c' = c → p = None
  | EvReply c' r => c' = c → ∃ q, p = Some q ∧ answers P q r
  | EvRestart => True
  end.

Definition conversation {UU : UnicodeUpper} (P : bytes → Prop) (c : nat) (tr : list wire_event) : Prop :=
  ∀ tr1 e tr2, tr = tr1 ++ e :: tr2 → polite P c (pending_query c tr1) e.

(** Keys and values satisfy [P]. *)
Definition typed_map (P : bytes → Prop) (m : gmap bytes bytes) : Prop := ∀ k v, m !! k = Some v → P k ∧ P v.

(** Every success reported for a write has its record on disk. *)
Definition acknowledged_durable {ids : GobTypeIds} {UU : UnicodeUpper} (tr : list wire_event) (f : gmap path node) : Prop :=
  ∀ tr1 c r tr2 q w, tr = tr1 ++ EvReply c r :: tr2 → pending_query c tr1 = Some q →
    dispatch q = Done (Write w) → r = write_reply w None → ∃ lsn, on_disk f (write_log lsn w).

(** ** Lemmas *)

Section wire.
Context {env : Env} {ids : GobTypeIds} {sorter : SortSlice} {UU : UnicodeUpper}.
Context (P : bytes → Prop) (HP : ∀ s, argument_word s → P s).

Lemma pending_query_snoc c tr e : pending_query c (tr ++ [e]) = next_query c (pending_query c tr) e.
Proof. unfold pending_query. by rewrite foldl_app. Qed.

(** A split of a list with one more element at the end. *)
Lemma snoc_split {A} (l : list A) x l1 y l2 : l ++ [x] = l1 ++ y :: l2 →
  (l1 = l ∧ y = x ∧ l2 = []) ∨ ∃ l2', l2 = l2' ++ [x] ∧ l = l1 ++ y :: l2'.
Proof.
  induction l2 as [|z l2 IH] using rev_ind; intros E.
  - apply app_inj_tail in E as [-> ->]. by left.
  - right. exists l2. rewrite app_comm_cons, app_assoc in E. apply app_inj_tail in E as [-> ->]. done.
Qed.

Lemma conversation_snoc c tr e : conversation P c tr → polite P c (pending_query c tr) e → conversation P c (tr ++ [e]).
Proof.
  intros Hc Hp tr1 e' tr2 E. apply snoc_split in E as [(-> & -> & _)|(tr2' & _ & E)]; [done|by eapply Hc].
Qed.

Lemma argument_call q w : dispatch q = Done (Write w) → Forall argument_word (call_args w).
Proof. intros H. by apply dispatch_write in H as [H _]. Qed.

Lemma argument_lookup q k : dispatch q = Done (Lookup k) → argument_word k.
Proof.
  unfold dispatch. destruct (ParseAndValidate q) as [ts|] eqn:Ep; [|done].
  apply ParseAndValidate_canonical in Ep as (Hcan & cmd & args & _ & ->). cbn [lookup list_lookup].
  destruct Hcan as [_ Hargs].
  repeat case_bool_decide; try done; repeat case_match; intros; simplify_eq.
  all: destruct args; simplify_eq/=; by apply Forall_inv in Hargs.
Qed.

Lemma typed_run_call m w : typed_map P m → Forall argument_word (call_args w) → typed_map P (run_call m w).
Proof.
  intros Hm Hw k v. destruct w as [k' v'|k']; simpl in *.
  - apply Forall_cons in Hw as [Hk Hv]. apply Forall_inv in Hv.
    destruct (decide (k' = k)) as [<-|Hne]; [rewrite lookup_insert_eq; intros [= <-]; auto|].
    rewrite lookup_insert_ne by done. apply Hm.
  - intros [_ H]%lookup_delete_Some. by apply Hm.
Qed.

Lemma typed_get_reply m q k : typed_map P m → dispatch q = Done (Lookup k) → answers P q (map_get_reply k m).
Proof.
  intros Hm Hq. unfold answers, map_get_reply. rewrite Hq. split; [by eapply argument_lookup|].
  destruct (m !! k) as [v|] eqn:E; [|by left]. right. exists v. split; [by apply (Hm k)|done].
Qed.

(** *** Data of the store *)

Definition party_typed (p : store_conn) : Prop :=
  match p with
  | Pending (Write w) | Committed w => Forall argument_word (call_args w)
  | _ => True
  end.

Record store_typed (a : Store) : Prop := {
  sty_visible : typed_map P (visible a);
  sty_queue : Forall (λ w, Forall argument_word (call_args w)) (queued a);
  sty_doubt : Forall (Forall (λ w, Forall argument_word (call_args w))) (doubtful a);
  sty_parties : map_Forall (λ _, party_typed) (parties a)
}.

Lemma store_typed_init m : typed_map P m → store_typed (store_init m).
Proof. intros Hm. split; [done|constructor|constructor|]. apply map_Forall_empty. Qed.

Lemma store_typed_party a c p : store_typed a → party_typed p → store_typed (set_party a c p).
Proof. intros [H1 H2 H3 H4] Hp. split; [done|done|done|]. by apply map_Forall_insert_2. Qed.

Lemma commit_all_typed cws : ∀ m, map_Forall (λ _, party_typed) m →
  Forall (λ w, Forall argument_word (call_args w)) cws.*2 → map_Forall (λ _, party_typed) (commit_all cws m).
Proof.
  induction cws as [|[c w] cws IH]; intros m Hm Hw; [done|]. apply Forall_cons in Hw as [Hw Hws].
  apply IH; [|done]. by apply map_Forall_insert_2.
Qed.

Lemma pending_typed a cws : store_typed a →
  Forall (λ '(c, w), parties a !! c = Some (Pending (Write w))) cws →
  Forall (λ w, Forall argument_word (call_args w)) cws.*2.
Proof.
  intros Ha Hc. apply Forall_fmap. eapply Forall_impl; [exact Hc|].
  intros [c w] Hcw. exact (sty_parties _ Ha _ _ Hcw).
Qed.

Lemma typed_run_calls ws : ∀ m, Forall (λ w, Forall argument_word (call_args w)) ws → typed_map P m →
  typed_map P (foldl run_call m ws).
Proof.
  induction ws as [|w ws IH]; intros m Hws Hm; [done|]. apply Forall_cons in Hws as [Hw Hws].
  by apply IH, typed_run_call.
Qed.

Lemma store_step_typed unsure a l a' : store_typed a → store_step unsure a l a' → store_typed a'.
Proof.
  intros Ha Hstep. pose proof Ha as [H1 H2 H3 H4].
  destruct Hstep as [c q rq a Hc Hq|c r a Hc|c k a Hc|cws a Hq Hn Hc|cws a Hu Hn Hc|c w err a Hc|w q a Hq|c w a Hc
    |c r a Hc|c a Hc|m a (ws & Hws & ->)]; try (by apply store_typed_party).
  - apply store_typed_party; [done|]. destruct rq; [done..|]. by eapply argument_call.
  - pose proof (pending_typed a cws Ha Hc). split; [done|done|constructor|by apply commit_all_typed].
  - pose proof (pending_typed a cws Ha Hc). split; [done|done|by constructor|done].
  - rewrite Hq in H2. apply Forall_cons in H2 as [Hw Hws].
    split; [by apply typed_run_call|done|done|done].
  - split; [done|done|done|]. by apply map_Forall_delete.
  - apply store_typed_init. apply typed_run_calls; [|by apply typed_run_calls].
    destruct Hws as [->|Hws]; [done|]. rewrite Forall_forall in H3. by apply H3.
Qed.

Lemma store_exec_typed unsure a tr a' : exec (store_step unsure) a tr a' → store_typed a → store_typed a'.
Proof. induction 1 as [a|a l a1 tr a2 Hs _ IH]; [done|]. intros Ha. apply IH. by eapply store_step_typed. Qed.

(** *** Conversations of the server *)

(** What the state of a connection says about its pending request. *)
Definition conn_says (f : gmap path node) (cs : option conn_state) (p : option bytes) : Prop :=
  match cs with
  | None | Some Reading => p = None
  | Some (Handling rq) => ∃ q, p = Some q ∧ dispatch q = Done rq
  | Some (Numbering w) | Some (Pushing w _) | Some (Logging w _) => ∃ q, p = Some q ∧ dispatch q = Done (Write w)
  | Some (Replying rq r) => ∃ q, p = Some q ∧ dispatch q = Done rq ∧ answers P q r ∧
      ∀ w, rq = Write w → r = write_reply w None → ∃ lsn, on_disk f (write_log lsn w)
  | Some Closed => True
  end.

Lemma conn_says_extends f f' cs p : fs_extends f f' → conn_says f cs p → conn_says f' cs p.
Proof.
  intros Hf. destruct cs as [[]|]; try done. intros (q & Hp & Hq & Ha & Hd). exists q. do 3 (split; [done|]).
  intros w E Hr. destruct (Hd w E Hr) as [lsn Hl]. exists lsn. by eapply on_disk_extends.
Qed.

Context (server : TCPServer) (ctx : Ctx).

(** The invariant over the events so far. *)
Record talks (m0 : gmap bytes bytes) (tr : list wire_event) (s : Server) : Prop := {
  tk_store : ∃ applied a, refines m0 applied s a ∧ store_typed a;
  tk_conv c : conversation P c tr;
  tk_says c : conn_says (fs (os (sys (srv_rt s)))) (srv_conns s !! c) (pending_query c tr);
  tk_durable : acknowledged_durable tr (fs (os (sys (srv_rt s))))
}.

(** A step without an event on the wire. *)
Lemma talks_silent m0 tr s s' c st : talks m0 tr s →
  (∃ applied a, refines m0 applied s' a ∧ store_typed a) →
  fs_extends (fs (os (sys (srv_rt s)))) (fs (os (sys (srv_rt s')))) →
  (∀ c', c' ≠ c → srv_conns s' !! c' = srv_conns s !! c') → srv_conns s' !! c = st →
  (conn_says (fs (os (sys (srv_rt s')))) (srv_conns s !! c) (pending_query c tr) →
   conn_says (fs (os (sys (srv_rt s')))) st (pending_query c tr)) →
  talks m0 (tr ++ []) s'.
Proof.
  intros [_ Hconv Hsays Hdur] Hst Hf Hother Hc Hmove. rewrite app_nil_r. split; [done|done| |].
  - intros c'. pose proof (conn_says_extends _ _ _ _ Hf (Hsays c')) as H.
    destruct (decide (c' = c)) as [->|Hne]; [rewrite Hc; auto|by rewrite Hother].
  - intros tr1 c' r tr2 q w E Hp Hq Hr. destruct (Hdur tr1 c' r tr2 q w E Hp Hq Hr) as [lsn Hl].
    exists lsn. by eapply on_disk_extends.
Qed.

(** An event of connection [c]. *)
Lemma talks_event m0 tr s s' c st e : talks m0 tr s →
  (∃ applied a, refines m0 applied s' a ∧ store_typed a) → srv_rt s' = srv_rt s →
  srv_conns s' = <[c := st]> (srv_conns s) →
  match e with EvRequest c' _ => c' = c | EvReply c' r => c' = c ∧
    (∀ q w, pending_query c tr = Some q → dispatch q = Done (Write w) → r = write_reply w None →
       ∃ lsn, on_disk (fs (os (sys (srv_rt s)))) (write_log lsn w)) | EvRestart => False end →
  polite P c (pending_query c tr) e →
  conn_says (fs (os (sys (srv_rt s)))) (Some st) (next_query c (pending_query c tr) e) →
  talks m0 (tr ++ [e]) s'.
Proof.
  intros [_ Hconv Hsays Hdur] Hst Hx Hm He Hpol Hnew. split; rewrite ?Hx, ?Hm; [done|..].
  - intros c'. apply conversation_snoc; [done|]. destruct (decide (c' = c)) as [->|Hne]; [done|].
    destruct e as [c1 q|c1 r|]; simpl; [subst; congruence|destruct He; subst; congruence|done].
  - intros c'. rewrite pending_query_snoc. destruct (decide (c' = c)) as [->|Hne]; [by rewrite lookup_insert_eq|].
    rewrite lookup_insert_ne by done.
    replace (next_query c' (pending_query c' tr) e) with (pending_query c' tr); [done|].
    destruct e as [c1 q|c1 r|]; simpl; [subst|destruct He; subst|done]; by rewrite bool_decide_eq_false_2.
  - intros tr1 c' r tr2 q w E Hp Hq Hr. apply snoc_split in E as [(-> & <- & _)|(tr2' & _ & E)]; [|by eapply Hdur].
    destruct He as [-> He]. by eapply He.
Qed.

Lemma conn_step_talks m0 tr c s l s' : talks m0 tr s →
  (∃ applied a, refines m0 applied s' a ∧ store_typed a) →
  fs_extends (fs (os (sys (srv_rt s)))) (fs (os (sys (srv_rt s')))) →
  conn_step server ctx c s l s' → talks m0 (tr ++ option_list l) s'.
Proof.
  intros Htk Hst Hf Hstep. pose proof (tk_says _ _ _ Htk c) as Hs.
  destruct Hstep as [q rq s Hc Hq Hlen Hd|q s Hc Hq Hlen Hd|s Hc|r s Hc|k s Hc|w s Hc|w s Hc|w lsn s Hc
    |w t r sealed x s Hc Ht Hs'|w t r x s Hc Ht Hs'|w t r err s Hc Ht|rq r s Hc|rq r s Hc].
  - rewrite Hc in Hs. eapply talks_event with (c := c); [done|done|done|done|done|intros _; exact Hs|]. simpl.
    rewrite bool_decide_eq_true_2 by done. by exists q.
  - destruct (dispatch_total q) as [rq E]. congruence.
  - by eapply talks_silent with (c := c); [done|done|done|intros; by apply lookup_insert_ne|apply lookup_insert_eq|].
  - eapply talks_silent with (c := c); [done|done|done|intros; by apply lookup_insert_ne|apply lookup_insert_eq|].
    rewrite Hc. intros (q & Hp & Hq). exists q. split; [done|]. split; [done|]. split; [|done].
    unfold answers. by rewrite Hq.
  - eapply talks_silent with (c := c); [done|done|done|intros; by apply lookup_insert_ne|apply lookup_insert_eq|].
    rewrite Hc. intros (q & Hp & Hq). exists q. split; [done|]. split; [done|]. split; [|done].
    rewrite get_reply_map. apply typed_get_reply; [|done].
    destruct (tk_store _ _ _ Htk) as (applied & a & Href & Ha). rewrite <- (rf_visible _ _ _ _ Href). apply Ha.
  - eapply talks_silent with (c := c); [done|done|done|intros; by apply lookup_insert_ne|apply lookup_insert_eq|].
    by rewrite Hc.
  - eapply talks_silent with (c := c); [done|done|done|intros; by apply lookup_insert_ne|apply lookup_insert_eq|].
    rewrite Hc. intros (q & Hp & Hq). destruct (_ =? 0); [|by exists q].
    exists q. do 2 (split; [done|]). split.
    + unfold answers. rewrite Hq. split; [by eapply argument_call|by eexists].
    + intros w' [= <-] E. by apply write_reply_inj in E as [_ E]; discriminate (E eq_refl).
  - eapply talks_silent with (c := c); [done|done|done|intros; by apply lookup_insert_ne|apply lookup_insert_eq|].
    by rewrite Hc.
  - by apply (talks_silent m0 tr s _ c (srv_conns s !! c)).
  - by apply (talks_silent m0 tr s _ c (srv_conns s !! c)).
  - eapply talks_silent with (c := c); [done|done|done|intros; by apply lookup_insert_ne|apply lookup_insert_eq|].
    rewrite Hc. intros (q & Hp & Hq). exists q. do 2 (split; [done|]). split.
    + unfold answers. rewrite Hq. split; [by eapply argument_call|by eexists].
    + intros w' [= <-] E. apply write_reply_inj in E as [_ E]. specialize (E eq_refl). subst err.
      destruct (tk_store _ _ _ Htk) as (applied & a & Href & _).
      destruct (ri_client _ _ _ _ (rf_rt _ _ _ _ Href) t _ Ht eq_refl) as [Hl _].
      destruct (ci_log _ _ _ (rf_calls _ _ _ _ Href) c w t Hc) as (cl & lsn & Hcl & El).
      rewrite Ht in Hcl. injection Hcl as <-. simpl in El. exists lsn. by rewrite <- El.
  - rewrite Hc in Hs. destruct Hs as (q & Hp & Hq & Ha & Hd).
    eapply talks_event with (c := c); [done|done|done|done| | |].
    + split; [done|]. intros q' w Hp' Hq' Hr. assert (q' = q) as -> by congruence. apply (Hd w); [congruence|done].
    + intros _. by exists q.
    + simpl. by rewrite bool_decide_eq_true_2.
  - by eapply talks_silent with (c := c); [done|done|done|intros; by apply lookup_insert_ne|apply lookup_insert_eq|].
Qed.

Lemma server_step_talks m0 tr s l s' : talks m0 tr s → server_step server ctx s l s' →
  talks m0 (tr ++ option_list l) s'.
Proof.
  intros Htk Hstep. destruct (tk_store _ _ _ Htk) as (applied & a & Href & Hty).
  assert (∃ applied a, refines m0 applied s' a ∧ store_typed a) as Hst.
  { destruct (server_step_refines server ctx m0 s l s' a (ex_intro _ applied Href) Hstep) as (a' & Ha & applied' & Href').
    exists applied', a'. split; [done|by eapply store_exec_typed]. }
  pose proof (server_step_extends server ctx m0 applied s l s' a Href Hstep) as Hf.
  destruct Hstep as [c s l s' Hc|s x Hx|s|x s Hx _ _|c x s Hx Hc Hnew|c x s Hcl Hc Hx _].
  - by eapply conn_step_talks.
  - by apply (talks_silent m0 tr s _ 0%nat (srv_conns s !! 0%nat)).
  - by apply (talks_silent m0 tr s _ 0%nat (srv_conns s !! 0%nat)).
  - by apply (talks_silent m0 tr s _ 0%nat (srv_conns s !! 0%nat)).
  - eapply talks_silent with (c := c); [done|done|done|intros; by apply lookup_insert_ne|apply lookup_insert_eq|].
    destruct (serve_step_start c _ _ Hx Hc Hnew) as (Ha & _ & _).
    destruct (rf_accept _ _ _ _ Href) as [Hm _].
    destruct (srv_conns s !! c) eqn:E; [|done]. by destruct (Hm c) as [_ Hne]; [eauto|].
  - by apply (talks_silent m0 tr s _ 0%nat (srv_conns s !! 0%nat)).
Qed.

Lemma server_talks x tr s : idle x → typed_map P (data (commandHashTable (wal x))) →
  exec (server_step server ctx) (server_init server x) tr s → talks (data (commandHashTable (wal x))) tr s.
Proof.
  intros Hi Hty. apply exec_invariant; [intros; by eapply server_step_talks|].
  split.
  - eexists [], _. split; [by apply server_init_refines|by apply store_typed_init].
  - intros c tr1 e tr2 E. by destruct tr1.
  - intros c. simpl. by rewrite lookup_empty.
  - intros tr1 c r tr2 q w E. by destruct tr1.
Qed.

End wire.

(** ** Properties *)

(** C3: types on the wire and in the table: with any number of clients and in
    every environment, every connection alternates requests and replies, every
    reply is one of those its request may have (the fixed texts, or VALUE and
    a word over the alphabet of arguments), and keys and values in the table
    are such words whenever those recovered at start-up are. *)
Theorem session_types {env : Env} {ids : GobTypeIds} {sorter : SortSlice} {UU : UnicodeUpper}
  (server : TCPServer) (ctx : Ctx) (x : Sys HashTable) (tr : list wire_event) (s : Server)
  (Hidle : idle x) (Htyped : typed_map argument_word (data (commandHashTable (wal x))))
  (Hexec : exec (server_step server ctx) (server_init server x) tr s) :
  (∀ c, conversation argument_word c tr) ∧ typed_map argument_word (data (srv_table s)).
Proof.
  destruct (server_talks argument_word (λ _ H, H) server ctx x tr s Hidle Htyped Hexec) as [(applied & a & Href & Ha) Hconv _ _].
  split; [done|]. rewrite <- (rf_visible _ _ _ _ Href). apply Ha.
Qed.

Lemma session_types_witness :
  (∀ c, @conversation minimal_unicode_upper argument_word c demo_trace) ∧ typed_map argument_word (data (srv_table (demo_after two_writers).2)).
Proof.
  assert ((demo_after two_writers).1 = demo_trace) as E by (vm_compute; reflexivity). rewrite <- E.
  apply (@session_types steady_env default_ids insertion_sort_slice minimal_unicode_upper
    small_server [] (quick_sys 2) (demo_after two_writers).1 (demo_after two_writers).2).
  - apply quick_idle.
  - intros k v Hk. simpl in Hk. by rewrite lookup_empty in Hk.
  - apply demo_exec. vm_compute. reflexivity.
Defined.

(** C4: durability seen from the wire: with any number of clients and in every
    environment, failing and torn writes included, whenever a client has been
    sent OK or DELETED for a request, a record of that write is inside an
    encoded batch in a file on disk, then and in every later state. *)
Theorem ok_reply_durable {env : Env} {ids : GobTypeIds} {sorter : SortSlice} {UU : UnicodeUpper}
  (server : TCPServer) (ctx : Ctx) (x : Sys HashTable) (tr1 tr2 : list wire_event) (c : nat) (q r : bytes) (w : call)
  (s : Server) (Hidle : idle x)
  (Hexec : exec (server_step server ctx) (server_init server x) (tr1 ++ EvReply c r :: tr2) s)
  (Hq : pending_query c tr1 = Some q) (Hw : dispatch q = Done (Write w)) (Hr : r = write_reply w None) :
  ∃ lsn, on_disk (fs (os (sys (srv_rt s)))) (write_log lsn w).
Proof.
  destruct (server_talks (λ _, True) (λ _ _, I) server ctx x _ s Hidle (λ _ _ _, conj I I) Hexec) as [_ _ _ Hd].
  by eapply Hd.
Qed.

Lemma ok_reply_durable_witness :
  ∃ lsn, @on_disk default_ids (fs (os (sys (srv_rt (demo_after two_writers).2)))) (write_log lsn (CSet (str "a") (str "1"))).
Proof.
  apply (@ok_reply_durable steady_env default_ids insertion_sort_slice minimal_unicode_upper
    small_server [] (quick_sys 2) (take 2 demo_trace) (drop 3 demo_trace) 0 (str "SET a 1") (str "OK")
    (CSet (str "a") (str "1")) (demo_after two_writers).2).
  - apply quick_idle.
  - change (take 2 demo_trace ++ EvReply 0 (str "OK") :: drop 3 demo_trace) with demo_trace.
    assert ((demo_after two_writers).1 = demo_trace) as <- by (vm_compute; reflexivity).
    apply demo_exec. vm_compute. reflexivity.
  - vm_compute. reflexivity.
  - vm_compute. reflexivity.
  - reflexivity.
Defined.
