(* ===== verification/Liveness.v ===== *)
(** * Every request can be answered

    While the context is not cancelled the flusher never leaves its loop, and
    from every state that the server can reach, whatever has failed before,
    the reply to every request that has been read can be produced by steps of
    connections and flusher alone: no request is lost, and no deadlock can be
    reached. And how long a write waits, counted in batches: the rounds of
    [Rounds.v] carried over to the server and to the replies. *)

From S2P Require Import Prelude Traces GoText Compute Config Gob WalLog OS FileSystem Concurrency HashTable Wal WalRuntime Rounds Engine Storage Network Database Requests Store Server.

Section liveness.
Context {env : Env} {ids : GobTypeIds} {sorter : SortSlice} {UU : UnicodeUpper}.
Context (server : TCPServer) (ctx : Ctx) (m0 : gmap bytes bytes).

(** ** The flusher stays in its loop *)

Definition running_place (f : flusher_state) : Prop :=
  match f with At Loop | At Selecting | Applying _ Loop => True | _ => False end.

Record runs (s : Server) : Prop := {
  ru_refines : ∃ applied a, refines m0 applied s a;
  ru_up : cancelled (srv_rt s) = false;
  ru_place : running_place (flusher (srv_rt s))
}.

(** Beginning a flush leaves the batches alone and goes to [k]. *)
Lemma flush_begin_frame b k x x' : flush_begin b k x = Done x' →
  batches (wal (sys x')) = batches (wal (sys x)) ∧ batch (wal (sys x')) = batch (wal (sys x)) ∧
  (flusher x' = At k ∨ ∃ rest, flusher x' = Applying rest k).
Proof.
  unfold flush_begin, WalWriter_Write. destruct (0 <? zlen b); [|intros; simplify_eq/=; eauto].
  destruct (encode_logs _ _) as [enc [e|]].
  - destruct (notification _ _ _) as [[rs h]| |]; intros; simplify_eq/=; eauto.
  - destruct (Segment_Write _ _ _) as [[err seg] w].
    destruct (notification _ _ _) as [[rs h]| |]; intros; simplify_eq/=. destruct err; simpl; eauto.
Qed.

Lemma running_after_flush b x x' : flush_begin b Loop x = Done x' → running_place (flusher x').
Proof. intros (_ & _ & [->|[rest ->]])%flush_begin_frame; done. Qed.

Lemma flusher_step_running x x' : flusher_step x x' → cancelled x = false →
  running_place (flusher x) → running_place (flusher x').
Proof.
  intros Hstep Hc Hp. destruct Hstep as [s Hf|s Hf Hx|s s' Hf Hr|s s' Hf Hr|s s' Hf Hr|s s' Hf Hq Hr|l rest k s Hf|k s Hf];
    rewrite Hf in Hp; simpl in *; try done.
  - by rewrite Hc.
  - congruence.
  - unfold flusher_receive in Hr. destruct (batches _); [done|]. injection Hr as Hr. by eapply running_after_flush.
  - unfold flusher_seal in Hr. destruct (SealBatch _). by eapply running_after_flush.
  - by destruct k.
Qed.

(** What a step does to the flusher and the context. *)
Lemma server_step_place s l s' applied a : refines m0 applied s a → server_step server ctx s l s' →
  (cancelled (srv_rt s') = false → cancelled (srv_rt s) = false) ∧
  (cancelled (srv_rt s) = false → running_place (flusher (srv_rt s)) → running_place (flusher (srv_rt s'))).
Proof.
  intros Href Hstep. pose proof (rf_rt _ _ _ _ Href) as Hrt.
  assert (∀ x, rest_kept (srv_rt s) x →
    (cancelled x = false → cancelled (srv_rt s) = false) ∧
    (cancelled (srv_rt s) = false → running_place (flusher (srv_rt s)) → running_place (flusher x))) as Hrest.
  { intros x [_ _ _ _ -> ->]. done. }
  destruct Hstep as [c s l s' Hc|s x Hf|s|x s Hx _ _|c x s Hx Hc Hnew|c x s Hcl Hc Hx _]; try done.
  - destruct Hc as [q rq s Hc Hq Hlen Hd|q s Hc Hq Hlen Hd|s Hc|r s Hc|k s Hc|w s Hc|w s Hc|w lsn s Hc
      |w t r sealed x s Hc Ht Hs|w t r x s Hc Ht Hs|w t r err s Hc Ht|rq r s Hc|rq r s Hc]; try done; simpl.
    + apply Hrest. destruct (clients (srv_rt s) !! srv_calls s) as [cl|] eqn:E.
      { pose proof (ci_calls _ _ _ (rf_calls _ _ _ _ Href) _ (ex_intro _ cl E)). lia. }
      by destruct (client_push_effect _ (tx_ctx ctx lsn) (call_id w) (call_args w) _ E) as (r & [Hp] & _).
    + apply Hrest. by apply client_send_effect in Hs as [].
    + apply Hrest. by destruct (get_effect m0 applied t r _ x Hrt Ht Hs) as (err & [] & _).
  - simpl. destruct (flusher_step_inv m0 _ x applied Hf Hrt) as (Hk & _). rewrite (kp_cancelled _ _ Hk).
    split; [done|]. by apply flusher_step_running.
Qed.

Lemma runs_step s l s' : runs s → server_step server ctx s l s' → cancelled (srv_rt s') = false → runs s'.
Proof.
  intros [(applied & a & Href) Hup Hp] Hstep Hc.
  destruct (server_step_place _ _ _ _ _ Href Hstep) as [_ Hplace].
  destruct (server_step_refines server ctx m0 s l s' a (ex_intro _ applied Href) Hstep) as (a' & _ & applied' & Href').
  split; [by exists applied', a'|done|auto].
Qed.

(** ** What the flusher can do *)

(** Silent steps that only concern the flusher. *)
Definition quietly (s s' : Server) : Prop :=
  exec (server_step server ctx) s [] s' ∧ srv_conns s' = srv_conns s ∧ clients (srv_rt s') = clients (srv_rt s).

Lemma quietly_refl s : quietly s s.
Proof. split; [constructor|done]. Qed.

Lemma quietly_trans s1 s2 s3 : quietly s1 s2 → quietly s2 s3 → quietly s1 s3.
Proof.
  intros (H1 & Hm1 & Hc1) (H2 & Hm2 & Hc2). split; [apply (exec_app _ _ [] _ [] _ H1 H2)|].
  split; congruence.
Qed.

Lemma flusher_quiet s x : runs s → flusher_step (srv_rt s) x → runs (srv_set_rt s x) ∧ quietly s (srv_set_rt s x).
Proof.
  intros Hr Hf. pose proof Hr as [(applied & a & Href) Hup _].
  destruct (flusher_step_inv m0 _ x applied Hf (rf_rt _ _ _ _ Href)) as (Hk & _).
  pose proof (server_flusher server ctx s x Hf) as Hstep. split.
  - eapply runs_step; [done|done|]. simpl. by rewrite (kp_cancelled _ _ Hk).
  - split; [apply (exec_one _ s None _ Hstep)|]. split; [done|]. apply Hk.
Qed.

(** The batches are as before. *)
Definition same_batches (s s' : Server) : Prop :=
  batches (wal (sys (srv_rt s'))) = batches (wal (sys (srv_rt s))) ∧
  batch (wal (sys (srv_rt s'))) = batch (wal (sys (srv_rt s))).

Lemma loop_to_selecting s : runs s → flusher (srv_rt s) = At Loop →
  ∃ s', quietly s s' ∧ runs s' ∧ flusher (srv_rt s') = At Selecting ∧ same_batches s s'.
Proof.
  intros Hr Hf. destruct (flusher_quiet s _ Hr (step_check _ Hf)) as [Hr' Hq].
  eexists. split; [exact Hq|]. split; [done|]. simpl. by rewrite (ru_up _ Hr).
Qed.

Lemma to_selecting s : runs s →
  ∃ s', quietly s s' ∧ runs s' ∧ flusher (srv_rt s') = At Selecting ∧ same_batches s s'.
Proof.
  intros Hr. pose proof (ru_place _ Hr) as Hp.
  destruct (flusher (srv_rt s)) as [[| | |]|rest [| | |]] eqn:Hf; simpl in Hp; try done.
  - by apply loop_to_selecting.
  - exists s. split; [apply quietly_refl|]. split; [done|]. split; [done|by split].
  - clear Hp. revert s Hr Hf. induction rest as [|l rest IH]; intros s Hr Hf.
    + destruct (flusher_quiet s _ Hr (step_applied _ _ Hf)) as [Hr1 Hq1].
      destruct (loop_to_selecting _ Hr1 eq_refl) as (s' & Hq & Hr' & Hf' & Hb).
      exists s'. split; [by eapply quietly_trans|]. by split.
    + destruct (flusher_quiet s _ Hr (step_apply _ _ _ _ Hf)) as [Hr1 Hq1].
      destruct (IH _ Hr1 eq_refl) as (s' & Hq & Hr' & Hf' & Hb).
      exists s'. split; [by eapply quietly_trans|]. by split.
Qed.

(** The flusher's state allows a flush. *)
Lemma runs_fresh s : runs s → fresh_requests (pending (srv_rt s)) (heap (sys (srv_rt s))) ∧
  handles_ok (os (sys (srv_rt s))).
Proof. intros [(applied & a & Href) _ _]. pose proof (rf_rt _ _ _ _ Href) as Hrt. split; apply Hrt. Qed.

Lemma receive_one s b q : runs s → batches (wal (sys (srv_rt s))) = b :: q →
  ∃ s', quietly s s' ∧ runs s' ∧ batches (wal (sys (srv_rt s'))) = q ∧
    batch (wal (sys (srv_rt s'))) = batch (wal (sys (srv_rt s))).
Proof.
  intros Hr Hb. destruct (to_selecting s Hr) as (s1 & Hq1 & Hr1 & Hf1 & Hb1 & Ha1). rewrite Hb in Hb1.
  destruct (runs_fresh _ Hr1) as [Hfr Hok].
  destruct (receive_effect Loop (srv_rt s1)) as (x & E & _); [by rewrite Hf1|done|done|by rewrite Hb1|].
  destruct (flusher_quiet s1 x Hr1 (step_select_batch _ _ Hf1 E)) as [Hr2 Hq2].
  exists (srv_set_rt s1 x). split; [by eapply quietly_trans|]. split; [done|].
  unfold flusher_receive in E. rewrite Hb1 in E. injection E as E.
  apply flush_begin_frame in E as (E1 & E2 & _). simpl in *. by rewrite E1, E2.
Qed.

Lemma drain s : runs s →
  ∃ s', quietly s s' ∧ runs s' ∧ batches (wal (sys (srv_rt s'))) = [] ∧
    batch (wal (sys (srv_rt s'))) = batch (wal (sys (srv_rt s))).
Proof.
  intros Hr. remember (batches (wal (sys (srv_rt s)))) as bs eqn:Hb. symmetry in Hb.
  revert s Hr Hb. induction bs as [|b bs IH]; intros s Hr Hb.
  - exists s. split; [apply quietly_refl|done].
  - destruct (receive_one s b bs Hr Hb) as (s1 & Hq1 & Hr1 & Hb1 & Ha1).
    destruct (IH s1 Hr1 Hb1) as (s' & Hq & Hr' & Hb' & Ha').
    exists s'. split; [by eapply quietly_trans|]. split; [done|]. split; [done|congruence].
Qed.

(** Everything in the log's batches is flushed. *)
Lemma flush_all s : runs s →
  ∃ s', quietly s s' ∧ runs s' ∧ pending (srv_rt s') = in_clients (clients (srv_rt s)).
Proof.
  intros Hr. destruct (drain s Hr) as (s1 & Hq1 & Hr1 & Hb1 & _).
  destruct (to_selecting s1 Hr1) as (s2 & Hq2 & Hr2 & Hf2 & Hb2 & _). rewrite Hb1 in Hb2.
  destruct (runs_fresh _ Hr2) as [Hfr Hok].
  destruct (seal_effect Loop (srv_rt s2)) as (x & E & _); [by rewrite Hf2|done|done|].
  destruct (flusher_quiet s2 x Hr2 (step_select_tick _ _ Hf2 E)) as [Hr3 Hq3].
  assert (quietly s (srv_set_rt s2 x)) as Hq by (eapply quietly_trans; [exact Hq1|by eapply quietly_trans]).
  exists (srv_set_rt s2 x). split; [done|]. split; [done|]. destruct Hq as (_ & _ & Hc).
  unfold flusher_seal in E. cbn [SealBatch WithLock] in E. apply flush_begin_frame in E as (E1 & E2 & _).
  unfold pending. rewrite Hc. simpl in *. by rewrite E1, E2, Hb2.
Qed.

(** ** Answers *)

(** Steps of the server alone lead from [s] to the reply for connection [c]. *)
Definition answerable (c : nat) (s : Server) : Prop :=
  ∃ reply s', exec (server_step server ctx) s [EvReply c reply] s'.

Lemma answerable_exec c s s' : exec (server_step server ctx) s [] s' → answerable c s' → answerable c s.
Proof. intros H (reply & s2 & H2). exists reply, s2. apply (exec_app _ _ [] _ _ _ H H2). Qed.

Lemma answerable_step c s s' : server_step server ctx s None s' → answerable c s' → answerable c s.
Proof. intros H. apply answerable_exec. apply (exec_one _ s None _ H). Qed.

Lemma replying_answerable c rq r s : srv_conns s !! c = Some (Replying rq r) → answerable c s.
Proof.
  intros Hc. exists r, (srv_set_conn s c Reading).
  apply (exec_one _ s (Some (EvReply c r))). by eapply server_conn, conn_write.
Qed.

Lemma returned_answerable c w t r err s : srv_conns s !! c = Some (Logging w t) →
  clients (srv_rt s) !! t = Some (Returned r err) → answerable c s.
Proof.
  intros Hc Ht. eapply answerable_step; [by eapply server_conn, conn_return|].
  eapply replying_answerable. apply lookup_insert_eq.
Qed.

(** A client that waits for a request outside the batches being sent. *)
Lemma waiting_answerable c w t r s : runs s → srv_conns s !! c = Some (Logging w t) →
  clients (srv_rt s) !! t = Some (Waiting r) → r ∉ in_clients (clients (srv_rt s)) → answerable c s.
Proof.
  intros Hr Hc Ht Hout. destruct (flush_all s Hr) as (s1 & (Hex & Hm & Hcl) & Hr1 & Hp).
  apply (answerable_exec _ _ _ Hex). rewrite <- Hm in Hc. rewrite <- Hcl in Ht.
  destruct (ru_refines _ Hr1) as (applied & a & Href).
  destruct (ri_client _ _ _ _ (rf_rt _ _ _ _ Href) t _ Ht) as [Hin|(err & Ha & _)]; [by rewrite Hp in Hin|].
  destruct (answered_get _ _ _ Ha) as [h' E].
  assert (client_get t r (srv_rt s1) = Some (set_client (set_sys (srv_rt s1)
    {| wal := wal (sys (srv_rt s1)); heap := h'; os := os (sys (srv_rt s1)) |}) t (Returned r err))) as Eg
    by (unfold client_get; by rewrite E).
  eapply answerable_step; [by eapply server_conn, conn_result|].
  eapply (returned_answerable _ w t r err); [done|]. apply lookup_insert_eq.
Qed.

(** A batch being sent reaches the channel once the flusher has made room. *)
Lemma send_now s c w t r sealed : runs s → srv_conns s !! c = Some (Logging w t) →
  clients (srv_rt s) !! t = Some (Sending r sealed) →
  ∃ s', exec (server_step server ctx) s [] s' ∧ runs s' ∧ srv_conns s' = srv_conns s ∧
    clients (srv_rt s') = <[t := Waiting r]> (clients (srv_rt s)) ∧
    batches (wal (sys (srv_rt s'))) = [sealed].
Proof.
  intros Hr Hc Ht. destruct (drain s Hr) as (s1 & (Hex & Hm & Hcl) & Hr1 & Hb1 & _).
  rewrite <- Hm in Hc. rewrite <- Hcl in Ht.
  destruct (client_send t r sealed (srv_rt s1)) as [x|] eqn:E.
  2: { unfold client_send in E. rewrite Hb1 in E. by vm_compute in E. }
  assert (server_step server ctx s1 None (srv_set_rt s1 x)) as Hstep by (by eapply server_conn, conn_send).
  exists (srv_set_rt s1 x). split; [apply (exec_app _ _ [] _ [] _ Hex (exec_one _ s1 None _ Hstep))|].
  pose proof (client_send_effect _ _ _ _ _ Ht E) as Hs. split; [|split; [done|split]].
  - eapply runs_step; [done|done|]. simpl. rewrite (rk_cancelled _ _ (sn_rest _ _ _ _ Hs)). apply Hr1.
  - simpl. by rewrite (sn_client _ _ _ _ Hs), Hcl.
  - unfold client_send in E. rewrite Hb1 in E. case_bool_decide; simplify_eq. done.
Qed.

Lemma in_clients_elem (m : gmap nat client) r : r ∈ in_clients m →
  ∃ t r' sealed, m !! t = Some (Sending r' sealed) ∧ r ∈ sealed.
Proof.
  unfold in_clients. rewrite list_elem_of_join. intros (l & Hr & (cl & -> & Hcl)%list_elem_of_fmap).
  apply list_elem_of_fmap in Hcl as ([t cl'] & -> & Hin%elem_of_map_to_list). simpl in *.
  destruct cl' as [r' sealed|r'|r' e]; simpl in Hr; [by exists t, r', sealed|by apply not_elem_of_nil in Hr..].
Qed.

Lemma logging_waiting_answerable c w t r s : runs s → srv_conns s !! c = Some (Logging w t) →
  clients (srv_rt s) !! t = Some (Waiting r) → answerable c s.
Proof.
  intros Hr Hc Ht. destruct (decide (r ∈ in_clients (clients (srv_rt s)))) as [Hin|Hout];
    [|by eapply waiting_answerable].
  apply in_clients_elem in Hin as (t2 & r2 & sealed & Ht2 & Hin).
  destruct (ru_refines _ Hr) as (applied & a & Href).
  destruct (ci_live _ _ _ (rf_calls _ _ _ _ Href) t2 _ Ht2) as (c2 & w2 & Hc2); [done|].
  destruct (send_now s c2 w2 t2 r2 sealed Hr Hc2 Ht2) as (s1 & Hex & Hr1 & Hm & Hcl & Hb).
  apply (answerable_exec _ _ _ Hex).
  assert (t2 ≠ t) by congruence.
  eapply (waiting_answerable _ w t r); [done|by rewrite Hm|by rewrite Hcl, lookup_insert_ne|].
  destruct (runs_fresh _ Hr1) as [Hfr _]. apply fresh_requests_NoDup in Hfr.
  unfold pending in Hfr. rewrite Hb in Hfr. apply NoDup_app in Hfr as (_ & _ & Hfr).
  apply NoDup_app in Hfr as (_ & Hfr & _). apply Hfr. simpl. by rewrite app_nil_r.
Qed.

Lemma logging_answerable c w t s : runs s → srv_conns s !! c = Some (Logging w t) → answerable c s.
Proof.
  intros Hr Hc. destruct (ru_refines _ Hr) as (applied & a & Href).
  destruct (ci_log _ _ _ (rf_calls _ _ _ _ Href) c w t Hc) as ([r sealed|r|r err] & _ & Ht & _).
  - destruct (send_now s c w t r sealed Hr Hc Ht) as (s1 & Hex & Hr1 & Hm & Hcl & _).
    apply (answerable_exec _ _ _ Hex). eapply (logging_waiting_answerable _ w t r); [done|by rewrite Hm|].
    rewrite Hcl. apply lookup_insert_eq.
  - by eapply logging_waiting_answerable.
  - by eapply returned_answerable.
Qed.

Lemma pushing_answerable c w lsn s : runs s → srv_conns s !! c = Some (Pushing w lsn) → answerable c s.
Proof.
  intros Hr Hc. pose proof (server_conn server ctx c _ _ _ (conn_push server ctx c w lsn s Hc)) as Hstep.
  eapply answerable_step; [exact Hstep|].
  eapply (logging_answerable c w (srv_calls s)); [|apply lookup_insert_eq].
  eapply runs_step; [exact Hr|exact Hstep|]. simpl.
  unfold client_push. destruct (push_start _ _ _ _) as [[r sealed] x]. apply Hr.
Qed.

Lemma runs_answerable c st s : runs s → srv_conns s !! c = Some st → st ≠ Reading → st ≠ Closed → answerable c s.
Proof.
  intros Hr Hc H1 H2.
  assert (∀ w s, runs s → srv_conns s !! c = Some (Numbering w) → answerable c s) as Hnum.
  { clear. intros w s Hr Hc. pose proof (server_conn server ctx c _ _ _ (conn_add server ctx c w s Hc)) as Hstep.
    cbv zeta in Hstep. eapply answerable_step; [exact Hstep|]. eapply runs_step in Hstep; [|exact Hr|apply Hr].
    destruct (_ =? 0).
    - eapply replying_answerable. simpl. apply lookup_insert_eq.
    - eapply pushing_answerable; [exact Hstep|]. simpl. apply lookup_insert_eq. }
  destruct st as [|[r|k|w]|w|w lsn|w t|rq r|]; try done.
  - eapply answerable_step; [by eapply server_conn, conn_immediate|]. eapply replying_answerable, lookup_insert_eq.
  - eapply answerable_step; [by eapply server_conn, conn_get|]. eapply replying_answerable, lookup_insert_eq.
  - pose proof (server_conn server ctx c _ _ _ (conn_swap server ctx c w s Hc)) as Hstep.
    eapply answerable_step; [exact Hstep|]. eapply (Hnum w); [|apply lookup_insert_eq].
    eapply runs_step; [exact Hr|exact Hstep|apply Hr].
  - by eapply Hnum.
  - by eapply pushing_answerable.
  - by eapply logging_answerable.
  - by eapply replying_answerable.
Qed.

Lemma server_reaches_refines x tr s : idle x → data (commandHashTable (wal x)) = m0 →
  exec (server_step server ctx) (server_init server x) tr s → ∃ applied a, refines m0 applied s a.
Proof.
  intros Hi Hm. apply (exec_invariant _ (λ _ s, ∃ applied a, refines m0 applied s a)).
  - intros _ s1 l s2 (applied & a & Href) Hstep.
    destruct (server_step_refines server ctx m0 s1 l s2 a (ex_intro _ applied Href) Hstep) as (a' & _ & applied' & Href').
    by exists applied', a'.
  - exists [], (store_init m0). by apply server_init_refines.
Qed.

(** The invariant over executions: the flusher is in its loop unless the
    context was cancelled. *)
Lemma server_runs x tr s : idle x → data (commandHashTable (wal x)) = m0 →
  exec (server_step server ctx) (server_init server x) tr s → cancelled (srv_rt s) = false → runs s.
Proof.
  intros Hi Hm Hexec.
  assert ((∃ applied a, refines m0 applied s a) ∧
    (cancelled (srv_rt s) = false → running_place (flusher (srv_rt s)))) as [Href Hp].
  { revert Hexec. apply (exec_invariant _ (λ _ s, (∃ applied a, refines m0 applied s a) ∧
      (cancelled (srv_rt s) = false → running_place (flusher (srv_rt s))))).
    - intros _ s1 l s2 [(applied & a & Href) Hp] Hstep.
      destruct (server_step_place _ _ _ _ _ Href Hstep) as [Hc Hplace].
      destruct (server_step_refines server ctx m0 s1 l s2 a (ex_intro _ applied Href) Hstep)
        as (a' & _ & applied' & Href').
      split; [by exists applied', a'|]. intros H. apply Hplace; auto.
    - split; [|done]. exists [], (store_init m0). by apply server_init_refines. }
  intros Hc. split; auto.
Qed.

(** ** Rounds of the flusher while the server runs *)

(** An execution in which the flusher takes at least [n] batches from the
    channel, with any steps of the server in between. *)
Inductive server_rounds : nat → Server → list wire_event → Server → Prop :=
  | server_rounds_refl s : server_rounds 0 s [] s
  | server_rounds_step n s l s1 tr s2 :
      server_step server ctx s l s1 → server_rounds n s1 tr s2 → server_rounds n s (option_list l ++ tr) s2
  | server_rounds_receive n b s x tr s2 :
      receives b (srv_rt s) x → server_rounds n (srv_set_rt s x) tr s2 → server_rounds (S n) s tr s2.

Lemma receives_server_step b s x : receives b (srv_rt s) x → server_step server ctx s None (srv_set_rt s x).
Proof.
  intros (k & q & _ & Hk & E). apply server_flusher.
  destruct Hk as [[Hf ->]|[Hf ->]]; [by apply step_select_batch|by apply step_drain_batch].
Qed.

Lemma server_rounds_exec n s tr s' : server_rounds n s tr s' → exec (server_step server ctx) s tr s'.
Proof.
  induction 1 as [s|n s l s1 tr s2 Hs _ IH|n b s x tr s2 Hr _ IH]; [constructor|by eapply exec_step|].
  eapply exec_silent; [by eapply receives_server_step|done].
Qed.

(** Seen from the log, a step of the server is a step or nothing. *)
Lemma server_step_rt applied s l s' a : refines m0 applied s a → server_step server ctx s l s' →
  step (srv_rt s) (srv_rt s') ∨ srv_rt s' = srv_rt s.
Proof.
  intros Href Hstep.
  destruct Hstep as [c s l s' Hc|s x Hf|s|x s Hx _ _|c x s Hx Hc Hnew|c x s Hcl Hc Hx _];
    [|left; by apply step_flusher|left; apply step_cancel|by right..].
  destruct Hc as [q rq s Hc Hq Hlen Hd|q s Hc Hq Hlen Hd|s Hc|r s Hc|k s Hc|w s Hc|w s Hc|w lsn s Hc
    |w t r sealed x s Hc Ht Hs|w t r x s Hc Ht Hs|w t r err s Hc Ht|rq r s Hc|rq r s Hc]; try (by right); left; simpl.
  - apply step_push. destruct (clients (srv_rt s) !! srv_calls s) as [cl|] eqn:E; [|done].
    pose proof (ci_calls _ _ _ (rf_calls _ _ _ _ Href) _ (ex_intro _ cl E)). lia.
  - by eapply step_send.
  - by eapply step_get.
Qed.

Lemma server_rounds_rt n s tr s' : server_rounds n s tr s' → (∃ applied a, refines m0 applied s a) →
  rounds n (srv_rt s) (srv_rt s') ∧ ∃ applied a, refines m0 applied s' a.
Proof.
  induction 1 as [s|n s l s1 tr s2 Hs _ IH|n b s x tr s2 Hr _ IH]; intros (applied & a & Href).
  - split; [constructor|by exists applied, a].
  - destruct (server_step_refines server ctx m0 s l s1 a (ex_intro _ applied Href) Hs) as (a' & _ & applied' & Href').
    destruct IH as [IH Hend]; [by exists applied', a'|]. split; [|done].
    destruct (server_step_rt _ _ _ _ _ Href Hs) as [Hrt|E]; [by eapply rounds_step|by rewrite <- E].
  - pose proof (receives_server_step b s x Hr) as Hs.
    destruct (server_step_refines server ctx m0 s None _ a (ex_intro _ applied Href) Hs) as (a' & _ & applied' & Href').
    destruct IH as [IH Hend]; [by exists applied', a'|]. split; [|done]. by eapply rounds_receive.
Qed.

(** The rounds can happen. *)
Lemma server_rounds_silent s s1 n tr s2 : exec (server_step server ctx) s [] s1 → server_rounds n s1 tr s2 →
  server_rounds n s tr s2.
Proof.
  intros Hex. remember [] as tr0 eqn:E0. induction Hex as [s|s l s0 tr0 s1 Hs _ IH]; [done|]. intros Hr.
  apply app_eq_nil in E0 as [El E0]. destruct l; [done|]. apply (server_rounds_step n s None s0 tr s2 Hs). by apply IH.
Qed.

Lemma server_rounds_exist n : ∀ s, runs s → (n ≤ length (batches (wal (sys (srv_rt s)))))%nat →
  ∃ s', server_rounds n s [] s'.
Proof.
  induction n as [|n IH]; intros s Hr Hn; [exists s; constructor|].
  destruct (to_selecting s Hr) as (s1 & (Hex & _) & Hr1 & Hf1 & Hb1 & _). rewrite <- Hb1 in Hn.
  destruct (batches (wal (sys (srv_rt s1)))) as [|b q] eqn:Hq; simpl in Hn; [lia|].
  destruct (runs_fresh _ Hr1) as [Hfr Hok].
  destruct (receive_effect Loop (srv_rt s1)) as (x & E & _); [by rewrite Hf1|done|done|by rewrite Hq|].
  assert (receives b (srv_rt s1) x) as Hrec by (exists Loop, q; auto).
  destruct (flusher_quiet s1 x Hr1 (step_select_batch _ _ Hf1 E)) as [Hr2 _].
  unfold flusher_receive in E. rewrite Hq in E. injection E as E. apply flush_begin_frame in E as (E1 & _).
  destruct (IH (srv_set_rt s1 x) Hr2) as [s2 Hs2]; [simpl in *; rewrite E1; lia|].
  exists s2. eapply server_rounds_silent; [exact Hex|]. by eapply server_rounds_receive.
Qed.

(** A step is one of connection [c], or it leaves the connection and its call
    in the log as they are. *)
Lemma server_step_other applied a c st s l s' : refines m0 applied s a → server_step server ctx s l s' →
  srv_conns s !! c = Some st →
  conn_step server ctx c s l s' ∨
  srv_conns s' !! c = Some st ∧
    ∀ w t, st = Logging w t → clients (srv_rt s') !! t = clients (srv_rt s) !! t.
Proof.
  intros Href Hstep Hst. pose proof (rf_calls _ _ _ _ Href) as Hcalls.
  destruct Hstep as [d s l s' Hd|s x Hf|s|x s Hx _ _|d x s Hx Hd Hnew|d x s Hcl Hd Hx _]; try (by right).
  - destruct (decide (d = c)) as [->|Hne]; [by left|right].
    assert (∀ w t w' t', st = Logging w t → srv_conns s !! d = Some (Logging w' t') → t' ≠ t) as Hother.
    { intros w t w' t' -> Hd' ->. apply Hne. by eapply (ci_once _ _ _ Hcalls). }
    destruct Hd as [q rq s Hc Hq Hlen Hd|q s Hc Hq Hlen Hd|s Hc|r s Hc|k s Hc|w s Hc|w s Hc|w lsn s Hc
      |w t r sealed x s Hc Ht Hs|w t r x s Hc Ht Hs|w t r err s Hc Ht|rq r s Hc|rq r s Hc];
      simpl; rewrite ?lookup_insert_ne by done; try done; (split; [done|]); intros w' t' ->.
    + destruct (ci_log _ _ _ Hcalls c w' t' Hst) as (cl & _ & Hcl & _).
      pose proof (ci_calls _ _ _ Hcalls t' (ex_intro _ cl Hcl)) as Hlt.
      unfold client_push. destruct (push_start _ _ _ _) as [[r sealed] y]. simpl. rewrite lookup_insert_ne by lia. done.
    + unfold client_send in Hs. case_bool_decide; simplify_eq. simpl. rewrite lookup_insert_ne; [done|by eapply Hother].
    + unfold client_get in Hs. repeat case_match; simplify_eq. simpl. rewrite lookup_insert_ne; [done|by eapply Hother].
  - right. split; [done|]. intros w t _. simpl.
    destruct (flusher_step_inv m0 _ x applied Hf (rf_rt _ _ _ _ Href)) as (Hk & _). by rewrite (kp_clients _ _ Hk).
  - right. simpl. rewrite lookup_insert_ne; [done|]. intros ->.
    destruct (serve_step_start c _ _ Hx Hd Hnew) as (Ha & _ & _).
    destruct (rf_accept _ _ _ _ Href) as [Hm _]. by destruct (Hm c) as [_ Hne]; [eauto|].
Qed.

(** Connection [c] waits in the log for the answer to [r], or is on its way
    from there to its reply, or has sent it, or its socket was closed. *)
Definition on_its_way (c : nat) (r : WriteRequest) (tr : list wire_event) (s : Server) : Prop :=
  (∃ w t cl, srv_conns s !! c = Some (Logging w t) ∧ clients (srv_rt s) !! t = Some cl ∧
    (cl = Waiting r ∨ ∃ err, cl = Returned r err)) ∨
  (∃ rq reply, srv_conns s !! c = Some (Replying rq reply)) ∨
  (∃ reply, EvReply c reply ∈ tr) ∨ srv_conns s !! c = Some Closed.

Lemma on_its_way_step applied a c r tr s l s' : refines m0 applied s a → on_its_way c r tr s →
  server_step server ctx s l s' → on_its_way c r (tr ++ option_list l) s'.
Proof.
  intros Href [(w & t & cl & Hc & Ht & Hcl)|[(rq & reply & Hc)|[(reply & Hin)|Hc]]] Hstep.
  3: { right. right. left. exists reply. set_solver. }
  - destruct (server_step_other _ _ _ _ _ _ _ Href Hstep Hc) as [Hown|[Hc' Ht']].
    2: { left. exists w, t, cl. rewrite (Ht' w t eq_refl). done. }
    inversion Hown as [| | | | | | | |w1 t1 r1 sealed x s1 Hc1 Ht1 Hs|w1 t1 r1 x s1 Hc1 Ht1 Hs|w1 t1 r1 err s1 Hc1 Ht1| |];
      subst; simplify_eq; [by destruct Hcl as [?|[??]]|..].
    + left. unfold client_get in Hs. destruct Hcl as [?|[??]]; [|done]. repeat case_match; simplify_eq.
      eexists w, t, _. simpl. rewrite lookup_insert_eq. eauto.
    + right. left. eexists _, _. apply lookup_insert_eq.
  - destruct (server_step_other _ _ _ _ _ _ _ Href Hstep Hc) as [Hown|[Hc' _]]; [|right; left; by exists rq, reply].
    inversion Hown; subst; simplify_eq; right; right; [left; exists reply; set_solver|right; apply lookup_insert_eq].
  - destruct (server_step_other _ _ _ _ _ _ _ Href Hstep Hc) as [Hown|[Hc' _]]; [|by right; right; right].
    inversion Hown; subst; simplify_eq.
Qed.

Lemma on_its_way_exec c r s tr s' : (∃ applied a, refines m0 applied s a) → on_its_way c r [] s →
  exec (server_step server ctx) s tr s' → on_its_way c r tr s'.
Proof.
  intros Href Hway Hex. cut ((∃ applied a, refines m0 applied s' a) ∧ on_its_way c r tr s'); [by intros []|].
  revert Hex. apply (exec_invariant _ (λ tr s, (∃ applied a, refines m0 applied s a) ∧ on_its_way c r tr s)); [|done].
  intros tr1 s1 l s2 [(applied & a & Hr) Hw] Hstep. split; [|by eapply on_its_way_step].
  destruct (server_step_refines server ctx m0 s1 l s2 a (ex_intro _ applied Hr) Hstep) as (a' & _ & applied' & Hr').
  by exists applied', a'.
Qed.

(** Its own steps lead the connection from the answer to the reply. *)
Definition replies_next (c : nat) (s : Server) : Prop :=
  ∃ reply s', exec (conn_step server ctx c) s [EvReply c reply] s'.

Lemma replying_replies c rq reply s : srv_conns s !! c = Some (Replying rq reply) → replies_next c s.
Proof. intros Hc. eexists reply, _. by eapply (exec_one _ s (Some (EvReply c reply))), conn_write. Qed.

Lemma replies_step c s s' : conn_step server ctx c s None s' → replies_next c s' → replies_next c s.
Proof. intros H (reply & s2 & H2). exists reply, s2. by eapply exec_silent. Qed.

Lemma returned_replies c w t r err s : srv_conns s !! c = Some (Logging w t) →
  clients (srv_rt s) !! t = Some (Returned r err) → replies_next c s.
Proof.
  intros Hc Ht. eapply replies_step; [by eapply conn_return|]. eapply replying_replies, lookup_insert_eq.
Qed.

Lemma on_its_way_replies applied a c r tr s : refines m0 applied s a → resolved r (srv_rt s) →
  on_its_way c r tr s → (∃ reply, EvReply c reply ∈ tr) ∨ srv_conns s !! c = Some Closed ∨ replies_next c s.
Proof.
  intros Href Hres [(w & t & cl & Hc & Ht & [->|[err ->]])|[(rq & reply & Hc)|[?|?]]]; [right; right..|by left|by right; left].
  - destruct (resolved_get m0 applied t r (srv_rt s) (rf_rt _ _ _ _ Href) Ht Hres) as (err & x & Hx & Htx).
    eapply replies_step; [by eapply conn_result|]. by eapply (returned_replies _ w t r err).
  - by eapply returned_replies.
  - by eapply replying_replies.
Qed.

End liveness.

(** ** Properties *)

(** C5: no deadlock and no lost request: in every state that the server can
    reach while its context is not cancelled, in every environment and whatever
    has failed on the way, every connection whose request was read and whose
    socket is open can be sent its reply by steps of the server alone. *)
Theorem request_answerable {env : Env} {ids : GobTypeIds} {sorter : SortSlice} {UU : UnicodeUpper}
  (server : TCPServer) (ctx : Ctx) (x : Sys HashTable) (tr : list wire_event) (s : Server) (c : nat) (st : conn_state)
  (Hidle : idle x) (Hexec : exec (server_step server ctx) (server_init server x) tr s)
  (Hup : cancelled (srv_rt s) = false) (Hc : srv_conns s !! c = Some st) (Hst : st ≠ Reading ∧ st ≠ Closed) :
  answerable server ctx c s.
Proof.
  assert (runs (data (commandHashTable (wal x))) s) as Hr by (by eapply server_runs).
  destruct Hst. by eapply runs_answerable.
Qed.

(** Two writes in the log, in one batch that was sent and not taken yet. *)
Lemma request_answerable_witness :
  @answerable steady_env default_ids insertion_sort_slice minimal_unicode_upper small_server [] 0
    (demo_after (take 13 two_writers)).2.
Proof.
  apply (@request_answerable steady_env default_ids insertion_sort_slice minimal_unicode_upper small_server []
    (quick_sys 2) (demo_after (take 13 two_writers)).1 (demo_after (take 13 two_writers)).2 0
    (Logging (CSet (str "a") (str "1")) 1)).
  - apply quick_idle.
  - apply demo_exec. vm_compute. reflexivity.
  - vm_compute. reflexivity.
  - vm_compute. reflexivity.
  - split; discriminate.
Defined.

(** C15: first come, first served: a connection whose write was sent in the
    i-th batch of the channel waits for no more than i + 1 batches. In every
    execution of the server, with any steps and failures in between, once the
    flusher has taken that many batches, the reply to the connection has been
    sent, or its socket is closed, or its own steps lead to the reply without
    waiting for anybody; and while the context is not cancelled such an
    execution is possible from every reachable state. (The channel has room
    for five batches.) *)
Theorem writes_answered_in_order {env : Env} {ids : GobTypeIds} {sorter : SortSlice} {UU : UnicodeUpper}
  (server : TCPServer) (ctx : Ctx) (x : Sys HashTable) (tr : list wire_event) (s : Server)
  (c : nat) (w : call) (t : nat) (r : WriteRequest) (i : nat) (b : list WriteRequest)
  (Hidle : idle x) (Hexec : exec (server_step server ctx) (server_init server x) tr s)
  (Hc : srv_conns s !! c = Some (Logging w t)) (Ht : clients (srv_rt s) !! t = Some (Waiting r))
  (Hb : batches (wal (sys (srv_rt s))) !! i = Some b) (Hr : r ∈ b) :
  (i < 5)%nat ∧
  (∀ n tr' s', server_rounds server ctx n s tr' s' → (i < n)%nat →
    (∃ reply, EvReply c reply ∈ tr') ∨ srv_conns s' !! c = Some Closed ∨ replies_next server ctx c s') ∧
  (cancelled (srv_rt s) = false → ∃ s', server_rounds server ctx (S i) s [] s').
Proof.
  set (m0 := data (commandHashTable (wal x))).
  destruct (server_reaches_refines server ctx m0 x tr s Hidle eq_refl Hexec) as (applied & a & Href).
  pose proof (rf_rt _ _ _ _ Href) as Hrt. pose proof (lookup_lt_Some _ _ _ Hb) as Hi.
  split; [|split].
  - pose proof (ri_cap _ _ _ _ Hrt). unfold batches_cap in *. lia.
  - intros n tr' s' Hrounds Hn.
    destruct (server_rounds_rt server ctx m0 n s tr' s' Hrounds) as [Hrt' (applied' & a' & Href')]; [by exists applied, a|].
    apply (on_its_way_replies server ctx m0 applied' a' c r); [done| |].
    + apply (rounds_resolved m0 n _ _ Hrt' applied i b); [done|done|by right].
    + apply (on_its_way_exec server ctx m0 c r s); [by exists applied, a|left; exists w, t, (Waiting r); auto|].
      by eapply server_rounds_exec.
  - intros Hup. apply (server_rounds_exist server ctx m0); [by eapply server_runs|lia].
Qed.

Lemma writes_answered_in_order_witness :
  let s := (demo_after (take 13 two_writers)).2 in
  ∃ s', @server_rounds steady_env default_ids insertion_sort_slice minimal_unicode_upper small_server [] 1 s [] s' ∧
    ((∃ reply, EvReply 0 reply ∈ []) ∨ srv_conns s' !! 0%nat = Some Closed ∨
     @replies_next default_ids minimal_unicode_upper small_server [] 0 s').
Proof.
  intros s. set (b := default [] (batches (wal (sys (srv_rt s))) !! 0%nat)).
  set (r := default early_request (b !! 1%nat)).
  destruct (@writes_answered_in_order steady_env default_ids insertion_sort_slice minimal_unicode_upper small_server []
    (quick_sys 2) (demo_after (take 13 two_writers)).1 s 0 (CSet (str "a") (str "1")) 1 r 0 b) as (_ & H1 & H2).
  - apply quick_idle.
  - apply demo_exec. vm_compute. reflexivity.
  - vm_compute. reflexivity.
  - vm_compute. reflexivity.
  - vm_compute. reflexivity.
  - apply list_elem_of_lookup_2 with 1%nat. vm_compute. reflexivity.
  - destruct H2 as [s' Hs]; [vm_compute; reflexivity|]. exists s'. split; [exact Hs|]. apply (H1 1%nat [] s' Hs). lia.
Defined.
