(* ===== verification/Durable.v ===== *)
(** * The server and its disk

    What the directory holds while the server of [Server.v] runs: when a write
    that fails has written nothing, the segments hold exactly the records that
    the flusher has applied or is about to apply, so that the map a restart
    would recover is the committed map of the abstract store; and, after a
    failure of [Sync], the records of the batch that failed, which are in doubt;
    or a segment has been doubled ([Unreadable.v]). [Process.v] adds the end and the start of the process. *)

From S2P Require Import Prelude Traces GoText Compute Config Gob WalLog OS FileSystem Concurrency HashTable Wal Unreadable WalRuntime Engine Storage Network Database Requests Store Server.

(** ** Sizes *)

(** A write that fits in a gob message. *)
Definition fits (w : call) : Prop := zlen (mjoin (call_args w)) ≤ 2 ^ 31.

Lemma write_log_good {ids : GobTypeIds} lsn w : in_int64 lsn → fits w → good_log (write_log lsn w).
Proof.
  intros Hl Hf. split; [|apply write_log_applicable].
  assert (zlen (call_args w) ≤ 2) as Hn by (by destruct w).
  pose proof (zlen_nonneg (call_args w)). unfold fits in Hf.
  assert (in_int64 (call_id w)) as Hid by (destruct w; by vm_compute).
  pose proof (value_message_length (write_log lsn w) Hl Hid) as Hv. simpl in *.
  split; [done|]. split; [done|]. unfold tooBig. simpl. lia.
Qed.

(** The write a connection is about to push. *)
Definition writes (st : conn_state) : option call :=
  match st with
  | Handling (Write w) | Numbering w | Pushing w _ => Some w
  | _ => None
  end.

(** ** Volumes: every batch on its way to the flusher is of bounded size *)

Record volumes {ids : GobTypeIds} (x : RT) : Prop := {
  vo_cfg : 0 < flushingBatchCount (cfg (wal (sys x))) ∧ 0 < flushingBatchVolume (cfg (wal (sys x))) ≤ 2 ^ 60;
  vo_batch : batch_inv (wal (sys x));
  vo_queue : Forall (λ b, batch_volume b < 2 ^ 61) (batches (wal (sys x)));
  vo_clients t cl : clients x !! t = Some cl → batch_volume (sealed_of cl) < 2 ^ 61
}.

Section volumes.
Context {env : Env} {ids : GobTypeIds} {sorter : SortSlice}.

Lemma volumes_push t ctx cid args x : volumes x → volumes (client_push t ctx cid args x).
Proof.
  intros [Hc Hb Hq Hcl]. unfold client_push, push_start. cbn [NewWriteRequest NewPromise WithLock].
  set (r := {| log := _; promise := _ |}).
  destruct (push_locked_frame r (wal (sys x))) as (_ & Hbs & _ & _ & Hcfg).
  destruct (push_locked_spec r (wal (sys x)) Hb ltac:(lia) ltac:(lia) ltac:(lia)) as (Hb' & _).
  pose proof (push_locked_volume r (wal (sys x)) Hb ltac:(lia)) as Hv.
  destruct (push_locked r (wal (sys x))) as [sealed w]. cbn [fst snd] in *.
  split; simpl; rewrite ?Hcfg, ?Hbs; try done.
  intros u cl. destruct (decide (t = u)) as [<-|Hne]; [|rewrite lookup_insert_ne by done; apply Hcl].
  rewrite lookup_insert_eq. intros [= <-]. by destruct sealed.
Qed.

Lemma volumes_client t cl x x' : volumes x → wal (sys x') = wal (sys x) →
  clients x' = <[t := cl]> (clients x) → sealed_of cl = [] → volumes x'.
Proof.
  intros [Hc Hb Hq Hcl] Hw Hx Hs. split; rewrite ?Hw; try done. intros u d. rewrite Hx.
  destruct (decide (t = u)) as [<-|Hne]; [|rewrite lookup_insert_ne by done; apply Hcl].
  rewrite lookup_insert_eq. intros [= <-]. by rewrite Hs.
Qed.

Lemma volumes_send t r sealed x x' : volumes x → clients x !! t = Some (Sending r sealed) →
  client_send t r sealed x = Some x' → volumes x'.
Proof.
  intros [Hc Hb Hq Hcl] Ht Hs. unfold client_send in Hs. case_bool_decide; [|done]. simplify_eq.
  pose proof (Hcl t _ Ht) as Hv. split; simpl; try done.
  - by destruct Hb.
  - apply Forall_app. split; [done|]. by constructor.
  - intros u d. destruct (decide (t = u)) as [<-|Hne]; [|rewrite lookup_insert_ne by done; apply Hcl].
    rewrite lookup_insert_eq. by intros [= <-].
Qed.

Lemma volumes_get t r x x' : volumes x → client_get t r x = Some x' → volumes x'.
Proof.
  intros Hv Hs. unfold client_get in Hs. repeat case_match; simplify_eq.
  by eapply (volumes_client t (Returned r _)).
Qed.

Lemma volumes_flusher x x' : volumes x → kept x x' → volumes x'.
Proof.
  intros [Hc Hb Hq Hcl] [Kcl _ Kcfg _ [pre Kq] Kb]. split; rewrite ?Kcfg, ?Kcl; try done.
  - destruct Hb as [B1 B2 B3]. split; rewrite ?Kcfg; destruct Kb as [[E1 E2]|[E1 E2]];
      rewrite ?E1, ?E2, ?(zlen_nil (A:=WriteRequest)); try done; lia.
  - rewrite Kq in Hq. by apply Forall_app in Hq as [_ Hq].
Qed.

End volumes.

(** ** Sequence numbers: those in use are distinct *)

Definition lsn_of (st : conn_state) : option Z :=
  match st with Pushing _ lsn => Some lsn | _ => None end.

Definition conn_lsns (m : gmap nat conn_state) : list Z := omap lsn_of (map_to_list m).*2.

Lemma conn_lsns_insert m c st :
  option_list (m !! c ≫= lsn_of) ++ conn_lsns (<[c := st]> m) ≡ₚ option_list (lsn_of st) ++ conn_lsns m.
Proof.
  assert (∀ m0, m0 !! c = None → ∀ st, conn_lsns (<[c := st]> m0) ≡ₚ option_list (lsn_of st) ++ conn_lsns m0) as Hnew.
  { intros m0 H0 st0. unfold conn_lsns. rewrite map_to_list_insert by done. simpl. by destruct (lsn_of st0). }
  rewrite <- (insert_delete_eq m c st). rewrite Hnew by apply lookup_delete_eq.
  destruct (m !! c) as [st0|] eqn:E; simpl.
  - rewrite <- (insert_delete_id m c st0 E) at 2. rewrite (Hnew (delete c m)) by apply lookup_delete_eq.
    rewrite !app_assoc. f_equiv. apply Permutation_app_comm.
  - by rewrite delete_id.
Qed.

(** A state without a number in place of one without. *)
Lemma conn_lsns_same m c st : m !! c ≫= lsn_of = None → lsn_of st = None →
  conn_lsns (<[c := st]> m) ≡ₚ conn_lsns m.
Proof. intros Ho Hn. pose proof (conn_lsns_insert m c st) as H. by rewrite Ho, Hn in H. Qed.

Definition request_lsns (rs : list WriteRequest) : list Z := (λ r, LSN (log r)) <$> rs.

Record lsn_inv (m : gmap nat conn_state) (g : GenState) (rs : list WriteRequest) : Prop := {
  li_gen : gen_inv (NewIDGenerator 0) g;
  li_nodup : NoDup (conn_lsns m ++ request_lsns rs);
  li_issued : ∀ z, z ∈ conn_lsns m ++ request_lsns rs → z ∈ issued g
}.

Lemma lsn_inv_perm m m' g rs rs' : conn_lsns m' ++ request_lsns rs' ≡ₚ conn_lsns m ++ request_lsns rs →
  lsn_inv m g rs → lsn_inv m' g rs'.
Proof. intros Hp [H1 H2 H3]. split; [done|by rewrite Hp|]. intros z. rewrite Hp. apply H3. Qed.

(** Fewer requests. *)
Lemma lsn_inv_drop m g b rs rs' : rs ≡ₚ b ++ rs' → lsn_inv m g rs → lsn_inv m g rs'.
Proof.
  intros Hp [H1 H2 H3].
  assert (conn_lsns m ++ request_lsns rs ≡ₚ request_lsns b ++ conn_lsns m ++ request_lsns rs') as Hp'.
  { unfold request_lsns. rewrite Hp, fmap_app. apply Permutation_app_swap_app. }
  split; [done|rewrite Hp' in H2; by apply NoDup_app in H2 as (_ & _ & H2)|].
  intros z Hz. apply H3. rewrite Hp'. apply elem_of_app. by right.
Qed.

Lemma lsn_inv_request m g rs : lsn_inv m g rs → NoDup (request_lsns rs).
Proof. intros [_ H _]. by apply NoDup_app in H as (_ & _ & H). Qed.

(** A number is taken. *)
Lemma lsn_inv_next m g rs c st : lsn_inv m g rs → m !! c ≫= lsn_of = None →
  lsn_of st = None ∨ lsn_of st = Some (atomic_add (counter g)) →
  zlen (issued (gen_next c g)) ≤ MaxInt64 → lsn_inv (<[c := st]> m) (gen_next c g) rs.
Proof.
  intros [H1 H2 H3] Ho Hst Hle.
  assert (gen_inv (NewIDGenerator 0) (gen_next c g)) as Hg by (by apply gen_next_inv).
  pose proof (gen_inv_NoDup _ _ Hg ltac:(simpl in *; unfold NewIDGenerator; lia)) as Hnd. simpl in Hnd.
  apply NoDup_app in Hnd as (_ & Hfresh & _).
  pose proof (conn_lsns_insert m c st) as Hp. rewrite Ho in Hp. simpl in Hp.
  split; [done|rewrite Hp, <- (assoc_L (++))|intros z; rewrite Hp, <- (assoc_L (++))];
    destruct Hst as [-> | ->]; simpl; [done| |set_solver|].
  - apply NoDup_cons. split; [|done]. intros Hin%H3. apply (Hfresh _ Hin). by left.
  - rewrite elem_of_cons. intros [->|Hz%H3]; set_solver.
Qed.

(** ** The invariant of a process on its disk *)

Section durable.
Context {env : Env} {ids : GobTypeIds} {sorter : SortSlice} {UU : UnicodeUpper}.
Context (server : TCPServer) (ctx : Ctx) (dir mask : bytes) (horizon : nat) (fresh : Wal HashTable).

(** The size limit of every segment is the configured one. *)
Definition its_limit (m : Z) : Prop := m = maxSegmentSize (segment fresh).

(** What is assumed of the directory, the system, the configuration and the
    log [fresh] that a starting process constructs. *)
Record setup : Prop := {
  su_calm : calm dir mask horizon;
  su_clean : clean_writes;
  su_fresh : fresh_ok dir mask its_limit fresh;
  su_count : 0 < flushingBatchCount (cfg fresh);
  su_volume : 0 < flushingBatchVolume (cfg fresh) ≤ 2 ^ 60;
  su_idle : batch fresh = [] ∧ batches fresh = [] ∧ activeBatchVolume fresh = 0;
  su_buffer : bufferSize server ≤ 2 ^ 31
}.

(** The disk holds exactly what has been applied, what is about to be, and
    [ds], the records in doubt, which the last segment does not count. *)
Definition disk_holds (ds : list Log) (s : Server) : Prop :=
  ∃ ts lss opened, let x := srv_rt s in
    disk_inv dir mask horizon (os (sys x)) ts lss ∧
    seg_inv dir mask its_limit opened (segment (wal (sys x))) (os (sys x)) ts lss ∧
    (opened = true ∨ last lss ≠ Some []) ∧
    (ds = [] ∨ blind_inv dir mask its_limit opened (segment (wal (sys x))) (os (sys x)) ts lss) ∧
    replay (mjoin (sort_slice LSN <$> lss)) ∅ = replay ds (replay (rest_of (flusher x)) (data (srv_table s))).

(** Two batches were written to one segment. *)
Definition disk_doubled (s : Server) : Prop :=
  may_double (maxSegmentSize (segment fresh)) ∧ doubled dir (os (sys (srv_rt s))).

Record durable (ds : list Log) (s : Server) : Prop := {
  du_disk : disk_holds ds s ∨ disk_doubled s;
  du_good : Forall (λ r, good_log (log r)) (pending (srv_rt s));
  du_fits c st w : srv_conns s !! c = Some st → writes st = Some w → fits w;
  du_lsn : lsn_inv (srv_conns s) (srv_gen s) (pending (srv_rt s));
  du_volumes : volumes (srv_rt s)
}.

(** The range of the clock and of the sequence numbers that the theorem
    covers. *)
Definition within (s : Server) : Prop :=
  (ticks (os (sys (srv_rt s))) < horizon)%nat ∧ zlen (issued (srv_gen s)) ≤ MaxInt64.

Context (Hsetup : setup).

(** ** Lemmas: steps of connections *)

Lemma fits_move (m : gmap nat conn_state) (c : nat) (st : conn_state) (Hm : ∀ c st w, m !! c = Some st → writes st = Some w → fits w) :
  (∀ w, writes st = Some w → fits w) →
  ∀ c' st' w, <[c := st]> m !! c' = Some st' → writes st' = Some w → fits w.
Proof.
  intros Hst c' st' w. destruct (decide (c = c')) as [<-|Hne].
  - rewrite lookup_insert_eq. intros [= <-]. apply Hst.
  - rewrite lookup_insert_ne by done. apply Hm.
Qed.

(** A connection moves, and with it at most the generator. *)
Lemma durable_move ds s s' c st : durable ds s → srv_conns s' = <[c := st]> (srv_conns s) →
  srv_rt s' = srv_rt s → (∀ w, writes st = Some w → fits w) →
  lsn_inv (<[c := st]> (srv_conns s)) (srv_gen s') (pending (srv_rt s)) → durable ds s'.
Proof.
  intros [Hd Hg Hf _ Hv] Hm Hx Hst Hl. split; unfold disk_holds, disk_doubled, srv_table in *; rewrite ?Hm, ?Hx; try done.
  by apply fits_move.
Qed.

(** Neither the old nor the new state has a number. *)
Lemma lsn_inv_same m g rs c st : m !! c ≫= lsn_of = None → lsn_of st = None →
  lsn_inv m g rs → lsn_inv (<[c := st]> m) g rs.
Proof. intros Ho Hn. apply lsn_inv_perm. by rewrite (conn_lsns_same m c st Ho Hn). Qed.

(** Clients of the log move: the disk, the table and the flusher do not. *)
Lemma durable_client ds s s' : durable ds s → rest_kept (srv_rt s) (srv_rt s') →
  srv_conns s' = srv_conns s → srv_gen s' = srv_gen s →
  pending (srv_rt s') ≡ₚ pending (srv_rt s) → volumes (srv_rt s') → durable ds s'.
Proof.
  intros [Hd Hg Hf Hl Hv] [Ro Rs _ Rt Rf _] Hm Hgen Hp Hv'.
  split; unfold disk_holds, disk_doubled, srv_table in *; rewrite ?Hm, ?Hgen, ?Ro, ?Rs, ?Rt, ?Rf, ?Hp; try done.
  eapply lsn_inv_perm; [|exact Hl]. unfold request_lsns. by rewrite Hp.
Qed.

Lemma durable_push ds applied s a c w lsn : srv_conns s !! c = Some (Pushing w lsn) →
  (∃ m0, refines m0 applied s a) → durable ds s →
  durable ds {| srv_accept := srv_accept s; srv_conns := <[c := Logging w (srv_calls s)]> (srv_conns s);
             srv_gen := srv_gen s;
             srv_rt := client_push (srv_calls s) (tx_ctx ctx lsn) (call_id w) (call_args w) (srv_rt s);
             srv_calls := S (srv_calls s) |}.
Proof.
  intros Hc [m0 Href] [Hd Hg Hf Hl Hv]. pose proof (rf_lsn _ _ _ _ Href c w lsn Hc) as Hlsn.
  assert (clients (srv_rt s) !! srv_calls s = None) as Hfree.
  { destruct (clients (srv_rt s) !! srv_calls s) as [cl|] eqn:E; [|done].
    pose proof (ci_calls _ _ _ (rf_calls _ _ _ _ Href) _ (ex_intro _ cl E)). lia. }
  destruct (client_push_effect _ (tx_ctx ctx lsn) (call_id w) (call_args w) _ Hfree) as (r & Hp & Hlog).
  assert (log r = write_log lsn w) as Hlw.
  { rewrite Hlog. unfold write_log. f_equal. by apply (txid_context_roundtrip ctx). }
  destruct (ps_rest _ _ _ _ Hp) as [Ro Rs _ Rt Rf _]. pose proof (ps_pending _ _ _ _ Hp) as Hpe.
  split; unfold disk_holds, disk_doubled, srv_table in *; simpl; rewrite ?Ro, ?Rs, ?Rt, ?Rf, ?Hpe; try done.
  - constructor; [|done]. rewrite Hlw. apply write_log_good; [done|]. by eapply Hf.
  - by apply fits_move.
  - eapply lsn_inv_perm; [|exact Hl]. unfold request_lsns. rewrite Hpe, fmap_cons, Hlw. simpl.
    pose proof (conn_lsns_insert (srv_conns s) c (Logging w (srv_calls s))) as Hi. rewrite Hc in Hi. simpl in Hi.
    rewrite <- Hi. simpl. symmetry. apply Permutation_middle.
  - by apply volumes_push.
Qed.

Lemma conn_step_durable ds applied s a c l s' : (∃ m0, refines m0 applied s a) → durable ds s →
  conn_step server ctx c s l s' → within s' → durable ds s'.
Proof.
  intros Href Hdu Hstep [_ Hlsn]. pose proof (du_lsn _ _ Hdu) as Hl.
  destruct Hstep as [q rq s Hc Hq Hlen Hd|q s Hc Hq Hlen Hd|s Hc|r s Hc|k s Hc|w s Hc|w s Hc|w lsn s Hc
    |w t r sealed x s Hc Ht Hs|w t r x s Hc Ht Hs|w t r err s Hc Ht|rq r s Hc|rq r s Hc].
  2-5,11-13: (by eapply durable_move; [exact Hdu|done|done|done|]; apply lsn_inv_same; [by rewrite Hc|done|]).
  - eapply durable_move; [exact Hdu|done|done| |apply lsn_inv_same; [by rewrite Hc|done|done]].
    intros w Hw. destruct rq; simplify_eq/=. apply dispatch_write in Hd as [_ Hz].
    destruct Hsetup. unfold fits. lia.
  - eapply durable_move; [exact Hdu|done|done| |apply lsn_inv_same; [by rewrite Hc|done|]].
    + intros w' [= <-]. by apply (du_fits _ _ Hdu c (Handling (Write w))).
    + destruct Hl as [H1 H2 H3]. split; try done. by apply gen_swap_inv.
  - eapply durable_move; [exact Hdu|done|done| |].
    + intros w' Hw'. apply (du_fits _ _ Hdu c (Numbering w)); [done|]. by destruct (_ =? 0); simplify_eq/=.
    + apply lsn_inv_next; [done|by rewrite Hc| |done]. destruct (_ =? 0); [by left|by right].
  - by eapply durable_push.
  - pose proof (client_send_effect _ _ _ _ _ Ht Hs) as He.
    eapply durable_client; [exact Hdu|apply He|done|done|apply He|]. by eapply volumes_send; [apply Hdu|..].
  - destruct Href as [m0 Href].
    destruct (get_effect m0 applied t r _ x (rf_rt _ _ _ _ Href) Ht Hs) as (err & He & _).
    eapply durable_client; [exact Hdu|apply He|done|done|apply He|]. by eapply volumes_get; [apply Hdu|].
Qed.

(** ** Lemmas: steps of the flusher *)

(** The batches that the flusher takes are of good records and bounded size. *)
Lemma taken_batch ds s b pend : durable ds s → pending (srv_rt s) ≡ₚ b ++ pend →
  b = batch (wal (sys (srv_rt s))) ∨ b ∈ batches (wal (sys (srv_rt s))) →
  Forall good_log (log <$> b) ∧ zlen (stream (log <$> b)) < 2 ^ 61.
Proof.
  intros [_ Hg _ _ Hv] Hp Hfrom. rewrite Hp in Hg. apply Forall_app in Hg as [Hgb _].
  assert (Forall good_log (log <$> b)) as Hg by (by apply Forall_fmap). split; [done|].
  assert (batch_volume b < 2 ^ 61); [|pose proof (batch_volume_stream b (good_wf _ Hg)); lia].
  destruct Hfrom as [->|Hin]; [destruct (vo_batch _ Hv) as [_ B2 B3]; destruct (vo_cfg _ Hv); lia|].
  pose proof (vo_queue _ Hv) as Hq. rewrite Forall_forall in Hq. by apply Hq.
Qed.

(** What the flusher applies after a successful flush of [b] is the batch in the
    order in which it was sorted. *)
Lemma sorted_batch b rest : NoDup (request_lsns b) → rest ≡ₚ log <$> b →
  StronglySorted (λ x y, LSN x ≤ LSN y) rest → rest = sort_slice LSN (log <$> b).
Proof.
  intros Hnd Hp Hs. assert (request_lsns b = LSN <$> (log <$> b)) as El by apply (list_fmap_compose log LSN).
  rewrite El in Hnd. symmetry. apply (sorted_by_key_unique LSN).
  - by rewrite (sort_slice_perm LSN).
  - by rewrite (sort_slice_perm LSN).
  - apply sort_slice_sorted.
  - done.
Qed.

(** The write of a batch: its records reach the disk in order; or it fails and
    they are not there, or they are and are in doubt; or a segment is doubled. *)
Lemma disk_holds_flush ds s x' b err : disk_holds ds s → (ticks (os (sys (srv_rt s))) < horizon)%nat →
  flushed b err (srv_rt s) x' → b ≠ [] → Forall good_log (log <$> b) → NoDup (request_lsns b) →
  zlen (stream (log <$> b)) < 2 ^ 61 →
  disk_doubled (srv_set_rt s x') ∨
  (err = None → ds = []) ∧ disk_holds ds (srv_set_rt s x') ∨
  ds = [] ∧ is_Some err ∧ ¬ sync_reliable ∧ disk_holds (sort_slice LSN (log <$> b)) (srv_set_rt s x').
Proof.
  intros (ts & lss & opened & Hd & Hseg & Ho & Hds & Hrep) Hk [Hbefore Htab _ _ _ _ Hw Haft] Hne Hg Hnd Hsz.
  destruct (encode_logs_stream _ (good_wf _ Hg)) as (enc & E & Hout). rewrite E, Hout in Hw. cbn [fst snd] in Hw.
  assert ((log <$> b) ≠ []) as Hne' by (by intros ?%fmap_nil_inv).
  pose proof (seg_inv_limit _ _ _ _ _ _ _ _ Hseg) as Hlim. unfold its_limit in Hlim.
  assert ((∃ ls0, last lss = Some ls0 ∧ must_rotate (segment (wal (sys (srv_rt s)))) (stream (log <$> b)) = false ∧
      ls0 ≠ [] ∧ may_double (maxSegmentSize (segment fresh))) →
    disk_doubled (srv_set_rt s x') ∨ (err = None → ds = []) ∧ disk_holds ds (srv_set_rt s x')) as Hsecond.
  { intros (ls0 & Hl & Hr & Hne0 & Hdb).
    destruct (disk_second _ _ _ _ _ _ _ _ _ _ _ _ _ _ (su_clean Hsetup) Hd Hseg Hl Hr Hne0 Hne' Hw)
      as [Hdd|([e ->] & Hs' & Hhs & Hd')]; [by left|right]. split; [done|].
    exists ts, lss, opened. cbn [srv_rt srv_set_rt]. rewrite Hs'. split; [done|]. split; [by eapply seg_inv_handles|].
    split; [done|]. split; [|unfold srv_table in *; cbn [srv_rt srv_set_rt]; by rewrite Htab, Hrep, Hbefore, Haft].
    destruct Hds as [Hds|[B1 B2 B3 B4]]; [by left|right]. split; by rewrite ?Hhs. }
  destruct Hds as [->|Hb].
  2: { destruct (blind_second _ _ _ _ _ _ _ _ (stream (log <$> b)) Hb) as (ls0 & Hl & Hr & Hne0).
       destruct (seg_rotation _ _ _ _ _ _ _ _ (log <$> b) Hseg Hne' Hsz) as [[Ha Hrot]|Hx]; [|rewrite Hlim in Hx; naive_solver].
       rewrite (Hrot _ Hl), bool_decide_eq_false_2 in Hr by done. done. }
  destruct (seg_rotation _ _ _ _ _ _ _ _ (log <$> b) Hseg Hne' Hsz) as [[Ha Hrot]|Hx]; [|rewrite Hlim in Hx; naive_solver].
  destruct (disk_first dir mask horizon its_limit (su_calm Hsetup) opened _ _ _ _ (log <$> b) _ _ _
    (su_clean Hsetup) Hd Ha Hrot Ho Hne' Hg Hsz Hk Hw) as (ts' & lss' & opened' & Hd' & Ho' & Hres). right.
  destruct Hres as [[Ha' Hcat]|([e ->] & Hsync & Hb' & Hcat)]; [left|right].
  - split; [done|]. exists ts', lss', opened'. cbn [srv_rt srv_set_rt]. split; [done|]. split; [by left|].
    split; [done|]. split; [by left|]. unfold srv_table in *. cbn [srv_rt srv_set_rt].
    rewrite Htab, Hcat, replay_app, Hrep, Hbefore. destruct err as [e|]; [by rewrite Haft|].
    destruct Haft as [Hp Hs]. by rewrite (sorted_batch b _ Hnd Hp Hs).
  - do 3 (split; [done|]). exists ts', lss', opened'. cbn [srv_rt srv_set_rt]. split; [done|].
    split; [right; split; [done|by intros []]|]. split; [done|]. split; [by right|]. unfold srv_table in *. cbn [srv_rt srv_set_rt].
    by rewrite Htab, Hcat, replay_app, Hrep, Hbefore, Haft.
Qed.

(** A segment that was doubled stays so. *)
Lemma disk_doubled_flusher m0 applied s x' : rt_inv m0 applied (pending (srv_rt s)) (srv_rt s) →
  flusher_step (srv_rt s) x' → disk_doubled s → disk_doubled (srv_set_rt s x').
Proof.
  intros Hrt Hstep [Hlim Hdb]. split; [done|]. eapply doubled_extends; [|exact Hdb].
  by eapply flusher_step_extends.
Qed.

(** A step of the flusher that writes nothing: it stays where it is, or it
    applies the next record. *)
Lemma disk_holds_flusher ds s x' : disk_holds ds s → os (sys x') = os (sys (srv_rt s)) →
  segment (wal (sys x')) = segment (wal (sys (srv_rt s))) →
  replay (rest_of (flusher x')) (data (commandHashTable (wal (sys x')))) =
    replay (rest_of (flusher (srv_rt s))) (data (srv_table s)) → disk_holds ds (srv_set_rt s x').
Proof.
  intros (ts & lss & o & Hd & Ha & Ho' & Hds & Hrep) Ho Hseg Hx. exists ts, lss, o. cbn [srv_rt srv_set_rt].
  rewrite Ho, Hseg. unfold srv_table. cbn [srv_rt srv_set_rt]. by rewrite Hx.
Qed.

(** A step of the flusher keeps the records in doubt, unless it commits; or a
    batch [b] of pending requests is in doubt now. *)
Lemma flusher_durable ds applied m0 s a x' : refines m0 applied s a → durable ds s → within s →
  flusher_step (srv_rt s) x' →
  durable [] (srv_set_rt s x') ∨
  durable ds (srv_set_rt s x') ∧ ¬ begins_batch (srv_rt s) x' ∨
  ∃ b, durable (sort_slice LSN (log <$> b)) (srv_set_rt s x') ∧ ¬ begins_batch (srv_rt s) x' ∧
    ¬ sync_reliable ∧ NoDup b ∧ ∀ r, r ∈ b → r ∈ pending (srv_rt s).
Proof.
  intros Href Hdu [Hk _] Hstep. pose proof Hdu as [Hd Hg Hf Hl Hv].
  destruct (flusher_step_inv m0 _ x' applied Hstep (rf_rt _ _ _ _ Href)) as (Hkept & He & _).
  pose proof (volumes_flusher _ _ Hv Hkept) as Hv'.
  assert (disk_doubled s → disk_doubled (srv_set_rt s x')) as Hdb by (eapply disk_doubled_flusher; [apply Href|done]).
  assert (Forall (λ r, good_log (log r)) (pending x') → lsn_inv (srv_conns s) (srv_gen s) (pending x') →
    ∀ ds', disk_holds ds' (srv_set_rt s x') ∨ disk_doubled (srv_set_rt s x') → durable ds' (srv_set_rt s x')) as Hrest by (by split).
  destruct He as [Hr Hr' Hh Ho Hseg Ht Hp|b err Hne Hp Hfrom Hfl|l Hr Hw Hh Ho].
  - rewrite Hp in Hrest. right. left. split; [|by intros [_ []]]. apply Hrest; [done..|].
    destruct Hd as [Hd|Hd]; [left|by right; apply Hdb].
    apply disk_holds_flusher; [done..|]. by rewrite Hr', Hr, Ht.
  - destruct (taken_batch ds s b _ Hdu Hp Hfrom) as [Hgb Hsz].
    assert (lsn_inv (srv_conns s) (srv_gen s) b) as Hlb.
    { eapply lsn_inv_drop; [|exact Hl]. rewrite Hp. apply Permutation_app_comm. }
    rewrite Hp in Hg. apply Forall_app in Hg as [_ Hg'].
    specialize (Hrest Hg' (lsn_inv_drop _ _ _ _ _ Hp Hl)).
    destruct Hd as [Hd|Hd]; [|left; apply Hrest; right; by apply Hdb].
    pose proof (fl_after _ _ _ _ Hfl) as Haft.
    destruct (disk_holds_flush ds s x' b err Hd Hk Hfl Hne Hgb (lsn_inv_request _ _ _ Hlb) Hsz)
      as [Hdd|[[Hnone Hd']|(-> & [e ->] & Hsync & Hd')]]; [left; apply Hrest; by right| |].
    + destruct err as [e|]; [right; left; split; [apply Hrest; by left|by intros [_ []]]|].
      left. rewrite (Hnone eq_refl) in Hd'. apply Hrest. by left.
    + right. right. exists b. split; [apply Hrest; by left|]. split; [by intros [_ []]|]. split; [done|].
      split; [|intros r Hr; rewrite Hp; apply elem_of_app; by left].
      eapply NoDup_fmap_1. eapply lsn_inv_request. exact Hlb.
  - assert (pending x' = pending (srv_rt s)) as Hp by (unfold pending; by rewrite Hw, (kp_clients _ _ Hkept)).
    rewrite Hp in Hrest. right. left. split; [|intros [E _]; by rewrite Hr in E]. apply Hrest; [done..|].
    destruct Hd as [Hd|Hd]; [left|by right; apply Hdb].
    apply disk_holds_flusher; [done|done|by rewrite Hw|]. rewrite Hr, Hw.
    change (l :: rest_of (flusher x')) with ([l] ++ rest_of (flusher x')). rewrite replay_app.
    cbn [set_table commandHashTable segment]. by rewrite apply_hash_table.
Qed.

(** ** Lemmas: starting *)

Lemma start_durable w ts lss : disk_inv dir mask horizon w ts lss → (ticks w < horizon)%nat →
  ∃ err x, Recovery {| wal := fresh; heap := []; os := w |} = (err, x) ∧
    (ticks w ≤ ticks (os x) ≤ S (ticks w))%nat ∧
    match err with
    | None => idle x ∧ durable [] (server_init server x) ∧
        data (commandHashTable (wal x)) = replay (mjoin (sort_slice LSN <$> lss)) ∅
    | Some _ => fs (os x) = fs w ∧ ¬ quiet w
    end.
Proof.
  intros Hd Hk. destruct Hsetup as [Hcalm Hclean Hfresh Hcount Hvol (Hb & Hq & Hav) _].
  destruct (sim_start dir mask horizon Hcalm its_limit fresh w ts lss [] Hfresh Hd Hk)
    as (err & x & E & Htick & Hres).
  exists err, x. split; [done|]. split; [done|]. destruct err as [e|]; [done|].
  destruct Hres as (ts' & lss' & Hd' & Ha' & Hdata & Hrep).
  pose proof (Recovery_frame {| wal := fresh; heap := []; os := w |}) as (Rb & Rq & _ & Rc & Rv).
  rewrite E in Rb, Rq, Rc, Rv. cbn [snd wal] in *.
  split; [split; [congruence|split; [congruence|apply Hd']]|]. split; [|done].
  assert (pending (initial x) = []) as Hp.
  { unfold pending, initial. simpl. rewrite Rb, Rq, Hb, Hq. unfold in_clients. by rewrite map_to_list_empty. }
  split; simpl; rewrite ?Hp; try done.
  - left. exists ts', lss', true. split; [done|].
    split; [destruct Ha' as [Ha'|[Ha' Hs]]; [by left|right; split; [done|intros [Hr _]; by apply Hs, reliable_stat]]|].
    split; [by left|]. split; [by left|].
    rewrite <- Hrep. symmetry. exact Hdata.
  - split; [apply gen_inv_init|constructor|intros z Hz; by apply not_elem_of_nil in Hz].
  - split; simpl; rewrite ?Rc, ?Rq, ?Hq; try done.
    split; simpl; rewrite ?Rc, ?Rb, ?Rv, ?Hb, ?Hav, ?(zlen_nil (A:=WriteRequest)); done || lia.
Qed.

Lemma replay_records ls ws : ∀ m, Forall2 records ls ws → foldl run_call m ws = replay ls m.
Proof.
  intros m HF. revert m. induction HF as [|l w ls ws [lsn ->] HF IH]; intros m; [done|]. simpl. rewrite IH.
  change (write_log lsn w :: ls) with ([write_log lsn w] ++ ls). by rewrite replay_app, replay_write_log.
Qed.

(** The map behind the queue is what the disk holds. *)
Lemma committed_map_disk m0 applied s a : refines m0 applied s a →
  committed_map a = replay (rest_of (flusher (srv_rt s))) (data (srv_table s)).
Proof.
  intros Href. unfold committed_map. rewrite (rf_visible _ _ _ _ Href).
  apply replay_records, Href.
Qed.

(** ** Lemmas: the server keeps its disk *)

(** The records in doubt are those of a group of writes in doubt. *)
Definition doubts (ds : list Log) (a : Store) : Prop :=
  ds = [] ∨ ∃ ws, Forall2 records ds ws ∧ ws ∈ doubtful a.

Definition lives (s : Server) (a : Store) : Prop :=
  (∃ m0 applied, refines m0 applied s a) ∧ (∃ ds, durable ds s ∧ doubts ds a) ∧ within s.

Lemma conn_step_flusher m0 applied s a c l s' : refines m0 applied s a → conn_step server ctx c s l s' →
  flusher (srv_rt s') = flusher (srv_rt s).
Proof.
  intros Href Hc. destruct Hc as [q rq s Hc Hq Hlen Hd|q s Hc Hq Hlen Hd|s Hc|r s Hc|k s Hc|w s Hc|w s Hc|w lsn s Hc
    |w t r sealed x s Hc Ht Hs|w t r x s Hc Ht Hs|w t r err s Hc Ht|rq r s Hc|rq r s Hc]; try reflexivity; simpl.
  - destruct (clients (srv_rt s) !! srv_calls s) as [cl|] eqn:E.
    { pose proof (ci_calls _ _ _ (rf_calls _ _ _ _ Href) _ (ex_intro _ cl E)). lia. }
    destruct (client_push_effect _ (tx_ctx ctx lsn) (call_id w) (call_args w) _ E) as (r & Hp & _).
    apply (rk_flusher _ _ (ps_rest _ _ _ _ Hp)).
  - apply client_send_effect in Hs; [|done]. apply (rk_flusher _ _ (sn_rest _ _ _ _ Hs)).
  - destruct (get_effect m0 applied t r _ x (rf_rt _ _ _ _ Href) Ht Hs) as (err & He & _).
    apply (rk_flusher _ _ (rv_rest _ _ _ _ _ He)).
Qed.

Lemma server_step_durable ds applied m0 s a l s' : refines m0 applied s a → durable ds s → within s →
  server_step server ctx s l s' → within s' →
  durable [] s' ∨ durable ds s' ∧ ¬ begins_batch (srv_rt s) (srv_rt s') ∨
  ∃ b, durable (sort_slice LSN (log <$> b)) s' ∧ ¬ begins_batch (srv_rt s) (srv_rt s') ∧
    ¬ sync_reliable ∧ NoDup b ∧ ∀ r, r ∈ b → r ∈ pending (srv_rt s).
Proof.
  intros Href Hdu Hw Hstep Hw'.
  destruct Hstep as [c s l s' Hc|s x Hf|s|x s Hx _ _|c x s Hx Hc Hnew|c x s Hcl Hc Hx _].
  - right. left. split; [eapply conn_step_durable; [by exists m0|done|done|done]|].
    intros [E []]. by rewrite (conn_step_flusher m0 applied s a c l s' Href Hc).
  - destruct (flusher_durable ds applied m0 s a x Href Hdu Hw Hf) as [H|[H|H]];
      [by left|by right; left|by right; right].
  - right. left. split; [|by intros [? []]]. destruct Hdu as [Hd Hg Hf Hl [V1 V2 V3 V4]]. by split.
  - right. left. split; [|by intros [? []]]. destruct Hdu as [Hd Hg Hf Hl Hv]. by split.
  - right. left. split; [|by intros [? []]].
    eapply durable_move; [exact Hdu|done|done|done|]. apply lsn_inv_same; [|done|apply Hdu].
    destruct (serve_step_start c _ _ Hx Hc Hnew) as (Ha & _ & _).
    destruct (rf_accept _ _ _ _ Href) as [Hm _].
    destruct (srv_conns s !! c) eqn:E; [|done]. by destruct (Hm c) as [_ Hne]; [eauto|].
  - right. left. split; [|by intros [? []]]. destruct Hdu as [Hd Hg Hf Hl Hv]. by split.
Qed.

Lemma server_step_lives s l s' a : lives s a → server_step server ctx s l s' → within s' →
  ∃ a', exec (store_step (¬ sync_reliable)) a (option_list l) a' ∧ lives s' a'.
Proof.
  intros ((m0 & applied & Href) & (ds & Hdu & Hds) & Hw) Hstep Hw'.
  assert (∀ ds' a0, refines m0 applied s a0 → durable ds' s' →
    (doubts ds' a0 ∧ ¬ begins_batch (srv_rt s) (srv_rt s') ∨ ds' = []) →
    ∃ a', exec (store_step (¬ sync_reliable)) a0 (option_list l) a' ∧ lives s' a') as Hnext.
  { intros ds' a0 Href0 Hdu' Hd.
    destruct (server_step_matches server ctx m0 applied s l s' a0 Href0 Hstep) as (a' & Ha & Hdoubt & applied' & Href').
    exists a'. split; [by apply store_exec_sure|]. split; [by exists m0, applied'|]. split; [|done]. exists ds'.
    split; [done|]. destruct Hd as [[Hd Hno]| ->]; [|by left]. destruct Hdoubt as [E|]; [|done].
    unfold doubts in *. by rewrite E. }
  destruct (server_step_durable ds applied m0 s a l s' Href Hdu Hw Hstep Hw')
    as [Hdu'|[[Hdu' Hno]|(b & Hdu' & Hno & Hsync & Hnd & Hpend)]];
    [by eapply Hnext; [exact Href|exact Hdu'|right]|by eapply Hnext; [exact Href|exact Hdu'|left]|].
  destruct (pending_parties m0 applied s a b (sort_slice LSN (log <$> b)) Href Hpend Hnd)
    as (rs & cws & _ & _ & Hnc & Hrec & Hpar); [by rewrite (sort_slice_perm LSN)|].
  destruct (Hnext _ _ (refines_doubt m0 applied s a (cws.*2 :: doubtful a) Href) Hdu') as (a' & Ha & Hl).
  { left. split; [|done]. right. exists cws.*2. split; [done|]. by left. }
  exists a'. split; [|done]. by eapply exec_silent; [apply store_doubt|].
Qed.

End durable.
