(* ===== verification/Killed.v ===== *)
(** * Killed in the middle of a write

    What the directory holds when the process is killed while [file.Write] has
    put only the first bytes of a batch into the segment: a prefix of the
    records of the batch, which is then committed although nobody was told so,
    or a segment that does not decode ([Unreadable.v]). *)

From S2P Require Import Prelude Traces GoText Compute Config Gob WalLog OS FileSystem Concurrency HashTable Wal Unreadable WalRuntime Engine Storage Network Database Requests Store Server Durable.

(** ** The environment of a last write *)

(** Every write stops after [n] bytes. *)
Definition cut (n : nat) (env : Env) : Env :=
  {| env_fault := λ c k, match c with SysWrite => Fault n | _ => @env_fault env c k end;
     env_clock := @env_clock env; env_wd := @env_wd env |}.

Section cut.
Context {env : Env} {ids : GobTypeIds} (n : nat).

(** The invariants of the disk depend on the clock and the working directory,
    not on the faults. *)
Lemma disk_inv_cut dir mask horizon w ts lss :
  @disk_inv (cut n env) ids dir mask horizon w ts lss ↔ disk_inv dir mask horizon w ts lss.
Proof. split; intros [D1 D2 D3 D4 D5 D6 D7 D8]; split; assumption. Qed.

Lemma active_inv_cut dir mask lim opened seg w ts lss :
  active_inv dir mask lim opened seg w ts lss → @active_inv (cut n env) ids dir mask lim opened seg w ts lss.
Proof. intros [A1 A2 A3 A4]; split; assumption. Qed.

Lemma seg_inv_cut dir mask lim opened seg w ts lss :
  seg_inv dir mask lim opened seg w ts lss → @seg_inv (cut n env) ids dir mask lim opened seg w ts lss.
Proof. intros [Ha|[[A1 A2 A3 A4] Hs]]; [left; by apply active_inv_cut|right]. split; [by split|exact Hs]. Qed.

Lemma calm_cut dir mask horizon : calm dir mask horizon → @calm (cut n env) dir mask horizon.
Proof. intros [C1 C2 C3 C4]; split; assumption. Qed.

End cut.

(** ** Lemmas: the disk after a write that was cut off *)

Section disk.
Context {env : Env} {ids : GobTypeIds} {sorter : SortSlice}.
Context (dir mask : bytes) (horizon : nat) (lim : Z → Prop) (Hcalm : calm dir mask horizon).

(** The possible disks after a write of [ls]: a prefix of the records is added
    to those before, or a segment does not decode. *)
Definition survived (lss : list (list Log)) (ls : list Log) (w' : world) : Prop :=
  (∃ ts' lss' k, disk_inv dir mask horizon w' ts' lss' ∧
    mjoin (sort_slice LSN <$> lss') = mjoin (sort_slice LSN <$> lss) ++ sort_slice LSN (take k ls)) ∨
  unreadable dir w'.

(** Nothing was added. *)
Lemma survived_none lss ls w w' ts : disk_inv dir mask horizon w ts lss → fs w' = fs w → handles_ok w' →
  (ticks w ≤ ticks w')%nat → survived lss ls w'.
Proof.
  intros Hd Hfs Hok Ht. left. exists ts, lss, 0%nat. split; [by eapply disk_inv_later|].
  by rewrite firstn_O, sort_slice_nil, app_nil_r.
Qed.

(** The first bytes of a stream are those of a prefix, or are torn. *)
Lemma survived_prefix n lss ls p w' : Forall good_log ls → zlen (stream ls) < 2 ^ 61 →
  last (listing dir (fs w')) = Some p → fs w' !! resolve p = Some (NFile (take n (stream ls))) →
  (∀ k, zlen (stream (take k ls)) < 2 ^ 61 → take n (stream ls) = stream (take k ls) → survived lss ls w') →
  survived lss ls w'.
Proof.
  intros Hg Hsz Hl Hp Hrec.
  destruct (decode_all_truncated ls (take n (stream ls)) (drop n (stream ls)) (good_wf _ Hg)) as (k & e & Hdec & He);
    [by rewrite take_drop|].
  destruct e as [e|].
  { right. eapply unreadable_intro; [|exact Hp|exact Hdec]. apply last_Some in Hl as [ps ->].
    apply elem_of_app. right. by apply list_elem_of_singleton. }
  destruct He as [[_ He]|]; [|done]. apply (Hrec k); [|done].
  rewrite <- He. unfold zlen in *. rewrite length_take. lia.
Qed.

(** The write adds to an empty segment or to a new one. *)
Lemma disk_cut_first opened seg w ts lss ls e seg' w' :
  disk_inv dir mask horizon w ts lss → active_inv dir mask lim opened seg w ts lss →
  (∀ ls0, last lss = Some ls0 → must_rotate seg (stream ls) = negb (bool_decide (ls0 = []))) →
  Forall good_log ls → zlen (stream ls) < 2 ^ 61 → (ticks w < horizon)%nat →
  Segment_Write seg (stream ls) w = (Some e, seg', w') → survived lss ls w'.
Proof.
  intros Hd Ha Hrot Hg Hsz Hk E. pose proof Ha as [A1 A2 A3 (h & t & ls0 & Hf & Hlt & Hll & Hh & Hs & Hz)].
  pose proof (Segment_Write_evolves seg (stream ls) w) as (_ & Hok & _). rewrite E in Hok.
  specialize (Hok (di_handles _ _ _ _ _ _ Hd)). simpl in Hok.
  pose proof (Segment_Write_ticks seg (stream ls) w) as Ht. rewrite E in Ht. simpl in Ht.
  assert (ticks w ≤ ticks w')%nat as Ht1 by (rewrite Ht; case_match; lia).
  rewrite Hf, (bool_decide_eq_false_2 (Some h = None)) in Ht by done. simpl in Ht.
  destruct (Segment_Write_refused _ _ _ _ _ _ _ _ _ Hf Hh E) as (n & Href & _).
  destruct Href as [p0 Hr -> Hfs Hopen Hhs|h1 p1 o1 Hr -> Hfs Hf1 Hh1 Hh1'|h1 p Hr -> Hnone Hfs Hh1 ->].
  - destruct Hopen as [->|(h2 & Hf2 & Hh2)].
    { simpl in Hfs. rewrite append_file_nil in Hfs. by eapply survived_none. }
    assert (h2 = h) as -> by congruence. rewrite Hh in Hh2. injection Hh2 as <- ->.
    rewrite Hr in Ht. rewrite (Hrot ls0 Hll), negb_false_iff, bool_decide_eq_true in Hr. subst ls0.
    apply last_Some in Hlt as [ts0 ->]. apply last_Some in Hll as [lss0 ->].
    assert (fs w !! resolve (seg_path dir mask t) = Some (NFile [])) as Hempty.
    { pose proof (di_hold _ _ _ _ _ _ Hd) as HF. by apply Forall2_snoc in HF as [_ [HF _]]. }
    unfold append_file in Hfs. rewrite Hempty in Hfs. simpl in Hfs.
    assert (listing dir (fs w') = listing dir (fs w)) as Hlist by (rewrite Hfs; by eapply listing_overwrite).
    eapply (survived_prefix n _ _ (seg_path dir mask t)); [done|done| | |].
    + rewrite Hlist, (di_list _ _ _ _ _ _ Hd), fmap_app. apply last_snoc.
    + rewrite Hfs. apply lookup_insert_eq.
    + intros k Hsk Ek. rewrite Ek in Hfs. simpl in Ht. left. exists (ts0 ++ [t]), (lss0 ++ [take k ls]), k.
      rewrite !replayed_snoc, sort_slice_nil, app_nil_r. split; [|done].
      eapply disk_write_append; [done|exact Hd|exact Ha|by apply Forall_take|done|done|done|done|done|exact Hfs|by rewrite Hhs|done].
  - by eapply survived_none.
  - unfold next_path in *. rewrite A1, A2 in *. fold (seg_path dir mask (env_clock (ticks w))) in *.
    assert (ticks w' = S (ticks w)) as Htw by (rewrite Ht, Hr; done).
    assert (listing dir (fs w') = listing dir (fs w) ++ [seg_path dir mask (env_clock (ticks w))]) as Hlist.
    { eapply (next_listing dir mask w w' ts); [apply Hcalm|apply Hcalm|apply Hd|by eapply disk_old|by apply Hcalm|done|exact Hfs]. }
    eapply (survived_prefix n _ _ (seg_path dir mask (env_clock (ticks w)))); [done|done| | |].
    + rewrite Hlist. apply last_snoc.
    + rewrite Hfs. apply lookup_insert_eq.
    + intros k Hsk Ek. rewrite Ek in Hfs. left.
      exists (ts ++ [env_clock (ticks w)]), (lss ++ [take k ls]), k. rewrite replayed_snoc. split; [|done].
      eapply disk_write_fresh; [done|exact Hd|exact A1|exact A2|exact A3|by apply Forall_take|done|done|done|done|exact Hlist|exact Hfs|exact Hh1|done].
Qed.

(** The write adds to a segment that holds a batch. *)
Lemma disk_cut_second opened seg w ts lss ls0 ls e seg' w' :
  disk_inv dir mask horizon w ts lss → seg_inv dir mask lim opened seg w ts lss → last lss = Some ls0 →
  must_rotate seg (stream ls) = false → ls0 ≠ [] →
  Segment_Write seg (stream ls) w = (Some e, seg', w') →
  disk_inv dir mask horizon w' ts lss ∨ unreadable dir w'.
Proof.
  intros Hd Hseg Hl Hr Hne0 E.
  destruct (second_write_fails _ _ _ _ _ _ _ _ _ _ _ _ _ _ Hd Hseg Hl Hr E)
    as (_ & _ & Hok & Ht & n & t & _ & [[_ Hfs]|(Hne & Hin & Hwf & Hft)]); [left; by eapply disk_inv_later|right].
  destruct (gob_second_stream_cut ls0 ls (take n (stream ls)) (drop n (stream ls)) Hne0 Hwf) as [e' Hdec];
    [by rewrite take_drop|done|].
  by eapply unreadable_intro.
Qed.

End disk.

(** ** Lemmas: the server killed in a write *)

Section server.
Context {env : Env} {ids : GobTypeIds} {sorter : SortSlice} {UU : UnicodeUpper}.
Context (server : TCPServer) (dir mask : bytes) (horizon : nat) (fresh : Wal HashTable).
Context (Hsetup : setup server dir mask horizon fresh) (n : nat).

(** Whatever the flusher does in its last step, it removes nothing. *)
Lemma last_step_extends m0 applied x x' : rt_inv m0 applied (pending x) x →
  @flusher_step (cut n env) _ _ x x' → fs_extends (fs (os (sys x))) (fs (os (sys x'))).
Proof. intros Hrt Hf. exact (flusher_step_extends m0 _ x' applied Hf Hrt). Qed.

(** The last write of a batch [b]: the disk is as before, or a prefix of the
    records is there, or a segment does not decode. *)
Lemma disk_killed ds s x' b err : disk_holds dir mask horizon fresh ds s → (ticks (os (sys (srv_rt s))) < horizon)%nat →
  @flushed (cut n env) _ b err (srv_rt s) x' → b ≠ [] → Forall good_log (log <$> b) →
  zlen (stream (log <$> b)) < 2 ^ 61 →
  (∃ ts lss, disk_inv dir mask horizon (os (sys x')) ts lss ∧
    (replay (mjoin (sort_slice LSN <$> lss)) ∅ = replay ds (data (srv_table s)) ∨
     ∃ k, ds = [] ∧ replay (mjoin (sort_slice LSN <$> lss)) ∅ = replay (sort_slice LSN (log <$> take k b)) (data (srv_table s)))) ∨
  unreadable dir (os (sys x')).
Proof.
  intros (ts & lss & opened & Hd & Hseg & Ho & Hds & Hrep) Hk Hfl Hne Hg Hsz.
  pose proof (fl_before _ _ _ _ Hfl) as Hbefore. pose proof (fl_write _ _ _ _ Hfl) as Hw.
  destruct (encode_logs_stream _ (good_wf _ Hg)) as (enc & E & Hout). rewrite E, Hout in Hw. cbn [fst snd] in Hw.
  assert ((log <$> b) ≠ []) as Hne' by (by intros ?%fmap_nil_inv).
  apply (disk_inv_cut n) in Hd. pose proof (calm_cut n _ _ _ (su_calm _ _ _ _ _ Hsetup)) as Hc.
  assert ((∃ ls0, last lss = Some ls0 ∧ must_rotate (segment (wal (sys (srv_rt s)))) (stream (log <$> b)) = false ∧ ls0 ≠ []) →
    disk_inv dir mask horizon (os (sys x')) ts lss ∨ unreadable dir (os (sys x'))) as Hsecond.
  { intros (ls0 & Hl & Hr & Hne0). apply (seg_inv_cut n) in Hseg. destruct err as [e|].
    - destruct (disk_cut_second (env:=cut n env) _ _ _ _ _ _ _ _ _ _ _ _ _ _ Hd Hseg Hl Hr Hne0 Hw) as [Hd'|Hu]; [left|by right].
      by apply (disk_inv_cut n).
    - right. apply doubled_unreadable. exact (second_write_doubles (env:=cut n env) _ _ _ _ _ _ _ _ _ _ _ _ _ Hd Hseg Hl Hr Hne0 Hne' Hw). }
  destruct Hds as [->|Hb].
  2: { destruct Hsecond as [Hd'|Hu]; [by eapply blind_second|left|by right].
       exists ts, lss. split; [done|]. left. by rewrite Hrep, Hbefore. }
  destruct (seg_rotation _ _ _ _ _ _ _ _ (log <$> b) Hseg Hne' Hsz) as [[Ha Hrot]|(ls0 & Hl & Hr & Hne0 & _)].
  2: { destruct Hsecond as [Hd'|Hu]; [by exists ls0|left|by right].
       exists ts, lss. split; [done|]. left. by rewrite Hrep, Hbefore. }
  apply (active_inv_cut n) in Ha.
  assert (survived (env:=cut n env) dir mask horizon lss (log <$> b) (os (sys x'))) as [(ts' & lss' & k & Hd' & Hcat)|Hu];
    [|left|by right].
  - destruct err as [e|]; [by eapply disk_cut_first|left].
    destruct (disk_wrote dir mask horizon (its_limit fresh) Hc opened _ _ ts lss (log <$> b) _ _ Hd Ha Hrot Hg Hsz Hk Hw)
      as (ts' & lss' & _ & _ & Hd' & _ & Hcat).
    exists ts', lss', (length (log <$> b)). by rewrite firstn_all.
  - exists ts', lss'. split; [by apply (disk_inv_cut n)|]. right. exists k. split; [done|].
    rewrite Hcat, replay_app, Hrep, Hbefore, fmap_take. done.
Qed.

(** What the disk holds is a map that a restart of the store may find. *)
Lemma doubts_map m0 applied ds s a : refines m0 applied s a → doubts ds a →
  next_map a (replay ds (replay (rest_of (flusher (srv_rt s))) (data (srv_table s)))).
Proof.
  intros Href Hds. rewrite <- (committed_map_disk m0 applied s a Href).
  destruct Hds as [->|(ws & Hrec & Hin)]; [exists []; split; [by left|done]|].
  exists ws. split; [by right|]. by rewrite (replay_records _ _ _ Hrec).
Qed.

(** The process dies in a step of the flusher: the store commits the writes
    that are on disk, or a segment does not decode. *)
Lemma killed_writing s a x' : lives dir mask horizon fresh s a → @flusher_step (cut n env) _ _ (srv_rt s) x' →
  (∃ a' ts lss, exec (store_step (¬ sync_reliable)) a [] a' ∧ disk_inv dir mask horizon (os (sys x')) ts lss ∧
    next_map a' (replay (mjoin (sort_slice LSN <$> lss)) ∅)) ∨
  unreadable dir (os (sys x')).
Proof.
  intros ((m0 & applied & Href) & (ds & Hdu & Hds) & Hk & _) Hstep. pose proof (rf_rt _ _ _ _ Href) as Hrt.
  pose proof (doubts_map m0 applied ds s a Href Hds) as Hmap.
  destruct (du_disk _ _ _ _ _ _ Hdu) as [Hdisk|[_ Hdb]].
  2: { right. apply doubled_unreadable. eapply doubled_extends; [|exact Hdb]. by eapply last_step_extends. }
  pose proof Hdisk as (ts & lss & opened & Hd & Ha & Ho & _ & Hrep). rewrite <- Hrep in Hmap.
  destruct (flusher_step_inv m0 _ x' applied Hstep Hrt) as (_ & He & _).
  destruct He as [_ _ _ Hos _ _ _|b err Hne Hp Hfrom Hfl|l _ _ _ Hos];
    [left; exists a, ts, lss; rewrite Hos; split; [constructor|done]| |
     left; exists a, ts, lss; rewrite Hos; split; [constructor|done]].
  destruct (taken_batch _ _ _ _ ds s b _ Hdu Hp Hfrom) as [Hg Hsz].
  destruct (disk_killed ds s x' b err Hdisk Hk Hfl Hne Hg Hsz) as [(ts' & lss' & Hd' & Hrep')|Hu]; [left|by right].
  rewrite (fl_before _ _ _ _ Hfl) in Hrep. destruct Hrep' as [Hsame|(k & -> & Hrep')].
  { exists a, ts', lss'. split; [constructor|]. split; [done|]. rewrite Hsame. by rewrite Hrep in Hmap. }
  pose proof (rf_queue _ _ _ _ Href) as Hq. rewrite (fl_before _ _ _ _ Hfl) in Hq. apply Forall2_nil_inv_l in Hq.
  pose proof (ri_fresh _ _ _ _ Hrt) as Hfr. apply (fresh_requests_perm _ _ _ Hp) in Hfr as (Hfb & _ & _)%fresh_requests_app.
  destruct (commit_pending m0 applied s a (take k b) (sort_slice LSN (log <$> take k b)))
    as (rs & cws & _ & _ & _ & Hrec & Hcommit); [done|done| | |apply (sort_slice_perm LSN)|].
  { intros r Hr. rewrite Hp. apply elem_of_app. left. apply elem_of_take in Hr as (i & Hi & _). by eapply list_elem_of_lookup_2. }
  { eapply sublist_NoDup; [apply fresh_requests_NoDup in Hfb; exact Hfb|apply sublist_take]. }
  eexists _, ts', lss'. split; [eapply exec_silent; [by apply store_step_sure|constructor]|]. split; [done|].
  exists []. split; [by left|].
  rewrite Hrep'. unfold committed_map. cbn [visible queued foldl]. rewrite (replay_records _ _ _ Hrec).
  by rewrite (rf_visible _ _ _ _ Href).
Qed.

End server.
