(* ===== verification/Initialization.v ===== *)
(** * The composition root

    Models [internal/initialization]: the construction of the logger, the log
    with its recovery, the engine and the TCP server from a configuration, and
    the wiring of the layers that serve a connection. A nil pointer that the
    code dereferences panics. *)

From S2P Require Import Prelude GoText Compute Config Gob WalLog OS FileSystem Concurrency HashTable Wal WalRuntime Engine Storage Network Database.

(** ** Loggers *)

Definition LoggerLevelInfo : bytes := str "info".
Definition LoggerLevelDev : bytes := str "dev".
Definition LoggerLevelProd : bytes := str "prod".

Definition CreateLogger (c : Config) : outcome Logger :=
  match CfgLogger c with
  | None => Panicked
  | Some l =>
      Done (if bool_decide (LoggingLevel l = LoggerLevelInfo) then PrettyLogger LevelInfo
            else if bool_decide (LoggingLevel l = LoggerLevelDev) then PrettyLogger LevelDebug
            else if bool_decide (LoggingLevel l = LoggerLevelProd) then DiscardLogger
            else PrettyLogger LevelInfo)
  end.

(** ** The log, the engine and the server *)

Section init.
Context {env : Env} {ids : GobTypeIds} {sorter : SortSlice} {net : NetEnv} {UU : UnicodeUpper}.

(** [CreateWal]: the recovered log, whose flusher is then started. *)
Definition CreateWal (logger : option Logger) (c : Config) (w : world)
  : outcome (res (Sys HashTable) * world) :=
  match logger with
  | None => Done (Err ErrInitInvalidLogger, w)
  | Some l =>
      match CfgWal c with
      | None => Panicked
      | Some wc =>
          let '(r, w1) := MakeDirectory (SegmentStoragePath wc) w in
          match r with
          | Err e => Done (Err e, w1)
          | Ok directory =>
              let segment := NewSegment directory (MaskName wc) (MaxSegmentSize wc) in
              match NewWal (Some l) wc segment NewHashTable with
              | Err e => Done (Err e, w1)
              | Ok wal =>
                  let '(err, s) := Recovery {| wal := wal; heap := []; os := w1 |} in
                  match err with
                  | Some e => Done (Err e, os s)
                  | None => Done (Ok s, os s)
                  end
              end
          end
      end
  end.

Definition CreateEngine (logger : option Logger) (s : option (Sys HashTable)) (table : option HashTable)
  : res (Engine (Sys HashTable)) := NewEngine logger s table.

Definition defaultIdleTimeout : Z := 10 * Minute.
Definition defaultMaxConnections : Z := 10.
Definition defaultBufferSize : Z := 4096.
Definition defaultServerAddress : bytes := str "127.0.0.1:3323".

Definition CreateTCPNetwork (logger : option Logger) (c : option NetworkConfig) (ls : listeners)
  : res TCPServer * listeners :=
  match logger with
  | None => (Err ErrNetInvalidLogger, ls)
  | Some l =>
      match c with
      | None => (Err ErrInvalidConfig, ls)
      | Some nc =>
          let options :=
            [WithServerTCPIdleTimeout
               (if bool_decide (IdleTimeout nc ≠ 0) then IdleTimeout nc else defaultIdleTimeout);
             WithServerTCPMaxConnectionNumber
               (if bool_decide (MaxConnections nc ≠ 0) then MaxConnections nc else defaultMaxConnections);
             WithServerTCPBufferSize
               (if bool_decide (BufferSize nc ≠ 0) then BufferSize nc else defaultBufferSize)] in
          let address := if bool_decide (Address nc = []) then defaultServerAddress else Address nc in
          NewTCPServer address (Some l) options ls
      end
  end.

(** ** The initializer *)

Record Initializer := {
  init_log : Logger;
  init_engine : Engine (Sys HashTable);
  init_server : TCPServer
}.

(** The result, the file system and the listening sockets. *)
Definition NewInitializer (c : option Config) (w : world) (ls : listeners)
  : outcome (res Initializer * world * listeners) :=
  match c with
  | None => Done (Err (EText (str "initialization.NewInitializer: failed to initialize: config is invalid")), w, ls)
  | Some c =>
      obind (CreateLogger c) (λ l,
      obind (CreateWal (Some l) c w) (λ '(r, w1),
      match r with
      | Err e => Done (Err e, w1, ls)
      | Ok s =>
          match CreateEngine (Some l) (Some s) (Some (commandHashTable (wal s))) with
          | Err _ => Done (Err (EText (str "initialization.NewInitializer: failed to create storage engine")), w1, ls)
          | Ok e =>
              let '(r, ls1) := CreateTCPNetwork (Some l) (Network c) ls in
              match r with
              | Err er => Done (Err er, w1, ls1)
              | Ok server => Done (Ok {| init_log := l; init_engine := e; init_server := server |}, w1, ls1)
              end
          end
      end))
  end.

(** The layers [StartDatabase] wires before it serves. *)
Definition StartDatabase (i : Initializer) : res (Database Compute (Storage (Engine (Sys HashTable)))) :=
  match NewCompute (Some (init_log i)) with
  | Err _ => Err (EText (str "failed to create compute layer"))
  | Ok compute =>
      match NewStorage (Some (init_log i)) (init_engine i) with
      | Err _ => Err (EText (str "failed to create storage layer"))
      | Ok storage =>
          match NewDatabase (Some (init_log i)) (Some compute) (Some storage) with
          | Err _ => Err (EText (str "initialization.StartDatabase: failed to create database"))
          | Ok db => Ok db
          end
      end
  end.

(** ** Lemmas *)

(** A valid network section on a free address gives a server with its sizes. *)
Lemma CreateTCPNetwork_valid l nc ls : network_valid nc → Address nc ≠ [] → listen_error (Address nc) = None →
  ∃ server ls', CreateTCPNetwork (Some l) (Some nc) ls = (Ok server, ls') ∧
    bufferSize server = BufferSize nc ∧ maxConnections server = MaxConnections nc.
Proof.
  intros (Hm & _ & Hi & Hb) Ha Hl. unfold CreateTCPNetwork.
  rewrite (bool_decide_eq_true_2 (IdleTimeout nc ≠ 0)), (bool_decide_eq_true_2 (MaxConnections nc ≠ 0)),
    (bool_decide_eq_true_2 (BufferSize nc ≠ 0)), (bool_decide_eq_false_2 (Address nc = [])) by (done || lia).
  unfold NewTCPServer. rewrite Hl. simpl.
  destruct (MaxConnections nc <? 0) eqn:E1; zbool; [lia|].
  destruct (BufferSize nc <? 0) eqn:E2; zbool; [lia|].
  destruct (MaxConnections nc =? 0) eqn:E3; zbool; [lia|].
  destruct (BufferSize nc =? 0) eqn:E4; zbool; [lia|]. by eexists _, _.
Qed.

End init.

(** ** Examples *)

(** A network on which every address is free. *)
Definition open_net : NetEnv := {| listen_error := λ _, None; dial_error := λ _, None |}.

Definition demo_cfg : Config :=
  {| Network := Network initial_config; CfgLogger := CfgLogger initial_config;
     CfgWal := Some (demo_config 1); EngineType := str "in_memory" |}.
