(* ===== verification/Process.v ===== *)
(** * The server process

    Models [cmd/server/main.go]: [main] loads the configuration, builds and
    recovers every component, starts serving in a goroutine, waits for a signal
    and then for five seconds, and returns. A process that has ended, in
    whatever way, can be started again on the directory it leaves. *)

From S2P Require Import Prelude Traces GoText Compute Config Gob WalLog OS FileSystem Concurrency HashTable Wal Unreadable WalRuntime Engine Storage Network Database Requests Store Server Liveness Durable Killed Initialization.

(** ** The process *)

(** Where [main] is once the server was started: blocked on the context, or in
    [waitForShutdown] for some nanoseconds. *)
Inductive phase := Up | Stopping (elapsed : Z).

(** A process that ended has left its exit status and the file system. *)
Inductive Process :=
  | Running (server : TCPServer) (ph : phase) (s : Server)
  | Down (code : Z) (w : world).

Definition Second : Z := 1000 * Millisecond.

(** The timeout of [waitForShutdown]. *)
Definition shutdown_timeout : Z := 5 * Second.

(** An accept loop that was never started. *)
Definition not_serving (a : Network.Serving) : Network.Serving :=
  {| sv_sem := sv_sem a; sv_acceptor := AcceptorExited; sv_main := MainReturned;
     sv_accepted := sv_accepted a; sv_conns := sv_conns a; sv_open := sv_open a |}.

Section process.
Context {env : Env} {ids : GobTypeIds} {sorter : SortSlice} {net : NetEnv} {UU : UnicodeUpper}.
Context (loader : res Config).   (** the outcome of [config.NewConfig] *)
Context (ctx : Ctx).             (** the values of the root context *)
Context (mid_write : bool).      (** whether a write may be cut off by the end of the process *)

(** [main] up to [waitForShutdown]: an error ends the process with status one;
    when [StartDatabase] fails, its goroutine cancels the context. *)
Definition main (w : world) : outcome Process :=
  match loader with
  | Err _ => Done (Down 1 w)
  | Ok cfg =>
      obind (NewInitializer (Some cfg) w []) (λ '(r, w1, _),
      match r with
      | Err _ => Done (Down 1 w1)
      | Ok init =>
          let s := server_init (init_server init) (commandEngine (init_engine init)) in
          match StartDatabase init with
          | Ok _ => Done (Running (init_server init) Up s)
          | Err _ => Done (Running (init_server init) Up
                       (srv_set_accept (srv_set_rt s (cancel (srv_rt s))) (not_serving (srv_accept s))))
          end
      end)
  end.

Inductive process_step : Process → option wire_event → Process → Prop :=
  (* connections, accept loop and flusher go on, also while [main] waits *)
  | process_serve server ph s l s' :
      server_step server ctx s l s' → cancelled (srv_rt s') = cancelled (srv_rt s) →
      process_step (Running server ph s) l (Running server ph s')
  (* SIGINT or SIGTERM cancels the root context; later signals change nothing *)
  | process_signal server ph s :
      process_step (Running server ph s) None (Running server ph (srv_set_rt s (cancel (srv_rt s))))
  (* [waitForShutdown] *)
  | process_shutdown server s :
      cancelled (srv_rt s) = true → process_step (Running server Up s) None (Running server (Stopping 0) s)
  | process_wait server t d s :
      0 < d → process_step (Running server (Stopping t) s) None (Running server (Stopping (t + d)) s)
  | process_exit server t s :
      shutdown_timeout ≤ t → process_step (Running server (Stopping t) s) None (Down 0 (os (sys (srv_rt s))))
  (* the process is killed, or the machine stops *)
  | process_kill server ph s :
      process_step (Running server ph s) None (Down 137 (os (sys (srv_rt s))))
  (* the same in the middle of a write of the flusher, of which [n] bytes are in the file *)
  | process_kill_writing n server ph s x' :
      mid_write = true → @flusher_step (cut n env) _ _ (srv_rt s) x' →
      process_step (Running server ph s) None (Down 137 (os (sys x')))
  (* the next process, on what the last one left *)
  | process_boot code w p :
      main (crash w) = Done p → process_step (Down code w) (Some EvRestart) p
  | process_boot_panic code w :
      main (crash w) = Panicked → process_step (Down code w) (Some EvRestart) (Down 2 w).

(** Steps within a bound on clock readings and sequence numbers. *)
Definition process_within (horizon : nat) (p : Process) : Prop :=
  match p with Running _ _ s => within horizon s | Down _ w => (ticks w < horizon)%nat end.

Definition bounded_step (horizon : nat) (p : Process) (l : option wire_event) (p' : Process) : Prop :=
  process_step p l p' ∧ process_within horizon p'.

#[local] Instance process_within_dec horizon p : Decision (process_within horizon p).
Proof. destruct p; simpl; [unfold within|]; apply _. Defined.

(** ** Executable lives of processes *)

Inductive process_action :=
  | PServe (a : srv_action) | PSignal | PShutdown | PWait (d : Z) | PExit | PKill | PBoot
  | PKillWriting (n : nat) (tick : bool)   (** in the flush that the ticker causes, or another *).

Definition process_act (a : process_action) (p : Process) : option (option wire_event * Process) :=
  match p, a with
  | Running server ph s, PServe a =>
      match srv_act server ctx a s with
      | Some (l, s') =>
          if bool_decide (cancelled (srv_rt s') = cancelled (srv_rt s)) then Some (l, Running server ph s') else None
      | None => None
      end
  | Running server ph s, PSignal => Some (None, Running server ph (srv_set_rt s (cancel (srv_rt s))))
  | Running server Up s, PShutdown =>
      if cancelled (srv_rt s) then Some (None, Running server (Stopping 0) s) else None
  | Running server (Stopping t) s, PWait d =>
      if 0 <? d then Some (None, Running server (Stopping (t + d)) s) else None
  | Running server (Stopping t) s, PExit =>
      if shutdown_timeout <=? t then Some (None, Down 0 (os (sys (srv_rt s)))) else None
  | Running _ _ s, PKill => Some (None, Down 137 (os (sys (srv_rt s))))
  | Running _ _ s, PKillWriting n tick =>
      if mid_write then
        match @act (cut n env) _ _ (if tick then ATick else AFlusher) (srv_rt s) with
        | Some x' => Some (None, Down 137 (os (sys x')))
        | None => None
        end
      else None
  | Down code w, PBoot =>
      match main (crash w) with Done p => Some (Some EvRestart, p) | _ => None end
  | _, _ => None
  end.

Fixpoint process_acts (horizon : nat) (al : list process_action) (p : Process)
  : option (list wire_event * Process) :=
  match al with
  | [] => Some ([], p)
  | a :: al' =>
      match process_act a p with
      | Some (l, p1) =>
          if bool_decide (process_within horizon p1) then
            match process_acts horizon al' p1 with
            | Some (tr, p2) => Some (option_list l ++ tr, p2)
            | None => None
            end
          else None
      | None => None
      end
  end.

Lemma process_act_step a p l p' : process_act a p = Some (l, p') → process_step p l p'.
Proof.
  destruct p as [server [|t] s|code w], a as [a| | |d| | | |n tick]; cbn [process_act]; intros E; try done.
  all: try (destruct (main (crash w)) eqn:Em; simplify_eq; by apply process_boot).
  all: try (destruct mid_write eqn:Hmid; [|done]; destruct (act _ (srv_rt s)) as [x'|] eqn:Ea in E; [|done];
    injection E as <- <-; eapply process_kill_writing; [done|]; eapply act_flusher_step; [|exact Ea]; destruct tick; auto).
  1,5: destruct (srv_act server ctx a s) as [[l1 s1]|] eqn:Ea; [|done]; case_bool_decide; simplify_eq;
    apply process_serve; [by apply srv_act_step in Ea|done].
  1,4: injection E as <- <-; apply process_signal.
  - destruct (cancelled (srv_rt s)) eqn:Ec; simplify_eq. by apply process_shutdown.
  - injection E as <- <-. apply process_kill.
  - destruct (0 <? d) eqn:Ed; simplify_eq. zbool. by apply process_wait.
  - destruct (shutdown_timeout <=? t) eqn:Ed; simplify_eq. zbool. by eapply process_exit.
  - injection E as <- <-. apply process_kill.
Qed.

Lemma process_acts_exec horizon al : ∀ p tr p', process_acts horizon al p = Some (tr, p') →
  exec (bounded_step horizon) p tr p'.
Proof.
  induction al as [|a al IH]; intros p tr p' E; simpl in E; [simplify_eq; constructor|].
  destruct (process_act a p) as [[l p1]|] eqn:Ea; [|done]. case_bool_decide; [|done].
  destruct (process_acts horizon al p1) as [[tr1 p2]|] eqn:Er; [|done]. simplify_eq.
  eapply exec_step; [split; [by eapply process_act_step|done]|auto].
Qed.

End process.

(** ** Deployments *)

Section deployment.
Context {env : Env} {ids : GobTypeIds} {sorter : SortSlice} {net : NetEnv} {UU : UnicodeUpper}.
Context (loader : res Config) (ctx : Ctx) (mid_write : bool) (horizon : nat).
Context (wc : WalConfig) (nc : NetworkConfig) (dir : bytes).

(** What is assumed of the configuration and of the system: valid settings of
    moderate size, a free address, writes that leave nothing behind when they
    fail and a clock that advances. *)
Record deployment : Prop := {
  dp_loader : ∃ cfg, loader = Ok cfg ∧ is_Some (CfgLogger cfg) ∧ CfgWal cfg = Some wc ∧ Network cfg = Some nc;
  dp_wal : wal_valid wc ∧ FlushingBatchVolume wc ≤ 2 ^ 60;
  dp_net : network_valid nc ∧ BufferSize nc ≤ 2 ^ 31 ∧ Address nc ≠ [] ∧ listen_error (Address nc) = None;
  dp_dir : wal_path (SegmentStoragePath wc) = dir;
  dp_calm : calm dir (MaskName wc) horizon;
  dp_clean : clean_writes
}.

(** The log that [CreateWal] constructs. *)
Definition fresh_wal : Wal HashTable :=
  {| cfg := {| flushingBatchTimeout := FlushingBatchTimeout wc; flushingBatchCount := FlushingBatchCount wc;
               flushingBatchVolume := FlushingBatchVolume wc; walMaxSegmentSize := MaxSegmentSize wc;
               segmentStoragePath := SegmentStoragePath wc; walMaskName := MaskName wc |};
     segment := NewSegment dir (MaskName wc) (MaxSegmentSize wc); batch := []; batches := [];
     activeBatchVolume := 0; commandHashTable := NewHashTable |}.

(** The log directory exists. *)
Definition made (f : gmap path node) : Prop := mkdirs [] (resolve dir) f = Some f.

(** A directory on which the next process can start, and the map it holds; the
    directory itself may be missing. *)
Definition startable (w : world) (m : gmap bytes bytes) : Prop :=
  ∃ f ts lss, mkdirs [] (resolve dir) (fs w) = Some f ∧
    disk_inv dir (MaskName wc) horizon (with_fs w f) ts lss ∧ (ticks w < horizon)%nat ∧
    replay (mjoin (sort_slice LSN <$> lss)) ∅ = m.

(** What can make the log unreadable: a write that is cut off, a size limit
    that has room for a second batch, or a failing [Stat] or [Sync]. *)
Definition may_spoil : Prop := mid_write = true ∨ zlen descriptors < MaxSegmentSize wc ∨ ¬ sizes_reliable.

(** The simulation relation. *)
Definition represents (p : Process) (a : Store) : Prop :=
  match p with
  | Running server _ s =>
      setup server dir (MaskName wc) horizon fresh_wal ∧ lives dir (MaskName wc) horizon fresh_wal s a ∧
      made (fs (os (sys (srv_rt s))))
  | Down _ w => (∃ m, next_map a m ∧ startable (crash w) m) ∨ may_spoil ∧ made (fs w) ∧ unreadable dir w
  end.

(** [main] on an unreadable directory, in any environment. *)
Lemma main_unreadable cfg w : loader = Ok cfg → is_Some (CfgLogger cfg) → CfgWal cfg = Some wc →
  wal_path (SegmentStoragePath wc) = dir → made (fs w) → unreadable dir w →
  ∃ w', main loader w = Done (Down 1 w') ∧ fs w' = fs w.
Proof.
  intros Hl [lc Hlc] Hwal Hdir Hmk Ht. unfold main, NewInitializer, CreateLogger, CreateWal.
  rewrite Hl, Hlc. cbn [obind]. rewrite Hwal.
  destruct (MakeDirectory_spec (SegmentStoragePath wc) w) as (r & w1 & -> & _ & _ & _ & Hr). rewrite Hdir in Hr.
  destruct r as [p|e]; [|eexists; split; [reflexivity|apply Hr]]. destruct Hr as [-> Hf].
  assert (fs w1 = fs w) as Hfs by (unfold made in Hmk; congruence). cbn [NewWal]. fold fresh_wal.
  destruct (Recovery_unreadable {| wal := fresh_wal; heap := []; os := w1 |}) as (e & x & -> & Hx).
  { by apply (unreadable_fs dir w). }
  eexists. split; [reflexivity|]. simpl in *. congruence.
Qed.

Context (Hdp : deployment).

(** ** Lemmas *)

Lemma made_extends f g : made f → fs_extends f g → made g.
Proof. apply mkdirs_again. Qed.

(** A directory that is used is startable after the end of the process. *)
Lemma startable_after w w' ts lss m : made (fs w') → disk_inv dir (MaskName wc) horizon w ts lss →
  fs w' = fs w → (ticks w ≤ ticks w')%nat → (ticks w' < horizon)%nat →
  replay (mjoin (sort_slice LSN <$> lss)) ∅ = m → startable (crash w') m.
Proof.
  intros Hmk Hd Hf Ht Hk Hm. exists (fs w'), ts, lss. split; [done|]. split; [|done].
  eapply disk_inv_later; [exact Hf|by intros h p|exact Ht|exact Hd].
Qed.

(** [main] on a startable directory: it starts, or a system call failed. *)
Lemma main_outcome w m : startable (crash w) m →
  ∃ p, main loader (crash w) = Done p ∧
    match p with
    | Running server ph s => ph = Up ∧ setup server dir (MaskName wc) horizon fresh_wal ∧
        (∃ x, s = server_init server x ∧ idle x) ∧ durable dir (MaskName wc) horizon fresh_wal [] s ∧
        data (srv_table s) = m ∧ made (fs (os (sys (srv_rt s))))
    | Down code w' => code = 1 ∧ ¬ quiet w ∧ ((ticks w' < horizon)%nat → startable (crash w') m)
    end.
Proof.
  intros (f & ts & lss & Hmk & Hd & Hk & Hm).
  destruct (dp_loader Hdp) as (cfg & Hl & [lc Hlc] & Hwal & Hnet).
  destruct (dp_wal Hdp) as ((_ & Hcount & Hvol & Hsize & _) & Hvol').
  destruct (dp_net Hdp) as (Hnv & Hbuf & Haddr & Hlisten).
  set (l := if bool_decide (LoggingLevel lc = LoggerLevelInfo) then PrettyLogger LevelInfo
            else if bool_decide (LoggingLevel lc = LoggerLevelDev) then PrettyLogger LevelDebug
            else if bool_decide (LoggingLevel lc = LoggerLevelProd) then DiscardLogger
            else PrettyLogger LevelInfo).
  destruct (CreateTCPNetwork_valid l nc [] Hnv Haddr Hlisten) as (server & ls' & Hserver & Hb & _).
  assert (setup server dir (MaskName wc) horizon fresh_wal) as Hs.
  { split; [apply Hdp|apply Hdp|done|done|done|done|by rewrite Hb]. }
  pose proof (mkdirs_is_dir _ _ _ _ Hmk) as [Hext _].
  unfold main, NewInitializer, CreateLogger, CreateWal. rewrite Hl, Hlc. cbn [obind]. rewrite Hwal.
  destruct (MakeDirectory_spec (SegmentStoragePath wc) (crash w)) as (r & w1 & -> & Hh1 & Ht1 & Hc1 & Hr).
  rewrite (dp_dir Hdp) in Hr. destruct r as [p|e].
  2: { destruct Hr as [Hf1 Hr]. eexists. split; [reflexivity|]. split; [done|].
       split; [by destruct Hr as [Hr|Hr]; [rewrite Hmk in Hr|]|].
       intros _. exists f, ts, lss. simpl. rewrite Hf1, Ht1. split; [done|]. split; [|done].
       eapply (disk_inv_later _ _ _ (with_fs (crash w) f)); [done|by intros h p|by simpl; rewrite Ht1|exact Hd]. }
  destruct Hr as [-> Hf1]. assert (fs w1 = f) as Hf by congruence.
  assert (disk_inv dir (MaskName wc) horizon w1 ts lss) as Hd1.
  { eapply (disk_inv_later _ _ _ (with_fs (crash w) f)); [exact Hf| |by rewrite Ht1|exact Hd].
    intros h p. by rewrite Hh1. }
  assert (made (fs w1)) as Hmade by (rewrite Hf; eapply mkdirs_again; [exact Hmk|done]).
  destruct (start_durable server dir (MaskName wc) horizon fresh_wal Hs w1 ts lss Hd1)
    as (err & x & E & Htx & Hres); [by rewrite Ht1|].
  cbn [NewWal]. fold fresh_wal. rewrite E. destruct err as [e|]; cbn [obind].
  - destruct Hres as [Hfx Hq]. eexists. split; [reflexivity|]. split; [done|]. split.
    { intros Hq'. apply Hq. by eapply (quiet_mono (crash w)). }
    intros Hkx. eapply startable_after; [by rewrite Hfx|exact Hd1|done|lia|done|done].
  - destruct Hres as (Hi & Hdu & Hdata).
    unfold CreateEngine, NewEngine. fold l. rewrite Hnet, Hserver.
    eexists. split; [reflexivity|]. cbn [init_server init_engine commandEngine].
    split; [done|]. split; [done|]. split; [by eexists|]. split; [done|].
    split; [by etrans; [exact Hdata|]|].
    eapply made_extends; [exact Hmade|].
    pose proof (Recovery_extends {| wal := fresh_wal; heap := []; os := w1 |}) as Hx. by rewrite E in Hx.
Qed.

Lemma main_deployed_unreadable w : made (fs w) → unreadable dir w →
  ∃ w', main loader (crash w) = Done (Down 1 w') ∧ fs w' = fs w.
Proof.
  destruct (dp_loader Hdp) as (cfg & Hl & Hlc & Hwal & _). intros Hmk Ht.
  by apply (main_unreadable cfg (crash w) Hl Hlc Hwal (dp_dir Hdp)).
Qed.

(** What a life leaves behind. *)
Lemma lives_leave s a : lives dir (MaskName wc) horizon fresh_wal s a → made (fs (os (sys (srv_rt s)))) →
  represents (Down 0 (os (sys (srv_rt s)))) a.
Proof.
  intros ((m0 & applied & Href) & (ds & Hdu & Hds) & [Hk _]) Hm.
  destruct (du_disk _ _ _ _ _ _ Hdu) as [(ts & lss & o & Hd & _ & _ & _ & Hrep)|[Hlim Hdb]]; [left|right].
  - eexists. split; [exact (doubts_map m0 applied ds s a Href Hds)|].
    by eapply startable_after; [done|exact Hd|..].
  - split; [right|split; [done|by apply doubled_unreadable]].
    destruct Hlim as [Hlim|Hs]; [left|by right].
    destruct (dp_wal Hdp) as ((_ & _ & _ & Hsize & _) & _). unfold one_batch_limit in Hlim. simpl in Hlim. lia.
Qed.

(** The process dies in a step of the flusher. *)
Lemma lives_killed server0 n s a x' : setup server0 dir (MaskName wc) horizon fresh_wal → lives dir (MaskName wc) horizon fresh_wal s a →
  made (fs (os (sys (srv_rt s)))) → mid_write = true → @flusher_step (cut n env) _ _ (srv_rt s) x' →
  (ticks (os (sys x')) < horizon)%nat →
  ∃ a', exec (store_step (¬ sync_reliable)) a [] a' ∧ represents (Down 137 (os (sys x'))) a'.
Proof.
  intros Hset Hl Hmade Hmid Hstep Hk. pose proof Hl as ((m0 & applied & Href) & _).
  assert (made (fs (os (sys x')))) as Hmade'
    by (eapply made_extends; [exact Hmade|by eapply last_step_extends; [apply Href|]]).
  destruct (killed_writing server0 dir (MaskName wc) horizon fresh_wal Hset n s a x' Hl Hstep)
    as [(a' & ts & lss & Ha & Hd & Hrep)|Ht].
  - exists a'. split; [done|]. left. eexists. split; [exact Hrep|]. by eapply startable_after.
  - exists a. split; [constructor|]. right. split; [by left|done].
Qed.

Lemma process_simulation :
  simulation (bounded_step loader ctx mid_write horizon) (store_step (¬ sync_reliable)) represents.
Proof.
  intros p l p' a Hr [Hstep Hw]. destruct Hstep as [server ph s l s' Hs _|server ph s|server s Hc|server t d s Hd
    |server t s Ht|server ph s|n server ph s x' Hmid Hf|code w p Hm|code w Hm]; cbn [represents process_within] in *.
  - destruct Hr as (Hset & Hl & Hmade). pose proof Hl as ((m0 & applied & Href) & _).
    destruct (server_step_lives server ctx dir (MaskName wc) horizon fresh_wal Hset s l s' a Hl Hs Hw)
      as (a' & Ha & Hl').
    exists a'. split; [done|]. split; [done|]. split; [done|].
    eapply made_extends; [exact Hmade|by eapply server_step_extends].
  - destruct Hr as (Hset & Hl & Hmade).
    destruct (server_step_lives server ctx dir (MaskName wc) horizon fresh_wal Hset s None
      (srv_set_rt s (cancel (srv_rt s))) a Hl (server_cancel server ctx s) Hw) as (a' & Ha & Hl').
    exists a'. by split.
  - exists a. split; [constructor|done].
  - exists a. split; [constructor|done].
  - destruct Hr as (_ & Hl & Hmade). exists a. split; [constructor|]. by apply lives_leave.
  - destruct Hr as (_ & Hl & Hmade). exists a. split; [constructor|]. by apply lives_leave.
  - destruct Hr as (Hset & Hl & Hmade). by eapply lives_killed.
  - destruct Hr as [(m & Hm' & Hr)|(Hmid & Hmk & Ht)].
    + exists (store_init m). split; [by apply exec_one, store_restart|].
      destruct (main_outcome _ _ Hr) as (p' & E & Hres). assert (p' = p) as -> by congruence.
      destruct p as [server ph s|code' w'].
      * destruct Hres as (-> & Hset & (x & -> & Hi) & Hdu & Hdata & Hmade).
        split; [done|]. split; [|done]. split; [exists m, []; by apply server_init_refines|].
        split; [|done]. exists []. split; [done|by left].
      * destruct Hres as (_ & _ & Hst). left. exists m. split; [apply (next_map_committed (store_init m))|by apply Hst].
    + exists (store_init (committed_map a)). split; [apply exec_one, store_restart, next_map_committed|].
      destruct (main_deployed_unreadable w Hmk Ht) as (w' & E & Hfs). assert (p = Down 1 w') as -> by congruence.
      right. by rewrite (unreadable_fs _ _ _ Hfs), Hfs.
  - destruct Hr as [(m & _ & Hr)|(_ & Hmk & Ht)].
    + destruct (main_outcome _ _ Hr) as (p' & E & _). congruence.
    + destruct (main_deployed_unreadable w Hmk Ht) as (w' & E & _). congruence.
Qed.

End deployment.

(** ** Properties *)

(** C1: the server binary, over any number of lives: with a valid
    configuration, a clock that advances, and any system call failing at any
    time, but a failing [Write] writing nothing while the process goes on,
    whatever the clients send, however connections, log and flusher interleave,
    whenever the process is signalled, exits after its five seconds or is
    killed, and however often it is started again, the requests and replies on
    the wire are those of the abstract store, on which a restart makes every
    committed write visible and loses none. This includes kills in the middle
    of a write, after any number of its bytes, when a prefix of the batch may be
    committed that nobody was told of; and failures of [Sync], after which a
    group of writes that was reported as failed may take effect at the next
    start (and only then: without such failures a restart finds exactly the
    committed map). [main] always ends its start-up: the table it starts with is
    that of the store, or it exits with status one, which it does only after a
    system call failed, or because a segment cannot be decoded. A log that was
    readable before becomes unreadable only by a kill in the middle of a write,
    with a size limit above the length of the type descriptors, with which two
    batches can share a segment (the default is such a limit), or where [Stat]
    or [Sync] may fail, after which a segment can count as empty ([may_spoil]). *)
Theorem process_refines_store {env : Env} {ids : GobTypeIds} {sorter : SortSlice} {net : NetEnv} {UU : UnicodeUpper}
  (loader : res Config) (ctx : Ctx) (mid_write : bool) (horizon : nat) (wc : WalConfig) (nc : NetworkConfig) (dir : bytes)
  (code : Z) (w : world) (f : gmap path node) (ts : list Z) (lss : list (list Log)) (tr : list wire_event) (p : Process)
  (Hdp : deployment loader horizon wc nc dir)
  (Hmk : mkdirs [] (resolve dir) (fs w) = Some f)
  (Hdisk : disk_inv dir (MaskName wc) horizon (with_fs (crash w) f) ts lss) (Hticks : (ticks w < horizon)%nat)
  (Hexec : exec (bounded_step loader ctx mid_write horizon) (Down code w) tr p) :
  ∃ a, exec (store_step (¬ sync_reliable)) (store_init (replay (mjoin (sort_slice LSN <$> lss)) ∅)) tr a ∧
    match p with
    | Running _ _ s => data (srv_table s) = visible a
    | Down _ w' => ∃ p', main loader (crash w') = Done p' ∧
        match p' with
        | Running _ _ s => next_map a (data (srv_table s)) ∧ (sync_reliable → data (srv_table s) = committed_map a)
        | Down code' _ => code' = 1 ∧
            (¬ quiet w' ∨ may_spoil mid_write wc ∧ unreadable dir w')
        end
    end.
Proof.
  assert (represents mid_write horizon wc dir (Down code w) (store_init (replay (mjoin (sort_slice LSN <$> lss)) ∅))) as H0.
  { left. eexists. split; [apply next_map_committed|]. by exists f, ts, lss. }
  destruct (simulation_exec _ _ _ _ _ _ _ (process_simulation loader ctx mid_write horizon wc nc dir Hdp) H0 Hexec)
    as (a & Ha & Hr).
  exists a. split; [done|]. destruct p as [server ph s|code' w']; simpl in Hr.
  - destruct Hr as (_ & ((m0 & applied & Href) & _) & _). symmetry. apply Href.
  - destruct Hr as [(m & Hm & Hr)|(Hmid & Hmade & Ht)].
    + destruct (main_outcome loader horizon wc nc dir Hdp _ _ Hr) as (p' & E & Hres). exists p'. split; [done|].
      destruct p' as [server ph s|code1 w1]; [|naive_solver]. destruct Hres as (_ & _ & _ & _ & -> & _).
      split; [done|]. intros Hsync. by eapply (next_map_sure (¬ sync_reliable)); [intros Hn; by apply Hn|exact Ha|].
    + destruct (main_deployed_unreadable loader horizon wc nc dir Hdp w' Hmade Ht) as (w1 & E & _).
      exists (Down 1 w1). split; [done|]. split; [done|]. by right.
Qed.

(** The configuration of the examples with a size limit for segments. *)
Definition demo_loader (limit : Z) : res Config :=
  Ok {| Network := Network demo_cfg; CfgLogger := CfgLogger demo_cfg;
        CfgWal := Some (demo_config limit); EngineType := EngineType demo_cfg |}.

Definition demo_process (limit : Z) (faults : sys_call → nat → fault) (mid_write : bool) (al : list process_action)
  : list wire_event * Process :=
  default ([], Down 0 world0) (@process_acts (demo_env faults) default_ids insertion_sort_slice open_net
    minimal_unicode_upper (demo_loader limit) [] mid_write 1000 al (Down 0 world0)).

Lemma demo_process_exec limit faults mid al tr : tr ≠ [] → (demo_process limit faults mid al).1 = tr →
  exec (@bounded_step (demo_env faults) default_ids insertion_sort_slice open_net minimal_unicode_upper
    (demo_loader limit) [] mid 1000) (Down 0 world0) tr (demo_process limit faults mid al).2.
Proof.
  unfold demo_process. destruct (process_acts _ _ _ _ _ _) as [[tr' p]|] eqn:E; simpl; [|congruence].
  intros _ <-. by apply process_acts_exec in E.
Qed.

(** The first listing of the directory, the first write, the first opening of a
    segment and one late [Sync] fail. *)
Definition flaky (c : sys_call) (n : nat) : fault :=
  match c, n with
  | SysReadDir, 1%nat | SysWrite, 6%nat | SysOpenAppend, 13%nat | SysSync, 48%nat => Fault 0
  | _, _ => NoFault
  end.

(** The process does not start at first. In its next life a client's write
    fails, and a second one succeeds; the process is killed after the batch is
    on disk and before the reply. One more start fails. Then another client
    reads the value and deletes it; the process is signalled, waits and exits.
    In the next life the key is gone; two clients write, and the process is
    killed while their batch is being written, after the first record. In the
    next life the first write is there and the second is not. There a write is
    answered with a failure because [Sync] fails; in the last life it has taken
    effect. *)
Definition flaky_lives : list process_action :=
  [PBoot; PBoot] ++
  (PServe <$> [SAccept 0; SStart 0; SRead 0 (str "SET a 0"); SConn 0; SConn 0; SConn 0; SFlusher; STick; SConn 0; SConn 0; SConn 0;
               SRead 0 (str "SET a 1"); SConn 0; SConn 0; SConn 0; SFlusher; STick]%nat) ++
  [PKill; PBoot; PBoot] ++
  (PServe <$> [SAccept 0; SStart 0; SRead 0 (str "GET a"); SConn 0; SConn 0; SRead 0 (str "DEL a"); SConn 0; SConn 0;
               SConn 0; SFlusher; STick; SConn 0; SConn 0; SConn 0]%nat) ++
  [PSignal; PShutdown; PWait shutdown_timeout; PExit; PBoot] ++
  (PServe <$> [SAccept 0; SStart 0; SRead 0 (str "GET a"); SConn 0; SConn 0;
               SRead 0 (str "SET a 2"); SConn 0; SConn 0; SConn 0;
               SAccept 1; SStart 1; SRead 1 (str "SET b 3"); SConn 1; SConn 1; SConn 1; SConn 1; SFlusher]%nat) ++
  [PKillWriting (length (@stream default_ids [write_log 1 (CSet (str "a") (str "2"))])) false; PBoot] ++
  (PServe <$> [SAccept 0; SStart 0; SRead 0 (str "GET a"); SConn 0; SConn 0; SRead 0 (str "GET b"); SConn 0; SConn 0;
               SRead 0 (str "SET c 4"); SConn 0; SConn 0; SConn 0; SFlusher; STick; SConn 0; SConn 0; SConn 0]%nat) ++
  [PKill; PBoot] ++
  (PServe <$> [SAccept 0; SStart 0; SRead 0 (str "GET c"); SConn 0; SConn 0]%nat).

Definition flaky_lives_trace : list wire_event :=
  [EvRestart; EvRestart; EvRequest 0 (str "SET a 0"); EvReply 0 (str "failed SET"); EvRequest 0 (str "SET a 1");
   EvRestart; EvRestart; EvRequest 0 (str "GET a"); EvReply 0 (str "VALUE 1");
   EvRequest 0 (str "DEL a"); EvReply 0 (str "DELETED"); EvRestart; EvRequest 0 (str "GET a"); EvReply 0 (str "NOT_FOUND");
   EvRequest 0 (str "SET a 2"); EvRequest 1 (str "SET b 3"); EvRestart; EvRequest 0 (str "GET a"); EvReply 0 (str "VALUE 2");
   EvRequest 0 (str "GET b"); EvReply 0 (str "NOT_FOUND"); EvRequest 0 (str "SET c 4"); EvReply 0 (str "failed SET");
   EvRestart; EvRequest 0 (str "GET c"); EvReply 0 (str "VALUE 4")].

Definition demo_net_config : NetworkConfig :=
  {| Address := str "127.0.0.1:3323"; MaxConnections := 100; MaxMessageSize := 4096;
     IdleTimeout := 5 * Minute; BufferSize := 4096; TypeConn := str "tcp" |}.

Lemma flaky_clean : @clean_writes (demo_env flaky).
Proof.
  intros n k. simpl. intros Hk.
  do 7 (destruct n as [|n]; [by simplify_eq|]). done.
Qed.

Lemma flaky_deployment : @deployment (demo_env flaky) open_net (demo_loader 1) 1000 (demo_config 1) demo_net_config wal_dir.
Proof.
  split.
  - eexists. split; [reflexivity|]. split; [by eexists|done].
  - split; [by apply (bool_decide_unpack _)|]. vm_compute; discriminate.
  - split; [by apply (bool_decide_unpack _)|]. split; [vm_compute; discriminate|done].
  - reflexivity.
  - exact (demo_calm _).
  - exact flaky_clean.
Qed.

Lemma process_refines_store_witness :
  ∃ a, exec (@store_step minimal_unicode_upper (¬ @sync_reliable (demo_env flaky))) (store_init ∅) flaky_lives_trace a ∧
    match (demo_process 1 flaky true flaky_lives).2 with
    | Running _ _ s => data (srv_table s) = visible a
    | Down _ w' => ∃ p', @main (demo_env flaky) default_ids insertion_sort_slice open_net (demo_loader 1) (crash w') = Done p' ∧
        match p' with
        | Running _ _ s => next_map a (data (srv_table s)) ∧
            (@sync_reliable (demo_env flaky) → data (srv_table s) = committed_map a)
        | Down code' _ => code' = 1 ∧
            (¬ @quiet (demo_env flaky) w' ∨
             @may_spoil (demo_env flaky) default_ids true (demo_config 1) ∧
             @unreadable (demo_env flaky) default_ids wal_dir w')
        end
    end.
Proof.
  apply (@process_refines_store (demo_env flaky) default_ids insertion_sort_slice open_net minimal_unicode_upper
    (demo_loader 1) [] true 1000 (demo_config 1) demo_net_config wal_dir 0 world0 (fs world0) [] []).
  - exact flaky_deployment.
  - reflexivity.
  - apply (@disk_inv_later (demo_env flaky) default_ids wal_dir (str "segment_") 1000 world0);
      [reflexivity|by intros h p|reflexivity|exact (demo_empty flaky)].
  - apply (bool_decide_unpack _). vm_compute. reflexivity.
  - apply demo_process_exec; [discriminate|vm_compute; reflexivity].
Defined.

(** C37: an unreadable log ends the service for good: on a directory one of
    whose listed segments does not decode, because its last record was cut off
    by a kill or because it holds a second batch, whatever else is there, and
    in every environment, no start-up ever serves again. Each one exits with
    status one, leaves every file as it is, and nothing but the attempts is
    seen on the wire. *)
Theorem unreadable_log_is_final {env : Env} {ids : GobTypeIds} {sorter : SortSlice} {net : NetEnv} {UU : UnicodeUpper}
  (cfg : Config) (wc : WalConfig) (ctx : Ctx) (mid_write : bool) (code : Z) (w : world) (tr : list wire_event) (p : Process)
  (Hlogger : is_Some (CfgLogger cfg)) (Hwal : CfgWal cfg = Some wc)
  (Hmk : mkdirs [] (resolve (wal_path (SegmentStoragePath wc))) (fs w) = Some (fs w))
  (Hbad : unreadable (wal_path (SegmentStoragePath wc)) w)
  (Hexec : exec (process_step (Ok cfg) ctx mid_write) (Down code w) tr p) :
  ∃ code' w', p = Down code' w' ∧ fs w' = fs w ∧ Forall (λ e, e = EvRestart) tr ∧ (tr ≠ [] → code' = 1).
Proof.
  remember (Down code w) as p0 eqn:Ep. revert code w Hmk Hbad Ep.
  induction Hexec as [p|p0 l p1 tr p2 Hs Hex IH]; intros code w Hmk Hbad ->.
  { exists code, w. split; [done|]. split; [done|]. by split. }
  destruct (main_unreadable (Ok cfg) wc _ cfg (crash w) eq_refl Hlogger Hwal eq_refl Hmk Hbad) as (w1 & E & Hfs).
  assert (l = Some EvRestart ∧ p1 = Down 1 w1) as [-> ->] by (inversion Hs; subst; split; congruence).
  destruct (IH 1 w1) as (code' & w' & -> & Hfs' & Htr & Hcode); [by rewrite Hfs|by apply (unreadable_fs _ (crash w))|done|].
  exists code', w'. split; [done|]. split; [by rewrite Hfs'|]. split; [by constructor|]. intros _.
  destruct (decide (tr = [])) as [->|]; [|auto]. by inversion Hex as [|? l ? ? ? Hs' _ El]; [|inversion Hs'; subst].
Qed.

(** One client: two answered writes, each in a batch of its own. *)
Definition two_writes : list process_action :=
  [PBoot] ++
  (PServe <$> [SAccept 0; SStart 0; SRead 0 (str "SET a 1"); SConn 0; SConn 0; SConn 0; SFlusher; STick; SConn 0; SConn 0; SConn 0;
               SFlusher; SFlusher; SFlusher; SRead 0 (str "SET b 2"); SConn 0; SConn 0; SConn 0; STick; SConn 0; SConn 0; SConn 0]%nat).

(** The world a process leaves. *)
Definition left_by (p : Process) : world :=
  match p with Down _ w => w | Running _ _ s => os (sys (srv_rt s)) end.

(** With the default size limit, an orderly shutdown after the two writes and
    no fault at all. *)
Definition default_limit : Z := 1073741824.

Definition default_life : list process_action := two_writes ++ [PSignal; PShutdown; PWait shutdown_timeout; PExit].

Definition default_world : world := left_by (demo_process default_limit (λ _ _, NoFault) false default_life).2.

Lemma default_life_trace : demo_process default_limit (λ _ _, NoFault) false default_life =
  ([EvRestart; EvRequest 0 (str "SET a 1"); EvReply 0 (str "OK"); EvRequest 0 (str "SET b 2"); EvReply 0 (str "OK")],
   Down 0 default_world).
Proof. vm_compute. reflexivity. Qed.

(** With one batch per segment the next process serves both writes. *)
Lemma one_batch_life_trace : (demo_process 1 (λ _ _, NoFault) false (default_life ++ [PBoot] ++
    (PServe <$> [SAccept 0; SStart 0; SRead 0 (str "GET a"); SConn 0; SConn 0; SRead 0 (str "GET b"); SConn 0; SConn 0]%nat))).1 =
  [EvRestart; EvRequest 0 (str "SET a 1"); EvReply 0 (str "OK"); EvRequest 0 (str "SET b 2"); EvReply 0 (str "OK");
   EvRestart; EvRequest 0 (str "GET a"); EvReply 0 (str "VALUE 1"); EvRequest 0 (str "GET b"); EvReply 0 (str "VALUE 2")].
Proof. vm_compute. reflexivity. Qed.

(** And a kill in the middle of the second write loses the answered one. *)
Lemma torn_life_unreadable :
  @unreadable steady_env default_ids wal_dir
    (left_by (demo_process 1 (λ _ _, NoFault) true (take 19 two_writes ++ [PKillWriting 80 true])).2).
Proof. apply (bool_decide_unpack _). vm_compute. reflexivity. Qed.

(** Where [Stat] always fails, the batches of two lives share a segment, and
    there is no third life. *)
Definition no_stat (c : sys_call) (n : nat) : fault :=
  match c with SysStat => Fault 0 | _ => NoFault end.

Definition no_stat_lives : list wire_event * Process :=
  let write q := PServe <$> [SAccept 0; SStart 0; SRead 0 q; SConn 0; SConn 0; SConn 0; SFlusher; STick; SConn 0; SConn 0; SConn 0]%nat in
  demo_process 1 no_stat false ([PBoot] ++ write (str "SET a 1") ++ [PKill; PBoot] ++ write (str "SET b 2") ++ [PKill]).

Lemma no_stat_lives_trace : no_stat_lives.1 =
  [EvRestart; EvRequest 0 (str "SET a 1"); EvReply 0 (str "OK");
   EvRestart; EvRequest 0 (str "SET b 2"); EvReply 0 (str "OK")].
Proof. vm_compute. reflexivity. Qed.

Lemma no_stat_unreadable : @unreadable (demo_env no_stat) default_ids wal_dir (left_by no_stat_lives.2).
Proof. apply (bool_decide_unpack _). vm_compute. reflexivity. Qed.

(** The first [Sync] fails: a client is told that its write failed, and after the
    next start the write is there. *)
Definition first_sync (c : sys_call) (n : nat) : fault :=
  match c, n with SysSync, 5%nat => Fault 0 | _, _ => NoFault end.

Definition unsynced_life : list process_action :=
  [PBoot] ++
  (PServe <$> [SAccept 0; SStart 0; SRead 0 (str "SET k v"); SConn 0; SConn 0; SConn 0; SFlusher; STick; SConn 0; SConn 0; SConn 0]%nat) ++
  [PSignal; PShutdown; PWait shutdown_timeout; PExit; PBoot] ++
  (PServe <$> [SAccept 0; SStart 0; SRead 0 (str "GET k"); SConn 0; SConn 0]%nat).

Lemma failed_write_reappears :
  ∃ p, exec (@bounded_step (demo_env first_sync) default_ids insertion_sort_slice open_net minimal_unicode_upper
      (demo_loader 1) [] false 1000) (Down 0 world0)
    [EvRestart; EvRequest 0 (str "SET k v"); EvReply 0 (str "failed SET");
     EvRestart; EvRequest 0 (str "GET k"); EvReply 0 (str "VALUE v")] p.
Proof.
  exists (demo_process 1 first_sync false unsynced_life).2. apply demo_process_exec; [discriminate|vm_compute; reflexivity].
Qed.

(** Two attempts to start again. *)
Definition default_boots : Process :=
  from_option snd (Down 0 world0) (@process_acts steady_env default_ids insertion_sort_slice open_net
    minimal_unicode_upper (demo_loader default_limit) [] false 1000 [PBoot; PBoot] (Down 0 default_world)).

Lemma unreadable_log_is_final_witness :
  ∃ code' w', default_boots = Down code' w' ∧ fs w' = fs default_world ∧
    Forall (λ e, e = EvRestart) [EvRestart; EvRestart] ∧ ([EvRestart; EvRestart] ≠ [] → code' = 1).
Proof.
  apply (@unreadable_log_is_final steady_env default_ids insertion_sort_slice open_net minimal_unicode_upper
    {| Network := Network demo_cfg; CfgLogger := CfgLogger demo_cfg;
       CfgWal := Some (demo_config default_limit); EngineType := EngineType demo_cfg |}
    (demo_config default_limit) [] false 0 default_world [EvRestart; EvRestart]).
  - by eexists.
  - reflexivity.
  - apply (bool_decide_unpack _). vm_compute. reflexivity.
  - apply (bool_decide_unpack _). vm_compute. reflexivity.
  - eapply (exec_mono (@bounded_step steady_env default_ids insertion_sort_slice open_net
      minimal_unicode_upper (demo_loader default_limit) [] false 1000)); [by intros ??? []|].
    apply process_acts_exec with [PBoot; PBoot]. vm_compute. reflexivity.
Defined.

(** ** A request that is lost in the shutdown *)

Section silent.
Context {env : Env} {ids : GobTypeIds} {sorter : SortSlice} {UU : UnicodeUpper}.
Context (server : TCPServer) (ctx : Ctx) (m0 : gmap bytes bytes).

(** A connection replies only from the state in which it has a reply. *)
Lemma reply_from_replying s c reply s' : server_step server ctx s (Some (EvReply c reply)) s' →
  ∃ rq, srv_conns s !! c = Some (Replying rq reply).
Proof.
  intros Hs. inversion Hs; subst; match goal with H : conn_step _ _ _ _ _ _ |- _ => inversion H; subst; eauto end.
Qed.

(** While the call of its connection does not return, a client gets no reply. *)
Lemma waiting_silent c w t s tr s' : exec (server_step server ctx) s tr s' → (∃ applied a, refines m0 applied s a) →
  srv_conns s !! c = Some (Logging w t) →
  (∀ x, rtc step (srv_rt s) x → ∀ r e, clients x !! t ≠ Some (Returned r e)) →
  ∀ reply, EvReply c reply ∉ tr.
Proof.
  intros Hex. induction Hex as [s|s l s1 tr s2 Hs _ IH]; intros (applied & a & Href) Hc Hnever reply; [apply not_elem_of_nil|].
  destruct (server_step_refines server ctx m0 s l s1 a (ex_intro _ applied Href) Hs) as (a' & _ & applied' & Href').
  assert (rtc step (srv_rt s) (srv_rt s1)) as Hrt.
  { destruct (server_step_rt server ctx m0 applied s l s1 a Href Hs) as [Hst|E]; [by apply rtc_once|rewrite E; apply rtc_refl]. }
  assert (srv_conns s1 !! c = Some (Logging w t)) as Hc1.
  { destruct (server_step_other server ctx m0 applied a c _ s l s1 Href Hs Hc) as [Hst|[? _]]; [|done].
    inversion Hst; subst; simplify_eq; try done.
    exfalso. by eapply Hnever; [apply rtc_refl|]. }
  rewrite elem_of_app. intros [Hl|Htr].
  - destruct l as [ev|]; [|by apply not_elem_of_nil in Hl]. apply list_elem_of_singleton in Hl as <-.
    destruct (reply_from_replying _ _ _ _ Hs) as [rq E]. congruence.
  - revert Htr. apply IH; [by exists applied', a'|done|]. intros x Hx. apply Hnever. by etrans.
Qed.

End silent.

(** The first process of the examples: its server and the log it recovered. *)
Definition first_boot : TCPServer * Sys HashTable :=
  match @main steady_env default_ids insertion_sort_slice open_net (demo_loader 1) (crash world0) with
  | Done (Running server _ s) => (server, sys (srv_rt s))
  | _ => (demo_server, quick_sys 1)
  end.

Definition lost_server : TCPServer := first_boot.1.

(** A client's request is read; after the signal the flusher finds nothing to do
    and returns; then the request is pushed. *)
Definition lost_read : list wire_event * Server :=
  @srv_after steady_env default_ids insertion_sort_slice minimal_unicode_upper lost_server [] first_boot.2
    [SAccept 0; SStart 0; SRead 0 (str "SET k v")]%nat.

Definition signalled : Server := srv_set_rt lost_read.2 (cancel (srv_rt lost_read.2)).

Definition lost_waiting : Server :=
  from_option snd signalled (@srv_acts steady_env default_ids insertion_sort_slice minimal_unicode_upper lost_server []
    [SFlusher; SFlusher; SConn 0; SConn 0; SConn 0]%nat signalled).

(** What the process leaves, and its successor with a client that asks. *)
Definition lost_world : world := os (sys (srv_rt lost_waiting)).

Definition next_boot : TCPServer * Server :=
  match @main steady_env default_ids insertion_sort_slice open_net (demo_loader 1) (crash lost_world) with
  | Done (Running server _ s) => (server, s)
  | _ => (lost_server, lost_waiting)
  end.

Definition next_asked : Server :=
  from_option snd next_boot.2 (@srv_acts steady_env default_ids insertion_sort_slice minimal_unicode_upper next_boot.1 []
    [SAccept 0; SStart 0; SRead 0 (str "GET k"); SConn 0; SConn 0]%nat next_boot.2).

Lemma first_boot_idle : idle first_boot.2.
Proof.
  split_and!; [vm_compute; reflexivity..|].
  intros [|h] p E; vm_compute in E; [|discriminate]. injection E as <-. eexists. vm_compute. reflexivity.
Qed.

(** The connection waits for a result, and the flusher has returned. *)
Lemma lost_waiting_stuck x : rtc (@step steady_env default_ids insertion_sort_slice) (srv_rt lost_waiting) x →
  ∀ r e, clients x !! 0%nat ≠ Some (Returned r e).
Proof.
  intros Hr r e E.
  destruct (clients (srv_rt lost_waiting) !! 0%nat) as [c|] eqn:Ec; [|vm_compute in Ec; discriminate].
  destruct (exited_stuck (srv_rt lost_waiting) x 0 c Hr) as (c' & H1 & H2 & _);
    [vm_compute; reflexivity|exact Ec|..].
  - intros r' e' ->. vm_compute in Ec. discriminate.
  - vm_compute in Ec. injection Ec as <-. vm_compute. reflexivity.
  - by apply (H2 r e); congruence.
Qed.

(** C39: the shutdown does not drain. On a system without faults and without any
    kill there is a process that starts and reads a client's SET; that is then
    given the signal; whose flusher returns before the connection has pushed
    its request, after which no continuation of any goroutine, however long,
    answers the client; whose [main] waits for its five seconds and returns with
    status zero all the same; and whose successor, started on what it left, has
    an empty map and answers a GET of the key with NOT_FOUND. The command is
    documented to wait for requests in flight and for the log. *)
Theorem shutdown_loses_request :
  let pstep := @process_step steady_env default_ids insertion_sort_slice open_net minimal_unicode_upper (demo_loader 1) [] false in
  let sstep := @server_step steady_env default_ids insertion_sort_slice minimal_unicode_upper in
  ∃ server s1 s2 server' s3 s4,
    (* a process starts and reads the request *)
    exec pstep (Down 0 world0) [EvRestart; EvRequest 0 (str "SET k v")] (Running server Up s1) ∧
    cancelled (srv_rt s1) = false ∧
    (* the signal cancels the context *)
    pstep (Running server Up s1) None (Running server Up (srv_set_rt s1 (cancel (srv_rt s1)))) ∧
    (* the goroutines go on, and the flusher returns *)
    exec (sstep server []) (srv_set_rt s1 (cancel (srv_rt s1))) [] s2 ∧
    exec pstep (Running server Up (srv_set_rt s1 (cancel (srv_rt s1)))) [] (Running server Up s2) ∧
    flusher (srv_rt s2) = At Exited ∧
    (* the client is never answered *)
    (∀ tr s, exec (sstep server []) s2 tr s → ∀ reply, EvReply 0 reply ∉ tr) ∧
    (* [main] waits for its timeout and returns, with status zero *)
    pstep (Running server Up s2) None (Running server (Stopping 0) s2) ∧
    pstep (Running server (Stopping 0) s2) None (Running server (Stopping shutdown_timeout) s2) ∧
    pstep (Running server (Stopping shutdown_timeout) s2) None (Down 0 (os (sys (srv_rt s2)))) ∧
    (* the next process *)
    pstep (Down 0 (os (sys (srv_rt s2)))) (Some EvRestart) (Running server' Up s3) ∧ data (srv_table s3) = ∅ ∧
    exec (sstep server' []) s3 [EvRequest 0 (str "GET k"); EvReply 0 (str "NOT_FOUND")] s4.
Proof.
  intros pstep sstep.
  exists lost_server, lost_read.2, lost_waiting, next_boot.1, next_boot.2, next_asked.
  assert (exec (sstep lost_server []) signalled [] lost_waiting) as Hwait.
  { apply (srv_acts_exec lost_server [] [SFlusher; SFlusher; SConn 0; SConn 0; SConn 0]%nat). vm_compute. reflexivity. }
  assert (exec (sstep lost_server []) (server_init lost_server first_boot.2) lost_read.1 lost_read.2) as Hread.
  { apply srv_after_exec. vm_compute. reflexivity. }
  split_and!.
  - eapply (exec_mono (@bounded_step steady_env default_ids insertion_sort_slice open_net minimal_unicode_upper
      (demo_loader 1) [] false 1000)); [by intros ??? []|].
    apply process_acts_exec with (PBoot :: (PServe <$> [SAccept 0; SStart 0; SRead 0 (str "SET k v")]%nat)).
    vm_compute. reflexivity.
  - vm_compute. reflexivity.
  - apply process_signal.
  - exact Hwait.
  - eapply (exec_mono (@bounded_step steady_env default_ids insertion_sort_slice open_net minimal_unicode_upper
      (demo_loader 1) [] false 1000)); [by intros ??? []|].
    apply process_acts_exec with (PServe <$> [SFlusher; SFlusher; SConn 0; SConn 0; SConn 0]%nat).
    vm_compute. reflexivity.
  - vm_compute. reflexivity.
  - intros tr s Hex. apply (waiting_silent lost_server [] (data (commandHashTable (wal first_boot.2))) 0
      (CSet (str "k") (str "v")) 0 lost_waiting tr s Hex).
    + eapply (server_reaches_refines lost_server [] _ first_boot.2); [exact first_boot_idle|reflexivity|].
      eapply exec_app; [exact Hread|]. eapply exec_silent; [apply server_cancel|exact Hwait].
    + vm_compute. reflexivity.
    + exact lost_waiting_stuck.
  - apply process_shutdown. vm_compute. reflexivity.
  - apply (process_wait _ _ _ _ 0 shutdown_timeout). reflexivity.
  - apply process_exit. lia.
  - apply process_boot. vm_compute. reflexivity.
  - vm_compute. reflexivity.
  - apply (srv_acts_exec next_boot.1 [] [SAccept 0; SStart 0; SRead 0 (str "GET k"); SConn 0; SConn 0]%nat).
    vm_compute. reflexivity.
Qed.
