(* ===== verification/ServiceLog.v ===== *)
(** * What connections and the start-up log

    The connection loop, the directory helper, the composition root and [main]
    with the records they log ([tcp_server.go], [segments_directory.go],
    [internal/initialization], [cmd/server/main.go]), on top of [Logging.v].
    Erasing the records gives the functions of the other files
    ([connection_erase], [NewInitializer_erase]). *)

From S2P Require Import Prelude Traces GoText Slog Compute Config Gob WalLog OS FileSystem Concurrency LogRecords HashTable Wal WalRuntime FlusherLog Engine Push Storage Network Database Logging Requests Store Server Durable Killed Initialization Process AuditTrail.

(** ** [tcp_server.go] *)

(** [io.EOF], which [encoding/gob] returns too. *)
Definition io_EOF : gerr := EGob GobEOF.

Section connection.
Context {S : Type} (handler : bytes → S → logged (bytes * S)).
Context (close_error : error).   (** what [connection.Close] returns *)

(** The deferred function: a panic is logged, the connection is closed. *)
Definition connection_deferred (panicked : bool) : logged () :=
  (if panicked
   then log_error (str "panic in connection handler") [operation "network.HandleConnections"; (str "panic", LPanic)]
   else mret ());;
  match close_error with
  | Some e =>
      log_debug (str "failed to accept connection") [operation "network.HandleConnections"; (str "error", LErrorText e)]
  | None => mret ()
  end.

(** What a handler logs before it panics is not part of the model. *)
Fixpoint HandleConnections_logged (server : TCPServer) (its : list iteration) (unread : bytes) (s : S)
  : logged (list bytes * conn_end * S) :=
  match its with
  | [] => mret ([], ConnOpen, s)
  | it :: its' =>
      if bool_decide (idleTimeout server ≠ 0 ∧ read_deadline it ≠ None) then
        log_debug (str "failed to set read deadline") [operation "network.HandleConnections"];;
        connection_deferred false;; mret ([], ConnClosed, s)
      else
        match read_error it with
        | Some e =>
            (if bool_decide (e ≠ io_EOF)
             then log_debug (str "failed to read from connection")
                    [operation "network.HandleConnections"; (str "error", LErrorText e)]
             else mret ());;
            connection_deferred false;; mret ([], ConnClosed, s)
        | None =>
            let avail := unread ++ arrive it in
            if bool_decide (avail = []) then HandleConnections_logged server its' [] s
            else
              let query := take (Z.to_nat (bufferSize server)) avail in
              match handler query s with
              | Panicked => connection_deferred true;; mret ([], ConnClosed, s)
              | Blocked => mret ([], ConnStuck, s)
              | Done ((response, s1), es) =>
                  tell es;;
                  if bool_decide (idleTimeout server ≠ 0 ∧ write_deadline it ≠ None) then
                    log_debug (str "failed to set write deadline") [operation "network.HandleConnections"];;
                    connection_deferred false;; mret ([], ConnClosed, s1)
                  else if bool_decide (write_error it ≠ None) then
                    connection_deferred false;; mret ([], ConnClosed, s1)
                  else
                    '(replies, e, s2) ←
                      HandleConnections_logged server its' (drop (Z.to_nat (bufferSize server)) avail) s1;
                    mret (response :: replies, e, s2)
              end
        end
  end.

End connection.

(** ** [segments_directory.go] *)

Section start_up.
Context {env : Env} {ids : GobTypeIds} {sorter : SortSlice} {net : NetEnv} {UU : UnicodeUpper}.

Definition resolveWalPath_logged (dir : bytes) (w : world) : logged (res bytes * world) :=
  let dir' := if bool_decide (dir = []) then Join (str "storage") (str "wal") else dir in
  if IsAbs dir' then
    log_debug (str "using absolute path for storage directory") [(str "path", LString dir')];; mret (Ok dir', w)
  else
    let '(r, w1) := os_getwd w in
    match r with
    | Err e =>
        log_debug (str "failed get working directory") [(str "error", LErrorText e)];;
        mret (Err ErrInvalidWorkingFolder, w1)
    | Ok wd => mret (Ok (Join wd dir'), w1)
    end.

Definition MakeDirectory_logged (dir : bytes) (w : world) : logged (res bytes * world) :=
  '(r, w1) ← resolveWalPath_logged dir w;
  match r with
  | Err _ =>
      log_debug (str "failed resolve segment path") [(str "path", LString dir)];;
      mret (Err ErrFailedResolveSegmentPath, w1)
  | Ok p =>
      let '(err, w2) := os_mkdir_all p w1 in
      match err with
      | Some e =>
          log_debug (str "failed create storage directory") [(str "path", LString dir); (str "err", LError e)];;
          mret (Err ErrFailedToCreateDirectory, w2)
      | None => mret (Ok p, w2)
      end
  end.

(** ** [internal/initialization] *)

Definition CreateLogger_logged (c : Config) : logged Logger :=
  l ← silently (CreateLogger c);
  log_info (str "starting service")
    [(str "logger level", LString (from_option LoggingLevel [] (CfgLogger c)))];;
  mret l.

Definition CreateWal_logged (logger : option Logger) (c : Config) (w : world) : logged (res (Sys HashTable) * world) :=
  match logger with
  | None => mret (Err ErrInitInvalidLogger, w)
  | Some l =>
      match CfgWal c with
      | None => silently Panicked
      | Some wc =>
          '(r, w1) ← MakeDirectory_logged (SegmentStoragePath wc) w;
          match r with
          | Err e => mret (Err e, w1)
          | Ok directory =>
              let segment := NewSegment directory (MaskName wc) (MaxSegmentSize wc) in
              match NewWal (Some l) wc segment NewHashTable with
              | Err e => mret (Err e, w1)
              | Ok wal =>
                  '(err, s) ← Recovery_logged {| wal := wal; heap := []; os := w1 |};
                  match err with
                  | Some e => mret (Err e, os s)
                  | None => mret (Ok s, os s)
                  end
              end
          end
      end
  end.

Definition CreateEngine_logged (logger : option Logger) (s : option (Sys HashTable)) (table : option HashTable)
  : logged (res (Engine (Sys HashTable))) :=
  match NewEngine logger s table with
  | Err e => log_info (str "failed to create in-memory engine") [(str "error", LErrorText e)];; mret (Err e)
  | Ok e => mret (Ok e)
  end.

Definition NewInitializer_logged (c : option Config) (w : world) (ls : listeners)
  : logged (res Initializer * world * listeners) :=
  match c with
  | None => mret (Err (EText (str "initialization.NewInitializer: failed to initialize: config is invalid")), w, ls)
  | Some c =>
      l ← CreateLogger_logged c;
      '(r, w1) ← CreateWal_logged (Some l) c w;
      match r with
      | Err e =>
          log_debug (str "failed to create Wal") [operation "initialization.NewInitializer"; (str "error", LErrorText e)];;
          mret (Err e, w1, ls)
      | Ok s =>
          r ← CreateEngine_logged (Some l) (Some s) (Some (commandHashTable (wal s)));
          match r with
          | Err e =>
              log_debug (str "failed to create storage engine") [(str "error", LErrorText e)];;
              mret (Err (EText (str "initialization.NewInitializer: failed to create storage engine")), w1, ls)
          | Ok e =>
              let '(r, ls1) := CreateTCPNetwork (Some l) (Network c) ls in
              match r with
              | Err er => mret (Err er, w1, ls1)
              | Ok server => mret (Ok {| init_log := l; init_engine := e; init_server := server |}, w1, ls1)
              end
          end
      end
  end.

(** The layers [StartDatabase] wires. *)
Definition StartDatabase_logged (i : Initializer)
  : logged (res (Database Compute (Storage (Engine (Sys HashTable))))) :=
  let failed msg e := log_debug (str msg) [operation "initialization.StartDatabase"; (str "error", LErrorText e)] in
  match NewCompute (Some (init_log i)) with
  | Err e => failed "failed to create compute layer" e;; mret (Err (EText (str "failed to create compute layer")))
  | Ok compute =>
      match NewStorage (Some (init_log i)) (init_engine i) with
      | Err e => failed "failed to create storage layer" e;; mret (Err (EText (str "failed to create storage layer")))
      | Ok storage =>
          match NewDatabase (Some (init_log i)) (Some compute) (Some storage) with
          | Err e =>
              failed "failed to create database" e;;
              mret (Err (EText (str "initialization.StartDatabase: failed to create database")))
          | Ok db => mret (Ok db)
          end
      end
  end.

(** ** [cmd/server/main.go] *)

Definition bootstrap_error (msg : string) (e : gerr) : Entry :=
  {| e_level := level_error; e_message := str msg; e_attrs := [(str "error", LErrorText e)] |}.

Definition bootstrap_started : Entry :=
  {| e_level := level_info; e_message := str "Server initialized. Server started."; e_attrs := [] |}.

(** [main] with what the logger of the configuration is given, and the records
    of the bootstrap logger on standard error. *)
Definition main_logged (loader : res Config) (w : world) : logged (Process * list Entry) :=
  match loader with
  | Err e => mret (Down 1 w, [bootstrap_error "failed to load config" e])
  | Ok cfg =>
      '(r, w1, _) ← NewInitializer_logged (Some cfg) w [];
      match r with
      | Err e => mret (Down 1 w1, [bootstrap_error "failed to initialize" e])
      | Ok init =>
          let s := server_init (init_server init) (commandEngine (init_engine init)) in
          r ← StartDatabase_logged init;
          match r with
          | Ok _ => mret (Running (init_server init) Up s, [bootstrap_started])
          | Err e =>
              log_error (str "failed to start database") [(str "error", LErrorText e)];;
              mret (Running (init_server init) Up
                (srv_set_accept (srv_set_rt s (cancel (srv_rt s))) (not_serving (srv_accept s))), [bootstrap_started])
          end
      end
  end.

End start_up.

(** ** Lemmas: erasing the records *)

Lemma erase_ret {A} (a : A) : erase (mret a) = Done a.
Proof. done. Qed.

Lemma erase_tell_then {A} es (m : logged A) : erase (tell es;; m) = erase m.
Proof. by rewrite erase_bind. Qed.

(** A record that is only written sometimes. *)
Lemma erase_unit_then {A} (l : logged ()) (m : logged A) : erase l = Done () → erase (l;; m) = erase m.
Proof. intros E. by rewrite erase_bind, E. Qed.

Lemma deferred_erase ce p : erase (connection_deferred ce p) = Done ().
Proof. by destruct ce, p. Qed.

Lemma connection_erase {S : Type} (handler : bytes → S → logged (bytes * S)) ce server its : ∀ unread s,
  erase (HandleConnections_logged handler ce server its unread s) =
  Done (HandleConnections (λ q s, erase (handler q s)) server its unread s).
Proof.
  induction its as [|it its IH]; intros unread s; [done|]. cbn [HandleConnections HandleConnections_logged].
  case_bool_decide as H1.
  { by rewrite erase_log_then, (erase_unit_then _ _ (deferred_erase _ _)). }
  destruct (read_error it) as [e|].
  { rewrite (bool_decide_eq_true_2 (Some e ≠ None)) by done. rewrite !erase_unit_then; [done|apply deferred_erase|].
    by case_bool_decide. }
  rewrite (bool_decide_eq_false_2 (None ≠ None)) by auto. cbv zeta.
  case_bool_decide as H2; [apply IH|].
  destruct (handler _ s) as [[[response s1] es]| |]; cbn [erase obind];
    [|done|by rewrite (erase_unit_then _ _ (deferred_erase _ _))].
  rewrite erase_tell_then.
  case_bool_decide; [by rewrite erase_log_then, (erase_unit_then _ _ (deferred_erase _ _))|].
  case_bool_decide; [by rewrite (erase_unit_then _ _ (deferred_erase _ _))|].
  rewrite erase_bind, IH. cbn [obind]. by destruct (HandleConnections _ _ _ _ _) as [[replies e] s2].
Qed.

Section start_up_lemmas.
Context {env : Env} {ids : GobTypeIds} {sorter : SortSlice} {net : NetEnv} {UU : UnicodeUpper}.

Lemma MakeDirectory_erase dir w : erase (MakeDirectory_logged dir w) = Done (MakeDirectory dir w).
Proof.
  unfold MakeDirectory_logged. rewrite erase_bind.
  assert (erase (resolveWalPath_logged dir w) = Done (resolveWalPath dir w)) as ->.
  { unfold resolveWalPath_logged, resolveWalPath. cbv zeta. destruct (IsAbs _); [done|].
    by destruct (os_getwd w) as [[wd|e] w1]. }
  unfold MakeDirectory. cbn [obind]. destruct (resolveWalPath dir w) as [[p|e] w1]; [|done].
  by destruct (os_mkdir_all p w1) as [[e|] w2].
Qed.

Lemma CreateWal_erase logger c w : erase (CreateWal_logged logger c w) = CreateWal logger c w.
Proof.
  unfold CreateWal_logged, CreateWal. destruct logger as [l|]; [|done]. destruct (CfgWal c) as [wc|]; [|done].
  rewrite erase_bind, MakeDirectory_erase. cbn [obind]. destruct (MakeDirectory _ w) as [[dir|e] w1]; [|done].
  cbv zeta. destruct (NewWal _ _ _ _) as [x|e]; [|done]. rewrite erase_bind, Recovery_erase. cbn [obind].
  by destruct (Recovery _) as [[e|] s].
Qed.

Lemma NewInitializer_erase c w ls : erase (NewInitializer_logged c w ls) = NewInitializer c w ls.
Proof.
  unfold NewInitializer_logged, NewInitializer. destruct c as [c|]; [|done].
  unfold CreateLogger_logged. apply erase_bind_eq; [rewrite erase_bind, erase_silently; by destruct (CreateLogger c)|].
  intros l. apply erase_bind_eq; [apply CreateWal_erase|]. intros [[s|e] w1]; [|by rewrite erase_log_then].
  rewrite erase_bind. unfold CreateEngine_logged, CreateEngine.
  destruct (NewEngine _ _ _) as [e|e]; [|done]. cbn [erase obind].
  by destruct (CreateTCPNetwork _ _ ls) as [[server|er] ls1].
Qed.

End start_up_lemmas.

(** ** Lemmas: the audit of a connection *)

Section connection_audit.
Context {UU : UnicodeUpper} {S : Type} {ls : LoggedStore S}.
Context (inv : S → Prop) (flog : S → list Entry) (pause : S → S) (ctx : Ctx).
Context (Hlaws : audit_laws inv flog (storage_failure "set failed") (storage_failure "del failed")).
Context (Hpause : ∀ s, inv s → inv (pause s) ∧ flog (pause s) = flog s).

(** The callback of the server, after what happens to the storage before it. *)
Definition served (query : bytes) (db : Database Compute S) : logged (bytes * Database Compute S) :=
  DatabaseHandler_logged ctx query (set_storage db (pause (storage db))).

(** The queries that were read, whole or in part of what arrived, the replies
    to them, of which the last may not have been written, and their audits. *)
Definition connection_audited (server : TCPServer) (input : bytes) (db : Database Compute S)
  (o : logged (list bytes * conn_end * Database Compute S)) : Prop :=
  ∃ replies e db' es queries answers aud fl, o = Done ((replies, e, db'), es) ∧ inv (storage db') ∧ e ≠ ConnStuck ∧
    audit es = aud ∧ flog (storage db') = flog (storage db) ++ fl ∧
    audits_of (ParseAndValidate <$> queries) answers aud fl ∧
    replies `prefix_of` answers ∧ (length answers ≤ Datatypes.S (length replies))%nat ∧
    mjoin queries `prefix_of` input ∧ Forall (λ q, zlen q ≤ Z.max 0 (bufferSize server)) queries.

Lemma served_audit query db : inv (storage db) → ∃ reply db' es fl, served query db = Done ((reply, db'), es) ∧
  inv (storage db') ∧ flog (storage db') = flog (storage db) ++ fl ∧ audited (ParseAndValidate query) reply (audit es) fl.
Proof.
  intros Hi. destruct (Hpause _ Hi) as [Hip Hfp].
  destruct (handler_audit inv flog Hlaws ctx query (set_storage db (pause (storage db))) Hip)
    as (reply & db' & es & fl & E & Hi' & Hf & Ha).
  exists reply, db', es, fl. split; [exact E|]. split; [done|]. split; [by rewrite Hf; simpl; rewrite Hfp|done].
Qed.

Lemma connection_audit_end server input (db : Database Compute S) o e : inv (storage db) → e ≠ ConnStuck →
  debug_only o → erase o = Done ([], e, db) → connection_audited server input db o.
Proof.
  intros Hi He Hl El. apply erase_Done in El as [es El].
  eexists [], e, db, _, [], [], [], []. split; [exact El|]. rewrite (Hl _ _ El).
  do 3 (split; [done|]). split; [by rewrite app_nil_r|]. split; [constructor|]. split; [done|]. split; [simpl; lia|].
  split; [apply prefix_nil|constructor].
Qed.

(** A query with its audit, whose reply could not be written. *)
Lemma connection_audit_last server query input (db0 db : Database Compute S) reply es fl o :
  zlen query ≤ Z.max 0 (bufferSize server) → audited (ParseAndValidate query) reply (audit es) fl → inv (storage db) →
  flog (storage db) = flog (storage db0) ++ fl →
  debug_only o → erase o = Done ([], ConnClosed, db) → connection_audited server (query ++ input) db0 (tell es;; o).
Proof.
  intros Hq Ha Hi Hf Hl El. apply erase_Done in El as [es' El]. rewrite El.
  eexists [], ConnClosed, db, _, [query], [reply], (audit es), fl. split; [reflexivity|].
  rewrite audit_app, (Hl _ _ El), app_nil_r. do 4 (split; [done|]).
  split; [by rewrite <- (app_nil_r (audit es)), <- (app_nil_r fl); constructor; [|constructor]|].
  split; [apply prefix_nil|]. split; [done|]. split; [simpl; rewrite app_nil_r; by exists input|by constructor].
Qed.

(** A query with its audit in front of the rest. *)
Lemma connection_audit_query server query input (db0 db : Database Compute S) reply es fl o :
  zlen query ≤ Z.max 0 (bufferSize server) → audited (ParseAndValidate query) reply (audit es) fl →
  flog (storage db) = flog (storage db0) ++ fl → connection_audited server input db o →
  connection_audited server (query ++ input) db0 (tell es;; '(replies, e, db) ← o; mret (reply :: replies, e, db)).
Proof.
  intros Hq Ha Hf (replies & e & db' & es' & queries & answers & aud & fl' & -> & Hi & He & Hes & Hf' & Hall & Hpre & Hlen & Hin & Hqs).
  eexists _, _, _, _, (query :: queries), (reply :: answers), (audit es ++ aud), (fl ++ fl'). split; [reflexivity|].
  rewrite app_nil_r, audit_app, Hes. do 3 (split; [done|]). split; [by rewrite Hf', Hf, app_assoc|].
  split; [by constructor|]. split; [by apply prefix_cons|]. split; [simpl; lia|].
  split; [simpl; by apply prefix_app|by constructor].
Qed.

Lemma deferred_debug ce : debug_only (connection_deferred ce false).
Proof. destruct ce; unfold connection_deferred; debug_only. Qed.

#[local] Hint Resolve deferred_debug : audit.

(** The end of the loop, after an error. *)
Lemma stop_debug {A} ce (l : logged ()) (a : A) : debug_only l → debug_only (l;; connection_deferred ce false;; mret a).
Proof. intros Hl. debug_only. Qed.

Lemma stop_erase {A} ce (l : logged ()) (a : A) : erase l = Done () →
  erase (l;; connection_deferred ce false;; mret a) = Done a.
Proof. intros Hl. by rewrite (erase_unit_then _ _ Hl), (erase_unit_then _ _ (deferred_erase _ _)). Qed.

Lemma connection_audit ce server its : ∀ unread db, inv (storage db) →
  connection_audited server (unread ++ mjoin (arrive <$> its)) db
    (HandleConnections_logged served ce server its unread db).
Proof.
  induction its as [|it its IH]; intros unread db Hi; cbn [HandleConnections_logged].
  { apply (connection_audit_end server _ db _ ConnOpen); [done|done|apply debug_only_ret|done]. }
  case_bool_decide.
  { apply (connection_audit_end server _ db _ ConnClosed); [done|done|apply stop_debug; debug_only|by apply stop_erase]. }
  destruct (read_error it) as [e|].
  { apply (connection_audit_end server _ db _ ConnClosed); [done|done|apply stop_debug|apply stop_erase];
      case_bool_decide; done || apply debug_only_debug || apply debug_only_ret. }
  cbv zeta. cbn [fmap list_fmap mjoin list_join]. rewrite (assoc_L (++)).
  case_bool_decide as Havail; [rewrite Havail; by apply (IH [])|].
  set (avail := unread ++ arrive it). set (n := Z.to_nat (bufferSize server)).
  destruct (served_audit (take n avail) db Hi) as (reply & db1 & es & fl & -> & Hi1 & Hf & Ha).
  assert (zlen (take n avail) ≤ Z.max 0 (bufferSize server)) as Hq by (unfold zlen, n; rewrite length_take; lia).
  rewrite <- (take_drop n avail) at 1. rewrite <- (assoc_L (++)).
  case_bool_decide.
  { apply connection_audit_last with db1 reply fl; [done..|apply stop_debug; debug_only|by apply stop_erase]. }
  case_bool_decide; [|by apply connection_audit_query with db1 fl, IH].
  apply connection_audit_last with db1 reply fl; [done..|debug_only|].
  by rewrite (erase_unit_then _ _ (deferred_erase _ _)).
Qed.

End connection_audit.

(** ** Lemmas: the audit of the start-up *)

Section start_up_audit.
Context {env : Env} {ids : GobTypeIds} {sorter : SortSlice} {net : NetEnv} {UU : UnicodeUpper}.

Definition service_started (c : Config) : Entry :=
  {| e_level := level_info; e_message := str "starting service";
     e_attrs := [(str "logger level", LString (from_option LoggingLevel [] (CfgLogger c)))] |}.

Lemma MakeDirectory_debug dir w : debug_only (MakeDirectory_logged dir w).
Proof. unfold MakeDirectory_logged, resolveWalPath_logged. debug_only. Qed.

Lemma recover_files_debug {H} {cht : CommandHashTable H} ps : ∀ (t : H) w, debug_only (recover_files_logged ps t w).
Proof.
  assert (∀ ls (t : H), debug_only (apply_until_logged ls t)) as Ha.
  { induction ls as [|l ls IH]; intros t; cbn [apply_until_logged]; unfold apply_logged; debug_only. }
  induction ps as [|p ps IH]; intros t w; cbn [recover_files_logged]; unfold recover_file_logged; debug_only.
Qed.

#[local] Hint Resolve MakeDirectory_debug recover_files_debug Segment_CreateFile_debug : audit.

Lemma Recovery_debug {H} {cht : CommandHashTable H} (s : Sys H) : debug_only (Recovery_logged s).
Proof. unfold Recovery_logged, open_last_logged, SetFile_logged. debug_only. Qed.

#[local] Hint Resolve Recovery_debug : audit.

Lemma CreateWal_debug logger c w : debug_only (CreateWal_logged logger c w).
Proof. unfold CreateWal_logged. debug_only. Qed.

#[local] Hint Resolve CreateWal_debug : audit.

(** A computation after records of a known audit. *)
Lemma audit_after {A B} (l : logged A) (f : A → logged B) b es :
  (∀ a, debug_only (f a)) → l ≫= f = Done (b, es) → ∃ a es0, l = Done (a, es0) ∧ audit es = audit es0.
Proof.
  intros Hf E. destruct l as [[a es0]| |]; [|done..]. exists a, es0. split; [done|]. cbn in E.
  destruct (f a) as [[b' es']| |] eqn:Ef; [|done..]. cbn in E. injection E as -> <-.
  by rewrite audit_app, (Hf a _ _ Ef), app_nil_r.
Qed.

(** The composition root logs the start, and nothing else from Info upwards. *)
Lemma NewInitializer_audit c w ls r es : NewInitializer_logged (Some c) w ls = Done (r, es) →
  audit es = [service_started c].
Proof.
  unfold NewInitializer_logged. intros E.
  eapply audit_after in E as (l & es0 & E & ->); [|intros l; unfold CreateEngine_logged; cbn [NewEngine]; debug_only].
  unfold CreateLogger_logged in E. destruct (CreateLogger c) as [l'| |]; [|done..]. cbn in E. by injection E as _ <-.
Qed.

End start_up_audit.

(** ** Properties *)

Lemma HandleConnections_ext {S : Type} (h1 h2 : bytes → S → outcome (bytes * S)) server its :
  (∀ q s, h1 q s = h2 q s) → ∀ unread s,
  HandleConnections h1 server its unread s = HandleConnections h2 server its unread s.
Proof.
  intros Hh. induction its as [|it its IH]; intros unread s; [done|]. simpl. rewrite Hh.
  repeat (case_bool_decide; [done|]). destruct (h2 _ s) as [[r s1]| |]; [|done..].
  by rewrite IH.
Qed.

(** C11: at level Info the log of a connection is its audit trail. For a single
    connection to a server that just started, for every script of arrivals and
    network errors, whatever the flusher does before each operation of the
    connection and in every environment, the loop of the connection does not
    get stuck. The records of its goroutine from Info upwards are, query by
    query: one "command success" with the key for each SET that is answered OK;
    one "set failed" or "del failed" with the key and the error for each SET or
    DEL that is answered with a failure; and nothing for any other query, nor
    for any error of the network. The records of the flusher are, in the order
    of the failed writes, one "failed to flush wal batch" with the same error
    for each of them that got a sequence number. (How the records of the two
    goroutines interleave is left open.) The queries are consecutive pieces of
    what arrived, none longer than the buffer, and the replies are the answers
    to them, all but the last at least. A logger at Info writes exactly these. *)
Theorem connection_audit_trail {env : Env} {ids : GobTypeIds} {sorter : SortSlice} {UU : UnicodeUpper}
  (x : Sys HashTable) (schedule : list (list action)) (ctx : Ctx) (server : TCPServer) (close_error : error)
  (its : list iteration) (Hidle : idle x) (Hown : Forall (Forall own_move) schedule) :
  ∃ replies e db es queries answers aud fl,
    HandleConnections_logged (served others_turn ctx) close_error server its [] (server_database (started x schedule)) =
      Done ((replies, e, db), es) ∧
    HandleConnections (λ q db, DatabaseHandler ctx q (set_storage db (others_turn (storage db)))) server its []
      (server_database (started x schedule)) = (replies, e, db) ∧
    e ≠ ConnStuck ∧ audit es = aud ∧ audit (flusher_log (commandEngine (engine (storage db)))) = fl ∧
    audits_of (ParseAndValidate <$> queries) answers aud fl ∧
    replies `prefix_of` answers ∧ (length answers ≤ S (length replies))%nat ∧
    mjoin queries `prefix_of` mjoin (arrive <$> its) ∧ Forall (λ q, zlen q ≤ Z.max 0 (bufferSize server)) queries ∧
    (∀ (texts : LogTexts) (colors : Colors) now,
       mjoin (written (PrettyLogger LevelInfo) now <$> es) =
       mjoin (written (PrettyLogger LevelInfo) now <$> aud)).
Proof.
  destruct (connection_audit stack_ok stack_flusher_audit others_turn ctx stack_audit_laws) with
    (ce := close_error) (server := server) (its := its) (unread := @nil Byte.byte) (db := server_database (started x schedule))
    as (replies & e & db & es & queries & answers & aud & fl & E & _ & He & Ha & Hf & Hrest).
  { intros s Hs. destruct (yield_between _ Hs) as (H1 & _ & _ & H2). done. }
  { by apply started_between. }
  exists replies, e, db, es, queries, answers, aud, fl. split; [done|]. split.
  { pose proof (connection_erase (served others_turn ctx) close_error server its [] (server_database (started x schedule))) as Her.
    rewrite E in Her. injection Her as Her. rewrite Her. symmetry. apply HandleConnections_ext.
    intros q s. apply handler_erase, stack_erases. }
  split; [done|]. split; [done|]. split; [exact Hf|]. destruct Hrest as (H1 & H2 & H3 & H4 & H5). do 5 (split; [done|]).
  intros texts colors now. by rewrite <- Ha, written_audit.
Qed.

(** A client whose second write finds a disk that refuses it, and whose third
    reply cannot be sent; closing the connection fails too. *)
Definition troubled_connection : list iteration :=
  [arrival (str "SET a 1"); arrival (str "SET b 2");
   {| arrive := str "SET c 3"; read_deadline := None; read_error := None; write_deadline := None;
      write_error := Some (EOS EIO) |}].

Lemma connection_audit_trail_witness :
  let run := @HandleConnections_logged _ (@served minimal_unicode_upper _ (@storage_logged _ (@engine_logged _
    (@wal_logged flaky_disk default_ids insertion_sort_slice) wal_query_engine))
    (@others_turn flaky_disk default_ids insertion_sort_slice) []) (Some (EOS EIO))
    demo_server troubled_connection [] (server_database (started (quick_sys 1) slow_flusher)) in
  (∃ replies e db es queries answers aud fl, run = Done ((replies, e, db), es) ∧
    audit es = aud ∧ audit (flusher_log (commandEngine (engine (storage db)))) = fl ∧
    audits_of (@ParseAndValidate minimal_unicode_upper <$> queries) answers aud fl ∧
    replies `prefix_of` answers) ∧
  match run with
  | Done (replies, e, db, es) =>
      replies = [str "OK"; str "failed SET"] ∧ e = ConnClosed ∧
      audit es = [set_success (str "a"); write_failed "set failed" (str "b") ErrFailedSaveFile; set_success (str "c")] ∧
      audit (flusher_log (commandEngine (engine (storage db)))) = [flush_failed ErrFailedSaveFile] ∧
      last es = Some {| e_level := level_debug; e_message := str "failed to accept connection";
                        e_attrs := [operation "network.HandleConnections"; (str "error", LErrorText (EOS EIO))] |}
  | _ => False
  end.
Proof.
  intros run. split; [|vm_compute; repeat split; reflexivity].
  destruct (@connection_audit_trail flaky_disk default_ids insertion_sort_slice minimal_unicode_upper (quick_sys 1)
    slow_flusher [] demo_server (Some (EOS EIO)) troubled_connection (quick_idle 1))
    as (replies & e & db & es & queries & answers & aud & fl & H1 & _ & _ & H3 & H4 & H5 & H6 & _).
  - apply (bool_decide_unpack _). vm_compute. reflexivity.
  - exists replies, e, db, es, queries, answers, aud, fl. split; [exact H1|]. split; [exact H3|]. split; [exact H4|].
    split; [exact H5|exact H6].
Defined.

(** Every start-up is reported: on standard error there is one record, which
    is "Server initialized. Server started." exactly when [main] goes on to
    serve, and otherwise, with status one, the error that ended it; the
    service's own log has "starting service" and nothing else from Info
    upwards. *)
Theorem start_up_reported {env : Env} {ids : GobTypeIds} {sorter : SortSlice} {net : NetEnv} {UU : UnicodeUpper}
  (loader : res Config) (w : world) (p : Process) (boot : list Entry) (es : list Entry)
  (E : main_logged loader w = Done ((p, boot), es)) :
  match loader with
  | Err e => boot = [bootstrap_error "failed to load config" e] ∧ p = Down 1 w ∧ es = []
  | Ok c => audit es = [service_started c] ∧
      match p with
      | Running _ _ _ => boot = [bootstrap_started]
      | Down code w' => code = 1 ∧
          ∃ e ls, NewInitializer (Some c) w [] = Done (Err e, w', ls) ∧ boot = [bootstrap_error "failed to initialize" e]
      end
  end.
Proof.
  unfold main_logged in E. destruct loader as [c|e]; [|by injection E as <- <- <-].
  pose proof (NewInitializer_erase (Some c) w []) as Her. pose proof (NewInitializer_audit c w []) as Ha.
  destruct (NewInitializer_logged (Some c) w []) as [[[[r w1] ls] es0]| |]; [|done..]. specialize (Ha _ _ eq_refl).
  destruct r as [init|e]; cbn in E; injection E as <- <- <-; rewrite app_nil_r; split; [done|done|done|].
  split; [done|]. by exists e, ls.
Qed.
