(* ===== verification/Cli.v ===== *)
(** * The interactive client

    Models [internal/application_cli/cli_app.go] and [cmd/cli]: the command
    line, the settings derived from it, the logger, and the read-eval-print
    loop with everything it writes to the terminal. The number parsers behind
    the flags, standard input and the network are parameters. *)

From S2P Require Import Prelude GoText Slog Config Concurrency Network.

(** ** The command line *)

(** The values of the flags after [flag.Parse]. *)
Record flags := { addressFlag : bytes; idleFlag : Z; maxMessageSizeFlag : Z; debugFlag : bool }.

(** Their defaults. *)
Definition default_flags : flags :=
  {| addressFlag := str "127.0.0.1:3323"; idleFlag := 5 * Minute; maxMessageSizeFlag := 4096; debugFlag := true |}.

(** The parsers of numbers that [flag] calls: [time.ParseDuration] and
    [strconv.ParseInt] with base zero. *)
Class FlagParsers := {
  ParseDuration : bytes → option Z;
  ParseInt0 : bytes → option Z
}.

Definition ParseBool (s : bytes) : option bool :=
  if bool_decide (s ∈ str <$> ["1"; "t"; "T"; "true"; "TRUE"; "True"])%string then Some true
  else if bool_decide (s ∈ str <$> ["0"; "f"; "F"; "false"; "FALSE"; "False"])%string then Some false
  else None.

(** The flags that [parseFlags] defines; [None] for another name. *)
Definition lookup_flag {fp : FlagParsers} (name : bytes) : option (bytes → flags → option flags) :=
  if bool_decide (name = str "address") then Some (λ v f,
    Some {| addressFlag := v; idleFlag := idleFlag f; maxMessageSizeFlag := maxMessageSizeFlag f; debugFlag := debugFlag f |})
  else if bool_decide (name = str "idle") then Some (λ v f,
    d ← ParseDuration v;
    Some {| addressFlag := addressFlag f; idleFlag := d; maxMessageSizeFlag := maxMessageSizeFlag f; debugFlag := debugFlag f |})
  else if bool_decide (name = str "mes_size") then Some (λ v f,
    n ← ParseInt0 v;
    Some {| addressFlag := addressFlag f; idleFlag := idleFlag f; maxMessageSizeFlag := n; debugFlag := debugFlag f |})
  else if bool_decide (name = str "debug") then Some (λ v f,
    b ← ParseBool v;
    Some {| addressFlag := addressFlag f; idleFlag := idleFlag f; maxMessageSizeFlag := maxMessageSizeFlag f; debugFlag := b |})
  else None.

Definition is_bool_flag (name : bytes) : bool := bool_decide (name = str "debug").

(** The flags and the remaining arguments, or the end of the process: status
    two after a usage error, zero after a request for help. *)
Inductive parsed := Parsed (f : flags) (rest : list bytes) | UsageExit (code : Z).

Definition dash : byte := x2d.
Definition equals : byte := x3d.

(** The text before the first equals sign, and what follows it. *)
Fixpoint cut_equals (s : bytes) : bytes * option bytes :=
  match s with
  | [] => ([], None)
  | b :: s' =>
      if bool_decide (b = equals) then ([], Some s')
      else let '(name, value) := cut_equals s' in (b :: name, value)
  end.

(** [flag.Parse] of the arguments: the loop of [FlagSet.parseOne]. *)
Fixpoint Parse {fp : FlagParsers} (args : list bytes) (f : flags) {struct args} : parsed :=
  match args with
  | [] => Parsed f []
  | s :: args' =>
      match s with
      | d :: ((c :: after) as one) =>
          if bool_decide (d ≠ dash) then Parsed f args
          else if bool_decide (c = dash ∧ after = []) then Parsed f args'
          else
            match (if bool_decide (c = dash) then after else one) with
            | [] => UsageExit 2
            | n0 :: n =>
                if bool_decide (n0 = dash ∨ n0 = equals) then UsageExit 2
                else
                  let '(n, value) := cut_equals n in
                  let name := n0 :: n in
                  match lookup_flag name with
                  | None => UsageExit (if bool_decide (name = str "help" ∨ name = str "h") then 0 else 2)
                  | Some set =>
                      if is_bool_flag name then
                        match set (default (str "true") value) f with
                        | Some f' => Parse args' f'
                        | None => UsageExit 2
                        end
                      else
                        match value with
                        | Some v => match set v f with Some f' => Parse args' f' | None => UsageExit 2 end
                        | None =>
                            match args' with
                            | [] => UsageExit 2
                            | v :: args'' => match set v f with Some f' => Parse args'' f' | None => UsageExit 2 end
                            end
                        end
                  end
            end
      | _ => Parsed f args
      end
  end.

(** [parseFlags] on the arguments after the program's name: address, idle
    timeout, message size and logger environment, or an exit status. *)
Definition parseFlags {fp : FlagParsers} (args : list bytes) : Z + bytes * Z * Z * bytes :=
  let args := match args with a :: args' => if bool_decide (a = str "--") then args' else args | [] => args end in
  match Parse args default_flags with
  | UsageExit code => inl code
  | Parsed f _ =>
      let env := if debugFlag f then str "dev" else str "info" in
      let address := if bool_decide (addressFlag f = []) then str "127.0.0.1:3323" else addressFlag f in
      let maxMessageSize := if maxMessageSizeFlag f <=? 0 then 4096 else maxMessageSizeFlag f in
      inr (address, idleFlag f, maxMessageSize, env)
  end.

(** ** Logger and connection *)

(** What the client writes to standard output, in order: text, and records for
    its logger. *)
Inductive terminal :=
  | Out (b : bytes)
  | Info (msg : bytes) (attrs : list Attr).

Definition string_attr (k v : bytes) : Attr := {| attr_key := k; attr_value := StringValue v |}.

Definition CliCreateLogger (env : bytes) : Logger * list terminal :=
  (if bool_decide (env = str "info") then PrettyLogger LevelInfo
   else if bool_decide (env = str "dev") then PrettyLogger LevelDebug
   else if bool_decide (env = str "prod") then DiscardLogger
   else PrettyLogger LevelInfo,
   [Info (str "starting service") [string_attr (str "logger level") env]]).

Section client.
Context {net : NetEnv} (error_text : gerr → bytes).   (** [err.Error()] *)

(** [buildClient]: without a connection the process exits with status one. *)
Definition buildClient (logger : Logger) (address : bytes) (timeout size : Z)
  : (Z + TCPClient) * list terminal :=
  match NewTCPClient (Some logger)
    [WithClientTCPAddress address; WithClientTCPMaxMessageSize size; WithClientTCPIdleTimeout timeout] with
  | Err e => (inl 1, [Info (str "cannot connect to server")
                        [string_attr (str "address") address; string_attr (str "error") (error_text e)]])
  | Ok client => (inr client, [Info (str "connected to server") [string_attr (str "address") address]])
  end.

(** ** The loop *)

Definition newline : byte := x0a.

(** [reader.ReadString('\n')]: the next line with its newline, and the rest;
    [None] when the input ends first (what was read is dropped). *)
Fixpoint ReadString (s : bytes) : option (bytes * bytes) :=
  match s with
  | [] => None
  | b :: s' =>
      if bool_decide (b = newline) then Some ([b], s')
      else match ReadString s' with
           | Some (line, rest) => Some (b :: line, rest)
           | None => None
           end
  end.

(** [strings.EqualFold(request, "exit")]: none of these four letters folds to
    anything but its other ASCII case. *)
Definition ascii_lower (b : byte) : Z := if (65 <=? bZ b) && (bZ b <=? 90) then bZ b + 32 else bZ b.

Definition is_exit (request : bytes) : bool :=
  bool_decide ((ascii_lower <$> request) = (ascii_lower <$> str "exit")).

Definition prompt : bytes := str "> ".
Definition invitation : list terminal :=
  [Out (newline :: str "Input command (exit for exit)" ++ [newline]); Out prompt].
Definition closed_note : terminal := Info (str "input closed, exiting") [].
Definition exit_note (op : bytes) : terminal :=
  Info (str "Cli exit and finished") [string_attr (str "operation") op].

(** What is printed after an exchange. *)
Definition show (r : res bytes) : list terminal :=
  match r with
  | Ok response => [Out (response ++ [newline]); Out prompt]
  | Err e => [Info (str "failed to send command") [string_attr (str "error") (error_text e)]; Out prompt]
  end.

Section repl.
Context {S : Type} (exchange : bytes → S → outcome (res bytes * S)).   (** [tcpClient.SendAndReceive] *)

(** Each round consumes at least one byte of the input, so more fuel than its
    length is enough. The result is what was written to the terminal and the
    state of the exchange. *)
Fixpoint repl (fuel : nat) (op input : bytes) (s : S) : outcome (list terminal * S) :=
  match fuel with
  | O => Blocked
  | Datatypes.S fuel' =>
      match ReadString input with
      | None => Done (invitation ++ [closed_note], s)
      | Some (line, rest) =>
          let request := TrimSpace line in
          if bool_decide (request = []) then
            obind (repl fuel' op rest s) (λ '(out, s1), Done (invitation ++ [Out prompt] ++ out, s1))
          else if is_exit request then Done (invitation ++ [exit_note op], s)
          else
            obind (exchange request s) (λ '(r, s1),
            obind (repl fuel' op rest s1) (λ '(out, s2), Done (invitation ++ show r ++ out, s2)))
      end
  end.

Definition replLoop (op input : bytes) (s : S) : outcome (list terminal * S) :=
  repl (Datatypes.S (length input)) op input s.

(** ** Specification of the loop *)

(** The requests of a session: the non-blank lines before the first [exit],
    trimmed. *)
Fixpoint requests (lines : list bytes) : list bytes :=
  match lines with
  | [] => []
  | l :: ls =>
      let r := TrimSpace l in
      if bool_decide (r = []) then requests ls
      else if is_exit r then [] else r :: requests ls
  end.

(** Requests sent one after the other. *)
Fixpoint exchanges (rs : list bytes) (s : S) : outcome (list (res bytes) * S) :=
  match rs with
  | [] => Done ([], s)
  | r :: rs' =>
      obind (exchange r s) (λ '(x, s1),
      obind (exchanges rs' s1) (λ '(xs, s2), Done (x :: xs, s2)))
  end.

(** The terminal, from the lines typed and the answers to the requests. *)
Fixpoint screen (op : bytes) (lines : list bytes) (answers : list (res bytes)) : list terminal :=
  match lines with
  | [] => invitation ++ [closed_note]
  | l :: ls =>
      let r := TrimSpace l in
      if bool_decide (r = []) then invitation ++ [Out prompt] ++ screen op ls answers
      else if is_exit r then invitation ++ [exit_note op]
      else match answers with
           | [] => []
           | a :: answers' => invitation ++ show a ++ screen op ls answers'
           end
  end.

(** ** Lemmas *)

Lemma ReadString_line l rest : Forall (λ b, b ≠ newline) l →
  ReadString (l ++ newline :: rest) = Some (l ++ [newline], rest).
Proof.
  induction 1 as [|b l Hb Hl IH]; simpl; [done|].
  rewrite bool_decide_eq_false_2 by done. by rewrite IH.
Qed.

Lemma ReadString_none l : Forall (λ b, b ≠ newline) l → ReadString l = None.
Proof.
  induction 1 as [|b l Hb Hl IH]; simpl; [done|].
  rewrite bool_decide_eq_false_2 by done. by rewrite IH.
Qed.

(** Lines as typed, each ended by a newline. *)
Definition typed (lines : list bytes) : bytes := mjoin ((λ l, l ++ [newline]) <$> lines).

Lemma repl_spec op lines : ∀ fuel tl s,
  Forall (Forall (λ b, b ≠ newline)) lines → Forall (λ b, b ≠ newline) tl →
  (length (typed lines ++ tl) < fuel)%nat →
  let ls := (λ l, l ++ [newline]) <$> lines in
  repl fuel op (typed lines ++ tl) s =
    obind (exchanges (requests ls) s) (λ '(answers, s'), Done (screen op ls answers, s')).
Proof.
  induction lines as [|l lines IH]; intros fuel tl s Hl Ht Hf; cbn zeta.
  - destruct fuel; [simpl in Hf; lia|]. simpl. by rewrite ReadString_none.
  - apply Forall_cons in Hl as [Hl Hls].
    assert (typed (l :: lines) ++ tl = l ++ newline :: (typed lines ++ tl)) as E.
    { unfold typed. simpl. by rewrite <- !app_assoc. }
    rewrite E in *. rewrite length_app in Hf. simpl in Hf.
    destruct fuel as [|fuel]; [lia|]. cbn [repl]. rewrite ReadString_line by done.
    cbn [fmap list_fmap requests screen]. case_bool_decide.
    { rewrite (IH fuel tl s) by (done || lia). by destruct (exchanges _ s) as [[? ?]| |]. }
    destruct (is_exit (TrimSpace (l ++ [newline]))); [done|]. cbn [exchanges].
    destruct (exchange _ s) as [[r s1]| |]; simpl; [|done..]. rewrite (IH fuel tl s1) by (done || lia).
    by destruct (exchanges _ s1) as [[? ?]| |].
Qed.

End repl.

(** ** The whole client *)

(** What the network does with a request: the errors of writing and reading,
    and the bytes that arrive before the read returns. *)
Context {fp : FlagParsers} {W : Type} (network : bytes → W → error * error * bytes * W).

(** [SendAndReceive] over that network; the first part of the state is what
    has arrived and was not read. *)
Definition send_over (client : TCPClient) (request : bytes) (s : bytes * W) : outcome (res bytes * (bytes * W)) :=
  let '(write_err, read_err, arrived, w) := network request s.2 in
  obind (SendAndReceive client write_err read_err s.1 arrived) (λ '(r, unread), Done (r, (unread, w))).

(** [Run]: the exit status, and the terminal. The context is given to the
    dialer only. *)
Definition Run (args : list bytes) (input : bytes) (w : W) : outcome (Z * list terminal) :=
  match parseFlags args with
  | inl code => Done (code, [])
  | inr (address, idleTimeout, maxMessageSize, env) =>
      let '(log, out1) := CliCreateLogger env in
      let '(r, out2) := buildClient log address idleTimeout maxMessageSize in
      match r with
      | inl code => Done (code, out1 ++ out2)
      | inr client =>
          obind (replLoop (send_over client) (str "AppCli.Run") input ([], w)) (λ '(out3, _),
          Done (0, out1 ++ out2 ++ out3))
      end
  end.

(** [main] of [cmd/cli]: an [AppCli] has no state, and the signals it catches
    only cancel the context of [Run]. *)
Definition cli_main (args : list bytes) (input : bytes) (w : W) : outcome (Z * list terminal) := Run args input w.

Lemma send_over_answers client request s : conn client ≠ None → ∃ r s', send_over client request s = Done (r, s').
Proof.
  intros Hc. unfold send_over. destruct (network request s.2) as [[[we re] ar] w].
  unfold SendAndReceive. destruct (conn client); [|done]. repeat case_match; by eexists _, _.
Qed.

Lemma exchanges_answers client rs : ∀ s, conn client ≠ None →
  ∃ answers s', exchanges (send_over client) rs s = Done (answers, s').
Proof.
  induction rs as [|r rs IH]; intros s Hc; [by eexists _, _|]. simpl.
  destruct (send_over_answers client r s Hc) as (x & s1 & ->). simpl.
  destruct (IH s1 Hc) as (xs & s2 & ->). by eexists _, _.
Qed.

(** Every input is some complete lines and a rest without newline. *)
Lemma typed_lines input : ∃ lines tl, input = typed lines ++ tl ∧
  Forall (Forall (λ b, b ≠ newline)) lines ∧ Forall (λ b, b ≠ newline) tl.
Proof.
  induction input as [|b input (lines & tl & -> & Hl & Ht)]; [by exists [], []|].
  destruct (decide (b = newline)) as [->|Hb].
  - exists ([] :: lines), tl. split; [done|]. split; [by constructor|done].
  - destruct lines as [|l lines].
    + exists [], (b :: tl). split; [done|]. split; [done|by constructor].
    + exists ((b :: l) :: lines), tl. apply Forall_cons in Hl as [Hl Hls]. split; [done|].
      split; [by repeat constructor|done].
Qed.

End client.

(** *** Spellings of flags *)

(** One or two dashes; the value after an equals sign or as the next argument. *)
Record spelling := { two_dashes : bool; joined : bool; flag_name : bytes; flag_text : bytes }.

(** The settings, from left to right; nothing if a value is refused. *)
Definition settle {fp : FlagParsers} (o : option flags) (xs : list spelling) : option flags :=
  foldl (λ o x, f ← o; set ← lookup_flag (flag_name x); set (flag_text x) f) o xs.

Definition spell (x : spelling) : list bytes :=
  let name := (if two_dashes x then [dash; dash] else [dash]) ++ flag_name x in
  if joined x then [name ++ equals :: flag_text x] else [name; flag_text x].

Lemma cut_equals_name n v : equals ∉ n → cut_equals (n ++ equals :: v) = (n, Some v) ∧ cut_equals n = (n, None).
Proof.
  induction n as [|b n IH]; intros Hn; [done|]. apply not_elem_of_cons in Hn as [Hb Hn]. simpl.
  rewrite bool_decide_eq_false_2 by done. by destruct (IH Hn) as [-> ->].
Qed.

(** The names of the flags. *)
Lemma lookup_flag_name {fp : FlagParsers} name set : lookup_flag name = Some set →
  ∃ n0 n, name = n0 :: n ∧ n0 ≠ dash ∧ n0 ≠ equals ∧ equals ∉ n.
Proof.
  unfold lookup_flag. intros E.
  repeat (case_bool_decide; [subst; eexists _, _; split; [reflexivity|]; split; [done|]; split; [done|];
    by apply (bool_decide_unpack _)|]). done.
Qed.

(** One round of the loop on an argument that names a flag. *)
Lemma Parse_named {fp : FlagParsers} two n0 m n value args f set :
  n0 ≠ dash → n0 ≠ equals → cut_equals m = (n, value) → lookup_flag (n0 :: n) = Some set →
  Parse (((if two : bool then [dash; dash] else [dash]) ++ n0 :: m) :: args) f =
    if is_bool_flag (n0 :: n) then
      match set (default (str "true") value) f with Some f' => Parse args f' | None => UsageExit 2 end
    else match value with
         | Some v => match set v f with Some f' => Parse args f' | None => UsageExit 2 end
         | None => match args with
                   | [] => UsageExit 2
                   | v :: args' => match set v f with Some f' => Parse args' f' | None => UsageExit 2 end
                   end
         end.
Proof.
  intros Hd He Hcut Hset.
  assert (bool_decide (n0 = dash ∨ n0 = equals) = false) as Hn0 by (apply bool_decide_eq_false_2; by intros []).
  destruct two; cbn [app Parse]; rewrite (bool_decide_eq_false_2 (dash ≠ dash)) by (by intros []).
  - rewrite bool_decide_eq_false_2 by (by intros [_ [=]]). rewrite bool_decide_eq_true_2 by done.
    by rewrite Hn0, Hcut, Hset.
  - rewrite bool_decide_eq_false_2 by (by intros [? _]). rewrite bool_decide_eq_false_2 by done.
    by rewrite Hn0, Hcut, Hset.
Qed.

Lemma Parse_spelled {fp : FlagParsers} x set f f' rest : lookup_flag (flag_name x) = Some set →
  set (flag_text x) f = Some f' → (is_bool_flag (flag_name x) = true → joined x = true) →
  Parse (spell x ++ rest) f = Parse rest f'.
Proof.
  intros Hset Hf Hb. destruct x as [two j name text]. cbn [flag_name flag_text two_dashes joined] in *.
  destruct (lookup_flag_name _ _ Hset) as (n0 & n & -> & Hd & He & Hn).
  destruct (cut_equals_name n text Hn) as [Hcut Hcut'].
  unfold spell. cbn [flag_name flag_text two_dashes joined].
  destruct j; rewrite <- ?app_assoc; cbn [app].
  - rewrite (Parse_named two n0 _ n (Some text) rest f set) by done. unfold default, id. rewrite Hf.
    by destruct (is_bool_flag _).
  - rewrite (Parse_named two n0 n n None (text :: rest) f set) by done. rewrite Hf.
    destruct (is_bool_flag _); [by specialize (Hb eq_refl)|done].
Qed.

Lemma settle_some {fp : FlagParsers} xs : ∀ o f, settle o xs = Some f → is_Some o.
Proof.
  induction xs as [|y ys IH]; intros o f E; [by eexists|].
  simpl in E. apply IH in E as [g E]. destruct o; [by eexists|done].
Qed.

(** The process ends with status zero or two at the flags. *)
Lemma Parse_exit {fp : FlagParsers} n : ∀ args f code, (length args ≤ n)%nat →
  Parse args f = UsageExit code → code = 0 ∨ code = 2.
Proof.
  induction n as [|n IH]; intros args f code Hn; (destruct args as [|s args]; [done|]); simpl in Hn; [lia|].
  assert (∀ f, Parse args f = UsageExit code → code = 0 ∨ code = 2) as Hnext by (intros; eapply IH; [|done]; lia).
  destruct s as [|d [|c after]]; try done. cbn [Parse].
  case_bool_decide; [done|]. case_bool_decide; [done|].
  destruct (if bool_decide (c = dash) then _ else _) as [|n0 m]; [intros [= <-]; tauto|].
  case_bool_decide; [intros [= <-]; tauto|]. destruct (cut_equals m) as [name value].
  destruct (lookup_flag _) as [set|]; [|case_bool_decide; intros [= <-]; tauto].
  destruct (is_bool_flag _).
  { destruct (set _ f); [apply Hnext|intros [= <-]; tauto]. }
  destruct value as [v|]; [destruct (set _ f); [apply Hnext|intros [= <-]; tauto]|].
  destruct args as [|v args]; [intros [= <-]; tauto|]. simpl in Hn.
  destruct (set v f); [intros; eapply IH; [|done]; lia|intros [= <-]; tauto].
Qed.

(** ** Properties *)

(** C32: the loop forwards exactly the non-blank lines before the first [exit]
    (in any letter case), trimmed and in order, and writes to the terminal the
    prompts, each answer or a note of its failure, and a final note; a last
    line without its newline is dropped. *)
Theorem repl_forwards {S : Type} (error_text : gerr → bytes) (exchange : bytes → S → outcome (res bytes * S))
  (op : bytes) (lines : list bytes) (tl : bytes) (s : S)
  (Hlines : Forall (Forall (λ b, b ≠ newline)) lines) (Htl : Forall (λ b, b ≠ newline) tl) :
  let ls := (λ l, l ++ [newline]) <$> lines in
  replLoop error_text exchange op (typed lines ++ tl) s =
    obind (exchanges exchange (requests ls) s) (λ '(answers, s'), Done (screen error_text op ls answers, s')).
Proof. apply repl_spec; [done..|lia]. Qed.

Lemma repl_forwards_witness :
  replLoop (λ _, []) (λ r n, Done (Ok r, Datatypes.S n)) (str "op")
    (typed [str "GET a"; str "  "; str " get b "; str "ExIt"; str "GET c"] ++ str "GET d") 0%nat =
  Done (invitation ++ [Out (str "GET a" ++ [newline]); Out prompt] ++
        invitation ++ [Out prompt] ++
        invitation ++ [Out (str "get b" ++ [newline]); Out prompt] ++
        invitation ++ [exit_note (str "op")], 2%nat).
Proof.
  apply (repl_forwards (λ _, []) (λ r n, Done (Ok r, Datatypes.S n)) (str "op")
    [str "GET a"; str "  "; str " get b "; str "ExIt"; str "GET c"] (str "GET d") 0%nat);
    repeat (constructor || discriminate).
Defined.

(** The client ends on every command line, input and behaviour of the
    network, with status zero, one or two and never by a panic; with a valid
    command line and a connection it ends with status zero. *)
Theorem cli_total {net : NetEnv} {fp : FlagParsers} {W : Type} (error_text : gerr → bytes)
  (network : bytes → W → error * error * bytes * W) (args : list bytes) (input : bytes) (w : W) :
  ∃ code out, cli_main error_text network args input w = Done (code, out) ∧ (code = 0 ∨ code = 1 ∨ code = 2) ∧
    (∀ address idle size env, parseFlags args = inr (address, idle, size, env) → dial_error address = None → code = 0).
Proof.
  unfold cli_main, Run. destruct (parseFlags args) as [code|[[[address idle] size] env]] eqn:Ep.
  - exists code, []. split; [done|]. split; [|done]. unfold parseFlags in Ep.
    destruct (Parse _ _) as [|c] eqn:E; [done|]. injection Ep as ->.
    apply (Parse_exit _ _ _ _ (Nat.le_refl _)) in E. tauto.
  - destruct (CliCreateLogger env) as [log out1]. unfold buildClient.
    destruct (NewTCPClient _ _) as [client|e] eqn:Ec.
    + assert (conn client ≠ None) as Hc.
      { unfold NewTCPClient in Ec. repeat case_match; by simplify_eq. }
      destruct (typed_lines input) as (lines & tl & -> & Hl & Ht). unfold replLoop.
      rewrite repl_spec by (done || lia).
      destruct (exchanges_answers network client (requests ((λ l, l ++ [newline]) <$> lines)) ([], w) Hc)
        as (answers & s' & ->). simpl.
      eexists _, _. split; [done|]. by split; [left|].
    + eexists _, _. split; [done|]. split; [tauto|]. intros a i sz en [= -> -> -> ->] Hd.
      unfold NewTCPClient in Ec. simpl in Ec. by rewrite Hd in Ec.
Qed.

(** The flags are read back as they are spelled, with one dash or two and
    with the value after an equals sign or as the next argument, later ones
    overriding earlier ones, up to the first argument that is no flag; a
    leading double dash changes nothing. *)
Theorem flags_read_back {fp : FlagParsers} (xs : list spelling) (rest : list bytes) (f f' : flags)
  (Hrest : ∀ a args, rest = a :: args → head a ≠ Some dash)
  (Hxs : settle (Some f) xs = Some f')
  (Hbool : Forall (λ x, is_bool_flag (flag_name x) = true → joined x = true) xs) :
  Parse (mjoin (spell <$> xs) ++ rest) f = Parsed f' rest ∧
  (f = default_flags → head xs ≠ None →
     parseFlags (str "--" :: mjoin (spell <$> xs) ++ rest) = parseFlags (mjoin (spell <$> xs) ++ rest)).
Proof.
  split.
  - revert f Hxs. induction Hbool as [|x xs Hx Hxs' IH]; intros f Hxs.
    + simpl in *. simplify_eq. destruct rest as [|a args]; [done|]. specialize (Hrest a args eq_refl).
      destruct a as [|d [|c a]]; [done..|]. cbn [Parse]. rewrite bool_decide_eq_true_2; [done|].
      intros ->. by apply Hrest.
    + simpl in Hxs. pose proof (settle_some _ _ _ Hxs) as [g Hg]. rewrite Hg in Hxs.
      destruct (lookup_flag (flag_name x)) as [set|] eqn:Hset; [|done]. simpl in Hg.
      rewrite fmap_cons. simpl. rewrite <- app_assoc, (Parse_spelled x set f g) by done. by apply IH.
  - intros -> Hne. destruct xs as [|x xs]; [done|]. simpl in Hxs. pose proof (settle_some _ _ _ Hxs) as [g Hg].
    destruct (lookup_flag (flag_name x)) as [set|] eqn:Hset; [|done].
    destruct (lookup_flag_name _ _ Hset) as (n0 & n & Hn & Hd & _).
    assert (∃ a args, mjoin (spell <$> x :: xs) ++ rest = a :: args ∧ a ≠ str "--") as (a & args & -> & Ha).
    { unfold spell at 1. rewrite fmap_cons, Hn.
      destruct (joined x), (two_dashes x); (eexists _, _; split; [reflexivity|]); by intros [= ->]. }
    unfold parseFlags. by rewrite bool_decide_eq_true_2, bool_decide_eq_false_2.
Qed.

(** Decimal sizes, and one duration. *)
Definition demo_parsers : FlagParsers :=
  {| ParseDuration := λ s, if bool_decide (s = str "1m") then Some Minute else None; ParseInt0 := ParseInt |}.

Definition demo_settings : list spelling :=
  [{| two_dashes := false; joined := true; flag_name := str "address"; flag_text := str "db:1" |};
   {| two_dashes := true; joined := false; flag_name := str "mes_size"; flag_text := str "512" |};
   {| two_dashes := true; joined := true; flag_name := str "debug"; flag_text := str "f" |};
   {| two_dashes := false; joined := false; flag_name := str "idle"; flag_text := str "1m" |}].

Lemma flags_read_back_witness :
  let args := str <$> ["-address=db:1"; "--mes_size"; "512"; "--debug=f"; "-idle"; "1m"; "rest"]%string in
  let f := {| addressFlag := str "db:1"; idleFlag := Minute; maxMessageSizeFlag := 512; debugFlag := false |} in
  @Parse demo_parsers args default_flags = Parsed f [str "rest"] ∧
  @parseFlags demo_parsers (str "--" :: args) = @parseFlags demo_parsers args.
Proof.
  destruct (@flags_read_back demo_parsers demo_settings [str "rest"] default_flags
    {| addressFlag := str "db:1"; idleFlag := Minute; maxMessageSizeFlag := 512; debugFlag := false |}) as [H1 H2].
  - by intros a args [= <- <-].
  - vm_compute. reflexivity.
  - by repeat constructor.
  - split; [exact H1|by apply H2].
Defined.
